(* ===== verification/_CoqProject ===== *)
-Q . S2P
Prelude.v
Numbers.v
Utf8.v
Paths.v
Errors.v
Values.v
World.v
MemoryStore.v
StoreInv.v
StoreSpec.v
StoreThms.v
Steps.v
StepThms.v
Threads.v
Schedules.v
ThreadThms.v
Linear.v
Counters.v
Races.v
Protocol.v
ProtocolLemmas.v
ProtocolThms.v
Command.v
StringCommands.v
TtlCommands.v
HashCommands.v
Glob.v
Persistence.v
ServerCommands.v
PersistThms.v
Effects.v
StoreEffects.v
CommandThms.v
Replies.v
Calls.v
CommandSteps.v
RewriteThms.v
Metrics.v
MetricsThms.v
Connection.v
PoolThms.v
Server.v
ServerThms.v
ReplayThms.v
RecoveryThms.v
Clients.v
ClientRecovery.v
Config.v
ConfigThms.v
Lifecycle.v
LifecycleThms.v
LogRotation.v
LogRotationThms.v
Floats.v
Rates.v
Health.v
HealthThms.v
Monitoring.v
MonitoringThms.v
Cli.v
CliThms.v
Startup.v
StartupThms.v
Tasks.v
TaskThms.v
