(* ===== verification/Prelude.v ===== *)
(** * RustyPotato: a verification of the key-value server

    RustyPotato (src/src) is a server that speaks the Redis protocol over
    TCP.  A connection's octets are decoded into commands
    (network/protocol.rs), a registry finds the command and checks its
    arity (commands/registry.rs), the command acts on one shared table of
    keys (storage/memory.rs), commands that change the table are appended
    to a file (storage/persistence.rs), and the reply is encoded and sent.
    At start-up the file is replayed through the same commands (lib.rs).

    ** Files and what they model

    - [Prelude]: octets, results, machine integers, tactics.
    - [Numbers]: Rust's integer parsing and decimal printing.
    - [Utf8]: Rust's UTF-8 validation, lossy decoding and letter case.
    - [Errors]: error.rs.
    - [Values]: the values of storage/memory.rs ([ValueType],
      [ValueMetadata], [StoredValue] and the option types).
    - [World]: the environment ([Env]: two clocks, the iteration order of
      hash tables, the range of [Instant], I/O outcomes, Unicode upper
      case), the state ([World]: the store, the rest of the process), and
      the monad [M] of code that reads the one and changes the other and
      may panic.
    - [MemoryStore]: every method of [MemoryStore].
    - [StoreInv], [StoreSpec], [StoreThms]: the store's invariant, the
      abstract store ([spec]) and the theorems that tie them to the code.
    - [Protocol], [ProtocolLemmas], [ProtocolThms]: the RESP codec.
    - [Command]: the command trait, arguments, the registry.
    - [StringCommands], [TtlCommands], [HashCommands], [ServerCommands]:
      one [*_execute] per command, and the registries lib.rs builds;
      [Glob]: the pattern matcher of KEYS.
    - [Persistence]: the append-only file: writer task, channel, manager,
      rewriting, snapshots as commands, recovery.
    - [Effects], [CommandThms]: properties of commands that follow their
      structure, and the theorems about all of them.
    - [PersistThms], [RewriteThms]: the theorems about the file, the
      writer task, recovery and rewriting.
    - [StoreEffects], [ReplayThms], [RecoveryThms]: what commands do to the
      log and to what is visible, and recovery of what a server did.
    - [Metrics], [MetricsThms]: metrics/mod.rs and metrics/collector.rs.
    - [Connection], [PoolThms]: network/connection.rs; the methods of the
      pool as sequences of atomic operations and their interleavings.
    - [Server], [ServerThms]: the connection handler of network/server.rs,
      from the octets read to the replies written, and accepting.
    - [Clients], [ClientRecovery]: handlers side by side, interleaved also
      inside their commands, with the log, the writer task and rewrites;
      recovery of what concurrent clients did.
    - [Paths]: [std::path] on Unix.
    - [Config], [ConfigThms]: config.rs.
    - [Lifecycle], [LifecycleThms]: starting, the accept loop, draining and
      shutting down (network/server.rs and lib.rs).
    - [LogRotation], [LogRotationThms]: monitoring/log_rotation.rs.
    - [Floats]: [f64], with its arithmetic and formatting; [Rates]: the
      percentiles, rates and summary of metrics/.
    - [Health], [HealthThms]: monitoring/health.rs.
    - [Monitoring], [MonitoringThms]: monitoring.rs, the HTTP answers and
      the Prometheus text.
    - [Cli], [CliThms]: cli/ and bin/cli.rs.
    - [Startup], [StartupThms]: bin/server.rs.
    - [Tasks], [TaskThms]: the tasks the server spawns and the coordinator
      of the binary (network/server.rs, monitoring.rs, log_rotation.rs,
      bin/server.rs); command lines (commands/registry.rs).
    - [Steps], [StepThms]: the methods of the store as programs of atomic
      steps, cut where the code holds no lock.
    - [Threads], [Schedules], [ThreadThms], [Linear], [Counters], [Races]:
      several threads inside the store: what they keep, when every
      operation takes effect at one instant, and what is lost otherwise.
    - [Calls], [CommandSteps]: commands as calls on the store, and commands
      of concurrent clients in these steps.
    - [Replies]: the types of the replies.

    ** How code is represented

    Strings, byte slices and [Bytes] are lists of octets.  A [Result] is
    [result].  A DashMap is a [gmap]; iterating it visits the entries in an
    order the environment chooses.  [async] code and code that takes locks
    is written as the sequence of its table accesses, clock readings and
    I/O calls, in the order of the source, by one thread; [Steps] and
    [Clients] say where other threads can come in.  Each clock
    reading and I/O outcome is a fresh element of a stream, so nothing is
    assumed about how fast time passes; theorems that need a monotonic
    clock say so ([EnvOk]).  A panic is an outcome that keeps the changes
    made before it.

    ** What the theorems show

    - Store: [store_invariant], [store_refines_spec], [store_frame],
      [store_error_unchanged], [store_panic_iff].
    - Protocol: [resp_roundtrip], [partial_frame_waits],
      [command_roundtrip], [frame_is_exact], [chunking_independent],
      [decode_within_limits].
    - Commands: [commands_keep_invariant], [unlogged_commands_invisible],
      [commands_do_not_panic], [dispatch_guards], [set_get_roundtrip],
      [mutations_are_replayable], [command_count_reported],
      [Glob.glob_correct].
    - Persistence: [aof_complete], [always_is_durable],
      [recovery_replays_log], [rewrite_recover_roundtrip]; the limits of
      the code are shown by [partial_write_repeats] and
      [rewrite_revives_expired].
    - The whole path: [stream_served_in_order] (packets to commands to
      replies), [crash_recovery] (what was served comes back after a
      restart), [failed_commands_clean].
    - Several clients: [clients_logged_once] and [dispatch_is_steps] show
      that the log is complete however clients interleave;
      [concurrent_recovery] that a restart recovers what they did when each
      has keys of its own;
      [log_order_can_cross] and [rewrite_can_count_twice] are runs after
      which a restart recovers something else; [connection_limit_hard] and
      [pool_methods_are_steps] are about the connection pool.
    - Lifecycle: [drain_terminates], [shutdown_durable], [start_once].
    - Configuration: [load_accepts_iff], [default_config_accepted],
      [bare_log_name_rejected].
    - Metrics: [histogram_counts], [average_spec],
      [command_table_bounded].
    - Log rotation: [cleanup_keeps_newest]; [compression_overwrites] and
      [bare_log_rotation_fails] show what it does not do.
    - Health and monitoring: [health_report_sound] (what a report means and
      what the check touches), [responses_framed] (every answer can be read
      back), [prometheus_exports_counts]; [probes_get_full_check] shows
      that the probes for readiness and liveness are never reached.
    - The client: [cli_end_to_end] (from the command typed to the reply
      shown, with the server in between), [completion_matches_server].
    - The binary: [stuck_connection_skips_flush] (its timeout is as long as
      the wait for connections), [accepted_dir_exists],
      [monitoring_port_spec].
    - Threads inside the store: [run_prog] (the steps are the methods),
      [threads_keep_types], [linearizable], [commands_linearizable] and
      [increments_add_up] (on keys without deadlines); [expiry_races],
      [hdel_races] and [flush_races] are runs in which an acknowledged
      write is lost, [mset_torn] one in which half an MSET is seen.
    - Replies: [replies_typed]; [error_reply_splits] shows that the text of
      an error can end the reply early.
    - Tasks: [client_slot_returned], [parse_input_words],
      [start_with_addr_start], [exit_code_zero].

    ** Fuel

    Recursion that is not structural carries fuel.  Array nesting in the
    parser uses the length of the input ([parse_fuel_enough]: more never
    changes the answer); the glob loop uses a product of the lengths
    ([glob_correct]: it always ends); the decoding loop uses the length of
    the buffer, since every command uses up at least one octet.  The drain
    loops take 302 polls ([POLLS]): 301 sleeps of 100 ms pass their limit
    of thirty seconds.

    ** What is not modelled

    The tokio runtime, the broadcast channel, signals, the logging
    subscriber, the line editor and the parsing of process
    arguments are I/O or libraries.  The [config], [toml], [chrono],
    [serde_json] and [flate2] crates are parameters, and so is the way
    DashMap distributes keys over shards ([Shards]).  A section that holds
    an entry and touches the expiration index once is one step ([Steps]
    says why).  KEYS, DBSIZE, INFO, COMMAND and BGREWRITEAOF are one step
    each.  Reserved capacities and memory exhaustion are not represented. *)

From Stdlib Require Export ZArith Lia Bool.
From Stdlib Require Import Ascii String.
From stdpp Require Export base tactics option list numbers gmap strings.

#[global] Open Scope Z_scope.

(** ** Bytes

    Rust's [String], [&str], [Bytes] and [Vec<u8>] are all sequences of
    octets; the model has one type for them.  That a Rust [String] holds
    valid UTF-8 is a property ([Utf8.from_utf8]), not a type. *)
Abbreviation byte := ascii.
Abbreviation bytes := (list ascii).

Definition bytes_of_string (s : string) : bytes := String.list_ascii_of_string s.

Declare Scope bytes_scope.
Notation "'b#' s" := (bytes_of_string s%string) (at level 1, s at level 0, format "'b#' s") : bytes_scope.
#[global] Open Scope bytes_scope.

(** The numeric value of an octet and back. *)
Definition u8 (c : byte) : Z := Z.of_N (N_of_ascii c).
Definition of_u8 (z : Z) : byte := ascii_of_N (Z.to_N z).

Definition CR : byte := of_u8 13.
Definition LF : byte := of_u8 10.
Definition CRLF : bytes := [CR; LF].

(** Map updates stay folded under [simpl]. *)
#[global] Arguments base.delete : simpl never.
#[global] Arguments base.insert : simpl never.
#[global] Arguments base.omap : simpl never.

(** Decidable equality tests as booleans. *)
Definition byte_eqb (x y : byte) : bool := bool_decide (x = y).
Definition bytes_eqb (x y : bytes) : bool := bool_decide (x = y).

(** [a <= c <= b] on octets, the range patterns [a..=b] of a Rust match. *)
Definition in_range (c : byte) (lo hi : Z) : bool := (lo <=? u8 c) && (u8 c <=? hi).

(** ** Fallible results

    [result E A] is Rust's [Result<A, E>]. *)
Inductive result (E A : Type) : Type :=
| Ok (a : A)
| Err (e : E).
Arguments Ok {E A} a.
Arguments Err {E A} e.

#[global] Instance result_eq_dec {E A} `{EqDecision E, EqDecision A} : EqDecision (result E A).
Proof. solve_decision. Defined.

#[global] Instance result_ret {E} : MRet (result E) := fun A a => Ok a.
#[global] Instance result_bind {E} : MBind (result E) :=
  fun A B f m => match m with Ok a => f a | Err e => Err e end.
#[global] Instance result_fmap {E} : FMap (result E) :=
  fun A B f m => match m with Ok a => Ok (f a) | Err e => Err e end.

Definition is_ok {E A} (r : result E A) : bool := match r with Ok _ => true | Err _ => false end.

(** ** Machine integers

    A w-bit integer is a [Z]; the type's range and the wrap-around of an
    [as] cast are written out. *)
Definition U64_MAX : Z := 2 ^ 64 - 1.
Definition I64_MAX : Z := 2 ^ 63 - 1.
Definition I64_MIN : Z := - 2 ^ 63.
Definition I32_MAX : Z := 2 ^ 31 - 1.
Definition I32_MIN : Z := - 2 ^ 31.

Definition wrap_u32 (z : Z) : Z := z mod 2 ^ 32.
Definition wrap_u64 (z : Z) : Z := z mod 2 ^ 64.
Definition wrap_i64 (z : Z) : Z := (z + 2 ^ 63) mod 2 ^ 64 - 2 ^ 63.

Definition in_i64 (z : Z) : bool := (I64_MIN <=? z) && (z <=? I64_MAX).
Definition in_u64 (z : Z) : bool := (0 <=? z) && (z <=? U64_MAX).

(** [i64::checked_add]. *)
Definition checked_add_i64 (x y : Z) : option Z :=
  if in_i64 (x + y) then Some (x + y) else None.

(** [u64::saturating_mul], [u64::saturating_add] on operands in range. *)
Definition saturating_mul_u64 (x y : Z) : Z := Z.min U64_MAX (x * y).
Definition saturating_add_u64 (x y : Z) : Z := Z.min U64_MAX (x + y).

(** Length of a slice as a [usize]. *)
Definition zlen {A} (l : list A) : Z := Z.of_nat (length l).

(** ** Automation *)
Create HintDb potato.
Create Rewrite HintDb potato.

(** Unfold the machine constants so that [lia] sees numbers. *)
Ltac unfold_ints :=
  unfold in_i64, in_u64, checked_add_i64, saturating_add_u64, saturating_mul_u64,
    U64_MAX, I64_MAX, I64_MIN, I32_MAX, I32_MIN, zlen in *.

(** Case analysis on every boolean comparison in sight. *)
Ltac bool_cases :=
  repeat match goal with
  | |- context [ ?x <=? ?y ] => destruct (Z.leb_spec x y)
  | |- context [ ?x <? ?y ] => destruct (Z.ltb_spec x y)
  | |- context [ ?x =? ?y ] => destruct (Z.eqb_spec x y)
  | H : context [ ?x <=? ?y ] |- _ => destruct (Z.leb_spec x y)
  | H : context [ ?x <? ?y ] |- _ => destruct (Z.ltb_spec x y)
  | H : context [ ?x =? ?y ] |- _ => destruct (Z.eqb_spec x y)
  end.

(** Split every hypothesis and goal [match]. *)
Ltac case_all := repeat (case_match; simplify_eq/=; try done).

(** ** Generic lemmas: octets *)
Lemma u8_range c : 0 <= u8 c < 256.
Proof. unfold u8. pose proof (N_ascii_bounded c). lia. Qed.

Lemma of_u8_u8 c : of_u8 (u8 c) = c.
Proof. unfold of_u8, u8. rewrite N2Z.id. apply ascii_N_embedding. Qed.

Lemma u8_of_u8 z : 0 <= z < 256 -> u8 (of_u8 z) = z.
Proof.
  intros H. unfold of_u8, u8. rewrite N_ascii_embedding by lia. lia.
Qed.

Lemma u8_inj c d : u8 c = u8 d -> c = d.
Proof. intros H. rewrite <- (of_u8_u8 c), <- (of_u8_u8 d). by rewrite H. Qed.

Lemma byte_eqb_spec x y : reflect (x = y) (byte_eqb x y).
Proof. apply bool_decide_reflect. Qed.

Lemma bytes_eqb_spec x y : reflect (x = y) (bytes_eqb x y).
Proof. apply bool_decide_reflect. Qed.

Lemma byte_eqb_refl x : byte_eqb x x = true.
Proof. by apply bool_decide_eq_true_2. Qed.

Lemma bytes_eqb_refl x : bytes_eqb x x = true.
Proof. by apply bool_decide_eq_true_2. Qed.

#[export] Hint Rewrite byte_eqb_refl bytes_eqb_refl : potato.

(** ** Generic lemmas: integers *)
Lemma in_i64_spec z : in_i64 z = true <-> I64_MIN <= z <= I64_MAX.
Proof. unfold in_i64. rewrite andb_true_iff, !Z.leb_le. lia. Qed.

Lemma checked_add_i64_Some x y z :
  checked_add_i64 x y = Some z <-> z = x + y /\ I64_MIN <= x + y <= I64_MAX.
Proof.
  unfold checked_add_i64. pose proof (in_i64_spec (x + y)) as Hs.
  destruct (in_i64 (x + y)); [|naive_solver]. split; naive_solver.
Qed.

Lemma wrap_i64_id z : I64_MIN <= z <= I64_MAX -> wrap_i64 z = z.
Proof. unfold wrap_i64. unfold_ints. intros. rewrite Z.mod_small; lia. Qed.

(** ** Generic lemmas: lists *)
Lemma take_app_exact {A} (l k : list A) : take (length l) (l ++ k) = l.
Proof. by rewrite take_app_length. Qed.

Lemma drop_app_exact {A} (l k : list A) : drop (length l) (l ++ k) = k.
Proof. by rewrite drop_app_length. Qed.

Lemma Forall_map_iff {A B} (f : A -> B) (P : B -> Prop) l :
  Forall P (map f l) <-> Forall (fun x => P (f x)) l.
Proof. apply Forall_fmap. Qed.
