(* ===== verification/Numbers.v ===== *)
(** * Decimal integers: Rust's [str::parse] and [to_string]

    [parse_int] follows [core::num::from_str_radix] at radix 10: an empty
    input or a lone sign is an error, a leading [+] is accepted by every
    integer type, a leading [-] only by the signed ones, and the
    accumulator is checked against the type's range at every digit.
    [dec] is the [Display] of an integer.  The file proves that printing
    then parsing is the identity exactly on the type's range, and that a
    parsed number is always in range. *)

From S2P Require Import Prelude.

Definition is_digit (c : byte) : bool := in_range c 48 57.
Definition digit_val (c : byte) : Z := u8 c - 48.
Definition digit (d : Z) : byte := of_u8 (48 + d).

(** ** Parsing *)

(** The checked accumulation loop; [sgn] is 1 or -1. *)
Fixpoint parse_digits (lo hi sgn acc : Z) (s : bytes) : option Z :=
  match s with
  | [] => Some acc
  | c :: s' =>
      if negb (is_digit c) then None
      else
        let m := acc * 10 in
        if (m <? lo) || (hi <? m) then None
        else
          let r := m + sgn * digit_val c in
          if (r <? lo) || (hi <? r) then None else parse_digits lo hi sgn r s'
  end.

Definition PLUS : byte := of_u8 43.
Definition MINUS : byte := of_u8 45.

Definition parse_int (signed : bool) (lo hi : Z) (s : bytes) : option Z :=
  match s with
  | [] => None
  | c :: s' =>
      if (byte_eqb c PLUS || byte_eqb c MINUS) && bool_decide (s' = []) then None
      else if byte_eqb c PLUS then parse_digits lo hi 1 0 s'
      else if signed && byte_eqb c MINUS then parse_digits lo hi (-1) 0 s'
      else parse_digits lo hi 1 0 s
  end.

Definition parse_i64 : bytes -> option Z := parse_int true I64_MIN I64_MAX.
Definition parse_i32 : bytes -> option Z := parse_int true I32_MIN I32_MAX.
Definition parse_u64 : bytes -> option Z := parse_int false 0 U64_MAX.

(** ** Printing *)
Fixpoint dec_pos (fuel : nat) (n : Z) : bytes :=
  match fuel with
  | O => []
  | S f => if n <? 10 then [digit n] else dec_pos f (n / 10) ++ [digit (n mod 10)]
  end.

(** Enough fuel: every division by ten removes at least one binary digit. *)
Definition dec_fuel (n : Z) : nat := S (Z.to_nat (Z.log2 n)).

Definition dec (z : Z) : bytes :=
  if z <? 0 then MINUS :: dec_pos (dec_fuel (- z)) (- z) else dec_pos (dec_fuel z) z.

Example dec_ex : dec (-9223372036854775808) = b#"-9223372036854775808".
Proof. reflexivity. Qed.
Example parse_ex : parse_i64 (b#"+007") = Some 7.
Proof. reflexivity. Qed.
Example parse_u64_neg : parse_u64 (b#"-1") = None.
Proof. reflexivity. Qed.
Example parse_i64_over : parse_i64 (b#"9223372036854775808") = None.
Proof. reflexivity. Qed.

(** ** Lemmas *)
Lemma digit_is_digit d : 0 <= d < 10 -> is_digit (digit d) = true.
Proof.
  intros H. unfold is_digit, in_range, digit. rewrite u8_of_u8 by lia.
  apply andb_true_iff; rewrite !Z.leb_le; lia.
Qed.

Lemma digit_val_digit d : 0 <= d < 10 -> digit_val (digit d) = d.
Proof. intros H. unfold digit_val, digit. rewrite u8_of_u8; lia. Qed.

Lemma is_digit_range c : is_digit c = true -> 0 <= digit_val c < 10.
Proof. unfold is_digit, in_range, digit_val. rewrite andb_true_iff, !Z.leb_le. lia. Qed.

Lemma digit_not_sign d : 0 <= d < 10 -> digit d <> PLUS /\ digit d <> MINUS.
Proof.
  intros H. unfold PLUS, MINUS, digit.
  split; intros E; apply (f_equal u8) in E; rewrite !u8_of_u8 in E by lia; lia.
Qed.

(** The digits of [s], most significant first, read into [acc]. *)
Fixpoint horner (acc : Z) (s : bytes) : Z :=
  match s with [] => acc | c :: s' => horner (acc * 10 + digit_val c) s' end.

Lemma horner_app acc s t : horner acc (s ++ t) = horner (horner acc s) t.
Proof. revert acc. induction s as [|c s IH]; intros acc; [done|]. apply IH. Qed.

Lemma horner_ge acc s :
  0 <= acc -> Forall (fun c => is_digit c = true) s -> acc <= horner acc s.
Proof.
  intros Ha Hs. revert acc Ha. induction Hs as [|c s Hc _ IH]; intros acc Ha; simpl; [lia|].
  apply is_digit_range in Hc. specialize (IH (acc * 10 + digit_val c)). lia.
Qed.

Lemma parse_digits_pos lo hi acc s :
  lo <= 0 -> 0 <= acc -> Forall (fun c => is_digit c = true) s -> horner acc s <= hi ->
  parse_digits lo hi 1 acc s = Some (horner acc s).
Proof.
  intros Hlo Ha Hs. revert acc Ha. induction Hs as [|c s Hc Hs IH]; intros acc Ha Hh; [done|].
  simpl in *. rewrite Hc. simpl. apply is_digit_range in Hc.
  assert (acc * 10 + digit_val c <= horner (acc * 10 + digit_val c) s) by (apply horner_ge; [lia|done]).
  replace (acc * 10 + 1 * digit_val c) with (acc * 10 + digit_val c) by lia.
  bool_cases; simpl; try lia. apply IH; lia.
Qed.

Lemma parse_digits_neg lo hi acc s :
  0 <= hi -> 0 <= acc -> Forall (fun c => is_digit c = true) s -> lo <= - horner acc s ->
  parse_digits lo hi (-1) (- acc) s = Some (- horner acc s).
Proof.
  intros Hhi Ha Hs. revert acc Ha. induction Hs as [|c s Hc Hs IH]; intros acc Ha Hh; [done|].
  simpl in *. rewrite Hc. simpl. apply is_digit_range in Hc.
  assert (acc * 10 + digit_val c <= horner (acc * 10 + digit_val c) s) by (apply horner_ge; [lia|done]).
  replace (- acc * 10 + -1 * digit_val c) with (- (acc * 10 + digit_val c)) by lia.
  bool_cases; simpl; try lia. apply IH; lia.
Qed.

Lemma parse_digits_range lo hi sgn acc s z :
  lo <= acc <= hi -> parse_digits lo hi sgn acc s = Some z -> lo <= z <= hi.
Proof.
  revert acc. induction s as [|c s IH]; intros acc Ha; simpl; [naive_solver|].
  destruct (negb (is_digit c)); [done|]. bool_cases; simpl; try done. apply IH. lia.
Qed.

Lemma div10_log2 n : 10 <= n -> Z.log2 (n / 10) < Z.log2 n.
Proof.
  intros H. assert (Z.log2 (n / 2) < Z.log2 n) as H2.
  { rewrite <- (Z.div2_div n), Z.div2_spec, Z.log2_shiftr by lia.
    pose proof (Z.log2_pos n). lia. }
  eapply Z.le_lt_trans; [|exact H2]. apply Z.log2_le_mono, Z.div_le_compat_l; lia.
Qed.

Lemma dec_pos_spec f n :
  0 <= n -> (Z.to_nat (Z.log2 n) < f)%nat ->
  Forall (fun c => is_digit c = true) (dec_pos f n) /\ horner 0 (dec_pos f n) = n /\ dec_pos f n <> [].
Proof.
  revert n. induction f as [|f IH]; intros n Hn Hf; [lia|]. cbn [dec_pos].
  destruct (Z.ltb_spec n 10) as [Hlt|Hge].
  - simpl. rewrite digit_val_digit by lia. repeat split; try done.
    constructor; [by apply digit_is_digit|constructor].
  - pose proof (div10_log2 n Hge). pose proof (Z.log2_nonneg (n / 10)).
    assert (0 <= n / 10) by (apply Z.div_pos; lia).
    destruct (IH (n / 10)) as (HF & HH & _); [lia|lia|].
    pose proof (Z.mod_pos_bound n 10 ltac:(lia)).
    repeat split.
    + apply Forall_app. split; [done|]. constructor; [by apply digit_is_digit|constructor].
    + rewrite horner_app, HH. simpl. rewrite digit_val_digit by lia.
      pose proof (Z.div_mod n 10). lia.
    + by destruct (dec_pos f (n / 10)).
Qed.

Lemma dec_nonneg_spec z :
  0 <= z -> Forall (fun c => is_digit c = true) (dec z) /\ horner 0 (dec z) = z /\ dec z <> [].
Proof.
  intros Hz. unfold dec. destruct (Z.ltb_spec z 0); [lia|].
  apply dec_pos_spec; [done|unfold dec_fuel; lia].
Qed.

Lemma dec_neg_eq z : z < 0 -> dec z = MINUS :: dec (- z).
Proof. intros Hz. unfold dec. bool_cases; (done || lia). Qed.

Lemma is_digit_not_sign c : is_digit c = true -> byte_eqb c PLUS = false /\ byte_eqb c MINUS = false.
Proof.
  intros Hc. split; apply bool_decide_eq_false_2; intros ->; vm_compute in Hc; done.
Qed.

Lemma parse_int_digits signed lo hi s :
  lo <= 0 -> Forall (fun c => is_digit c = true) s -> s <> [] -> horner 0 s <= hi ->
  parse_int signed lo hi s = Some (horner 0 s).
Proof.
  intros Hlo HF Hne Hhi. destruct s as [|c s]; [done|]. unfold parse_int.
  apply Forall_cons_1 in HF as HF'. destruct HF' as [Hc _].
  destruct (is_digit_not_sign _ Hc) as [-> ->]. rewrite andb_false_r. simpl "||". simpl "&&".
  apply parse_digits_pos; [done|lia|done|done].
Qed.

(** Printing then parsing gives the number back, for any integer type
    whose range contains it. *)
Lemma parse_dec_roundtrip signed lo hi z :
  lo <= z <= hi -> lo <= 0 <= hi -> (signed = true \/ lo = 0) ->
  parse_int signed lo hi (dec z) = Some z.
Proof.
  intros Hz H0 Hs. destruct (Z_lt_le_dec z 0) as [Hneg|Hpos].
  - destruct Hs as [-> | ->]; [|lia]. rewrite dec_neg_eq by done.
    destruct (dec_nonneg_spec (- z)) as (HF & HH & Hne); [lia|].
    unfold parse_int. rewrite byte_eqb_refl.
    rewrite (bool_decide_eq_false_2 _ Hne), orb_true_r. simpl "&&".
    change (byte_eqb MINUS PLUS) with false. simpl.
    change 0 with (- 0) at 1. rewrite (parse_digits_neg _ _ 0) by (rewrite ?HH; lia || done).
    rewrite HH. f_equal. lia.
  - destruct (dec_nonneg_spec z) as (HF & HH & Hne); [lia|].
    rewrite parse_int_digits by (rewrite ?HH; lia || done). by rewrite HH.
Qed.

(** Whatever the text, a successfully parsed number is in the type's range. *)
Lemma parse_int_range signed lo hi s z :
  lo <= 0 <= hi -> parse_int signed lo hi s = Some z -> lo <= z <= hi.
Proof.
  intros H0. destruct s as [|c s]; [done|]. unfold parse_int.
  repeat case_match; try done; apply parse_digits_range; lia.
Qed.

Lemma parse_i64_dec z : I64_MIN <= z <= I64_MAX -> parse_i64 (dec z) = Some z.
Proof. intros H. apply parse_dec_roundtrip; unfold_ints; auto; lia. Qed.

Lemma parse_i32_dec z : I32_MIN <= z <= I32_MAX -> parse_i32 (dec z) = Some z.
Proof. intros H. apply parse_dec_roundtrip; unfold_ints; auto; lia. Qed.

Lemma parse_u64_dec z : 0 <= z <= U64_MAX -> parse_u64 (dec z) = Some z.
Proof. intros H. apply parse_dec_roundtrip; unfold_ints; auto; lia. Qed.

Lemma parse_i64_range s z : parse_i64 s = Some z -> I64_MIN <= z <= I64_MAX.
Proof. apply parse_int_range. unfold_ints. lia. Qed.

Lemma parse_i32_range s z : parse_i32 s = Some z -> I32_MIN <= z <= I32_MAX.
Proof. apply parse_int_range. unfold_ints. lia. Qed.

Lemma parse_u64_range s z : parse_u64 s = Some z -> 0 <= z <= U64_MAX.
Proof. apply parse_int_range. unfold_ints. lia. Qed.

Lemma dec_chars z c : c ∈ dec z -> c = MINUS \/ is_digit c = true.
Proof.
  destruct (Z_lt_le_dec z 0) as [Hneg|Hpos].
  - rewrite dec_neg_eq by done. destruct (dec_nonneg_spec (- z)) as (HF & _); [lia|].
    rewrite Forall_forall in HF. rewrite elem_of_cons. intros [->|H]; [by left|]. right. auto.
  - destruct (dec_nonneg_spec z) as (HF & _); [lia|]. rewrite Forall_forall in HF. auto.
Qed.
