(* ===== verification/Utf8.v ===== *)
(** * UTF-8 and letter case

    What the source uses of Rust's string library: [str::from_utf8] (the
    validity check at the boundary between wire bytes and text),
    [String::from_utf8_lossy] (diagnostics and the display of values),
    [to_ascii_uppercase]/[to_ascii_lowercase], [eq_ignore_ascii_case] and
    the Unicode-aware [to_uppercase] of command names.

    The decoder accepts exactly the sequences of RFC 3629: no overlong
    form, no surrogate, nothing above U+10FFFF.  The upper-case table of
    the non-ASCII characters is Unicode data, a parameter. *)

From S2P Require Import Prelude.

Definition is_cont (c : byte) : bool := in_range c 128 191.

(** One decoding step at the head of a non-empty input: a character of
    [n] octets, or an ill-formed prefix of [n] octets (the maximal subpart
    that [from_utf8_lossy] replaces by one U+FFFD). *)
Inductive utf8_step : Type :=
| Char (n : nat)
| Bad (n : nat).

(** The second octet allowed after the lead octet of a 3- or 4-octet form. *)
Definition second_ok (b0 b1 : byte) : bool :=
  if in_range b0 224 224 then in_range b1 160 191
  else if in_range b0 237 237 then in_range b1 128 159
  else if in_range b0 225 239 then is_cont b1
  else if in_range b0 240 240 then in_range b1 144 191
  else if in_range b0 241 243 then is_cont b1
  else if in_range b0 244 244 then in_range b1 128 143
  else false.

Definition decode_step (b0 : byte) (s : bytes) : utf8_step :=
  if in_range b0 0 127 then Char 1
  else if in_range b0 194 223 then
    match s with
    | b1 :: _ => if is_cont b1 then Char 2 else Bad 1
    | [] => Bad 1
    end
  else if in_range b0 224 239 then
    match s with
    | b1 :: s1 =>
        if second_ok b0 b1 then
          match s1 with
          | b2 :: _ => if is_cont b2 then Char 3 else Bad 2
          | [] => Bad 2
          end
        else Bad 1
    | [] => Bad 1
    end
  else if in_range b0 240 244 then
    match s with
    | b1 :: s1 =>
        if second_ok b0 b1 then
          match s1 with
          | b2 :: s2 =>
              if is_cont b2 then
                match s2 with
                | b3 :: _ => if is_cont b3 then Char 4 else Bad 3
                | [] => Bad 3
                end
              else Bad 2
          | [] => Bad 2
          end
        else Bad 1
    | [] => Bad 1
    end
  else Bad 1.

(** Split an input into its characters; [None] if it is ill-formed.  The
    length of the input is enough fuel: every step consumes an octet. *)
Fixpoint chars_fuel (fuel : nat) (s : bytes) : option (list bytes) :=
  match s, fuel with
  | [], _ => Some []
  | _, O => None
  | b0 :: s', S f =>
      match decode_step b0 s' with
      | Char n => cs ← chars_fuel f (drop n s); Some (take n s :: cs)
      | Bad _ => None
      end
  end.

Definition chars (s : bytes) : option (list bytes) := chars_fuel (length s) s.

(** [str::from_utf8]: the text is the same octets, when they are valid. *)
Definition utf8_valid (s : bytes) : bool := bool_decide (is_Some (chars s)).

Definition from_utf8 (s : bytes) : option bytes := if utf8_valid s then Some s else None.

(** U+FFFD REPLACEMENT CHARACTER. *)
Definition REPLACEMENT : bytes := [of_u8 239; of_u8 191; of_u8 189].

(** [String::from_utf8_lossy]. *)
Fixpoint lossy_fuel (fuel : nat) (s : bytes) : bytes :=
  match s, fuel with
  | [], _ => []
  | _, O => []
  | b0 :: s', S f =>
      match decode_step b0 s' with
      | Char n => take n s ++ lossy_fuel f (drop n s)
      | Bad n => REPLACEMENT ++ lossy_fuel f (drop n s)
      end
  end.

Definition from_utf8_lossy (s : bytes) : bytes := lossy_fuel (length s) s.

(** ** Letter case *)
Definition ascii_upper (c : byte) : byte := if in_range c 97 122 then of_u8 (u8 c - 32) else c.
Definition ascii_lower (c : byte) : byte := if in_range c 65 90 then of_u8 (u8 c + 32) else c.

Definition to_ascii_uppercase (s : bytes) : bytes := map ascii_upper s.
Definition to_ascii_lowercase (s : bytes) : bytes := map ascii_lower s.

(** [<[u8]>::eq_ignore_ascii_case]. *)
Definition eq_ignore_ascii_case (x y : bytes) : bool :=
  bytes_eqb (to_ascii_lowercase x) (to_ascii_lowercase y).

Definition is_ascii (s : bytes) : bool := forallb (fun c => in_range c 0 127) s.

(** [str::to_uppercase] is character by character; a one-octet character
    is ASCII, the others go through the Unicode table [upper]. *)
Definition upper_char (upper : bytes -> bytes) (c : bytes) : bytes :=
  match c with
  | [b0] => [ascii_upper b0]
  | _ => upper c
  end.

Definition to_uppercase (upper : bytes -> bytes) (s : bytes) : bytes :=
  match chars s with
  | Some cs => concat (map (upper_char upper) cs)
  | None => s (* not a [str] *)
  end.

Example utf8_ascii : utf8_valid (b#"SET") = true.
Proof. reflexivity. Qed.
Example utf8_two : utf8_valid [of_u8 195; of_u8 159] = true.
Proof. reflexivity. Qed.
Example utf8_overlong : utf8_valid [of_u8 192; of_u8 128] = false.
Proof. reflexivity. Qed.
Example utf8_surrogate : utf8_valid [of_u8 237; of_u8 160; of_u8 128] = false.
Proof. reflexivity. Qed.
Example lossy_ff : from_utf8_lossy [of_u8 255; of_u8 65] = REPLACEMENT ++ b#"A".
Proof. reflexivity. Qed.
Example lossy_subpart :
  from_utf8_lossy [of_u8 240; of_u8 159; of_u8 146; of_u8 65] = REPLACEMENT ++ b#"A".
Proof. reflexivity. Qed.
Example upper_mixed : to_uppercase (fun c => c) (b#"seT") = b#"SET".
Proof. reflexivity. Qed.

(** ** Lemmas: decoding *)
Lemma in_range_spec c lo hi : in_range c lo hi = true <-> lo <= u8 c <= hi.
Proof. unfold in_range. rewrite andb_true_iff, !Z.leb_le. lia. Qed.

(** A character fits in its input and its recognition does not depend on
    what follows it. *)
Lemma decode_step_char b0 s n t :
  decode_step b0 s = Char n ->
  (1 <= n <= length (b0 :: s))%nat /\ decode_step b0 (s ++ t) = Char n.
Proof.
  unfold decode_step at 1. intros E.
  repeat case_match; simplify_eq; (split; [simpl; lia|]); unfold decode_step; simpl app;
    by repeat match goal with H : _ = true |- _ => rewrite H | H : _ = false |- _ => rewrite H end.
Qed.

Lemma decode_step_bad b0 s n : decode_step b0 s = Bad n -> (1 <= n <= length (b0 :: s))%nat.
Proof. unfold decode_step. repeat case_match; simpl; intros; simplify_eq; simpl; lia. Qed.

Lemma chars_fuel_enough f s :
  (length s <= f)%nat -> chars_fuel f s = chars s.
Proof.
  unfold chars. remember (length s) as n eqn:Hn. revert s f Hn.
  induction n as [n IH] using lt_wf_ind. intros s f Hn Hf.
  destruct s as [|b0 s]; [by destruct f, n|].
  destruct f as [|f]; [simpl in *; lia|]. destruct n as [|n]; [simpl in *; lia|].
  cbn [chars_fuel]. destruct (decode_step b0 s) as [k|k] eqn:E; [|done].
  apply (decode_step_char _ _ _ []) in E as [Hk _].
  assert (length (drop k (b0 :: s)) <= n)%nat as Hd by (rewrite length_drop; simpl in *; lia).
  rewrite (IH (length (drop k (b0 :: s)))) by (lia || done).
  by rewrite (IH (length (drop k (b0 :: s))) ltac:(lia) _ n).
Qed.

Lemma chars_nil : chars [] = Some [].
Proof. done. Qed.

Lemma chars_cons b0 s :
  chars (b0 :: s) =
  match decode_step b0 s with
  | Char n => cs ← chars (drop n (b0 :: s)); Some (take n (b0 :: s) :: cs)
  | Bad _ => None
  end.
Proof.
  unfold chars at 1. cbn [length chars_fuel]. destruct (decode_step b0 s) as [k|k] eqn:E; [|done].
  apply (decode_step_char _ _ _ []) in E as [Hk _].
  rewrite chars_fuel_enough; [done|]. rewrite length_drop. simpl. lia.
Qed.

(** Induction along the decoder. *)
Lemma utf8_ind (P : bytes -> Prop) :
  P [] ->
  (forall b0 s n, decode_step b0 s = Char n -> P (drop n (b0 :: s)) -> P (b0 :: s)) ->
  (forall b0 s n, decode_step b0 s = Bad n -> P (drop n (b0 :: s)) -> P (b0 :: s)) ->
  forall s, P s.
Proof.
  intros H0 Hc Hb s. remember (length s) as n eqn:Hn. revert s Hn.
  induction n as [n IH] using lt_wf_ind. intros [|b0 s] Hn; [done|].
  destruct (decode_step b0 s) as [k|k] eqn:E.
  - eapply Hc; [done|]. apply (decode_step_char _ _ _ []) in E as [Hk _].
    eapply IH; [|done]. rewrite length_drop. simpl in *. lia.
  - eapply Hb; [done|]. apply decode_step_bad in E.
    eapply IH; [|done]. rewrite length_drop. simpl in *. lia.
Qed.

(** The characters of a text concatenate to the text. *)
Lemma chars_concat s cs : chars s = Some cs -> concat cs = s.
Proof.
  revert cs. induction s as [|b0 s n E IH|b0 s n E IH] using utf8_ind; intros cs.
  - by intros [= <-].
  - rewrite chars_cons, E. intros (cs' & H & [= <-])%bind_Some. simpl.
    rewrite (IH _ H). apply take_drop.
  - by rewrite chars_cons, E.
Qed.

Lemma chars_app s t cs ds :
  chars s = Some cs -> chars t = Some ds -> chars (s ++ t) = Some (cs ++ ds).
Proof.
  intros Hs Ht. revert cs Hs. induction s as [|b0 s n E IH|b0 s n E IH] using utf8_ind; intros cs.
  - by intros [= <-].
  - rewrite chars_cons, E. intros (cs' & H & [= <-])%bind_Some.
    destruct (decode_step_char _ _ _ t E) as [Hn E']. simpl app. rewrite chars_cons, E'.
    change (b0 :: s ++ t) with ((b0 :: s) ++ t).
    rewrite drop_app_le, take_app_le by lia. by rewrite (IH _ H).
  - by rewrite chars_cons, E.
Qed.

Lemma utf8_valid_Some s : utf8_valid s = true <-> is_Some (chars s).
Proof. apply bool_decide_eq_true. Qed.

Lemma utf8_valid_app s t : utf8_valid s = true -> utf8_valid t = true -> utf8_valid (s ++ t) = true.
Proof. rewrite !utf8_valid_Some. intros [? ?] [? ?]. eexists. by apply chars_app. Qed.

Lemma chars_singleton c : in_range c 0 127 = true -> chars [c] = Some [[c]].
Proof. intros H. rewrite chars_cons. unfold decode_step. by rewrite H. Qed.

Lemma chars_ascii s : is_ascii s = true -> chars s = Some (map (fun c => [c]) s).
Proof.
  induction s as [|c s IH]; [done|]. simpl. intros [Hc Hs]%andb_true_iff.
  change (c :: s) with ([c] ++ s).
  by rewrite (chars_app [c] s _ _ (chars_singleton _ Hc) (IH Hs)).
Qed.

Lemma utf8_valid_ascii s : is_ascii s = true -> utf8_valid s = true.
Proof. intros H. apply utf8_valid_Some. rewrite chars_ascii by done. eauto. Qed.

Lemma from_utf8_Some s t : from_utf8 s = Some t <-> t = s /\ utf8_valid s = true.
Proof. unfold from_utf8. destruct (utf8_valid s); naive_solver. Qed.

(** ** Lemmas: lossy decoding *)
Lemma lossy_fuel_enough f s : (length s <= f)%nat -> lossy_fuel f s = from_utf8_lossy s.
Proof.
  unfold from_utf8_lossy. remember (length s) as n eqn:Hn. revert s f Hn.
  induction n as [n IH] using lt_wf_ind. intros s f Hn Hf.
  destruct s as [|b0 s]; [by destruct f, n|].
  destruct f as [|f]; [simpl in *; lia|]. destruct n as [|n]; [simpl in *; lia|].
  cbn [lossy_fuel].
  assert (forall k, (1 <= k)%nat -> lossy_fuel f (drop k (b0 :: s)) = lossy_fuel n (drop k (b0 :: s))) as Hd.
  { intros k Hk. assert (length (drop k (b0 :: s)) <= n)%nat by (rewrite length_drop; simpl in *; lia).
    rewrite (IH (length (drop k (b0 :: s))) ltac:(lia) _ f) by (lia || done).
    by rewrite (IH (length (drop k (b0 :: s))) ltac:(lia) _ n). }
  destruct (decode_step b0 s) as [k|k] eqn:E.
  - apply (decode_step_char _ _ _ []) in E as [Hk _]. by rewrite Hd by lia.
  - apply decode_step_bad in E. by rewrite Hd by lia.
Qed.

Lemma lossy_cons b0 s :
  from_utf8_lossy (b0 :: s) =
  match decode_step b0 s with
  | Char n => take n (b0 :: s) ++ from_utf8_lossy (drop n (b0 :: s))
  | Bad n => REPLACEMENT ++ from_utf8_lossy (drop n (b0 :: s))
  end.
Proof.
  unfold from_utf8_lossy at 1. cbn [length lossy_fuel].
  destruct (decode_step b0 s) as [k|k] eqn:E.
  - apply (decode_step_char _ _ _ []) in E as [Hk _].
    rewrite lossy_fuel_enough; [done|]. rewrite length_drop. simpl. lia.
  - apply decode_step_bad in E.
    rewrite lossy_fuel_enough; [done|]. rewrite length_drop. simpl. lia.
Qed.

(** Lossy decoding is the identity on valid text. *)
Lemma lossy_valid s : utf8_valid s = true -> from_utf8_lossy s = s.
Proof.
  rewrite utf8_valid_Some. induction s as [|b0 s n E IH|b0 s n E IH] using utf8_ind.
  - done.
  - rewrite chars_cons, lossy_cons, E. intros [cs (cs' & H & _)%bind_Some].
    rewrite IH by eauto. apply take_drop.
  - rewrite chars_cons, E. by intros [? [=]].
Qed.

Lemma decode_step_alone b0 s n :
  decode_step b0 s = Char n -> chars (take n (b0 :: s)) = Some [take n (b0 :: s)].
Proof.
  intros E. unfold decode_step in E.
  repeat case_match; simplify_eq; simpl take; rewrite chars_cons; unfold decode_step;
    repeat match goal with H : _ = true |- _ => rewrite H | H : _ = false |- _ => rewrite H end;
    done.
Qed.

(** Lossy decoding always yields valid text. *)
Lemma lossy_is_valid s : utf8_valid (from_utf8_lossy s) = true.
Proof.
  induction s as [|b0 s n E IH|b0 s n E IH] using utf8_ind; [done| |].
  - rewrite lossy_cons, E. apply utf8_valid_app; [|done].
    apply utf8_valid_Some. rewrite (decode_step_alone _ _ _ E). eauto.
  - rewrite lossy_cons, E. by apply utf8_valid_app.
Qed.

(** ** Lemmas: letter case *)
Lemma to_uppercase_ascii upper s :
  is_ascii s = true -> to_uppercase upper s = to_ascii_uppercase s.
Proof.
  intros H. unfold to_uppercase. rewrite (chars_ascii _ H), map_map.
  induction s as [|c s IH]; [done|]. simpl in *. apply andb_true_iff in H as [_ H].
  by rewrite IH.
Qed.

Lemma ascii_upper_idemp c : ascii_upper (ascii_upper c) = ascii_upper c.
Proof.
  unfold ascii_upper. destruct (in_range c 97 122) eqn:E; [|by rewrite E].
  apply in_range_spec in E. case_match eqn:E2; [|done].
  apply in_range_spec in E2. rewrite u8_of_u8 in E2; lia.
Qed.

Lemma to_ascii_uppercase_idemp s : to_ascii_uppercase (to_ascii_uppercase s) = to_ascii_uppercase s.
Proof.
  unfold to_ascii_uppercase. rewrite map_map. apply map_ext. apply ascii_upper_idemp.
Qed.
