(* ===== verification/Paths.v ===== *)
(** * Unix paths ([std::path::Path])

    The parts of [Path] that the configuration and the log rotation use,
    for any path: repeated separators, trailing ones and [.] components
    are skipped as the standard library skips them. *)

From S2P Require Import Prelude.

Definition SLASH : byte := of_u8 47.
Definition DOT : byte := of_u8 46.

(** The text before and after the last [c]. *)
Fixpoint split_last (c : byte) (s : bytes) : option (bytes * bytes) :=
  match s with
  | [] => None
  | x :: s' =>
      match split_last c s' with
      | Some (a, b) => Some (x :: a, b)
      | None => if byte_eqb x c then Some ([], s') else None
      end
  end.

(** Drop trailing separators and [.] components; the root and a leading
    [.] stay.  The path is given and returned backwards. *)
Fixpoint trim_rev (r : bytes) : bytes :=
  match r with
  | c :: ((d :: _) as r') =>
      if byte_eqb c SLASH then trim_rev r'
      else if byte_eqb c DOT && byte_eqb d SLASH then trim_rev r'
      else r
  | _ => r
  end.

(** The octets of the last component, and what comes before them, both
    backwards. *)
Fixpoint span_component (r : bytes) : bytes * bytes :=
  match r with
  | c :: r' => if byte_eqb c SLASH then ([], r) else let '(a, b) := span_component r' in (c :: a, b)
  | [] => ([], [])
  end.

(** [Path::parent] *)
Definition path_parent (path : bytes) : option bytes :=
  match trim_rev (rev path) with
  | [] => None
  | r => let '(comp, rest) := span_component r in
         match comp with [] => None | _ => Some (rev (trim_rev rest)) end
  end.

(** The parent where an absent one counts as the empty path. *)
Definition parent (path : bytes) : bytes := default [] (path_parent path).

(** [Path::file_name] *)
Definition file_name (path : bytes) : option bytes :=
  match rev (span_component (trim_rev (rev path))).1 with
  | [] => None
  | c => if bytes_eqb c [DOT] || bytes_eqb c [DOT; DOT] then None else Some c
  end.

(** [Path::with_extension], for a non-empty extension: a leading dot is
    part of the stem. *)
Definition with_extension (path ext : bytes) : bytes :=
  match file_name path with
  | None => path
  | Some file =>
      let stem := match split_last DOT file with
                  | Some ((_ :: _) as st, _) => st
                  | _ => file
                  end in
      rev (span_component (trim_rev (rev path))).2 ++ stem ++ [DOT] ++ ext
  end.

(** [Path::join] with a relative path. *)
Definition join (dir name : bytes) : bytes :=
  match rev dir with
  | [] => name
  | c :: _ => if byte_eqb c SLASH then dir ++ name else dir ++ [SLASH] ++ name
  end.

Example parent_nested : path_parent (b#"/var/log/app.log") = Some (b#"/var/log").
Proof. reflexivity. Qed.
Example parent_root : path_parent (b#"/app.log") = Some (b#"/") /\ path_parent (b#"/") = None.
Proof. split; reflexivity. Qed.
Example parent_bare : path_parent (b#"app.log") = Some [] /\ path_parent [] = None.
Proof. split; reflexivity. Qed.
Example parent_dots : path_parent (b#"a//b/./c/") = Some (b#"a//b") /\ path_parent (b#"./x") = Some (b#".").
Proof. split; reflexivity. Qed.
Example file_name_ex : file_name (b#"a/b/") = Some (b#"b") /\ file_name (b#"a/..") = None.
Proof. split; reflexivity. Qed.
Example with_extension_ex :
  with_extension (b#"d/abc.aof") (b#"x") = b#"d/abc.x" /\ with_extension (b#".aof") (b#"x") = b#".aof.x" /\
  with_extension (b#"/a.b/") (b#"c") = b#"/a.c".
Proof. repeat split; reflexivity. Qed.

(** A name without a separator. *)
Definition bare_name (n : bytes) : Prop := n <> [] /\ forallb (fun c => negb (byte_eqb c SLASH)) n = true.

Lemma span_bare r rest :
  forallb (fun c => negb (byte_eqb c SLASH)) r = true -> span_component (r ++ SLASH :: rest) = (r, SLASH :: rest).
Proof.
  induction r as [|c r IH]; [done|]. cbn [forallb app span_component]. intros [Hc Hr]%andb_true_iff.
  apply negb_true_iff in Hc. by rewrite Hc, IH.
Qed.

Lemma span_all r : forallb (fun c => negb (byte_eqb c SLASH)) r = true -> span_component r = (r, []).
Proof.
  induction r as [|c r IH]; [done|]. cbn [forallb span_component]. intros [Hc Hr]%andb_true_iff.
  apply negb_true_iff in Hc. by rewrite Hc, IH.
Qed.

Lemma forallb_rev {A} (f : A -> bool) l : forallb f (rev l) = forallb f l.
Proof. induction l as [|x l IH]; [done|]. simpl. rewrite forallb_app, IH. simpl. rewrite andb_true_r. apply andb_comm. Qed.

Lemma trim_bare r : forallb (fun c => negb (byte_eqb c SLASH)) r = true -> trim_rev r = r.
Proof.
  destruct r as [|c [|d r]]; [done..|]. cbn [forallb trim_rev]. intros [Hc [Hd _]%andb_true_iff]%andb_true_iff.
  apply negb_true_iff in Hc, Hd. by rewrite Hc, Hd, andb_false_r.
Qed.

(** The parent of a bare name is the empty path. *)
Lemma parent_of_bare n : bare_name n -> path_parent n = Some [].
Proof.
  intros [Hne Hn]. unfold path_parent. rewrite <- forallb_rev in Hn. rewrite trim_bare by done.
  pose proof (span_all _ Hn) as Hs. destruct (rev n) as [|c r] eqn:Hr.
  - apply (f_equal (@rev _)) in Hr. by rewrite rev_involutive in Hr.
  - by rewrite Hs.
Qed.
