(* ===== verification/Errors.v ===== *)
(** * Errors (src/src/error.rs)

    The error type of the whole server, its classification (severity,
    category, recoverability), the text shown to clients and the events
    the logger emits.  The [source] of an error, a boxed foreign error, is
    represented by its rendered text. *)

From S2P Require Import Prelude Numbers.

Inductive ErrorSeverity : Type := Critical | High | Medium | Low.

Inductive ErrorCategory : Type := Client | Network | Storage | Configuration | System | Protocol.

#[global] Instance ErrorSeverity_eq_dec : EqDecision ErrorSeverity.
Proof. solve_decision. Defined.
#[global] Instance ErrorCategory_eq_dec : EqDecision ErrorCategory.
Proof. solve_decision. Defined.

Abbreviation ErrorSource := (option bytes).

Inductive RustyPotatoError : Type :=
| InvalidCommand (command : bytes) (source : ErrorSource)
| WrongArity (command expected : bytes) (actual : Z)
| NotAnInteger (value : bytes)
| IntegerOverflow
| KeyNotFound (key : bytes)
| PersistenceError (message : bytes) (source : ErrorSource) (recoverable : bool)
| NetworkError (message : bytes) (source : ErrorSource) (connection_id : option bytes)
| ProtocolError (message : bytes) (command : option bytes) (source : ErrorSource)
| ConfigError (message : bytes) (config_key : option bytes) (source : ErrorSource)
| StorageError (message : bytes) (operation : option bytes) (source : ErrorSource)
| ConnectionError (message : bytes) (connection_id : option bytes) (source : ErrorSource)
| TimeoutError (message : bytes) (operation : option bytes) (timeout_duration : option Z)
| AuthenticationError (message : bytes) (user : option bytes)
| AuthorizationError (message : bytes) (user operation : option bytes)
| ResourceExhaustion (message resource_type : bytes) (current_usage limit : option Z)
| SerializationError (message : bytes) (source : ErrorSource)
| InternalError (message : bytes) (component : option bytes) (source : ErrorSource).

#[global] Instance RustyPotatoError_eq_dec : EqDecision RustyPotatoError.
Proof. solve_decision. Defined.

(** Rust's [Result<T>] alias of the crate. *)
Abbreviation Result := (result RustyPotatoError).

(** The [Display] generated by the [#[error(...)]] attributes. *)
Definition display (e : RustyPotatoError) : bytes :=
  match e with
  | InvalidCommand command _ => b#"Invalid command: " ++ command
  | WrongArity command expected actual =>
      b#"Wrong number of arguments for command '" ++ command ++ b#"': expected " ++ expected
        ++ b#", got " ++ dec actual
  | NotAnInteger value => b#"Value is not an integer or out of range: " ++ value
  | IntegerOverflow => b#"increment or decrement would overflow"
  | KeyNotFound key => b#"Key not found: " ++ key
  | PersistenceError message _ _ => b#"Persistence error: " ++ message
  | NetworkError message _ _ => b#"Network error: " ++ message
  | ProtocolError message _ _ => b#"Protocol error: " ++ message
  | ConfigError message _ _ => b#"Configuration error: " ++ message
  | StorageError message _ _ => b#"Storage error: " ++ message
  | ConnectionError message _ _ => b#"Connection error: " ++ message
  | TimeoutError message _ _ => b#"Timeout error: " ++ message
  | AuthenticationError message _ => b#"Authentication error: " ++ message
  | AuthorizationError message _ _ => b#"Authorization error: " ++ message
  | ResourceExhaustion message _ _ _ => b#"Resource exhaustion: " ++ message
  | SerializationError message _ => b#"Serialization error: " ++ message
  | InternalError message _ _ => b#"Internal error: " ++ message
  end.

Definition severity (e : RustyPotatoError) : ErrorSeverity :=
  match e with
  | InvalidCommand _ _ | WrongArity _ _ _ | NotAnInteger _ | IntegerOverflow | KeyNotFound _
  | AuthenticationError _ _ | AuthorizationError _ _ _ => Low
  | ProtocolError _ _ _ | TimeoutError _ _ _ | SerializationError _ _ => Medium
  | NetworkError _ _ _ | ConnectionError _ _ _ | ConfigError _ _ _ | StorageError _ _ _ => High
  | PersistenceError _ _ _ | ResourceExhaustion _ _ _ _ | InternalError _ _ _ => Critical
  end.

Definition category (e : RustyPotatoError) : ErrorCategory :=
  match e with
  | InvalidCommand _ _ | WrongArity _ _ _ | NotAnInteger _ | IntegerOverflow | KeyNotFound _
  | AuthenticationError _ _ | AuthorizationError _ _ _ => Client
  | NetworkError _ _ _ | ConnectionError _ _ _ | TimeoutError _ _ _ => Network
  | StorageError _ _ _ | PersistenceError _ _ _ => Storage
  | ConfigError _ _ _ => Configuration
  | ProtocolError _ _ _ => Protocol
  | ResourceExhaustion _ _ _ _ | SerializationError _ _ | InternalError _ _ _ => System
  end.

Definition is_recoverable (e : RustyPotatoError) : bool :=
  match e with
  | PersistenceError _ _ recoverable => recoverable
  | NetworkError _ _ _ | ConnectionError _ _ _ | TimeoutError _ _ _ | StorageError _ _ _ => true
  | ResourceExhaustion _ _ _ _ => true
  | _ => false
  end.

Definition to_client_error (e : RustyPotatoError) : bytes :=
  match e with
  | InvalidCommand command _ => b#"ERR unknown command '" ++ command ++ b#"'"
  | WrongArity command expected actual =>
      b#"ERR wrong number of arguments for '" ++ command ++ b#"' command (expected " ++ expected
        ++ b#", got " ++ dec actual ++ b#")"
  | NotAnInteger value => b#"ERR value is not an integer or out of range: " ++ value
  | IntegerOverflow => b#"ERR increment or decrement would overflow"
  | KeyNotFound key => b#"ERR no such key: " ++ key
  | ProtocolError message _ _ => b#"ERR protocol error: " ++ message
  | AuthenticationError message _ => b#"ERR authentication failed: " ++ message
  | AuthorizationError message _ _ => b#"ERR authorization failed: " ++ message
  | TimeoutError message _ _ => b#"ERR timeout: " ++ message
  | ResourceExhaustion message _ _ _ => b#"ERR resource exhausted: " ++ message
  | StorageError message _ _ => message
  | _ => b#"ERR internal server error"
  end.

Definition is_client_error (e : RustyPotatoError) : bool := bool_decide (category e = Client).

(** ** Logging *)
Inductive LogLevel : Type := LError | LWarn | LDebug.

(** One emitted event: level, rendered error, category, the recoverable
    flag (absent at debug level), headline, and the span fields recorded
    afterwards. *)
Record LogEvent : Type := mkLogEvent {
  ev_level : LogLevel;
  ev_error : bytes;
  ev_category : ErrorCategory;
  ev_recoverable : option bool;
  ev_headline : bytes;
  ev_span : list (bytes * bytes)
}.

Definition span_fields (e : RustyPotatoError) : list (bytes * bytes) :=
  match e with
  | NetworkError _ _ (Some conn_id) => [(b#"connection_id", conn_id)]
  | ConnectionError _ (Some conn_id) _ => [(b#"connection_id", conn_id)]
  | ConfigError _ (Some key) _ => [(b#"config_key", key)]
  | StorageError _ (Some op) _ => [(b#"storage_operation", op)]
  | TimeoutError _ _ (Some duration) =>
      [(b#"timeout_duration_ms", dec (wrap_u64 (duration / 10 ^ 6)))]
  | ResourceExhaustion _ resource_type current_usage limit =>
      [(b#"resource_type", resource_type)]
        ++ match current_usage with Some u => [(b#"current_usage", dec u)] | None => [] end
        ++ match limit with Some l => [(b#"limit", dec l)] | None => [] end
  | _ => []
  end.

Definition log (e : RustyPotatoError) : LogEvent :=
  match severity e with
  | Critical => mkLogEvent LError (display e) (category e) (Some (is_recoverable e))
                  (b#"Critical error occurred") (span_fields e)
  | High => mkLogEvent LError (display e) (category e) (Some (is_recoverable e))
              (b#"High severity error occurred") (span_fields e)
  | Medium => mkLogEvent LWarn (display e) (category e) (Some (is_recoverable e))
                (b#"Medium severity error occurred") (span_fields e)
  | Low => mkLogEvent LDebug (display e) (category e) None
             (b#"Low severity error occurred") (span_fields e)
  end.

(** ** Conversions from foreign errors, given by their rendered text *)
Definition from_io_error (text : bytes) : RustyPotatoError :=
  PersistenceError text (Some text) true.
Definition from_elapsed : RustyPotatoError :=
  TimeoutError (b#"Operation timed out") None None.
Definition from_serde_json_error (text : bytes) : RustyPotatoError :=
  SerializationError text (Some text).
Definition from_parse_int_error (text : bytes) : RustyPotatoError := NotAnInteger text.
Definition from_utf8_error (text : bytes) : RustyPotatoError :=
  ProtocolError (b#"Invalid UTF-8 sequence: " ++ text) None (Some text).

(** ** Classification lemmas *)

(** Client errors are exactly the low-severity ones. *)
Lemma client_error_iff_low e : is_client_error e = true <-> severity e = Low.
Proof. unfold is_client_error. rewrite bool_decide_eq_true. by destruct e. Qed.

(** A client error never asks for a retry, and is logged at debug level. *)
Lemma client_error_log e :
  is_client_error e = true -> is_recoverable e = false /\ ev_level (log e) = LDebug.
Proof. unfold is_client_error. rewrite bool_decide_eq_true. by destruct e. Qed.

Definition has_prefix (p s : bytes) : Prop := exists t, s = p ++ t.

(** Every client-facing message except that of a storage error, which is
    passed through, carries the generic [ERR ] prefix. *)
Lemma to_client_error_prefix e :
  (forall m op src, e <> StorageError m op src) -> has_prefix (b#"ERR ") (to_client_error e).
Proof.
  intros H. destruct e; try (by eexists; simpl; reflexivity). naive_solver.
Qed.
