(* ===== verification/Values.v ===== *)
(** * Stored values (src/src/storage/memory.rs, the data types)

    The value variants, their conversions and the per-value metadata.
    Everything here is pure; the constructors that read a clock are in
    [World] and [MemoryStore]. *)

From S2P Require Import Prelude Numbers Utf8 Errors.

Inductive ValueType : Type :=
| VString (b : bytes)
| VInteger (i : Z)
| VHash (h : gmap bytes bytes)
| VList (l : list bytes).

#[global] Instance ValueType_eq_dec : EqDecision ValueType.
Proof. solve_decision. Defined.

(** [ValueType::as_string], also the [Display] of a value. *)
Definition as_string (v : ValueType) : bytes :=
  match v with
  | VString s => from_utf8_lossy s
  | VInteger i => dec i
  | VHash _ => b#"(hash)"
  | VList _ => b#"(list)"
  end.

Definition as_bytes (v : ValueType) : option bytes :=
  match v with
  | VString b => Some b
  | _ => None
  end.

Definition to_integer (v : ValueType) : Result Z :=
  match v with
  | VInteger i => Ok i
  | VString s =>
      match from_utf8 s with
      | None => Err (NotAnInteger (from_utf8_lossy s))
      | Some text =>
          match parse_i64 text with
          | Some i => Ok i
          | None => Err (NotAnInteger text)
          end
      end
  | VHash _ => Err (NotAnInteger (b#"hash"))
  | VList _ => Err (NotAnInteger (b#"list"))
  end.

Definition is_string (v : ValueType) : bool := match v with VString _ => true | _ => false end.
Definition is_integer (v : ValueType) : bool := match v with VInteger _ => true | _ => false end.
Definition is_hash (v : ValueType) : bool := match v with VHash _ => true | _ => false end.
Definition is_list (v : ValueType) : bool := match v with VList _ => true | _ => false end.

Definition type_name (v : ValueType) : bytes :=
  match v with
  | VString _ => b#"string"
  | VInteger _ => b#"integer"
  | VHash _ => b#"hash"
  | VList _ => b#"list"
  end.

Definition as_hash (v : ValueType) : Result (gmap bytes bytes) :=
  match v with
  | VHash h => Ok h
  | _ => Err (StorageError (b#"Value is not a hash, it's a " ++ type_name v) (Some (b#"as_hash")) None)
  end.

(** [as_hash_mut] gives access to the map inside the value; [update_hash]
    is the value after the caller's in-place change. *)
Definition as_hash_mut (v : ValueType) : Result (gmap bytes bytes) :=
  match v with
  | VHash h => Ok h
  | _ => Err (StorageError (b#"Value is not a hash, it's a " ++ type_name v) (Some (b#"as_hash_mut")) None)
  end.

Definition as_list (v : ValueType) : Result (list bytes) :=
  match v with
  | VList l => Ok l
  | _ => Err (StorageError (b#"Value is not a list, it's a " ++ type_name v) (Some (b#"as_list")) None)
  end.

Definition as_list_mut (v : ValueType) : Result (list bytes) :=
  match v with
  | VList l => Ok l
  | _ => Err (StorageError (b#"Value is not a list, it's a " ++ type_name v) (Some (b#"as_list_mut")) None)
  end.

(** ** Metadata *)
Record ValueMetadata : Type := mkValueMetadata {
  size_bytes : Z;
  element_count : Z;
  last_modified : option Z;
  custom : gmap bytes bytes
}.

(** Sum of the lengths of the fields and values of a hash. *)
Definition hash_size (h : gmap bytes bytes) : Z :=
  map_fold (fun k v acc => zlen k + zlen v + acc) 0 h.

Definition list_size (l : list bytes) : Z := foldr (fun s acc => zlen s + acc) 0 l.

(** The pair computed by [for_value] and by [update_for_value]. *)
Definition measure_value (v : ValueType) : Z * Z :=
  match v with
  | VString s => (zlen s, 1)
  | VInteger _ => (8, 1)
  | VHash h => (hash_size h, Z.of_nat (size h))
  | VList l => (list_size l, zlen l)
  end.

(** [ValueMetadata::for_value], [t] being the wall-clock reading it takes. *)
Definition for_value (v : ValueType) (t : Z) : ValueMetadata :=
  let '(size, count) := measure_value v in
  mkValueMetadata size count (Some t) ∅.

Definition update_for_value (m : ValueMetadata) (v : ValueType) (t : Z) : ValueMetadata :=
  let '(size, count) := measure_value v in
  mkValueMetadata size count (Some t) (custom m).

(** ** Stored values

    Instants are nanoseconds of the monotonic clock. *)
Abbreviation Instant := Z.
Abbreviation Duration := Z.

Record StoredValue : Type := mkStoredValue {
  value : ValueType;
  created_at : Instant;
  last_accessed : Instant;
  expires_at : option Instant;
  metadata : ValueMetadata
}.

Inductive ExpireFlag : Type := FNone | Nx | Xx | Gt | Lt.
Inductive SetExistence : Type := SAlways | OnlyIfNotExists | OnlyIfExists.
Inductive SetTtlOption : Type := TNone | At (at_ : Instant) | KeepTtl.

Record SetOutcome : Type := mkSetOutcome {
  applied : bool;
  previous : option StoredValue
}.

#[global] Instance ExpireFlag_eq_dec : EqDecision ExpireFlag.
Proof. solve_decision. Defined.
#[global] Instance SetExistence_eq_dec : EqDecision SetExistence.
Proof. solve_decision. Defined.
#[global] Instance SetTtlOption_eq_dec : EqDecision SetTtlOption.
Proof. solve_decision. Defined.

(** [StoredValue::is_expired] at the clock reading [t]: strictly after the
    deadline. *)
Definition expired_at (t : Instant) (sv : StoredValue) : bool :=
  match expires_at sv with
  | Some d => d <? t
  | None => false
  end.

Definition set_value (sv : StoredValue) (v : ValueType) : StoredValue :=
  mkStoredValue v (created_at sv) (last_accessed sv) (expires_at sv) (metadata sv).
Definition touch_at (sv : StoredValue) (t : Instant) : StoredValue :=
  mkStoredValue (value sv) (created_at sv) t (expires_at sv) (metadata sv).
Definition set_expiration (sv : StoredValue) (d : Instant) : StoredValue :=
  mkStoredValue (value sv) (created_at sv) (last_accessed sv) (Some d) (metadata sv).
Definition remove_expiration (sv : StoredValue) : StoredValue :=
  mkStoredValue (value sv) (created_at sv) (last_accessed sv) None (metadata sv).
Definition set_metadata (sv : StoredValue) (m : ValueMetadata) : StoredValue :=
  mkStoredValue (value sv) (created_at sv) (last_accessed sv) (expires_at sv) m.

(** ** Time arithmetic *)
Definition NANOS : Z := 10 ^ 9.
Definition MILLI : Z := 10 ^ 6.

Definition from_secs (n : Z) : Duration := n * NANOS.
Definition from_millis (n : Z) : Duration := n * MILLI.
Definition as_secs (d : Duration) : Z := d / NANOS.
Definition as_millis (d : Duration) : Z := d / MILLI.

(** [ttl_seconds] and [ttl_millis] at the clock reading [t]. *)
Definition ttl_seconds_at (t : Instant) (sv : StoredValue) : option Z :=
  (fun d => if t <? d then wrap_i64 (as_secs (d - t)) else -2) <$> expires_at sv.

Definition ttl_millis_at (t : Instant) (sv : StoredValue) : option Z :=
  (fun d => if t <? d then Z.min (as_millis (d - t)) I64_MAX else -2) <$> expires_at sv.

Definition age_seconds_at (t : Instant) (sv : StoredValue) : Z := as_secs (Z.max 0 (t - created_at sv)).
Definition idle_time_seconds_at (t : Instant) (sv : StoredValue) : Z :=
  as_secs (Z.max 0 (t - last_accessed sv)).

(** The conditional part shared by [expire_with_options] and
    [expire_at_with_options]. *)
Definition should_apply (flag : ExpireFlag) (current : option Instant) (new_expires_at : Instant) : bool :=
  match flag with
  | FNone => true
  | Nx => match current with None => true | Some _ => false end
  | Xx => match current with Some _ => true | None => false end
  | Gt => match current with Some c => c <? new_expires_at | None => false end
  | Lt => match current with Some c => new_expires_at <? c | None => true end
  end.

(** ** Lemmas *)

(** A value is well-formed when its integer is an [i64] and the texts it
    holds, hash fields and values and list elements, are valid UTF-8. *)
Definition value_wf (v : ValueType) : Prop :=
  match v with
  | VString _ => True
  | VInteger i => I64_MIN <= i <= I64_MAX
  | VHash h => map_Forall (fun k x => utf8_valid k = true /\ utf8_valid x = true) h
  | VList l => Forall (fun x => utf8_valid x = true) l
  end.

Lemma to_integer_range v i : value_wf v -> to_integer v = Ok i -> I64_MIN <= i <= I64_MAX.
Proof.
  destruct v as [s|j|h|l]; simpl; intros Hwf H; try done.
  - repeat case_match; simplify_eq. by eapply parse_i64_range.
  - by simplify_eq.
Qed.

(** The decimal text of an integer reads back as the integer: a counter
    survives being rendered as a string value. *)
Lemma dec_ascii z : is_ascii (dec z) = true.
Proof.
  apply forallb_forall. intros c Hc%list_elem_of_In. apply dec_chars in Hc as [-> | Hc]; [done|].
  unfold is_digit in Hc. apply in_range_spec in Hc. apply in_range_spec. lia.
Qed.

Lemma to_integer_dec i : I64_MIN <= i <= I64_MAX -> to_integer (VString (dec i)) = Ok i.
Proof.
  intros H. simpl. unfold from_utf8. rewrite utf8_valid_ascii by apply dec_ascii.
  by rewrite parse_i64_dec.
Qed.

Lemma as_string_valid v : utf8_valid (as_string v) = true.
Proof.
  destruct v; simpl; try done; [apply lossy_is_valid|]. apply utf8_valid_ascii, dec_ascii.
Qed.

Lemma should_apply_None d cur : should_apply FNone cur d = true.
Proof. done. Qed.
