(* ===== verification/World.v ===== *)
(** * The world the server runs in

    [Env] is what the program reads from its surroundings: the two clocks,
    the iteration order of hash tables, the platform's range of [Instant]
    and the Unicode upper-case table.  Clock readings and iteration orders
    are streams indexed by the number of readings taken so far, so two
    successive calls of [Instant::now] may differ, as they do in the code.

    [World] is the state commands act on, [M] the monad of code that reads
    the environment, changes the world and may panic.  A panic keeps the
    changes made before it: the process goes on serving other tasks. *)

From S2P Require Import Prelude Utf8 Errors Values.

Class Env : Type := mkEnv {
  mono : nat -> Z;            (* the n-th [Instant::now()], in ns *)
  wall : nat -> Z;            (* the n-th [SystemTime::now()], ns since the Unix epoch *)
  hash_order : nat -> forall A, gmap bytes A -> list (bytes * A);
  instant_min : Z;            (* the instants the platform can represent *)
  instant_max : Z;
  io : nat -> option (nat * bytes); (* the n-th I/O call: [None] for success, [Some (k, e)]
                                 for the failure [e] after [k] octets *)
  os_name : bytes;            (* [std::env::consts] and the process id *)
  arch_name : bytes;
  process_id : Z;
  upper_table : bytes -> bytes (* Unicode upper case of a non-ASCII character *)
}.

(** What the code relies on: the monotonic clock is monotonic and
    representable, and iterating a table visits every entry once. *)
Class EnvOk (E : Env) : Prop := {
  mono_le : forall i j, (i <= j)%nat -> mono i <= mono j;
  mono_range : forall i, instant_min <= mono i <= instant_max;
  hash_order_perm : forall i A (m : gmap bytes A), hash_order i A m ≡ₚ map_to_list m
}.

(** ** State *)
Record MemoryStore : Type := mkMemoryStore {
  data : gmap bytes StoredValue;
  expiration_index : gmap bytes Instant
}.

(** A file: what has been written to it, and how much of that has been
    synced to the device. *)
Record File : Type := mkFile {
  content : bytes;
  synced : nat
}.

Inductive FsyncPolicy : Type := Always | EverySecond | Never.

(** An open file, by path: appending to it or only reading it. *)
Inductive Handle : Type :=
| Appending (path : bytes)
| Reading (path : bytes).

(** [persistence::AofWriter], the state of the writer task. *)
Record AofWriter : Type := mkAofWriter {
  aof_file : Handle;
  aof_buffer : bytes;
  fsync_policy : FsyncPolicy;
  last_flush : Instant;
  flush_interval : Duration;
  file_path : bytes
}.

(** [persistence::WriterCmd]; the reply of a message is the answer of the
    step that handles it. *)
Inductive WriterCmd : Type :=
| Record_ (frame : bytes)
| Flush
| FileSize
| SwapFile (temp_path : bytes)
| Shutdown.

(** The rest of the process a command may touch: the first [INFO]'s
    instant, the file system, the writer task ([None] once it has exited)
    and its channel. *)
Record Process : Type := mkProcess {
  uptime_anchor : option Instant;
  disk : gmap bytes File;
  writer : option AofWriter;
  channel : list WriterCmd
}.

Definition no_process : Process := mkProcess None ∅ None [].

Record World : Type := mkWorld {
  w_store : MemoryStore;
  w_reads : nat;              (* environment readings taken so far *)
  w_proc : Process
}.

Definition set_data (s : MemoryStore) (d : gmap bytes StoredValue) : MemoryStore :=
  mkMemoryStore d (expiration_index s).
Definition set_index (s : MemoryStore) (x : gmap bytes Instant) : MemoryStore :=
  mkMemoryStore (data s) x.
Definition set_store (w : World) (s : MemoryStore) : World := mkWorld s (w_reads w) (w_proc w).
Definition tick (w : World) : World := mkWorld (w_store w) (S (w_reads w)) (w_proc w).
Definition set_proc (w : World) (p : Process) : World := mkWorld (w_store w) (w_reads w) p.

(** ** The monad *)
Inductive outcome (A : Type) : Type :=
| Ret (a : A)
| Panic.
Arguments Ret {A} a.
Arguments Panic {A}.

Definition M (A : Type) : Type := World -> outcome A * World.

#[global] Instance M_ret : MRet M := fun A a w => (Ret a, w).
#[global] Instance M_bind : MBind M :=
  fun A B f m w =>
    match m w with
    | (Ret a, w') => f a w'
    | (Panic, w') => (Panic, w')
    end.

Definition panic {A} : M A := fun w => (Panic, w).
Definition gets {A} (f : MemoryStore -> A) : M A := fun w => (Ret (f (w_store w)), w).
Definition modify (f : MemoryStore -> MemoryStore) : M unit :=
  fun w => (Ret tt, set_store w (f (w_store w))).

Definition getp {A} (f : Process -> A) : M A := fun w => (Ret (f (w_proc w)), w).
Definition modifyp (f : Process -> Process) : M unit :=
  fun w => (Ret tt, set_proc w (f (w_proc w))).

(** Rust's [?] on a [Result] inside effectful code. *)
Definition try_ {A B} (m : M (Result A)) (k : A -> M (Result B)) : M (Result B) :=
  r ← m; match r with Ok a => k a | Err e => mret (Err e) end.

Declare Scope potato_scope.
Notation "x ←? m ; k" := (try_ m (fun x => k))
  (at level 20, m at level 100, k at level 200, only parsing) : potato_scope.
#[global] Open Scope potato_scope.

(** The DashMap operations of the two tables. *)
Definition data_get (k : bytes) : M (option StoredValue) := gets (fun s => data s !! k).
Definition data_insert (k : bytes) (v : StoredValue) : M unit :=
  modify (fun s => set_data s (<[k := v]> (data s))).
Definition data_remove (k : bytes) : M (option StoredValue) :=
  old ← data_get k; _ ← modify (fun s => set_data s (delete k (data s))); mret old.
Definition index_insert (k : bytes) (t : Instant) : M unit :=
  modify (fun s => set_index s (<[k := t]> (expiration_index s))).
Definition index_remove (k : bytes) : M unit :=
  modify (fun s => set_index s (delete k (expiration_index s))).

(** ** Runs *)

(** [m] started in [w] returns [a] and leaves [w']. *)
Definition returns {A} (m : M A) (w : World) (a : A) (w' : World) : Prop := m w = (Ret a, w').

(** The world after [m], whether it returned or panicked. *)
Definition after {A} (m : M A) (w : World) : World := (m w).2.
Definition panics {A} (m : M A) (w : World) : Prop := (m w).1 = Panic.

Section Readings.
Context {E : Env}.

(** [Instant::now()] *)
Definition now : M Instant := fun w => (Ret (mono (w_reads w)), tick w).

(** [SystemTime::now()] *)
Definition system_now : M Z := fun w => (Ret (wall (w_reads w)), tick w).

(** Iterating a hash table, in the order the environment picks. *)
Definition iterate {A} (m : gmap bytes A) : M (list (bytes * A)) :=
  fun w => (Ret (hash_order (w_reads w) A m), tick w).

(** The outcome of the next I/O call. *)
Definition io_call : M (option (nat * bytes)) := fun w => (Ret (io (w_reads w)), tick w).

(** [Instant + Duration] and [Instant - Duration] panic when the result is
    not representable. *)
Definition instant_add (t : Instant) (d : Duration) : M Instant :=
  if instant_max <? t + d then panic else mret (t + d).
Definition instant_sub (t : Instant) (d : Duration) : M Instant :=
  if t - d <? instant_min then panic else mret (t - d).

(** [SystemTime::now().duration_since(UNIX_EPOCH)] in milliseconds as
    [u64]; [None] when the clock is before the epoch. *)
Definition unix_millis : M (option Z) :=
  t ← system_now; mret (if t <? 0 then None else Some (wrap_u64 (as_millis t))).

(** ** Constructors and accessors of a stored value that read a clock *)
Definition new_value (v : ValueType) : M StoredValue :=
  t ← now; st ← system_now; mret (mkStoredValue v t t None (for_value v st)).

Definition new_with_expiration (v : ValueType) (d : Instant) : M StoredValue :=
  t ← now; st ← system_now; mret (mkStoredValue v t t (Some d) (for_value v st)).

Definition new_with_ttl (v : ValueType) (ttl_seconds : Z) : M StoredValue :=
  t ← now; d ← instant_add t (from_secs ttl_seconds);
  st ← system_now; mret (mkStoredValue v t t (Some d) (for_value v st)).

(** The clock is read only when there is a deadline to compare with. *)
Definition is_expired (sv : StoredValue) : M bool :=
  match expires_at sv with
  | Some d => t ← now; mret (d <? t)
  | None => mret false
  end.

Definition touch (sv : StoredValue) : M StoredValue := t ← now; mret (touch_at sv t).

Definition update_metadata (sv : StoredValue) : M StoredValue :=
  st ← system_now; mret (set_metadata sv (update_for_value (metadata sv) (value sv) st)).

Definition set_ttl (sv : StoredValue) (ttl_seconds : Z) : M StoredValue :=
  t ← now; d ← instant_add t (from_secs ttl_seconds); mret (set_expiration sv d).

Definition ttl_seconds (sv : StoredValue) : M (option Z) :=
  match expires_at sv with
  | Some _ => t ← now; mret (ttl_seconds_at t sv)
  | None => mret None
  end.

Definition ttl_millis (sv : StoredValue) : M (option Z) :=
  match expires_at sv with
  | Some _ => t ← now; mret (ttl_millis_at t sv)
  | None => mret None
  end.

Definition age_seconds (sv : StoredValue) : M Z := t ← now; mret (age_seconds_at t sv).
Definition idle_time_seconds (sv : StoredValue) : M Z := t ← now; mret (idle_time_seconds_at t sv).

End Readings.

(** ** Concrete environments

    In [env_ms] both clocks advance by one millisecond per reading (up to
    some day far in the future); in [env_frozen] they stand still.  Tables
    iterate in the order of [map_to_list], [Instant] has the range of a
    Linux [timespec]. *)
Definition env_ms : Env := {|
  mono := fun n => 10 ^ 15 + 10 ^ 6 * Z.min (Z.of_nat n) (10 ^ 9);
  wall := fun n => 1700000000 * 10 ^ 9 + 10 ^ 6 * Z.min (Z.of_nat n) (10 ^ 9);
  hash_order := fun _ A m => map_to_list m;
  instant_min := - 2 ^ 63 * 10 ^ 9;
  instant_max := 2 ^ 63 * 10 ^ 9 - 1;
  io := fun _ => None;
  os_name := b#"linux";
  arch_name := b#"x86_64";
  process_id := 1;
  upper_table := fun c => c
|}.

Definition env_frozen (t : Z) : Env := {|
  mono := fun _ => t;
  wall := fun _ => 1700000000 * 10 ^ 9 + t;
  hash_order := fun _ A m => map_to_list m;
  instant_min := - 2 ^ 63 * 10 ^ 9;
  instant_max := 2 ^ 63 * 10 ^ 9 - 1;
  io := fun _ => None;
  os_name := b#"linux";
  arch_name := b#"x86_64";
  process_id := 1;
  upper_table := fun c => c
|}.

Lemma env_ms_ok : EnvOk env_ms.
Proof. split; simpl; [intros; lia|intros; lia|]. intros i A m. reflexivity. Qed.

Lemma env_frozen_ok t : - 2 ^ 63 * 10 ^ 9 <= t <= 2 ^ 63 * 10 ^ 9 - 1 -> EnvOk (env_frozen t).
Proof. intros H. split; [done|done|]. intros i A m. reflexivity. Qed.

(** ** Reasoning about runs *)

(** Bind runs its first part, then the continuation. *)
Lemma bind_run {A B} (m : M A) (f : A -> M B) w :
  mbind f m w = match m w with (Ret a, w') => f a w' | (Panic, w') => (Panic, w') end.
Proof. done. Qed.

(** Unfold the primitive operations of a run: after this the goal is about
    maps and clock readings only. *)
Ltac run_unfold :=
  unfold new_value, new_with_expiration, new_with_ttl, is_expired, touch, update_metadata,
    set_ttl, ttl_seconds, ttl_millis, age_seconds, idle_time_seconds, unix_millis,
    try_, data_remove, data_get, data_insert, index_insert, index_remove, gets, modify, getp, modifyp,
    instant_add, instant_sub, panic, now, system_now, iterate, io_call,
    mret, mbind, M_ret, M_bind, tick, set_store, set_proc, set_data, set_index in *.

Ltac run_simpl := run_unfold; simpl in *.
