(* ===== verification/MemoryStore.v ===== *)
(** * The in-memory store (src/src/storage/memory.rs, [MemoryStore])

    One definition per method, in the order of the source.  A method is
    one thread's execution of its body: every table access and clock
    reading happens in the order of the code.  [Steps] cuts the
    methods where other threads can come in. *)

From S2P Require Import Prelude Numbers Utf8 Errors Values World.

Definition WRONGTYPE : bytes :=
  b#"WRONGTYPE Operation against a key holding the wrong kind of value".

Definition wrongtype (op : string) : RustyPotatoError :=
  StorageError WRONGTYPE (Some (bytes_of_string op)) None.

Section Operations.
Context {E : Env}.

Definition empty_store : MemoryStore := mkMemoryStore ∅ ∅.

Definition len : M Z := gets (fun s => Z.of_nat (size (data s))).
Definition is_empty : M bool := gets (fun s => bool_decide (data s = ∅)).

Definition set (key : bytes) (v : ValueType) : M (Result unit) :=
  stored_value ← new_value v;
  _ ← index_remove key;
  _ ← data_insert key stored_value;
  mret (Ok tt).

(** The value to store and its deadline, once the write is allowed. *)
Definition make_stored (v : ValueType) (resolved_ttl : option Instant) : M StoredValue :=
  match resolved_ttl with
  | Some at_ => new_with_expiration v at_
  | None => new_value v
  end.

Definition allowed (existence : SetExistence) (logically_present : bool) : bool :=
  match existence with
  | SAlways => true
  | OnlyIfNotExists => negb logically_present
  | OnlyIfExists => logically_present
  end.

Definition resolve_keep (key : bytes) (ttl : SetTtlOption) : M (option Instant) :=
  match ttl with
  | TNone => mret None
  | At at_ => mret (Some at_)
  | KeepTtl =>
      e ← data_get key;
      match e with
      | None => mret None
      | Some sv => x ← is_expired sv; mret (if (x : bool) then None else expires_at sv)
      end
  end.

Definition set_with_options (key : bytes) (v : ValueType) (ttl : SetTtlOption)
    (existence : SetExistence) : M (Result SetOutcome) :=
  resolved_ttl ← resolve_keep key ttl;
  entry ← data_get key;
  match entry with
  | Some old =>
      expired ← is_expired old;
      let logically_present := negb expired in
      let prev := if logically_present then Some old else None in
      if negb (allowed existence logically_present) then
        mret (Ok (mkSetOutcome false prev))
      else
        stored_value ← make_stored v resolved_ttl;
        _ ← (match resolved_ttl with
             | Some at_ => index_insert key at_
             | None => index_remove key
             end);
        _ ← data_insert key stored_value;
        mret (Ok (mkSetOutcome true prev))
  | None =>
      match existence with
      | OnlyIfExists => mret (Ok (mkSetOutcome false None))
      | _ =>
          stored_value ← make_stored v resolved_ttl;
          _ ← (match resolved_ttl with
               | Some at_ => index_insert key at_
               | None => mret tt
               end);
          _ ← data_insert key stored_value;
          mret (Ok (mkSetOutcome true None))
      end
  end.

Definition set_with_ttl (key : bytes) (v : ValueType) (ttl_seconds : Z) : M (Result unit) :=
  stored_value ← new_with_ttl v ttl_seconds;
  match expires_at stored_value with
  | None => panic (* [unwrap] of [None] *)
  | Some d =>
      _ ← index_insert key d;
      _ ← data_insert key stored_value;
      mret (Ok tt)
  end.

Definition set_with_expiration (key : bytes) (v : ValueType) (d : Instant) : M (Result unit) :=
  stored_value ← new_with_expiration v d;
  _ ← index_insert key d;
  _ ← data_insert key stored_value;
  mret (Ok tt).

(** [delete] and [delete_sync] have the same body. *)
Definition delete_sync (key : bytes) : M (Result bool) :=
  e ← data_get key;
  expired ← (match e with Some entry => is_expired entry | None => mret false end);
  if (expired : bool) then
    _ ← index_remove key;
    _ ← data_remove key;
    mret (Ok false)
  else
    _ ← index_remove key;
    old ← data_remove key;
    mret (Ok (bool_decide (is_Some old))).

Definition delete_key (key : bytes) : M (Result bool) :=
  e ← data_get key;
  expired ← (match e with Some entry => is_expired entry | None => mret false end);
  if (expired : bool) then
    _ ← index_remove key;
    _ ← data_remove key;
    mret (Ok false)
  else
    _ ← index_remove key;
    old ← data_remove key;
    mret (Ok (bool_decide (is_Some old))).

Definition get (key : bytes) : M (Result (option StoredValue)) :=
  e ← data_get key;
  match e with
  | Some entry =>
      expired ← is_expired entry;
      if (expired : bool) then _ ←? delete_sync key; mret (Ok None)
      else mret (Ok (Some entry))
  | None => mret (Ok None)
  end.

Definition exists_ (key : bytes) : M (Result bool) :=
  e ← data_get key;
  match e with
  | Some entry =>
      expired ← is_expired entry;
      if (expired : bool) then _ ←? delete_sync key; mret (Ok false)
      else mret (Ok true)
  | None => mret (Ok false)
  end.

Definition expire_with_options (key : bytes) (ttl_seconds : Z) (flag : ExpireFlag) : M (Result bool) :=
  t ← now;
  new_expires_at ← instant_add t (from_secs ttl_seconds);
  e ← data_get key;
  match e with
  | Some entry =>
      expired ← is_expired entry;
      if (expired : bool) then _ ←? delete_key key; mret (Ok false)
      else if negb (should_apply flag (expires_at entry) new_expires_at) then mret (Ok false)
      else
        _ ← data_insert key (set_expiration entry new_expires_at);
        _ ← index_insert key new_expires_at;
        mret (Ok true)
  | None => mret (Ok false)
  end.

Definition expire (key : bytes) (ttl_seconds : Z) : M (Result bool) :=
  expire_with_options key ttl_seconds FNone.

Definition ttl (key : bytes) : M (Result Z) :=
  e ← data_get key;
  match e with
  | Some entry =>
      expired ← is_expired entry;
      if (expired : bool) then _ ←? delete_sync key; mret (Ok (-2))
      else t ← ttl_seconds entry; mret (Ok (default (-1) t))
  | None => mret (Ok (-2))
  end.

Definition pttl (key : bytes) : M (Result Z) :=
  e ← data_get key;
  match e with
  | Some entry =>
      expired ← is_expired entry;
      if (expired : bool) then _ ←? delete_sync key; mret (Ok (-2))
      else t ← ttl_millis entry; mret (Ok (default (-1) t))
  | None => mret (Ok (-2))
  end.

Definition expire_at_with_options (key : bytes) (new_expires_at : Instant) (flag : ExpireFlag) :
    M (Result bool) :=
  e ← data_get key;
  match e with
  | Some entry =>
      expired ← is_expired entry;
      if (expired : bool) then _ ←? delete_key key; mret (Ok false)
      else if negb (should_apply flag (expires_at entry) new_expires_at) then mret (Ok false)
      else
        _ ← data_insert key (set_expiration entry new_expires_at);
        _ ← index_insert key new_expires_at;
        mret (Ok true)
  | None => mret (Ok false)
  end.

Definition persist (key : bytes) : M (Result bool) :=
  e ← data_get key;
  match e with
  | Some entry =>
      expired ← is_expired entry;
      if (expired : bool) then _ ←? delete_sync key; mret (Ok false)
      else
        _ ← data_insert key (remove_expiration entry);
        _ ← index_remove key;
        mret (Ok (bool_decide (is_Some (expires_at entry))))
  | None => mret (Ok false)
  end.

Definition keys : M (list bytes) :=
  d ← gets data; l ← iterate d; mret (map fst l).

(** The [filter_map] of [snapshot]: one expiry test per entry, in
    iteration order. *)
Fixpoint live_entries (l : list (bytes * StoredValue)) : M (list (bytes * StoredValue)) :=
  match l with
  | [] => mret []
  | (k, sv) :: l' =>
      x ← is_expired sv;
      rest ← live_entries l';
      mret (if (x : bool) then rest else (k, sv) :: rest)
  end.

Definition snapshot : M (list (bytes * StoredValue)) :=
  d ← gets data; l ← iterate d; live_entries l.

Definition clear : M unit :=
  _ ← modify (fun s => set_data s ∅); modify (fun s => set_index s ∅).

Definition incr_by (key : bytes) (increment : Z) : M (Result Z) :=
  entry ← data_get key;
  match entry with
  | Some old =>
      expired ← is_expired old;
      if (expired : bool) then
        _ ← data_remove key;
        _ ← index_remove key;
        stored_value ← new_value (VInteger increment);
        _ ← data_insert key stored_value;
        mret (Ok increment)
      else
        current_value ←? mret (to_integer (value old));
        match checked_add_i64 current_value increment with
        | None => mret (Err IntegerOverflow)
        | Some v =>
            stored_value ← touch (set_value old (VInteger v));
            _ ← data_insert key stored_value;
            mret (Ok v)
        end
  | None =>
      stored_value ← new_value (VInteger increment);
      _ ← data_insert key stored_value;
      mret (Ok increment)
  end.

Definition incr (key : bytes) : M (Result Z) := incr_by key 1.
Definition decr (key : bytes) : M (Result Z) := incr_by key (-1).

Definition hset (key field val : bytes) : M (Result bool) :=
  e ← data_get key;
  _ ←? (match e with
        | Some entry =>
            expired ← is_expired entry;
            if (expired : bool) then delete_sync key else mret (Ok false)
        | None => mret (Ok false)
        end);
  entry ← data_get key;
  match entry with
  | Some old =>
      match value old with
      | VHash existing_hash =>
          let is_new := bool_decide (existing_hash !! field = None) in
          sv1 ← touch (set_value old (VHash (<[field := val]> existing_hash)));
          sv2 ← update_metadata sv1;
          _ ← data_insert key sv2;
          mret (Ok is_new)
      | _ => mret (Err (wrongtype "hset"))
      end
  | None =>
      stored_value ← new_value (VHash {[field := val]});
      _ ← data_insert key stored_value;
      mret (Ok true)
  end.

Definition hget (key field : bytes) : M (Result (option bytes)) :=
  e ← data_get key;
  match e with
  | Some entry =>
      expired ← is_expired entry;
      if (expired : bool) then _ ←? delete_sync key; mret (Ok None)
      else
        match as_hash (value entry) with
        | Ok hash => mret (Ok (hash !! field))
        | Err _ => mret (Err (wrongtype "hget"))
        end
  | None => mret (Ok None)
  end.

(** The final, mutating part of [hdel], after the two flags are known. *)
Definition hdel_commit (key field : bytes) (should_remove_key : bool) : M unit :=
  if should_remove_key then
    _ ← data_remove key; index_remove key
  else
    e ← data_get key;
    match e with
    | Some entry =>
        match as_hash_mut (value entry) with
        | Ok hash =>
            sv1 ← touch (set_value entry (VHash (delete field hash)));
            sv2 ← update_metadata sv1;
            data_insert key sv2
        | Err _ => mret tt
        end
    | None => mret tt
    end.

Definition hdel (key field : bytes) : M (Result bool) :=
  e ← data_get key;
  expired ← (match e with Some entry => is_expired entry | None => mret false end);
  if (expired : bool) then _ ←? delete_sync key; mret (Ok false)
  else
    e2 ← data_get key;
    match e2 with
    | None => mret (Ok false)
    | Some entry =>
        match value entry with
        | VHash hash =>
            let was_removed := bool_decide (is_Some (hash !! field)) in
            let should_remove_key := bool_decide (size hash = 1%nat) && was_removed in
            _ ← (if was_removed then hdel_commit key field should_remove_key else mret tt);
            mret (Ok was_removed)
        | _ => mret (Err (wrongtype "hdel"))
        end
    end.

Definition hgetall (key : bytes) : M (Result (list (bytes * bytes))) :=
  e ← data_get key;
  match e with
  | Some entry =>
      expired ← is_expired entry;
      if (expired : bool) then _ ←? delete_sync key; mret (Ok [])
      else
        match as_hash (value entry) with
        | Ok hash => l ← iterate hash; mret (Ok l)
        | Err _ => mret (Err (wrongtype "hgetall"))
        end
  | None => mret (Ok [])
  end.

Definition hexists (key field : bytes) : M (Result bool) :=
  e ← data_get key;
  match e with
  | Some entry =>
      expired ← is_expired entry;
      if (expired : bool) then _ ←? delete_sync key; mret (Ok false)
      else
        match as_hash (value entry) with
        | Ok hash => mret (Ok (bool_decide (is_Some (hash !! field))))
        | Err _ => mret (Err (wrongtype "hexists"))
        end
  | None => mret (Ok false)
  end.

Definition delete_internal (key : bytes) : M bool :=
  _ ← index_remove key;
  old ← data_remove key;
  mret (bool_decide (is_Some old)).

Fixpoint delete_all (l : list bytes) (removed_count : Z) : M Z :=
  match l with
  | [] => mret removed_count
  | k :: l' =>
      r ← delete_internal k;
      delete_all l' (if (r : bool) then removed_count + 1 else removed_count)
  end.

Definition cleanup_expired : M Z :=
  t ← now;
  idx ← gets expiration_index;
  l ← iterate idx;
  delete_all (map fst (filter (fun '(_, d) => d <= t) l)) 0.

End Operations.
