(* ===== verification/StoreInv.v ===== *)
(** * Well-formedness of the store

    [store_wf]: the expiration index holds exactly the deadlines of the
    stored values, and every value is well-formed.  Every operation of
    [MemoryStore] keeps it, whatever the clock does, also when it panics. *)

From S2P Require Import Prelude Numbers Utf8 Errors Values World MemoryStore.

(** A value the commands can produce: well-formed, and no empty hash. *)
Definition value_ok (v : ValueType) : Prop :=
  value_wf v /\ match v with VHash h => h <> ∅ | _ => True end.

Definition index_ok (s : MemoryStore) : Prop :=
  forall k, expiration_index s !! k = data s !! k ≫= expires_at.

Definition values_ok (s : MemoryStore) : Prop :=
  map_Forall (fun _ sv => value_ok (value sv)) (data s).

Definition store_wf (s : MemoryStore) : Prop := index_ok s /\ values_ok s.

Lemma empty_store_wf : store_wf empty_store.
Proof. split; [done|]. by intros ???. Qed.

(** ** The store updates the operations are made of *)
Lemma index_ok_insert_None s k sv :
  index_ok s -> expires_at sv = None ->
  index_ok (mkMemoryStore (<[k := sv]> (data s)) (delete k (expiration_index s))).
Proof.
  intros H Hd j. simpl. destruct (decide (k = j)) as [<-|Hne].
  - by rewrite lookup_delete_eq, lookup_insert_eq.
  - rewrite lookup_delete_ne, lookup_insert_ne by done. apply H.
Qed.

Lemma index_ok_insert_Some s k sv d :
  index_ok s -> expires_at sv = Some d ->
  index_ok (mkMemoryStore (<[k := sv]> (data s)) (<[k := d]> (expiration_index s))).
Proof.
  intros H Hd j. simpl. destruct (decide (k = j)) as [<-|Hne].
  - by rewrite !lookup_insert_eq.
  - rewrite !lookup_insert_ne by done. apply H.
Qed.

Lemma index_ok_insert_same s k sv :
  index_ok s -> expires_at sv = data s !! k ≫= expires_at ->
  index_ok (mkMemoryStore (<[k := sv]> (data s)) (expiration_index s)).
Proof.
  intros H Hd j. simpl. destruct (decide (k = j)) as [<-|Hne].
  - rewrite lookup_insert_eq. simpl. rewrite Hd. apply H.
  - rewrite lookup_insert_ne by done. apply H.
Qed.

Lemma index_ok_delete s k :
  index_ok s -> index_ok (mkMemoryStore (delete k (data s)) (delete k (expiration_index s))).
Proof.
  intros H j. simpl. destruct (decide (k = j)) as [<-|Hne].
  - by rewrite !lookup_delete_eq.
  - rewrite !lookup_delete_ne by done. apply H.
Qed.

Lemma values_ok_insert s k sv i :
  values_ok s -> value_ok (value sv) -> values_ok (mkMemoryStore (<[k := sv]> (data s)) i).
Proof. intros H Hv. by apply map_Forall_insert_2. Qed.

Lemma values_ok_delete s k i : values_ok s -> values_ok (mkMemoryStore (delete k (data s)) i).
Proof. intros H. by apply map_Forall_delete. Qed.

Lemma store_wf_insert_None s k sv :
  store_wf s -> expires_at sv = None -> value_ok (value sv) ->
  store_wf (mkMemoryStore (<[k := sv]> (data s)) (delete k (expiration_index s))).
Proof. intros [? ?] ? ?. split; [by apply index_ok_insert_None|by apply values_ok_insert]. Qed.

Lemma store_wf_insert_Some s k sv d :
  store_wf s -> expires_at sv = Some d -> value_ok (value sv) ->
  store_wf (mkMemoryStore (<[k := sv]> (data s)) (<[k := d]> (expiration_index s))).
Proof. intros [? ?] ? ?. split; [by apply index_ok_insert_Some|by apply values_ok_insert]. Qed.

Lemma store_wf_insert_same s k sv :
  store_wf s -> expires_at sv = data s !! k ≫= expires_at -> value_ok (value sv) ->
  store_wf (mkMemoryStore (<[k := sv]> (data s)) (expiration_index s)).
Proof. intros [? ?] ? ?. split; [by apply index_ok_insert_same|by apply values_ok_insert]. Qed.

Lemma store_wf_delete s k :
  store_wf s -> store_wf (mkMemoryStore (delete k (data s)) (delete k (expiration_index s))).
Proof. intros [? ?]. split; [by apply index_ok_delete|by apply values_ok_delete]. Qed.

Lemma store_wf_lookup s k sv : store_wf s -> data s !! k = Some sv -> value_ok (value sv).
Proof. intros [_ H] Hk. by apply (H k). Qed.

#[export] Hint Resolve empty_store_wf store_wf_insert_None store_wf_insert_Some
  store_wf_insert_same store_wf_delete : potato.

Lemma value_ok_integer v old n :
  value_ok old -> to_integer old = Ok n -> forall i, checked_add_i64 n i = Some v -> value_ok (VInteger v).
Proof. intros [Hw _] Hn i [-> H]%checked_add_i64_Some. by split. Qed.

Lemma value_ok_hash_insert h f x :
  value_ok (VHash h) -> utf8_valid f = true -> utf8_valid x = true -> value_ok (VHash (<[f := x]> h)).
Proof.
  intros [Hw _] Hf Hx. split; simpl in *.
  - by apply map_Forall_insert_2.
  - apply insert_non_empty.
Qed.

Lemma value_ok_hash_singleton f x :
  utf8_valid f = true -> utf8_valid x = true -> value_ok (VHash {[f := x]}).
Proof.
  intros Hf Hx. split; simpl; [by apply map_Forall_singleton|]. apply map_non_empty_singleton.
Qed.

Lemma hash_delete_empty (h : gmap bytes bytes) f :
  is_Some (h !! f) -> size h = 1%nat <-> delete f h = ∅.
Proof.
  intros [x Hx]. rewrite <- (insert_delete_id h f x Hx) at 1.
  rewrite map_size_insert_None by apply lookup_delete_eq.
  rewrite <- (map_size_empty_iff (delete f h)). lia.
Qed.

Lemma value_ok_hash_delete h f :
  value_ok (VHash h) -> delete f h <> ∅ -> value_ok (VHash (delete f h)).
Proof. intros [Hw _] Hne. split; [|done]. simpl in *. by apply map_Forall_delete. Qed.

(** ** Preservation *)

(** [m] keeps the store well-formed. *)
Definition keeps_wf {A} (m : M A) : Prop :=
  forall w, store_wf (w_store w) -> store_wf (w_store (after m w)).

Lemma keeps_wf_ret {A} (a : A) : keeps_wf (mret a).
Proof. by intros w. Qed.

Lemma keeps_wf_bind {A B} (m : M A) (f : A -> M B) :
  keeps_wf m -> (forall a, keeps_wf (f a)) -> keeps_wf (m ≫= f).
Proof.
  intros Hm Hf w Hw. unfold after. rewrite bind_run. specialize (Hm w Hw). unfold after in Hm.
  destruct (m w) as [[a|] w']; [by apply Hf|done].
Qed.

Lemma keeps_wf_try {A B} (m : M (Result A)) (f : A -> M (Result B)) :
  keeps_wf m -> (forall a, keeps_wf (f a)) -> keeps_wf (try_ m f).
Proof. intros Hm Hf. apply keeps_wf_bind; [done|]. intros [a|e]; [done|apply keeps_wf_ret]. Qed.

#[export] Hint Resolve keeps_wf_ret keeps_wf_bind keeps_wf_try : potato.

(** Run an operation to its leaves: every branch of the code, with the
    equations of the tests that lead to it. *)
Ltac run_leaves :=
  unfold after; run_simpl;
  repeat (case_match; simplify_eq/=; try done).

(** The store at a leaf is one of the updates above. *)
Ltac wf_leaf :=
  simpl;
  first
    [ done
    | by apply store_wf_delete
    | by apply store_wf_insert_None
    | by apply store_wf_insert_Some
    | apply store_wf_insert_same;
      [ done
      | simpl; by repeat match goal with H : data _ !! _ = _ |- _ => rewrite H; clear H end
      | simpl; try done ] ].

Section Preservation.
Context {E : Env}.

Lemma delete_sync_wf k : keeps_wf (delete_sync k).
Proof. intros [s r p] Hs. unfold delete_sync. run_leaves; wf_leaf. Qed.

Lemma delete_key_wf k : keeps_wf (delete_key k).
Proof. intros [s r p] Hs. unfold delete_key. run_leaves; wf_leaf. Qed.

Lemma set_wf k v : value_ok v -> keeps_wf (set k v).
Proof. intros Hv [s r p] Hs. unfold set. run_leaves; wf_leaf. Qed.

Lemma set_with_options_wf k v ttl ex : value_ok v -> keeps_wf (set_with_options k v ttl ex).
Proof.
  intros Hv [s r p] Hs. unfold set_with_options, resolve_keep, make_stored. run_leaves; wf_leaf.
Qed.

Lemma set_with_ttl_wf k v n : value_ok v -> keeps_wf (set_with_ttl k v n).
Proof. intros Hv [s r p] Hs. unfold set_with_ttl. run_leaves; wf_leaf. Qed.

Lemma set_with_expiration_wf k v d : value_ok v -> keeps_wf (set_with_expiration k v d).
Proof. intros Hv [s r p] Hs. unfold set_with_expiration. run_leaves; wf_leaf. Qed.

Lemma get_wf k : keeps_wf (get k).
Proof. intros [s r p] Hs. unfold get, delete_sync. run_leaves; wf_leaf. Qed.

Lemma exists_wf k : keeps_wf (exists_ k).
Proof. intros [s r p] Hs. unfold exists_, delete_sync. run_leaves; wf_leaf. Qed.

Lemma expire_at_with_options_wf k d fl : keeps_wf (expire_at_with_options k d fl).
Proof.
  intros [s r p] Hs. unfold expire_at_with_options, delete_key. run_leaves; try wf_leaf.
  all: apply store_wf_insert_Some; [done|done|simpl; by eapply store_wf_lookup].
Qed.

Lemma expire_with_options_wf k n fl : keeps_wf (expire_with_options k n fl).
Proof.
  intros [s r p] Hs. unfold expire_with_options, delete_key. run_leaves; try wf_leaf.
  all: apply store_wf_insert_Some; [done|done|simpl; by eapply store_wf_lookup].
Qed.

Lemma ttl_wf k : keeps_wf (ttl k).
Proof. intros [s r p] Hs. unfold ttl, delete_sync. run_leaves; wf_leaf. Qed.

Lemma pttl_wf k : keeps_wf (pttl k).
Proof. intros [s r p] Hs. unfold pttl, delete_sync. run_leaves; wf_leaf. Qed.

Lemma persist_wf k : keeps_wf (persist k).
Proof.
  intros [s r p] Hs. unfold persist, delete_sync. run_leaves; try wf_leaf.
  all: apply store_wf_insert_None; [done|done|simpl; by eapply store_wf_lookup].
Qed.

Lemma incr_by_wf k n : I64_MIN <= n <= I64_MAX -> keeps_wf (incr_by k n).
Proof.
  intros Hn [s r p] Hs. assert (value_ok (VInteger n)) by done.
  unfold incr_by. run_leaves; try wf_leaf.
  all: try (by eapply value_ok_integer; [by eapply store_wf_lookup|..]).
  rewrite insert_delete_eq. by apply store_wf_insert_None.
Qed.

Lemma data_get_wf k : keeps_wf (data_get k).
Proof. by intros w. Qed.

Lemma is_expired_wf sv : keeps_wf (is_expired sv).
Proof. intros w Hw. unfold is_expired. by case_match. Qed.

Lemma hset_wf k f x : utf8_valid f = true -> utf8_valid x = true -> keeps_wf (hset k f x).
Proof.
  intros Hf Hx. pose proof (value_ok_hash_singleton f x Hf Hx). unfold hset.
  apply keeps_wf_bind; [apply data_get_wf|]. intros e. apply keeps_wf_try.
  { destruct e; [|apply keeps_wf_ret]. apply keeps_wf_bind; [apply is_expired_wf|].
    intros []; [apply delete_sync_wf|apply keeps_wf_ret]. }
  intros _ [s r p] Hs. run_leaves; wf_leaf.
  apply value_ok_hash_insert; [|done|done].
  match goal with H : data s !! k = Some ?sv, Hv : value ?sv = _ |- _ =>
    rewrite <- Hv; by eapply store_wf_lookup end.
Qed.

Lemma hdel_commit_wf k f b :
  forall w, store_wf (w_store w) ->
    (b = false -> exists sv h, data (w_store w) !! k = Some sv /\ value sv = VHash h /\ delete f h <> ∅) ->
    store_wf (w_store (after (hdel_commit k f b) w)).
Proof.
  intros [s r p] Hs Hb. unfold hdel_commit, as_hash_mut. destruct b.
  - run_leaves; wf_leaf.
  - destruct (Hb eq_refl) as (sv & h & Hk & Hv & Hne). simpl in Hk.
    pose proof (store_wf_lookup _ _ _ Hs Hk) as Hok. rewrite Hv in Hok.
    unfold after. run_simpl. rewrite Hk, Hv. simpl.
    apply store_wf_insert_same; [done|simpl; by rewrite Hk|by apply value_ok_hash_delete].
Qed.

Lemma hdel_wf k f : keeps_wf (hdel k f).
Proof.
  unfold hdel. apply keeps_wf_bind; [apply data_get_wf|]. intros e.
  apply keeps_wf_bind. { destruct e; [apply is_expired_wf|apply keeps_wf_ret]. }
  intros [].
  { apply keeps_wf_try; [apply delete_sync_wf|]. intros ?. apply keeps_wf_ret. }
  intros [s r p] Hs. unfold after. rewrite bind_run. simpl.
  destruct (data s !! k) as [sv|] eqn:Hk; [|done].
  destruct (value sv) as [| |h|] eqn:Hv; try done.
  case_bool_decide as Hf; [|done]. rewrite bind_run.
  assert (store_wf (w_store (after (hdel_commit k f (bool_decide (size h = 1%nat) && true))
            (mkWorld s r p)))) as Hc.
  { apply hdel_commit_wf; [done|]. rewrite andb_true_r. intros Hb%bool_decide_eq_false.
    exists sv, h. by rewrite <- hash_delete_empty. }
  unfold after in Hc. by destruct (hdel_commit _ _ _ _) as [[]?].
Qed.

Lemma hget_wf k f : keeps_wf (hget k f).
Proof. intros [s r p] Hs. unfold hget, delete_sync. run_leaves; wf_leaf. Qed.

Lemma hgetall_wf k : keeps_wf (hgetall k).
Proof. intros [s r p] Hs. unfold hgetall, delete_sync. run_leaves; wf_leaf. Qed.

Lemma hexists_wf k f : keeps_wf (hexists k f).
Proof. intros [s r p] Hs. unfold hexists, delete_sync. run_leaves; wf_leaf. Qed.

Lemma clear_wf : keeps_wf clear.
Proof. intros w _. apply empty_store_wf. Qed.

Lemma delete_internal_wf k : keeps_wf (delete_internal k).
Proof. intros [s r p] Hs. unfold delete_internal. run_leaves; wf_leaf. Qed.

Lemma delete_all_wf l n : keeps_wf (delete_all l n).
Proof.
  revert n. induction l as [|k l IH]; intros n; [apply keeps_wf_ret|].
  apply keeps_wf_bind; [apply delete_internal_wf|]. intros ?. apply IH.
Qed.

Lemma cleanup_expired_wf : keeps_wf cleanup_expired.
Proof.
  unfold cleanup_expired. apply keeps_wf_bind; [by intros w|]. intros t.
  apply keeps_wf_bind; [by intros w|]. intros i.
  apply keeps_wf_bind; [by intros w|]. intros l. apply delete_all_wf.
Qed.

(** Filtering the live entries only reads the clock. *)
Lemma live_entries_run l w :
  exists r l', live_entries l w = (Ret l', mkWorld (w_store w) r (w_proc w)).
Proof.
  revert w. induction l as [|[k sv] l IH]; intros [s r p]; [by eexists _, _|].
  cbn [live_entries]. rewrite bind_run. unfold is_expired.
  destruct (expires_at sv) as [d|].
  - change ((t ← now; mret (d <? t)) (mkWorld s r p)) with (Ret (d <? mono r), mkWorld s (S r) p).
    cbv iota beta. rewrite bind_run.
    destruct (IH (mkWorld s (S r) p)) as (r' & l' & ->). by eexists _, _.
  - change ((mret false : M bool) (mkWorld s r p)) with (Ret false, mkWorld s r p). cbv iota beta.
    rewrite bind_run. destruct (IH (mkWorld s r p)) as (r' & l' & ->). by eexists _, _.
Qed.

Lemma snapshot_wf : keeps_wf snapshot.
Proof.
  intros [s r p] Hs. unfold after, snapshot. rewrite bind_run. simpl. rewrite bind_run. simpl.
  unfold tick. simpl.
  by destruct (live_entries_run (hash_order r _ (data s)) (mkWorld s (S r) p)) as (r' & l' & ->).
Qed.

End Preservation.

(** Deleting a list of keys removes exactly these, from both tables. *)
Lemma delete_all_run l n w :
  exists m d x, delete_all l n w = (Ret m, mkWorld (mkMemoryStore d x) (w_reads w) (w_proc w)) /\
    (forall j, d !! j = if decide (j ∈ l) then None else data (w_store w) !! j) /\
    (forall j, x !! j = if decide (j ∈ l) then None else expiration_index (w_store w) !! j).
Proof.
  revert n w. induction l as [|k l IH]; intros n [[d0 x0] r p].
  - eexists _, _, _. split; [reflexivity|]. split; intros j; by rewrite decide_False by set_solver.
  - cbn [delete_all]. rewrite bind_run. unfold delete_internal. run_simpl.
    edestruct IH as (m & d & x & -> & Hd & Hx). eexists _, _, _. split; [reflexivity|]. simpl in *.
    split; intros j; [rewrite Hd|rewrite Hx];
      (destruct (decide (j ∈ l)); [by rewrite decide_True by set_solver|]);
      (destruct (decide (k = j)) as [<-|]; [rewrite lookup_delete_eq; by rewrite decide_True by set_solver|]);
      rewrite lookup_delete_ne by done; by rewrite decide_False by set_solver.
Qed.
