(* ===== verification/StoreSpec.v ===== *)
(** * What the store promises

    The abstract store is the map of the live keys: what a client can see
    at an instant [t].  [spec] gives every operation its meaning on that
    map; expiry appears only as time passing.  The file states the
    operations of [MemoryStore] as one type [StoreOp] and proves that
    [exec] refines [spec], for one operation and along any sequence. *)

From S2P Require Import Prelude Numbers Utf8 Errors Values World MemoryStore StoreInv.

(** ** Operations and their observable results *)
Inductive StoreOp : Type :=
| OSet (k : bytes) (v : ValueType)
| OSetOpt (k : bytes) (v : ValueType) (ttl : SetTtlOption) (ex : SetExistence)
| OSetTtl (k : bytes) (v : ValueType) (secs : Z)
| OSetExp (k : bytes) (v : ValueType) (d : Instant)
| OGet (k : bytes)
| ODelete (k : bytes)
| OExists (k : bytes)
| OExpire (k : bytes) (secs : Z) (fl : ExpireFlag)
| OExpireAt (k : bytes) (d : Instant) (fl : ExpireFlag)
| OTtl (k : bytes)
| OPttl (k : bytes)
| OPersist (k : bytes)
| OIncrBy (k : bytes) (n : Z)
| OHset (k f x : bytes)
| OHget (k f : bytes)
| OHdel (k f : bytes)
| OHgetall (k : bytes)
| OHexists (k f : bytes)
| OClear
| OCleanup.

#[global] Instance StoreOp_eq_dec : EqDecision StoreOp.
Proof. solve_decision. Defined.

(** A live key: its value and deadline. *)
Abbreviation Live := (ValueType * option Instant)%type.
Abbreviation AStore := (gmap bytes Live).

Inductive OpResult : Type :=
| RUnit
| RBool (b : bool)
| RInt (z : Z)
| RValue (v : option Live)
| RBytes (b : option bytes)
| RMap (m : gmap bytes bytes)
| ROutcome (applied_ : bool) (previous_ : option Live)
| RErr (e : RustyPotatoError).

Definition see (sv : StoredValue) : Live := (value sv, expires_at sv).

Definition as_result {A} (f : A -> OpResult) (r : Result A) : OpResult :=
  match r with Ok a => f a | Err e => RErr e end.

Section Exec.
Context {E : Env}.

Definition exec (op : StoreOp) : M OpResult :=
  match op with
  | OSet k v => r ← set k v; mret (as_result (fun _ => RUnit) r)
  | OSetOpt k v ttl ex =>
      r ← set_with_options k v ttl ex;
      mret (as_result (fun o => ROutcome (applied o) (see <$> previous o)) r)
  | OSetTtl k v n => r ← set_with_ttl k v n; mret (as_result (fun _ => RUnit) r)
  | OSetExp k v d => r ← set_with_expiration k v d; mret (as_result (fun _ => RUnit) r)
  | OGet k => r ← get k; mret (as_result (fun o => RValue (see <$> o)) r)
  | ODelete k => r ← delete_key k; mret (as_result RBool r)
  | OExists k => r ← exists_ k; mret (as_result RBool r)
  | OExpire k n fl => r ← expire_with_options k n fl; mret (as_result RBool r)
  | OExpireAt k d fl => r ← expire_at_with_options k d fl; mret (as_result RBool r)
  | OTtl k => r ← ttl k; mret (as_result RInt r)
  | OPttl k => r ← pttl k; mret (as_result RInt r)
  | OPersist k => r ← persist k; mret (as_result RBool r)
  | OIncrBy k n => r ← incr_by k n; mret (as_result RInt r)
  | OHset k f x => r ← hset k f x; mret (as_result RBool r)
  | OHget k f => r ← hget k f; mret (as_result RBytes r)
  | OHdel k f => r ← hdel k f; mret (as_result RBool r)
  | OHgetall k => r ← hgetall k; mret (as_result (fun l => RMap (list_to_map l)) r)
  | OHexists k f => r ← hexists k f; mret (as_result RBool r)
  | OClear => _ ← clear; mret RUnit
  | OCleanup => _ ← cleanup_expired; mret RUnit
  end.

End Exec.

(** The arguments the commands pass: machine integers, texts, non-empty
    hashes. *)
Definition op_ok (op : StoreOp) : Prop :=
  match op with
  | OSet _ v | OSetOpt _ v _ _ | OSetTtl _ v _ | OSetExp _ v _ => value_ok v
  | OIncrBy _ n => I64_MIN <= n <= I64_MAX
  | OHset _ f x => utf8_valid f = true /\ utf8_valid x = true
  | _ => True
  end.

(** The one key an operation is about. *)
Definition op_key (op : StoreOp) : option bytes :=
  match op with
  | OSet k _ | OSetOpt k _ _ _ | OSetTtl k _ _ | OSetExp k _ _ | OGet k | ODelete k | OExists k
  | OExpire k _ _ | OExpireAt k _ _ | OTtl k | OPttl k | OPersist k | OIncrBy k _
  | OHset k _ _ | OHget k _ | OHdel k _ | OHgetall k | OHexists k _ => Some k
  | OClear | OCleanup => None
  end.

(** ** The abstract store *)
Definition see_at (t : Instant) (sv : StoredValue) : option Live :=
  if expired_at t sv then None else Some (see sv).

(** What is visible at [t]. *)
Definition view (t : Instant) (s : MemoryStore) : AStore := omap (see_at t) (data s).

(** Expiry of an abstract entry, and the passing of time. *)
Definition dead (t : Instant) (x : Live) : bool :=
  match x.2 with Some d => d <? t | None => false end.
Definition pass (t : Instant) (a : AStore) : AStore := filter (fun kv => dead t kv.2 = false) a.

(** Entries the sweeper removes: those whose deadline is not after [t]. *)
Definition due (t : Instant) (x : Live) : bool :=
  match x.2 with Some d => d <=? t | None => false end.

(** Storing an entry: one whose deadline has passed is as good as deleted. *)
Definition put (t : Instant) (k : bytes) (x : Live) (a : AStore) : AStore :=
  if dead t x then delete k a else <[k := x]> a.

Definition spec_expire_at (t : Instant) (k : bytes) (d : Instant) (fl : ExpireFlag) (a : AStore) :
    OpResult * AStore :=
  match a !! k with
  | None => (RBool false, a)
  | Some (v, cur) =>
      if should_apply fl cur d then (RBool true, put t k (v, Some d) a) else (RBool false, a)
  end.

Definition spec_ttl (t : Instant) (conv : Z -> Z) (k : bytes) (a : AStore) : OpResult :=
  RInt (match a !! k with
        | None => -2
        | Some (_, None) => -1
        | Some (_, Some d) => if t <? d then conv (d - t) else -2
        end).

(** A read of the hash at [k]: absent keys read as [absent], other types
    are an error. *)
Definition spec_hash (op : string) (absent : OpResult) (f : gmap bytes bytes -> OpResult)
    (k : bytes) (a : AStore) : OpResult :=
  match a !! k with
  | None => absent
  | Some (VHash h, _) => f h
  | Some _ => RErr (wrongtype op)
  end.

Definition spec (t : Instant) (op : StoreOp) (a : AStore) : OpResult * AStore :=
  match op with
  | OSet k v => (RUnit, <[k := (v, None)]> a)
  | OSetOpt k v ttl ex =>
      if allowed ex (bool_decide (is_Some (a !! k))) then
        let d := match ttl with TNone => None | At at_ => Some at_ | KeepTtl => a !! k ≫= snd end in
        (ROutcome true (a !! k), put t k (v, d) a)
      else (ROutcome false (a !! k), a)
  | OSetTtl k v n => (RUnit, put t k (v, Some (t + from_secs n)) a)
  | OSetExp k v d => (RUnit, put t k (v, Some d) a)
  | OGet k => (RValue (a !! k), a)
  | ODelete k => (RBool (bool_decide (is_Some (a !! k))), delete k a)
  | OExists k => (RBool (bool_decide (is_Some (a !! k))), a)
  | OExpire k n fl => spec_expire_at t k (t + from_secs n) fl a
  | OExpireAt k d fl => spec_expire_at t k d fl a
  | OTtl k => (spec_ttl t (fun d => wrap_i64 (as_secs d)) k a, a)
  | OPttl k => (spec_ttl t (fun d => Z.min (as_millis d) I64_MAX) k a, a)
  | OPersist k =>
      match a !! k with
      | None => (RBool false, a)
      | Some (v, d) => (RBool (bool_decide (is_Some d)), <[k := (v, None)]> a)
      end
  | OIncrBy k n =>
      match a !! k with
      | None => (RInt n, <[k := (VInteger n, None)]> a)
      | Some (v, d) =>
          match to_integer v with
          | Err e => (RErr e, a)
          | Ok c =>
              match checked_add_i64 c n with
              | None => (RErr IntegerOverflow, a)
              | Some r => (RInt r, <[k := (VInteger r, d)]> a)
              end
          end
      end
  | OHset k f x =>
      match a !! k with
      | None => (RBool true, <[k := (VHash {[f := x]}, None)]> a)
      | Some (VHash h, d) =>
          (RBool (bool_decide (h !! f = None)), <[k := (VHash (<[f := x]> h), d)]> a)
      | Some _ => (RErr (wrongtype "hset"), a)
      end
  | OHget k f => (spec_hash "hget" (RBytes None) (fun h => RBytes (h !! f)) k a, a)
  | OHdel k f =>
      match a !! k with
      | None => (RBool false, a)
      | Some (VHash h, d) =>
          if bool_decide (is_Some (h !! f)) then
            (RBool true,
             if bool_decide (delete f h = ∅) then delete k a else <[k := (VHash (delete f h), d)]> a)
          else (RBool false, a)
      | Some _ => (RErr (wrongtype "hdel"), a)
      end
  | OHgetall k => (spec_hash "hgetall" (RMap ∅) RMap k a, a)
  | OHexists k f =>
      (spec_hash "hexists" (RBool false) (fun h => RBool (bool_decide (is_Some (h !! f)))) k a, a)
  | OClear => (RUnit, ∅)
  | OCleanup => (RUnit, filter (fun kv => due t kv.2 = false) a)
  end.

(** Operations that compute a deadline from a duration panic when it is
    not representable. *)
Definition overflows {E : Env} (t : Instant) (op : StoreOp) : bool :=
  match op with
  | OExpire _ n _ | OSetTtl _ _ n => instant_max <? t + from_secs n
  | _ => false
  end.

(** ** The view of the store updates *)
Lemma lookup_view t s k : view t s !! k = data s !! k ≫= see_at t.
Proof. apply lookup_omap. Qed.

Lemma view_insert t s k sv i :
  view t (mkMemoryStore (<[k := sv]> (data s)) i) = put t k (see sv) (view t s).
Proof.
  unfold put. change (dead t (see sv)) with (expired_at t sv).
  apply map_eq. intros j. rewrite lookup_view. simpl.
  destruct (decide (k = j)) as [<-|Hne].
  - rewrite lookup_insert_eq. simpl. unfold see_at.
    destruct (expired_at t sv); [by rewrite lookup_delete_eq|by rewrite lookup_insert_eq].
  - rewrite lookup_insert_ne by done. rewrite <- lookup_view.
    destruct (expired_at t sv); [by rewrite lookup_delete_ne|by rewrite lookup_insert_ne].
Qed.

Lemma view_delete t s k i :
  view t (mkMemoryStore (delete k (data s)) i) = delete k (view t s).
Proof.
  apply map_eq. intros j. rewrite lookup_view. simpl.
  destruct (decide (k = j)) as [<-|Hne].
  - by rewrite !lookup_delete_eq.
  - rewrite !lookup_delete_ne by done. by rewrite lookup_view.
Qed.

Lemma view_index t s i : view t (mkMemoryStore (data s) i) = view t s.
Proof. done. Qed.

(** Deleting a key whose value has expired does not change the view. *)
Lemma view_delete_dead t s k : view t s !! k = None -> delete k (view t s) = view t s.
Proof. apply delete_id. Qed.

(** Time passing only removes the entries whose deadline passes. *)
Lemma view_pass t t' s : t <= t' -> view t' s = pass t' (view t s).
Proof.
  intros Ht. apply map_eq. intros j. unfold pass. rewrite map_lookup_filter, !lookup_view.
  destruct (data s !! j) as [sv|]; [|done]. simpl. unfold see_at, expired_at.
  destruct (expires_at sv) as [d|] eqn:Ed; simpl.
  - destruct (Z.ltb_spec d t); simpl; [destruct (Z.ltb_spec d t'); [done|lia]|].
    unfold guard, dead. simpl. rewrite Ed. by destruct (d <? t').
  - unfold guard, dead. simpl. by rewrite Ed.
Qed.

(** ** One operation *)

Section Refinement.
Context {E : Env} `{!EnvOk E}.

(** Collecting what an iteration visits gives the table back. *)
Lemma hash_order_map {A} (i : nat) (m : gmap bytes A) : (list_to_map (hash_order i A m) : gmap bytes A) = m.
Proof.
  etransitivity; [|apply (list_to_map_to_list m)].
  apply list_to_map_proper; [|apply hash_order_perm].
  rewrite hash_order_perm. apply NoDup_fst_map_to_list.
Qed.

(** Every clock reading taken between the worlds [w] and [w'] is [t]. *)
Definition steady (t : Instant) (w w' : World) : Prop :=
  forall i, (w_reads w <= i < w_reads w')%nat -> mono i = t.

(** A run of [op] at the instant [t] agrees with the specification: the
    same result, and the specified abstract store afterwards; or it
    panics because the deadline it computes does not exist, and nothing
    has changed. *)
Definition agrees (t : Instant) (op : StoreOp) (s : MemoryStore) (o : outcome OpResult) (s' : MemoryStore) : Prop :=
  if overflows t op then o = Panic /\ s' = s
  else o = Ret (spec t op (view t s)).1 /\ view t s' = (spec t op (view t s)).2.

Definition refines (op : StoreOp) : Prop :=
  forall t w o w', exec op w = (o, w') -> steady t w w' -> agrees t op (w_store w) o (w_store w').

(** Follow a run to its leaves; at each leaf the clock readings are [t]. *)
Ltac follow Hrun Hst :=
  run_simpl; simplify_eq/=; repeat (case_match; simplify_eq/=);
  unfold steady in Hst; simpl in Hst;
  repeat match goal with
  | H : context [ mono ?i ] |- _ =>
      lazymatch H with Hst => fail | _ => rewrite (Hst i) in H by lia end
  | |- context [ mono ?i ] => rewrite (Hst i) by lia
  | H : negb _ = true |- _ => apply negb_true_iff in H
  | H : negb _ = false |- _ => apply negb_false_iff in H
  | H : expires_at ?sv = _, H2 : context [ expires_at ?sv ] |- _ =>
      lazymatch H2 with H => fail | _ => rewrite H in H2 end
  end.

(** Evaluate the view of the key at a leaf. *)
Ltac see_key :=
  rewrite lookup_view; unfold see_at, expired_at;
  repeat match goal with
  | H : data _ !! _ = _ |- _ => rewrite H; clear H; simpl
  | H : expires_at _ = _ |- _ => rewrite H; simpl
  | H : (_ <? _) = _ |- _ => rewrite H; simpl
  end.

(** Close a leaf: the view of the key is known, and so is the view of the
    update made there. *)
Ltac leaf :=
  try congruence;
  try match goal with H : (instant_max <? _) = true |- _ =>
    by unfold agrees; simpl; rewrite H end;
  try match goal with H : base.delete ?k _ !! ?k = Some _ |- _ => by rewrite lookup_delete_eq in H end;
  lazymatch goal with
  | H : data ?s !! ?k = _ |- agrees ?t _ ?s _ _ =>
      let Hv := fresh "Hv" in
      eassert (view t s !! k = _) as Hv by (see_key; reflexivity);
      unfold agrees, overflows, spec, spec_ttl, spec_expire_at, spec_hash, ttl_seconds_at, ttl_millis_at;
      rewrite ?Hv; simpl;
      repeat match goal with Hx : ?x = _ |- context [ ?x ] => rewrite Hx; simpl end;
      rewrite ?insert_delete_eq, ?view_insert, ?view_delete;
      unfold put, see; simpl
  end;
  repeat match goal with
  | |- context [ if dead ?t ?x then _ else _ ] =>
      let D := fresh "D" in
      assert (dead t x = false) as D by (unfold dead; simpl; by repeat
        match goal with H : expires_at _ = _ |- _ => rewrite H; simpl end);
      rewrite D; clear D
  end;
  repeat match goal with H : expires_at ?sv = _ |- context [ expires_at ?sv ] => rewrite H end;
  try (split; [done|]); try done; try (by apply delete_id); try (symmetry; by apply delete_id).

Ltac solve_refines :=
  let t := fresh "t" in let s := fresh "s" in let r := fresh "r" in
  let Hrun := fresh "Hrun" in let Hst := fresh "Hst" in
  intros t [s r] o w' Hrun Hst; simpl;
  follow Hrun Hst; leaf.

Lemma refines_get k : refines (OGet k).
Proof. unfold refines, exec, get, delete_sync. solve_refines. Qed.

Lemma refines_exists k : refines (OExists k).
Proof. unfold refines, exec, exists_, delete_sync. solve_refines. Qed.

Lemma refines_delete k : refines (ODelete k).
Proof. unfold refines, exec, delete_key. solve_refines. Qed.

Lemma refines_set k v : refines (OSet k v).
Proof.
  unfold refines, exec, set. intros t [s r] o w' Hrun Hst. follow Hrun Hst.
  unfold agrees. simpl. by rewrite view_insert.
Qed.

Lemma refines_set_exp k v d : refines (OSetExp k v d).
Proof.
  unfold refines, exec, set_with_expiration. intros t [s r] o w' Hrun Hst.
  follow Hrun Hst. unfold agrees. simpl. by rewrite view_insert.
Qed.

Lemma refines_set_ttl k v n : refines (OSetTtl k v n).
Proof.
  unfold refines, exec, set_with_ttl. intros t [s r] o w' Hrun Hst.
  follow Hrun Hst; unfold agrees; simpl;
    match goal with H : (instant_max <? _) = _ |- _ => rewrite H end; [|done].
  by rewrite view_insert.
Qed.

Lemma refines_ttl k : refines (OTtl k).
Proof. unfold refines, exec, ttl, delete_sync, spec_ttl, ttl_seconds_at. solve_refines. Qed.

Lemma refines_pttl k : refines (OPttl k).
Proof. unfold refines, exec, pttl, delete_sync, spec_ttl, ttl_millis_at. solve_refines. Qed.

Lemma refines_persist k : refines (OPersist k).
Proof. unfold refines, exec, persist, delete_sync. solve_refines. Qed.

Lemma refines_expire_at k d fl : refines (OExpireAt k d fl).
Proof. unfold refines, exec, expire_at_with_options, delete_key. solve_refines. Qed.

Lemma refines_expire k n fl : refines (OExpire k n fl).
Proof. unfold refines, exec, expire_with_options, delete_key. solve_refines. Qed.

Lemma refines_hget k f : refines (OHget k f).
Proof. unfold refines, exec, hget, delete_sync, as_hash. solve_refines. Qed.

Lemma refines_hexists k f : refines (OHexists k f).
Proof. unfold refines, exec, hexists, delete_sync, as_hash. solve_refines. Qed.

Lemma refines_hgetall k : refines (OHgetall k).
Proof. unfold refines, exec, hgetall, delete_sync, as_hash. solve_refines; by rewrite hash_order_map. Qed.

Lemma refines_incr_by k n : refines (OIncrBy k n).
Proof. unfold refines, exec, incr_by. solve_refines. Qed.

Lemma refines_hset k f x : refines (OHset k f x).
Proof. unfold refines, exec, hset, delete_sync. solve_refines. Qed.

Lemma refines_hdel k f : refines (OHdel k f).
Proof. unfold refines, exec, hdel, hdel_commit, delete_sync, as_hash_mut. solve_refines.
  all: match goal with H : bool_decide (is_Some (?h !! ?f)) = true |- _ =>
    apply bool_decide_eq_true in H; pose proof (hash_delete_empty h f H) as He end.
  all: match goal with H : _ && true = _ |- _ => rewrite andb_true_r in H end.
  all: repeat case_bool_decide; first [done|tauto].
Qed.

Lemma refines_set_opt k v ttl ex : refines (OSetOpt k v ttl ex).
Proof. unfold refines, exec, set_with_options, resolve_keep, make_stored. solve_refines. Qed.

Lemma refines_clear : refines OClear.
Proof.
  intros t [s r] o w' Hrun Hst. by injection Hrun as <- <-.
Qed.

(** The keys the sweep collects are those the index says are due. *)
Lemma elem_of_due (i : nat) (t : Z) (x : gmap bytes Instant) (j : bytes) :
  j ∈ map fst (filter (fun '(_, d) => d <= t) (hash_order i _ x)) <-> exists d, x !! j = Some d /\ d <= t.
Proof.
  rewrite list_elem_of_fmap. setoid_rewrite list_elem_of_filter.
  setoid_rewrite hash_order_perm. split.
  - intros ([j' d] & -> & Hd & Hin%elem_of_map_to_list). eauto.
  - intros (d & Hj & Hd). exists (j, d). by rewrite elem_of_map_to_list.
Qed.

Lemma refines_cleanup t w o w' :
  index_ok (w_store w) -> exec OCleanup w = (o, w') -> steady t w w' ->
  agrees t OCleanup (w_store w) o (w_store w').
Proof.
  destruct w as [s r p]. intros Hix Hrun Hst. unfold exec, cleanup_expired in Hrun. run_simpl.
  edestruct delete_all_run as (m & d & x & He & Hd & _). rewrite He in Hrun. simplify_eq/=.
  unfold steady in Hst. simpl in Hst. rewrite (Hst r) in * by lia.
  unfold agrees. simpl. split; [done|]. apply map_eq. intros j.
  rewrite map_lookup_filter, !lookup_view. simpl. rewrite Hd. clear He Hd.
  pose proof (Hix j) as Hj. pose proof (elem_of_due (S r) t (expiration_index s) j) as Hdue.
  rewrite Hj in Hdue. destruct (data s !! j) as [sv|] eqn:Hk; [|by case_decide].
  simpl in Hdue |- *. set (L := map fst _) in *.
  assert (j ∈ L <-> due t (see sv) = true) as Hin.
  { rewrite Hdue. unfold due. simpl. destruct (expires_at sv); [|naive_solver].
    rewrite Z.leb_le. naive_solver. }
  unfold guard. destruct (decide (j ∈ L)) as [Hl|Hl]; simpl; unfold see_at;
    destruct (expired_at t sv); try done; simpl; rewrite Hin in Hl.
  - by rewrite Hl.
  - apply not_true_is_false in Hl. by rewrite Hl.
Qed.

End Refinement.
