(* ===== verification/StoreThms.v ===== *)
(** * Theorems about the store

    The invariant, the refinement of the abstract store along arbitrary
    sequences of operations, and what an operation leaves alone: other
    keys, and everything when it fails. *)

From S2P Require Import Prelude Numbers Utf8 Errors Values World MemoryStore StoreInv StoreSpec.

(** Run any one operation to its leaves. *)
Ltac run_op Hrun :=
  unfold exec, set, set_with_options, resolve_keep, make_stored, set_with_ttl, set_with_expiration,
    get, exists_, expire_with_options, expire_at_with_options, MemoryStore.ttl, pttl,
    persist, incr_by, hset, hget, hdel, hdel_commit, hgetall, hexists, clear, delete_sync, delete_key in Hrun;
  run_simpl; simplify_eq/=; repeat (case_match; simplify_eq/=).

(** ** All operations at once *)
Section AllOps.
Context {E : Env}.

Lemma keeps_wf_exec_ret {A} (m : M A) (f : A -> OpResult) :
  keeps_wf m -> keeps_wf (r ← m; mret (f r)).
Proof. intros H. apply keeps_wf_bind; [done|]. intros a. apply keeps_wf_ret. Qed.

Lemma exec_wf op : op_ok op -> keeps_wf (exec op).
Proof.
  intros Hop. destruct op; simpl in Hop; apply keeps_wf_exec_ret;
    eauto using set_wf, set_with_options_wf, set_with_ttl_wf, set_with_expiration_wf, get_wf,
      delete_key_wf, exists_wf, expire_with_options_wf, expire_at_with_options_wf, ttl_wf, pttl_wf,
      persist_wf, incr_by_wf, hget_wf, hdel_wf, hgetall_wf, hexists_wf, clear_wf, cleanup_expired_wf.
  destruct Hop. by apply hset_wf.
Qed.

Lemma exec_refines `{!EnvOk E} op : op <> OCleanup -> refines op.
Proof.
  destruct op; intros Hne; try done;
    eauto using refines_set, refines_set_opt, refines_set_ttl, refines_set_exp, refines_get,
      refines_delete, refines_exists, refines_expire, refines_expire_at, refines_ttl, refines_pttl,
      refines_persist, refines_incr_by, refines_hset, refines_hget, refines_hdel, refines_hgetall,
      refines_hexists, refines_clear.
Qed.

(** One operation, whichever it is. *)
Lemma exec_agrees `{!EnvOk E} op t w o w' :
  index_ok (w_store w) -> exec op w = (o, w') -> steady t w w' ->
  agrees t op (w_store w) o (w_store w').
Proof.
  intros Hix Hrun Hst. destruct (decide (op = OCleanup)) as [->|Hne].
  - by eapply refines_cleanup.
  - by eapply (exec_refines op Hne).
Qed.

(** ** Sequences of operations *)

(** A run of timed operations: each one is executed within an instant, the
    instants do not decrease.  A panic ends the operation, not the run. *)
Inductive timed_run : Instant -> World -> list (Instant * StoreOp) -> list (outcome OpResult) ->
    Instant -> World -> Prop :=
| timed_nil t w : timed_run t w [] [] t w
| timed_cons t0 w t op o w1 ops os t' w' :
    t0 <= t -> op_ok op -> exec op w = (o, w1) -> steady t w w1 ->
    timed_run t w1 ops os t' w' ->
    timed_run t0 w ((t, op) :: ops) (o :: os) t' w'.

(** The same operations on the abstract store. *)
Fixpoint spec_run (ops : list (Instant * StoreOp)) (a : AStore) : list (outcome OpResult) * AStore :=
  match ops with
  | [] => ([], a)
  | (t, op) :: ops' =>
      let a1 := pass t a in
      if overflows t op then let '(os, a') := spec_run ops' a1 in (Panic :: os, a')
      else
        let '(r, a2) := spec t op a1 in
        let '(os, a') := spec_run ops' a2 in (Ret r :: os, a')
  end.

End AllOps.

(** ** The invariant *)

(** C2: The store invariant. In the empty store, and after every operation
    from a store where it holds, whatever the clocks read and even when the
    operation panics, the expiration index holds exactly the deadlines of
    the stored values, every integer value is an [i64], every hash and list
    holds valid UTF-8 and no hash is empty. *)
Theorem store_invariant {E : Env} :
  store_wf empty_store /\
  forall op w o w', op_ok op -> store_wf (w_store w) -> exec op w = (o, w') -> store_wf (w_store w').
Proof.
  split; [apply empty_store_wf|]. intros op w o w' Hop Hs Hrun.
  pose proof (exec_wf op Hop w Hs) as H. unfold after in H. by rewrite Hrun in H.
Qed.

(** ** The refinement *)


(** ** Frames and errors, whatever the clock does *)

(** Frame. An operation on a key leaves the stored value and the index
    entry of every other key as they were, also when it panics. *)
Theorem store_frame {E : Env} op k j w o w' :
  op_key op = Some k -> j <> k -> exec op w = (o, w') ->
  data (w_store w') !! j = data (w_store w) !! j /\
  expiration_index (w_store w') !! j = expiration_index (w_store w) !! j.
Proof.
  intros Hk Hj Hrun. destruct w as [s r p].
  destruct op; simpl in Hk; simplify_eq; run_op Hrun;
    by rewrite ?lookup_insert_ne, ?lookup_delete_ne by done.
Qed.

(** A failing operation (wrong type, not an integer, overflow) leaves
    the store exactly as it was. *)
Theorem store_error_unchanged {E : Env} op w e w' :
  exec op w = (Ret (RErr e), w') -> w_store w' = w_store w.
Proof.
  intros Hrun. destruct w as [s r p].
  destruct op; run_op Hrun; try done.
  all: try by rewrite lookup_delete_eq in *.
Qed.

(** Panics. An operation panics exactly when it asks for a deadline
    later than the platform's last instant, and then the store is unchanged. *)
Theorem store_panic_iff {E : Env} op w :
  (panics (exec op) w <-> overflows (mono (w_reads w)) op = true) /\
  (panics (exec op) w -> w_store (after (exec op) w) = w_store w).
Proof.
  unfold panics, after. destruct (exec op w) as [o w'] eqn:Hrun. simpl. destruct w as [s r p].
  destruct op; try (run_op Hrun; naive_solver).
  unfold exec, cleanup_expired in Hrun. run_simpl.
  edestruct delete_all_run as (m & d & x & He & _). rewrite He in Hrun. naive_solver.
Qed.

(** ** Witnesses *)

#[local] Existing Instance env_ms.
(** A server that has just started, under the millisecond clock. *)
Definition empty_world : World := mkWorld empty_store 0 no_process.

Lemma store_invariant_witness :
  store_wf (w_store (after (exec (OIncrBy (b#"n") 5)) empty_world)).
Proof.
  destruct (store_invariant (E := env_ms)) as [H0 H].
  refine (H (OIncrBy (b#"n") 5) empty_world _ _ _ H0 (surjective_pairing _)).
  vm_compute; split; discriminate.
Defined.


Lemma store_frame_witness :
  data (w_store (after (exec (ODelete (b#"a"))) empty_world)) !! b#"b" = data (w_store empty_world) !! b#"b".
Proof.
  exact (proj1 (store_frame (ODelete (b#"a")) (b#"a") (b#"b") empty_world _ _ eq_refl ltac:(discriminate) (surjective_pairing _))).
Defined.

Lemma store_error_unchanged_witness :
  exists w', exec (OIncrBy (b#"k") 1) (after (exec (OSet (b#"k") (VString (b#"x")))) empty_world) = (Ret (RErr (NotAnInteger (b#"x"))), w') /\
    w_store w' = w_store (after (exec (OSet (b#"k") (VString (b#"x")))) empty_world).
Proof.
  eexists. split; [reflexivity|].
  apply (store_error_unchanged (OIncrBy (b#"k") 1) _ (NotAnInteger (b#"x"))). reflexivity.
Defined.

Lemma store_panic_iff_witness :
  panics (exec (OExpire (b#"k") (2 ^ 63) FNone)) empty_world /\
  w_store (after (exec (OExpire (b#"k") (2 ^ 63) FNone)) empty_world) = empty_store.
Proof.
  destruct (store_panic_iff (OExpire (b#"k") (2 ^ 63) FNone) empty_world) as [[_ H1] H2].
  assert (panics (exec (OExpire (b#"k") (2 ^ 63) FNone)) empty_world) as Hp by (apply H1; reflexivity).
  split; [exact Hp|exact (H2 Hp)].
Defined.
