(* ===== verification/Steps.v ===== *)
(** * The store in atomic steps (src/src/storage/memory.rs)

    The server runs on several threads, and a method of the store is not
    one step: each access to one of the two tables takes and releases the
    lock of a shard.  Here every method on a key is a program of atomic
    steps, cut where the code holds no lock: between two accesses, after a
    [drop(entry)], and at a clock reading made before the lock is taken.

    A section that holds the entry of [data] and makes one access to
    [expiration_index] is one step: no other thread can access the entry
    meanwhile, and what it does to the index commutes with the accesses to
    the entry, so it can be moved before or after the section.

    The two operations on all keys go through the shards of a table one
    after the other, each under the lock of its shard.

    [run] is a thread left alone; running a program alone is the method
    ([StepThms.run_prog]). *)

From S2P Require Import Prelude Numbers Utf8 Errors Values World MemoryStore StoreSpec.

(** ** Programs of atomic steps *)
Inductive Prog (A : Type) : Type :=
| Done (a : A)
| Act (m : M (Prog A)).
Arguments Done {A} a.
Arguments Act {A} m.

Fixpoint pbind {A B} (k : A -> Prog B) (p : Prog A) : Prog B :=
  match p with
  | Done a => k a
  | Act m => Act (fun w => match m w with
                           | (Ret p', w') => (Ret (pbind k p'), w')
                           | (Panic, w') => (Panic, w')
                           end)
  end.

#[global] Instance Prog_ret : MRet Prog := fun A a => Done a.
#[global] Instance Prog_bind : MBind Prog := fun A B => pbind.

Definition atomic {A} (m : M A) : Prog A := Act (a ← m; mret (Done a)).

Fixpoint run {A} (p : Prog A) : M A :=
  match p with
  | Done a => mret a
  | Act m => fun w => match m w with
                      | (Ret p', w') => run p' w'
                      | (Panic, w') => (Panic, w')
                      end
  end.

(** [?] *)
Definition ptry {A B} (p : Prog (Result A)) (k : A -> Prog (Result B)) : Prog (Result B) :=
  r ← p; match r with Ok a => k a | Err e => Done (Err e) end.

(** DashMap keeps a table in shards, each with its own lock.  Both tables
    have the same number of them, but each hashes in its own way. *)
Class Shards : Type := mkShards {
  shards : nat;
  data_shard : bytes -> nat;
  index_shard : bytes -> nat;
  data_shard_lt : forall k, (data_shard k < shards)%nat;
  index_shard_lt : forall k, (index_shard k < shards)%nat
}.

(** Two shards, by the parity of the length of the key. *)
Definition two_shards : Shards :=
  let parity (k : bytes) := (length k mod 2)%nat in
  mkShards 2 parity parity (fun k => Nat.mod_upper_bound _ 2 ltac:(discriminate)) (fun k => Nat.mod_upper_bound _ 2 ltac:(discriminate)).

Section Programs.
Context {E : Env} {Sh : Shards}.

(** ** Sections under the lock of an entry *)

(** [data.get(key)] and what is read from the entry while it is held;
    [None] when it has expired and is dropped. *)
Definition look {A} (key : bytes) (absent : A) (live : StoredValue -> M A) : M (option A) :=
  e ← data_get key;
  match e with
  | Some entry =>
      expired ← is_expired entry;
      if (expired : bool) then mret None else a ← live entry; mret (Some a)
  | None => mret (Some absent)
  end.

(** Whether the entry has expired. *)
Definition found_expired (key : bytes) : M bool :=
  e ← data_get key;
  match e with Some entry => is_expired entry | None => mret false end.

(** [data.entry(key)] in [set_with_options]. *)
Definition set_entry (key : bytes) (v : ValueType) (resolved_ttl : option Instant) (existence : SetExistence) :
    M (Result SetOutcome) :=
  entry ← data_get key;
  match entry with
  | Some old =>
      expired ← is_expired old;
      let logically_present := negb expired in
      let prev := if logically_present then Some old else None in
      if negb (allowed existence logically_present) then mret (Ok (mkSetOutcome false prev))
      else
        stored_value ← make_stored v resolved_ttl;
        _ ← (match resolved_ttl with Some at_ => index_insert key at_ | None => index_remove key end);
        _ ← data_insert key stored_value;
        mret (Ok (mkSetOutcome true prev))
  | None =>
      match existence with
      | OnlyIfExists => mret (Ok (mkSetOutcome false None))
      | _ =>
          stored_value ← make_stored v resolved_ttl;
          _ ← (match resolved_ttl with Some at_ => index_insert key at_ | None => mret tt end);
          _ ← data_insert key stored_value;
          mret (Ok (mkSetOutcome true None))
      end
  end.

(** [data.get_mut(key)] in the EXPIRE family. *)
Definition expire_entry (key : bytes) (new_expires_at : Instant) (flag : ExpireFlag) (entry : StoredValue) :
    M (Result bool) :=
  if negb (should_apply flag (expires_at entry) new_expires_at) then mret (Ok false)
  else
    _ ← data_insert key (set_expiration entry new_expires_at);
    _ ← index_insert key new_expires_at;
    mret (Ok true).

Definition persist_entry (key : bytes) (entry : StoredValue) : M (Result bool) :=
  _ ← data_insert key (remove_expiration entry);
  _ ← index_remove key;
  mret (Ok (bool_decide (is_Some (expires_at entry)))).

(** [data.entry(key)] in [incr_by]: [None] when the entry had expired; it
    has been removed and the lock released. *)
Definition incr_entry (key : bytes) (increment : Z) : M (option (Result Z)) :=
  entry ← data_get key;
  match entry with
  | Some old =>
      expired ← is_expired old;
      if (expired : bool) then _ ← data_remove key; mret None
      else
        match to_integer (value old) with
        | Err e => mret (Some (Err e))
        | Ok current_value =>
            match checked_add_i64 current_value increment with
            | None => mret (Some (Err IntegerOverflow))
            | Some v =>
                stored_value ← touch (set_value old (VInteger v));
                _ ← data_insert key stored_value;
                mret (Some (Ok v))
            end
        end
  | None =>
      stored_value ← new_value (VInteger increment);
      _ ← data_insert key stored_value;
      mret (Some (Ok increment))
  end.

(** [data.entry(key)] in [hset]. *)
Definition hset_entry (key field val : bytes) : M (Result bool) :=
  entry ← data_get key;
  match entry with
  | Some old =>
      match value old with
      | VHash existing_hash =>
          let is_new := bool_decide (existing_hash !! field = None) in
          sv1 ← touch (set_value old (VHash (<[field := val]> existing_hash)));
          sv2 ← update_metadata sv1;
          _ ← data_insert key sv2;
          mret (Ok is_new)
      | _ => mret (Err (wrongtype "hset"))
      end
  | None =>
      stored_value ← new_value (VHash {[field := val]});
      _ ← data_insert key stored_value;
      mret (Ok true)
  end.

(** The second [data.get(key)] of [hdel]: [was_removed] and
    [should_remove_key]; [None] when the key is absent. *)
Definition hdel_flags (key field : bytes) : M (Result (option (bool * bool))) :=
  e ← data_get key;
  match e with
  | None => mret (Ok None)
  | Some entry =>
      match value entry with
      | VHash hash =>
          let was_removed := bool_decide (is_Some (hash !! field)) in
          mret (Ok (Some (was_removed, bool_decide (size hash = 1%nat) && was_removed)))
      | _ => mret (Err (wrongtype "hdel"))
      end
  end.

(** [data.get_mut(key)] of [hdel]. *)
Definition hdel_entry (key field : bytes) : M unit :=
  e ← data_get key;
  match e with
  | Some entry =>
      match as_hash_mut (value entry) with
      | Ok hash =>
          sv1 ← touch (set_value entry (VHash (delete field hash)));
          sv2 ← update_metadata sv1;
          data_insert key sv2
      | Err _ => mret tt
      end
  | None => mret tt
  end.

Definition read_hash {A} (op : string) (f : gmap bytes bytes -> M A) (entry : StoredValue) : M (Result A) :=
  match as_hash (value entry) with
  | Ok hash => a ← f hash; mret (Ok a)
  | Err _ => mret (Err (wrongtype op))
  end.

(** ** The methods *)
Definition set_p (key : bytes) (v : ValueType) : Prog (Result unit) :=
  stored_value ← atomic (new_value v);
  _ ← atomic (index_remove key);
  _ ← atomic (data_insert key stored_value);
  mret (Ok tt).

Definition set_with_options_p (key : bytes) (v : ValueType) (ttl : SetTtlOption) (existence : SetExistence) :
    Prog (Result SetOutcome) :=
  resolved_ttl ← atomic (resolve_keep key ttl);
  atomic (set_entry key v resolved_ttl existence).

Definition set_with_ttl_p (key : bytes) (v : ValueType) (ttl_seconds : Z) : Prog (Result unit) :=
  stored_value ← atomic (new_with_ttl v ttl_seconds);
  match expires_at stored_value with
  | None => atomic panic
  | Some d =>
      _ ← atomic (index_insert key d);
      _ ← atomic (data_insert key stored_value);
      mret (Ok tt)
  end.

Definition set_with_expiration_p (key : bytes) (v : ValueType) (d : Instant) : Prog (Result unit) :=
  stored_value ← atomic (new_with_expiration v d);
  _ ← atomic (index_insert key d);
  _ ← atomic (data_insert key stored_value);
  mret (Ok tt).

(** [delete] and [delete_sync] *)
Definition delete_p (key : bytes) : Prog (Result bool) :=
  expired ← atomic (found_expired key);
  if (expired : bool) then
    _ ← atomic (index_remove key);
    _ ← atomic (data_remove key);
    mret (Ok false)
  else
    _ ← atomic (index_remove key);
    old ← atomic (data_remove key);
    mret (Ok (bool_decide (is_Some old))).

(** The methods that look at an entry first and delete it when it has
    expired. *)
Definition look_p {A} (key : bytes) (absent : A) (live : StoredValue -> M (Result A)) : Prog (Result A) :=
  r ← atomic (look key (Ok absent) live);
  match r with
  | Some a => mret a
  | None => ptry (delete_p key) (fun _ => mret (Ok absent))
  end.

Definition get_p (key : bytes) : Prog (Result (option StoredValue)) :=
  look_p key None (fun entry => mret (Ok (Some entry))).
Definition exists_p (key : bytes) : Prog (Result bool) :=
  look_p key false (fun _ => mret (Ok true)).
Definition ttl_p (key : bytes) : Prog (Result Z) :=
  look_p key (-2) (fun entry => t ← ttl_seconds entry; mret (Ok (default (-1) t))).
Definition pttl_p (key : bytes) : Prog (Result Z) :=
  look_p key (-2) (fun entry => t ← ttl_millis entry; mret (Ok (default (-1) t))).
Definition persist_p (key : bytes) : Prog (Result bool) :=
  look_p key false (persist_entry key).
Definition hget_p (key field : bytes) : Prog (Result (option bytes)) :=
  look_p key None (read_hash "hget" (fun hash => mret (hash !! field))).
Definition hgetall_p (key : bytes) : Prog (Result (list (bytes * bytes))) :=
  look_p key [] (read_hash "hgetall" iterate).
Definition hexists_p (key field : bytes) : Prog (Result bool) :=
  look_p key false (read_hash "hexists" (fun hash => mret (bool_decide (is_Some (hash !! field))))).

Definition expire_at_with_options_p (key : bytes) (new_expires_at : Instant) (flag : ExpireFlag) : Prog (Result bool) :=
  look_p key false (expire_entry key new_expires_at flag).

Definition expire_with_options_p (key : bytes) (ttl_seconds : Z) (flag : ExpireFlag) : Prog (Result bool) :=
  new_expires_at ← atomic (t ← now; instant_add t (from_secs ttl_seconds));
  expire_at_with_options_p key new_expires_at flag.

Definition incr_by_p (key : bytes) (increment : Z) : Prog (Result Z) :=
  r ← atomic (incr_entry key increment);
  match r with
  | Some r => mret r
  | None =>
      _ ← atomic (index_remove key);
      stored_value ← atomic (new_value (VInteger increment));
      _ ← atomic (data_insert key stored_value);
      mret (Ok increment)
  end.

Definition hset_p (key field val : bytes) : Prog (Result bool) :=
  expired ← atomic (found_expired key);
  ptry (if (expired : bool) then delete_p key else mret (Ok false)) (fun _ =>
  atomic (hset_entry key field val)).

Definition hdel_p (key field : bytes) : Prog (Result bool) :=
  expired ← atomic (found_expired key);
  if (expired : bool) then ptry (delete_p key) (fun _ => mret (Ok false))
  else
    ptry (atomic (hdel_flags key field)) (fun flags =>
    match flags with
    | None => mret (Ok false)
    | Some (was_removed, should_remove_key) =>
        _ ← (if (was_removed : bool) then
               if (should_remove_key : bool) then _ ← atomic (data_remove key); atomic (index_remove key)
               else atomic (hdel_entry key field)
             else mret tt);
        mret (Ok was_removed)
    end).

(** *** All keys *)

(** One step for each of the given shards. *)
Fixpoint each (f : nat -> M unit) (l : list nat) : Prog unit :=
  match l with
  | [] => mret tt
  | i :: l' => _ ← atomic (f i); each f l'
  end.

(** [DashMap::clear] empties a shard at a time. *)
Definition clear_data_shard (i : nat) : M unit :=
  modify (fun s => set_data s (filter (fun kv => data_shard kv.1 <> i) (data s))).
Definition clear_index_shard (i : nat) : M unit :=
  modify (fun s => set_index s (filter (fun kv => index_shard kv.1 <> i) (expiration_index s))).

Definition clear_p : Prog unit :=
  _ ← each clear_data_shard (seq 0 shards);
  each clear_index_shard (seq 0 shards).

(** The environment picks the order of an iteration when it starts; a
    shard shows what it holds when the iteration comes to it. *)
Definition iteration : M nat := fun w => (Ret (w_reads w), tick w).

Definition due_in_shard (n : nat) (t : Instant) (i : nat) : M (list bytes) :=
  gets (fun s => map fst (filter (fun kd => kd.2 <= t /\ index_shard kd.1 = i) (hash_order n _ (expiration_index s)))).

Fixpoint collect_due (n : nat) (t : Instant) (l : list nat) : Prog (list bytes) :=
  match l with
  | [] => mret []
  | i :: l' =>
      ks ← atomic (due_in_shard n t i);
      rest ← collect_due n t l';
      mret (ks ++ rest)
  end.

Fixpoint delete_all_p (l : list bytes) (removed_count : Z) : Prog Z :=
  match l with
  | [] => mret removed_count
  | k :: l' =>
      _ ← atomic (index_remove k);
      old ← atomic (data_remove k);
      delete_all_p l' (if bool_decide (is_Some old) then removed_count + 1 else removed_count)
  end.

Definition cleanup_expired_p : Prog Z :=
  t ← atomic now;
  n ← atomic iteration;
  expired_keys ← collect_due n t (seq 0 shards);
  delete_all_p expired_keys 0.

(** The operations of [StoreSpec]. *)
Definition prog (op : StoreOp) : Prog OpResult :=
  match op with
  | OSet k v => r ← set_p k v; mret (as_result (fun _ => RUnit) r)
  | OSetOpt k v ttl ex =>
      r ← set_with_options_p k v ttl ex;
      mret (as_result (fun o => ROutcome (applied o) (see <$> previous o)) r)
  | OSetTtl k v n => r ← set_with_ttl_p k v n; mret (as_result (fun _ => RUnit) r)
  | OSetExp k v d => r ← set_with_expiration_p k v d; mret (as_result (fun _ => RUnit) r)
  | OGet k => r ← get_p k; mret (as_result (fun o => RValue (see <$> o)) r)
  | ODelete k => r ← delete_p k; mret (as_result RBool r)
  | OExists k => r ← exists_p k; mret (as_result RBool r)
  | OExpire k n fl => r ← expire_with_options_p k n fl; mret (as_result RBool r)
  | OExpireAt k d fl => r ← expire_at_with_options_p k d fl; mret (as_result RBool r)
  | OTtl k => r ← ttl_p k; mret (as_result RInt r)
  | OPttl k => r ← pttl_p k; mret (as_result RInt r)
  | OPersist k => r ← persist_p k; mret (as_result RBool r)
  | OIncrBy k n => r ← incr_by_p k n; mret (as_result RInt r)
  | OHset k f x => r ← hset_p k f x; mret (as_result RBool r)
  | OHget k f => r ← hget_p k f; mret (as_result RBytes r)
  | OHdel k f => r ← hdel_p k f; mret (as_result RBool r)
  | OHgetall k => r ← hgetall_p k; mret (as_result (fun l => RMap (list_to_map l)) r)
  | OHexists k f => r ← hexists_p k f; mret (as_result RBool r)
  | OClear => _ ← clear_p; mret RUnit
  | OCleanup => _ ← cleanup_expired_p; mret RUnit
  end.
End Programs.
