(* ===== verification/StepThms.v ===== *)
(** * Left alone, a program of steps is the method

    [run_prog]: without other threads, the atomic steps of an operation
    come to exactly what [MemoryStore] says it does, in the same world,
    clock readings and panics included. *)

From S2P Require Import Prelude Numbers Utf8 Errors Values World MemoryStore StoreInv StoreSpec Steps.

(** Induction on programs: what holds of every continuation. *)
Section Induction.
Context {A : Type} (P : Prog A -> Prop).
Hypothesis HDone : forall a, P (Done a).
Hypothesis HAct : forall m, (forall w, match (m w).1 with Ret p => P p | Panic => True end) -> P (Act m).

Fixpoint Prog_steps_ind (p : Prog A) : P p :=
  match p with
  | Done a => HDone a
  | Act m => HAct m (fun w =>
      match (m w).1 as o return match o with Ret p => P p | Panic => True end with
      | Ret p' => Prog_steps_ind p'
      | Panic => I
      end)
  end.
End Induction.

(** ** Running is a monad morphism *)
Lemma run_bind {A B} (p : Prog A) (k : A -> Prog B) w :
  run (p ≫= k) w = (run p ≫= (fun a => run (k a))) w.
Proof.
  unfold mbind, Prog_bind. revert w. induction p as [a|m IH] using Prog_steps_ind; intros w; [done|].
  cbn [pbind run]. unfold M_bind. specialize (IH w). destruct (m w) as [[p'|] w']; [|done].
  simpl in IH. by rewrite IH.
Qed.

Lemma run_atomic {A} (m : M A) w : run (atomic m) w = m w.
Proof. unfold atomic. cbn [run]. rewrite bind_run. by destruct (m w) as [[]]. Qed.

Lemma run_ret {A} (a : A) w : run (mret a) w = (mret a : M A) w.
Proof. done. Qed.

Section Run.
Context {E : Env} {Sh : Shards}.

(** Two computations that agree in every world. *)
Definition same {A} (m m' : M A) : Prop := forall w, m w = m' w.

(** Both sides read the same entry. *)
Ltac same_run :=
  let s := fresh "s" in let r := fresh "r" in let p := fresh "p" in
  intros [s r p]; unfold look_p, look, delete_p, delete_sync, found_expired, ptry, atomic, Prog_bind, Prog_ret; run_unfold;
  unfold Prog_bind, Prog_ret; simpl; try done;
  repeat (case_match; simplify_eq/=; try done).

Lemma run_set k v : same (run (set_p k v)) (set k v).
Proof. unfold set_p, set. same_run. Qed.
Lemma run_set_with_options k v ttl ex : same (run (set_with_options_p k v ttl ex)) (set_with_options k v ttl ex).
Proof. unfold set_with_options_p, set_with_options, set_entry, resolve_keep, make_stored. same_run. Qed.
Lemma run_set_with_ttl k v n : same (run (set_with_ttl_p k v n)) (set_with_ttl k v n).
Proof. unfold set_with_ttl_p, set_with_ttl. same_run. Qed.
Lemma run_set_with_expiration k v d : same (run (set_with_expiration_p k v d)) (set_with_expiration k v d).
Proof. unfold set_with_expiration_p, set_with_expiration. same_run. Qed.
Lemma run_delete k : same (run (delete_p k)) (delete_key k).
Proof. unfold delete_key. same_run. Qed.
Lemma run_get k : same (run (get_p k)) (get k).
Proof. unfold get_p, get. same_run. Qed.
Lemma run_exists k : same (run (exists_p k)) (exists_ k).
Proof. unfold exists_p, exists_. same_run. Qed.
Lemma run_ttl k : same (run (ttl_p k)) (ttl k).
Proof. unfold ttl_p, ttl. same_run. Qed.
Lemma run_pttl k : same (run (pttl_p k)) (pttl k).
Proof. unfold pttl_p, pttl. same_run. Qed.
Lemma run_persist k : same (run (persist_p k)) (persist k).
Proof. unfold persist_p, persist, persist_entry. same_run. Qed.
Lemma run_expire_at k d fl : same (run (expire_at_with_options_p k d fl)) (expire_at_with_options k d fl).
Proof. unfold expire_at_with_options_p, expire_at_with_options, expire_entry, delete_key. same_run. Qed.
Lemma run_expire k n fl : same (run (expire_with_options_p k n fl)) (expire_with_options k n fl).
Proof.
  unfold expire_with_options_p, expire_at_with_options_p, expire_with_options, expire_entry, delete_key. same_run.
Qed.
Lemma run_incr_by k n : same (run (incr_by_p k n)) (incr_by k n).
Proof. unfold incr_by_p, incr_by, incr_entry. same_run. Qed.
Lemma run_hset k f x : same (run (hset_p k f x)) (hset k f x).
Proof. unfold hset_p, hset, hset_entry. same_run. Qed.
Lemma run_hget k f : same (run (hget_p k f)) (hget k f).
Proof. unfold hget_p, hget, read_hash. same_run. Qed.
Lemma run_hdel k f : same (run (hdel_p k f)) (hdel k f).
Proof. unfold hdel_p, hdel, hdel_flags, hdel_commit, hdel_entry. same_run. Qed.
Lemma run_hgetall k : same (run (hgetall_p k)) (hgetall k).
Proof. unfold hgetall_p, hgetall, read_hash. same_run. Qed.
Lemma run_hexists k f : same (run (hexists_p k f)) (hexists k f).
Proof. unfold hexists_p, hexists, read_hash. same_run. Qed.

(** **** All keys: shard by shard, everything *)
Lemma run_each (g : nat -> MemoryStore -> MemoryStore) l w :
  run (each (fun i => modify (g i)) l) w = (Ret tt, set_store w (foldl (fun s i => g i s) (w_store w) l)).
Proof.
  revert w. induction l as [|i l IH]; intros w; [by destruct w|].
  cbn [each foldl]. rewrite run_bind, bind_run, run_atomic. unfold modify at 1. rewrite IH. done.
Qed.

Lemma clear_data_shards l s :
  foldl (fun s i => set_data s (filter (fun kv => data_shard kv.1 <> i) (data s))) s l
  = set_data s (filter (fun kv => data_shard kv.1 ∉ l) (data s)).
Proof.
  revert s. induction l as [|i l IH]; intros s; cbn [foldl].
  - destruct s as [d x]. unfold set_data. simpl. f_equal. symmetry. apply map_filter_id. intros k sv _ []%elem_of_nil.
  - rewrite IH. unfold set_data. simpl. f_equal. rewrite map_filter_filter. apply map_filter_ext. intros k sv _. simpl. set_solver.
Qed.

Lemma clear_index_shards l s :
  foldl (fun s i => set_index s (filter (fun kv => index_shard kv.1 <> i) (expiration_index s))) s l
  = set_index s (filter (fun kv => index_shard kv.1 ∉ l) (expiration_index s)).
Proof.
  revert s. induction l as [|i l IH]; intros s; cbn [foldl].
  - destruct s as [d x]. unfold set_index. simpl. f_equal. symmetry. apply map_filter_id. intros k sv _ []%elem_of_nil.
  - rewrite IH. unfold set_index. simpl. f_equal. rewrite map_filter_filter. apply map_filter_ext. intros k sv _. simpl. set_solver.
Qed.

Lemma no_shard_left {A} (f : bytes -> nat) (m : gmap bytes A) :
  (forall k, (f k < shards)%nat) -> filter (fun kv => f kv.1 ∉ seq 0 shards) m = ∅.
Proof. intros H. apply map_empty. intros k. apply map_lookup_filter_None_2. right. intros x _ Hn. apply Hn, elem_of_seq. specialize (H k). simpl. lia. Qed.

Lemma run_clear : same (run clear_p) clear.
Proof.
  intros w. unfold clear_p, clear_data_shard, clear_index_shard. rewrite run_bind, bind_run, !run_each, clear_data_shards, clear_index_shards.
  rewrite !no_shard_left by (apply data_shard_lt || apply index_shard_lt). done.
Qed.

Lemma run_delete_all l n : same (run (delete_all_p l n)) (delete_all l n).
Proof.
  revert n. induction l as [|k l IH]; intros n w; [done|]. cbn [delete_all_p delete_all]. rewrite run_bind, !bind_run, run_atomic.
  unfold delete_internal. rewrite bind_run. destruct (index_remove k w) as [[a|] w1]; [|done].
  rewrite run_bind, !bind_run, run_atomic. destruct (data_remove k w1) as [[old|] w2]; [|done]. apply IH.
Qed.

(** The order of deletions does not matter. *)
Lemma delete_internal_run k w :
  delete_internal k w = (Ret (bool_decide (is_Some (data (w_store w) !! k))),
    set_store w (mkMemoryStore (delete k (data (w_store w))) (delete k (expiration_index (w_store w))))).
Proof. done. Qed.

Lemma delete_all_perm l l' n : l ≡ₚ l' -> same (delete_all l n) (delete_all l' n).
Proof.
  intros H. revert n. induction H as [|k l l' _ IH|k j l|l l1 l' _ IH1 _ IH2]; intros n w; [done| | |by rewrite IH1, IH2].
  - cbn [delete_all]. rewrite !bind_run, !delete_internal_run. apply IH.
  - cbn [delete_all]. rewrite !bind_run, !delete_internal_run, !bind_run, !delete_internal_run. cbn [w_store set_store data expiration_index].
    rewrite (delete_delete (data _)), (delete_delete (expiration_index _)). unfold set_store. cbn [w_reads w_proc].
    destruct (decide (j = k)) as [->|Hne]; [done|]. rewrite !lookup_delete_ne by done. by repeat case_bool_decide.
Qed.

Lemma collect_due_run n t l w :
  run (collect_due n t l) w
  = (Ret (concat (map (fun i => map fst (filter (fun kd => kd.2 <= t /\ index_shard kd.1 = i) (hash_order n _ (expiration_index (w_store w))))) l)), w).
Proof.
  induction l as [|i l IH]; [done|]. cbn [collect_due]. rewrite run_bind, bind_run, run_atomic. unfold due_in_shard, gets. 
  rewrite run_bind, bind_run, IH. done.
Qed.

(** Each entry is in one shard. *)
Lemma by_shard (t : Instant) (l : list (bytes * Instant)) ns :
  NoDup ns ->
  concat (map (fun i => map fst (filter (fun kd => kd.2 <= t /\ index_shard kd.1 = i) l)) ns)
  ≡ₚ map fst (filter (fun kd => kd.2 <= t /\ index_shard kd.1 ∈ ns) l).
Proof.
  induction 1 as [|i ns Hi _ IH]; cbn [map concat].
  - replace (filter _ l) with (@nil (bytes * Instant)); [done|]. symmetry. induction l as [|kd l IH]; [done|]. 
    rewrite filter_cons_False; [done|]. intros [_ []%elem_of_nil].
  - rewrite IH. clear IH. induction l as [|kd l IH]; [done|].
    destruct (decide (kd.2 <= t)) as [Ht|Ht]; [|by rewrite !filter_cons_False by tauto].
    destruct (decide (index_shard kd.1 = i)) as [Heq|Heq].
    + rewrite (filter_cons_True _ kd l), (filter_cons_False _ kd l), (filter_cons_True _ kd l); simpl; [by rewrite IH|set_solver..].
    + rewrite (filter_cons_False (fun kd => kd.2 <= t /\ index_shard kd.1 = i)) by tauto.
      destruct (decide (index_shard kd.1 ∈ ns)) as [Hin|Hin].
      * rewrite (filter_cons_True _ kd l), (filter_cons_True _ kd l) by set_solver. simpl. rewrite <- IH. by rewrite Permutation_middle.
      * rewrite (filter_cons_False _ kd l), (filter_cons_False _ kd l) by set_solver. done.
Qed.

Lemma run_cleanup : same (run cleanup_expired_p) cleanup_expired.
Proof.
  intros w. unfold cleanup_expired_p, cleanup_expired. rewrite run_bind, !bind_run, run_atomic. unfold now at 1 2.
  rewrite run_bind, !bind_run, run_atomic. unfold iteration, gets. rewrite run_bind, !bind_run, collect_due_run. unfold iterate.
  rewrite run_delete_all. apply delete_all_perm. cbn [w_store tick]. rewrite by_shard by apply NoDup_seq.
  replace (filter _ (hash_order _ _ _)) with (filter (fun '(_, d) => d <= mono (w_reads w)) (hash_order (w_reads (tick w)) Instant (expiration_index (w_store w)))); [done|].
  apply list_filter_iff. intros [k d]. simpl. split; [|tauto]. intros Hd. split; [done|]. apply elem_of_seq. pose proof (index_shard_lt k). lia.
Qed.

Lemma run_then {A} (p : Prog A) (m : M A) (f : A -> OpResult) :
  same (run p) m -> same (run (r ← p; mret (f r))) (r ← m; mret (f r)).
Proof. intros H w. rewrite run_bind, !bind_run, H. by destruct (m w) as [[]]. Qed.

Lemma run_op op : same (run (prog op)) (exec op).
Proof.
  destruct op; apply run_then;
    [apply run_set|apply run_set_with_options|apply run_set_with_ttl|apply run_set_with_expiration|apply run_get
    |apply run_delete|apply run_exists|apply run_expire|apply run_expire_at|apply run_ttl|apply run_pttl|apply run_persist
    |apply run_incr_by|apply run_hset|apply run_hget|apply run_hdel|apply run_hgetall|apply run_hexists|apply run_clear|apply run_cleanup].
Qed.
End Run.

(** C11: The atomic steps of an operation, taken without interruption, are
    the operation: the same result, the same world, the same panics. *)
Theorem run_prog {E : Env} {Sh : Shards} (op : StoreOp) (w : World) : run (prog op) w = exec op w.
Proof. apply run_op. Qed.
