(* ===== verification/Threads.v ===== *)
(** * Several threads on one store

    Threads call operations (of the store, or whole commands); the
    scheduler picks whose next atomic step is taken ([tstep]).  The reference is a store on which an
    operation takes effect at one instant between its call and its return
    ([astep]).  As long as no key has a deadline, and for all operations
    but HDEL and the two that work on all keys, the threads cannot tell the
    difference ([linearizable]); [Races] shows what happens otherwise. *)

From S2P Require Import Prelude Numbers Utf8 Errors Values World MemoryStore StoreInv StoreSpec Steps.

(** Threads call operations [Op] and get results [Res]; [code] is the
    program of an operation.  What is seen from outside: calls, returns, a
    call that panics; a step inside is [ETau]. *)
Inductive Event (Op Res : Type) : Type :=
| EInvoke (i : nat) (op : Op)
| EReturn (i : nat) (r : Res)
| EPanic (i : nat)
| ETau.
Arguments EInvoke {Op Res} i op.
Arguments EReturn {Op Res} i r.
Arguments EPanic {Op Res} i.
Arguments ETau {Op Res}.

Record Threads (Res : Type) : Type := mkThreads {
  t_world : World;
  t_pool : gmap nat (Prog Res)
}.
Arguments mkThreads {Res} t_world t_pool.
Arguments t_world {Res} t.
Arguments t_pool {Res} t.

(** Time passes: the clock is read by someone else. *)
Definition later (w w' : World) : Prop :=
  w_store w' = w_store w /\ w_proc w' = w_proc w /\ (w_reads w <= w_reads w')%nat.

Section Threads.
Context {Op Res : Type} (code : Op -> Prog Res).

Inductive tstep : Threads Res -> Event Op Res -> Threads Res -> Prop :=
| t_invoke i op w P :
    P !! i = None -> tstep (mkThreads w P) (EInvoke i op) (mkThreads w (<[i := code op]> P))
| t_act i m p w w' P :
    P !! i = Some (Act m) -> m w = (Ret p, w') -> tstep (mkThreads w P) ETau (mkThreads w' (<[i := p]> P))
| t_panic i m w w' P :
    P !! i = Some (Act m) -> m w = (Panic, w') -> tstep (mkThreads w P) (EPanic i) (mkThreads w' (delete i P))
| t_return i r w P :
    P !! i = Some (Done r) -> tstep (mkThreads w P) (EReturn i r) (mkThreads w (delete i P))
| t_clock w w' P :
    later w w' -> tstep (mkThreads w P) ETau (mkThreads w' P).

Inductive tsteps : Threads Res -> list (Event Op Res) -> Threads Res -> Prop :=
| ts_nil T : tsteps T [] T
| ts_cons T e T1 es T' : tstep T e T1 -> tsteps T1 es T' -> tsteps T (e :: es) T'.

(** A schedule that can be played. *)
Inductive Action : Type :=
| Call (i : nat) (op : Op)
| Go (i : nat).

Definition play1 (a : Action) (T : Threads Res) : option (Event Op Res * Threads Res) :=
  let P := t_pool T in
  match a with
  | Call i op =>
      match P !! i with
      | None => Some (EInvoke i op, mkThreads (t_world T) (<[i := code op]> P))
      | Some _ => None
      end
  | Go i =>
      match P !! i with
      | Some (Done r) => Some (EReturn i r, mkThreads (t_world T) (delete i P))
      | Some (Act m) =>
          match m (t_world T) with
          | (Ret p, w') => Some (ETau, mkThreads w' (<[i := p]> P))
          | (Panic, w') => Some (EPanic i, mkThreads w' (delete i P))
          end
      | None => None
      end
  end.

Fixpoint play (acts : list Action) (T : Threads Res) : option (list (Event Op Res) * Threads Res) :=
  match acts with
  | [] => Some ([], T)
  | a :: rest =>
      '(e, T1) ← play1 a T; '(es, T') ← play rest T1; Some (e :: es, T')
  end.

Lemma play1_step a T e T' : play1 a T = Some (e, T') -> tstep T e T'.
Proof.
  destruct T as [w P], a as [i op|i]; simpl; destruct (P !! i) as [[r|m]|] eqn:Hi; try done.
  - intros [= <- <-]. by constructor.
  - intros [= <- <-]. by constructor.
  - destruct (m w) as [[p|] w'] eqn:Hm; intros [= <- <-]; by econstructor.
Qed.

Lemma play_steps acts T es T' : play acts T = Some (es, T') -> tsteps T es T'.
Proof.
  revert T es. induction acts as [|a rest IH]; intros T es; simpl; [intros [= <- <-]; constructor|].
  destruct (play1 a T) as [[e T1]|] eqn:H1; [|done]. simpl. destruct (play rest T1) as [[es' T2]|] eqn:H2; [|done].
  intros [= <- <-]. econstructor; [by eapply play1_step|by apply IH].
Qed.

(** ** The reference: one instant per operation *)
Inductive Stage : Type :=
| Pending (op : Op)
| Decided (r : Res).

Record Atomic : Type := mkAtomic {
  a_store : AStore;
  a_pool : gmap nat Stage
}.

(** What an operation does to the contents of the store. *)
Variable eff : Op -> AStore -> Res * AStore.

Inductive astep : Atomic -> Event Op Res -> Atomic -> Prop :=
| a_invoke i op a Q :
    Q !! i = None -> astep (mkAtomic a Q) (EInvoke i op) (mkAtomic a (<[i := Pending op]> Q))
| a_point i op a Q :
    Q !! i = Some (Pending op) ->
    astep (mkAtomic a Q) ETau (mkAtomic (eff op a).2 (<[i := Decided (eff op a).1]> Q))
| a_return i r a Q :
    Q !! i = Some (Decided r) -> astep (mkAtomic a Q) (EReturn i r) (mkAtomic a (delete i Q))
| a_idle a Q : astep (mkAtomic a Q) ETau (mkAtomic a Q).

Inductive asteps : Atomic -> list (Event Op Res) -> Atomic -> Prop :=
| as_nil A : asteps A [] A
| as_cons A e A1 es A' : astep A e A1 -> asteps A1 es A' -> asteps A (e :: es) A'.
End Threads.

Arguments Action Op : clear implicits.
Arguments Stage Op Res : clear implicits.
Arguments Atomic Op Res : clear implicits.
Arguments Call {Op} i op.
Arguments Go {Op} i.
Arguments Pending {Op Res} op.
Arguments Decided {Op Res} r.
Arguments mkAtomic {Op Res} a_store a_pool.
Arguments a_store {Op Res} a.
Arguments a_pool {Op Res} a.

(** The effect of a store operation that does not depend on the time. *)
Definition effect (op : StoreOp) (a : AStore) : OpResult * AStore := spec 0 op a.
