(* ===== verification/Schedules.v ===== *)
(** * Schedules, step by step

    Runs of several threads put together from what each thread does while
    the others wait ([psteps]): a call in the middle of which another is
    made from start to end ([meanwhile], [interrupted], [overtake]). *)

From S2P Require Import Prelude Numbers Utf8 Errors Values World MemoryStore StoreInv StoreSpec Steps StepThms Threads.


(** Some steps of one thread. *)
Inductive psteps {A : Type} : Prog A -> World -> Prog A -> World -> Prop :=
| ps_refl p w : psteps p w p w
| ps_act m w p w1 q w2 : m w = (Ret p, w1) -> psteps p w1 q w2 -> psteps (Act m) w q w2.

Lemma psteps_one {A : Type} (m : M (Prog A)) w p w' : m w = (Ret p, w') -> psteps (Act m) w p w'.
Proof. intros H. by econstructor; [|constructor]. Qed.

Lemma psteps_bind {A B : Type} (p q : Prog A) (k : A -> Prog B) w w' :
  psteps p w q w' -> psteps (p ≫= k) w (q ≫= k) w'.
Proof.
  induction 1 as [|m w p w1 q w2 Hm _ IH]; [constructor|]. unfold mbind, Prog_bind in *. cbn [pbind].
  eapply ps_act; [|apply IH]. by rewrite Hm.
Qed.

(** A thread that returns when left alone. *)
Lemma psteps_run {A : Type} (p : Prog A) w r w' : run p w = (Ret r, w') -> psteps p w (Done r) w'.
Proof.
  revert w. induction p as [a|m IH] using Prog_steps_ind; intros w; cbn [run].
  - unfold mret, M_ret. intros H. replace r with a by congruence. replace w' with w by congruence. constructor.
  - intros H. specialize (IH w). destruct (m w) as [[p'|] w1] eqn:Hm; [|congruence].
    eapply ps_act; [done|]. by apply IH.
Qed.

Lemma psteps_atomic {A B : Type} (m : M A) (k : A -> Prog B) w a w' :
  m w = (Ret a, w') -> psteps (a ← atomic m; k a) w (k a) w'.
Proof. intros H. apply psteps_one. cbn. rewrite bind_run, H. done. Qed.

Lemma psteps_trans {A : Type} (p q r : Prog A) w w1 w2 : psteps p w q w1 -> psteps q w1 r w2 -> psteps p w r w2.
Proof. induction 1; [done|]. intros. econstructor; eauto. Qed.

(** ** Several threads *)
Section Schedules.
Context {Op Res : Type} (code : Op -> Prog Res).

(** The other threads wait. *)
Lemma psteps_threads i (p q : Prog Res) w w' P :
  P !! i = Some p -> psteps p w q w' ->
  exists n, tsteps code (mkThreads w P) (replicate n ETau) (mkThreads w' (<[i := q]> P)).
Proof.
  intros Hi H. revert P Hi. induction H as [p w|m w p w1 q w2 Hm _ IH]; intros P Hi.
  - exists 0%nat. rewrite insert_id by done. constructor.
  - destruct (IH (<[i := p]> P)) as [n Hn]; [apply lookup_insert_eq|]. rewrite insert_insert_eq in Hn.
    exists (S n). econstructor; [by eapply t_act|done].
Qed.

Lemma tsteps_app T es T1 es' T' : tsteps code T es T1 -> tsteps code T1 es' T' -> tsteps code T (es ++ es') T'.
Proof. induction 1; [done|]. intros. econstructor; [done|auto]. Qed.

(** Calls and answers. *)
Definition visible (es : list (Event Op Res)) : list (Event Op Res) := List.filter (fun e => match e with ETau => false | _ => true end) es.

Lemma visible_tau n : visible (replicate n ETau) = [].
Proof. by induction n as [|n IH]. Qed.
Lemma visible_app es es' : visible (es ++ es') = visible es ++ visible es'.
Proof. apply List.filter_app. Qed.

(** Thread 1 is in the middle of a call; thread 2 makes one from start to
    end. *)
Lemma meanwhile op2 p1 r2 w w' :
  run (code op2) w = (Ret r2, w') ->
  exists es, tsteps code (mkThreads w {[1%nat := p1]}) es (mkThreads w' {[1%nat := p1]}) /\
    visible es = [EInvoke 2 op2; EReturn 2 r2].
Proof.
  intros H2. apply psteps_run in H2.
  destruct (psteps_threads 2 _ _ _ _ (<[2%nat := code op2]> {[1%nat := p1]}) (lookup_insert_eq _ _ _) H2) as [n Hn].
  rewrite insert_insert_eq in Hn. exists (EInvoke 2 op2 :: replicate n ETau ++ [EReturn 2 r2]). split.
  - econstructor; [by apply t_invoke|]. eapply tsteps_app; [exact Hn|]. econstructor; [by apply t_return|].
    rewrite delete_insert_id by done. constructor.
  - change (EInvoke 2 op2 :: ?es) with ([EInvoke 2 op2] ++ es). by rewrite !visible_app, visible_tau.
Qed.

(** Thread 1 is stopped in the middle of [op1], others act, thread 1 goes
    on. *)
Lemma interrupted op1 p1 r1 w w1 w2 w3 es :
  psteps (code op1) w p1 w1 -> tsteps code (mkThreads w1 {[1%nat := p1]}) es (mkThreads w2 {[1%nat := p1]}) ->
  run p1 w2 = (Ret r1, w3) ->
  exists es', tsteps code (mkThreads w ∅) es' (mkThreads w3 ∅) /\ visible es' = EInvoke 1 op1 :: visible es ++ [EReturn 1 r1].
Proof.
  intros H1 H2 H3. apply psteps_run in H3.
  destruct (psteps_threads 1 _ _ _ _ {[1%nat := code op1]} (lookup_singleton_eq _ _) H1) as [n1 Hn1].
  rewrite insert_singleton_eq in Hn1.
  destruct (psteps_threads 1 _ _ _ _ {[1%nat := p1]} (lookup_singleton_eq _ _) H3) as [n3 Hn3].
  rewrite insert_singleton_eq in Hn3.
  exists (EInvoke 1 op1 :: replicate n1 ETau ++ es ++ replicate n3 ETau ++ [EReturn 1 r1]). split.
  - econstructor; [by apply t_invoke|]. eapply tsteps_app; [exact Hn1|]. eapply tsteps_app; [exact H2|].
    eapply tsteps_app; [exact Hn3|]. econstructor; [by apply t_return|]. rewrite delete_singleton_eq. constructor.
  - change (EInvoke 1 op1 :: ?es) with ([EInvoke 1 op1] ++ es). by rewrite !visible_app, !visible_tau.
Qed.

(** One call overtakes another. *)
Lemma overtake op1 op2 p1 r1 r2 w w1 w2 w3 :
  psteps (code op1) w p1 w1 -> run (code op2) w1 = (Ret r2, w2) -> run p1 w2 = (Ret r1, w3) ->
  exists es, tsteps code (mkThreads w ∅) es (mkThreads w3 ∅) /\
    visible es = [EInvoke 1 op1; EInvoke 2 op2; EReturn 2 r2; EReturn 1 r1].
Proof.
  intros H1 H2 H3. destruct (meanwhile op2 p1 r2 w1 w2 H2) as (es2 & Hes2 & Hv2).
  destruct (interrupted op1 p1 r1 w w1 w2 w3 es2 H1 Hes2 H3) as (es & Hes & Hv). exists es. split; [done|]. by rewrite Hv, Hv2.
Qed.
End Schedules.
