(* ===== verification/ThreadThms.v ===== *)
(** * What threads can rely on

    Invariants kept by every step of every thread ([threads_keep]), the
    types of the stored values among them, and linearizability of the
    operations on keys without deadlines. *)

From S2P Require Import Prelude Numbers Utf8 Errors Values World MemoryStore StoreInv StoreSpec Steps StepThms Threads.

(** ** Invariants of the store *)

(** Every step of the program keeps [I], whatever the others have done in
    between as long as they kept it too, and the result satisfies [Q]. *)
Fixpoint keeps {A} (I : MemoryStore -> Prop) (Q : A -> Prop) (p : Prog A) : Prop :=
  match p with
  | Done a => Q a
  | Act m => forall w, I (w_store w) ->
      match m w with
      | (Ret p', w') => I (w_store w') /\ keeps I Q p'
      | (Panic, w') => I (w_store w')
      end
  end.

Definition any {A} (_ : A) : Prop := True.

Lemma keeps_bind {A B} (I : MemoryStore -> Prop) (R : A -> Prop) (Q : B -> Prop) (p : Prog A) (k : A -> Prog B) :
  keeps I R p -> (forall a, R a -> keeps I Q (k a)) -> keeps I Q (p ≫= k).
Proof.
  intros Hp Hk. unfold mbind, Prog_bind. revert Hp. induction p as [a|m IH] using Prog_steps_ind; [apply Hk|].
  cbn [keeps pbind]. intros Hp w Hw. specialize (Hp w Hw). specialize (IH w).
  destruct (m w) as [[p'|] w']; [|done]. destruct Hp as [Hw' Hp]. split; [done|]. by apply IH.
Qed.

Lemma keeps_atomic {A} (I : MemoryStore -> Prop) (Q : A -> Prop) (m : M A) :
  (forall w, I (w_store w) -> I (w_store (after m w)) /\ match (m w).1 with Ret a => Q a | Panic => True end) ->
  keeps I Q (atomic m).
Proof.
  intros H w Hw. unfold atomic. rewrite bind_run. specialize (H w Hw). unfold after in H.
  destruct (m w) as [[a|] w']; simpl in H; by destruct H.
Qed.

Section Invariants.
Context {Op Res : Type} (code : Op -> Prog Res) (I : MemoryStore -> Prop).

Lemma tstep_keeps T e T' :
  (forall i op, e = EInvoke i op -> keeps I any (code op)) ->
  I (w_store (t_world T)) -> map_Forall (fun _ p => keeps I any p) (t_pool T) -> tstep code T e T' ->
  I (w_store (t_world T')) /\ map_Forall (fun _ p => keeps I any p) (t_pool T').
Proof.
  intros Hop Hw HP Hstep. destruct Hstep as [i op w P Hi|i m p w w' P Hi Hm|i m w w' P Hi Hm|i r w P Hi|w w' P [Hs _]]; simpl in *.
  - split; [done|]. apply map_Forall_insert_2; [by apply (Hop i)|done].
  - pose proof (HP _ _ Hi w Hw) as H. rewrite Hm in H. destruct H. split; [done|]. by apply map_Forall_insert_2.
  - pose proof (HP _ _ Hi w Hw) as H. rewrite Hm in H. split; [done|]. by apply map_Forall_delete.
  - split; [done|]. by apply map_Forall_delete.
  - by rewrite Hs.
Qed.

Lemma threads_keep T es T' :
  (forall i op, EInvoke i op ∈ es -> keeps I any (code op)) ->
  I (w_store (t_world T)) -> map_Forall (fun _ p => keeps I any p) (t_pool T) -> tsteps code T es T' ->
  I (w_store (t_world T')).
Proof.
  intros Hop Hw HP Hsteps. revert Hop Hw HP.
  induction Hsteps as [|T e T1 es T' Hstep _ IH]; intros Hop Hw HP; [done|].
  destruct (tstep_keeps T e T1) as [Hw1 HP1]; [|done..|].
  - intros i op ->. apply (Hop i). left.
  - apply IH; [|done..]. intros i op Hin. apply (Hop i). by right.
Qed.
End Invariants.

(** ** Types *)

(** Integers are [i64], texts are UTF-8. *)
Definition typed (s : MemoryStore) : Prop := map_Forall (fun _ sv => value_wf (value sv)) (data s).

Lemma typed_insert s k sv i : typed s -> value_wf (value sv) -> typed (mkMemoryStore (<[k := sv]> (data s)) i).
Proof. intros H Hv. by apply map_Forall_insert_2. Qed.
Lemma typed_delete s k i : typed s -> typed (mkMemoryStore (delete k (data s)) i).
Proof. intros H. by apply map_Forall_delete. Qed.
Lemma typed_lookup s k sv : typed s -> data s !! k = Some sv -> value_wf (value sv).
Proof. intros H Hk. by apply (H k). Qed.

Section Types.
Context {E : Env} {Sh : Shards}.

Abbreviation kept := (keeps typed any).

(** A step that changes nothing, or one of the two updates. *)
Ltac typed_step :=
  apply keeps_atomic; intros [s r p] Hs; unfold after; run_simpl; repeat (case_match; simplify_eq/=; try done);
  (split; [|done]);
  try first [ done | by apply typed_delete | apply typed_insert; simpl; [done|try done; by eapply typed_lookup] ].

(** Programs whose steps do not depend on earlier results. *)
Ltac typed_walk :=
  repeat first [ apply (keeps_bind _ any); [|intros ? _] | done | typed_step; done | case_match ].

Lemma kept_delete k : kept (delete_p k).
Proof. unfold delete_p, found_expired. typed_walk. Qed.

Lemma kept_look {A} k (absent : A) live :
  (forall entry w, typed (w_store w) -> data (w_store w) !! k = Some entry -> typed (w_store (after (live entry) w))) ->
  kept (look_p k absent live).
Proof.
  intros Hl. unfold look_p. apply (keeps_bind _ any).
  - apply keeps_atomic. intros w Hw. split; [|by case_match]. unfold after, look. rewrite bind_run. unfold data_get, gets.
    destruct (data (w_store w) !! k) as [entry|] eqn:Hk; [|done]. rewrite bind_run.
    assert (w_store (is_expired entry w).2 = w_store w) as Hx by (unfold is_expired; by case_match).
    destruct (is_expired entry w) as [[[]|] w1]; simpl in Hx; rewrite <- Hx in Hk, Hw; try done.
    rewrite bind_run. specialize (Hl entry w1 Hw Hk). unfold after in Hl. by destruct (live entry w1) as [[]].
  - intros [a|] _; [done|]. apply (keeps_bind _ any); [apply kept_delete|]. by intros [].
Qed.

(** The value to be stored is made before the lock is taken. *)
Lemma kept_store (m : M StoredValue) k (f : StoredValue -> M unit) {A} (a : A) v :
  (forall w, w_store (m w).2 = w_store w /\ match (m w).1 with Ret sv => value sv = v | Panic => True end) ->
  (forall sv w, data (w_store (f sv w).2) = data (w_store w)) -> value_wf v ->
  kept (sv ← atomic m; _ ← atomic (f sv); _ ← atomic (data_insert k sv); mret a).
Proof.
  intros Hm Hf Hv. apply (keeps_bind _ (fun sv => value sv = v)).
  { apply keeps_atomic. intros w Hw. destruct (Hm w) as [Hs Hr]. unfold after. by rewrite Hs. }
  intros sv Hsv. apply (keeps_bind _ any).
  { apply keeps_atomic. intros w Hw. split; [|by case_match]. unfold after, typed. by rewrite Hf. }
  intros _ _. apply (keeps_bind _ any); [|done].
  apply keeps_atomic. intros w Hw. split; [|done]. apply typed_insert; [done|]. by rewrite Hsv.
Qed.

Lemma new_value_value v w :
  w_store (new_value v w).2 = w_store w /\ match (new_value v w).1 with Ret sv => value sv = v | Panic => True end.
Proof. done. Qed.

Lemma kept_section {A} (m : M A) : (forall w, typed (w_store w) -> typed (w_store (after m w))) -> kept (atomic m).
Proof. intros H. apply keeps_atomic. intros w Hw. split; [by apply H|by case_match]. Qed.

Lemma kept_set_with_ttl k v n : value_wf v -> kept (set_with_ttl_p k v n).
Proof.
  intros Hv. unfold set_with_ttl_p. apply (keeps_bind _ (fun sv => value sv = v)).
  { apply keeps_atomic. intros [s r p] Hs. unfold after. run_simpl. by repeat (case_match; simplify_eq/=). }
  intros sv Hsv. destruct (expires_at sv) as [d|]; [|by apply kept_section].
  apply (keeps_bind _ any); [by apply kept_section; intros []|]. intros _ _.
  apply (keeps_bind _ any); [|done]. apply kept_section. intros w Hw. apply typed_insert; [done|]. by rewrite Hsv.
Qed.

Lemma kept_set_with_options k v ttl ex : value_wf v -> kept (set_with_options_p k v ttl ex).
Proof.
  intros Hv. unfold set_with_options_p. apply (keeps_bind _ any).
  - apply kept_section. intros [s r p] Hs. unfold after, resolve_keep. run_simpl. by repeat (case_match; simplify_eq/=).
  - intros rt _. apply kept_section. intros [s r p] Hs. unfold after, set_entry, make_stored. run_simpl.
    repeat (case_match; simplify_eq/=; try done); by apply typed_insert.
Qed.

Lemma kept_expire_at k d fl : kept (expire_at_with_options_p k d fl).
Proof.
  apply kept_look. intros entry w Hw Hk. unfold after, expire_entry. case_match; [done|].
  apply typed_insert; [done|]. exact (typed_lookup _ _ _ Hw Hk).
Qed.

Lemma kept_incr_by k n : I64_MIN <= n <= I64_MAX -> kept (incr_by_p k n).
Proof.
  intros Hn. unfold incr_by_p. apply (keeps_bind _ any).
  - apply kept_section. intros [s r p] Hs. unfold after, incr_entry. run_simpl.
    repeat (case_match; simplify_eq/=; try done); try (by apply typed_delete); apply typed_insert; simpl; try done.
    all: match goal with H : checked_add_i64 _ _ = Some _ |- _ => apply checked_add_i64_Some in H as [-> H] end; done.
  - intros [r|] _; [done|]. apply (keeps_bind _ any); [by apply kept_section; intros []|]. intros _ _.
    apply (keeps_bind _ (fun sv => value sv = VInteger n)); [by apply keeps_atomic|]. intros sv Hsv.
    apply (keeps_bind _ any); [|done]. apply kept_section. intros w Hw. apply typed_insert; [done|]. by rewrite Hsv.
Qed.

Lemma kept_check k : kept (atomic (found_expired k)).
Proof. apply kept_section. intros [s r p] Hs. unfold after, found_expired. run_simpl. by repeat (case_match; simplify_eq/=). Qed.

Lemma kept_hset k f x : utf8_valid f = true -> utf8_valid x = true -> kept (hset_p k f x).
Proof.
  intros Hf Hx. unfold hset_p, ptry. apply (keeps_bind _ any); [apply kept_check|]. intros b _.
  apply (keeps_bind _ any); [destruct b; [apply kept_delete|done]|]. intros [] _; [|done].
  apply kept_section. intros [s r p] Hs. unfold after, hset_entry. run_simpl.
  repeat (case_match; simplify_eq/=; try done); apply typed_insert; simpl; try done.
  - match goal with Hk : data s !! k = Some ?sv, Hv : value ?sv = VHash ?h |- _ =>
      pose proof (typed_lookup s k sv Hs Hk) as Hw; rewrite Hv in Hw end.
    by apply map_Forall_insert_2.
  - by apply map_Forall_singleton.
Qed.

Lemma kept_hdel k f : kept (hdel_p k f).
Proof.
  unfold hdel_p, ptry. apply (keeps_bind _ any); [apply kept_check|]. intros [] _.
  { apply (keeps_bind _ any); [apply kept_delete|]. by intros []. }
  apply (keeps_bind _ any).
  { apply kept_section. intros [s r p] Hs. unfold after, hdel_flags. run_simpl. by repeat (case_match; simplify_eq/=). }
  intros [[[[] []]|]|e] _; try done; apply (keeps_bind _ any); try done.
  - apply (keeps_bind _ any); intros; apply kept_section; intros [s r p] Hs; [by apply typed_delete|done].
  - apply kept_section. intros [s r p] Hs. unfold after, hdel_entry. run_simpl.
    destruct (data s !! k) as [sv|] eqn:Hk; [|done]. destruct (value sv) as [| |h|] eqn:Hv; try done. simpl.
    apply typed_insert; [done|]. simpl. pose proof (typed_lookup s k sv Hs Hk) as Hw. rewrite Hv in Hw.
    by apply map_Forall_delete.
Qed.

Lemma kept_read {A} k (absent : A) live :
  (forall entry w, w_store (after (live entry) w) = w_store w) -> kept (look_p k absent live).
Proof. intros H. apply kept_look. intros entry w Hw _. by rewrite H. Qed.

Lemma kept_each f l : (forall i w, typed (w_store w) -> typed (w_store (after (f i) w))) -> kept (each f l).
Proof.
  intros H. induction l as [|i l IH]; [done|]. cbn [each]. apply (keeps_bind _ any); [by apply kept_section, H|done].
Qed.

Lemma kept_cleanup : kept cleanup_expired_p.
Proof.
  unfold cleanup_expired_p. apply (keeps_bind _ any); [by apply kept_section|]. intros t _.
  apply (keeps_bind _ any); [by apply kept_section|]. intros n _. apply (keeps_bind _ any).
  - induction (seq 0 shards) as [|i l IH]; [done|]. cbn [collect_due]. apply (keeps_bind _ any); [by apply kept_section|].
    intros ks _. by apply (keeps_bind _ any).
  - intros l _. generalize 0. induction l as [|k l IH]; intros c; [done|]. cbn [delete_all_p].
    apply (keeps_bind _ any); [by apply kept_section; intros []|]. intros _ _.
    apply (keeps_bind _ any); [by apply kept_section; intros [] ?; apply typed_delete|]. intros old _. apply IH.
Qed.

Lemma kept_prog op : op_ok op -> kept (prog op).
Proof.
  intros Hop. destruct op; simpl in Hop; cbn [prog]; try (apply (keeps_bind _ any); [|done]).
  - apply kept_store with v; [apply new_value_value|done|apply Hop].
  - apply kept_set_with_options, Hop.
  - apply kept_set_with_ttl, Hop.
  - by apply kept_store with v; [done| |apply Hop].
  - unfold get_p. apply kept_read. reflexivity.
  - apply kept_delete.
  - unfold exists_p. apply kept_read. reflexivity.
  - apply (keeps_bind _ any); [|intros d _; apply kept_expire_at].
    apply kept_section. intros [s r p] Hs. unfold after. run_simpl. by case_match.
  - apply kept_expire_at.
  - unfold ttl_p. apply kept_read. intros entry w. destruct w as [s0 r0 p0]. unfold after, ttl_seconds. run_simpl. by repeat (case_match; simplify_eq/=).
  - unfold pttl_p. apply kept_read. intros entry w. destruct w as [s0 r0 p0]. unfold after, ttl_millis. run_simpl. by repeat (case_match; simplify_eq/=).
  - unfold persist_p. apply kept_look. intros entry w Hw Hk. apply typed_insert; [done|]. exact (typed_lookup _ _ _ Hw Hk).
  - by apply kept_incr_by.
  - destruct Hop. by apply kept_hset.
  - unfold hget_p. apply kept_read. intros entry w. unfold after, read_hash. by case_match.
  - apply kept_hdel.
  - unfold hgetall_p. apply kept_read. intros entry w. unfold after, read_hash. by case_match.
  - unfold hexists_p. apply kept_read. intros entry w. unfold after, read_hash. by case_match.
  - unfold clear_p. apply (keeps_bind _ any); [|intros _ _]; apply kept_each; intros i w Hw; [|done].
    unfold after. simpl. intros k sv [Hk _]%map_lookup_filter_Some. by apply (Hw k).
  - apply kept_cleanup.
Qed.
End Types.


(** The calls of a schedule are the calls of the run. *)
Definition calls {Op : Type} (Q : Op -> Prop) (acts : list (Action Op)) : Prop :=
  Forall (fun a => match a with Call _ op => Q op | Go _ => True end) acts.

Lemma play_calls {Op Res : Type} (code : Op -> Prog Res) (Q : Op -> Prop) acts T es T' :
  play code acts T = Some (es, T') -> calls Q acts -> forall i op, EInvoke i op ∈ es -> Q op.
Proof.
  revert T es. induction acts as [|a rest IH]; intros T es; simpl.
  - intros [= <- <-] _ i op []%elem_of_nil.
  - destruct (play1 code a T) as [[e T1]|] eqn:H1; [|done]. simpl. destruct (play code rest T1) as [[es' T2]|] eqn:H2; [|done].
    intros [= <- <-] [Ha Hrest]%Forall_cons i op [<-|Hin]%elem_of_cons; [|by eapply IH].
    destruct a; simpl in H1; repeat case_match; by simplify_eq.
Qed.

(** Two clients; the second SET overtakes the first increment. *)
Definition overtaken : list (Action StoreOp) :=
  [Call 1 (OIncrBy (b#"n") 7); Call 2 (OSet (b#"n") (VInteger 1)); Go 2; Go 1; Go 2; Go 2; Go 1; Go 2].

Definition fresh_threads {Res : Type} : Threads Res := mkThreads (mkWorld empty_store 0 no_process) ∅.

(** What a schedule leads to. *)
Definition played {E : Env} {Sh : Shards} (acts : list (Action StoreOp)) (Q : list (Event StoreOp OpResult) -> Threads OpResult -> Prop) : Prop :=
  match play prog acts fresh_threads with Some (es, T) => Q es T | None => False end.

