(* ===== verification/Linear.v ===== *)
(** * Operations that take effect at one instant

    As long as no key has a deadline, an operation other than HDEL, the
    clearing of the store and the sweep changes the table of keys in one of
    its steps only, and what it answers is what it would answer if it were
    that step alone ([before]).  So the threads of [Threads] follow the
    reference [astep] event by event ([linearizable]); [Counters] draws
    from it that nothing is lost when clients count with INCR. *)

From S2P Require Import Prelude Numbers Utf8 Errors Values World MemoryStore StoreInv StoreSpec Steps StepThms Threads ThreadThms.

(** No key has a deadline. *)
Definition plain (s : MemoryStore) : Prop := map_Forall (fun _ sv => expires_at sv = None) (data s).

(** What a client can see of such a store, at any time. *)
Definition contents (s : MemoryStore) : AStore := see <$> data s.

(** The operations that keep it so, HDEL and the two on all keys left out. *)
Definition timeless (op : StoreOp) : bool :=
  match op with
  | OSet _ _ | OGet _ | ODelete _ | OExists _ | OTtl _ | OPttl _ | OPersist _ | OIncrBy _ _
  | OHset _ _ _ | OHget _ _ | OHgetall _ | OHexists _ _ => true
  | OSetOpt _ _ TNone _ | OSetOpt _ _ KeepTtl _ => true
  | _ => false
  end.

Lemma contents_lookup s k : contents s !! k = see <$> data s !! k.
Proof. apply lookup_fmap. Qed.
Lemma contents_insert s k sv i : contents (mkMemoryStore (<[k := sv]> (data s)) i) = <[k := see sv]> (contents s).
Proof. apply fmap_insert. Qed.
Lemma contents_delete s k i : contents (mkMemoryStore (delete k (data s)) i) = delete k (contents s).
Proof. apply fmap_delete. Qed.
Lemma plain_lookup s k sv : plain s -> data s !! k = Some sv -> expires_at sv = None.
Proof. intros H. apply (H k). Qed.
Lemma plain_insert s k sv i : plain s -> expires_at sv = None -> plain (mkMemoryStore (<[k := sv]> (data s)) i).
Proof. intros H Hsv. by apply map_Forall_insert_2. Qed.
Lemma plain_delete s k i : plain s -> plain (mkMemoryStore (delete k (data s)) i).
Proof. intros H. by apply map_Forall_delete. Qed.

(** ** The instant at which a program takes effect *)

(** The effect has been had and the answer is known. *)
Fixpoint decided {A} (r : A) (p : Prog A) : Prop :=
  match p with
  | Done a => a = r
  | Act m => forall w, plain (w_store w) ->
      match m w with
      | (Ret p', w') => plain (w_store w') /\ contents (w_store w') = contents (w_store w) /\ decided r p'
      | (Panic, _) => False
      end
  end.

(** The effect [eff] is still to come. *)
Fixpoint before {A} (eff : AStore -> A * AStore) (p : Prog A) : Prop :=
  match p with
  | Done _ => False
  | Act m => forall w, plain (w_store w) ->
      match m w with
      | (Ret p', w') =>
          plain (w_store w') /\
          ((contents (w_store w') = contents (w_store w) /\ before eff p') \/
           (contents (w_store w') = (eff (contents (w_store w))).2 /\ decided (eff (contents (w_store w))).1 p'))
      | (Panic, _) => False
      end
  end.

Lemma decided_bind {A B : Type} (r : A) (x : B) p (k : A -> Prog B) : decided r p -> decided x (k r) -> decided x (p ≫= k).
Proof.
  unfold mbind, Prog_bind. induction p as [a|m IH] using Prog_steps_ind; cbn [decided pbind]; [by intros ->|].
  intros H Hk w Hw. specialize (H w Hw). specialize (IH w). destruct (m w) as [[p'|] w']; [|done].
  destruct H as (? & ? & H). split_and!; [done..|]. by apply IH.
Qed.

(** What is left to do after the effect only decides the answer. *)
Lemma before_bind {A B : Type} (eff : AStore -> A * AStore) (f : A -> B) p (k : A -> Prog B) :
  before eff p -> (forall a, decided (f a) (k a)) -> before (fun a => (f (eff a).1, (eff a).2)) (p ≫= k).
Proof.
  intros Hp Hk. revert Hp. unfold mbind, Prog_bind. induction p as [a|m IH] using Prog_steps_ind; cbn [before pbind]; [done|].
  intros H w Hw. specialize (H w Hw). specialize (IH w). destruct (m w) as [[p'|] w']; [|done].
  destruct H as [? [[? H]|[? H]]]; (split; [done|]).
  - left. split; [done|]. by apply IH.
  - right. split; [done|]. eapply (decided_bind _ _ p'); [done|apply Hk].
Qed.

(** Only the result and the effect on the contents matter. *)
Lemma before_ext {A : Type} (eff eff' : AStore -> A * AStore) p : (forall a, eff a = eff' a) -> before eff p -> before eff' p.
Proof.
  intros He. induction p as [a|m IH] using Prog_steps_ind; cbn [before]; [done|].
  intros H w Hw. specialize (H w Hw). specialize (IH w). destruct (m w) as [[p'|] w']; [|done].
  rewrite <- He. naive_solver.
Qed.

(** A step that leaves the contents alone. *)
Lemma before_tau {A B : Type} (eff : AStore -> B * AStore) (m : M A) (k : A -> Prog B) :
  (forall w, plain (w_store w) -> exists a w', m w = (Ret a, w') /\ data (w_store w') = data (w_store w) /\ before eff (k a)) ->
  before eff (a ← atomic m; k a).
Proof.
  intros H w Hw. cbn. unfold mbind at 1, M_bind. destruct (H w Hw) as (a & w' & -> & Hd & Hk).
  unfold plain, contents. simpl. rewrite Hd. split; [done|]. by left.
Qed.

(** The step that has the effect. *)
Lemma before_point {A B : Type} (eff : AStore -> B * AStore) (m : M A) (k : A -> Prog B) :
  (forall w, plain (w_store w) -> exists a w', m w = (Ret a, w') /\ plain (w_store w') /\
     contents (w_store w') = (eff (contents (w_store w))).2 /\ decided (eff (contents (w_store w))).1 (k a)) ->
  before eff (a ← atomic m; k a).
Proof.
  intros H w Hw. cbn. unfold mbind at 1, M_bind. destruct (H w Hw) as (a & w' & -> & Hp & Hc & Hk).
  simpl. split; [done|]. by right.
Qed.

Lemma before_last {A : Type} (eff : AStore -> A * AStore) (m : M A) :
  (forall w, plain (w_store w) -> exists w', m w = (Ret (eff (contents (w_store w))).1, w') /\ plain (w_store w') /\
     contents (w_store w') = (eff (contents (w_store w))).2) ->
  before eff (atomic m).
Proof.
  intros H w Hw. cbn. unfold mbind at 1, M_bind. destruct (H w Hw) as (w' & -> & Hp & Hc).
  simpl. split; [done|]. by right.
Qed.

Lemma before_assoc {A B C : Type} (eff : AStore -> C * AStore) (p : Prog A) (k : A -> Prog B) (g : B -> Prog C) :
  before eff (a ← p; b ← k a; g b) -> before eff (b ← (a ← p; k a); g b).
Proof.
  unfold mbind, Prog_bind. induction p as [a|m IH] using Prog_steps_ind; cbn [before pbind]; [done|].
  intros H w Hw. specialize (H w Hw). specialize (IH w). destruct (m w) as [[p'|] w']; [|done].
  destruct H as [? [[? H]|[? H]]]; (split; [done|]).
  - left. split; [done|]. by apply IH.
  - right. split; [done|]. revert H. generalize (eff (contents (w_store w))).1. clear.
    intros r. induction p' as [a|m IH] using Prog_steps_ind; cbn [decided pbind]; [done|].
    intros H w Hw. specialize (H w Hw). specialize (IH w). destruct (m w) as [[p'|] w']; [|done].
    destruct H as (? & ? & H). split_and!; [done..|]. by apply IH.
Qed.

Section Points.
Context {E : Env} {Sh : Shards}.

(** Without deadlines nothing is ever found expired. *)
Lemma is_expired_plain sv w : expires_at sv = None -> is_expired sv w = (Ret false, w).
Proof. unfold is_expired. by intros ->. Qed.

Lemma found_expired_plain k w : plain (w_store w) -> found_expired k w = (Ret false, w).
Proof.
  intros Hw. unfold found_expired. rewrite bind_run. cbn. destruct (data (w_store w) !! k) as [sv|] eqn:Hk; [|done].
  apply is_expired_plain. by eapply plain_lookup.
Qed.

(** The methods that look at one entry. *)
Lemma before_look {A B : Type} (eff : AStore -> B * AStore) (f : Result A -> B) k absent (live : StoredValue -> M (Result A)) :
  (forall w, plain (w_store w) ->
     match data (w_store w) !! k with
     | None => eff (contents (w_store w)) = (f (Ok absent), contents (w_store w))
     | Some entry => exists a w', live entry w = (Ret a, w') /\ plain (w_store w') /\
         eff (contents (w_store w)) = (f a, contents (w_store w'))
     end) ->
  before eff (r ← look_p k absent live; mret (f r)).
Proof.
  intros H. unfold look_p. apply before_assoc, before_point. intros w Hw. specialize (H w Hw).
  unfold look. rewrite bind_run. unfold data_get, gets. cbv beta iota zeta.
  destruct (data (w_store w) !! k) as [entry|] eqn:Hk.
  - rewrite bind_run, is_expired_plain by (by eapply plain_lookup). destruct H as (a & w' & Hl & Hp & He).
    exists (Some a), w'. cbv iota beta. rewrite bind_run, Hl, He. done.
  - exists (Some (Ok absent)), w. rewrite H. done.
Qed.

Lemma before_set k v : before (effect (OSet k v)) (prog (OSet k v)).
Proof.
  cbn [prog]. unfold set_p. apply before_assoc, before_tau. intros [s r p] Hw. eexists _, _. split_and!; [done..|].
  apply before_assoc, before_tau. intros w1 Hw1. eexists _, _. split_and!; [done..|].
  apply before_assoc, before_point. intros w2 Hw2. eexists _, _. split_and!; [done|by apply plain_insert|apply contents_insert|done].
Qed.

Lemma before_delete k : before (effect (ODelete k)) (prog (ODelete k)).
Proof.
  cbn [prog]. unfold delete_p. apply before_assoc, before_tau. intros w Hw. eexists _, _.
  split_and!; [by apply found_expired_plain|done|].
  apply before_assoc, before_tau. intros w1 Hw1. eexists _, _. split_and!; [done..|].
  apply before_assoc, before_point. intros w2 Hw2. eexists _, _.
  split_and!; [done|by apply plain_delete|apply contents_delete|].
  simpl. rewrite contents_lookup. f_equal. apply bool_decide_ext. by rewrite fmap_is_Some.
Qed.

Lemma before_set_opt k v ttl ex : timeless (OSetOpt k v ttl ex) -> before (effect (OSetOpt k v ttl ex)) (prog (OSetOpt k v ttl ex)).
Proof.
  intros Ht. cbn [prog]. unfold set_with_options_p. apply before_assoc, before_tau. intros w Hw. exists None, w.
  split_and!; [|done|].
  { destruct ttl; [done|done|]. unfold resolve_keep. run_simpl. destruct (data (w_store w) !! k) as [sv|] eqn:Hk; [|done].
    simpl. unfold is_expired. by rewrite (plain_lookup _ _ _ Hw Hk). }
  apply before_point. clear w Hw. intros [s r p] Hw. unfold set_entry, effect, spec. rewrite contents_lookup. run_simpl.
  destruct (data s !! k) as [sv|] eqn:Hk.
  - pose proof (plain_lookup _ _ _ Hw Hk) as Hn. rewrite Hn. simpl.
    destruct ex; simpl; eexists _, _; (split; [done|]); try (by split_and!);
      (split_and!; [by apply plain_insert|etrans; [apply contents_insert|]; simpl; unfold put, dead; rewrite Hn; by destruct ttl|done]).
  - destruct ex; simpl; eexists _, _; (split; [done|]); try (by split_and!);
      (split_and!; [by apply plain_insert|etrans; [apply contents_insert|]; simpl; unfold put, dead; by destruct ttl|done]).
Qed.

Lemma before_incr_by k n : before (effect (OIncrBy k n)) (prog (OIncrBy k n)).
Proof.
  cbn [prog]. unfold incr_by_p. apply before_assoc, before_point. intros [s r p] Hw.
  unfold incr_entry, effect, spec. rewrite contents_lookup. run_simpl. destruct (data s !! k) as [sv|] eqn:Hk.
  - pose proof (plain_lookup _ _ _ Hw Hk) as Hn. rewrite Hn. simpl.
    destruct (to_integer (value sv)) as [c|e]; simpl; [|by eexists _, _].
    destruct (checked_add_i64 c n) as [x|]; simpl; [|by eexists _, _].
    eexists _, _. split_and!; [done|by apply plain_insert|apply contents_insert|done].
  - eexists _, _. split_and!; [done|by apply plain_insert|apply contents_insert|done].
Qed.

Lemma before_hset k f x : before (effect (OHset k f x)) (prog (OHset k f x)).
Proof.
  cbn [prog]. unfold hset_p. apply before_assoc, before_tau. intros w Hw. eexists _, _.
  split_and!; [by apply found_expired_plain|done|]. apply before_point. clear w Hw. intros [s r p] Hw.
  unfold hset_entry, effect, spec. rewrite contents_lookup. run_simpl. destruct (data s !! k) as [sv|] eqn:Hk.
  - simpl. pose proof (plain_lookup _ _ _ Hw Hk) as Hn. destruct (value sv) as [| |h|] eqn:Hv; try (by eexists _, _).
    eexists _, _. split_and!; [done|by apply plain_insert|apply contents_insert|done].
  - eexists _, _. split_and!; [done|by apply plain_insert|apply contents_insert|done].
Qed.

(** Reads of an entry. *)
Lemma before_read {A : Type} (f : Result A -> OpResult) op k absent (live : StoredValue -> M (Result A)) :
  (forall a, (effect op a).2 = a) ->
  (forall a, a !! k = None -> (effect op a).1 = f (Ok absent)) ->
  (forall sv w, expires_at sv = None -> exists a w', live sv w = (Ret a, w') /\ w_store w' = w_store w /\
     forall c, c !! k = Some (see sv) -> (effect op c).1 = f a) ->
  before (effect op) (r ← look_p k absent live; mret (f r)).
Proof.
  intros H2 Habs Hlive. apply before_look. intros w Hw. destruct (data (w_store w) !! k) as [sv|] eqn:Hk.
  - destruct (Hlive sv w (plain_lookup _ _ _ Hw Hk)) as (a & w' & Hl & Hs & Hr). exists a, w'. rewrite Hs. split_and!; [done..|].
    rewrite (surjective_pairing (effect op _)), H2. f_equal. apply Hr. by rewrite contents_lookup, Hk.
  - rewrite (surjective_pairing (effect op _)), H2. f_equal. apply Habs. by rewrite contents_lookup, Hk.
Qed.

Ltac read_absent := intros ? Ha; unfold effect, spec, spec_ttl, spec_hash; by rewrite Ha.

Lemma before_get k : before (effect (OGet k)) (prog (OGet k)).
Proof.
  cbn [prog]. unfold get_p. apply before_read; [done|read_absent|]. intros sv w Hn. eexists _, _. split_and!; [done..|].
  intros c Hc. unfold effect, spec. by rewrite Hc.
Qed.

Lemma before_exists k : before (effect (OExists k)) (prog (OExists k)).
Proof.
  cbn [prog]. unfold exists_p. apply before_read; [done|read_absent|]. intros sv w Hn. eexists _, _. split_and!; [done..|].
  intros c Hc. unfold effect, spec. by rewrite Hc.
Qed.

Lemma before_ttl k : before (effect (OTtl k)) (prog (OTtl k)) /\ before (effect (OPttl k)) (prog (OPttl k)).
Proof.
  cbn [prog]. unfold ttl_p, pttl_p. split; (apply before_read; [done|read_absent|]); intros sv w Hn; exists (Ok (-1)), w;
    (split_and!; [|done|]).
  - rewrite bind_run. unfold ttl_seconds. by rewrite Hn.
  - intros c Hc. unfold effect, spec, spec_ttl. rewrite Hc. unfold see. by rewrite Hn.
  - rewrite bind_run. unfold ttl_millis. by rewrite Hn.
  - intros c Hc. unfold effect, spec, spec_ttl. rewrite Hc. unfold see. by rewrite Hn.
Qed.

Lemma before_persist k : before (effect (OPersist k)) (prog (OPersist k)).
Proof.
  cbn [prog]. unfold persist_p. apply before_look. intros w Hw. unfold effect, spec. rewrite contents_lookup.
  destruct (data (w_store w) !! k) as [sv|] eqn:Hk; [|done]. eexists _, _.
  split_and!; [done|by apply plain_insert|]. simpl. f_equal. symmetry. apply contents_insert.
Qed.

(** A read of a hash field or of a whole hash. *)
Lemma before_read_hash {A : Type} (f : Result A -> OpResult) (op : StoreOp) (name : string) (k : bytes) (absent : A)
    (get_ : gmap bytes bytes -> M A) (g : gmap bytes bytes -> OpResult) :
  (forall a, effect op a = (spec_hash name (f (Ok absent)) g k a, a)) ->
  (forall e, f (Err e) = RErr e) ->
  (forall h w, exists a w', get_ h w = (Ret a, w') /\ w_store w' = w_store w /\ f (Ok a) = g h) ->
  before (effect op) (r ← look_p k absent (read_hash name get_); mret (f r)).
Proof.
  intros He Hf Hg. apply before_read; [intros a; by rewrite He|intros a Ha; rewrite He; unfold spec_hash; by rewrite Ha|].
  intros sv w Hn. unfold read_hash.
  destruct (value sv) as [| |h|] eqn:Hv; simpl; cycle 2.
  { destruct (Hg h w) as (a & w' & Hgo & Hs & Ha). exists (Ok a), w'. rewrite bind_run, Hgo. split_and!; [done..|].
    intros c Hc. rewrite He. unfold spec_hash. rewrite Hc. unfold see. by rewrite Hv, Ha. }
  all: eexists _, _; (split_and!; [done..|]); intros c Hc; rewrite He; unfold spec_hash; rewrite Hc; unfold see; by rewrite Hv, Hf.
Qed.

Lemma before_hash_reads `{!EnvOk E} k f :
  before (effect (OHget k f)) (prog (OHget k f)) /\ before (effect (OHgetall k)) (prog (OHgetall k)) /\
  before (effect (OHexists k f)) (prog (OHexists k f)).
Proof.
  cbn [prog]. unfold hget_p, hgetall_p, hexists_p. split_and!; (eapply before_read_hash; [done|done|]); intros h w;
    eexists _, _; (split_and!; [done..|]); [done| |done].
  simpl. by rewrite hash_order_map.
Qed.

Lemma before_prog `{!EnvOk E} op : timeless op -> before (effect op) (prog op).
Proof.
  intros Ht. destruct op; try done; eauto using before_set, before_set_opt, before_get, before_delete, before_exists,
    before_persist, before_incr_by, before_hset; try apply before_ttl; by apply before_hash_reads.
Qed.
End Points.

(** ** Simulation *)

(** Two pools with a relation between what each thread is doing. *)
Section Pools.
Context {A B : Type} (R : A -> B -> Prop).
Abbreviation related P Q := (forall i : nat, option_relation R (fun _ => False) (fun _ => False) (P !! i) (Q !! i)).

Lemma pool_at (P : gmap nat A) (Q : gmap nat B) i p : related P Q -> P !! i = Some p -> exists st, Q !! i = Some st /\ R p st.
Proof. intros H Hi. specialize (H i). rewrite Hi in H. destruct (Q !! i) as [st|]; [by exists st|done]. Qed.

Lemma pool_none (P : gmap nat A) (Q : gmap nat B) i : related P Q -> P !! i = None -> Q !! i = None.
Proof. intros H Hi. specialize (H i). rewrite Hi in H. by destruct (Q !! i). Qed.

Lemma pool_insert (P : gmap nat A) (Q : gmap nat B) i p st : related P Q -> R p st -> related (<[i := p]> P) (<[i := st]> Q).
Proof. intros H Hp j. destruct (decide (i = j)) as [<-|]; [by rewrite !lookup_insert_eq|by rewrite !lookup_insert_ne]. Qed.

Lemma pool_delete (P : gmap nat A) (Q : gmap nat B) i : related P Q -> related (delete i P) (delete i Q).
Proof. intros H j. destruct (decide (i = j)) as [<-|]; [by rewrite !lookup_delete_eq|by rewrite !lookup_delete_ne]. Qed.
End Pools.

Section Simulation.
Context {Op Res : Type} (code : Op -> Prog Res) (eff : Op -> AStore -> Res * AStore) (ok : Op -> Prop).
Hypothesis code_before : forall op, ok op -> before (eff op) (code op).

Definition at_stage (p : Prog Res) (st : Stage Op Res) : Prop :=
  match st with
  | Pending op => before (eff op) p
  | Decided r => decided r p
  end.

Record follows (T : Threads Res) (A : Atomic Op Res) : Prop := {
  follows_plain : plain (w_store (t_world T));
  follows_store : contents (w_store (t_world T)) = a_store A;
  follows_pool : forall i, option_relation at_stage (fun _ => False) (fun _ => False) (t_pool T !! i) (a_pool A !! i)
}.

Lemma step_follows T e T' A :
  follows T A -> (forall i op, e = EInvoke i op -> ok op) -> tstep code T e T' ->
  exists A', astep eff A e A' /\ follows T' A'.
Proof.
  intros [Hw Hs HP] Hop Hstep. destruct A as [a Q]. simpl in *. subst a.
  destruct Hstep as [i op w P Hi|i m p w w' P Hi Hm|i m w w' P Hi Hm|i r w P Hi|w w' P [Hs _]]; simpl in *.
  - eexists. split; [apply a_invoke; by eapply pool_none|]. split; [done..|]. simpl.
    apply pool_insert; [done|]. simpl. apply code_before, (Hop i op eq_refl).
  - destruct (pool_at _ _ _ _ _ HP Hi) as (st & Hst & Hat). destruct st as [op|r]; specialize (Hat w Hw); rewrite Hm in Hat.
    + destruct Hat as (Hw' & [[Hc Hb]|[Hc Hd]]).
      * eexists. split; [apply a_idle|]. split; [done..|]. simpl. rewrite <- (insert_id Q i _ Hst). by apply pool_insert.
      * eexists. split; [by apply (a_point eff i op)|]. split; [done..|]. simpl. by apply pool_insert.
    + destruct Hat as (Hw' & Hc & Hd). eexists. split; [apply a_idle|]. split; [done..|]. simpl.
      rewrite <- (insert_id Q i _ Hst). by apply pool_insert.
  - destruct (pool_at _ _ _ _ _ HP Hi) as (st & Hst & Hat). destruct st; specialize (Hat w Hw); by rewrite Hm in Hat.
  - destruct (pool_at _ _ _ _ _ HP Hi) as (st & Hst & Hat). destruct st as [op|r']; [done|]. simpl in Hat. subst r'.
    eexists. split; [by apply a_return|]. split; [done..|]. by apply pool_delete.
  - eexists. split; [apply a_idle|]. split; simpl; rewrite ?Hs; done.
Qed.

Lemma steps_follow T es T' A :
  tsteps code T es T' -> follows T A -> (forall i op, EInvoke i op ∈ es -> ok op) ->
  exists A', asteps eff A es A' /\ follows T' A'.
Proof.
  intros H. revert A. induction H as [|T e T1 es T' Hstep _ IH]; intros A HA Hop; [exists A; split; [constructor|done]|].
  destruct (step_follows T e T1 A) as (A1 & HA1 & Hf); [done| |done|].
  { intros i op ->. apply (Hop i). left. }
  destruct (IH A1 Hf) as (A' & HA' & Hf'); [intros i op Hin; apply (Hop i); by right|].
  exists A'. split; [by econstructor|done].
Qed.

Lemma start_follows w : plain (w_store w) -> follows (mkThreads w ∅) (mkAtomic (contents (w_store w)) ∅).
Proof. intros Hw. by split. Qed.
End Simulation.


(** Two clients; the increment takes effect between the other client's
    look for expiry and its write. *)
Definition between : list (Action StoreOp) :=
  [Call 1 (OHset (b#"h") (b#"f") (b#"x")); Call 2 (OIncrBy (b#"n") 7); Go 1; Go 2; Go 2; Go 1; Go 1].

