(* ===== verification/Counters.v ===== *)
(** * Clients that count

    INCR is one step on its entry, so increments by concurrent clients are
    neither lost nor answered twice, as long as the counter has no
    deadline.  The argument is about the reference store of [Threads]; it
    carries over to the threads by the simulation of [Linear]. *)

From S2P Require Import Prelude Numbers Utf8 Errors Values World MemoryStore StoreInv StoreSpec Steps StepThms Threads ThreadThms Linear.

(** ** Counting *)

(** What the stages of the pool contribute. *)
Definition collect {A : Type} (f : Stage StoreOp OpResult -> option A) (Q : gmap nat (Stage StoreOp OpResult)) : list A := omap (fun kv => f kv.2) (map_to_list Q).

Lemma collect_insert {A : Type} (f : Stage StoreOp OpResult -> option A) (Q : gmap nat (Stage StoreOp OpResult)) i st :
  Q !! i = None -> collect f (<[i := st]> Q) ≡ₚ option_list (f st) ++ collect f Q.
Proof. intros Hi. unfold collect. rewrite map_to_list_insert by done. unfold omap, list_omap. simpl. by destruct (f st). Qed.

Lemma collect_take {A : Type} (f : Stage StoreOp OpResult -> option A) (Q : gmap nat (Stage StoreOp OpResult)) i st :
  Q !! i = Some st -> collect f Q ≡ₚ option_list (f st) ++ collect f (delete i Q).
Proof. intros Hi. rewrite <- (collect_insert f (delete i Q) i st) by apply lookup_delete_eq. by rewrite insert_delete_id. Qed.

Lemma collect_update {A : Type} (f : Stage StoreOp OpResult -> option A) (Q : gmap nat (Stage StoreOp OpResult)) i st :
  collect f (<[i := st]> Q) ≡ₚ option_list (f st) ++ collect f (delete i Q).
Proof. rewrite <- insert_delete_eq. by apply collect_insert, lookup_delete_eq. Qed.

(** The increments that have been called, the answers given, and those
    still on their way. *)
Definition increments (es : list (Event StoreOp OpResult)) : nat :=
  length (omap (fun e => match e with EInvoke _ (OIncrBy _ _) => Some tt | _ => None end) es).
Definition answer (r : OpResult) : option Z := match r with RInt z => Some z | _ => None end.
Definition answers (es : list (Event StoreOp OpResult)) : list Z := omap (fun e => match e with EReturn _ r => answer r | _ => None end) es.
Definition awaited (st : Stage StoreOp OpResult) : option unit := match st with Pending (OIncrBy _ _) => Some tt | _ => None end.
Definition given (st : Stage StoreOp OpResult) : option Z := match st with Decided r => answer r | _ => None end.

Definition counts (k : bytes) (op : StoreOp) : Prop := op = OIncrBy k 1 \/ op = OGet k.

Record counting (k : bytes) (c : Z) (es : list (Event StoreOp OpResult)) (A : Atomic StoreOp OpResult) (d : nat) : Prop := {
  counting_store : a_store A !! k = Some (VInteger (c + Z.of_nat d), None);
  counting_answers : answers es ++ collect given (a_pool A) ≡ₚ seqZ (c + 1) (Z.of_nat d);
  counting_calls : increments es = (d + length (collect awaited (a_pool A)))%nat;
  counting_ops : forall i op, a_pool A !! i = Some (Pending op) -> counts k op
}.

Lemma increments_snoc es e : increments (es ++ [e]) = (increments es + increments [e])%nat.
Proof. unfold increments. by rewrite omap_app, length_app. Qed.
Lemma increments_call i op : increments [EInvoke i op] = length (option_list (awaited (Pending op))).
Proof. by destruct op. Qed.
Lemma answers_snoc es e : answers (es ++ [e]) = answers es ++ answers [e].
Proof. apply omap_app. Qed.

Lemma counting_step k c es A e A' d :
  I64_MIN <= c -> c + Z.of_nat (increments (es ++ [e])) <= I64_MAX ->
  counting k c es A d -> (forall i op, e = EInvoke i op -> counts k op) -> astep effect A e A' ->
  exists d', counting k c (es ++ [e]) A' d'.
Proof.
  intros Hc HN [Hk Hans Hcalls Hops] Hop Hstep. rewrite increments_snoc in HN.
  destruct Hstep as [i op a Q Hi|i op a Q Hi|i r a Q Hi|a Q]; simpl in *.
  - exists d. split; simpl; [done| | |].
    + rewrite answers_snoc, (collect_insert given), app_nil_r by done. done.
    + rewrite increments_snoc, (Permutation_length (collect_insert awaited Q i (Pending op) Hi)), Hcalls, length_app, increments_call. lia.
    + intros j op' [[<- [= <-]]|[_ Hj]]%lookup_insert_Some; [by apply (Hop i)|by apply (Hops j)].
  - pose proof (Hops _ _ Hi) as Hcnt. pose proof (collect_take given Q i _ Hi) as Hg. pose proof (collect_take awaited Q i _ Hi) as Ha.
    assert (forall j op', <[i := Decided (effect op a).1]> Q !! j = Some (Pending op') -> counts k op') as Hops'.
    { intros j op' [[_ [=]]|[_ Hj]]%lookup_insert_Some. by apply (Hops j). }
    rewrite Ha, length_app in Hcalls. rewrite Hg in Hans. simpl in Hans.
    destruct Hcnt as [-> | ->]; simpl in Hcalls.
    + assert (checked_add_i64 (c + Z.of_nat d) 1 = Some (c + Z.of_nat d + 1)) as Hadd.
      { apply checked_add_i64_Some. change (increments [_]) with 0%nat in HN. split; [done|lia]. }
      exists (S d). revert Hops'. unfold effect, spec. rewrite Hk. simpl. rewrite Hadd. simpl. intros Hops'. split; simpl.
      * rewrite lookup_insert_eq. do 3 f_equal. lia.
      * rewrite answers_snoc, app_nil_r, seqZ_S, <- Hans, <- Permutation_cons_append, (collect_update given). simpl.
        replace (c + Z.of_nat d + 1) with (c + 1 + Z.of_nat d) by lia. by rewrite Permutation_middle.
      * rewrite increments_snoc, (Permutation_length (collect_update awaited Q i _)), length_app. change (increments [_]) with 0%nat. simpl. lia.
      * done.
    + exists d. revert Hops'. unfold effect, spec. simpl. intros Hops'. split; simpl; [done| | |done].
      * by rewrite answers_snoc, app_nil_r, (collect_update given).
      * rewrite increments_snoc, (Permutation_length (collect_update awaited Q i _)), length_app. change (increments [_]) with 0%nat. simpl. lia.
  - exists d. pose proof (collect_take given Q i _ Hi) as Hg. pose proof (collect_take awaited Q i _ Hi) as Ha. split; simpl; [done| | |].
    + rewrite answers_snoc, <- (assoc_L (++)), <- Hans, Hg. by destruct r.
    + rewrite increments_snoc, Hcalls, Ha. change (increments [_]) with 0%nat. simpl. lia.
    + intros j op' [_ Hj]%lookup_delete_Some. by apply (Hops j).
  - exists d. split; simpl; [done| | |done].
    + by rewrite answers_snoc, app_nil_r.
    + rewrite increments_snoc. change (increments [_]) with 0%nat. lia.
Qed.

Lemma counting_steps k c es0 es A A' d :
  I64_MIN <= c -> c + Z.of_nat (increments (es0 ++ es)) <= I64_MAX ->
  counting k c es0 A d -> (forall i op, EInvoke i op ∈ es -> counts k op) -> asteps effect A es A' ->
  exists d', counting k c (es0 ++ es) A' d'.
Proof.
  intros Hc HN HA Hop Hsteps. revert es0 d HN HA Hop.
  induction Hsteps as [A|A e A1 es A' Hstep _ IH]; intros es0 d HN HA Hop; [exists d; by rewrite app_nil_r|].
  rewrite cons_middle, (assoc_L (++)) in *. destruct (counting_step k c es0 A e A1 d) as [d1 H1]; [done| |done| |done|].
  - unfold increments in HN |- *. rewrite omap_app, length_app in HN. lia.
  - intros i op ->. apply (Hop i). left.
  - apply (IH _ d1); [done..|]. intros i op Hin. apply (Hop i). by right.
Qed.

Lemma counts_timeless k op : counts k op -> timeless op.
Proof. by intros [-> | ->]. Qed.

(** C6: No increment is lost. A key without a deadline holds the integer
    [c]; any number of clients call INCR and GET on it and their steps
    interleave in any order. When all calls have returned, the key holds
    [c] plus the number of INCR calls, and the answers to these calls are
    [c+1], [c+2], ... in some order, each given once; provided the total
    is in the range of [i64]. *)
Theorem increments_add_up {E : Env} {Sh : Shards} (HE : EnvOk E) (k : bytes) (c : Z) (sv : StoredValue) (w : World) (es : list (Event StoreOp OpResult)) (T : Threads OpResult) :
  plain (w_store w) -> data (w_store w) !! k = Some sv -> value sv = VInteger c ->
  I64_MIN <= c -> c + Z.of_nat (increments es) <= I64_MAX ->
  (forall i op, EInvoke i op ∈ es -> counts k op) -> tsteps prog (mkThreads w ∅) es T -> t_pool T = ∅ ->
  (value <$> data (w_store (t_world T)) !! k) = Some (VInteger (c + Z.of_nat (increments es))) /\
  answers es ≡ₚ seqZ (c + 1) (Z.of_nat (increments es)).
Proof.
  intros Hw Hk Hv Hc HN Hop Hsteps Hend.
  destruct (steps_follow prog effect timeless before_prog _ _ _ _ Hsteps (start_follows effect w Hw)) as (A & HA & [_ Hs HP]); [intros; by eapply counts_timeless, Hop|].
  destruct (counting_steps k c [] es (mkAtomic (contents (w_store w)) ∅) A 0) as [d [Hd Hans Hcalls _]]; [done|done| |done|done|].
  { split; simpl; [|done..]. rewrite contents_lookup, Hk. simpl. unfold see. rewrite Hv, (plain_lookup _ _ _ Hw Hk), Z.add_0_r. done. }
  assert (a_pool A = ∅) as HQ.
  { apply map_eq. intros i. specialize (HP i). rewrite Hend in HP. simpl in HP. rewrite lookup_empty in *. by destruct (a_pool A !! i). }
  rewrite HQ in Hans, Hcalls. simpl in Hans, Hcalls. rewrite Nat.add_0_r in Hcalls. rewrite app_nil_r in Hans. subst d. split; [|done].
  rewrite <- Hs, contents_lookup in Hd. destruct (data (w_store (t_world T)) !! k) as [sv'|]; [|done].
  exact (f_equal (option_map fst) Hd).
Qed.

(** Three clients on one counter. *)
Definition three_clients : list (Action StoreOp) :=
  [Call 1 (OIncrBy (b#"n") 1); Call 2 (OIncrBy (b#"n") 1); Call 3 (OGet (b#"n")); Go 2; Go 3; Go 1; Go 1; Go 2; Go 3].

Definition counter_world : World := mkWorld (mkMemoryStore {[ b#"n" := mkStoredValue (VInteger 40) 0 0 None (for_value (VInteger 40) 0) ]} ∅) 0 no_process.

Lemma increments_add_up_witness :
  match play (prog (E := env_ms) (Sh := two_shards)) three_clients (mkThreads counter_world ∅) with
  | Some (es, T) => increments es = 2%nat /\ answers es ≡ₚ [41; 42]
  | None => False
  end.
Proof.
  destruct (play prog three_clients (mkThreads counter_world ∅)) as [[es T]|] eqn:Hp; [|vm_compute in Hp; discriminate Hp].
  assert (increments es = 2%nat /\ t_pool T = ∅) as [Hn Hend].
  { assert ((fun r => match r with Some (es, T) => (increments es, bool_decide (t_pool T = ∅)) | None => (0%nat, false) end)
      (play (prog (E := env_ms) (Sh := two_shards)) three_clients (mkThreads counter_world ∅)) = (2%nat, true)) as H by (vm_compute; reflexivity).
    rewrite Hp in H. injection H as -> H. by apply bool_decide_eq_true in H. }
  split; [exact Hn|].
  destruct (increments_add_up (E := env_ms) (Sh := two_shards) env_ms_ok (b#"n") 40 (mkStoredValue (VInteger 40) 0 0 None (for_value (VInteger 40) 0))
    counter_world es T) as [_ H].
  - apply map_Forall_singleton. reflexivity.
  - reflexivity.
  - reflexivity.
  - vm_compute. discriminate.
  - rewrite Hn. vm_compute. discriminate.
  - eapply play_calls; [exact Hp|]. repeat (apply Forall_cons_2; [first [exact I | by left | by right]|]). by apply Forall_nil_2.
  - by apply (play_steps prog three_clients).
  - exact Hend.
  - rewrite Hn in H. exact H.
Defined.
