(* ===== verification/Races.v ===== *)
(** * What concurrent clients can lose

    Outside the conditions of [Linear] the store is not linearizable: a
    method that finds a key expired, or a field in a hash, releases the
    lock before it acts on what it saw, and does not look again; and
    FLUSHDB works through the shards one by one.  Every theorem here gives
    a run in which an acknowledged write disappears. *)

From S2P Require Import Prelude Numbers Utf8 Errors Values World MemoryStore StoreInv StoreSpec Steps StepThms Threads Schedules ThreadThms.

Section Races.
Context {E : Env} {Sh : Shards}.

Lemma overtaken_by op1 op2 p1 r1 r2 w w1 w2 w3 :
  psteps (prog op1) w p1 w1 -> exec op2 w1 = (Ret r2, w2) -> run p1 w2 = (Ret r1, w3) ->
  exists es, tsteps prog (mkThreads w ∅) es (mkThreads w3 ∅) /\
    visible es = [EInvoke 1 op1; EInvoke 2 op2; EReturn 2 r2; EReturn 1 r1].
Proof. intros H1 H2. rewrite <- run_op in H2. by apply (overtake prog op1 op2 p1 r1 r2 w w1 w2 w3). Qed.

(** The expired entry is seen and let go. *)
Lemma look_expired {A : Type} k (absent : A) live sv d s r p :
  data s !! k = Some sv -> expires_at sv = Some d -> d < mono r ->
  look k absent live (mkWorld s r p) = (Ret None, mkWorld s (S r) p).
Proof.
  intros Hk Hd Hr. unfold look. rewrite bind_run. unfold data_get, gets. simpl. rewrite Hk, bind_run. unfold is_expired. rewrite Hd.
  unfold now, mret, M_ret, mbind, M_bind. simpl. apply Z.ltb_lt in Hr. by rewrite Hr.
Qed.

(** Deletion, of a value without a deadline. *)
Lemma delete_run k w sv : data (w_store w) !! k = Some sv -> expires_at sv = None ->
  run (delete_p k) w =
    (Ret (Ok true), set_store w (mkMemoryStore (delete k (data (w_store w))) (delete k (expiration_index (w_store w))))).
Proof.
  intros Hk Hd. unfold delete_p. rewrite run_bind, bind_run, run_atomic. unfold found_expired. rewrite bind_run. unfold data_get, gets.
  cbv iota beta. rewrite Hk. unfold is_expired. rewrite Hd. unfold data_remove, index_remove. run_simpl. by rewrite Hk.
Qed.

Lemma get_overtaken s r p k sv d v :
  data s !! k = Some sv -> expires_at sv = Some d -> d < mono r ->
  exists es w', tsteps prog (mkThreads (mkWorld s r p) ∅) es (mkThreads w' ∅) /\
    visible es = [EInvoke 1 (OGet k); EInvoke 2 (OSet k v); EReturn 2 RUnit; EReturn 1 (RValue None)] /\
    data (w_store w') !! k = None.
Proof.
  intros Hk Hd Hr.
  edestruct (overtaken_by (OGet k) (OSet k v)) with (w := mkWorld s r p) as (es & Hes & Hv).
  - cbn [prog]. unfold get_p, look_p. eapply psteps_bind, psteps_atomic, look_expired; done.
  - reflexivity.
  - unfold ptry. rewrite run_bind, bind_run, run_bind, bind_run.
    erewrite delete_run; [|simpl; apply lookup_insert_eq|done]. reflexivity.
  - eexists es, _. split_and!; [exact Hes|exact Hv|]. simpl. apply lookup_delete_eq.
Qed.

Lemma incr_overtaken s r p k sv d n m :
  data s !! k = Some sv -> expires_at sv = Some d -> d < mono r ->
  exists es w', tsteps prog (mkThreads (mkWorld s r p) ∅) es (mkThreads w' ∅) /\
    visible es = [EInvoke 1 (OIncrBy k n); EInvoke 2 (OIncrBy k m); EReturn 2 (RInt m); EReturn 1 (RInt n)] /\
    (value <$> data (w_store w') !! k) = Some (VInteger n).
Proof.
  intros Hk Hd Hr.
  edestruct (overtaken_by (OIncrBy k n) (OIncrBy k m)) with (w := mkWorld s r p) as (es & Hes & Hv).
  - cbn [prog]. unfold incr_by_p. eapply psteps_bind, psteps_atomic. unfold incr_entry. rewrite bind_run. unfold data_get, gets. simpl.
    rewrite Hk, bind_run. unfold is_expired. rewrite Hd. unfold now, mret, M_ret, mbind, M_bind. simpl.
    apply Z.ltb_lt in Hr. rewrite Hr. reflexivity.
  - unfold exec, incr_by. run_simpl. rewrite lookup_delete_eq. simpl. reflexivity.
  - run_simpl. reflexivity.
  - eexists es, _. split_and!; [exact Hes|exact Hv|]. simpl. by rewrite lookup_insert_eq.
Qed.

(** HDEL up to the point where it acts on what it has seen. *)
Lemma hdel_looked k f w sv h :
  data (w_store w) !! k = Some sv -> expires_at sv = None -> value sv = VHash h -> is_Some (h !! f) ->
  psteps (hdel_p k f) w
    (_ ← (if bool_decide (size h = 1%nat) then _ ← atomic (data_remove k); atomic (index_remove k) else atomic (hdel_entry k f));
     mret (Ok true)) w.
Proof.
  intros Hk Hd Hv Hf. unfold hdel_p. eapply ps_act.
  { rewrite bind_run. unfold found_expired. rewrite bind_run. unfold data_get, gets. cbv iota beta. rewrite Hk.
    unfold is_expired. rewrite Hd. reflexivity. }
  eapply ps_act; [|constructor]. rewrite bind_run. unfold hdel_flags. rewrite bind_run. unfold data_get, gets. cbv iota beta.
  rewrite Hk, Hv, (bool_decide_eq_true_2 _ Hf), andb_true_r. reflexivity.
Qed.

Lemma hdel_hset_overtaken s r p k sv f x g y :
  data s !! k = Some sv -> expires_at sv = None -> value sv = VHash {[f := x]} -> f <> g ->
  exists es w', tsteps prog (mkThreads (mkWorld s r p) ∅) es (mkThreads w' ∅) /\
    visible es = [EInvoke 1 (OHdel k f); EInvoke 2 (OHset k g y); EReturn 2 (RBool true); EReturn 1 (RBool true)] /\
    data (w_store w') !! k = None.
Proof.
  intros Hk Hd Hv Hfg.
  edestruct (overtaken_by (OHdel k f) (OHset k g y)) with (w := mkWorld s r p) as (es & Hes & Hvis).
  - cbn [prog]. eapply psteps_bind, hdel_looked; [done..|]. by rewrite lookup_singleton_eq.
  - unfold exec, hset. run_simpl. rewrite Hk. simpl. unfold is_expired. rewrite Hd. simpl. rewrite Hk, Hv. simpl.
    rewrite bool_decide_eq_true_2 by (by rewrite lookup_singleton_ne). reflexivity.
  - rewrite map_size_singleton. run_simpl. reflexivity.
  - eexists es, _. split_and!; [exact Hes|exact Hvis|]. simpl. apply lookup_delete_eq.
Qed.

Lemma hdel_hdel_overtaken s r p k sv f x g y :
  data s !! k = Some sv -> expires_at sv = None -> value sv = VHash {[f := x; g := y]} -> f <> g ->
  exists es w', tsteps prog (mkThreads (mkWorld s r p) ∅) es (mkThreads w' ∅) /\
    visible es = [EInvoke 1 (OHdel k f); EInvoke 2 (OHdel k g); EReturn 2 (RBool true); EReturn 1 (RBool true)] /\
    (value <$> data (w_store w') !! k) = Some (VHash ∅).
Proof.
  intros Hk Hd Hv Hfg.
  assert (size ({[f := x; g := y]} : gmap bytes bytes) = 2%nat) as Hsize.
  { rewrite map_size_insert_None by (by rewrite lookup_singleton_ne). by rewrite map_size_singleton. }
  edestruct (overtaken_by (OHdel k f) (OHdel k g)) with (w := mkWorld s r p) as (es & Hes & Hvis).
  - cbn [prog]. eapply psteps_bind, hdel_looked; [done..|]. by rewrite lookup_insert_eq.
  - unfold exec, hdel. run_simpl. rewrite Hk. simpl. unfold is_expired. rewrite Hd. simpl. rewrite Hk, Hv. simpl.
    rewrite Hsize. simpl. rewrite bool_decide_eq_true_2 by (rewrite lookup_insert_ne by done; by rewrite lookup_singleton_eq). simpl.
    run_simpl. rewrite Hk, Hv. simpl. reflexivity.
  - rewrite Hsize. simpl. unfold hdel_entry. run_simpl. rewrite lookup_insert_eq. simpl. reflexivity.
  - eexists es, _. split_and!; [exact Hes|exact Hvis|]. simpl. rewrite lookup_insert_eq. simpl. do 2 f_equal.
    apply map_eq. intros j. rewrite lookup_empty. apply lookup_delete_None. destruct (decide (f = j)) as [|Hj]; [by left|right].
    apply lookup_delete_None. destruct (decide (g = j)) as [|Hj']; [by left|right]. rewrite lookup_insert_ne, lookup_singleton_ne by done. done.
Qed.

(** *** The sweeper *)
Lemma sweep_overtaken `{!EnvOk E} s r p k d v :
  expiration_index s !! k = Some d -> d <= mono r ->
  exists es w', tsteps prog (mkThreads (mkWorld s r p) ∅) es (mkThreads w' ∅) /\
    visible es = [EInvoke 1 OCleanup; EInvoke 2 (OSet k v); EReturn 2 RUnit; EReturn 1 RUnit] /\
    data (w_store w') !! k = None.
Proof.
  intros Hk Hd. pose proof (collect_due_run (S r) (mono r) (seq 0 shards) (mkWorld s (S (S r)) p)) as Hc. revert Hc.
  match goal with |- context [Ret ?l] => set (ks := l) end. intros Hc.
  assert (k ∈ ks) as Hin.
  { unfold ks. rewrite by_shard by apply NoDup_seq. apply list_elem_of_fmap. exists (k, d). split; [done|].
    apply list_elem_of_filter. split; [|rewrite hash_order_perm; by apply elem_of_map_to_list].
    split; [done|]. apply elem_of_seq. pose proof (index_shard_lt k). simpl. lia. }
  assert (exists w2, exec (OSet k v) (mkWorld s (S (S r)) p) = (Ret RUnit, w2)) as [w2 Ha] by by eexists.
  destruct (delete_all_run ks 0 w2) as (m & d' & x & Hrun & Hdata & _).
  edestruct (overtaken_by OCleanup (OSet k v)) with (w := mkWorld s r p) as (es & Hes & Hv).
  - cbn [prog]. unfold cleanup_expired_p. eapply psteps_bind. eapply psteps_trans; [by apply psteps_atomic|].
    eapply psteps_trans; [by apply psteps_atomic|]. eapply psteps_bind, psteps_run, Hc.
  - exact Ha.
  - rewrite run_bind, bind_run, run_bind, bind_run. cbn [Steps.run]. unfold mret at 1, M_ret at 1. rewrite run_delete_all, Hrun. reflexivity.
  - eexists es, _. split_and!; [exact Hes|exact Hv|]. simpl. by rewrite Hdata, decide_True.
Qed.

(** *** FLUSHDB *)

Lemma psteps_each (g : nat -> MemoryStore -> MemoryStore) l l' w :
  psteps (each (fun i => modify (g i)) (l ++ l')) w (each (fun i => modify (g i)) l')
    (set_store w (foldl (fun s i => g i s) (w_store w) l)).
Proof.
  revert w. induction l as [|i l IH]; intros w; cbn [app foldl]; [destruct w; constructor|].
  cbn [each]. eapply psteps_trans; [by apply psteps_atomic|]. apply IH.
Qed.

Lemma flush_overtaken s r p a b v x :
  (data_shard a < data_shard b)%nat ->
  exists es w', tsteps prog (mkThreads (mkWorld s r p) ∅) es (mkThreads w' ∅) /\
    visible es = [EInvoke 1 OClear; EInvoke 2 (OSet a v); EReturn 2 RUnit; EInvoke 2 (OSet b x); EReturn 2 RUnit; EReturn 1 RUnit] /\
    (value <$> data (w_store w') !! a) = Some v /\ data (w_store w') !! b = None.
Proof.
  intros Hab. set (n := S (data_shard a)). pose proof (data_shard_lt b) as Hb.
  assert (seq 0 shards = seq 0 n ++ seq n (shards - n)) as Hseq.
  { rewrite <- seq_app. f_equal. unfold n. lia. }
  set (w1 := set_store (mkWorld s r p) (foldl (fun s i => set_data s (filter (fun kv => data_shard kv.1 <> i) (data s))) s (seq 0 n))).
  destruct (exec (OSet a v) w1) as [ra w2] eqn:Ha. destruct (exec (OSet b x) w2) as [rb w3] eqn:Hx.
  injection Ha as <- Ha2. injection Hx as <- Hx2.
  set (rest := _ ← (_ ← each clear_data_shard (seq n (shards - n)); each clear_index_shard (seq 0 shards)); mret RUnit : Prog OpResult).
  destruct (meanwhile prog (OSet a v) rest RUnit w1 w2) as (es2 & Hes2 & Hv2); [rewrite run_op; by rewrite <- Ha2|].
  destruct (meanwhile prog (OSet b x) rest RUnit w2 w3) as (es3 & Hes3 & Hv3); [rewrite run_op; by rewrite <- Hx2|].
  edestruct (interrupted prog OClear rest RUnit (mkWorld s r p) w1 w3) as (es & Hes & Hv).
  - cbn [prog]. unfold rest, clear_p. rewrite Hseq at 1. apply psteps_bind, psteps_bind, psteps_each.
  - eapply tsteps_app; [exact Hes2|exact Hes3].
  - unfold rest, clear_data_shard, clear_index_shard.
    rewrite run_bind, bind_run, run_bind, bind_run, !run_each, clear_data_shards, clear_index_shards. reflexivity.
  - eexists es, _. split_and!; [exact Hes|by rewrite Hv, visible_app, Hv2, Hv3|..]; simpl.
    + erewrite map_lookup_filter_Some_2; [|rewrite <- Hx2, <- Ha2; simpl; rewrite lookup_insert_ne by (intros ->; lia); apply lookup_insert_eq|].
      * done.
      * simpl. rewrite elem_of_seq. unfold n. lia.
    + apply map_lookup_filter_None_2. right. intros sv _. simpl. rewrite elem_of_seq. unfold n. lia.
Qed.
End Races.

(** What operations done one after the other leave. *)
Definition in_turn (ops : list StoreOp) (a : AStore) : AStore := foldl (fun a op => (effect op a).2) a ops.

(** C7: The moment of expiry is not atomic. Whenever a key is past its
    deadline and has not been removed yet, (1) a GET of it can run together
    with a SET such that the SET is acknowledged, the GET answers nil, and
    the value just set is gone: the GET deletes the new value in the belief
    that it is the expired one; (2) two increments can run together such
    that both start from zero and one of them is lost; (3) the sweeper can
    remove a value that was set after it looked for expired keys. No third
    client and no failure is involved. *)
Theorem expiry_races {E : Env} {Sh : Shards} (HE : EnvOk E) (s : MemoryStore) (r : nat) (p : Process) (k : bytes) (sv : StoredValue) (d : Instant) (v : ValueType) (n m : Z) :
  data s !! k = Some sv -> expires_at sv = Some d -> expiration_index s !! k = Some d -> d < mono r ->
  (exists es w', tsteps prog (mkThreads (mkWorld s r p) ∅) es (mkThreads w' ∅) /\
     visible es = [EInvoke 1 (OGet k); EInvoke 2 (OSet k v); EReturn 2 RUnit; EReturn 1 (RValue None)] /\
     data (w_store w') !! k = None) /\
  (exists es w', tsteps prog (mkThreads (mkWorld s r p) ∅) es (mkThreads w' ∅) /\
     visible es = [EInvoke 1 (OIncrBy k n); EInvoke 2 (OIncrBy k m); EReturn 2 (RInt m); EReturn 1 (RInt n)] /\
     (value <$> data (w_store w') !! k) = Some (VInteger n)) /\
  (exists es w', tsteps prog (mkThreads (mkWorld s r p) ∅) es (mkThreads w' ∅) /\
     visible es = [EInvoke 1 OCleanup; EInvoke 2 (OSet k v); EReturn 2 RUnit; EReturn 1 RUnit] /\
     data (w_store w') !! k = None).
Proof.
  intros Hk Hd Hx Hr. split_and!; [by eapply get_overtaken|by eapply incr_overtaken|]. eapply sweep_overtaken; [exact Hx|lia].
Qed.

Definition expired_entry : StoredValue := mkStoredValue (VInteger 1) 0 0 (Some 5) (for_value (VInteger 1) 0).

Lemma expiry_races_witness :
  exists es w', tsteps (prog (E := env_ms) (Sh := two_shards)) (mkThreads (mkWorld (mkMemoryStore {[ b#"k" := expired_entry ]} {[ b#"k" := 5 ]}) 0 no_process) ∅) es (mkThreads w' ∅) /\
    visible es = [EInvoke 1 (OGet (b#"k")); EInvoke 2 (OSet (b#"k") (VString (b#"v"))); EReturn 2 RUnit; EReturn 1 (RValue None)] /\
    data (w_store w') !! b#"k" = None.
Proof.
  exact (proj1 (expiry_races (E := env_ms) (Sh := two_shards) env_ms_ok (mkMemoryStore {[ b#"k" := expired_entry ]} {[ b#"k" := 5 ]}) 0 no_process (b#"k")
    expired_entry 5 (VString (b#"v")) 1 1 eq_refl eq_refl eq_refl eq_refl)).
Defined.



(** C8: HDEL is not atomic. Without any deadline: (1) HDEL of the only field
    of a hash can run together with an HSET of another field such that both
    are acknowledged and the field just set is gone with the key; (2) two
    HDELs of the two fields of a hash can run together such that the key
    stays in the store with an empty hash. *)
Theorem hdel_races {E : Env} {Sh : Shards} (s : MemoryStore) (r : nat) (p : Process) (k : bytes) (sv : StoredValue) (f x g y : bytes) :
  data s !! k = Some sv -> expires_at sv = None -> f <> g ->
  (value sv = VHash {[f := x]} ->
   exists es w', tsteps prog (mkThreads (mkWorld s r p) ∅) es (mkThreads w' ∅) /\
     visible es = [EInvoke 1 (OHdel k f); EInvoke 2 (OHset k g y); EReturn 2 (RBool true); EReturn 1 (RBool true)] /\
     data (w_store w') !! k = None) /\
  (value sv = VHash {[f := x; g := y]} ->
   exists es w', tsteps prog (mkThreads (mkWorld s r p) ∅) es (mkThreads w' ∅) /\
     visible es = [EInvoke 1 (OHdel k f); EInvoke 2 (OHdel k g); EReturn 2 (RBool true); EReturn 1 (RBool true)] /\
     (value <$> data (w_store w') !! k) = Some (VHash ∅)).
Proof. intros Hk Hd Hfg. split; intros Hv; [by eapply hdel_hset_overtaken|by eapply hdel_hdel_overtaken]. Qed.

Definition hash_entry (h : gmap bytes bytes) : StoredValue := mkStoredValue (VHash h) 0 0 None (for_value (VHash h) 0).

Lemma hdel_races_witness :
  exists es w', tsteps (prog (E := env_ms) (Sh := two_shards)) (mkThreads (mkWorld (mkMemoryStore {[ b#"h" := hash_entry {[ b#"f" := b#"1" ]} ]} ∅) 0 no_process) ∅) es (mkThreads w' ∅) /\
    visible es = [EInvoke 1 (OHdel (b#"h") (b#"f")); EInvoke 2 (OHset (b#"h") (b#"g") (b#"2")); EReturn 2 (RBool true); EReturn 1 (RBool true)] /\
    data (w_store w') !! b#"h" = None.
Proof.
  exact (proj1 (hdel_races (E := env_ms) (Sh := two_shards) (mkMemoryStore {[ b#"h" := hash_entry {[ b#"f" := b#"1" ]} ]} ∅) 0 no_process (b#"h")
    (hash_entry {[ b#"f" := b#"1" ]}) (b#"f") (b#"1") (b#"g") (b#"2") eq_refl eq_refl ltac:(discriminate)) eq_refl).
Defined.
