(* ===== verification/Protocol.v ===== *)
(** * The RESP codec (src/src/network/protocol.rs)

    A [Cursor] over the receive buffer is the suffix of the buffer that
    has not been read; the position is the difference of the lengths.
    A parsing function returns [Ok None] when the data is incomplete, like
    the source. *)

From S2P Require Import Prelude Numbers Utf8 Errors Values World.

(** ** Values on the wire *)

(** [commands::ResponseValue], what the server sends. *)
Inductive ResponseValue : Type :=
| SimpleString (s : bytes)
| BulkString (b : option bytes)
| Integer (i : Z)
| Array (l : list ResponseValue)
| Nil.

Definition bulk (s : bytes) : ResponseValue := BulkString (Some s).
Definition nil_bulk : ResponseValue := BulkString None.

(** [protocol::RespValue], what the parser produces. *)
Inductive RespValue : Type :=
| RSimpleString (s : bytes)
| RBulkString (b : option bytes)
| RInteger (i : Z)
| RArray (l : list RespValue)
| RError (s : bytes).

(** [commands::registry::ParsedCommand]; the client id is a 128-bit UUID. *)
Record ParsedCommand : Type := mkParsedCommand {
  name : bytes;
  args : list bytes;
  client_id : N
}.

Record CodecLimits : Type := mkCodecLimits {
  max_bulk_size : Z;
  max_array_length : Z;
  max_buffer_size : Z
}.

Definition DEFAULT_MAX_BULK_SIZE : Z := 512 * 1024 * 1024.
Definition DEFAULT_MAX_ARRAY_LENGTH : Z := 1048576.
Definition DEFAULT_MAX_BUFFER_SIZE : Z := 64 * 1024 * 1024.

Definition default_limits : CodecLimits :=
  mkCodecLimits DEFAULT_MAX_BULK_SIZE DEFAULT_MAX_ARRAY_LENGTH DEFAULT_MAX_BUFFER_SIZE.

Record RespCodec : Type := mkRespCodec {
  buffer : bytes;
  limits : CodecLimits
}.

Definition with_limits (l : CodecLimits) : RespCodec := mkRespCodec [] l.
Definition new_codec : RespCodec := with_limits default_limits.
Definition buffered_len (c : RespCodec) : Z := zlen (buffer c).

Definition protocol_error (message : bytes) : RustyPotatoError := ProtocolError message None None.

(** ** Encoding *)
Definition BPLUS : byte := of_u8 43.
Definition BMINUS : byte := of_u8 45.
Definition BCOLON : byte := of_u8 58.
Definition BDOLLAR : byte := of_u8 36.
Definition BSTAR : byte := of_u8 42.

(** [encode_value] appends to the buffer; this is what it appends. *)
Fixpoint encode_value (v : ResponseValue) : bytes :=
  match v with
  | SimpleString s => BPLUS :: s ++ CRLF
  | BulkString (Some s) => BDOLLAR :: dec (zlen s) ++ CRLF ++ s ++ CRLF
  | BulkString None | Nil => b#"$-1" ++ CRLF
  | Integer i => BCOLON :: dec i ++ CRLF
  | Array arr => BSTAR :: dec (zlen arr) ++ CRLF ++ concat (map encode_value arr)
  end.

(** [RespCodec::encode]: the buffer is scratch space, empty on exit. *)
Definition encode (c : RespCodec) (v : ResponseValue) : Result bytes * RespCodec :=
  let c1 := mkRespCodec [] (limits c) in
  let c2 := mkRespCodec (buffer c1 ++ encode_value v) (limits c) in
  (Ok (buffer c2), mkRespCodec [] (limits c)).

Definition encode_error (message : bytes) : bytes := BMINUS :: message ++ CRLF.

(** ** Parsing *)

(** The first line of [s] and what follows its terminator. *)
Fixpoint split_crlf (s : bytes) : option (bytes * bytes) :=
  match s with
  | [] => None
  | c :: s' =>
      match s' with
      | d :: rest =>
          if byte_eqb c CR && byte_eqb d LF then Some ([], rest)
          else '(line, r) ← split_crlf s'; Some (c :: line, r)
      | [] => None
      end
  end.

(** A parser's answer: a value and the unread rest, or more data needed. *)
Definition Parsed (A : Type) : Type := Result (option (A * bytes)).

Definition read_line (cur : bytes) : Parsed bytes :=
  match split_crlf cur with
  | None => Ok None
  | Some (line_data, rest) =>
      match from_utf8 line_data with
      | Some line => Ok (Some (line, rest))
      | None => Err (protocol_error (b#"Invalid UTF-8 in line"))
      end
  end.

(** Continue with the line, if there is one. *)
Definition with_line {A} (cur : bytes) (k : bytes -> bytes -> Parsed A) : Parsed A :=
  match read_line cur with
  | Ok (Some (line, rest)) => k line rest
  | Ok None => Ok None
  | Err e => Err e
  end.

Definition parse_simple_string (cur : bytes) : Parsed RespValue :=
  with_line cur (fun line rest => Ok (Some (RSimpleString line, rest))).

Definition parse_error (cur : bytes) : Parsed RespValue :=
  with_line cur (fun line rest => Ok (Some (RError line, rest))).

Definition parse_integer (cur : bytes) : Parsed RespValue :=
  with_line cur (fun line rest =>
    match parse_i64 line with
    | Some value => Ok (Some (RInteger value, rest))
    | None => Err (protocol_error (b#"Invalid integer: " ++ line))
    end).

Definition parse_bulk_string (lim : CodecLimits) (cur : bytes) : Parsed RespValue :=
  with_line cur (fun length_str rest =>
    match parse_i32 length_str with
    | None => Err (protocol_error (b#"Invalid bulk string length: " ++ length_str))
    | Some len =>
        if len =? -1 then Ok (Some (RBulkString None, rest))
        else if len <? 0 then Err (protocol_error (b#"Invalid bulk string length: " ++ dec len))
        else if max_bulk_size lim <? len then
          Err (protocol_error (b#"bulk string length " ++ dec len ++ b#" exceeds max "
                 ++ dec (max_bulk_size lim)))
        else if zlen rest <? len + 2 then Ok None
        else
          let payload := take (Z.to_nat len) rest in
          match drop (Z.to_nat len) rest with
          | c :: d :: rest' =>
              if byte_eqb c CR && byte_eqb d LF then Ok (Some (RBulkString (Some payload), rest'))
              else Err (protocol_error (b#"Missing \r\n terminator for bulk string"))
          | _ => Err (protocol_error (b#"Missing \r\n terminator for bulk string"))
          end
    end).

(** The element loop of [parse_array]. *)
Fixpoint parse_elements (p : bytes -> Parsed RespValue) (n : nat) (cur : bytes) :
    Parsed (list RespValue) :=
  match n with
  | O => Ok (Some ([], cur))
  | S n' =>
      match p cur with
      | Ok (Some (v, rest)) =>
          match parse_elements p n' rest with
          | Ok (Some (vs, rest')) => Ok (Some (v :: vs, rest'))
          | Ok None => Ok None
          | Err e => Err e
          end
      | Ok None => Ok None
      | Err e => Err e
      end
  end.

Definition parse_array (lim : CodecLimits) (p : bytes -> Parsed RespValue) (cur : bytes) :
    Parsed RespValue :=
  with_line cur (fun length_str rest =>
    match parse_i32 length_str with
    | None => Err (protocol_error (b#"Invalid array length: " ++ length_str))
    | Some len =>
        if len =? -1 then Ok (Some (RArray [], rest))
        else if len <? 0 then Err (protocol_error (b#"Invalid array length: " ++ dec len))
        else if max_array_length lim <? len then
          Err (protocol_error (b#"array length " ++ dec len ++ b#" exceeds max "
                 ++ dec (max_array_length lim)))
        else
          match parse_elements p (Z.to_nat len) rest with
          | Ok (Some (elements, rest')) => Ok (Some (RArray elements, rest'))
          | Ok None => Ok None
          | Err e => Err e
          end
    end).

(** [u8 as char] rendered: octets above 127 are two-octet characters. *)
Definition char_of_u8 (c : byte) : bytes :=
  if u8 c <? 128 then [c] else [of_u8 (192 + u8 c / 64); of_u8 (128 + u8 c mod 64)].

(** The nesting of arrays is bounded by the fuel; [parse_fuel_enough] in
    the theorems shows that the length of the input is enough. *)
Fixpoint parse_resp_value (lim : CodecLimits) (fuel : nat) (cur : bytes) : Parsed RespValue :=
  match fuel with
  | O => Ok None
  | S f =>
      match cur with
      | [] => Ok None
      | type_byte :: rest =>
          if byte_eqb type_byte BPLUS then parse_simple_string rest
          else if byte_eqb type_byte BMINUS then parse_error rest
          else if byte_eqb type_byte BCOLON then parse_integer rest
          else if byte_eqb type_byte BDOLLAR then parse_bulk_string lim rest
          else if byte_eqb type_byte BSTAR then parse_array lim (parse_resp_value lim f) rest
          else Err (protocol_error (b#"Unknown RESP type: " ++ char_of_u8 type_byte))
      end
  end.

(** Parse one value at the head of the whole buffer. *)
Definition parse (lim : CodecLimits) (buf : bytes) : Parsed RespValue :=
  parse_resp_value lim (length buf) buf.

(** ** Decoding *)
Section Decode.
Context {E : Env}.

(** The argument loop: every element must be a string. *)
Fixpoint command_args (elements : list RespValue) : Result (list bytes) :=
  match elements with
  | [] => Ok []
  | element :: es =>
      match element with
      | RBulkString (Some b) => rest ← command_args es; Ok (b :: rest)
      | RSimpleString s => rest ← command_args es; Ok (s :: rest)
      | _ => Err (protocol_error (b#"Command arguments must be strings"))
      end
  end.

(** From the parsed array to the command. *)
Definition command_of (elements : list RespValue) : Result ParsedCommand :=
  args ← command_args elements;
  match args with
  | [] => Err (protocol_error (b#"Empty command array"))
  | name_bytes :: rest =>
      match from_utf8 name_bytes with
      | Some s => Ok (mkParsedCommand (to_uppercase upper_table s) rest 0)
      | None => Err (protocol_error (b#"Invalid UTF-8 in command name"))
      end
  end.

Definition try_parse_command_with_frame (c : RespCodec) :
    Result (option (ParsedCommand * bytes)) * RespCodec :=
  match buffer c with
  | [] => (Ok None, c)
  | _ =>
      match parse (limits c) (buffer c) with
      | Err e => (Err e, c)
      | Ok None => (Ok None, c)
      | Ok (Some (RArray elements, rest)) =>
          let consumed := (length (buffer c) - length rest)%nat in
          match command_of elements with
          | Err e => (Err e, c)
          | Ok cmd =>
              (Ok (Some (cmd, take consumed (buffer c))),
               mkRespCodec (drop consumed (buffer c)) (limits c))
          end
      | Ok (Some _) => (Err (protocol_error (b#"Expected array for command")), c)
      end
  end.

(** [usize::saturating_add] of the two lengths. *)
Definition overfull (c : RespCodec) (new : bytes) : bool :=
  max_buffer_size (limits c) <? Z.min U64_MAX (zlen (buffer c) + zlen new).

Definition overflow_error (c : RespCodec) : RustyPotatoError :=
  protocol_error (b#"buffer overflow (>" ++ dec (max_buffer_size (limits c))
                    ++ b#" bytes); closing connection").

Definition extend (c : RespCodec) (new : bytes) : RespCodec :=
  mkRespCodec (buffer c ++ new) (limits c).

Definition decode_with_frame (c : RespCodec) (new : bytes) :
    Result (option (ParsedCommand * bytes)) * RespCodec :=
  if overfull c new then (Err (overflow_error c), c)
  else try_parse_command_with_frame (extend c new).

Definition decode (c : RespCodec) (new : bytes) : Result (option ParsedCommand) * RespCodec :=
  let '(r, c') := decode_with_frame c new in (fmap (M := option) fst <$> r, c').

End Decode.

Definition decode_resp_value (c : RespCodec) (new : bytes) : Result (option RespValue) * RespCodec :=
  if overfull c new then (Err (overflow_error c), c)
  else
    let c1 := extend c new in
    match buffer c1 with
    | [] => (Ok None, c1)
    | _ =>
        match parse (limits c1) (buffer c1) with
        | Err e => (Err e, c1)
        | Ok None => (Ok None, c1)
        | Ok (Some (value, rest)) =>
            let consumed := (length (buffer c1) - length rest)%nat in
            (Ok (Some value), mkRespCodec (drop consumed (buffer c1)) (limits c1))
        end
    end.

(** ** The command-line client's side (src/src/cli/client.rs) *)

(** A command goes out as an array of bulk strings. *)
Definition encode_command_array (c : RespCodec) (parts : list bytes) : Result bytes * RespCodec :=
  encode c (Array (map bulk parts)).

Fixpoint convert_resp_to_response (v : RespValue) : ResponseValue :=
  match v with
  | RSimpleString s => SimpleString s
  | RBulkString s => BulkString s
  | RInteger i => Integer i
  | RArray arr => Array (map convert_resp_to_response arr)
  | RError msg => SimpleString (b#"ERR " ++ msg)
  end.

Example parse_set :
  decode (E := env_ms) new_codec (b#"*2" ++ CRLF ++ b#"$3" ++ CRLF ++ b#"get" ++ CRLF ++ b#"$1" ++ CRLF ++ b#"k" ++ CRLF)
  = (Ok (Some (mkParsedCommand (b#"GET") [b#"k"] 0)), new_codec).
Proof. vm_compute. reflexivity. Qed.
