(* ===== verification/ProtocolLemmas.v ===== *)
(** * Lemmas about the RESP parser

    Three facts about every parsing function, proved once for the line
    reader and the combinators and then lifted through the recursion:
    a value uses up a non-empty prefix of its input ([consumes]), an answer
    does not depend on what follows the data it was read from ([stable]),
    and more fuel never changes an answer ([below]). *)

From S2P Require Import Prelude Numbers Utf8 Errors Values World Protocol.

(** ** Induction principles for the nested types *)
Section ResponseInd.
Variable P : ResponseValue -> Prop.
Hypothesis HS : forall s, P (SimpleString s).
Hypothesis HB : forall b, P (BulkString b).
Hypothesis HI : forall i, P (Integer i).
Hypothesis HA : forall l, Forall P l -> P (Array l).
Hypothesis HN : P Nil.

Fixpoint ResponseValue_nested_ind (v : ResponseValue) : P v :=
  match v with
  | SimpleString s => HS s
  | BulkString b => HB b
  | Integer i => HI i
  | Array l =>
      HA l ((fix go (l : list ResponseValue) : Forall P l :=
               match l with
               | [] => List.Forall_nil _
               | x :: l' => List.Forall_cons _ _ _ (ResponseValue_nested_ind x) (go l')
               end) l)
  | Nil => HN
  end.
End ResponseInd.

Section RespInd.
Variable P : RespValue -> Prop.
Hypothesis HS : forall s, P (RSimpleString s).
Hypothesis HB : forall b, P (RBulkString b).
Hypothesis HI : forall i, P (RInteger i).
Hypothesis HA : forall l, Forall P l -> P (RArray l).
Hypothesis HE : forall s, P (RError s).

Fixpoint RespValue_nested_ind (v : RespValue) : P v :=
  match v with
  | RSimpleString s => HS s
  | RBulkString b => HB b
  | RInteger i => HI i
  | RArray l =>
      HA l ((fix go (l : list RespValue) : Forall P l :=
               match l with
               | [] => List.Forall_nil _
               | x :: l' => List.Forall_cons _ _ _ (RespValue_nested_ind x) (go l')
               end) l)
  | RError s => HE s
  end.
End RespInd.

(** ** Lines *)

(** No terminator inside. *)
Definition no_crlf (s : bytes) : Prop := split_crlf s = None.

Lemma split_crlf_cons c d s :
  split_crlf (c :: d :: s) =
    if byte_eqb c CR && byte_eqb d LF then Some ([], s)
    else '(line, r) ← split_crlf (d :: s); Some (c :: line, r).
Proof. reflexivity. Qed.

Lemma split_crlf_app s line rest x :
  split_crlf s = Some (line, rest) -> split_crlf (s ++ x) = Some (line, rest ++ x).
Proof.
  revert line rest. induction s as [|c s IH]; intros line rest; [done|].
  destruct s as [|d s]; [done|]. cbn [app]. rewrite !split_crlf_cons.
  destruct (byte_eqb c CR && byte_eqb d LF); [by intros [= <- <-]|].
  intros ([l r] & H & [= <- <-])%bind_Some. specialize (IH l r H). cbn [app] in IH. by rewrite IH.
Qed.

Lemma split_crlf_eq s line rest : split_crlf s = Some (line, rest) -> s = line ++ CRLF ++ rest.
Proof.
  revert line rest. induction s as [|c s IH]; intros line rest; [done|].
  destruct s as [|d s]; [done|]. rewrite split_crlf_cons.
  destruct (byte_eqb_spec c CR) as [->|]; [destruct (byte_eqb_spec d LF) as [->|]|]; simpl.
  - by intros [= <- <-].
  - intros ([l r] & H & [= <- <-])%bind_Some. simpl. by rewrite (IH _ _ H).
  - intros ([l r] & H & [= <- <-])%bind_Some. simpl. by rewrite (IH _ _ H).
Qed.

(** A line without [CR] is found whole. *)
Lemma split_crlf_line s rest : CR ∉ s -> split_crlf (s ++ CRLF ++ rest) = Some (s, rest).
Proof.
  induction s as [|c s IH]; intros Hs; [done|].
  rewrite not_elem_of_cons in Hs. destruct Hs as [Hc Hs]. specialize (IH Hs).
  cbn [app]. destruct (s ++ CRLF ++ rest) as [|d t] eqn:E; [by destruct s|].
  rewrite split_crlf_cons. destruct (byte_eqb_spec c CR); [by subst|].
  cbn [andb]. by rewrite IH.
Qed.

(** ** The three facts *)
Definition consumes {A} (p : bytes -> Parsed A) : Prop :=
  forall cur v rest, p cur = Ok (Some (v, rest)) -> exists pre, cur = pre ++ rest /\ pre <> [].

Definition stable {A} (p : bytes -> Parsed A) : Prop :=
  forall cur x,
    (forall v rest, p cur = Ok (Some (v, rest)) -> p (cur ++ x) = Ok (Some (v, rest ++ x))) /\
    (forall e, p cur = Err e -> p (cur ++ x) = Err e).

Definition below {A} (p q : bytes -> Parsed A) : Prop :=
  forall cur, p cur <> Ok None -> q cur = p cur.

Lemma read_line_app cur line rest x :
  read_line cur = Ok (Some (line, rest)) -> read_line (cur ++ x) = Ok (Some (line, rest ++ x)).
Proof.
  unfold read_line. destruct (split_crlf cur) as [[l r]|] eqn:E; [|done].
  rewrite (split_crlf_app _ _ _ x E). repeat case_match; naive_solver.
Qed.

Lemma read_line_eq cur line rest :
  read_line cur = Ok (Some (line, rest)) -> cur = line ++ CRLF ++ rest /\ utf8_valid line = true.
Proof.
  unfold read_line. destruct (split_crlf cur) as [[l r]|] eqn:E; [|done].
  apply split_crlf_eq in E. destruct (from_utf8 l) as [l'|] eqn:F; [|done].
  apply from_utf8_Some in F as [-> F]. by intros [= <- <-].
Qed.

Lemma read_line_err cur e x : read_line cur = Err e -> read_line (cur ++ x) = Err e.
Proof.
  unfold read_line. destruct (split_crlf cur) as [[l r]|] eqn:E; [|done].
  rewrite (split_crlf_app _ _ _ x E). repeat case_match; naive_solver.
Qed.

Lemma read_line_enc line rest :
  CR ∉ line -> utf8_valid line = true -> read_line (line ++ CRLF ++ rest) = Ok (Some (line, rest)).
Proof. intros H1 H2. unfold read_line, from_utf8. by rewrite split_crlf_line, H2. Qed.

Section WithLine.
Context {A : Type}.

Lemma with_line_consumes (k : bytes -> bytes -> Parsed A) :
  (forall line rest v r, k line rest = Ok (Some (v, r)) -> exists pre, rest = pre ++ r) ->
  consumes (fun cur => with_line cur k).
Proof.
  intros Hk cur v r. unfold with_line. destruct (read_line cur) as [[[line rest]|]|] eqn:E; try done.
  intros H. apply read_line_eq in E as [-> _]. destruct (Hk _ _ _ _ H) as [pre ->].
  exists (line ++ CRLF ++ pre). split; [by rewrite <- !app_assoc|]. by destruct line.
Qed.

Lemma with_line_stable (k : bytes -> bytes -> Parsed A) :
  (forall line rest x,
     (forall v r, k line rest = Ok (Some (v, r)) -> k line (rest ++ x) = Ok (Some (v, r ++ x))) /\
     (forall e, k line rest = Err e -> k line (rest ++ x) = Err e)) ->
  stable (fun cur => with_line cur k).
Proof.
  intros Hk cur x. unfold with_line. destruct (read_line cur) as [[[line rest]|]|e] eqn:E; [|done|].
  - rewrite (read_line_app _ _ _ x E). destruct (Hk line rest x). done.
  - rewrite (read_line_err _ _ x E). done.
Qed.

End WithLine.

(** ** Bulk strings *)
Lemma parse_bulk_consumes lim : consumes (parse_bulk_string lim).
Proof.
  apply with_line_consumes. intros line rest v r H.
  destruct (parse_i32 line) as [n|]; [|done].
  destruct (n =? -1); [simplify_eq; by exists []|].
  destruct (n <? 0); [done|]. destruct (max_bulk_size lim <? n); [done|].
  destruct (zlen rest <? n + 2); [done|].
  destruct (drop (Z.to_nat n) rest) as [|c [|d r']] eqn:E; try done.
  destruct (byte_eqb c CR && byte_eqb d LF); simplify_eq/=.
  exists (take (Z.to_nat n) rest ++ [c; d]). rewrite <- app_assoc. simpl.
  by rewrite <- E, take_drop.
Qed.

Lemma parse_bulk_stable lim : stable (parse_bulk_string lim).
Proof.
  apply with_line_stable. intros line rest x.
  destruct (parse_i32 line) as [n|]; [|naive_solver].
  destruct (Z.eqb_spec n (-1)); [naive_solver|].
  destruct (Z.ltb_spec n 0); [naive_solver|].
  destruct (max_bulk_size lim <? n); [naive_solver|].
  unfold zlen. rewrite length_app.
  destruct (Z.ltb_spec (Z.of_nat (length rest)) (n + 2)); [naive_solver|].
  destruct (Z.ltb_spec (Z.of_nat (length rest + length x)) (n + 2)); [lia|].
  rewrite drop_app_le, take_app_le by lia.
  destruct (drop (Z.to_nat n) rest) as [|c [|d r]] eqn:E;
    try (apply (f_equal length) in E; rewrite length_drop in E; simpl in E; lia).
  simpl. destruct (byte_eqb c CR && byte_eqb d LF); naive_solver.
Qed.

(** ** Arrays *)
Lemma parse_elements_consumes p n cur vs rest :
  consumes p -> parse_elements p n cur = Ok (Some (vs, rest)) ->
  exists pre, cur = pre ++ rest /\ (n <= length pre)%nat /\ length vs = n.
Proof.
  intros Hp. revert cur vs rest. induction n as [|n IH]; intros cur vs rest; simpl.
  { intros [= <- <-]. by exists []. }
  destruct (p cur) as [[[v r]|]|] eqn:E; try done.
  destruct (parse_elements p n r) as [[[vs' r']|]|] eqn:E2; try done. intros [= <- <-].
  destruct (Hp _ _ _ E) as (pre & -> & Hne). destruct (IH _ _ _ E2) as (pre' & -> & Hl & <-).
  exists (pre ++ pre'). rewrite <- app_assoc, length_app. destruct pre; simpl in *; [done|].
  repeat split; lia.
Qed.

Lemma parse_elements_stable p n : stable p -> stable (parse_elements p n).
Proof.
  intros Hp. induction n as [|n IH]; intros cur x; simpl; [naive_solver|].
  destruct (Hp cur x) as [H1 H2]. destruct (p cur) as [[[v r]|]|e].
  - rewrite (H1 _ _ eq_refl). destruct (IH r x) as [H3 H4].
    destruct (parse_elements p n r) as [[[vs r']|]|e].
    + rewrite (H3 _ _ eq_refl). naive_solver.
    + naive_solver.
    + rewrite (H4 _ eq_refl). naive_solver.
  - naive_solver.
  - rewrite (H2 _ eq_refl). naive_solver.
Qed.

Lemma parse_elements_below p q n : below p q -> below (parse_elements p n) (parse_elements q n).
Proof.
  intros Hp. induction n as [|n IH]; intros cur; simpl; [done|].
  pose proof (Hp cur) as H. destruct (p cur) as [[[v r]|]|e]; [|done|].
  - rewrite H by done. pose proof (IH r) as H2.
    destruct (parse_elements p n r) as [[[vs r']|]|e]; [|done|]; by rewrite H2.
  - by rewrite H.
Qed.

Lemma parse_array_consumes lim p : consumes p -> consumes (parse_array lim p).
Proof.
  intros Hp. apply with_line_consumes. intros line rest v r H.
  repeat case_match; simplify_eq; try (by exists []).
  match goal with H : parse_elements _ _ _ = _ |- _ =>
    apply parse_elements_consumes in H as (pre & -> & _); [by exists pre|done] end.
Qed.

Lemma parse_array_stable lim p : stable p -> stable (parse_array lim p).
Proof.
  intros Hp. apply with_line_stable. intros line rest x.
  destruct (parse_i32 line) as [n|]; [|naive_solver].
  destruct (n =? -1); [naive_solver|]. destruct (n <? 0); [naive_solver|].
  destruct (max_array_length lim <? n); [naive_solver|].
  destruct (parse_elements_stable p (Z.to_nat n) Hp rest x) as [H1 H2].
  destruct (parse_elements p (Z.to_nat n) rest) as [[[vs r]|]|e].
  - rewrite (H1 _ _ eq_refl). naive_solver.
  - naive_solver.
  - rewrite (H2 _ eq_refl). naive_solver.
Qed.

Lemma parse_array_below lim p q : below p q -> below (parse_array lim p) (parse_array lim q).
Proof.
  intros Hp cur. unfold parse_array, with_line.
  destruct (read_line cur) as [[[line rest]|]|]; try done.
  destruct (parse_i32 line) as [n|]; [|done].
  destruct (n =? -1); [done|]. destruct (n <? 0); [done|].
  destruct (max_array_length lim <? n); [done|].
  pose proof (parse_elements_below p q (Z.to_nat n) Hp rest) as H.
  destruct (parse_elements p (Z.to_nat n) rest) as [[[vs r]|]|e]; try done; by rewrite H.
Qed.

(** ** The whole parser *)
Lemma simple_consumes : consumes parse_simple_string.
Proof. apply with_line_consumes. intros ???? [= _ <-]. by exists []. Qed.
Lemma error_consumes : consumes parse_error.
Proof. apply with_line_consumes. intros ???? [= _ <-]. by exists []. Qed.
Lemma integer_consumes : consumes parse_integer.
Proof. apply with_line_consumes. intros ???? H. case_match; simplify_eq. by exists []. Qed.
Lemma simple_stable : stable parse_simple_string.
Proof. apply with_line_stable. naive_solver. Qed.
Lemma error_stable : stable parse_error.
Proof. apply with_line_stable. naive_solver. Qed.
Lemma integer_stable : stable parse_integer.
Proof. apply with_line_stable. intros line rest x. case_match; naive_solver. Qed.

#[export] Hint Resolve simple_consumes error_consumes integer_consumes parse_bulk_consumes
  parse_array_consumes simple_stable error_stable integer_stable parse_bulk_stable
  parse_array_stable : potato.

Lemma parse_consumes lim f : consumes (parse_resp_value lim f).
Proof.
  induction f as [|f IH]; intros [|c cur] v rest; try done. cbn [parse_resp_value].
  assert (forall p, consumes p -> p cur = Ok (Some (v, rest)) ->
    exists pre, c :: cur = pre ++ rest /\ pre <> []) as Hc.
  { intros p Hp H. destruct (Hp _ _ _ H) as (pre & -> & _). by exists (c :: pre). }
  repeat case_match; try done; apply Hc; auto with potato.
Qed.

Lemma parse_stable lim f : stable (parse_resp_value lim f).
Proof.
  induction f as [|f IH]; intros [|c cur] x; try done. simpl app. cbn [parse_resp_value].
  repeat case_match; try naive_solver;
    first [ apply simple_stable | apply error_stable | apply integer_stable
          | apply parse_bulk_stable | by apply parse_array_stable ].
Qed.

Lemma parse_below_S lim f : below (parse_resp_value lim f) (parse_resp_value lim (S f)).
Proof.
  induction f as [|f IH]; intros [|c cur]; try done.
  change (parse_resp_value lim (S f) (c :: cur) <> Ok None ->
          parse_resp_value lim (S (S f)) (c :: cur) = parse_resp_value lim (S f) (c :: cur)).
  cbn [parse_resp_value]. repeat case_match; try done. by apply parse_array_below.
Qed.

Lemma parse_below lim f g : (f <= g)%nat -> below (parse_resp_value lim f) (parse_resp_value lim g).
Proof.
  induction 1 as [|g _ IH]; intros cur Hn; [done|].
  rewrite parse_below_S; rewrite IH; done.
Qed.

(** Two parsers that agree on inputs no longer than [n] give the same
    elements on such inputs. *)
Lemma parse_elements_ext p q n cur :
  consumes p -> (forall x, (length x <= length cur)%nat -> p x = q x) ->
  parse_elements p n cur = parse_elements q n cur.
Proof.
  intros Hp. revert cur. induction n as [|n IH]; intros cur Heq; simpl; [done|].
  rewrite <- Heq by done. destruct (p cur) as [[[v r]|]|] eqn:E; try done.
  destruct (Hp _ _ _ E) as (pre & -> & _). rewrite IH; [done|].
  intros x Hx. apply Heq. rewrite length_app. lia.
Qed.

(** The length of the input is enough fuel. *)
Lemma parse_fuel_enough lim cur f g :
  (length cur <= f)%nat -> (length cur <= g)%nat ->
  parse_resp_value lim f cur = parse_resp_value lim g cur.
Proof.
  revert cur g. induction f as [|f IH]; intros [|c cur] [|g] Hf Hg; simpl in *; try done; try lia.
  repeat case_match; try done.
  unfold parse_array, with_line. destruct (read_line cur) as [[[line rest]|]|] eqn:E; try done.
  apply read_line_eq in E as [-> _]. rewrite !length_app in *.
  repeat case_match; try done; simplify_eq;
    match goal with
    | H : parse_elements (parse_resp_value _ f) ?n _ = _, H2 : parse_elements (parse_resp_value _ g) ?n _ = _ |- _ =>
        rewrite (parse_elements_ext _ (parse_resp_value lim g)) in H;
          [congruence|apply parse_consumes|intros y Hy; apply IH; lia]
    end.
Qed.

Lemma parse_fuel lim buf f : (length buf <= f)%nat -> parse_resp_value lim f buf = parse lim buf.
Proof. intros H. by apply parse_fuel_enough. Qed.

(** An answer read from a buffer is the answer for every longer buffer. *)
Lemma parse_app_Some lim buf v rest x :
  parse lim buf = Ok (Some (v, rest)) -> parse lim (buf ++ x) = Ok (Some (v, rest ++ x)).
Proof.
  intros H. unfold parse in *. destruct (parse_stable lim (length buf) buf x) as [Hs _].
  rewrite (parse_below lim (length buf)); [by apply Hs|rewrite length_app; lia|].
  by rewrite (Hs _ _ H).
Qed.

Lemma parse_app_Err lim buf e x : parse lim buf = Err e -> parse lim (buf ++ x) = Err e.
Proof.
  intros H. unfold parse in *. destruct (parse_stable lim (length buf) buf x) as [_ Hs].
  rewrite (parse_below lim (length buf)); [by apply Hs|rewrite length_app; lia|].
  by rewrite (Hs _ H).
Qed.

Lemma parse_suffix lim buf v rest :
  parse lim buf = Ok (Some (v, rest)) -> exists pre, buf = pre ++ rest /\ pre <> [].
Proof. apply parse_consumes. Qed.

(** ** Locality: the value depends only on the octets it uses up *)
Definition local {A} (p : bytes -> Parsed A) : Prop :=
  forall cur v rest, p cur = Ok (Some (v, rest)) ->
    exists pre, cur = pre ++ rest /\ forall rest', p (pre ++ rest') = Ok (Some (v, rest')).

Lemma split_crlf_local s line rest rest' :
  split_crlf s = Some (line, rest) -> split_crlf (line ++ CRLF ++ rest') = Some (line, rest').
Proof.
  revert line rest. induction s as [|c s IH]; intros line rest; [done|].
  destruct s as [|d s]; [done|]. rewrite split_crlf_cons.
  destruct (byte_eqb c CR && byte_eqb d LF) eqn:Hcd; [by intros [= <- <-]|].
  intros ([l r] & H & [= <- <-])%bind_Some. specialize (IH l r H).
  cbn [app]. destruct (l ++ CRLF ++ rest') as [|d' t] eqn:E; [by destruct l|].
  rewrite split_crlf_cons, IH. apply split_crlf_eq in H.
  assert (d' = d) as ->; [|by rewrite Hcd].
  destruct l; simpl in *; congruence.
Qed.

Lemma read_line_local : local read_line.
Proof.
  intros cur line rest. unfold read_line.
  destruct (split_crlf cur) as [[l r]|] eqn:E; [|done].
  destruct (from_utf8 l) as [l'|] eqn:F; [|done]. intros [= -> ->].
  pose proof (proj1 (from_utf8_Some _ _) F) as [<- _].
  exists (line ++ CRLF). split; [by rewrite <- app_assoc; apply split_crlf_eq|].
  intros rest'. by rewrite <- app_assoc, (split_crlf_local _ _ _ _ E), F.
Qed.

Lemma with_line_local {A} (k : bytes -> bytes -> Parsed A) :
  (forall line, local (k line)) -> local (fun cur => with_line cur k).
Proof.
  intros Hk cur v r. unfold with_line. destruct (read_line cur) as [[[line rest]|]|] eqn:E; try done.
  intros H. destruct (read_line_local _ _ _ E) as (pre & -> & Hl).
  destruct (Hk _ _ _ _ H) as (pre' & -> & Hp). exists (pre ++ pre').
  split; [by rewrite <- app_assoc|]. intros rest'. by rewrite <- app_assoc, Hl, Hp.
Qed.

Lemma local_ret {A} (v : A) : local (fun rest => Ok (Some (v, rest))).
Proof. intros cur ? ? [= <- <-]. by exists []. Qed.
Lemma local_err {A} e : local (A := A) (fun _ => Err e).
Proof. done. Qed.

Lemma parse_elements_local p n : local p -> local (parse_elements p n).
Proof.
  intros Hp. induction n as [|n IH]; [apply local_ret|]. intros cur vs rest; simpl.
  destruct (p cur) as [[[v r]|]|] eqn:E; try done.
  destruct (parse_elements p n r) as [[[vs' r']|]|] eqn:E2; try done. intros [= <- <-].
  destruct (Hp _ _ _ E) as (pre & -> & H1). destruct (IH _ _ _ E2) as (pre' & -> & H2).
  exists (pre ++ pre'). split; [by rewrite <- app_assoc|].
  intros rest'. by rewrite <- app_assoc, H1, H2.
Qed.

Lemma parse_bulk_local lim : local (parse_bulk_string lim).
Proof.
  apply with_line_local. intros line rest v r.
  destruct (parse_i32 line) as [n|]; [|done].
  destruct (Z.eqb_spec n (-1)); [intros [= <- <-]; by exists []|].
  destruct (Z.ltb_spec n 0); [done|]. destruct (max_bulk_size lim <? n); [done|].
  unfold zlen. destruct (Z.ltb_spec (Z.of_nat (length rest)) (n + 2)); [done|].
  destruct (drop (Z.to_nat n) rest) as [|c [|d r']] eqn:E; try done.
  destruct (byte_eqb c CR && byte_eqb d LF) eqn:Hcd; [|done]. intros [= <- <-].
  set (payload := take (Z.to_nat n) rest).
  assert (length payload = Z.to_nat n) as Hl by (unfold payload; rewrite length_take; lia).
  exists (payload ++ [c; d]). split.
  { rewrite <- app_assoc. simpl. rewrite <- E. symmetry. apply take_drop. }
  intros rest'. rewrite <- !app_assoc. simpl.
  destruct (Z.ltb_spec (Z.of_nat (length (payload ++ c :: d :: rest'))) (n + 2)) as [H'|_].
  { rewrite length_app in H'. simpl in H'. lia. }
  by rewrite <- Hl, take_app_exact, drop_app_exact, Hcd.
Qed.

Lemma parse_array_local lim p : local p -> local (parse_array lim p).
Proof.
  intros Hp. apply with_line_local. intros line rest v r.
  destruct (parse_i32 line) as [n|]; [|done].
  destruct (n =? -1); [intros [= <- <-]; by exists []|].
  destruct (n <? 0); [done|]. destruct (max_array_length lim <? n); [done|].
  destruct (parse_elements p (Z.to_nat n) rest) as [[[vs r']|]|] eqn:E; try done.
  intros [= <- <-]. destruct (parse_elements_local p _ Hp _ _ _ E) as (pre & -> & H).
  exists pre. split; [done|]. intros rest'. by rewrite H.
Qed.

Lemma parse_resp_local lim f : local (parse_resp_value lim f).
Proof.
  induction f as [|f IH]; intros [|c cur] v rest; try done. cbn [parse_resp_value].
  assert (forall p : bytes -> Parsed RespValue, local p -> p cur = Ok (Some (v, rest)) ->
    exists pre, c :: cur = (c :: pre) ++ rest /\ forall rest', p (pre ++ rest') = Ok (Some (v, rest'))) as Hc.
  { intros p Hp H. destruct (Hp _ _ _ H) as (pre & -> & ?). by exists pre. }
  assert (local parse_integer).
  { apply with_line_local. intros line. case_match; [apply local_ret|apply local_err]. }
  assert (local parse_simple_string) by (apply with_line_local; intros; apply local_ret).
  assert (local parse_error) by (apply with_line_local; intros; apply local_ret).
  intros Hcur. enough (exists pre, c :: cur = (c :: pre) ++ rest /\
    forall rest', parse_resp_value lim (S f) (c :: pre ++ rest') = Ok (Some (v, rest')))
    as (pre & ? & ?) by (exists (c :: pre); auto).
  cbn [parse_resp_value]. repeat case_match; try done; revert Hcur; apply Hc;
    auto using parse_bulk_local, parse_array_local.
Qed.

(** The octets a value was read from give that value on their own. *)
Lemma parse_exact lim buf v rest rest' :
  parse lim buf = Ok (Some (v, rest)) ->
  exists pre, buf = pre ++ rest /\ parse lim (pre ++ rest') = Ok (Some (v, rest')).
Proof.
  intros H. destruct (parse_resp_local lim (length buf) _ _ _ H) as (pre & -> & Hp).
  exists pre. split; [done|].
  set (f := (length (pre ++ rest) + length (pre ++ rest'))%nat).
  rewrite <- (parse_fuel lim _ f) by lia.
  rewrite (parse_below lim (length (pre ++ rest)) f); [apply Hp|lia|by rewrite Hp].
Qed.
