(* ===== verification/ProtocolThms.v ===== *)
(** * What the RESP codec guarantees

    Encoded replies decode to the value sent, whatever follows them; a
    frame cut short is never misread; the sequence of commands a
    connection sees does not depend on how the network cut the stream;
    what the decoder builds stays within the configured limits; and the
    frame handed to the append-only file is exactly the octets of the
    command. *)

From S2P Require Import Prelude Numbers Utf8 Errors Values World Protocol ProtocolLemmas.

(** ** Values that survive the wire *)

(** What a peer reads for a reply. *)
Fixpoint resp_of (v : ResponseValue) : RespValue :=
  match v with
  | SimpleString s => RSimpleString s
  | BulkString b => RBulkString b
  | Integer i => RInteger i
  | Array l => RArray (map resp_of l)
  | Nil => RBulkString None
  end.

(** A status line is UTF-8 text without a line break, an integer is an
    [i64], and sizes are within the peer's limits. *)
Fixpoint wire_ok (lim : CodecLimits) (v : ResponseValue) : bool :=
  match v with
  | SimpleString s => bool_decide (no_crlf s) && utf8_valid s
  | BulkString (Some s) => (zlen s <=? max_bulk_size lim) && (zlen s <=? I32_MAX)
  | BulkString None | Nil => true
  | Integer i => in_i64 i
  | Array l =>
      (zlen l <=? max_array_length lim) && (zlen l <=? I32_MAX) && forallb (wire_ok lim) l
  end.

Lemma split_crlf_text s rest : no_crlf s -> split_crlf (s ++ CRLF ++ rest) = Some (s, rest).
Proof.
  unfold no_crlf. induction s as [|c [|d s] IH]; [done| |].
  - intros _. cbn [app CRLF]. rewrite !split_crlf_cons.
    replace (byte_eqb c CR && byte_eqb CR LF) with false by by rewrite andb_false_r.
    done.
  - cbn [app] in *. rewrite !split_crlf_cons. case_match; [done|].
    destruct (split_crlf (d :: s)) as [[]|] eqn:E; [done|]. intros _. by rewrite IH.
Qed.

Lemma dec_line z rest : read_line (dec z ++ CRLF ++ rest) = Ok (Some (dec z, rest)).
Proof.
  apply read_line_enc; [|apply utf8_valid_ascii, dec_ascii].
  intros Hin. apply dec_chars in Hin as [H|H]; vm_compute in H; done.
Qed.

Lemma parse_bulk_enc lim s rest :
  zlen s <= max_bulk_size lim -> zlen s <= I32_MAX ->
  parse_bulk_string lim (dec (zlen s) ++ CRLF ++ s ++ CRLF ++ rest)
  = Ok (Some (RBulkString (Some s), rest)).
Proof.
  intros H1 H2. unfold parse_bulk_string, with_line. rewrite dec_line.
  assert (0 <= zlen s) by (unfold zlen; lia).
  rewrite parse_i32_dec by (unfold_ints; lia).
  destruct (Z.eqb_spec (zlen s) (-1)); [lia|]. destruct (Z.ltb_spec (zlen s) 0); [lia|].
  destruct (Z.ltb_spec (max_bulk_size lim) (zlen s)); [lia|].
  destruct (Z.ltb_spec (zlen (s ++ CRLF ++ rest)) (zlen s + 2)) as [Hl|_].
  { unfold zlen in Hl. rewrite !length_app in Hl. simpl in Hl. lia. }
  unfold zlen. rewrite Nat2Z.id, take_app_exact, drop_app_exact. done.
Qed.

Lemma parse_elements_enc lim l rest :
  Forall (fun v => forall rest, parse lim (encode_value v ++ rest) = Ok (Some (resp_of v, rest))) l ->
  parse_elements (parse lim) (length l) (concat (map encode_value l) ++ rest)
  = Ok (Some (map resp_of l, rest)).
Proof.
  induction 1 as [|v l Hv _ IH]; [done|]. cbn [length map concat parse_elements].
  by rewrite <- app_assoc, Hv, IH.
Qed.

Lemma parse_cons lim c s :
  parse lim (c :: s) =
    if byte_eqb c BPLUS then parse_simple_string s
    else if byte_eqb c BMINUS then parse_error s
    else if byte_eqb c BCOLON then parse_integer s
    else if byte_eqb c BDOLLAR then parse_bulk_string lim s
    else if byte_eqb c BSTAR then parse_array lim (parse lim) s
    else Err (protocol_error (b#"Unknown RESP type: " ++ char_of_u8 c)).
Proof.
  unfold parse at 1. cbn [length parse_resp_value]. repeat (case_match; [done|]).
  case_match; [|done]. unfold parse_array, with_line.
  destruct (read_line s) as [[[line rest]|]|] eqn:E; try done.
  apply read_line_eq in E as [-> _]. repeat (case_match; try done);
    match goal with
    | H : parse_elements (parse_resp_value _ ?f) ?n ?r = _, H2 : parse_elements (parse _) _ _ = _ |- _ =>
        rewrite (parse_elements_ext _ (parse lim)) in H; [congruence|apply parse_consumes|];
        intros y Hy; apply parse_fuel; rewrite !length_app; lia
    end.
Qed.

Lemma parse_colon lim s : parse lim (BCOLON :: s) = parse_integer s.
Proof. by rewrite parse_cons. Qed.
Lemma parse_dollar lim s : parse lim (BDOLLAR :: s) = parse_bulk_string lim s.
Proof. by rewrite parse_cons. Qed.
Lemma parse_star lim s : parse lim (BSTAR :: s) = parse_array lim (parse lim) s.
Proof. by rewrite parse_cons. Qed.

Lemma parse_encode lim v rest :
  wire_ok lim v = true -> parse lim (encode_value v ++ rest) = Ok (Some (resp_of v, rest)).
Proof.
  revert rest. induction v as [s|[s|]|i|l IH|] using ResponseValue_nested_ind; intros rest; cbn [wire_ok encode_value].
  - intros [Hs%bool_decide_eq_true Hu]%andb_true_iff. cbn [app]. rewrite parse_cons, byte_eqb_refl.
    unfold parse_simple_string, with_line, read_line, from_utf8.
    by rewrite <- app_assoc, split_crlf_text, Hu.
  - intros [H1%Z.leb_le H2%Z.leb_le]%andb_true_iff. cbn [app]. rewrite parse_dollar.
    rewrite <- !app_assoc. by apply parse_bulk_enc.
  - done.
  - intros Hi%in_i64_spec. cbn [app]. rewrite parse_colon.
    unfold parse_integer, with_line. rewrite <- app_assoc, dec_line. by rewrite parse_i64_dec.
  - intros [[H1%Z.leb_le H2%Z.leb_le]%andb_true_iff Hl]%andb_true_iff. cbn [app]. rewrite parse_star.
    unfold parse_array, with_line. rewrite <- !app_assoc, dec_line.
    assert (0 <= zlen l) by (unfold zlen; lia).
    rewrite parse_i32_dec by (unfold_ints; lia).
    destruct (Z.eqb_spec (zlen l) (-1)); [lia|]. destruct (Z.ltb_spec (zlen l) 0); [lia|].
    destruct (Z.ltb_spec (max_array_length lim) (zlen l)); [lia|].
    unfold zlen. rewrite Nat2Z.id, parse_elements_enc; [done|].
    rewrite forallb_forall in Hl. rewrite !Forall_forall in *.
    intros x Hx rest'. apply IH; [done|]. by apply Hl, list_elem_of_In.
  - done.
Qed.

(** C33: Round trip of replies. What [encode] writes for a value within the
    peer's limits, followed by any octets, is decoded by a peer with an
    empty buffer as that value, and exactly the octets that follow stay
    buffered. *)
Theorem resp_roundtrip (sender peer : RespCodec) (v : ResponseValue) (rest : bytes) :
  buffer peer = [] ->
  wire_ok (limits peer) v = true ->
  overfull peer (encode_value v ++ rest) = false ->
  exists wire,
    (encode sender v).1 = Ok wire /\ buffer (encode sender v).2 = [] /\
    decode_resp_value peer (wire ++ rest) = (Ok (Some (resp_of v)), mkRespCodec rest (limits peer)).
Proof.
  intros Hb Hv Ho. exists (encode_value v). split; [done|]. split; [done|].
  unfold decode_resp_value. rewrite Ho. unfold extend. rewrite Hb. cbn [app buffer limits].
  rewrite parse_encode by done.
  destruct (encode_value v ++ rest) eqn:E; [by apply app_eq_nil in E as [E _]; destruct v as [|[|]| | |]|].
  rewrite <- E, length_app, Nat.add_sub, drop_app_exact. done.
Qed.

Lemma resp_roundtrip_witness :
  exists wire,
    (encode new_codec (Array [SimpleString (b#"OK"); Integer (-7); Nil])).1 = Ok wire /\
    decode_resp_value new_codec (wire ++ b#"+PO")
    = (Ok (Some (RArray [RSimpleString (b#"OK"); RInteger (-7); RBulkString None])),
       mkRespCodec (b#"+PO") default_limits).
Proof.
  destruct (resp_roundtrip new_codec new_codec (Array [SimpleString (b#"OK"); Integer (-7); Nil]) (b#"+PO"))
    as (wire & ? & _ & ?); [reflexivity..|]. by exists wire.
Defined.

Lemma parse_prefix lim v p q :
  wire_ok lim v = true -> encode_value v = p ++ q -> q <> [] -> parse lim p = Ok None.
Proof.
  intros Hv E Hq. pose proof (parse_encode lim v [] Hv) as Hp. rewrite app_nil_r, E in Hp.
  destruct (parse lim p) as [[[v' r]|]|e] eqn:F; [exfalso|done|exfalso].
  - rewrite (parse_app_Some _ _ _ _ q F) in Hp. injection Hp as _ Hr. by apply app_eq_nil in Hr as [_ ->].
  - by rewrite (parse_app_Err _ _ _ q F) in Hp.
Qed.

(** A reply cut anywhere is not misread. Given any proper prefix of an
    encoded value the decoder reports that it needs more data and keeps
    the prefix; given the remaining octets it then delivers the value. *)
Theorem partial_frame_waits (c : RespCodec) (v : ResponseValue) (p q : bytes) :
  buffer c = [] -> wire_ok (limits c) v = true ->
  encode_value v = p ++ q -> q <> [] -> overfull c (p ++ q) = false ->
  exists c', decode_resp_value c p = (Ok None, c') /\ buffer c' = p /\
    decode_resp_value c' q = (Ok (Some (resp_of v)), mkRespCodec [] (limits c)).
Proof.
  intros Hb Hv E Hq Ho. exists (extend c p).
  assert (overfull c p = false /\ overfull (extend c p) q = false) as [Ho1 Ho2].
  { unfold overfull, extend, zlen in *. rewrite Hb in *. cbn [buffer limits length app] in *.
    rewrite length_app in Ho. rewrite !Z.ltb_ge in *. split; lia. }
  unfold decode_resp_value. rewrite Ho1, Ho2. unfold extend. rewrite Hb. cbn [app buffer limits].
  rewrite (parse_prefix _ _ _ _ Hv E Hq). split; [by destruct p|]. split; [done|].
  rewrite <- E. pose proof (parse_encode (limits c) v [] Hv) as Hp. rewrite app_nil_r in Hp.
  rewrite Hp. destruct (encode_value v) eqn:Ev; [by destruct v as [|[|]| | |]|].
  rewrite <- Ev. cbn [length]. rewrite Nat.sub_0_r, drop_all. done.
Qed.

Lemma partial_frame_waits_witness :
  exists c', decode_resp_value new_codec (b#"$5" ++ CRLF ++ b#"he") = (Ok None, c') /\
    decode_resp_value c' (b#"llo" ++ CRLF) = (Ok (Some (RBulkString (Some (b#"hello")))), new_codec).
Proof.
  destruct (partial_frame_waits new_codec (bulk (b#"hello")) (b#"$5" ++ CRLF ++ b#"he") (b#"llo" ++ CRLF))
    as (c' & H1 & _ & H2); [reflexivity..|discriminate|reflexivity|]. by exists c'.
Defined.

(** ** Commands *)
Section Commands.
Context {E : Env}.

(** What one parsing step says about the buffer. *)
Variant step_of (buf : bytes) (lim : CodecLimits) :
    Result (option (ParsedCommand * bytes)) * RespCodec -> Prop :=
| step_frame cmd frame rest :
    buf = frame ++ rest -> frame <> [] ->
    (forall x, try_parse_command_with_frame (mkRespCodec (frame ++ x) lim)
               = (Ok (Some (cmd, frame)), mkRespCodec x lim)) ->
    step_of buf lim (Ok (Some (cmd, frame)), mkRespCodec rest lim)
| step_wait : step_of buf lim (Ok None, mkRespCodec buf lim)
| step_fail e :
    (forall x, try_parse_command_with_frame (mkRespCodec (buf ++ x) lim)
               = (Err e, mkRespCodec (buf ++ x) lim)) ->
    step_of buf lim (Err e, mkRespCodec buf lim).

Lemma try_parse_parse buf lim elements rest cmd :
  buf <> [] -> parse lim buf = Ok (Some (RArray elements, rest)) -> command_of elements = Ok cmd ->
  try_parse_command_with_frame (mkRespCodec buf lim)
  = (Ok (Some (cmd, take (length buf - length rest) buf)),
     mkRespCodec (drop (length buf - length rest) buf) lim).
Proof.
  intros Hb Hp Hc. unfold try_parse_command_with_frame. cbn [buffer limits].
  destruct buf; [done|]. by rewrite Hp, Hc.
Qed.

Lemma try_parse_step buf lim :
  step_of buf lim (try_parse_command_with_frame (mkRespCodec buf lim)).
Proof.
  unfold try_parse_command_with_frame. cbn [buffer limits].
  destruct (decide (buf = [])) as [->|Hb]; [constructor|].
  replace (match buf with [] => _ | _ => _ end) with
    (match parse lim buf with
     | Err e => (Err e, mkRespCodec buf lim)
     | Ok None => (Ok None, mkRespCodec buf lim)
     | Ok (Some (RArray elements, rest)) =>
         match command_of elements with
         | Err e => (Err e, mkRespCodec buf lim)
         | Ok cmd => (Ok (Some (cmd, take (length buf - length rest) buf)),
                      mkRespCodec (drop (length buf - length rest) buf) lim)
         end
     | Ok (Some _) => (Err (protocol_error (b#"Expected array for command")), mkRespCodec buf lim)
     end) by by destruct buf.
  assert (forall e, (forall x, exists y, parse lim (buf ++ x) = y /\
     match y with
     | Err e' => e' = e | Ok None => False
     | Ok (Some (RArray elements, _)) => command_of elements = Err e
     | Ok (Some _) => e = protocol_error (b#"Expected array for command")
     end) -> step_of buf lim (Err e, mkRespCodec buf lim)) as Hfail.
  { intros e He. constructor. intros x. destruct (He x) as (y & Hy & H).
    unfold try_parse_command_with_frame. cbn [buffer limits].
    destruct (buf ++ x) eqn:Ebx; [by destruct buf|]. rewrite Hy.
    repeat case_match; naive_solver. }
  destruct (parse lim buf) as [[[v rest]|]|e] eqn:Hp; [|constructor|].
  - destruct v as [| | |elements|];
      try (apply Hfail; intros x; rewrite (parse_app_Some _ _ _ _ x Hp); (eexists; split; [reflexivity|by simpl])).
    destruct (command_of elements) as [cmd|e] eqn:Hc;
      [|apply Hfail; intros x; rewrite (parse_app_Some _ _ _ _ x Hp); (eexists; split; [reflexivity|by simpl])].
    destruct (parse_suffix _ _ _ _ Hp) as (pre & -> & Hne).
    rewrite length_app, Nat.add_sub, take_app_exact, drop_app_exact.
    constructor; [done..|]. intros x.
    destruct (parse_exact _ _ _ _ x Hp) as (pre' & Hpre & Hx).
    apply app_inv_tail in Hpre as <-.
    rewrite (try_parse_parse _ _ elements x cmd); [|by destruct pre|done|done].
    by rewrite length_app, Nat.add_sub, take_app_exact, drop_app_exact.
  - apply Hfail. intros x. rewrite (parse_app_Err _ _ _ x Hp). (eexists; split; [reflexivity|by simpl]).
Qed.

(** The decoding loop of a connection on one read: feed the octets once,
    then empty slices, until no further command is complete. *)
Fixpoint drain (fuel : nat) (c : RespCodec) (data : bytes) :
    list (ParsedCommand * bytes) * option RustyPotatoError * RespCodec :=
  match fuel with
  | O => ([], None, c)
  | S f =>
      match decode_with_frame c data with
      | (Ok (Some x), c') => let '(xs, e, c2) := drain f c' [] in (x :: xs, e, c2)
      | (Ok None, c') => ([], None, c')
      | (Err e, c') => ([], Some e, c')
      end
  end.

(** One read; the length of the buffered octets is enough fuel because
    every command uses up at least one. *)
Definition read_step (c : RespCodec) (data : bytes) :=
  drain (S (length (buffer c ++ data))) c data.

(** A connection: reads until the stream ends or the codec reports an error. *)
Fixpoint read_all (c : RespCodec) (chunks : list bytes) :
    list (ParsedCommand * bytes) * option RustyPotatoError * RespCodec :=
  match chunks with
  | [] => ([], None, c)
  | d :: ds =>
      let '(xs, e, c') := read_step c d in
      match e with
      | Some e => (xs, Some e, c')
      | None => let '(ys, e', c2) := read_all c' ds in (xs ++ ys, e', c2)
      end
  end.

(** The same loop on the octets alone. *)
Fixpoint frames (fuel : nat) (lim : CodecLimits) (buf : bytes) :
    list (ParsedCommand * bytes) * option RustyPotatoError * RespCodec :=
  match fuel with
  | O => ([], None, mkRespCodec buf lim)
  | S f =>
      match try_parse_command_with_frame (mkRespCodec buf lim) with
      | (Ok (Some x), c') => let '(xs, e, c2) := frames f lim (buffer c') in (x :: xs, e, c2)
      | (Ok None, c') => ([], None, c')
      | (Err e, c') => ([], Some e, c')
      end
  end.

Lemma frames_S f lim buf :
  frames (S f) lim buf =
  match try_parse_command_with_frame (mkRespCodec buf lim) with
  | (Ok (Some x), c') => let '(xs, e, c2) := frames f lim (buffer c') in (x :: xs, e, c2)
  | (Ok None, c') => ([], None, c')
  | (Err e, c') => ([], Some e, c')
  end.
Proof. reflexivity. Qed.

Lemma overfull_le c new : zlen (buffer c ++ new) <= max_buffer_size (limits c) -> overfull c new = false.
Proof. intros H. apply Z.ltb_ge. unfold zlen in *. rewrite length_app in H. lia. Qed.

Lemma drain_frames f lim buf new :
  zlen (buf ++ new) <= max_buffer_size lim ->
  drain f (mkRespCodec buf lim) new =
  match f with O => ([], None, mkRespCodec buf lim) | _ => frames f lim (buf ++ new) end.
Proof.
  revert buf new. induction f as [|f IH]; intros buf new Hl; [done|]. cbn [drain frames].
  unfold decode_with_frame. rewrite overfull_le by done. unfold extend. cbn [buffer limits].
  destruct (try_parse_step (buf ++ new) lim) as [cmd frame rest Hb _ _| |]; [|done|done].
  cbn [buffer]. rewrite Hb in Hl. rewrite IH.
  - rewrite app_nil_r. by destruct f.
  - rewrite app_nil_r. unfold zlen in *. rewrite length_app in Hl. lia.
Qed.

Lemma frames_fuel lim f g buf :
  (length buf < f)%nat -> (length buf < g)%nat -> frames f lim buf = frames g lim buf.
Proof.
  revert g buf. induction f as [|f IH]; intros [|g] buf Hf Hg; try lia. cbn [frames].
  destruct (try_parse_step buf lim) as [cmd frame rest -> Hne _| |]; [|done|done].
  cbn [buffer]. rewrite length_app in *. destruct frame; [done|]. simpl in *.
  rewrite (IH g) by lia. done.
Qed.

(** What is left is a suffix, and if there was no error it holds no
    complete command. *)
Lemma frames_rest lim f buf xs e c :
  (length buf < f)%nat -> frames f lim buf = (xs, e, c) ->
  limits c = lim /\ (length (buffer c) <= length buf)%nat /\
  (e = None -> try_parse_command_with_frame c = (Ok None, c)).
Proof.
  revert buf xs e c. induction f as [|f IH]; intros buf xs e c Hf; [lia|]. cbn [frames].
  pose proof (try_parse_step buf lim) as Hs.
  remember (try_parse_command_with_frame (mkRespCodec buf lim)) as p eqn:Et.
  destruct Hs as [cmd frame rest -> Hne _| |].
  - cbn [buffer]. destruct (frames f lim rest) as [[xs' e'] c'] eqn:Ef. intros [= <- <- <-].
    rewrite length_app in *. destruct frame; [done|]. simpl in *.
    apply IH in Ef as (? & ? & ?); [|lia]. repeat split; [done|lia|done].
  - intros [= <- <- <-]. repeat split; auto.
  - intros [= <- <- <-]. repeat split; auto. done.
Qed.

Lemma frames_app lim f buf x :
  (length (buf ++ x) < f)%nat ->
  frames f lim (buf ++ x) =
  let '(xs, e, c) := frames f lim buf in
  match e with
  | Some e => (xs, Some e, mkRespCodec (buffer c ++ x) lim)
  | None => let '(ys, e', c') := frames f lim (buffer c ++ x) in (xs ++ ys, e', c')
  end.
Proof.
  revert buf. induction f as [|f IH]; intros buf Hf; [lia|].
  rewrite (frames_S f lim (buf ++ x)), (frames_S f lim buf).
  pose proof (try_parse_step buf lim) as Hs.
  remember (try_parse_command_with_frame (mkRespCodec buf lim)) as p eqn:Et.
  destruct Hs as [cmd frame rest -> Hne Hx| |e Hx].
  - rewrite <- app_assoc in *. rewrite Hx. cbn [buffer].
    rewrite length_app in Hf. destruct frame as [|b frame]; [done|]. simpl in Hf.
    rewrite IH by lia. destruct (frames f lim rest) as [[xs e] c] eqn:Ef.
    destruct e as [e|]; [done|].
    destruct (frames_rest lim f rest xs None c) as (<- & Hl & _); [rewrite length_app in Hf; lia|done|].
    rewrite (frames_fuel _ (S f) f); [|rewrite length_app in *; lia..].
    by destruct (frames f (limits c) (buffer c ++ x)) as [[ys e'] c'].
  - cbn [buffer]. rewrite <- frames_S. by repeat case_match.
  - rewrite Hx. done.
Qed.

Lemma read_all_frames lim chunks buf :
  zlen (buf ++ concat chunks) <= max_buffer_size lim ->
  try_parse_command_with_frame (mkRespCodec buf lim) = (Ok None, mkRespCodec buf lim) ->
  (read_all (mkRespCodec buf lim) chunks).1 =
  (frames (S (length (buf ++ concat chunks))) lim (buf ++ concat chunks)).1.
Proof.
  revert buf. induction chunks as [|d ds IH]; intros buf Hl Hw; cbn [read_all concat].
  { rewrite app_nil_r. cbn [frames]. by rewrite Hw. }
  unfold read_step. cbn [buffer]. cbn [concat] in Hl. rewrite app_assoc in *.
  assert (zlen (buf ++ d) <= max_buffer_size lim).
  { unfold zlen in *. rewrite length_app in Hl. lia. }
  rewrite drain_frames by done. cbn iota beta.
  rewrite (frames_app _ _ (buf ++ d) (concat ds)) by lia.
  rewrite (frames_fuel _ (S (length (buf ++ d))) (S (length ((buf ++ d) ++ concat ds))))
    by (rewrite ?length_app; lia).
  set (n := S (length ((buf ++ d) ++ concat ds))).
  destruct (frames n lim (buf ++ d)) as [[xs e] c] eqn:Ef. unfold n in *.
  apply frames_rest in Ef as (<- & Hle & Hw'); [|rewrite !length_app; lia].
  destruct e as [e|]; [done|]. destruct c as [buf' lim]. cbn [buffer limits] in *.
  assert (zlen (buf' ++ concat ds) <= max_buffer_size lim) as Hl'.
  { unfold zlen in *. rewrite !length_app in *. lia. }
  specialize (IH buf' Hl' (Hw' eq_refl)).
  rewrite (frames_fuel _ (S (length ((buf ++ d) ++ concat ds))) (S (length (buf' ++ concat ds))))
    by (rewrite !length_app in *; lia).
  destruct (read_all (mkRespCodec buf' lim) ds) as [[ys e'] c'].
  destruct (frames (S (length (buf' ++ concat ds))) lim (buf' ++ concat ds)) as [[ys2 e2] c2].
  by simplify_eq/=.
Qed.

(** C12: Pipelining does not depend on packet boundaries. On a fresh
    connection, however the octets of a stream that fits the receive
    buffer are cut into reads, the decoder delivers the same commands with
    the same frames in the same order, and the same error if the stream is
    malformed, as when the stream arrives in one read. *)
Theorem chunking_independent (lim : CodecLimits) (chunks : list bytes) :
  zlen (concat chunks) <= max_buffer_size lim ->
  (read_all (with_limits lim) chunks).1 = (read_step (with_limits lim) (concat chunks)).1.
Proof.
  intros Hl. unfold with_limits, read_step. rewrite read_all_frames by done.
  by rewrite drain_frames.
Qed.

Lemma command_args_bulk l : command_args (map resp_of (map bulk l)) = Ok l.
Proof. induction l as [|s l IH]; [done|]. cbn. by rewrite IH. Qed.

(** The octets of a command, in front of others. *)
Lemma command_decodes (lim : CodecLimits) (n : bytes) (argv : list bytes) (rest : bytes) :
  utf8_valid n = true -> wire_ok lim (Array (map bulk (n :: argv))) = true ->
  try_parse_command_with_frame (mkRespCodec (encode_value (Array (map bulk (n :: argv))) ++ rest) lim)
  = (Ok (Some (mkParsedCommand (to_uppercase upper_table n) argv 0, encode_value (Array (map bulk (n :: argv))))),
     mkRespCodec rest lim).
Proof.
  intros Hn Hw. rewrite (try_parse_parse _ _ (map resp_of (map bulk (n :: argv))) rest
             (mkParsedCommand (to_uppercase upper_table n) argv 0)).
  - by rewrite length_app, Nat.add_sub, take_app_exact, drop_app_exact.
  - done.
  - by rewrite parse_encode.
  - unfold command_of. rewrite command_args_bulk. unfold from_utf8. cbn. by rewrite Hn.
Qed.

(** C28: Round trip of commands. The octets the client sends for a command
    line (a UTF-8 name and arguments that may hold any octets, within the
    limits) are decoded to the upper-cased name and exactly those
    arguments; the frame handed on is exactly the octets sent, and what
    follows stays buffered. *)
Theorem command_roundtrip (client server : RespCodec) (n : bytes) (argv : list bytes) (rest : bytes) :
  buffer server = [] ->
  utf8_valid n = true ->
  wire_ok (limits server) (Array (map bulk (n :: argv))) = true ->
  overfull server (encode_value (Array (map bulk (n :: argv))) ++ rest) = false ->
  exists frame,
    (encode_command_array client (n :: argv)).1 = Ok frame /\
    decode_with_frame server (frame ++ rest)
    = (Ok (Some (mkParsedCommand (to_uppercase upper_table n) argv 0, frame)),
       mkRespCodec rest (limits server)).
Proof.
  intros Hb Hn Hw Ho. exists (encode_value (Array (map bulk (n :: argv)))). split; [reflexivity|].
  unfold decode_with_frame. rewrite Ho. unfold extend. rewrite Hb. by apply command_decodes.
Qed.

(** The frame is a faithful record of the command. Whenever a command
    is decoded, its frame followed by what is left in the buffer is what
    was buffered plus what was read, and decoding the frame alone, or in
    front of any later octets, gives the same command, the same frame and
    leaves exactly those octets. *)
Theorem frame_is_exact (c c' : RespCodec) (new : bytes) (cmd : ParsedCommand) (frame : bytes) :
  decode_with_frame c new = (Ok (Some (cmd, frame)), c') ->
  frame ++ buffer c' = buffer c ++ new /\ limits c' = limits c /\
  forall later, zlen (frame ++ later) <= max_buffer_size (limits c) ->
    decode_with_frame (with_limits (limits c)) (frame ++ later)
    = (Ok (Some (cmd, frame)), mkRespCodec later (limits c)).
Proof.
  unfold decode_with_frame. destruct (overfull c new); [done|]. unfold extend.
  destruct (try_parse_step (buffer c ++ new) (limits c)) as [cmd' frame' rest Hb _ Hx| |]; [|done|done].
  intros [= <- <- <-]. split; [done|]. split; [done|]. intros later Hl.
  rewrite overfull_le by done. apply Hx.
Qed.
End Commands.

Lemma chunking_independent_witness :
  (read_all (E := env_ms) new_codec [b#"*1" ++ CRLF ++ b#"$4"; CRLF ++ b#"pi"; b#"ng" ++ CRLF]).1
  = (read_step (E := env_ms) new_codec (b#"*1" ++ CRLF ++ b#"$4" ++ CRLF ++ b#"ping" ++ CRLF)).1.
Proof.
  exact (chunking_independent (E := env_ms) default_limits
           [b#"*1" ++ CRLF ++ b#"$4"; CRLF ++ b#"pi"; b#"ng" ++ CRLF] ltac:(vm_compute; discriminate)).
Defined.

Lemma command_roundtrip_witness :
  exists frame,
    (encode_command_array new_codec [b#"set"; b#"k"; [of_u8 255; CR; LF; of_u8 0]]).1 = Ok frame /\
    decode_with_frame (E := env_ms) new_codec (frame ++ b#"*")
    = (Ok (Some (mkParsedCommand (b#"SET") [b#"k"; [of_u8 255; CR; LF; of_u8 0]] 0, frame)),
       mkRespCodec (b#"*") default_limits).
Proof.
  destruct (command_roundtrip (E := env_ms) new_codec new_codec (b#"set")
    [b#"k"; [of_u8 255; CR; LF; of_u8 0]] (b#"*")) as (frame & H1 & H2);
    [reflexivity..|]. exists frame. split; [exact H1|]. exact H2.
Defined.

Lemma frame_is_exact_witness :
  exists frame c', frame ++ buffer c' = b#"*1" ++ CRLF ++ b#"+PING" ++ CRLF ++ b#"*2" /\
    buffer c' = b#"*2".
Proof.
  destruct (decode_with_frame (E := env_ms) new_codec (b#"*1" ++ CRLF ++ b#"+PING" ++ CRLF ++ b#"*2"))
    as [[[[cmd frame]|]|] c'] eqn:D; try (vm_compute in D; discriminate).
  destruct (frame_is_exact (E := env_ms) _ _ _ _ _ D) as (H & _).
  exists frame, c'. split; [exact H|]. vm_compute in D. injection D as _ _ <-. reflexivity.
Defined.

(** ** Limits *)

(** Every part of a decoded value is within the limits. *)
Fixpoint within (lim : CodecLimits) (v : RespValue) : Prop :=
  match v with
  | RSimpleString s | RError s => utf8_valid s = true /\ no_crlf s
  | RBulkString (Some s) => zlen s <= max_bulk_size lim
  | RBulkString None => True
  | RInteger i => I64_MIN <= i <= I64_MAX
  | RArray l =>
      zlen l <= max_array_length lim /\
      (fix all (l : list RespValue) : Prop := match l with [] => True | x :: l' => within lim x /\ all l' end) l
  end.

Lemma within_array lim l :
  within lim (RArray l) <-> zlen l <= max_array_length lim /\ Forall (within lim) l.
Proof.
  cbn [within]. apply and_iff_compat_l. induction l as [|x l IH]; [by split|].
  rewrite Forall_cons. by rewrite IH.
Qed.

Lemma split_crlf_no s line rest : split_crlf s = Some (line, rest) -> no_crlf line.
Proof.
  unfold no_crlf. revert line rest. induction s as [|c s IH]; intros line rest; [done|].
  destruct s as [|d s]; [done|]. rewrite split_crlf_cons.
  destruct (byte_eqb c CR && byte_eqb d LF) eqn:Hcd; [by intros [= <- <-]|].
  intros ([l r] & H & [= <- <-])%bind_Some. pose proof (IH _ _ H) as Hl.
  apply split_crlf_eq in H. destruct l as [|d' l]; [done|]. simpl in H. simplify_eq.
  by rewrite split_crlf_cons, Hcd, Hl.
Qed.

Lemma read_line_no_crlf cur line rest : read_line cur = Ok (Some (line, rest)) -> no_crlf line.
Proof.
  unfold read_line. destruct (split_crlf cur) as [[l r]|] eqn:Es; [|done].
  destruct (from_utf8 l) as [l'|] eqn:F; [|done]. apply from_utf8_Some in F as [-> _].
  intros [= <- <-]. by eapply split_crlf_no.
Qed.

(** A parser that only builds values within the limits. *)
Definition bounded (lim : CodecLimits) (p : bytes -> Parsed RespValue) : Prop :=
  forall cur v rest, p cur = Ok (Some (v, rest)) -> within lim v.

Lemma parse_bulk_bounded lim : bounded lim (parse_bulk_string lim).
Proof.
  intros cur v r. unfold parse_bulk_string, with_line.
  destruct (read_line cur) as [[[line rest]|]|]; try done.
  destruct (parse_i32 line) as [n|]; [|done].
  destruct (n =? -1); [by intros [= <- <-]|]. destruct (Z.ltb_spec n 0); [done|].
  destruct (Z.ltb_spec (max_bulk_size lim) n); [done|].
  destruct (zlen rest <? n + 2); [done|]. cbn zeta. intros Hv.
  repeat case_match; simplify_eq. cbn. unfold zlen. rewrite length_take. lia.
Qed.

Lemma parse_elements_bounded lim p n cur vs rest :
  bounded lim p -> parse_elements p n cur = Ok (Some (vs, rest)) ->
  Forall (within lim) vs /\ length vs = n.
Proof.
  intros Hp. revert cur vs. induction n as [|n IH]; intros cur vs; simpl; [by intros [= <- <-]|].
  destruct (p cur) as [[[v r]|]|] eqn:Ep; try done.
  destruct (parse_elements p n r) as [[[vs' r']|]|] eqn:Ee; try done. intros [= <- <-].
  apply IH in Ee as [? <-]. split; [|done]. constructor; eauto.
Qed.

Lemma parse_bounded lim f :
  0 <= max_array_length lim -> bounded lim (parse_resp_value lim f).
Proof.
  intros H0. induction f as [|f IH]; intros [|c cur] v rest; try done. cbn [parse_resp_value].
  repeat case_match; try done.
  - unfold parse_simple_string, with_line. destruct (read_line cur) as [[[line r]|]|] eqn:El; try done.
    intros [= <- <-]. split; [by apply read_line_eq in El as [_ ?]|by eapply read_line_no_crlf].
  - unfold parse_error, with_line. destruct (read_line cur) as [[[line r]|]|] eqn:El; try done.
    intros [= <- <-]. split; [by apply read_line_eq in El as [_ ?]|by eapply read_line_no_crlf].
  - unfold parse_integer, with_line. destruct (read_line cur) as [[[line r]|]|] eqn:El; try done.
    destruct (parse_i64 line) eqn:Ei; [|done]. intros [= <- <-]. by eapply parse_i64_range.
  - apply parse_bulk_bounded.
  - unfold parse_array, with_line. destruct (read_line cur) as [[[line r]|]|] eqn:El; try done.
    destruct (parse_i32 line) as [n|]; [|done].
    destruct (n =? -1); [intros [= <- <-]; apply within_array; split; [done|constructor]|].
    destruct (Z.ltb_spec n 0); [done|]. destruct (Z.ltb_spec (max_array_length lim) n); [done|].
    destruct (parse_elements _ _ r) as [[[vs r']|]|] eqn:Ee; try done. intros [= <- <-].
    apply (parse_elements_bounded lim) in Ee as [? Hl]; [|done].
    apply within_array. split; [unfold zlen; lia|done].
Qed.

(** C34: The limits are enforced. Whatever a peer sends, a codec whose
    buffer is within [max_buffer_size] stays within it, keeps its limits,
    and any value it delivers has bulk strings of at most [max_bulk_size]
    octets, arrays of at most [max_array_length] elements at every depth,
    64-bit integers and status lines of valid UTF-8 without a line break. *)
Theorem decode_within_limits (c c' : RespCodec) (new : bytes) (r : Result (option RespValue)) :
  0 <= max_array_length (limits c) -> max_buffer_size (limits c) < U64_MAX ->
  buffered_len c <= max_buffer_size (limits c) ->
  decode_resp_value c new = (r, c') ->
  buffered_len c' <= max_buffer_size (limits c') /\ limits c' = limits c /\
  (forall v, r = Ok (Some v) -> within (limits c) v).
Proof.
  intros Ha Hm Hb. unfold decode_resp_value, buffered_len in *.
  destruct (overfull c new) eqn:Ho; [intros [= <- <-]; done|].
  assert (zlen (buffer (extend c new)) <= max_buffer_size (limits c)) as Hl.
  { apply Z.ltb_ge in Ho. unfold extend, zlen in *. cbn [buffer]. rewrite length_app. lia. }
  destruct (buffer (extend c new)) as [|b buf] eqn:Eb; [intros [= <- <-]; rewrite Eb; done|].
  cbn [limits extend]. destruct (parse (limits c) (b :: buf)) as [[[v rest]|]|] eqn:Ep;
    intros [= <- <-]; cbn [limits buffer extend] in *; rewrite ?Eb; [|done|done].
  split; [unfold zlen in *; rewrite length_drop; cbn [length] in *; lia|]. split; [done|].
  intros v' [= <-]. by eapply parse_bounded.
Qed.

Lemma decode_within_limits_witness :
  exists v c', decode_resp_value new_codec (b#"*1" ++ CRLF ++ b#":5" ++ CRLF) = (Ok (Some v), c') /\
    within default_limits v.
Proof.
  destruct (decode_resp_value new_codec (b#"*1" ++ CRLF ++ b#":5" ++ CRLF)) as [[[v|]|] c'] eqn:D;
    try (vm_compute in D; discriminate).
  exists v, c'. split; [reflexivity|].
  refine (proj2 (proj2 (decode_within_limits new_codec c' _ _ _ _ _ D)) v eq_refl);
    vm_compute; first [discriminate|reflexivity].
Defined.
