(* ===== verification/Command.v ===== *)
(** * Commands and their registry (src/src/commands/mod.rs, registry.rs)

    A command is what the [Command] trait asks for; the registry maps
    upper-case names to commands and checks arity before it runs one. *)

From S2P Require Import Prelude Numbers Utf8 Errors Values World Protocol.

(** ** Results and arity *)
Inductive CommandResult : Type :=
| CmdOk (v : ResponseValue)
| CmdError (message : bytes).

Inductive CommandArity : Type :=
| Fixed (n : nat)
| Range (lo hi : nat)
| AtLeast (n : nat).

Definition is_cmd_ok (r : CommandResult) : bool :=
  match r with CmdOk _ => true | CmdError _ => false end.

(** [CommandResult::Ok(ResponseValue::SimpleString(s))] and the like. *)
Definition ok_simple (s : string) : CommandResult := CmdOk (SimpleString (bytes_of_string s)).
Definition ok_int (i : Z) : CommandResult := CmdOk (Integer i).
Definition err (s : string) : CommandResult := CmdError (bytes_of_string s).

(** ["ERR wrong number of arguments for 'X' command"] *)
Definition wrong_args (name : string) : CommandResult :=
  CmdError (b#"ERR wrong number of arguments for '" ++ bytes_of_string name ++ b#"' command").

(** ** Arguments *)
Definition arg_text (a : bytes) : result bytes bytes :=
  match from_utf8 a with
  | Some s => Ok s
  | None => Err (b#"ERR value is not a valid UTF-8 string in this position")
  end.

(** Indexing [args] out of range panics. *)
Definition arg_str (args : list bytes) (i : nat) : M (result bytes bytes) :=
  match args !! i with
  | Some a => mret (arg_text a)
  | None => panic
  end.

(** [match r { Ok(x) => x, Err(e) => return CommandResult::Error(e) }] for
    texts, and the same for store operations, whose errors are rendered
    for the client. *)
Definition or_return {A} (m : M (result bytes A)) (k : A -> M CommandResult) : M CommandResult :=
  r ← m; match r with Ok a => k a | Err e => mret (CmdError e) end.

Definition or_fail {A} (m : M (Result A)) (k : A -> M CommandResult) : M CommandResult :=
  r ← m; match r with Ok a => k a | Err e => mret (CmdError (to_client_error e)) end.

Notation "x ←! m ; k" := (or_return m (fun x => k))
  (at level 20, m at level 100, k at level 200, only parsing) : potato_scope.
Notation "x ←$ m ; k" := (or_fail m (fun x => k))
  (at level 20, m at level 100, k at level 200, only parsing) : potato_scope.

(** ** The [Command] trait *)
Record Command : Type := mkCommand {
  execute : list bytes -> M CommandResult;
  cmd_name : bytes;
  arity : CommandArity;
  is_mutation : bool;
  is_terminal : bool
}.

(** ** Parsed commands *)
Definition total_args (cmd : ParsedCommand) : nat := S (length (args cmd)).

Definition arity_message (name expected : bytes) (total : nat) : bytes :=
  b#"wrong number of arguments for '" ++ name ++ b#"' command: expected " ++ expected
    ++ b#", got " ++ dec (Z.of_nat total).

Definition dec_nat (n : nat) : bytes := dec (Z.of_nat n).

Definition validate_arity (cmd : ParsedCommand) (a : CommandArity) : result bytes unit :=
  let total := total_args cmd in
  match a with
  | Fixed expected =>
      if negb (total =? expected)%nat then Err (arity_message (name cmd) (dec_nat expected) total)
      else Ok tt
  | Range min max =>
      if (total <? min)%nat || (max <? total)%nat then
        Err (arity_message (name cmd) (dec_nat min ++ b#"-" ++ dec_nat max) total)
      else Ok tt
  | AtLeast min =>
      if (total <? min)%nat then Err (arity_message (name cmd) (b#"at least " ++ dec_nat min) total)
      else Ok tt
  end.

(** [&[T].join(sep)] *)
Fixpoint join (sep : bytes) (l : list bytes) : bytes :=
  match l with
  | [] => []
  | [x] => x
  | x :: l' => x ++ sep ++ join sep l'
  end.

Definition MAX_REPORTED_ARGS : nat := 5.

Definition format_unknown_command (name : bytes) (args : list bytes) : bytes :=
  let head := b#"ERR unknown command '" ++ name ++ b#"', with args beginning with: " in
  match args with
  | [] => head
  | _ =>
      let quoted := map (fun a => b#"'" ++ from_utf8_lossy a ++ b#"'") (take MAX_REPORTED_ARGS args) in
      let quoted := if (MAX_REPORTED_ARGS <? length args)%nat then quoted ++ [b#"..."] else quoted in
      head ++ join (b#", ") quoted
  end.

(** ** The registry *)
Abbreviation CommandRegistry := (gmap bytes Command).

Section Registry.
Context {E : Env}.

Definition upcase (s : bytes) : bytes := to_uppercase upper_table s.

Definition new_registry : CommandRegistry := ∅.

Definition register (r : CommandRegistry) (command : Command) : CommandRegistry :=
  <[upcase (cmd_name command) := command]> r.

Definition registry_execute (r : CommandRegistry) (cmd : ParsedCommand) : M CommandResult :=
  match r !! upcase (name cmd) with
  | Some command =>
      match validate_arity cmd (arity command) with
      | Err e => mret (CmdError (b#"ERR " ++ e))
      | Ok _ => execute command (args cmd)
      end
  | None => mret (CmdError (format_unknown_command (name cmd) (args cmd)))
  end.

Definition has_command (r : CommandRegistry) (name : bytes) : bool :=
  bool_decide (is_Some (r !! upcase name)).

Definition command_names (r : CommandRegistry) : M (list bytes) :=
  l ← iterate r; mret (map fst l).

Definition command_count (r : CommandRegistry) : nat := size r.

Definition get_command_info (r : CommandRegistry) (name : bytes) : option (bytes * CommandArity) :=
  (fun c => (cmd_name c, arity c)) <$> r !! upcase name.

Definition registry_is_mutation (r : CommandRegistry) (name : bytes) : bool :=
  default false (is_mutation <$> r !! upcase name).

Definition registry_is_terminal (r : CommandRegistry) (name : bytes) : bool :=
  default false (is_terminal <$> r !! upcase name).

End Registry.
