(* ===== verification/StringCommands.v ===== *)
(** * SET, GET, DEL, EXISTS, MGET, MSET (src/src/commands/string.rs) *)

From S2P Require Import Prelude Numbers Utf8 Errors Values World MemoryStore Protocol Command.

Definition SYNTAX : bytes := b#"ERR syntax error".
Definition NOT_INT : bytes := b#"ERR value is not an integer or out of range".

(** ** Options of SET *)
Inductive SetTtlChoice : Type :=
| Default
| KeepTtlChoice
| Seconds (n : Z)
| Milliseconds (n : Z)
| UnixSeconds (n : Z)
| UnixMilliseconds (n : Z).

Record SetOptions : Type := mkSetOptions {
  opt_ttl : SetTtlChoice;
  opt_existence : SetExistence;
  opt_get : bool
}.

Definition default_options : SetOptions := mkSetOptions Default SAlways false.

Definition with_existence (o : SetOptions) (e : SetExistence) : SetOptions :=
  mkSetOptions (opt_ttl o) e (opt_get o).
Definition with_ttl (o : SetOptions) (t : SetTtlChoice) : SetOptions :=
  mkSetOptions t (opt_existence o) (opt_get o).
Definition with_get (o : SetOptions) : SetOptions :=
  mkSetOptions (opt_ttl o) (opt_existence o) true.

(** The operand of EX, PX, EXAT and PXAT. *)
Definition ttl_choice (token : bytes) (n : Z) : SetTtlChoice :=
  if bytes_eqb token (b#"EX") then Seconds n
  else if bytes_eqb token (b#"PX") then Milliseconds n
  else if bytes_eqb token (b#"EXAT") then UnixSeconds n
  else UnixMilliseconds n.

Definition is_one_of (s : bytes) (l : list bytes) : bool := existsb (bytes_eqb s) l.

(** The scanning loop, with its three flags as accumulators ([opts.get]
    is its own flag). *)
Fixpoint parse_set_loop (l : list bytes) (opts : SetOptions) (ttl_set existence_set : bool) :
    result bytes SetOptions :=
  match l with
  | [] => Ok opts
  | a :: l1 =>
      match from_utf8 a with
      | None => Err SYNTAX
      | Some token_str =>
          let token := to_ascii_uppercase token_str in
          if is_one_of token [b#"NX"; b#"XX"] then
            if existence_set then Err SYNTAX
            else
              parse_set_loop l1
                (with_existence opts (if bytes_eqb token (b#"NX") then OnlyIfNotExists else OnlyIfExists))
                ttl_set true
          else if bytes_eqb token (b#"KEEPTTL") then
            if ttl_set then Err SYNTAX
            else parse_set_loop l1 (with_ttl opts KeepTtlChoice) true existence_set
          else if is_one_of token [b#"EX"; b#"PX"; b#"EXAT"; b#"PXAT"] then
            if ttl_set then Err SYNTAX
            else
              match l1 with
              | [] => Err SYNTAX
              | b :: l2 =>
                  match from_utf8 b ≫= parse_u64 with
                  | None => Err NOT_INT
                  | Some n =>
                      if is_one_of token [b#"EX"; b#"PX"] && (n =? 0) then
                        Err (b#"ERR invalid expire time in 'set' command")
                      else parse_set_loop l2 (with_ttl opts (ttl_choice token n)) true existence_set
                  end
              end
          else if bytes_eqb token (b#"GET") then
            if opt_get opts then Err SYNTAX
            else parse_set_loop l1 (with_get opts) ttl_set existence_set
          else Err SYNTAX
      end
  end.

Definition parse_set_options (l : list bytes) : result bytes SetOptions :=
  parse_set_loop l default_options false false.

Section Commands.
Context {E : Env}.

(** An instant [target_ms] milliseconds after the epoch; the past is one
    millisecond ago. *)
Definition unix_deadline (target_ms : Z) : M (result bytes Instant) :=
  now_ms ← unix_millis;
  match now_ms with
  | None => mret (Err (b#"ERR system clock error"))
  | Some now_ms =>
      if target_ms <=? now_ms then
        t ← now; d ← instant_sub t (from_millis 1); mret (Ok d)
      else
        t ← now; d ← instant_add t (from_millis (target_ms - now_ms)); mret (Ok d)
  end.

Definition resolve_ttl (choice : SetTtlChoice) : M (result bytes SetTtlOption) :=
  match choice with
  | Default => mret (Ok TNone)
  | KeepTtlChoice => mret (Ok KeepTtl)
  | Seconds n => t ← now; d ← instant_add t (from_secs n); mret (Ok (At d))
  | Milliseconds n => t ← now; d ← instant_add t (from_millis n); mret (Ok (At d))
  | UnixSeconds n =>
      d ← unix_deadline (saturating_mul_u64 n 1000); mret (At <$> d)
  | UnixMilliseconds n => d ← unix_deadline n; mret (At <$> d)
  end.

(** The reply once the store has answered. *)
Definition set_reply (want_get : bool) (outcome : SetOutcome) : CommandResult :=
  if want_get then
    match previous outcome with
    | Some sv =>
        match value sv with
        | VString _ | VInteger _ => CmdOk (bulk (as_string (value sv)))
        | _ => CmdError WRONGTYPE
        end
    | None => CmdOk nil_bulk
    end
  else if applied outcome then ok_simple "OK"
  else CmdOk nil_bulk.

Definition set_execute (args : list bytes) : M CommandResult :=
  if (length args <? 2)%nat then mret (wrong_args "SET")
  else
    key ←! arg_str args 0;
    match args !! 1%nat with
    | None => panic
    | Some v =>
        opts ←! mret (parse_set_options (drop 2 args));
        ttl ←! resolve_ttl (opt_ttl opts);
        outcome ←$ set_with_options key (VString v) ttl (opt_existence opts);
        mret (set_reply (opt_get opts) outcome)
    end.

Definition SetCommand : Command := mkCommand set_execute (b#"SET") (AtLeast 3) true false.

(** A stored value as GET shows it. *)
Definition get_reply (v : ValueType) : ResponseValue :=
  match as_bytes v with
  | Some b => bulk b
  | None => bulk (as_string v)
  end.

Definition get_execute (args : list bytes) : M CommandResult :=
  if negb (length args =? 1)%nat then mret (wrong_args "GET")
  else
    key ←! arg_str args 0;
    r ←$ get key;
    match r with
    | Some sv => mret (CmdOk (get_reply (value sv)))
    | None => mret (CmdOk nil_bulk)
    end.

Definition GetCommand : Command := mkCommand get_execute (b#"GET") (Fixed 2) false false.

(** The loops of DEL and EXISTS: count the [true]s of an operation. *)
Fixpoint count_loop (op : bytes -> M (Result bool)) (l : list bytes) (count : Z) : M CommandResult :=
  match l with
  | [] => mret (ok_int count)
  | a :: l' =>
      key ←! mret (arg_text a);
      b ←$ op key;
      count_loop op l' (if (b : bool) then count + 1 else count)
  end.

Definition del_execute (args : list bytes) : M CommandResult :=
  match args with
  | [] => mret (wrong_args "DEL")
  | _ => count_loop delete_key args 0
  end.

Definition DelCommand : Command := mkCommand del_execute (b#"DEL") (AtLeast 2) true false.

Definition exists_execute (args : list bytes) : M CommandResult :=
  match args with
  | [] => mret (wrong_args "EXISTS")
  | _ => count_loop exists_ args 0
  end.

Definition ExistsCommand : Command := mkCommand exists_execute (b#"EXISTS") (AtLeast 2) false false.

(** One slot of MGET: only strings and integers show. *)
Definition mget_slot (r : option StoredValue) : ResponseValue :=
  match r with
  | Some sv =>
      match value sv with
      | VString b => bulk b
      | VInteger _ => bulk (as_string (value sv))
      | _ => nil_bulk
      end
  | None => nil_bulk
  end.

Fixpoint mget_loop (l : list bytes) (out : list ResponseValue) : M CommandResult :=
  match l with
  | [] => mret (CmdOk (Array out))
  | a :: l' =>
      key ←! mret (arg_text a);
      r ←$ get key;
      mget_loop l' (out ++ [mget_slot r])
  end.

Definition mget_execute (args : list bytes) : M CommandResult :=
  match args with
  | [] => mret (wrong_args "MGET")
  | _ => mget_loop args []
  end.

Definition MgetCommand : Command := mkCommand mget_execute (b#"MGET") (AtLeast 2) false false.

Fixpoint mset_loop (l : list bytes) : M CommandResult :=
  match l with
  | [] => mret (ok_simple "OK")
  | [_] => panic (* [args[i + 1]] out of range; the length is even *)
  | a :: v :: l' =>
      key ←! mret (arg_text a);
      _ ←$ set key (VString v);
      mset_loop l'
  end.

Definition mset_execute (args : list bytes) : M CommandResult :=
  if bool_decide (args = []) || negb (Nat.even (length args)) then mret (wrong_args "MSET")
  else mset_loop args.

Definition MsetCommand : Command := mkCommand mset_execute (b#"MSET") (AtLeast 3) true false.

End Commands.

Example set_get :
  let r : CommandRegistry := register (E := env_ms) (register (E := env_ms) new_registry (SetCommand (E := env_ms)))
             (GetCommand (E := env_ms)) in
  let run c w := registry_execute (E := env_ms) r c w in
  (run (mkParsedCommand (b#"get") [b#"k"] 0)
     (run (mkParsedCommand (b#"set") [b#"k"; b#"v"; b#"ex"; b#"10"] 0) (mkWorld empty_store 0 no_process)).2).1
  = Ret (CmdOk (bulk (b#"v"))).
Proof. vm_compute. reflexivity. Qed.
