(* ===== verification/TtlCommands.v ===== *)
(** * EXPIRE, PEXPIRE, EXPIREAT, PEXPIREAT, TTL, PTTL (src/src/commands/ttl.rs)
    and INCR, DECR (src/src/commands/atomic.rs) *)

From S2P Require Import Prelude Numbers Utf8 Errors Values World MemoryStore Protocol Command StringCommands.

Definition parse_expire_flag (l : list bytes) : result bytes ExpireFlag :=
  match l with
  | [] => Ok FNone
  | _ :: _ :: _ => Err SYNTAX
  | [a] =>
      match from_utf8 a with
      | None => Err SYNTAX
      | Some s =>
          let token := to_ascii_uppercase s in
          if bytes_eqb token (b#"NX") then Ok Nx
          else if bytes_eqb token (b#"XX") then Ok Xx
          else if bytes_eqb token (b#"GT") then Ok Gt
          else if bytes_eqb token (b#"LT") then Ok Lt
          else Err SYNTAX
      end
  end.

Section Commands.
Context {E : Env}.

(** A [u64] argument; text that is not UTF-8 gets the same answer as text
    that is not a number. *)
Definition arg_u64 (args : list bytes) (i : nat) : M (result bytes Z) :=
  match args !! i with
  | None => panic
  | Some a => mret (match from_utf8 a ≫= parse_u64 with Some n => Ok n | None => Err NOT_INT end)
  end.

Definition int_reply (b : bool) : CommandResult := ok_int (if b then 1 else 0).

Definition expire_execute (args : list bytes) : M CommandResult :=
  if (length args <? 2)%nat then mret (wrong_args "EXPIRE")
  else
    key ←! arg_str args 0;
    ttl_seconds ←! arg_u64 args 1;
    flag ←! mret (parse_expire_flag (drop 2 args));
    b ←$ expire_with_options key ttl_seconds flag;
    mret (int_reply b).

Definition ExpireCommand : Command := mkCommand expire_execute (b#"EXPIRE") (Range 3 4) true false.

Definition pexpire_execute (args : list bytes) : M CommandResult :=
  if (length args <? 2)%nat then mret (wrong_args "PEXPIRE")
  else
    key ←! arg_str args 0;
    millis ←! arg_u64 args 1;
    flag ←! mret (parse_expire_flag (drop 2 args));
    t ← now;
    deadline ← instant_add t (from_millis millis);
    b ←$ expire_at_with_options key deadline flag;
    mret (int_reply b).

Definition PexpireCommand : Command := mkCommand pexpire_execute (b#"PEXPIRE") (Range 3 4) true false.

(** The same computation as for EXAT and PXAT. *)
Definition resolve_unix_target (target_ms : Z) : M (result bytes Instant) :=
  now_ms ← unix_millis;
  match now_ms with
  | None => mret (Err (b#"ERR system clock error"))
  | Some now_ms =>
      if target_ms <=? now_ms then
        t ← now; d ← instant_sub t (from_millis 1); mret (Ok d)
      else
        t ← now; d ← instant_add t (from_millis (target_ms - now_ms)); mret (Ok d)
  end.

Definition expireat_execute (args : list bytes) : M CommandResult :=
  if (length args <? 2)%nat then mret (wrong_args "EXPIREAT")
  else
    key ←! arg_str args 0;
    secs ←! arg_u64 args 1;
    flag ←! mret (parse_expire_flag (drop 2 args));
    deadline ←! resolve_unix_target (saturating_mul_u64 secs 1000);
    b ←$ expire_at_with_options key deadline flag;
    mret (int_reply b).

Definition ExpireatCommand : Command := mkCommand expireat_execute (b#"EXPIREAT") (Range 3 4) true false.

Definition pexpireat_execute (args : list bytes) : M CommandResult :=
  if (length args <? 2)%nat then mret (wrong_args "PEXPIREAT")
  else
    key ←! arg_str args 0;
    target_ms ←! arg_u64 args 1;
    flag ←! mret (parse_expire_flag (drop 2 args));
    deadline ←! resolve_unix_target target_ms;
    b ←$ expire_at_with_options key deadline flag;
    mret (int_reply b).

Definition PexpireatCommand : Command :=
  mkCommand pexpireat_execute (b#"PEXPIREAT") (Range 3 4) true false.

Definition ttl_execute (args : list bytes) : M CommandResult :=
  if negb (length args =? 1)%nat then mret (wrong_args "TTL")
  else key ←! arg_str args 0; n ←$ ttl key; mret (ok_int n).

Definition TtlCommand : Command := mkCommand ttl_execute (b#"TTL") (Fixed 2) false false.

Definition pttl_execute (args : list bytes) : M CommandResult :=
  if negb (length args =? 1)%nat then mret (wrong_args "PTTL")
  else key ←! arg_str args 0; n ←$ pttl key; mret (ok_int n).

Definition PttlCommand : Command := mkCommand pttl_execute (b#"PTTL") (Fixed 2) false false.

(** ** Counters *)
Definition incr_execute (args : list bytes) : M CommandResult :=
  match args with
  | [] => mret (wrong_args "INCR")
  | _ => key ←! arg_str args 0; n ←$ incr key; mret (ok_int n)
  end.

Definition IncrCommand : Command := mkCommand incr_execute (b#"INCR") (Fixed 2) true false.

Definition decr_execute (args : list bytes) : M CommandResult :=
  match args with
  | [] => mret (wrong_args "DECR")
  | _ => key ←! arg_str args 0; n ←$ decr key; mret (ok_int n)
  end.

Definition DecrCommand : Command := mkCommand decr_execute (b#"DECR") (Fixed 2) true false.

End Commands.
