(* ===== verification/HashCommands.v ===== *)
(** * HSET, HGET, HDEL, HGETALL, HMGET, HKEYS, HVALS, HLEN, HEXISTS
    (src/src/commands/hash.rs) *)

From S2P Require Import Prelude Numbers Utf8 Errors Values World MemoryStore Protocol Command StringCommands TtlCommands.

Section Commands.
Context {E : Env}.

Fixpoint hset_loop (key : bytes) (l : list bytes) (new_fields : Z) : M CommandResult :=
  match l with
  | [] => mret (ok_int new_fields)
  | [a] => _ ←! mret (arg_text a); panic (* no value; the length is odd *)
  | a :: b :: l' =>
      field ←! mret (arg_text a);
      val ←! mret (arg_text b);
      is_new_field ←$ hset key field val;
      hset_loop key l' (if (is_new_field : bool) then new_fields + 1 else new_fields)
  end.

Definition hset_execute (args : list bytes) : M CommandResult :=
  if (length args <? 3)%nat || negb (Nat.even (length args - 1)) then mret (wrong_args "HSET")
  else key ←! arg_str args 0; hset_loop key (drop 1 args) 0.

Definition HsetCommand : Command := mkCommand hset_execute (b#"HSET") (AtLeast 4) true false.

Definition opt_bulk (r : option bytes) : ResponseValue :=
  match r with Some v => bulk v | None => nil_bulk end.

Definition hget_execute (args : list bytes) : M CommandResult :=
  if negb (length args =? 2)%nat then mret (wrong_args "HGET")
  else
    key ←! arg_str args 0;
    field ←! arg_str args 1;
    r ←$ hget key field;
    mret (CmdOk (opt_bulk r)).

Definition HgetCommand : Command := mkCommand hget_execute (b#"HGET") (Fixed 3) false false.

Definition hdel_execute (args : list bytes) : M CommandResult :=
  if (length args <? 2)%nat then mret (wrong_args "HDEL")
  else key ←! arg_str args 0; count_loop (hdel key) (drop 1 args) 0.

Definition HdelCommand : Command := mkCommand hdel_execute (b#"HDEL") (AtLeast 3) true false.

(** Fields and values alternate. *)
Definition flatten (fields : list (bytes * bytes)) : list ResponseValue :=
  concat (map (fun '(field, val) => [bulk field; bulk val]) fields).

(** The commands on a whole hash: one argument, one [hgetall]. *)
Definition whole_hash (name : string) (reply : list (bytes * bytes) -> ResponseValue) (args : list bytes) :
    M CommandResult :=
  if negb (length args =? 1)%nat then mret (wrong_args name)
  else
    key ←! arg_str args 0;
    fields ←$ hgetall key;
    mret (CmdOk (reply fields)).

Definition hgetall_execute : list bytes -> M CommandResult :=
  whole_hash "HGETALL" (fun fields => Array (flatten fields)).

Definition HgetallCommand : Command := mkCommand hgetall_execute (b#"HGETALL") (Fixed 2) false false.

Fixpoint hmget_loop (key : bytes) (l : list bytes) (out : list ResponseValue) : M CommandResult :=
  match l with
  | [] => mret (CmdOk (Array out))
  | a :: l' =>
      field ←! mret (arg_text a);
      r ←$ hget key field;
      hmget_loop key l' (out ++ [opt_bulk r])
  end.

Definition hmget_execute (args : list bytes) : M CommandResult :=
  if (length args <? 2)%nat then mret (wrong_args "HMGET")
  else key ←! arg_str args 0; hmget_loop key (drop 1 args) [].

Definition HmgetCommand : Command := mkCommand hmget_execute (b#"HMGET") (AtLeast 3) false false.

Definition hkeys_execute : list bytes -> M CommandResult :=
  whole_hash "HKEYS" (fun fields => Array (map (fun '(field, _) => bulk field) fields)).

Definition HkeysCommand : Command := mkCommand hkeys_execute (b#"HKEYS") (Fixed 2) false false.

Definition hvals_execute : list bytes -> M CommandResult :=
  whole_hash "HVALS" (fun fields => Array (map (fun '(_, val) => bulk val) fields)).

Definition HvalsCommand : Command := mkCommand hvals_execute (b#"HVALS") (Fixed 2) false false.

Definition hlen_execute : list bytes -> M CommandResult :=
  whole_hash "HLEN" (fun fields => Integer (wrap_i64 (zlen fields))).

Definition HlenCommand : Command := mkCommand hlen_execute (b#"HLEN") (Fixed 2) false false.

Definition hexists_execute (args : list bytes) : M CommandResult :=
  if negb (length args =? 2)%nat then mret (wrong_args "HEXISTS")
  else
    key ←! arg_str args 0;
    field ←! arg_str args 1;
    b ←$ hexists key field;
    mret (int_reply b).

Definition HexistsCommand : Command := mkCommand hexists_execute (b#"HEXISTS") (Fixed 3) false false.

End Commands.
