(* ===== verification/Glob.v ===== *)
(** * Glob patterns (src/src/commands/server.rs, [glob_match])

    The matcher walks the pattern and the text with two cursors and
    remembers the last [*] to return to; a cursor is the suffix that
    starts at it.  [matches] is the meaning of a pattern, and
    [glob_correct] shows that returning to the last [*] only, never to an
    earlier one, loses nothing, and that the loop ends. *)

From S2P Require Import Prelude.

Definition BACKSLASH : byte := of_u8 92.
Definition QUESTION : byte := of_u8 63.
Definition ASTERISK : byte := of_u8 42.
Definition LBRACKET : byte := of_u8 91.
Definition RBRACKET : byte := of_u8 93.
Definition CARET : byte := of_u8 94.
Definition DASH : byte := of_u8 45.

(** ** The code *)

(** The member loop of [match_class]: the rest after the closing bracket
    and whether [c] was matched. *)
Fixpoint class_loop (p : bytes) (c : byte) (matched : bool) : option (bytes * bool) :=
  match p with
  | [] => None
  | x :: p1 =>
      if byte_eqb x RBRACKET then Some (p1, matched)
      else
        match p1 with
        | d :: z :: p3 =>
            if byte_eqb d DASH && negb (byte_eqb z RBRACKET) then
              class_loop p3 c (matched || (u8 x <=? u8 c) && (u8 c <=? u8 z))
            else class_loop p1 c (matched || byte_eqb x c)
        | _ => class_loop p1 c (matched || byte_eqb x c)
        end
  end.

(** [p] starts after the opening bracket. *)
Definition match_class (p : bytes) (c : byte) : option (bytes * bool) :=
  match p with
  | x :: p1 =>
      if byte_eqb x CARET then (fun '(rest, m) => (rest, xorb m true)) <$> class_loop p1 c false
      else (fun '(rest, m) => (rest, xorb m false)) <$> class_loop p c false
  | [] => None
  end.

(** One attempt at the current position: the cursors after a match. *)
Inductive GlobStep : Type :=
| Advance (p : bytes)
| AtStar (p : bytes)
| Mismatch.

Definition glob_step (p : bytes) (c : byte) : GlobStep :=
  match p with
  | [] => Mismatch
  | x :: p1 =>
      if byte_eqb x BACKSLASH then
        match p1 with
        | y :: p2 => if byte_eqb y c then Advance p2 else Mismatch
        | [] => Mismatch
        end
      else if byte_eqb x QUESTION then Advance p1
      else if byte_eqb x ASTERISK then AtStar p1
      else if byte_eqb x LBRACKET then
        match match_class p1 c with
        | Some (p2, true) => Advance p2
        | _ => Mismatch
        end
      else if byte_eqb x c then Advance p1
      else Mismatch
  end.

Fixpoint skip_stars (p : bytes) : bytes :=
  match p with
  | x :: p1 => if byte_eqb x ASTERISK then skip_stars p1 else p
  | [] => []
  end.

(** The main loop; [star] holds the pattern after the last [*] and the
    text position it is tried at.  [None] means out of fuel. *)
Fixpoint glob_loop (fuel : nat) (p t : bytes) (star : option (bytes * bytes)) : option bool :=
  match fuel with
  | O => None
  | S f =>
      match t with
      | [] => Some (bool_decide (skip_stars p = []))
      | c :: t1 =>
          match glob_step p c with
          | Advance p' => glob_loop f p' t1 star
          | AtStar p' => glob_loop f p' t (Some (p', t))
          | Mismatch =>
              match star with
              | Some (sp, st) => glob_loop f sp (drop 1 st) (Some (sp, drop 1 st))
              | None => Some false
              end
          end
      end
  end.

(** Iterations that are always enough. *)
Definition glob_fuel (p t : bytes) : nat := ((length t + 2) * (length p + 1) + 1)%nat.

Definition glob_match_bytes (p t : bytes) : bool :=
  default false (glob_loop (glob_fuel p t) p t None).

Definition glob_match (pattern text : bytes) : bool := glob_match_bytes pattern text.

(** ** The meaning of a pattern *)

(** The members of a class: single octets and ranges, up to the bracket. *)
Fixpoint class_items (p : bytes) : option (list (byte * byte) * bytes) :=
  match p with
  | [] => None
  | x :: p1 =>
      if byte_eqb x RBRACKET then Some ([], p1)
      else
        match p1 with
        | d :: z :: p3 =>
            if byte_eqb d DASH && negb (byte_eqb z RBRACKET) then
              '(l, r) ← class_items p3; Some ((x, z) :: l, r)
            else '(l, r) ← class_items p1; Some ((x, x) :: l, r)
        | _ => '(l, r) ← class_items p1; Some ((x, x) :: l, r)
        end
  end.

(** Membership in a list of ranges. *)
Definition in_items (c : byte) (l : list (byte * byte)) : bool :=
  existsb (fun '(lo, hi) => in_range c (u8 lo) (u8 hi)) l.

Definition special (x : byte) : bool :=
  byte_eqb x BACKSLASH || byte_eqb x QUESTION || byte_eqb x ASTERISK || byte_eqb x LBRACKET.

Inductive matches : bytes -> bytes -> Prop :=
| m_end : matches [] []
| m_star p t : matches p t -> matches (ASTERISK :: p) t
| m_star_more p c t : matches (ASTERISK :: p) t -> matches (ASTERISK :: p) (c :: t)
| m_any p c t : matches p t -> matches (QUESTION :: p) (c :: t)
| m_escape p c t : matches p t -> matches (BACKSLASH :: c :: p) (c :: t)
| m_literal p c t : special c = false -> matches p t -> matches (c :: p) (c :: t)
| m_class p l rest c t :
    (forall p', p <> CARET :: p') -> class_items p = Some (l, rest) -> in_items c l = true ->
    matches rest t -> matches (LBRACKET :: p) (c :: t)
| m_class_neg p l rest c t :
    class_items p = Some (l, rest) -> in_items c l = false ->
    matches rest t -> matches (LBRACKET :: CARET :: p) (c :: t).

(** ** Lemmas *)
Lemma class_items_cons x p1 :
  class_items (x :: p1) =
    if byte_eqb x RBRACKET then Some ([], p1)
    else
      match p1 with
      | d :: z :: p3 =>
          if byte_eqb d DASH && negb (byte_eqb z RBRACKET) then
            '(l, r) ← class_items p3; Some ((x, z) :: l, r)
          else '(l, r) ← class_items p1; Some ((x, x) :: l, r)
      | _ => '(l, r) ← class_items p1; Some ((x, x) :: l, r)
      end.
Proof. reflexivity. Qed.

Lemma class_loop_cons x p1 c m :
  class_loop (x :: p1) c m =
    if byte_eqb x RBRACKET then Some (p1, m)
    else
      match p1 with
      | d :: z :: p3 =>
          if byte_eqb d DASH && negb (byte_eqb z RBRACKET) then
            class_loop p3 c (m || (u8 x <=? u8 c) && (u8 c <=? u8 z))
          else class_loop p1 c (m || byte_eqb x c)
      | _ => class_loop p1 c (m || byte_eqb x c)
      end.
Proof. reflexivity. Qed.

Lemma in_range_self x c : in_range c (u8 x) (u8 x) = byte_eqb x c.
Proof.
  unfold in_range. destruct (byte_eqb_spec x c) as [->|Hne].
  - by rewrite Z.leb_refl.
  - destruct (Z.leb_spec (u8 x) (u8 c)), (Z.leb_spec (u8 c) (u8 x)); simpl; try done.
    destruct Hne. apply u8_inj. lia.
Qed.

(** The loop computes membership in the listed ranges. *)
Lemma class_loop_items p c m :
  class_loop p c m = (fun '(l, r) => (r, m || in_items c l)) <$> class_items p.
Proof.
  remember (length p) as n eqn:Hn. revert p m Hn.
  induction (lt_wf n) as [n _ IH]; intros [|x p1] m ->; [done|].
  rewrite class_loop_cons, class_items_cons.
  destruct (byte_eqb x RBRACKET). { simpl. by rewrite orb_false_r. }
  assert (forall m, class_loop p1 c (m || byte_eqb x c) =
    (fun '(l, r) => (r, m || in_items c l)) <$> ('(l, r) ← class_items p1; Some ((x, x) :: l, r))) as H1.
  { intros m'. rewrite (IH (length p1)) by (simpl; lia || done).
    destruct (class_items p1) as [[l r]|]; [|done]. simpl. by rewrite in_range_self, orb_assoc. }
  destruct p1 as [|d [|z p3]]; try apply H1.
  destruct (byte_eqb d DASH && negb (byte_eqb z RBRACKET)); [|apply H1].
  rewrite (IH (length p3)) by (simpl; lia || done).
  destruct (class_items p3) as [[l r]|]; [|done]. simpl. by rewrite orb_assoc.
Qed.

Lemma class_items_shorter p l r : class_items p = Some (l, r) -> (length r < length p)%nat.
Proof.
  remember (length p) as n eqn:Hn. revert p l r Hn.
  induction (lt_wf n) as [n _ IH]; intros [|x p1] l r ->; [done|]. rewrite class_items_cons.
  destruct (byte_eqb x RBRACKET). { intros [= <- <-]. simpl. lia. }
  assert (('(l, r) ← class_items p1; Some ((x, x) :: l, r)) = Some (l, r) -> (length r < length (x :: p1))%nat) as H1.
  { intros ([l' r'] & H & [= <- <-])%bind_Some. apply (IH (length p1)) in H; simpl; lia || done. }
  destruct p1 as [|d [|z p3]]; try apply H1.
  destruct (byte_eqb d DASH && negb (byte_eqb z RBRACKET)); [|apply H1].
  intros ([l' r'] & H & [= <- <-])%bind_Some. apply (IH (length p3)) in H; simpl in *; lia || done.
Qed.

(** What one attempt says about the meaning of the pattern. *)
Definition step_spec (p : bytes) (c : byte) (s : GlobStep) : Prop :=
  match s with
  | Advance p' =>
      (length p' < length p)%nat /\
      (forall t, matches p' t -> matches p (c :: t)) /\
      (forall x, matches p x -> exists d x', x = d :: x' /\ matches p' x')
  | AtStar p' => p = ASTERISK :: p'
  | Mismatch => forall t, ~ matches p (c :: t)
  end.

(** Inversion of [matches] at a known first octet. *)
Ltac inv_matches H :=
  inversion H; subst; clear H;
  try (exfalso; match goal with
       | H : special _ = false |- _ => vm_compute in H; discriminate H
       end);
  try discriminate.

Lemma class_step_spec p c :
  step_spec (LBRACKET :: p) c
    (match match_class p c with Some (p2, true) => Advance p2 | _ => Mismatch end).
Proof.
  unfold match_class. destruct p as [|x p1].
  { simpl. intros t H. by inv_matches H. }
  destruct (byte_eqb_spec x CARET) as [->|Hx]; rewrite class_loop_items.
  - destruct (class_items p1) as [[l r]|] eqn:Ei; simpl.
    2:{ intros t H. inv_matches H; simplify_eq; naive_solver congruence. }
    destruct (in_items c l) eqn:Ec; simpl.
    + intros t H. inv_matches H; simplify_eq; naive_solver congruence.
    + apply class_items_shorter in Ei as Hl. repeat split; [simpl; lia| |].
      * intros t Ht. by eapply m_class_neg.
      * intros y H. inv_matches H; simplify_eq; naive_solver.
  - destruct (class_items (x :: p1)) as [[l r]|] eqn:Ei; simpl.
    2:{ intros t H. inv_matches H; simplify_eq; naive_solver congruence. }
    destruct (in_items c l) eqn:Ec; simpl.
    + apply class_items_shorter in Ei as Hl. repeat split; [simpl in *; lia| |].
      * intros t Ht. eapply m_class; eauto. congruence.
      * intros y H. inv_matches H; simplify_eq; naive_solver.
    + intros t H. inv_matches H; simplify_eq; naive_solver congruence.
Qed.

Lemma glob_step_spec p c : step_spec p c (glob_step p c).
Proof.
  destruct p as [|x p1]; [by intros t H; inv_matches H|]. unfold glob_step.
  destruct (byte_eqb_spec x BACKSLASH) as [->|H1].
  { destruct p1 as [|y p2]; [by intros t H; inv_matches H|].
    destruct (byte_eqb_spec y c) as [->|Hne]; [|by intros t H; inv_matches H].
    repeat split; [simpl; lia|by constructor|]. intros x H. inv_matches H; eauto. }
  destruct (byte_eqb_spec x QUESTION) as [->|H2].
  { repeat split; [simpl; lia|by constructor|]. intros x H. inv_matches H; eauto. }
  destruct (byte_eqb_spec x ASTERISK) as [->|H3]; [done|].
  destruct (byte_eqb_spec x LBRACKET) as [->|H4]; [apply class_step_spec|].
  destruct (byte_eqb_spec x c) as [->|Hne].
  - repeat split; [simpl; lia| |].
    + intros t Ht. apply m_literal; [|done]. unfold special.
      unfold byte_eqb. by rewrite !bool_decide_eq_false_2.
    + intros y H. inversion H; subst; try done; eauto.
  - intros t H. inversion H; subst; done.
Qed.

(** ** Correctness of the loop *)
Lemma skip_stars_spec p : skip_stars p = [] <-> matches p [].
Proof.
  induction p as [|x p IH]; simpl; [split; [constructor|done]|].
  destruct (byte_eqb_spec x ASTERISK) as [->|Hx].
  - rewrite IH. split; [by constructor|]. intros H. by inv_matches H.
  - split; [done|]. intros H. by inv_matches H.
Qed.

Lemma matches_star_drop p t k : matches p (drop k t) -> matches (ASTERISK :: p) t.
Proof.
  revert t. induction k as [|k IH]; intros t H; [by apply m_star|].
  destruct t as [|c t]; [by apply m_star|]. apply m_star_more. by apply IH.
Qed.

Lemma matches_star_inv p t : matches (ASTERISK :: p) t -> exists k, matches p (drop k t) /\ (k <= length t)%nat.
Proof.
  intros H. remember (ASTERISK :: p) as q eqn:Hq. induction H; try discriminate.
  - injection Hq as ->. exists 0%nat. split; [done|lia].
  - destruct (IHmatches Hq) as (k & ? & ?). exists (S k). simpl. split; [done|lia].
  - injection Hq as -> ->. vm_compute in H. discriminate.
Qed.

(** The pattern [p] at [t] was reached from the pattern [sp] at [st]
    without meeting a [*]: every text that matches [sp] has, at the same
    distance, a rest that matches [p]. *)
Definition reached (sp st p t : bytes) : Prop :=
  exists n, t = drop n st /\ (n <= length st)%nat /\
    forall x, matches sp x -> (n <= length x)%nat /\ matches p (drop n x).

Lemma reached_refl p t : reached p t p t.
Proof. exists 0%nat. repeat split; [lia|lia|done]. Qed.

Lemma reached_advance sp st p c t p' :
  reached sp st p (c :: t) -> (forall x, matches p x -> exists d x', x = d :: x' /\ matches p' x') ->
  reached sp st p' t.
Proof.
  intros (n & Ht & Hn & Hx) Hp. exists (S n). rewrite <- Nat.add_1_r, <- drop_drop, <- Ht.
  split; [done|]. apply (f_equal length) in Ht as Hl. rewrite length_drop in Hl. simpl in Hl.
  split; [lia|]. intros x Hm. destruct (Hx x Hm) as [Hlx Hmx].
  destruct (Hp _ Hmx) as (d & x' & Hd & Hm'). apply (f_equal length) in Hd as Hl'.
  rewrite length_drop in Hl'. simpl in Hl'. split; [lia|].
  by rewrite <- Nat.add_1_r, <- drop_drop, Hd.
Qed.

(** The matches still open: at the cursors, or with [*] eating more. *)
Definition open_match (p t : bytes) (star : option (bytes * bytes)) : Prop :=
  matches p t \/
  match star with
  | Some (sp, st) => exists k, (1 <= k <= length st)%nat /\ matches sp (drop k st)
  | None => False
  end.

Definition star_ok (p t : bytes) (star : option (bytes * bytes)) : Prop :=
  match star with Some (sp, st) => reached sp st p t | None => True end.

(** A bound on the iterations left. *)
Definition glob_left (n : nat) (p t : bytes) (star : option (bytes * bytes)) : nat :=
  match star with
  | Some (_, st) => (length st * (n + 1) + length p)%nat
  | None => ((length t + 1) * (n + 1) + length p)%nat
  end.

(** Pattern cursors never point beyond the pattern, of length [n]. *)
Definition star_len (n : nat) (p : bytes) (star : option (bytes * bytes)) : Prop :=
  (length p <= n)%nat /\ match star with Some (sp, _) => (length sp <= n)%nat | None => True end.

Lemma open_end p star : star_ok p [] star -> (skip_stars p = [] <-> open_match p [] star).
Proof.
  intros Hok. rewrite skip_stars_spec. unfold open_match. split; [tauto|].
  intros [?|Hs]; [done|]. destruct star as [[sp st]|]; [|done].
  destruct Hs as (k & Hk & Hm). destruct Hok as (n & Hn & Hle & Hx).
  destruct (Hx _ Hm) as [Hl _]. apply (f_equal length) in Hn.
  rewrite length_drop in *. simpl in Hn. lia.
Qed.

Lemma open_star p t star :
  star_ok (ASTERISK :: p) t star -> (open_match (ASTERISK :: p) t star <-> open_match p t (Some (p, t))).
Proof.
  intros Hok. unfold open_match. split.
  - intros [Hm|Hs].
    + apply matches_star_inv in Hm as (k & Hk & Hl). destruct k; [by left|]. right. exists (S k).
      split; [lia|done].
    + destruct star as [[sp st]|]; [|done]. destruct Hs as (k & Hk & Hm).
      destruct Hok as (n & -> & Hle & Hx). destruct (Hx _ Hm) as [Hl Hp].
      rewrite drop_drop in Hp. apply matches_star_inv in Hp as (j & Hj & Hlj).
      rewrite drop_drop in Hj. rewrite length_drop in *. right. exists (k + j)%nat. split; [lia|].
      rewrite drop_drop. by replace (n + (k + j))%nat with (k + n + j)%nat by lia.
  - intros [Hm|(k & Hk & Hm)]; left; [by apply m_star|by eapply matches_star_drop].
Qed.

Lemma open_backtrack p c t sp st :
  star_ok p (c :: t) (Some (sp, st)) -> (forall t, ~ matches p (c :: t)) ->
  (open_match p (c :: t) (Some (sp, st)) <-> open_match sp (drop 1 st) (Some (sp, drop 1 st))) /\
  (1 <= length st)%nat.
Proof.
  intros (n & Hn & _) Hno. assert (1 <= length st)%nat as Hl.
  { apply (f_equal length) in Hn. rewrite length_drop in Hn. simpl in Hn. lia. }
  split; [|done]. unfold open_match. split.
  - intros [Hm|(k & Hk & Hm)]; [by destruct (Hno t)|].
    destruct (decide (k = 1%nat)) as [->|]; [by left|]. right. exists (k - 1)%nat.
    rewrite length_drop, drop_drop. split; [lia|]. by replace (1 + (k - 1))%nat with k by lia.
  - intros [Hm|(k & Hk & Hm)]; right; [by exists 1%nat|].
    rewrite drop_drop in Hm. rewrite length_drop in Hk. exists (1 + k)%nat. split; [lia|done].
Qed.

Lemma glob_loop_correct n f p t star :
  star_ok p t star -> star_len n p star -> (glob_left n p t star < f)%nat ->
  exists b, glob_loop f p t star = Some b /\ (b = true <-> open_match p t star).
Proof.
  revert p t star. induction f as [|f IH]; intros p t star Hok [Hlp Hls] Hf; [lia|]. cbn [glob_loop].
  destruct t as [|c t].
  { eexists. split; [done|]. rewrite bool_decide_eq_true. by apply open_end. }
  pose proof (glob_step_spec p c) as Hs. destruct (glob_step p c) as [p'|p'|]; simpl in Hs.
  - destruct Hs as (Hl & Hto & Hfrom).
    destruct (IH p' t star) as (b & -> & Hb).
    + destruct star as [[sp st]|]; [|done]. by eapply reached_advance.
    + split; [lia|done].
    + unfold glob_left in *. destruct star as [[]|]; simpl in *; lia.
    + exists b. split; [done|]. rewrite Hb. unfold open_match. split; (intros [?|?]; [left|by right]).
      * by apply Hto.
      * destruct (Hfrom _ H) as (d & x' & [= <- <-] & ?). done.
  - subst p. destruct (IH p' (c :: t) (Some (p', c :: t))) as (b & -> & Hb).
    + apply reached_refl.
    + simpl in Hlp. split; lia.
    + unfold glob_left in *. destruct star as [[sp st]|]; simpl in *; [|lia].
      destruct Hok as (m & Hm & Hle & _). apply (f_equal length) in Hm. rewrite length_drop in Hm.
      simpl in Hm. nia.
    + exists b. split; [done|]. rewrite Hb. symmetry. by apply open_star.
  - destruct star as [[sp st]|].
    + destruct (open_backtrack _ _ _ _ _ Hok Hs) as [Hiff Hst].
      destruct (IH sp (drop 1 st) (Some (sp, drop 1 st))) as (b & -> & Hb).
      * apply reached_refl.
      * split; done.
      * unfold glob_left in *. rewrite length_drop. nia.
      * exists b. split; [done|]. by rewrite Hb, Hiff.
    + exists false. split; [done|]. split; [done|]. intros [H|[]]. by destruct (Hs t).
Qed.

(** C32: KEYS patterns. The matching loop always ends within the bound on
    its iterations, and answers true exactly when the text has the form
    the pattern describes: [*] any sequence, [?] one octet, a class one
    octet in (or, after a caret, not in) the listed octets and ranges, a
    backslash the next octet literally, anything else itself. A class that
    is not closed and a trailing backslash match nothing. *)
Theorem glob_correct (p t : bytes) :
  glob_loop (glob_fuel p t) p t None = Some (glob_match p t) /\
  (glob_match p t = true <-> matches p t).
Proof.
  destruct (glob_loop_correct (length p) (glob_fuel p t) p t None) as (b & Hb & Hiff); [done|done| |].
  - unfold glob_left, glob_fuel. lia.
  - unfold glob_match, glob_match_bytes. rewrite Hb. split; [done|]. simpl. rewrite Hiff.
    unfold open_match. tauto.
Qed.

Example glob_class : glob_match (b#"user:[a-c]*:?") (b#"user:bob:7") = true.
Proof. vm_compute. reflexivity. Qed.
