(* ===== verification/Persistence.v ===== *)
(** * The append-only file (src/src/storage/persistence.rs)

    Rendering of a snapshot as commands, the writer that owns the file,
    the handle through which the server sends it messages, and recovery.
    The writer task is a state machine: [writer_step] handles the first
    message of the channel, [tick_step] is its timer.  A caller that waits
    for a reply lets the writer run until its message has been handled. *)

From S2P Require Import Prelude Numbers Utf8 Paths Errors Values World Protocol.

Definition AOF_CHANNEL_CAPACITY : nat := 8192.

Definition path_display (path : bytes) : bytes := from_utf8_lossy path.

(** ** File operations *)
Section Files.
Context {E : Env}.

Definition set_disk (p : Process) (d : gmap bytes File) : Process :=
  mkProcess (uptime_anchor p) d (writer p) (channel p).
Definition set_writer (p : Process) (w : option AofWriter) : Process :=
  mkProcess (uptime_anchor p) (disk p) w (channel p).
Definition set_channel (p : Process) (c : list WriterCmd) : Process :=
  mkProcess (uptime_anchor p) (disk p) (writer p) c.

Definition persistence_error (what text : bytes) (recoverable : bool) : RustyPotatoError :=
  PersistenceError (what ++ text) (Some text) recoverable.

(** One I/O call whose success has the effect [f]. *)
Definition io_do (f : gmap bytes File -> gmap bytes File) (fail : bytes -> RustyPotatoError) :
    M (Result unit) :=
  r ← io_call;
  match r with
  | None => _ ← modifyp (fun p => set_disk p (f (disk p))); mret (Ok tt)
  | Some (_, e) => mret (Err (fail e))
  end.

Definition append (path data : bytes) (d : gmap bytes File) : gmap bytes File :=
  let f := default (mkFile [] 0) (d !! path) in
  <[path := mkFile (content f ++ data) (synced f)]> d.

Definition EBADF : bytes := b#"Bad file descriptor (os error 9)".
Definition ENOENT : bytes := b#"No such file or directory (os error 2)".

(** [write_all]: a failure may leave any prefix written; a handle opened
    for reading cannot write. *)
Definition write_all (h : Handle) (data : bytes) (fail : bytes -> RustyPotatoError) : M (Result unit) :=
  match h with
  | Reading _ => _ ← io_call; mret (Err (fail EBADF))
  | Appending path =>
      r ← io_call;
      match r with
      | None => _ ← modifyp (fun p => set_disk p (append path data (disk p))); mret (Ok tt)
      | Some (k, e) =>
          _ ← modifyp (fun p => set_disk p (append path (take k data) (disk p)));
          mret (Err (fail e))
      end
  end.

Definition handle_path (h : Handle) : bytes := match h with Appending p | Reading p => p end.

(** [sync_all]: everything written is on the device. *)
Definition sync_file (path : bytes) (d : gmap bytes File) : gmap bytes File :=
  match d !! path with
  | Some f => <[path := mkFile (content f) (length (content f))]> d
  | None => d
  end.

(** [create(true)] *)
Definition create_file (path : bytes) (d : gmap bytes File) : gmap bytes File :=
  match d !! path with Some _ => d | None => <[path := mkFile [] 0]> d end.

Definition create_dir_all (dir : bytes) (what : bytes) : M (Result unit) :=
  if bool_decide (dir = []) then mret (Ok tt)
  else io_do (fun d => d) (fun e => persistence_error (what ++ path_display dir ++ b#": ") e false).

(** ** The writer *)

Definition open_writer (aof_path : bytes) (policy : FsyncPolicy) : M (Result AofWriter) :=
  _ ←? create_dir_all (parent aof_path) (b#"Failed to create AOF directory ");
  _ ←? io_do (create_file aof_path)
         (fun e => persistence_error (b#"Failed to open AOF " ++ path_display aof_path ++ b#": ") e false);
  t ← now;
  mret (Ok (mkAofWriter (Appending aof_path) [] policy t (from_secs 1) aof_path)).

Definition with_buffer (aw : AofWriter) (b : bytes) : AofWriter :=
  mkAofWriter (aof_file aw) b (fsync_policy aw) (last_flush aw) (flush_interval aw) (file_path aw).
Definition with_last_flush (aw : AofWriter) (t : Instant) : AofWriter :=
  mkAofWriter (aof_file aw) (aof_buffer aw) (fsync_policy aw) t (flush_interval aw) (file_path aw).
Definition with_file (aw : AofWriter) (h : Handle) : AofWriter :=
  mkAofWriter h (aof_buffer aw) (fsync_policy aw) (last_flush aw) (flush_interval aw) (file_path aw).

(** [flush_to_disk] returns the result and the writer it leaves: the
    buffer is cleared only after a complete write. *)
Definition flush_to_disk (aw : AofWriter) (sync : bool) : M (Result unit * AofWriter) :=
  r1 ← (if bool_decide (aof_buffer aw = []) then mret (Ok tt)
        else write_all (aof_file aw) (aof_buffer aw)
               (fun e => persistence_error (b#"AOF write failed: ") e true));
  match r1 with
  | Err e => mret (Err e, aw)
  | Ok _ =>
      let aw1 := with_buffer aw [] in
      r2 ← io_do (fun d => d) (fun e => persistence_error (b#"AOF flush failed: ") e true);
      match r2 with
      | Err e => mret (Err e, aw1)
      | Ok _ =>
          r3 ← (if sync then
                  io_do (sync_file (handle_path (aof_file aw1)))
                    (fun e => persistence_error (b#"AOF fsync failed: ") e true)
                else mret (Ok tt));
          match r3 with
          | Err e => mret (Err e, aw1)
          | Ok _ => t ← now; mret (Ok tt, with_last_flush aw1 t)
          end
      end
  end.

(** [Instant::elapsed]: zero when the clock is before the instant. *)
Definition elapsed (since : Instant) : M Duration :=
  t ← now; mret (Z.max 0 (t - since)).

Definition record (aw : AofWriter) (frame : bytes) : M (Result unit * AofWriter) :=
  let aw1 := with_buffer aw (aof_buffer aw ++ frame) in
  match fsync_policy aw1 with
  | Always => flush_to_disk aw1 true
  | EverySecond =>
      d ← elapsed (last_flush aw1);
      if flush_interval aw1 <=? d then flush_to_disk aw1 true else mret (Ok tt, aw1)
  | Never =>
      if 1024 * 1024 <=? zlen (aof_buffer aw1) then flush_to_disk aw1 false else mret (Ok tt, aw1)
  end.

Definition periodic_flush (aw : AofWriter) : M (Result unit * AofWriter) :=
  match fsync_policy aw with
  | EverySecond =>
      d ← elapsed (last_flush aw);
      if flush_interval aw <=? d then flush_to_disk aw true else mret (Ok tt, aw)
  | _ => mret (Ok tt, aw)
  end.

Definition current_file_size (aw : AofWriter) : M (Result Z) :=
  r ← io_call;
  f ← getp (fun p => disk p !! file_path aw);
  match r, f with
  | None, Some f => mret (Ok (zlen (content f) + zlen (aof_buffer aw)))
  | Some (_, e), _ => mret (Err (persistence_error (b#"Failed to stat AOF: ") e true))
  | None, None => mret (Err (persistence_error (b#"Failed to stat AOF: ") ENOENT true))
  end.

(** [rename] moves the file, replacing what was there. *)
Definition rename_file (from to : bytes) (d : gmap bytes File) : gmap bytes File :=
  match d !! from with
  | Some f => <[to := f]> (delete from d)
  | None => d
  end.

(** The answer depends on whether the file exists. *)
Definition io_need (path : bytes) (f : gmap bytes File -> gmap bytes File) (fail : bytes -> RustyPotatoError) :
    M (Result unit) :=
  ex ← getp (fun p => bool_decide (is_Some (disk p !! path)));
  if (ex : bool) then io_do f fail else _ ← io_call; mret (Err (fail ENOENT)).

Definition swap_file (aw : AofWriter) (temp_path : bytes) : M (Result unit * AofWriter) :=
  let aw1 := with_buffer aw [] in
  r1 ← io_need temp_path (fun d => d)
         (fun e => persistence_error (b#"Cannot open temp AOF " ++ path_display temp_path ++ b#": ") e false);
  match r1 with
  | Err e => mret (Err e, aw1)
  | Ok _ =>
      let aw2 := with_file aw1 (Reading temp_path) in
      r2 ← io_need temp_path (rename_file temp_path (file_path aw2))
             (fun e => persistence_error
                (b#"Atomic rename " ++ path_display temp_path ++ b#" → "
                   ++ path_display (file_path aw2) ++ b#" failed: ") e false);
      match r2 with
      | Err e => mret (Err e, aw2)
      | Ok _ =>
          r3 ← io_do (create_file (file_path aw2))
                 (fun e => persistence_error
                    (b#"Cannot reopen AOF " ++ path_display (file_path aw2) ++ b#": ") e false);
          match r3 with
          | Err e => mret (Err e, aw2)
          | Ok _ => t ← now; mret (Ok tt, with_last_flush (with_file aw2 (Appending (file_path aw2))) t)
          end
      end
  end.

(** ** The writer task *)
Inductive Reply : Type :=
| NoReply
| Done (r : Result unit)
| Size (r : Result Z).

(** Put back the writer an operation left and pass its result on. *)
Definition run_writer (m : M (Result unit * AofWriter)) : M (Result unit) :=
  '(r, aw) ← m;
  _ ← modifyp (fun p => set_writer p (Some aw));
  mret r.

(** One message.  Errors of [record] are only logged. *)
Definition handle_message (aw : AofWriter) (msg : WriterCmd) : M Reply :=
  match msg with
  | Record_ frame => _ ← run_writer (record aw frame); mret NoReply
  | Flush => r ← run_writer (flush_to_disk aw true); mret (Done r)
  | FileSize => r ← current_file_size aw; mret (Size r)
  | SwapFile temp_path => r ← run_writer (swap_file aw temp_path); mret (Done r)
  | Shutdown =>
      r ← run_writer (flush_to_disk aw true);
      _ ← modifyp (fun p => set_channel (set_writer p None) []);
      mret (Done r)
  end.

Definition writer_step : M Reply :=
  p ← getp (fun p => p);
  match writer p, channel p with
  | Some aw, msg :: rest =>
      _ ← modifyp (fun p => set_channel p rest);
      handle_message aw msg
  | _, _ => mret NoReply
  end.

(** The timer branch of the task. *)
Definition tick_step : M unit :=
  p ← getp (fun p => p);
  match writer p with
  | Some aw => _ ← run_writer (periodic_flush aw); mret tt
  | None => mret tt
  end.

(** All senders gone: a last flush, then the task ends. *)
Definition senders_dropped : M unit :=
  p ← getp (fun p => p);
  match writer p with
  | Some aw =>
      _ ← run_writer (flush_to_disk aw true);
      modifyp (fun p => set_writer p None)
  | None => mret tt
  end.

(** The writer handles [n] messages; the last reply. *)
Fixpoint pump (n : nat) (last : Reply) : M Reply :=
  match n with
  | O => mret last
  | S n' => r ← writer_step; pump n' r
  end.

(** ** The manager *)
Record PersistenceManager : Type := mkPersistenceManager {
  enabled : bool;       (* [sender] is [Some] exactly when enabled *)
  pm_path : bytes
}.

Definition channel_closed : RustyPotatoError :=
  PersistenceError (b#"AOF writer task is no longer accepting messages")
    (Some (b#"AOF writer task gone")) false.
Definition reply_dropped : RustyPotatoError :=
  PersistenceError (b#"AOF writer dropped a reply channel") (Some (b#"AOF writer reply lost")) false.

Definition new_manager (aof_enabled : bool) (aof_path : bytes) (policy : FsyncPolicy) :
    M (Result PersistenceManager) :=
  if negb aof_enabled then mret (Ok (mkPersistenceManager false aof_path))
  else
    aw ←? open_writer aof_path policy;
    _ ← modifyp (fun p => set_channel (set_writer p (Some aw)) []);
    mret (Ok (mkPersistenceManager true aof_path)).

(** Sending waits for room in the channel, which the writer makes. *)
Definition send (msg : WriterCmd) : M (Result unit) :=
  full ← getp (fun p => (AOF_CHANNEL_CAPACITY <=? length (channel p))%nat);
  _ ← (if (full : bool) then writer_step else mret NoReply);
  w ← getp writer;
  match w with
  | None => mret (Err channel_closed)
  | Some _ => _ ← modifyp (fun p => set_channel p (channel p ++ [msg])); mret (Ok tt)
  end.

(** Send and wait: the channel is a queue, so the reply is the last one. *)
Definition request (msg : WriterCmd) : M (Result Reply) :=
  _ ←? send msg;
  n ← getp (fun p => length (channel p));
  r ← pump n NoReply;
  match r with
  | NoReply => mret (Err reply_dropped)
  | _ => mret (Ok r)
  end.

Definition log_command (pm : PersistenceManager) (frame : bytes) : M (Result unit) :=
  if negb (enabled pm) then mret (Ok tt) else send (Record_ frame).

Definition unit_reply (r : Reply) : Result unit :=
  match r with Done r => r | _ => Err reply_dropped end.

Definition pm_flush (pm : PersistenceManager) : M (Result unit) :=
  if negb (enabled pm) then mret (Ok tt)
  else r ←? request Flush; mret (unit_reply r).

Definition file_size (pm : PersistenceManager) : M (Result Z) :=
  if negb (enabled pm) then mret (Ok 0)
  else r ←? request FileSize; mret (match r with Size r => r | _ => Err reply_dropped end).

Definition pm_shutdown (pm : PersistenceManager) : M (Result unit) :=
  if negb (enabled pm) then mret (Ok tt)
  else r ←? request Shutdown; mret (unit_reply r).

(** The frames go to the temporary file one by one. *)
Fixpoint write_frames (path : bytes) (frames : list bytes) : M (Result unit) :=
  match frames with
  | [] => mret (Ok tt)
  | frame :: rest =>
      _ ←? write_all (Appending path) frame (fun e => persistence_error (b#"Rewrite write failed: ") e true);
      write_frames path rest
  end.

Definition temp_path (pm : PersistenceManager) : bytes :=
  with_extension (pm_path pm) (b#"rewrite." ++ dec process_id ++ b#".tmp").

Definition rewrite_aof (pm : PersistenceManager) (frames : list bytes) : M (Result unit) :=
  if negb (enabled pm) then mret (Ok tt)
  else
    let temp := temp_path pm in
    _ ←? create_dir_all (parent temp) (b#"Cannot ensure rewrite-temp dir ");
    _ ←? io_do (fun d => <[temp := mkFile [] 0]> d)
           (fun e => persistence_error (b#"Cannot open rewrite temp " ++ path_display temp ++ b#": ") e false);
    _ ←? write_frames temp frames;
    _ ←? io_do (fun d => d) (fun e => persistence_error (b#"Rewrite flush failed: ") e true);
    _ ←? io_do (sync_file temp) (fun e => persistence_error (b#"Rewrite fsync failed: ") e true);
    r ←? request (SwapFile temp);
    match unit_reply r with
    | Ok _ => mret (Ok tt)
    | Err e => _ ← io_do (delete temp) (fun e => persistence_error [] e true); mret (Err e)
    end.

(** ** Snapshots as commands *)
Definition command_frame (parts : list bytes) : bytes := encode_value (Array (map bulk parts)).

Definition value_frames (key : bytes) (v : ValueType) : M (list bytes) :=
  match v with
  | VString b => mret [command_frame [b#"SET"; key; b]]
  | VInteger i => mret [command_frame [b#"SET"; key; dec i]]
  | VHash h =>
      if bool_decide (h = ∅) then mret []
      else
        l ← iterate h;
        mret [command_frame (b#"HSET" :: key :: concat (map (fun '(f, x) => [f; x]) l))]
  | VList _ => mret []
  end.

Definition encode_snapshot_entry (key : bytes) (sv : StoredValue) (frames : list bytes) :
    M (Result (list bytes)) :=
  fs ← value_frames key (value sv);
  let frames := frames ++ fs in
  match expires_at sv with
  | None => mret (Ok frames)
  | Some d =>
      t ← now;
      if t <? d then
        now_ms ← unix_millis;
        match now_ms with
        | None => mret (Err (PersistenceError (b#"system clock before UNIX epoch") None false))
        | Some now_ms =>
            let target_ms := saturating_add_u64 now_ms (wrap_u64 (as_millis (d - t))) in
            mret (Ok (frames ++ [command_frame [b#"PEXPIREAT"; key; dec target_ms]]))
        end
      else mret (Ok frames)
  end.

Fixpoint snapshot_loop (snapshot : list (bytes * StoredValue)) (frames : list bytes) :
    M (Result (list bytes)) :=
  match snapshot with
  | [] => mret (Ok frames)
  | (key, sv) :: rest =>
      frames' ←? encode_snapshot_entry key sv frames;
      snapshot_loop rest frames'
  end.

Definition snapshot_to_frames (snapshot : list (bytes * StoredValue)) : M (Result (list bytes)) :=
  snapshot_loop snapshot [].

(** ** Recovery *)
Definition READ_CHUNK : nat := 65536.

(** The inner [while let Ok(Some(more))] loop. *)
Fixpoint drain_replay (fuel : nat) (f : ParsedCommand -> M (Result unit)) (c : RespCodec) (replayed : Z) :
    M (RespCodec * Z) :=
  match fuel with
  | O => mret (c, replayed)
  | S n =>
      match decode c [] with
      | (Ok (Some cmd), c') => _ ← f cmd; drain_replay n f c' (replayed + 1)
      | (_, c') => mret (c', replayed)
      end
  end.

(** The reading loop; [left] is what has not been read of the file. *)
Fixpoint replay_loop (fuel : nat) (f : ParsedCommand -> M (Result unit)) (c : RespCodec) (left : bytes)
    (replayed : Z) : M (Result Z) :=
  match fuel with
  | O => mret (Ok replayed)
  | S n =>
      r ← io_call;
      match r with
      | Some (_, e) => mret (Err (persistence_error (b#"AOF read failed: ") e true))
      | None =>
          let chunk := take READ_CHUNK left in
          match decode c chunk with
          | (Ok (Some cmd), c1) =>
              _ ← f cmd;
              '(c2, replayed) ← drain_replay (S (length (buffer c1))) f c1 (replayed + 1);
              replay_loop n f c2 (drop READ_CHUNK left) replayed
          | (Ok None, c1) =>
              if bool_decide (chunk = []) then mret (Ok replayed)
              else replay_loop n f c1 (drop READ_CHUNK left) replayed
          | (Err _, _) => mret (Ok replayed)
          end
      end
  end.

(** Every read takes octets from the file or from the codec's buffer. *)
Definition replay_fuel (left : bytes) : nat := (2 * length left + 2)%nat.

Definition replay_aof_file (path : bytes) (f : ParsedCommand -> M (Result unit)) : M (Result Z) :=
  file ← getp (fun p => disk p !! path);
  match file with
  | None => mret (Ok 0)
  | Some file =>
      _ ←? io_do (fun d => d)
             (fun e => persistence_error (b#"Cannot open AOF " ++ path_display path ++ b#": ") e false);
      replay_loop (replay_fuel (content file)) f new_codec (content file) 0
  end.

End Files.
