(* ===== verification/ServerCommands.v ===== *)
(** * PING, ECHO, DBSIZE, TYPE, FLUSHDB, INFO, KEYS, COMMAND, BGREWRITEAOF,
    QUIT (src/src/commands/server.rs) and the registries the server builds
    (src/src/lib.rs) *)

From S2P Require Import Prelude Numbers Utf8 Errors Values World MemoryStore Protocol Command StringCommands TtlCommands HashCommands Glob Persistence.

Section Commands.
Context {E : Env}.

Definition ping_execute (args : list bytes) : M CommandResult :=
  match args with
  | [] => mret (ok_simple "PONG")
  | [a] => mret (CmdOk (bulk a))
  | _ => mret (wrong_args "PING")
  end.

Definition PingCommand : Command := mkCommand ping_execute (b#"PING") (Range 1 2) false false.

Definition echo_execute (args : list bytes) : M CommandResult :=
  match args with
  | [a] => mret (CmdOk (bulk a))
  | _ => mret (wrong_args "ECHO")
  end.

Definition EchoCommand : Command := mkCommand echo_execute (b#"ECHO") (Fixed 2) false false.

Definition dbsize_execute (args : list bytes) : M CommandResult :=
  match args with
  | [] => n ← len; mret (ok_int (wrap_i64 n))
  | _ => mret (wrong_args "DBSIZE")
  end.

Definition DbsizeCommand : Command := mkCommand dbsize_execute (b#"DBSIZE") (Fixed 1) false false.

Definition type_execute (args : list bytes) : M CommandResult :=
  if negb (length args =? 1)%nat then mret (wrong_args "TYPE")
  else
    key ←! arg_str args 0;
    r ←$ get key;
    mret (CmdOk (SimpleString (match r with Some sv => type_name (value sv) | None => b#"none" end))).

Definition TypeCommand : Command := mkCommand type_execute (b#"TYPE") (Fixed 2) false false.

Definition flushdb_execute (args : list bytes) : M CommandResult :=
  match args with
  | [] => _ ← clear; mret (ok_simple "OK")
  | [a] =>
      if eq_ignore_ascii_case a (b#"SYNC") || eq_ignore_ascii_case a (b#"ASYNC") then
        _ ← clear; mret (ok_simple "OK")
      else mret (CmdError SYNTAX)
  | _ => mret (CmdError SYNTAX)
  end.

Definition FlushdbCommand : Command := mkCommand flushdb_execute (b#"FLUSHDB") (Range 1 2) true false.

(** [uptime_anchor().elapsed().as_secs()]: the first caller's instant stays. *)
Definition uptime_seconds : M Z :=
  a ← getp uptime_anchor;
  match a with
  | Some t0 => d ← elapsed t0; mret (as_secs d)
  | None =>
      t0 ← now;
      _ ← modifyp (fun p => mkProcess (Some t0) (disk p) (writer p) (channel p));
      d ← elapsed t0; mret (as_secs d)
  end.

Definition VERSION : bytes := b#"0.2.1".

Definition info_server (uptime : Z) : bytes :=
  b#"# Server" ++ CRLF
    ++ b#"rustypotato_version:" ++ VERSION ++ CRLF
    ++ b#"os:" ++ os_name ++ CRLF
    ++ b#"arch:" ++ arch_name ++ CRLF
    ++ b#"process_id:" ++ dec process_id ++ CRLF
    ++ b#"uptime_in_seconds:" ++ dec uptime ++ CRLF
    ++ b#"tcp_port:" ++ dec 0 ++ CRLF
    ++ CRLF.

Definition info_keyspace (keys : Z) : bytes :=
  b#"# Keyspace" ++ CRLF
    ++ (if 0 <? keys then b#"db0:keys=" ++ dec keys ++ b#",expires=0,avg_ttl=0" ++ CRLF else [])
    ++ CRLF.

Definition info_execute (args : list bytes) : M CommandResult :=
  uptime ← uptime_seconds;
  want_section ←! (match args with
                   | [] => mret (Ok (b#"default"))
                   | [_] => arg_str args 0
                   | _ => mret (Err (b#"ERR wrong number of arguments for 'INFO' command"))
                   end);
  let section := to_ascii_lowercase want_section in
  let want_server := is_one_of section [b#"server"; b#"default"; b#"all"; b#"everything"] in
  let want_keyspace := is_one_of section [b#"keyspace"; b#"default"; b#"all"; b#"everything"] in
  keys ← (if want_keyspace then len else mret 0);
  mret (CmdOk (bulk ((if want_server then info_server uptime else [])
                       ++ (if want_keyspace then info_keyspace keys else [])))).

Definition InfoCommand : Command := mkCommand info_execute (b#"INFO") (Range 1 2) false false.

Definition keys_execute (args : list bytes) : M CommandResult :=
  if negb (length args =? 1)%nat then mret (wrong_args "KEYS")
  else
    pattern ←! arg_str args 0;
    ks ← keys;
    mret (CmdOk (Array (map bulk (List.filter (glob_match pattern) ks)))).

Definition KeysCommand : Command := mkCommand keys_execute (b#"KEYS") (Fixed 2) false false.

Definition command_execute (total : nat) (args : list bytes) : M CommandResult :=
  match args with
  | [] => mret (CmdOk (Array []))
  | _ =>
      s ←! arg_str args 0;
      let sub := to_ascii_uppercase s in
      if bytes_eqb sub (b#"COUNT") then mret (ok_int (wrap_i64 (Z.of_nat total)))
      else if bytes_eqb sub (b#"LIST") then mret (CmdOk (Array []))
      else if is_one_of sub [b#"DOCS"; b#"INFO"] then mret (CmdOk (Array []))
      else mret (CmdError (b#"ERR unknown subcommand or wrong number of arguments for '"
                             ++ to_ascii_lowercase sub ++ b#"'"))
  end.

Definition CommandCommand (total : nat) : Command :=
  mkCommand (command_execute total) (b#"COMMAND") (AtLeast 1) false false.

(** The slot is empty until a persistence manager is attached.  The write
    guard is held from the snapshot to the end of the rewrite; here the
    whole body is one sequence of steps of one thread. *)
Definition bgrewriteaof_execute (slot : option PersistenceManager) (args : list bytes) : M CommandResult :=
  match args with
  | _ :: _ => mret (wrong_args "BGREWRITEAOF")
  | [] =>
      match slot with
      | Some pm =>
          if negb (enabled pm) then
            mret (err "ERR persistence (AOF) is not enabled; BGREWRITEAOF has nothing to do")
          else
            snap ← snapshot;
            frames ←$ snapshot_to_frames snap;
            _ ←$ rewrite_aof pm frames;
            mret (ok_simple "Background append only file rewriting started")
      | None => mret (err "ERR persistence (AOF) is not enabled; BGREWRITEAOF has nothing to do")
      end
  end.

Definition BgrewriteaofCommand (slot : option PersistenceManager) : Command :=
  mkCommand (bgrewriteaof_execute slot) (b#"BGREWRITEAOF") (Fixed 1) false false.

Definition quit_execute (args : list bytes) : M CommandResult :=
  match args with
  | [] => mret (ok_simple "OK")
  | _ => mret (wrong_args "QUIT")
  end.

Definition QuitCommand : Command := mkCommand quit_execute (b#"QUIT") (Fixed 1) false true.

(** ** The registries of src/src/lib.rs *)

Definition register_all (cs : list Command) (r : CommandRegistry) : CommandRegistry :=
  fold_left register cs r.

(** [with_components_internal]: everything but COMMAND, in order. *)
Definition main_commands (slot : option PersistenceManager) : list Command :=
  [SetCommand; GetCommand; DelCommand; ExistsCommand;
   ExpireCommand; TtlCommand; PttlCommand; PexpireCommand; ExpireatCommand; PexpireatCommand;
   IncrCommand; DecrCommand;
   HsetCommand; HgetCommand; HdelCommand; HgetallCommand; HexistsCommand; HmgetCommand;
   HkeysCommand; HvalsCommand; HlenCommand;
   PingCommand; EchoCommand; DbsizeCommand; TypeCommand; FlushdbCommand; InfoCommand; KeysCommand;
   MgetCommand; MsetCommand;
   QuitCommand;
   BgrewriteaofCommand slot].

Definition main_registry (slot : option PersistenceManager) : CommandRegistry :=
  let r := register_all (main_commands slot) new_registry in
  register r (CommandCommand (command_count r + 1)).

(** [open]: the commands recovery can run. *)
Definition replay_commands : list Command :=
  [SetCommand; GetCommand; DelCommand; ExistsCommand; MsetCommand;
   ExpireCommand; TtlCommand; PexpireCommand; ExpireatCommand; PexpireatCommand;
   IncrCommand; DecrCommand;
   HsetCommand; HgetCommand; HdelCommand; HgetallCommand; HexistsCommand;
   FlushdbCommand].

Definition replay_registry : CommandRegistry := register_all replay_commands new_registry.

(** The closure recovery calls: the result of a command is dropped. *)
Definition replay_fn (cmd : ParsedCommand) : M (Result unit) :=
  _ ← registry_execute replay_registry cmd; mret (Ok tt).

(** [RustyPotatoServer::open]: recovery, then the manager; the result is
    the manager wired into BGREWRITEAOF, if persistence is on. *)
Definition open (aof_enabled : bool) (aof_path : bytes) (policy : FsyncPolicy) :
    M (Result (option PersistenceManager)) :=
  if negb aof_enabled then mret (Ok None)
  else
    _ ←? replay_aof_file aof_path replay_fn;
    pm ←? new_manager aof_enabled aof_path policy;
    mret (Ok (Some pm)).

End Commands.
