(* ===== verification/PersistThms.v ===== *)
(** * Theorems about the append-only file

    What is logged reaches the file, in order and once, whatever the
    interleaving of callers, writer task and timer; recovery runs exactly
    the logged commands, a torn last frame aside. *)

From S2P Require Import Prelude Numbers Utf8 Paths Errors Values World MemoryStore Protocol ProtocolLemmas ProtocolThms Persistence.

(** The disk works. *)
Class IoOk (E : Env) : Prop := io_ok : forall n, io n = None.

#[global] Instance env_ms_io : IoOk env_ms.
Proof. done. Qed.

(** ** The writer *)
Definition file_at (p : Process) (path : bytes) : File := default (mkFile [] 0) (disk p !! path).

(** All of the file is on the device. *)
Definition all_synced (p : Process) (path : bytes) : Prop :=
  synced (file_at p path) = length (content (file_at p path)).

(** What a message adds to the log. *)
Definition frame_of (msg : WriterCmd) : bytes := match msg with Record_ frame => frame | _ => [] end.
Definition plain_msg (msg : WriterCmd) : Prop :=
  match msg with Record_ _ | Flush | FileSize => True | _ => False end.

(** A writer that appends to [path], where [log] is on disk or buffered. *)
Definition writes (path log : bytes) (p : Process) (aw : AofWriter) : Prop :=
  aof_file aw = Appending path /\ file_path aw = path /\ is_Some (disk p !! path) /\
  content (file_at p path) ++ aof_buffer aw = log.

(** The log: on disk, in the writer's buffer, or on its way there. *)
Definition log_is (path : bytes) (pol : FsyncPolicy) (log : bytes) (p : Process) : Prop :=
  exists aw base, writer p = Some aw /\ writes path base p aw /\ fsync_policy aw = pol /\
    Forall plain_msg (channel p) /\ base ++ concat (map frame_of (channel p)) = log.

(** Nothing buffered, everything on the device. *)
Definition clean (path : bytes) (p : Process) : Prop :=
  exists aw, writer p = Some aw /\ aof_buffer aw = [] /\ all_synced p path.

(** Only the file [path] changed. *)
Definition other_files (path : bytes) (w w' : World) : Prop :=
  forall q, q <> path -> disk (w_proc w') !! q = disk (w_proc w) !! q.

(** Code that changes that file and the clock position only. *)
Definition only_disk (path : bytes) (w w' : World) : Prop :=
  w_store w' = w_store w /\ writer (w_proc w') = writer (w_proc w) /\
  channel (w_proc w') = channel (w_proc w) /\ other_files path w w'.

Lemma other_files_trans path w1 w2 w3 : other_files path w1 w2 -> other_files path w2 w3 -> other_files path w1 w3.
Proof. intros H1 H2 q Hq. by rewrite H2, H1. Qed.

Section Writer.
Context {E : Env} `{!IoOk E}.

Lemma io_do_run f fail w :
  io_do f fail w = (Ret (Ok tt), mkWorld (w_store w) (S (w_reads w)) (set_disk (w_proc w) (f (disk (w_proc w))))).
Proof. unfold io_do. run_simpl. by rewrite io_ok. Qed.

Lemma write_all_run path data fail w :
  write_all (Appending path) data fail w =
  (Ret (Ok tt), mkWorld (w_store w) (S (w_reads w)) (set_disk (w_proc w) (append path data (disk (w_proc w))))).
Proof. unfold write_all. run_simpl. by rewrite io_ok. Qed.

Lemma file_at_append p path data :
  content (file_at (set_disk p (append path data (disk p))) path) = content (file_at p path) ++ data.
Proof. unfold file_at, append. simpl. by rewrite lookup_insert_eq. Qed.

Lemma flush_run path log aw sync w :
  writes path log (w_proc w) aw ->
  exists aw' w', flush_to_disk aw sync w = (Ret (Ok tt, aw'), w') /\ only_disk path w w' /\
    writes path log (w_proc w') aw' /\ aof_buffer aw' = [] /\ fsync_policy aw' = fsync_policy aw /\
    (sync = true -> all_synced (w_proc w') path).
Proof.
  intros (Hh & Hp & [f Hf] & Hlog). unfold flush_to_disk. rewrite bind_run.
  assert (exists w1, (if bool_decide (aof_buffer aw = []) then mret (Ok tt)
        else write_all (aof_file aw) (aof_buffer aw)
               (fun e => persistence_error (b#"AOF write failed: ") e true)) w = (Ret (Ok tt), w1) /\
     only_disk path w w1 /\ is_Some (disk (w_proc w1) !! path) /\ content (file_at (w_proc w1) path) = log)
     as (w1 & -> & Ho & [f1 Hf1] & Hc).
  { case_bool_decide as Hb.
    - exists w. rewrite Hb, app_nil_r in Hlog. split; [done|]. split; [done|]. split; [by exists f|done].
    - rewrite Hh, write_all_run. eexists. split; [done|]. split.
      { repeat split. intros q Hq. simpl. unfold append. by rewrite lookup_insert_ne. }
      simpl. rewrite file_at_append. split; [|done]. unfold append. rewrite lookup_insert_eq. by eexists. }
  unfold file_at in Hc. rewrite Hf1 in Hc. simpl in Hc.
  rewrite bind_run, io_do_run. cbv iota beta. rewrite bind_run.
  destruct sync.
  - rewrite io_do_run. cbv iota beta. unfold now. simpl.
    eexists _, _. split; [reflexivity|]. split.
    { destruct Ho as (? & ? & ? & Ho). do 3 (split; [done|]). intros q Hq. simpl. rewrite <- (Ho q Hq), Hh. simpl.
      unfold sync_file. rewrite Hf1. by rewrite lookup_insert_ne. }
    assert (forall d, sync_file path d = match d !! path with
      | Some f => <[path := mkFile (content f) (length (content f))]> d | None => d end) as Hs by done.
    unfold writes, all_synced, file_at. rewrite Hh. simpl. rewrite Hs, Hf1, lookup_insert_eq. simpl.
    rewrite app_nil_r. by repeat split.
  - simpl. eexists _, _. split; [reflexivity|]. split; [done|].
    unfold writes, file_at. simpl. rewrite Hf1. simpl. rewrite app_nil_r. by repeat split.
Qed.

Lemma record_run path log aw frame w :
  writes path log (w_proc w) aw ->
  exists aw' w', record aw frame w = (Ret (Ok tt, aw'), w') /\ only_disk path w w' /\
    writes path (log ++ frame) (w_proc w') aw' /\ fsync_policy aw' = fsync_policy aw /\
    (fsync_policy aw = Always -> aof_buffer aw' = [] /\ all_synced (w_proc w') path).
Proof.
  intros (Hh & Hp & Hf & Hlog).
  assert (forall sync r, exists aw' w', flush_to_disk (with_buffer aw (aof_buffer aw ++ frame)) sync
      (mkWorld (w_store w) r (w_proc w)) = (Ret (Ok tt, aw'), w') /\ only_disk path w w' /\
    writes path (log ++ frame) (w_proc w') aw' /\ fsync_policy aw' = fsync_policy aw /\
    (sync = true -> aof_buffer aw' = [] /\ all_synced (w_proc w') path)) as Hflush.
  { intros sync r. destruct (flush_run path (log ++ frame) (with_buffer aw (aof_buffer aw ++ frame)) sync
      (mkWorld (w_store w) r (w_proc w))) as (aw' & w' & Hr & Ho & Hw & Hb & Hpol & Hs).
    { unfold writes. simpl. by rewrite app_assoc, Hlog. }
    exists aw', w'. do 4 (split; [done|]). intros Hsy. split; auto. }
  unfold record. cbn [with_buffer fsync_policy].
  destruct (fsync_policy aw) eqn:Hpol.
  - destruct w as [s r p]. destruct (Hflush true r) as (aw' & w' & H1 & ? & ? & ? & ?). exists aw', w'.
    repeat (split; [done|]). auto.
  - unfold elapsed. rewrite bind_run. simpl. case_match.
    + destruct (Hflush true (S (w_reads w))) as (aw' & w' & ? & ? & ? & ? & ?). by exists aw', w'.
    + eexists _, _. split; [reflexivity|]. unfold writes. simpl. rewrite app_assoc, Hlog. done.
  - case_match.
    + destruct w as [s r p]. destruct (Hflush false r) as (aw' & w' & ? & ? & ? & ? & ?). by exists aw', w'.
    + eexists _, _. split; [reflexivity|]. unfold writes. simpl. rewrite app_assoc, Hlog. done.
Qed.

Lemma periodic_run path log aw w :
  writes path log (w_proc w) aw ->
  exists aw' w', periodic_flush aw w = (Ret (Ok tt, aw'), w') /\ only_disk path w w' /\
    writes path log (w_proc w') aw' /\ fsync_policy aw' = fsync_policy aw /\
    (fsync_policy aw = Always -> aw' = aw /\ w_proc w' = w_proc w).
Proof.
  intros Hw. unfold periodic_flush.
  destruct (fsync_policy aw) eqn:Hpol; try (by exists aw, w).
  unfold elapsed. rewrite bind_run. simpl. case_match.
  - edestruct (flush_run path log aw true (mkWorld (w_store w) (S (w_reads w)) (w_proc w)))
      as (aw' & w' & ? & ? & ? & ? & ? & ?); [done|]. exists aw', w'.
    repeat (split; [done|]). split; [congruence|done].
  - eexists _, _. split; [reflexivity|]. by repeat (split; [done|]).
Qed.

(** One message. *)
Lemma message_run path base aw msg w :
  plain_msg msg -> writer (w_proc w) = Some aw -> writes path base (w_proc w) aw ->
  exists r aw' w', handle_message aw msg w = (Ret r, w') /\ w_store w' = w_store w /\
    channel (w_proc w') = channel (w_proc w) /\ other_files path w w' /\
    writer (w_proc w') = Some aw' /\ writes path (base ++ frame_of msg) (w_proc w') aw' /\
    fsync_policy aw' = fsync_policy aw /\
    (msg = Flush -> r = Done (Ok tt) /\ clean path (w_proc w')) /\
    (fsync_policy aw = Always -> clean path (w_proc w) -> clean path (w_proc w')).
Proof.
  intros Hm Haw Hw. destruct msg as [frame| | |temp|]; try done; cbn [frame_of handle_message]; rewrite ?app_nil_r.
  - destruct (record_run path base aw frame w Hw) as (aw' & w' & Hr & (H1 & H2 & H3 & H4) & Hw' & Hp' & Hal).
    unfold run_writer. rewrite !bind_run, Hr. cbv iota beta. rewrite !bind_run. unfold modifyp, mret, M_ret.
    eexists _, aw', _. split; [reflexivity|]. do 6 (split; [done|]). split; [done|].
    intros Hpol _. destruct (Hal Hpol). by exists aw'.
  - destruct (flush_run path base aw true w Hw) as (aw' & w' & Hr & (H1 & H2 & H3 & H4) & Hw' & Hb & Hp' & Hal).
    unfold run_writer. rewrite !bind_run, Hr. cbv iota beta. rewrite !bind_run. unfold modifyp, mret, M_ret.
    eexists _, aw', _. split; [reflexivity|]. do 6 (split; [done|]).
    split; [intros _; split; [done|]|intros _ _]; exists aw'; by auto.
  - unfold current_file_size. rewrite !bind_run. unfold io_call. rewrite io_ok. cbv iota beta.
    rewrite bind_run. unfold getp. cbv iota beta. pose proof Hw as (_ & Hfp & [f Hf] & _).
    change (disk (w_proc (tick w))) with (disk (w_proc w)). rewrite Hfp, Hf.
    eexists _, aw, _. split; [reflexivity|]. by do 6 (split; [done|]).
Qed.

Lemma writer_step_eq w aw msg rest :
  writer (w_proc w) = Some aw -> channel (w_proc w) = msg :: rest ->
  writer_step w = handle_message aw msg (set_proc w (set_channel (w_proc w) rest)).
Proof.
  intros Haw Hch. unfold writer_step. rewrite bind_run. unfold getp. cbv iota beta. by rewrite Haw, Hch.
Qed.

(** One message of the writer task. *)
Lemma writer_step_run path pol log w msg rest :
  log_is path pol log (w_proc w) -> channel (w_proc w) = msg :: rest ->
  exists r w', writer_step w = (Ret r, w') /\ w_store w' = w_store w /\
    log_is path pol log (w_proc w') /\ channel (w_proc w') = rest /\ other_files path w w' /\
    (msg = Flush -> r = Done (Ok tt) /\ clean path (w_proc w')) /\
    (pol = Always -> clean path (w_proc w) -> clean path (w_proc w')).
Proof.
  intros (aw & base & Haw & Hw & Hpol & Hpl & Hlog) Hch. rewrite Hch in Hpl, Hlog.
  apply Forall_cons in Hpl as [Hm Hpl]. cbn [map concat] in Hlog.
  destruct (message_run path base aw msg (set_proc w (set_channel (w_proc w) rest)) Hm Haw Hw)
    as (r & aw' & w' & Hr & Hs & Hc & Ho & Haw' & Hw' & Hp' & Hf & Hal).
  exists r, w'. rewrite (writer_step_eq w aw msg rest) by done. do 2 (split; [done|]).
  split; [|split; [done|]; split; [done|]; split; [done|]; by rewrite <- Hpol].
  exists aw', (base ++ frame_of msg). rewrite Hc. split; [done|]. split; [done|]. split; [congruence|].
  split; [done|]. by rewrite <- app_assoc.
Qed.

Lemma writer_step_idle path pol log w :
  log_is path pol log (w_proc w) -> channel (w_proc w) = [] -> writer_step w = (Ret NoReply, w).
Proof.
  intros (aw & base & Haw & _) Hch. unfold writer_step. rewrite bind_run. unfold getp. cbv iota beta.
  by rewrite Haw, Hch.
Qed.

(** What every event of the system keeps. *)
Definition keeps_log (path : bytes) (pol : FsyncPolicy) (log : bytes) (w w' : World) : Prop :=
  w_store w' = w_store w /\ log_is path pol log (w_proc w') /\ other_files path w w' /\
  (pol = Always -> clean path (w_proc w) -> clean path (w_proc w')).

Lemma writer_step_keeps path pol log w :
  log_is path pol log (w_proc w) ->
  exists r w', writer_step w = (Ret r, w') /\ keeps_log path pol log w w'.
Proof.
  intros Hl. destruct (channel (w_proc w)) as [|msg rest] eqn:Hch.
  - eexists _, _. split; [by eapply writer_step_idle|done].
  - destruct (writer_step_run _ _ _ _ _ _ Hl Hch) as (r & w' & Hr & ? & ? & _ & ? & _ & ?).
    by exists r, w'.
Qed.

Lemma tick_keeps path pol log w :
  log_is path pol log (w_proc w) ->
  exists w', tick_step w = (Ret tt, w') /\ keeps_log path pol log w w'.
Proof.
  intros (aw & base & Haw & Hw & Hpol & Hpl & Hlog).
  destruct (periodic_run path base aw w Hw) as (aw' & w' & Hr & (H1 & H2 & H3 & H4) & Hw' & Hp' & Hal).
  unfold tick_step. rewrite bind_run. unfold getp. cbv iota beta. rewrite Haw.
  unfold run_writer. rewrite !bind_run, Hr. cbv iota beta. rewrite !bind_run. unfold modifyp, mret, M_ret.
  eexists. split; [reflexivity|]. split; [done|]. split.
  - exists aw', base. simpl. rewrite H3. by repeat (split; [done || congruence|]).
  - split; [done|]. intros -> (aw2 & ? & ? & ?). destruct (Hal Hpol) as [-> Hpeq]. exists aw. simpl.
    split; [done|]. split; [congruence|]. unfold all_synced, file_at in *. simpl. by rewrite Hpeq.
Qed.

(** Queueing a message. *)
Lemma enqueue_keeps path pol log p msg :
  plain_msg msg -> log_is path pol log p -> log_is path pol (log ++ frame_of msg) (set_channel p (channel p ++ [msg])).
Proof.
  intros Hm (aw & base & Haw & Hw & Hpol & Hpl & Hlog). exists aw, base. simpl.
  do 3 (split; [done|]). split; [apply Forall_app; split; [done|by apply Forall_singleton]|].
  rewrite map_app, concat_app. simpl. by rewrite app_nil_r, app_assoc, Hlog.
Qed.

(** Sending waits for a message to be handled if the channel is full. *)
Lemma send_run path pol log w msg :
  log_is path pol log (w_proc w) ->
  exists w1, send msg w = (Ret (Ok tt), set_proc w1 (set_channel (w_proc w1) (channel (w_proc w1) ++ [msg]))) /\
    keeps_log path pol log w w1.
Proof.
  intros Hl. unfold send. rewrite bind_run. unfold getp at 1. cbv iota beta. rewrite bind_run.
  assert (exists r w1, (if (AOF_CHANNEL_CAPACITY <=? length (channel (w_proc w)))%nat then writer_step
      else mret NoReply) w = (Ret r, w1) /\ keeps_log path pol log w w1) as (r & w1 & -> & Hk).
  { case_match; [by apply writer_step_keeps|]. by eexists _, _. }
  rewrite bind_run. unfold getp. cbv iota beta. pose proof Hk as (_ & (aw & base & Haw & _) & _). rewrite Haw.
  rewrite bind_run. by exists w1.
Qed.

Lemma send_keeps path pol log w msg :
  plain_msg msg -> log_is path pol log (w_proc w) ->
  exists w', send msg w = (Ret (Ok tt), w') /\ keeps_log path pol (log ++ frame_of msg) w w' /\
    exists pre, channel (w_proc w') = pre ++ [msg].
Proof.
  intros Hm Hl. destruct (send_run path pol log w msg Hl) as (w1 & -> & Hs & Hl1 & Ho & Hc).
  eexists. split; [reflexivity|]. split; [|by eexists]. split; [done|]. split; [by apply enqueue_keeps|].
  split; [done|]. intros Hp Hcl. destruct (Hc Hp Hcl) as (aw2 & ? & ? & ?). by exists aw2.
Qed.

Lemma pump_run path pol log pre w r :
  log_is path pol log (w_proc w) -> channel (w_proc w) = pre ++ [Flush] ->
  exists w', pump (length (pre ++ [Flush])) r w = (Ret (Done (Ok tt)), w') /\
    keeps_log path pol log w w' /\ channel (w_proc w') = [] /\ clean path (w_proc w').
Proof.
  revert w r. induction pre as [|msg pre IH]; intros w r Hl Hch; cbn [app length pump] in *;
    destruct (writer_step_run _ _ _ _ _ _ Hl Hch) as (r1 & w1 & Hr & Hs & Hl1 & Hch1 & Ho & Hf & Hc);
    rewrite bind_run, Hr.
  - destruct (Hf eq_refl) as [-> Hcl]. exists w1. by repeat (split; [done|]).
  - destruct (IH w1 r1 Hl1 Hch1) as (w' & Hp & (Hs' & Hl' & Ho' & Hc') & Hch' & Hcl).
    exists w'. split; [done|]. split; [|done]. split; [congruence|]. split; [done|].
    split; [by eapply other_files_trans|]. auto.
Qed.

Lemma pm_flush_run path pol log pm w :
  enabled pm = true -> log_is path pol log (w_proc w) ->
  exists w', pm_flush pm w = (Ret (Ok tt), w') /\ keeps_log path pol log w w' /\
    clean path (w_proc w') /\ content (file_at (w_proc w') path) = log.
Proof.
  intros He Hl. unfold pm_flush. rewrite He. cbn [negb]. unfold try_ at 1, request. rewrite bind_run.
  destruct (send_keeps path pol log w Flush I Hl) as (w1 & Hsend & (Hs1 & Hl1 & Ho1 & Hc1) & pre & Hch).
  cbn [frame_of] in Hl1. rewrite app_nil_r in Hl1.
  destruct (pump_run path pol log pre w1 NoReply Hl1 Hch) as (w2 & Hp & (Hs2 & Hl2 & Ho2 & Hc2) & Hch2 & Hcl).
  unfold try_. rewrite bind_run, Hsend. cbv iota beta. rewrite bind_run. unfold getp. cbv iota beta.
  rewrite bind_run, Hch, Hp. cbv iota beta. exists w2. split; [reflexivity|].
  split; [split; [congruence|]; split; [done|]; split; [by eapply other_files_trans|]; auto|]. split; [done|].
  destruct Hl2 as (aw & base & Haw & (Hh & Hfp & Hf & Hb) & Hpol & Hpl & Hlog).
  destruct Hcl as (aw2 & Haw2 & Hbuf & _). assert (aw2 = aw) as -> by congruence.
  rewrite Hbuf, app_nil_r in Hb. rewrite Hch2 in Hlog. simpl in Hlog. rewrite app_nil_r in Hlog. congruence.
Qed.

End Writer.

(** ** The system around the writer *)

(** A caller logs a command, the writer task handles a message, its timer
    fires. *)
Inductive AofEvent : Type :=
| ELog (frame : bytes)
| EWriter
| ETick.

Section Events.
Context {E : Env}.

Definition aof_event (pm : PersistenceManager) (e : AofEvent) : M (Result unit) :=
  match e with
  | ELog frame => log_command pm frame
  | EWriter => _ ← writer_step; mret (Ok tt)
  | ETick => _ ← tick_step; mret (Ok tt)
  end.

Fixpoint aof_run (pm : PersistenceManager) (es : list AofEvent) : M (Result unit) :=
  match es with
  | [] => mret (Ok tt)
  | e :: es' => _ ←? aof_event pm e; aof_run pm es'
  end.

Definition logged (es : list AofEvent) : bytes :=
  concat (map (fun e => match e with ELog frame => frame | _ => [] end) es).

Lemma aof_event_keeps `{!IoOk E} path pol log pm e w :
  enabled pm = true -> log_is path pol log (w_proc w) ->
  exists w', aof_event pm e w = (Ret (Ok tt), w') /\ keeps_log path pol (log ++ logged [e]) w w'.
Proof.
  intros He Hl. destruct e as [frame| |]; unfold logged; simpl; rewrite app_nil_r.
  - unfold log_command. rewrite He. destruct (send_keeps path pol log w (Record_ frame) I Hl) as (w' & ? & ? & _).
    by exists w'.
  - destruct (writer_step_keeps path pol log w Hl) as (r & w' & Hr & ?). exists w'. rewrite bind_run, Hr. done.
  - destruct (tick_keeps path pol log w Hl) as (w' & Hr & ?). exists w'. rewrite bind_run, Hr. done.
Qed.

Lemma aof_run_keeps `{!IoOk E} path pol log pm es w :
  enabled pm = true -> log_is path pol log (w_proc w) ->
  exists w', aof_run pm es w = (Ret (Ok tt), w') /\ keeps_log path pol (log ++ logged es) w w'.
Proof.
  intros He. revert log w. induction es as [|e es IH]; intros log w Hl.
  - exists w. unfold logged. simpl. rewrite app_nil_r. done.
  - destruct (aof_event_keeps path pol log pm e w He Hl) as (w1 & Hr & Hs & Hl1 & Ho1 & Hc).
    destruct (IH _ w1 Hl1) as (w2 & Hr2 & Hs2 & Hl2 & Ho2 & Hc2). exists w2. cbn [aof_run].
    unfold try_. rewrite bind_run, Hr. split; [done|]. split; [congruence|]. split; [|split; [by eapply other_files_trans|auto]].
    unfold logged in *. cbn [map concat] in *. rewrite app_nil_r in Hl2. by rewrite app_assoc.
Qed.
End Events.

Section Start.
Context {E : Env} `{!IoOk E}.

Lemma new_manager_run path pol w :
  exists w1, new_manager true path pol w = (Ret (Ok (mkPersistenceManager true path)), w1) /\
    w_store w1 = w_store w /\ log_is path pol (content (file_at (w_proc w) path)) (w_proc w1) /\
    (all_synced (w_proc w) path -> clean path (w_proc w1)).
Proof.
  unfold new_manager. cbn [negb]. unfold try_ at 1, open_writer. rewrite bind_run. unfold try_ at 1. rewrite bind_run.
  assert (exists r, create_dir_all (parent path) (b#"Failed to create AOF directory ") w
    = (Ret (Ok tt), mkWorld (w_store w) r (w_proc w))) as (r & ->).
  { unfold create_dir_all. case_bool_decide; [by destruct w; eexists|]. rewrite io_do_run.
    eexists. by destruct w as [? ? []]. }
  unfold try_. rewrite bind_run, io_do_run. cbv iota beta. rewrite bind_run. unfold now, mret, M_ret. cbv iota beta.
  rewrite bind_run. unfold modifyp. cbv iota beta. eexists. split; [reflexivity|]. split; [done|].
  assert (forall p, exists f, create_file path (disk p) !! path = Some f /\ f = file_at p path) as Hcf.
  { intros p. unfold create_file, file_at. destruct (disk p !! path) as [f|] eqn:Hf; [by exists f|].
    rewrite lookup_insert_eq. by eexists. }
  destruct (Hcf (w_proc w)) as (f & Hf & ->). split.
  - eexists _, (content (file_at (w_proc w) path)). split; [reflexivity|]. split.
    + split; [done|]. split; [done|]. simpl. split; [by eexists|].
      unfold file_at at 1. simpl. by rewrite Hf, app_nil_r.
    + simpl. split; [done|]. split; [done|]. by rewrite app_nil_r.
  - intros Hs. eexists. split; [reflexivity|]. split; [done|].
    unfold all_synced, file_at at 1 2. simpl. by rewrite Hf.
Qed.
End Start.

(** C18: Nothing logged is lost, duplicated or reordered. With a disk that
    works and any fsync policy, take any interleaving of commands being
    logged, the writer task handling messages and its timer firing, after
    the manager was opened; every logging call succeeds, and once a flush
    returns the file holds what it held before followed by exactly the
    logged frames in order, all of it synced to the device. *)
Theorem aof_complete {E : Env} (Hio : IoOk E) (path : bytes) (pol : FsyncPolicy) (es : list AofEvent) (w : World) :
  exists pm w1 w2 w3,
    new_manager true path pol w = (Ret (Ok pm), w1) /\
    aof_run pm es w1 = (Ret (Ok tt), w2) /\
    pm_flush pm w2 = (Ret (Ok tt), w3) /\
    content (file_at (w_proc w3) path) = content (file_at (w_proc w) path) ++ logged es /\
    all_synced (w_proc w3) path /\ w_store w3 = w_store w.
Proof.
  destruct (new_manager_run path pol w) as (w1 & H1 & Hs1 & Hl1 & _).
  destruct (aof_run_keeps path pol _ (mkPersistenceManager true path) es w1 eq_refl Hl1) as (w2 & H2 & Hs2 & Hl2 & _).
  destruct (pm_flush_run path pol _ (mkPersistenceManager true path) w2 eq_refl Hl2) as (w3 & H3 & (Hs3 & _) & Hc & Hf).
  exists (mkPersistenceManager true path), w1, w2, w3. do 4 (split; [done|]). split; [by destruct Hc as (? & ? & ? & ?)|]. congruence.
Qed.

Lemma aof_complete_witness :
  exists pm w1 w2 w3,
    new_manager (E := env_ms) true (b#"a.aof") EverySecond (mkWorld empty_store 0 no_process) = (Ret (Ok pm), w1) /\
    aof_run (E := env_ms) pm [ELog (b#"one"); EWriter; ELog (b#"two"); ETick] w1 = (Ret (Ok tt), w2) /\
    pm_flush (E := env_ms) pm w2 = (Ret (Ok tt), w3) /\
    content (file_at (w_proc w3) (b#"a.aof")) = b#"onetwo".
Proof.
  destruct (aof_complete env_ms_io (b#"a.aof") EverySecond [ELog (b#"one"); EWriter; ELog (b#"two"); ETick]
    (mkWorld empty_store 0 no_process)) as (pm & w1 & w2 & w3 & H1 & H2 & H3 & H4 & _).
  exists pm, w1, w2, w3. split; [exact H1|]. split; [exact H2|]. split; [exact H3|]. exact H4.
Defined.

(** Durability under the always policy. With a working disk, at every
    point of every interleaving, everything the writer task has taken from
    its channel is on the device: the synced file followed by the frames
    still queued is exactly what was there before plus what was logged. *)
Theorem always_is_durable {E : Env} (Hio : IoOk E) (path : bytes) (es : list AofEvent) (w : World) :
  all_synced (w_proc w) path ->
  exists pm w1 w2,
    new_manager true path Always w = (Ret (Ok pm), w1) /\
    aof_run pm es w1 = (Ret (Ok tt), w2) /\
    all_synced (w_proc w2) path /\
    content (file_at (w_proc w2) path) ++ concat (map frame_of (channel (w_proc w2)))
    = content (file_at (w_proc w) path) ++ logged es.
Proof.
  intros Hs. destruct (new_manager_run path Always w) as (w1 & H1 & Hs1 & Hl1 & Hc1).
  destruct (aof_run_keeps path Always _ (mkPersistenceManager true path) es w1 eq_refl Hl1) as (w2 & H2 & Hs2 & Hl2 & Ho2 & Hc2).
  exists (mkPersistenceManager true path), w1, w2. split; [done|]. split; [done|].
  destruct (Hc2 eq_refl (Hc1 Hs)) as (aw & Haw & Hb & Hsy). split; [done|].
  destruct Hl2 as (aw2 & base & Haw2 & (_ & _ & _ & Hbase) & _ & _ & Hlog).
  assert (aw2 = aw) as -> by congruence. rewrite Hb, app_nil_r in Hbase. by rewrite Hbase.
Qed.

Lemma always_is_durable_witness :
  exists pm w1 w2,
    new_manager (E := env_ms) true (b#"a.aof") Always (mkWorld empty_store 0 no_process) = (Ret (Ok pm), w1) /\
    aof_run (E := env_ms) pm [ELog (b#"one"); EWriter; ELog (b#"two")] w1 = (Ret (Ok tt), w2) /\
    all_synced (w_proc w2) (b#"a.aof").
Proof.
  destruct (always_is_durable env_ms_io (b#"a.aof") [ELog (b#"one"); EWriter; ELog (b#"two")]
    (mkWorld empty_store 0 no_process) eq_refl) as (pm & w1 & w2 & H1 & H2 & H3 & _).
  exists pm, w1, w2. split; [exact H1|]. split; [exact H2|exact H3].
Defined.

(** A write that fails after some octets: the buffer is kept whole, so the
    next flush writes those octets again. *)
Definition env_enospc : Env := {|
  mono := fun n => 10 ^ 15; wall := fun n => 1700000000 * 10 ^ 9;
  hash_order := fun _ A m => map_to_list m; instant_min := 0; instant_max := 10 ^ 40;
  io := fun n => if (n =? 2)%nat then Some (3%nat, b#"No space left on device (os error 28)") else None;
  os_name := b#"linux"; arch_name := b#"x86_64"; process_id := 1; upper_table := fun c => c |}.

Example partial_write_repeats :
  exists pm w1 w2 w3,
    new_manager (E := env_enospc) true (b#"a.aof") Always (mkWorld empty_store 0 no_process) = (Ret (Ok pm), w1) /\
    aof_run (E := env_enospc) pm [ELog (b#"abcdef"); EWriter] w1 = (Ret (Ok tt), w2) /\
    pm_flush (E := env_enospc) pm w2 = (Ret (Ok tt), w3) /\
    content (file_at (w_proc w3) (b#"a.aof")) = b#"abcabcdef".
Proof. eexists _, _, _, _. split; [reflexivity|]. split; [reflexivity|]. split; reflexivity. Qed.

(** ** Recovery *)

(** Only environment readings passed. *)
Definition ticks (w w' : World) : Prop :=
  w_store w' = w_store w /\ w_proc w' = w_proc w /\ (w_reads w <= w_reads w')%nat.

(** [f] ran on each command in turn, with only readings in between. *)
Inductive replays (f : ParsedCommand -> M (Result unit)) : World -> list ParsedCommand -> World -> Prop :=
| replays_nil w w' : ticks w w' -> replays f w [] w'
| replays_cons w w1 c r w2 cs w' :
    ticks w w1 -> f c w1 = (Ret r, w2) -> replays f w2 cs w' -> replays f w (c :: cs) w'.

Lemma ticks_refl w : ticks w w.
Proof. done. Qed.
Lemma ticks_trans w1 w2 w3 : ticks w1 w2 -> ticks w2 w3 -> ticks w1 w3.
Proof. intros (? & ? & ?) (? & ? & ?). repeat split; [congruence|congruence|lia]. Qed.

Lemma replays_ticks f w w1 cs w' : ticks w w1 -> replays f w1 cs w' -> replays f w cs w'.
Proof.
  intros Ht H. destruct H; [constructor|econstructor; [|done|done]]; by eapply ticks_trans.
Qed.

Lemma replays_app f w cs w1 ds w' : replays f w cs w1 -> replays f w1 ds w' -> replays f w (cs ++ ds) w'.
Proof. induction 1; intros Hd; simpl; [by eapply replays_ticks|econstructor; eauto]. Qed.

(** [f] returns on each command in turn, whatever readings pass in between. *)
Fixpoint can_run (f : ParsedCommand -> M (Result unit)) (cs : list ParsedCommand) (w : World) : Prop :=
  match cs with
  | [] => True
  | c :: cs => forall w1, ticks w w1 -> exists r w2, f c w1 = (Ret r, w2) /\ can_run f cs w2
  end.

Lemma can_run_ticks f cs w w1 : ticks w w1 -> can_run f cs w -> can_run f cs w1.
Proof. destruct cs; simpl; [done|]. intros Ht H w2 Ht2. apply H. by eapply ticks_trans. Qed.

Lemma can_run_app f cs ds w :
  can_run f cs w -> (forall w1, replays f w cs w1 -> can_run f ds w1) -> can_run f (cs ++ ds) w.
Proof.
  revert w. induction cs as [|c cs IH]; simpl; intros w Hc Hd.
  - apply Hd. constructor. apply ticks_refl.
  - intros w1 Ht. destruct (Hc w1 Ht) as (r & w2 & Hf & Hc2). exists r, w2. split; [done|].
    apply IH; [done|]. intros w3 Hr. apply Hd. by econstructor.
Qed.

Lemma total_can_run f cs w : (forall c w, exists r w', f c w = (Ret r, w')) -> can_run f cs w.
Proof.
  intros Hf. revert w. induction cs as [|c cs IH]; [done|]. intros w w1 _.
  destruct (Hf c w1) as (r & w2 & ?). exists r, w2. by split.
Qed.

Section Replay.
Context {E : Env} `{!IoOk E}.
Variable f : ParsedCommand -> M (Result unit).

Lemma decode_try (buf chunk : bytes) (lim : CodecLimits) :
  overfull (mkRespCodec buf lim) chunk = false ->
  decode (mkRespCodec buf lim) chunk =
  let '(r, c) := try_parse_command_with_frame (mkRespCodec (buf ++ chunk) lim) in
  (fmap (M := option) fst <$> r, c).
Proof. intros Hl. unfold decode, decode_with_frame. by rewrite Hl. Qed.

(** A shorter buffer is not overfull either. *)
Lemma overfull_shorter lim a b x y :
  overfull (mkRespCodec a lim) x = false -> (length (b ++ y) <= length (a ++ x))%nat ->
  overfull (mkRespCodec b lim) y = false.
Proof.
  unfold overfull, zlen. cbn [buffer limits]. rewrite !length_app, !Z.ltb_ge. lia.
Qed.

Lemma frames_end lim n buf xs e c :
  (length buf < n)%nat -> frames n lim buf = (xs, e, c) ->
  try_parse_command_with_frame c = (match e with Some e => Err e | None => Ok None end, c).
Proof.
  revert buf xs e c. induction n as [|n IH]; intros buf xs e c Hn; [lia|]. rewrite frames_S.
  pose proof (try_parse_step buf lim) as Hs.
  remember (try_parse_command_with_frame (mkRespCodec buf lim)) as p eqn:Et.
  destruct Hs as [cmd frame rest -> Hne _| |e' Hx].
  - cbn [buffer]. destruct (frames n lim rest) as [[xs' e'] c'] eqn:Ef. intros [= <- <- <-].
    rewrite length_app in Hn. destruct frame; [done|]. simpl in Hn. eapply IH; [|exact Ef]. lia.
  - by intros [= <- <- <-].
  - by intros [= <- <- <-].
Qed.

Lemma try_parse_err_app lim buf e c x :
  try_parse_command_with_frame (mkRespCodec buf lim) = (Err e, c) ->
  try_parse_command_with_frame (mkRespCodec (buf ++ x) lim) = (Err e, mkRespCodec (buf ++ x) lim).
Proof.
  pose proof (try_parse_step buf lim) as Hs. intros Ht. rewrite Ht in Hs.
  inversion Hs; subst; auto.
Qed.

Lemma drain_replay_run lim n buf k w xs e c more :
  overfull (mkRespCodec buf lim) [] = false -> (length buf < n)%nat -> frames n lim buf = (xs, e, c) ->
  can_run f (map fst xs ++ more) w ->
  exists w', drain_replay n f (mkRespCodec buf lim) k w = (Ret (c, k + zlen xs), w') /\
    replays f w (map fst xs) w' /\ can_run f more w'.
Proof.
  revert buf k w xs e c. induction n as [|n IH]; intros buf k w xs e c Hl Hn; [lia|].
  rewrite frames_S. cbn [drain_replay]. rewrite decode_try by done. rewrite app_nil_r.
  destruct (try_parse_step buf lim) as [cmd frame rest -> Hne _| |e' Hx].
  - cbn [buffer]. destruct (frames n lim rest) as [[xs' e1] c1] eqn:Ef. intros [= <- <- <-] Hcan.
    rewrite length_app in *. assert (length frame <> 0)%nat by (by destruct frame).
    destruct (Hcan w (ticks_refl w)) as (r & w1 & Hf & Hcan1).
    change (fmap (M := option) fst <$> Ok (Some (cmd, frame))) with (Ok (E := RustyPotatoError) (Some cmd)).
    cbv iota beta. rewrite bind_run; cbn [fst] in Hf; rewrite Hf.
    destruct (IH rest (k + 1) w1 xs' e1 c1) as (w' & Hd & Hr & Hmore); [|lia|done|done|].
    { eapply overfull_shorter; [exact Hl|]. rewrite !length_app. lia. }
    exists w'. rewrite Hd. split; [unfold zlen; simpl; do 2 f_equal; f_equal; lia|].
    split; [|done]. econstructor; [apply ticks_refl|done|done].
  - intros [= <- <- <-] Hcan. exists w. simpl. rewrite Z.add_0_r. split; [done|]. split; [constructor; apply ticks_refl|done].
  - intros [= <- <- <-] Hcan. exists w. simpl. rewrite Z.add_0_r. split; [done|]. split; [constructor; apply ticks_refl|done].
Qed.

(** No complete command is left in the buffer. *)
Definition settled (lim : CodecLimits) (buf : bytes) : Prop :=
  forall x, (try_parse_command_with_frame (mkRespCodec buf lim)).1 <> Ok (Some x).

(** The buffer before a read is shorter than the next command's frame, so
    if it overflows there is no next command. *)
Lemma overfull_stops lim buf left xs e c :
  settled lim buf -> overfull (mkRespCodec buf lim) (take READ_CHUNK left) = true ->
  Forall (fun x => zlen x.2 + Z.of_nat READ_CHUNK <= max_buffer_size lim) xs ->
  frames (S (length (buf ++ left))) lim (buf ++ left) = (xs, e, c) -> xs = [].
Proof.
  intros Hset Hover Hsz. rewrite frames_S.
  destruct (try_parse_step (buf ++ left) lim) as [cmd frame rest Hb Hne Hx| |]; [|by intros [= <- _ _]..].
  cbn [buffer]. destruct (frames _ lim rest) as [[xs1 e1] c1]. intros [= <- _ _]. exfalso.
  apply Forall_cons in Hsz as [Hsz _]. cbn [snd] in Hsz.
  destruct (decide (length frame <= length buf)%nat) as [Hle|Hgt].
  - apply (f_equal (take (length frame))) in Hb as Hb'.
    rewrite take_app_exact, take_app_le in Hb' by lia.
    destruct (Hset (cmd, frame)). rewrite <- (take_drop (length frame) buf), Hb', Hx. done.
  - apply Z.ltb_lt in Hover. unfold zlen in *. cbn [buffer limits] in Hover. rewrite length_take in Hover. lia.
Qed.

Lemma replay_loop_run lim fuel buf left k w xs e c :
  settled lim buf -> (length left < fuel)%nat ->
  Forall (fun x => zlen x.2 + Z.of_nat READ_CHUNK <= max_buffer_size lim) xs ->
  frames (S (length (buf ++ left))) lim (buf ++ left) = (xs, e, c) -> can_run f (map fst xs) w ->
  exists w', replay_loop fuel f (mkRespCodec buf lim) left k w = (Ret (Ok (k + zlen xs)), w') /\
    replays f w (map fst xs) w'.
Proof.
  revert buf left k w xs e c.
  induction fuel as [|n IH]; intros buf left k w xs e c Hset Hfuel Hsz Hfr Hcan; [lia|].
  cbn [replay_loop]. rewrite bind_run. unfold io_call. rewrite io_ok. cbv iota beta.
  set (chunk := take READ_CHUNK left). set (rest := drop READ_CHUNK left).
  assert (left = chunk ++ rest) as Hsplit by (symmetry; apply take_drop).
  assert (chunk = [] -> left = []) as Hnil.
  { unfold chunk. destruct left; [done|]. by unfold READ_CHUNK. }
  assert (chunk <> [] -> (length rest < length left)%nat) as Hshort.
  { intros Hne. rewrite Hsplit, length_app. destruct chunk; [done|]. simpl. lia. }
  assert (ticks w (tick w)) as Ht by (repeat split; simpl; lia).
  destruct (overfull (mkRespCodec buf lim) chunk) eqn:Hover.
  { rewrite (overfull_stops lim buf left xs e c) in * by done. unfold decode, decode_with_frame. rewrite Hover.
    exists (tick w). rewrite Z.add_0_r. split; [done|]. by constructor. }
  rewrite Hsplit, app_assoc in Hfr. rewrite (frames_app _ _ (buf ++ chunk) rest) in Hfr by lia.
  rewrite (frames_fuel lim _ (S (length (buf ++ chunk)))) in Hfr by (rewrite ?length_app; lia).
  rewrite decode_try by done.
  rewrite frames_S in Hfr.
  pose proof (try_parse_step (buf ++ chunk) lim) as Hs.
  remember (try_parse_command_with_frame (mkRespCodec (buf ++ chunk) lim)) as p eqn:Et.
  destruct Hs as [cmd frame tl Htl Hne _| |e' Hx].
  - cbn [buffer fst] in *. assert (chunk <> []) as Hch.
    { intros Hc. rewrite Hc, app_nil_r in Et. by destruct (Hset (cmd, frame)); rewrite <- Et. }
    assert (length tl < length (buf ++ chunk))%nat as Hlt.
    { rewrite Htl, length_app. destruct frame; [done|]. simpl. lia. }
    rewrite (frames_fuel lim _ (S (length tl))) in Hfr by lia.
    destruct (frames (S (length tl)) lim tl) as [[xs1 e1] c1] eqn:Ef.
    pose proof (frames_rest lim _ _ _ _ _ (Nat.lt_succ_diag_r _) Ef) as (Hlim & Hlc & _).
    pose proof (frames_end lim _ _ _ _ _ (Nat.lt_succ_diag_r _) Ef) as Hend.
    destruct c1 as [b1 lim1]. cbn [limits buffer] in *. subst lim1.
    destruct (frames (S (length (b1 ++ rest))) lim (b1 ++ rest)) as [[ys e2] c2] eqn:Efr.
    assert (xs = ((cmd, frame) :: xs1) ++ ys) as Hxs.
    { destruct e1 as [e1|].
      - rewrite frames_S, (try_parse_err_app _ _ _ _ rest Hend) in Efr.
        injection Efr as <- <- <-. injection Hfr as <- <- <-. by rewrite app_nil_r.
      - rewrite (frames_fuel lim _ (S (length (b1 ++ rest)))) in Hfr by (rewrite ?length_app in *; lia).
        rewrite Efr in Hfr. by injection Hfr as <- <- <-. }
    specialize (Hshort Hch). rewrite Hxs, map_app in Hcan.
    destruct (Hcan (tick w) Ht) as (r & w1 & Hf & Hcan1).
    destruct (drain_replay_run lim (S (length tl)) tl (k + 1) w1 xs1 e1 (mkRespCodec b1 lim) (map fst ys)) as (w2 & Hd & Hr & Hcan2);
      [|lia|done|done|].
    { eapply overfull_shorter; [exact Hover|]. rewrite app_nil_r. lia. }
    destruct (IH b1 rest (k + 1 + zlen xs1) w2 ys e2 c2) as (w' & Hrep & Hr2); [|lia| |done|done|].
    { intros x. rewrite Hend. by destruct e1. }
    { rewrite Hxs in Hsz. by apply Forall_app in Hsz as [_ ?]. }
    subst xs.
    exists w'.
    change (fmap (M := option) fst <$> Ok (Some (cmd, frame))) with (Ok (E := RustyPotatoError) (Some cmd)).
    cbv iota beta. cbn [fst] in Hf. rewrite bind_run, Hf. cbv iota beta. rewrite bind_run, Hd. cbv iota beta.
    rewrite Hrep. split.
    + do 3 f_equal. unfold zlen. simpl. rewrite length_app. lia.
    + rewrite map_app. apply (replays_app _ _ _ w2); [|done]. simpl. econstructor; [exact Ht|done|done].
  - simpl. case_bool_decide as Hch.
    + rewrite Hch in *. specialize (Hnil eq_refl). rewrite Hnil in Hsplit. simpl in Hsplit.
      rewrite <- Hsplit, app_nil_r in *. cbn [buffer] in Hfr.
      rewrite !app_nil_r, frames_S, <- Et in Hfr. injection Hfr as <- <- <-.
      exists (tick w). rewrite Z.add_0_r. split; [done|]. by constructor.
    + cbn [buffer] in Hfr. destruct (IH (buf ++ chunk) rest k (tick w) xs e c) as (w' & Hrep & Hr); [| |done| |by eapply can_run_ticks|].
      * intros x. by rewrite <- Et.
      * specialize (Hshort Hch). lia.
      * rewrite <- Hfr. by repeat case_match.
      * exists w'. rewrite Hrep. split; [done|]. by eapply replays_ticks.
  - simpl. cbn [buffer] in Hfr. injection Hfr as <- <- <-. exists (tick w). rewrite Z.add_0_r.
    split; [done|]. by constructor.
Qed.

End Replay.

Section Recovery.
Context {E : Env} `{!IoOk E}.

(** The octets of one command, alone, as the server decodes and logs them. *)
Definition is_frame (x : ParsedCommand * bytes) : Prop :=
  decode_with_frame new_codec x.2 = (Ok (Some x), new_codec).

Lemma is_frame_app cmd frame x :
  is_frame (cmd, frame) ->
  frame <> [] /\
  try_parse_command_with_frame (mkRespCodec (frame ++ x) default_limits)
  = (Ok (Some (cmd, frame)), mkRespCodec x default_limits).
Proof.
  unfold is_frame, decode_with_frame. cbn [snd]. destruct (overfull new_codec frame); [done|].
  unfold extend. cbn [buffer limits new_codec with_limits app].
  destruct (try_parse_step frame default_limits) as [cmd' frame' rest Hb Hne Hx| |]; [|done|done].
  intros [= -> -> ->]. split; [done|apply Hx].
Qed.

Lemma frames_concat xs tail n :
  Forall is_frame xs -> settled default_limits tail ->
  (length (concat (map snd xs) ++ tail) < n)%nat ->
  exists e c, frames n default_limits (concat (map snd xs) ++ tail) = (xs, e, c).
Proof.
  intros Hx Ht. revert n. induction Hx as [|[cmd frame] xs Hf _ IH]; intros n Hn.
  - destruct n as [|n]; [lia|]. rewrite frames_S. simpl. unfold settled in Ht.
    destruct (try_parse_step tail default_limits) as [cmd frame rest ? ? ?| |]; [|by eexists _, _..].
    by destruct (Ht (cmd, frame)).
  - cbn [map concat snd] in *. rewrite <- app_assoc in *.
    destruct (is_frame_app cmd frame (concat (map snd xs) ++ tail) Hf) as [Hne Hp].
    destruct n as [|n]; [lia|]. rewrite frames_S, Hp. cbn [buffer].
    rewrite length_app in Hn. assert (length frame <> 0)%nat by (by destruct frame).
    destruct (IH n) as (e & c & ->); [lia|]. by eexists _, _.
Qed.
End Recovery.

Section File.
Context {E : Env} `{!IoOk E}.

Lemma replay_file_run (f : ParsedCommand -> M (Result unit)) path file xs tail w :
  can_run f (map fst xs) w -> Forall is_frame xs ->
  Forall (fun x => zlen x.2 + Z.of_nat READ_CHUNK <= DEFAULT_MAX_BUFFER_SIZE) xs ->
  settled default_limits tail ->
  disk (w_proc w) !! path = Some file -> content file = concat (map snd xs) ++ tail ->
  exists w', replay_aof_file path f w = (Ret (Ok (zlen xs)), w') /\ replays f w (map fst xs) w'.
Proof.
  intros Hf Hx Hsz Ht Hd Hc.
  destruct (frames_concat xs tail (S (length (content file))) Hx Ht) as (e & c & Hfr); [rewrite Hc; lia|].
  unfold replay_aof_file. rewrite bind_run. unfold getp. cbv iota beta. rewrite Hd.
  unfold try_. rewrite bind_run, io_do_run. cbv iota beta.
  set (w1 := mkWorld _ _ _). assert (ticks w w1) as Hw1.
  { unfold w1. repeat split; simpl; [|lia]. unfold set_disk. by destruct (w_proc w). }
  destruct (replay_loop_run f default_limits (replay_fuel (content file)) [] (content file) 0 w1 xs e c)
    as (w' & Hr & Hrep).
  - intros x. done.
  - unfold replay_fuel. lia.
  - done.
  - simpl. by rewrite Hc in *.
  - by eapply can_run_ticks.
  - exists w'. split; [exact Hr|]. by eapply replays_ticks.
Qed.
End File.

(** C27: Recovery replays the log. If the file holds the frames of commands
    one after the other, each small enough to fit the decoder's buffer next
    to one read, and after them anything that does not start with a
    complete command (nothing, a torn last frame, garbage), then with a
    working disk recovery returns the number of commands and has run each
    of them exactly once, in order, and nothing else. *)
Theorem recovery_replays_log {E : Env} (Hio : IoOk E) (f : ParsedCommand -> M (Result unit)) (path : bytes) (file : File) (xs : list (ParsedCommand * bytes)) (tail : bytes) (w : World) :
  (forall c w, exists r w', f c w = (Ret r, w')) ->
  Forall is_frame xs ->
  Forall (fun x => zlen x.2 + Z.of_nat READ_CHUNK <= DEFAULT_MAX_BUFFER_SIZE) xs ->
  settled default_limits tail ->
  disk (w_proc w) !! path = Some file -> content file = concat (map snd xs) ++ tail ->
  exists w', replay_aof_file path f w = (Ret (Ok (zlen xs)), w') /\ replays f w (map fst xs) w'.
Proof. intros Hf. by apply replay_file_run, total_can_run. Qed.

(** A log of one PING and a torn frame. *)
Definition demo_frame : bytes := b#"*1" ++ CRLF ++ b#"$4" ++ CRLF ++ b#"PING" ++ CRLF.
Definition demo_world : World :=
  mkWorld empty_store 0 (mkProcess None {[b#"a.aof" := mkFile (demo_frame ++ b#"*2") 0]} None []).

Lemma recovery_replays_log_witness :
  exists w', replay_aof_file (E := env_ms) (b#"a.aof") (fun _ => mret (Ok tt)) demo_world = (Ret (Ok 1), w') /\
    replays (fun _ => mret (Ok tt)) demo_world [mkParsedCommand (b#"PING") [] 0] w'.
Proof.
  apply (recovery_replays_log env_ms_io (fun _ => mret (Ok tt)) (b#"a.aof") (mkFile (demo_frame ++ b#"*2") 0)
    [(mkParsedCommand (b#"PING") [] 0, demo_frame)] (b#"*2") demo_world).
  - intros c w. by eexists _, _.
  - apply Forall_singleton. vm_compute. reflexivity.
  - apply Forall_singleton. vm_compute. discriminate.
  - intros x. vm_compute. discriminate.
  - vm_compute. reflexivity.
  - reflexivity.
Defined.
