(* ===== verification/Effects.v ===== *)
(** * Properties that follow the structure of a command

    An [Effect] is a property of effectful code that holds of code that
    does nothing and is kept by sequencing.  It then holds of a command if
    it holds of the store operations the command calls.  Four effects are
    used: [wf_effect] (the store invariant is kept), [quiet] (nothing
    visible changes), [safe] (no panic) and [store_same] (the store is not
    touched at all). *)

From S2P Require Import Prelude Numbers Utf8 Errors Values World MemoryStore StoreInv StoreSpec Protocol Command StringCommands TtlCommands HashCommands Glob Persistence ServerCommands.

Class Effect (P : forall A, M A -> Prop) : Prop := {
  eff_ret : forall A (a : A), P A (mret a);
  eff_bind : forall A B (m : M A) (k : A -> M B), P A m -> (forall a, P B (k a)) -> P B (m ≫= k)
}.

(** ** Derived rules *)
Section Rules.
Context {E : Env} (P : forall A, M A -> Prop) `{!Effect P}.

Lemma eff_try {A B} (m : M (Result A)) (k : A -> M (Result B)) :
  P _ m -> (forall a, P _ (k a)) -> P _ (try_ m k).
Proof. intros Hm Hk. apply eff_bind; [done|]. intros [a|e]; [done|apply eff_ret]. Qed.

Lemma eff_or_return {A} (m : M (result bytes A)) k :
  P _ m -> (forall a, P _ (k a)) -> P _ (or_return m k).
Proof. intros Hm Hk. apply eff_bind; [done|]. intros [a|e]; [done|apply eff_ret]. Qed.

Lemma eff_or_fail {A} (m : M (Result A)) k :
  P _ m -> (forall a, P _ (k a)) -> P _ (or_fail m k).
Proof. intros Hm Hk. apply eff_bind; [done|]. intros [a|e]; [done|apply eff_ret]. Qed.

Lemma eff_pure {A} (r : result bytes A) k :
  (forall a, r = Ok a -> P _ (k a)) -> P _ (or_return (mret r) k).
Proof.
  intros Hk. change (P _ (match r with Ok a => k a | Err e => mret (CmdError e) end)).
  destruct r; [by apply Hk|apply eff_ret].
Qed.

(** A text argument is valid UTF-8. *)
Lemma eff_text (a : bytes) k :
  (forall s, utf8_valid s = true -> P _ (k s)) -> P _ (or_return (mret (arg_text a)) k).
Proof.
  intros Hk. change (P _ (match arg_text a with Ok s => k s | Err e => mret (CmdError e) end)).
  unfold arg_text, from_utf8. destruct (utf8_valid a) eqn:Ha; [by apply Hk|apply eff_ret].
Qed.

Lemma eff_arg (args : list bytes) i k :
  (P _ (panic (A := CommandResult)) \/ (i < length args)%nat) ->
  (forall s, utf8_valid s = true -> P _ (k s)) -> P _ (or_return (arg_str args i) k).
Proof.
  unfold arg_str. intros Hp Hk. destruct (args !! i) as [a|] eqn:Ha; [by apply eff_text|].
  destruct Hp as [Hp|Hp]; [exact Hp|]. apply lookup_ge_None in Ha. lia.
Qed.

(** A numeric argument is a [u64]. *)
Lemma eff_u64 (args : list bytes) i k :
  (P _ (panic (A := CommandResult)) \/ (i < length args)%nat) ->
  (forall n, 0 <= n <= U64_MAX -> P _ (k n)) -> P _ (or_return (arg_u64 args i) k).
Proof.
  unfold arg_u64. intros Hp Hk. destruct (args !! i) as [a|] eqn:Ha.
  - change (P _ (match (match from_utf8 a ≫= parse_u64 with Some n => Ok n | None => Err NOT_INT end) with
                 | Ok n => k n | Err e => mret (CmdError e) end)).
    destruct (from_utf8 a ≫= parse_u64) as [n|] eqn:Hn; [|apply eff_ret].
    apply bind_Some in Hn as (s & _ & Hn). apply Hk. by eapply parse_u64_range.
  - destruct Hp as [Hp|Hp]; [exact Hp|]. apply lookup_ge_None in Ha. lia.
Qed.

Lemma eff_count_loop op l n :
  (forall k, utf8_valid k = true -> P _ (op k)) -> P _ (count_loop op l n).
Proof.
  intros Hop. revert n. induction l as [|a l IH]; intros n; [apply eff_ret|].
  apply eff_text. intros s Hs. apply eff_or_fail; [by apply Hop|]. intros b. apply IH.
Qed.

Lemma eff_mget_loop l out : (forall k, P _ (get k)) -> P _ (mget_loop l out).
Proof.
  intros Hop. revert out. induction l as [|a l IH]; intros out; [apply eff_ret|].
  apply eff_text. intros s Hs. apply eff_or_fail; [done|]. intros b. apply IH.
Qed.

Lemma eff_mset_loop l :
  (P _ (panic (A := CommandResult)) \/ Nat.even (length l) = true) ->
  (forall k v, P _ (set k (VString v))) -> P _ (mset_loop l).
Proof.
  intros Hp Hop. remember (length l) as n eqn:Hn. revert l Hn Hp.
  induction (lt_wf n) as [n _ IH]; intros [|a [|v l]] -> Hp; [apply eff_ret|by destruct Hp|].
  apply eff_text. intros s Hs. apply eff_or_fail; [done|]. intros _.
  apply (IH (length l)); [simpl; lia|done|exact Hp].
Qed.

Lemma eff_hset_loop key l n :
  (P _ (panic (A := CommandResult)) \/ Nat.even (length l) = true) ->
  (forall f x, utf8_valid f = true -> utf8_valid x = true -> P _ (hset key f x)) ->
  P _ (hset_loop key l n).
Proof.
  intros Hp Hop. remember (length l) as m eqn:Hm. revert l n Hm Hp.
  induction (lt_wf m) as [m _ IH]; intros [|a [|v l]] n -> Hp; [apply eff_ret| |].
  - apply eff_text. intros. by destruct Hp.
  - apply eff_text. intros f Hf. apply eff_text. intros x Hx. apply eff_or_fail; [by apply Hop|].
    intros b. apply (IH (length l)); [simpl; lia|done|exact Hp].
Qed.

Lemma eff_hmget_loop key l out : (forall f, P _ (hget key f)) -> P _ (hmget_loop key l out).
Proof.
  intros Hop. revert out. induction l as [|a l IH]; intros out; [apply eff_ret|].
  apply eff_text. intros s Hs. apply eff_or_fail; [done|]. intros b. apply IH.
Qed.

End Rules.

(** Walk down the structure of the code as it is written, without
    unfolding the operations it calls; those are left as goals. *)
Ltac eff_step :=
  lazymatch goal with
  | |- ?P ?A (mret _) => apply (eff_ret (P := P))
  | |- ?P ?A (or_return (arg_str _ _) _) => apply (eff_arg P); [|intros ? ?]
  | |- ?P ?A (or_return (arg_u64 _ _) _) => apply (eff_u64 P); [|intros ? ?]
  | |- ?P ?A (or_return (mret (arg_text _)) _) => apply (eff_text P); intros ? ?
  | |- ?P ?A (or_return (mret _) _) => apply (eff_pure P); intros ? ?
  | |- ?P ?A (or_return _ _) => apply (eff_or_return P); [|intros ?]
  | |- ?P ?A (or_fail _ _) => apply (eff_or_fail P); [|intros ?]
  | |- ?P ?A (try_ _ _) => apply (eff_try P); [|intros ?]
  | |- ?P ?A (mbind _ _) => apply (eff_bind (P := P)); [|intros ?]
  | |- ?P ?A (match ?x with _ => _ end) => destruct x eqn:?
  | |- ?P ?A (let x := _ in _) => cbv zeta
  end.
Ltac eff_walk := repeat eff_step.

(** ** The invariant *)
Definition wf_effect (A : Type) (m : M A) : Prop := keeps_wf m.

#[global] Instance wf_effect_Effect : Effect wf_effect.
Proof. split; [intros; apply keeps_wf_ret|intros; by apply keeps_wf_bind]. Qed.

(** ** The store is not touched *)
Definition store_same (A : Type) (m : M A) : Prop :=
  forall w, w_store (after m w) = w_store w /\ (w_reads w <= w_reads (after m w))%nat.

#[global] Instance store_same_Effect : Effect store_same.
Proof.
  split; [done|]. intros A B m k Hm Hk w. unfold after. rewrite bind_run.
  specialize (Hm w). unfold after in Hm. destruct (m w) as [[a|] w1]; [|done].
  specialize (Hk a w1). unfold after in Hk. simpl in Hm. destruct Hm, Hk.
  split; [congruence|lia].
Qed.

Lemma store_same_wf {A} (m : M A) : store_same A m -> wf_effect A m.
Proof. intros H w Hw. by rewrite (proj1 (H w)). Qed.

(** ** Nothing visible changes *)
Section Quiet.
Context {E : Env}.

(** Clock readings are used up, and at any instant from the next reading
    on a client sees what it would have seen without the code. *)
Definition quiet (A : Type) (m : M A) : Prop :=
  forall w, (w_reads w <= w_reads (after m w))%nat /\
    forall t, (forall i, (i < w_reads (after m w))%nat -> mono i <= t) ->
      view t (w_store (after m w)) = view t (w_store w).

#[global] Instance quiet_Effect : Effect quiet.
Proof.
  split; [done|]. intros A B m k Hm Hk w. unfold after. rewrite bind_run.
  specialize (Hm w). unfold after in Hm. destruct (m w) as [[a|] w1]; [|done].
  specialize (Hk a w1). unfold after in Hk. simpl in Hm. destruct Hm as [Hm1 Hm2], Hk as [Hk1 Hk2].
  split; [lia|]. intros t Ht. rewrite Hk2 by done. apply Hm2. intros i Hi. apply Ht. lia.
Qed.

(** Removing a key that had expired at some past reading. *)
Lemma view_delete_expired t s k sv d i x :
  data s !! k = Some sv -> expires_at sv = Some d -> (d <? mono i) = true -> mono i <= t ->
  view t (mkMemoryStore (delete k (data s)) x) = view t s.
Proof.
  intros Hk Hd Hi Ht. rewrite view_delete. apply view_delete_dead. rewrite lookup_view, Hk. simpl.
  unfold see_at, expired_at. rewrite Hd. apply Z.ltb_lt in Hi.
  destruct (Z.ltb_spec d t); [done|lia].
Qed.

End Quiet.

(** ** No panic *)
Definition safe (A : Type) (m : M A) : Prop := forall w, (m w).1 <> Panic.

#[global] Instance safe_Effect : Effect safe.
Proof.
  split; [done|]. intros A B m k Hm Hk w. rewrite bind_run. specialize (Hm w).
  destruct (m w) as [[a|] w1]; [apply Hk|done].
Qed.

(** ** Persistence code

    An effect that allows clock readings, I/O and changes of the process
    state holds of everything in [Persistence]. *)
Class ProcessEffect {E : Env} (P : forall A, M A -> Prop) : Prop := {
  pe_effect :: Effect P;
  pe_now : P _ now;
  pe_system_now : P _ system_now;
  pe_io : P _ io_call;
  pe_iterate : forall A (m : gmap bytes A), P _ (iterate m);
  pe_gets : forall A (f : MemoryStore -> A), P _ (gets f);
  pe_getp : forall A (f : Process -> A), P _ (getp f);
  pe_modifyp : forall f, P _ (modifyp f)
}.

(** Close a leaf that is one of the primitives. *)
Ltac prim := first
  [ apply pe_now | apply pe_system_now | apply pe_io | apply pe_iterate | apply pe_gets
  | apply pe_getp | apply pe_modifyp ].

#[global] Instance store_same_ProcessEffect {E : Env} : ProcessEffect store_same.
Proof. split; try apply _; intros; intros w; split; simpl; (done || lia). Qed.

#[global] Instance safe_ProcessEffect {E : Env} : ProcessEffect safe.
Proof. split; try apply _; by intros. Qed.

Section ProcessRules.
Context {E : Env} (P : forall A, M A -> Prop) `{!ProcessEffect P}.

Ltac proc := eff_walk; first [prim | auto with potato].

Lemma pe_io_do f fail : P _ (io_do f fail).
Proof. unfold io_do. proc. Qed.
Lemma pe_io_need path f fail : P _ (io_need path f fail).
Proof. unfold io_need. proc; apply pe_io_do. Qed.
Lemma pe_write_all h d fail : P _ (write_all h d fail).
Proof. unfold write_all. proc. Qed.
Hint Resolve pe_io_do pe_io_need pe_write_all : potato.

Lemma pe_create_dir_all d what : P _ (create_dir_all d what).
Proof. unfold create_dir_all. proc. Qed.
Lemma pe_flush_to_disk aw sync : P _ (flush_to_disk aw sync).
Proof. unfold flush_to_disk. proc. Qed.
Hint Resolve pe_create_dir_all pe_flush_to_disk : potato.

Lemma pe_elapsed t : P _ (elapsed t).
Proof. unfold elapsed. proc. Qed.
Hint Resolve pe_elapsed : potato.
Lemma pe_record aw frame : P _ (record aw frame).
Proof. unfold record. proc. Qed.
Lemma pe_periodic_flush aw : P _ (periodic_flush aw).
Proof. unfold periodic_flush. proc. Qed.
Lemma pe_swap_file aw temp : P _ (swap_file aw temp).
Proof. unfold swap_file. proc. Qed.
Lemma pe_current_file_size aw : P _ (current_file_size aw).
Proof. unfold current_file_size. proc. Qed.
Hint Resolve pe_record pe_periodic_flush pe_swap_file pe_current_file_size : potato.

Lemma pe_handle_message aw msg : P _ (handle_message aw msg).
Proof. unfold handle_message, run_writer. proc. Qed.
Hint Resolve pe_handle_message : potato.
Lemma pe_writer_step : P _ writer_step.
Proof. unfold writer_step. proc. Qed.
Hint Resolve pe_writer_step : potato.
Lemma pe_pump n r : P _ (pump n r).
Proof. revert r. induction n as [|n IH]; intros r; [apply eff_ret|]. cbn [pump]. proc. Qed.
Hint Resolve pe_pump : potato.
Lemma pe_send msg : P _ (send msg).
Proof. unfold send. proc. Qed.
Hint Resolve pe_send : potato.
Lemma pe_request msg : P _ (request msg).
Proof. unfold request. proc. Qed.
Hint Resolve pe_request : potato.
Lemma pe_log_command pm frame : P _ (log_command pm frame).
Proof. unfold log_command. proc. Qed.
Lemma pe_write_frames path frames : P _ (write_frames path frames).
Proof. induction frames as [|f l IH]; [apply eff_ret|]. cbn [write_frames]. proc. Qed.
Hint Resolve pe_write_frames : potato.
Lemma pe_rewrite_aof pm frames : P _ (rewrite_aof pm frames).
Proof. unfold rewrite_aof. proc. Qed.

Lemma pe_is_expired sv : P _ (is_expired sv).
Proof. unfold is_expired. proc. Qed.
Lemma pe_unix_millis : P _ unix_millis.
Proof. unfold unix_millis. proc. Qed.
Hint Resolve pe_is_expired pe_unix_millis : potato.
Lemma pe_live_entries l : P _ (live_entries l).
Proof. induction l as [|[k sv] l IH]; [apply eff_ret|]. cbn [live_entries]. proc. Qed.
Hint Resolve pe_live_entries : potato.
Lemma pe_snapshot : P _ snapshot.
Proof. unfold snapshot. proc. Qed.
Lemma pe_encode_entry k sv frames : P _ (encode_snapshot_entry k sv frames).
Proof. unfold encode_snapshot_entry, value_frames. proc. Qed.
Hint Resolve pe_encode_entry : potato.
Lemma pe_snapshot_to_frames l : P _ (snapshot_to_frames l).
Proof.
  unfold snapshot_to_frames. generalize (@nil bytes).
  induction l as [|[k sv] l IH]; intros fs; [apply eff_ret|]. cbn [snapshot_loop]. apply (eff_try P); auto with potato.
Qed.
Hint Resolve pe_rewrite_aof pe_snapshot pe_snapshot_to_frames : potato.

Lemma pe_bgrewriteaof slot args : P _ (bgrewriteaof_execute slot args).
Proof. unfold bgrewriteaof_execute. proc. Qed.

Lemma pe_uptime : P _ uptime_seconds.
Proof. unfold uptime_seconds. proc. Qed.

End ProcessRules.

(** ** Every command *)

(** The cases of one command out of the registry's list. *)
Ltac each_command Hin :=
  cbn [main_commands app] in Hin;
  repeat (destruct Hin as [<-|Hin]; [cbn [execute]|]); [..|destruct Hin].

Ltac open_command :=
  unfold SetCommand, GetCommand, DelCommand, ExistsCommand, MgetCommand, MsetCommand,
    ExpireCommand, PexpireCommand, ExpireatCommand, PexpireatCommand, TtlCommand, PttlCommand,
    IncrCommand, DecrCommand, HsetCommand, HgetCommand, HdelCommand, HgetallCommand, HmgetCommand,
    HkeysCommand, HvalsCommand, HlenCommand, HexistsCommand, PingCommand, EchoCommand,
    DbsizeCommand, TypeCommand, FlushdbCommand, InfoCommand, KeysCommand, CommandCommand,
    BgrewriteaofCommand, QuitCommand;
  cbn [execute];
  unfold set_execute, get_execute, del_execute, exists_execute, mget_execute, mset_execute,
    expire_execute, pexpire_execute, expireat_execute, pexpireat_execute, ttl_execute, pttl_execute,
    incr_execute, decr_execute, incr, decr, hset_execute, hget_execute, hdel_execute,
    hgetall_execute, hmget_execute, hkeys_execute, hvals_execute, hlen_execute, whole_hash,
    hexists_execute, ping_execute, echo_execute, dbsize_execute, type_execute, flushdb_execute,
    info_execute, keys_execute, keys, len, command_execute, quit_execute.
