(* ===== verification/StoreEffects.v ===== *)
(** * Properties of all code that acts on the store alone

    A [StoreEffect] is an effect that allows readings of the environment,
    reads and writes of the store, and panics.  It holds of every store
    operation and of every command except INFO and BGREWRITEAOF, which
    also act on the rest of the process.  Its instance here is [log_same]:
    the files, the writer task and its channel are left alone. *)

From S2P Require Import Prelude Numbers Utf8 Errors Values World MemoryStore StoreInv StoreSpec Protocol Command StringCommands TtlCommands HashCommands Glob Persistence ServerCommands Effects.

Class StoreEffect {E : Env} (P : forall A, M A -> Prop) : Prop := {
  se_effect :: Effect P;
  se_now : P _ now;
  se_system_now : P _ system_now;
  se_iterate : forall A (m : gmap bytes A), P _ (iterate m);
  se_gets : forall A (f : MemoryStore -> A), P _ (gets f);
  se_modify : forall f, P _ (modify f);
  se_panic : forall A, P A panic
}.

Section Rules.
Context {E : Env} (P : forall A, M A -> Prop) `{!StoreEffect P}.

Ltac store_prim := first
  [ apply se_now | apply se_system_now | apply se_iterate | apply se_gets | apply se_modify | apply se_panic ].
Ltac store_walk := eff_walk; first [store_prim | auto with potato].

Lemma se_data_get k : P _ (data_get k).
Proof. apply se_gets. Qed.
Lemma se_data_insert k v : P _ (data_insert k v).
Proof. apply se_modify. Qed.
Lemma se_index_insert k t : P _ (index_insert k t).
Proof. apply se_modify. Qed.
Lemma se_index_remove k : P _ (index_remove k).
Proof. apply se_modify. Qed.
Lemma se_data_remove k : P _ (data_remove k).
Proof. unfold data_remove. eff_walk; first [store_prim | apply se_data_get]. Qed.
Hint Resolve se_data_get se_data_insert se_index_insert se_index_remove se_data_remove : potato.

Lemma se_instant_add t d : P _ (instant_add t d).
Proof. unfold instant_add. store_walk. Qed.
Lemma se_instant_sub t d : P _ (instant_sub t d).
Proof. unfold instant_sub. store_walk. Qed.
Lemma se_unix_millis : P _ unix_millis.
Proof. unfold unix_millis. store_walk. Qed.
Hint Resolve se_instant_add se_instant_sub se_unix_millis : potato.

Lemma se_is_expired sv : P _ (is_expired sv).
Proof. unfold is_expired. store_walk. Qed.
Lemma se_new_value v : P _ (new_value v).
Proof. unfold new_value. store_walk. Qed.
Lemma se_new_with_expiration v d : P _ (new_with_expiration v d).
Proof. unfold new_with_expiration. store_walk. Qed.
Lemma se_new_with_ttl v n : P _ (new_with_ttl v n).
Proof. unfold new_with_ttl. store_walk. Qed.
Lemma se_touch sv : P _ (touch sv).
Proof. unfold touch. store_walk. Qed.
Lemma se_update_metadata sv : P _ (update_metadata sv).
Proof. unfold update_metadata. store_walk. Qed.
Lemma se_ttl_seconds sv : P _ (ttl_seconds sv).
Proof. unfold ttl_seconds. store_walk. Qed.
Lemma se_ttl_millis sv : P _ (ttl_millis sv).
Proof. unfold ttl_millis. store_walk. Qed.
Hint Resolve se_is_expired se_new_value se_new_with_expiration se_new_with_ttl se_touch se_update_metadata
  se_ttl_seconds se_ttl_millis : potato.

Lemma se_set k v : P _ (set k v).
Proof. unfold set. store_walk. Qed.
Lemma se_make_stored v d : P _ (make_stored v d).
Proof. unfold make_stored. store_walk. Qed.
Lemma se_resolve_keep k ttl : P _ (resolve_keep k ttl).
Proof. unfold resolve_keep. store_walk. Qed.
Hint Resolve se_make_stored se_resolve_keep : potato.
Lemma se_set_with_options k v ttl ex : P _ (set_with_options k v ttl ex).
Proof. unfold set_with_options. store_walk. Qed.
Lemma se_delete_sync k : P _ (delete_sync k).
Proof. unfold delete_sync. store_walk. Qed.
Lemma se_delete_key k : P _ (delete_key k).
Proof. unfold delete_key. store_walk. Qed.
Hint Resolve se_set se_set_with_options se_delete_sync se_delete_key : potato.
Lemma se_get k : P _ (get k).
Proof. unfold get. store_walk. Qed.
Lemma se_exists k : P _ (exists_ k).
Proof. unfold exists_. store_walk. Qed.
Lemma se_expire_with_options k n fl : P _ (expire_with_options k n fl).
Proof. unfold expire_with_options. store_walk. Qed.
Lemma se_expire_at_with_options k d fl : P _ (expire_at_with_options k d fl).
Proof. unfold expire_at_with_options. store_walk. Qed.
Lemma se_ttl k : P _ (ttl k).
Proof. unfold ttl. store_walk. Qed.
Lemma se_pttl k : P _ (pttl k).
Proof. unfold pttl. store_walk. Qed.
Lemma se_keys : P _ keys.
Proof. unfold keys. store_walk. Qed.
Lemma se_clear : P _ clear.
Proof. unfold clear. store_walk. Qed.
Lemma se_incr_by k n : P _ (incr_by k n).
Proof. unfold incr_by. store_walk. Qed.
Lemma se_hset k f x : P _ (hset k f x).
Proof. unfold hset. store_walk. Qed.
Lemma se_hget k f : P _ (hget k f).
Proof. unfold hget. store_walk. Qed.
Lemma se_hdel_commit k f b : P _ (hdel_commit k f b).
Proof. unfold hdel_commit. store_walk. Qed.
Hint Resolve se_hdel_commit : potato.
Lemma se_hdel k f : P _ (hdel k f).
Proof. unfold hdel. store_walk. Qed.
Lemma se_hgetall k : P _ (hgetall k).
Proof. unfold hgetall. store_walk. Qed.
Lemma se_hexists k f : P _ (hexists k f).
Proof. unfold hexists. store_walk. Qed.
Hint Resolve se_get se_exists se_expire_with_options se_expire_at_with_options se_ttl se_pttl se_keys se_clear
  se_incr_by se_hset se_hget se_hdel se_hgetall se_hexists : potato.

(** *** Commands *)
Lemma se_arg_panic (args : list bytes) i : P _ (panic (A := CommandResult)) \/ (i < length args)%nat.
Proof. left. apply se_panic. Qed.
Lemma se_unix_deadline n : P _ (unix_deadline n).
Proof. unfold unix_deadline. store_walk. Qed.
Lemma se_unix_target n : P _ (resolve_unix_target n).
Proof. unfold resolve_unix_target. store_walk. Qed.
Hint Resolve se_arg_panic se_unix_deadline se_unix_target : potato.
Lemma se_resolve_ttl c : P _ (resolve_ttl c).
Proof. unfold resolve_ttl. store_walk. Qed.
Hint Resolve se_resolve_ttl : potato.

Lemma se_mset_panic (l : list bytes) : P _ (panic (A := CommandResult)) \/ Nat.even (length l) = true.
Proof. left. apply se_panic. Qed.
Lemma se_count_loop op l n : (forall k, P _ (op k)) -> P _ (count_loop op l n).
Proof. intros H. apply eff_count_loop; [apply _|auto]. Qed.
Lemma se_mget_loop l out : P _ (mget_loop l out).
Proof. apply eff_mget_loop; [apply _|auto with potato]. Qed.
Lemma se_mset_loop l : P _ (mset_loop l).
Proof. apply eff_mset_loop; [apply _|apply se_mset_panic|auto with potato]. Qed.
Lemma se_hset_loop k l n : P _ (hset_loop k l n).
Proof. apply eff_hset_loop; [apply _|apply se_mset_panic|auto with potato]. Qed.
Lemma se_hmget_loop k l out : P _ (hmget_loop k l out).
Proof. apply eff_hmget_loop; [apply _|auto with potato]. Qed.
Hint Resolve se_count_loop se_mget_loop se_mset_loop se_hset_loop se_hmget_loop : potato.

Lemma se_command slot c l :
  In c (main_commands slot ++ [CommandCommand 33]) -> cmd_name c <> b#"INFO" -> cmd_name c <> b#"BGREWRITEAOF" ->
  P _ (execute c l).
Proof.
  intros Hin Hi Hb. each_command Hin; try (by destruct Hi); try (by destruct Hb); clear Hi Hb.
  all: open_command; eff_walk; first [store_prim | auto with potato].
Qed.
End Rules.

(** ** The log is left alone *)
Definition same_log (p p' : Process) : Prop :=
  disk p' = disk p /\ writer p' = writer p /\ channel p' = channel p.

Definition log_same (A : Type) (m : M A) : Prop := forall w, same_log (w_proc w) (w_proc (after m w)).

#[global] Instance log_same_Effect : Effect log_same.
Proof.
  split; [done|]. intros A B m k Hm Hk w. unfold after. rewrite bind_run.
  specialize (Hm w). unfold after in Hm. destruct (m w) as [[a|] w1]; [|done].
  specialize (Hk a w1). unfold after in Hk. unfold same_log in *. simpl in Hm.
  destruct Hm as (-> & -> & ->) in Hk. done.
Qed.

#[global] Instance log_same_StoreEffect {E : Env} : StoreEffect log_same.
Proof. split; try apply _; done. Qed.

(** INFO only remembers when it was first called. *)
Lemma log_same_uptime {E : Env} : log_same _ uptime_seconds.
Proof.
  intros w. unfold uptime_seconds, after, elapsed. rewrite bind_run. unfold getp. cbv iota beta.
  destruct (uptime_anchor (w_proc w)); done.
Qed.

Lemma log_same_command {E : Env} slot c l :
  In c (main_commands slot ++ [CommandCommand 33]) -> cmd_name c <> b#"BGREWRITEAOF" -> log_same _ (execute c l).
Proof.
  intros Hin Hb. destruct (decide (cmd_name c = b#"INFO")) as [Hi|Hi]; [|by eapply (se_command log_same)].
  each_command Hin; try discriminate Hi. open_command. eff_walk; try apply se_gets.
  - apply log_same_uptime.
  - unfold arg_str. case_match; [apply eff_ret|apply se_panic].
Qed.
