(* ===== verification/CommandThms.v ===== *)
(** * Theorems about the commands and their registries

    Dispatch checks names and arity before a command touches anything;
    every command that may be logged can be replayed; the number COMMAND
    COUNT reports is the number of commands; values are stored and read
    back octet for octet; and commands that are not logged change nothing
    a client can see. *)

From S2P Require Import Prelude Numbers Utf8 Errors Values World MemoryStore StoreInv StoreSpec Protocol Command StringCommands TtlCommands HashCommands Glob Persistence ServerCommands Effects.

(** ** Looking up commands *)
Section Lookup.
Context {E : Env}.

(** A name the registry stores unchanged. *)
Definition plain_name (c : Command) : bool :=
  is_ascii (cmd_name c) && bytes_eqb (to_ascii_uppercase (cmd_name c)) (cmd_name c).

Lemma plain_upcase c : plain_name c = true -> upcase (cmd_name c) = cmd_name c.
Proof.
  unfold plain_name, upcase. intros [Ha Hu]%andb_true_iff.
  rewrite to_uppercase_ascii by done. by destruct (bytes_eqb_spec (to_ascii_uppercase (cmd_name c)) (cmd_name c)).
Qed.

Lemma register_plain r c : plain_name c = true -> register r c = <[cmd_name c := c]> r.
Proof. intros H. unfold register. by rewrite plain_upcase. Qed.

Definition named (k : bytes) (c : Command) : bool := bytes_eqb (cmd_name c) k.

Lemma lookup_register_all cs r k :
  forallb plain_name cs = true ->
  register_all cs r !! k =
    match List.find (named k) (rev cs) with Some c => Some c | None => r !! k end.
Proof.
  induction cs as [|c cs IH] using rev_ind; [done|].
  rewrite forallb_app. intros [Hcs [Hc _]%andb_true_iff]%andb_true_iff.
  unfold register_all in *. rewrite fold_left_app, rev_unit. cbn [fold_left List.find].
  rewrite (register_plain _ c Hc). unfold named at 1.
  destruct (bytes_eqb_spec (cmd_name c) k) as [->|Hne].
  - by rewrite lookup_insert_eq.
  - rewrite lookup_insert_ne by done. by apply IH.
Qed.

Lemma size_register_all cs :
  forallb plain_name cs = true -> NoDup (map cmd_name cs) ->
  command_count (register_all cs new_registry) = length cs.
Proof.
  unfold command_count. induction cs as [|c cs IH] using rev_ind; [done|].
  rewrite forallb_app, map_app. intros [Hcs [Hc _]%andb_true_iff]%andb_true_iff [Hnd [Hdis _]]%NoDup_app.
  pose proof (lookup_register_all cs new_registry (cmd_name c) Hcs) as Hl.
  unfold register_all in *. rewrite fold_left_app. cbn [fold_left].
  rewrite (register_plain _ c Hc), map_size_insert_None.
  - rewrite IH by done. rewrite length_app. simpl. lia.
  - rewrite Hl. destruct (List.find _ _) as [c'|] eqn:Hf; [|done].
    apply find_some in Hf as [Hin Heq]. apply in_rev in Hin. unfold named in Heq.
    destruct (bytes_eqb_spec (cmd_name c') (cmd_name c)) as [He|]; [|done].
    destruct (Hdis (cmd_name c')).
    + apply list_elem_of_In, in_map, Hin.
    + rewrite He. simpl. set_solver.
Qed.

Definition main_find (slot : option PersistenceManager) (k : bytes) : option Command :=
  List.find (named k) (rev (main_commands slot ++ [CommandCommand 33])).

Lemma main_names_plain slot : forallb plain_name (main_commands slot ++ [CommandCommand 33]) = true.
Proof. vm_compute. reflexivity. Qed.

Lemma main_registry_lookup slot k : main_registry slot !! k = main_find slot k.
Proof.
  unfold main_registry. rewrite size_register_all; [|vm_compute; reflexivity|].
  - change (register (register_all (main_commands slot) new_registry) (CommandCommand (length (main_commands slot) + 1)))
      with (fold_left register [CommandCommand 33] (fold_left register (main_commands slot) new_registry)).
    rewrite <- fold_left_app. fold (register_all (main_commands slot ++ [CommandCommand 33]) new_registry).
    rewrite lookup_register_all by apply main_names_plain. unfold main_find.
    by destruct (List.find _ _).
  - refine (bool_decide_unpack _ _); vm_compute; exact I.
Qed.

Lemma replay_registry_lookup k :
  replay_registry !! k = List.find (named k) (rev replay_commands).
Proof.
  unfold replay_registry. rewrite lookup_register_all by (vm_compute; reflexivity).
  by destruct (List.find _ _).
Qed.

Lemma main_find_In slot k c :
  main_find slot k = Some c -> In c (main_commands slot ++ [CommandCommand 33]) /\ cmd_name c = k.
Proof.
  intros [Hin Hn]%find_some. split; [by apply in_rev|].
  unfold named in Hn. by destruct (bytes_eqb_spec (cmd_name c) k).
Qed.

End Lookup.

(** Recovery knows every mutating command. *)
Lemma replay_finds {E : Env} slot k c :
  main_find slot k = Some c -> is_mutation c = true -> replay_registry !! k = Some c.
Proof.
  intros Hf Hm. rewrite replay_registry_lookup.
  apply main_find_In in Hf as [Hin <-]. cbn [main_commands app] in Hin.
  repeat (destruct Hin as [<-|Hin]; [first [discriminate Hm | reflexivity]|]). destruct Hin.
Qed.

(** Every command that can be logged can be replayed. Whatever name a
    client uses for a command that the server records in the append-only
    file, recovery's registry runs the very same command for it. *)
Theorem mutations_are_replayable {E : Env} (slot : option PersistenceManager) (n : bytes) :
  registry_is_mutation (main_registry slot) n = true ->
  exists c, main_registry slot !! upcase n = Some c /\ replay_registry !! upcase n = Some c.
Proof.
  unfold registry_is_mutation. rewrite main_registry_lookup.
  destruct (main_find slot (upcase n)) as [c|] eqn:Hf; [|done]. intros Hm. exists c.
  split; [done|]. by eapply replay_finds.
Qed.

Lemma mutations_are_replayable_witness :
  exists c, main_registry (E := env_ms) None !! upcase (E := env_ms) (b#"hset") = Some c /\
    replay_registry (E := env_ms) !! upcase (E := env_ms) (b#"hset") = Some c.
Proof. apply (mutations_are_replayable (E := env_ms)). vm_compute. reflexivity. Defined.

(** COMMAND COUNT reports the number of registered commands, 33, and
    changes nothing. *)
Theorem command_count_reported {E : Env} (slot : option PersistenceManager) (id : N) (w : World) :
  registry_execute (main_registry slot) (mkParsedCommand (b#"COMMAND") [b#"COUNT"] id) w
  = (Ret (CmdOk (Integer (Z.of_nat (command_count (main_registry slot))))), w) /\
  command_count (main_registry slot) = 33%nat.
Proof.
  assert (command_count (main_registry slot) = 33%nat) as Hc.
  { unfold main_registry. rewrite size_register_all;
      [|vm_compute; reflexivity|refine (bool_decide_unpack _ _); vm_compute; exact I].
    change (register (register_all (main_commands slot) new_registry) (CommandCommand (length (main_commands slot) + 1)))
      with (fold_left register [CommandCommand 33] (fold_left register (main_commands slot) new_registry)).
    rewrite <- fold_left_app. fold (register_all (main_commands slot ++ [CommandCommand 33]) new_registry).
    apply size_register_all; [apply main_names_plain|refine (bool_decide_unpack _ _); vm_compute; exact I]. }
  split; [|done]. rewrite Hc. unfold registry_execute. cbn [name args].
  unfold upcase. rewrite to_uppercase_ascii by done. rewrite main_registry_lookup. reflexivity.
Qed.

(** ** Every command at once *)
Section AllCommands.
Context {E : Env}.

Lemma main_eff (P : forall A, M A -> Prop) `{!Effect P} slot cmd :
  (forall c args, In c (main_commands slot ++ [CommandCommand 33]) -> P _ (execute c args)) ->
  P _ (registry_execute (main_registry slot) cmd).
Proof.
  intros H. unfold registry_execute. rewrite main_registry_lookup.
  destruct (main_find slot (upcase (name cmd))) as [c|] eqn:Hf; [|apply eff_ret].
  apply main_find_In in Hf as [Hin _].
  destruct (validate_arity cmd (arity c)); [by apply H|apply eff_ret].
Qed.

Lemma store_same_panic {A} : store_same A panic.
Proof. done. Qed.
Lemma store_same_instant_add t d : store_same _ (instant_add t d).
Proof. unfold instant_add. case_match; [apply store_same_panic|apply eff_ret]. Qed.
Lemma store_same_instant_sub t d : store_same _ (instant_sub t d).
Proof. unfold instant_sub. case_match; [apply store_same_panic|apply eff_ret]. Qed.

Lemma store_same_arg_str l i : store_same _ (arg_str l i).
Proof. unfold arg_str. case_match; [apply eff_ret|apply store_same_panic]. Qed.

Ltac same_leaf := first
  [ prim | apply store_same_instant_add | apply store_same_instant_sub | apply pe_unix_millis; apply _
  | apply store_same_arg_str ].

Lemma store_same_unix_deadline n : store_same _ (unix_deadline n).
Proof. unfold unix_deadline. eff_walk; same_leaf. Qed.
Lemma store_same_unix_target n : store_same _ (resolve_unix_target n).
Proof. unfold resolve_unix_target. eff_walk; same_leaf. Qed.
Lemma store_same_resolve_ttl c : store_same _ (resolve_ttl c).
Proof.
  unfold resolve_ttl. destruct c; eff_walk; first [same_leaf | apply store_same_unix_deadline].
Qed.

Lemma value_ok_string b : value_ok (VString b).
Proof. done. Qed.

Lemma wf_panic {A} : wf_effect A panic.
Proof. apply store_same_wf, store_same_panic. Qed.

Ltac wf_leaf :=
  lazymatch goal with
  | |- _ \/ _ => left; apply wf_panic
  | |- wf_effect _ panic => apply wf_panic
  | |- wf_effect _ (set _ _) => apply set_wf; apply value_ok_string
  | |- wf_effect _ (set_with_options _ _ _ _) => apply set_with_options_wf; apply value_ok_string
  | |- wf_effect _ (get _) => apply get_wf
  | |- wf_effect _ (delete_key _) => apply delete_key_wf
  | |- wf_effect _ (exists_ _) => apply exists_wf
  | |- wf_effect _ (expire_with_options _ _ _) => apply expire_with_options_wf
  | |- wf_effect _ (expire_at_with_options _ _ _) => apply expire_at_with_options_wf
  | |- wf_effect _ (ttl _) => apply ttl_wf
  | |- wf_effect _ (pttl _) => apply pttl_wf
  | |- wf_effect _ (incr_by _ _) => apply incr_by_wf; vm_compute; split; discriminate
  | |- wf_effect _ (hget _ _) => apply hget_wf
  | |- wf_effect _ (hdel _ _) => apply hdel_wf
  | |- wf_effect _ (hgetall _) => apply hgetall_wf
  | |- wf_effect _ (hexists _ _) => apply hexists_wf
  | |- wf_effect _ clear => apply clear_wf
  | |- wf_effect _ (hset _ _ _) => apply hset_wf; assumption
  | |- wf_effect _ (count_loop _ _ _) => apply eff_count_loop; [apply _|intros; wf_leaf]
  | |- wf_effect _ (mget_loop _ _) => apply eff_mget_loop; [apply _|intros; wf_leaf]
  | |- wf_effect _ (mset_loop _) => apply eff_mset_loop; [apply _|left; apply wf_panic|intros; wf_leaf]
  | |- wf_effect _ (hset_loop _ _ _) => apply eff_hset_loop; [apply _|left; apply wf_panic|intros; wf_leaf]
  | |- wf_effect _ (hmget_loop _ _ _) => apply eff_hmget_loop; [apply _|intros; wf_leaf]
  | |- wf_effect _ (resolve_ttl _) => apply store_same_wf, store_same_resolve_ttl
  | |- wf_effect _ (resolve_unix_target _) => apply store_same_wf, store_same_unix_target
  | |- _ => apply store_same_wf; first [ same_leaf | apply pe_uptime; apply _ | apply pe_bgrewriteaof; apply _ ]
  end.

Lemma main_wf slot c l :
  In c (main_commands slot ++ [CommandCommand 33]) -> wf_effect _ (execute c l).
Proof.
  intros Hin. each_command Hin.
  all: open_command; eff_walk; wf_leaf.
Qed.

(** *** Reads *)
Lemma store_same_quiet {A} (m : M A) : store_same A m -> quiet A m.
Proof. intros H w. destruct (H w) as [Hs Hr]. split; [done|]. intros t _. by rewrite Hs. Qed.

Ltac quiet_op :=
  let s := fresh "s" in let r := fresh "r" in let p := fresh "p" in
  intros [s r p]; unfold after; run_simpl;
  repeat (case_match; simplify_eq/=);
  (split; [lia|]); let t := fresh "t" in let Ht := fresh "Ht" in intros t Ht;
  first [ done | eapply view_delete_expired; [done|done|done|apply Ht; lia] ].

Lemma quiet_get k : quiet _ (get k).
Proof. unfold get, delete_sync. quiet_op. Qed.
Lemma quiet_exists k : quiet _ (exists_ k).
Proof. unfold exists_, delete_sync. quiet_op. Qed.
Lemma quiet_ttl k : quiet _ (ttl k).
Proof. unfold ttl, delete_sync. quiet_op. Qed.
Lemma quiet_pttl k : quiet _ (pttl k).
Proof. unfold pttl, delete_sync. quiet_op. Qed.
Lemma quiet_hget k f : quiet _ (hget k f).
Proof. unfold hget, delete_sync. quiet_op. Qed.
Lemma quiet_hgetall k : quiet _ (hgetall k).
Proof. unfold hgetall, delete_sync. quiet_op. Qed.
Lemma quiet_hexists k f : quiet _ (hexists k f).
Proof. unfold hexists, delete_sync. quiet_op. Qed.

Ltac quiet_leaf :=
  first
  [ left; apply store_same_quiet, store_same_panic
  | apply quiet_get | apply quiet_exists | apply quiet_ttl | apply quiet_pttl | apply quiet_hget
  | apply quiet_hgetall | apply quiet_hexists
  | apply store_same_quiet;
    first [ same_leaf | apply pe_uptime; apply _ | apply pe_bgrewriteaof; apply _ ]
  | apply eff_count_loop; [apply _|intros; quiet_leaf]
  | apply eff_mget_loop; [apply _|intros; quiet_leaf]
  | apply eff_hmget_loop; [apply _|intros; quiet_leaf] ].

Lemma main_quiet slot c l :
  In c (main_commands slot ++ [CommandCommand 33]) -> is_mutation c = false -> quiet _ (execute c l).
Proof.
  intros Hin Hm. each_command Hin; try discriminate Hm; clear Hm.
  all: open_command; eff_walk; quiet_leaf.
Qed.

(** *** Panics *)

(** The platform's instants reach as far as any deadline a client can ask
    for. *)
Definition roomy : Prop :=
  forall i, mono i + from_secs U64_MAX <= instant_max /\ instant_min <= mono i - from_millis 1.

Lemma parse_set_loop_range l o ts es o' :
  parse_set_loop l o ts es = Ok o' ->
  (forall n, (opt_ttl o = Seconds n \/ opt_ttl o = Milliseconds n \/ opt_ttl o = UnixSeconds n \/
              opt_ttl o = UnixMilliseconds n) -> 0 <= n <= U64_MAX) ->
  (forall n, (opt_ttl o' = Seconds n \/ opt_ttl o' = Milliseconds n \/ opt_ttl o' = UnixSeconds n \/
              opt_ttl o' = UnixMilliseconds n) -> 0 <= n <= U64_MAX).
Proof.
  remember (length l) as m eqn:Hm. revert l o ts es Hm.
  induction (lt_wf m) as [m _ IH]; intros [|a l] o ts es -> H Ho; cbn [parse_set_loop] in H.
  { by injection H as <-. }
  assert (forall o1 ts es, parse_set_loop l o1 ts es = Ok o' -> opt_ttl o1 = opt_ttl o \/ opt_ttl o1 = KeepTtlChoice ->
    forall n, (opt_ttl o' = Seconds n \/ opt_ttl o' = Milliseconds n \/ opt_ttl o' = UnixSeconds n \/
              opt_ttl o' = UnixMilliseconds n) -> 0 <= n <= U64_MAX) as Hrec.
  { intros o1 ts1 es1 H1 Hk. eapply (IH (length l)); [simpl; lia|done|exact H1|].
    destruct Hk as [-> | ->]; [done|]. naive_solver. }
  destruct (from_utf8 a) as [s|]; [|done].
  destruct (is_one_of _ [b#"NX"; b#"XX"]). { destruct es; [done|]. eapply Hrec; [exact H|by left]. }
  destruct (bytes_eqb _ (b#"KEEPTTL")). { destruct ts; [done|]. eapply Hrec; [exact H|by right]. }
  destruct (is_one_of _ [b#"EX"; _; _; _]).
  - destruct ts; [done|]. destruct l as [|b l]; [done|].
    destruct (from_utf8 b ≫= parse_u64) as [n|] eqn:Hn; [|done]. case_match; [done|].
    apply bind_Some in Hn as (s' & _ & Hn). apply parse_u64_range in Hn.
    eapply (IH (length l)); [simpl; lia|done|exact H|].
    intros n'. unfold with_ttl, ttl_choice. cbn [opt_ttl]. repeat case_match; naive_solver.
  - destruct (bytes_eqb _ (b#"GET")); [|done]. destruct (opt_get o); [done|].
    eapply Hrec; [exact H|by left].
Qed.

Lemma safe_instant_add i d w :
  roomy -> 0 <= d <= from_secs U64_MAX -> (instant_add (mono i) d w).1 <> Panic.
Proof.
  intros Hr Hd. unfold instant_add. destruct (Hr i). destruct (Z.ltb_spec instant_max (mono i + d)); [lia|done].
Qed.

Lemma safe_now_add_k {A} d (k : Instant -> M A) :
  roomy -> 0 <= d <= from_secs U64_MAX -> (forall x, safe _ (k x)) -> safe _ (t ← now; x ← instant_add t d; k x).
Proof.
  intros Hr Hd Hk w. rewrite bind_run. simpl. rewrite bind_run.
  pose proof (safe_instant_add (w_reads w) d (tick w) Hr Hd) as H.
  destruct (instant_add _ _ _) as [[]?]; [apply Hk|done].
Qed.

Lemma safe_now_sub_k {A} (k : Instant -> M A) :
  roomy -> (forall x, safe _ (k x)) -> safe _ (t ← now; x ← instant_sub t (from_millis 1); k x).
Proof.
  intros Hr Hk w. rewrite bind_run. simpl. rewrite bind_run. unfold instant_sub.
  destruct (Hr (w_reads w)). destruct (Z.ltb_spec (mono (w_reads w) - from_millis 1) instant_min); [lia|apply Hk].
Qed.

Lemma millis_range n : 0 <= n <= U64_MAX -> 0 <= from_millis n <= from_secs U64_MAX.
Proof. unfold from_millis, from_secs, MILLI, NANOS. unfold_ints. lia. Qed.
Lemma secs_range n : 0 <= n <= U64_MAX -> 0 <= from_secs n <= from_secs U64_MAX.
Proof. unfold from_secs, NANOS. unfold_ints. lia. Qed.

(** Both wall-clock resolutions are the same code. *)
Lemma unix_deadline_eq n : unix_deadline n = resolve_unix_target n.
Proof. reflexivity. Qed.

Lemma safe_unix_target n : roomy -> 0 <= n <= U64_MAX -> safe _ (resolve_unix_target n).
Proof.
  intros Hr Hn w. unfold resolve_unix_target. rewrite bind_run.
  assert (exists o, unix_millis w = (Ret o, tick w) /\ forall m, o = Some m -> 0 <= m) as (o & -> & Ho).
  { unfold unix_millis. run_simpl. eexists. split; [reflexivity|]. intros m.
    case_match; [done|]. intros [= <-]. unfold wrap_u64. apply Z.mod_pos_bound. lia. }
  destruct o as [m|]; [|done]. specialize (Ho m eq_refl).
  destruct (Z.leb_spec n m).
  - apply safe_now_sub_k; [done|]. intros x. apply eff_ret.
  - apply safe_now_add_k; [done|apply millis_range; lia|]. intros x. apply eff_ret.
Qed.

Lemma safe_resolve_ttl o l :
  roomy -> parse_set_options l = Ok o -> safe _ (resolve_ttl (opt_ttl o)).
Proof.
  intros Hr Ho. pose proof (parse_set_loop_range _ _ _ _ _ Ho ltac:(naive_solver)) as Hn.
  destruct (opt_ttl o) as [| |n|n|n|n] eqn:Et; unfold resolve_ttl.
  - apply eff_ret.
  - apply eff_ret.
  - apply safe_now_add_k; [done|apply secs_range; naive_solver|]. intros x. apply eff_ret.
  - apply safe_now_add_k; [done|apply millis_range; naive_solver|]. intros x. apply eff_ret.
  - rewrite unix_deadline_eq. eff_walk. apply safe_unix_target; [done|].
    assert (0 <= n <= U64_MAX) by naive_solver. unfold_ints. lia.
  - rewrite unix_deadline_eq. eff_walk. apply safe_unix_target; [done|]. naive_solver.
Qed.

Lemma safe_expire k n fl : roomy -> 0 <= n <= U64_MAX -> safe _ (expire_with_options k n fl).
Proof.
  intros Hr Hn. unfold expire_with_options. apply safe_now_add_k; [done|by apply secs_range|].
  intros x [s r p]. unfold delete_key. run_simpl. by repeat (case_match; simplify_eq/=).
Qed.

Ltac safe_op := intros [s r p]; run_simpl; by repeat (case_match; simplify_eq/=).

Lemma safe_expire_at k d fl : safe _ (expire_at_with_options k d fl).
Proof. unfold expire_at_with_options, delete_key. safe_op. Qed.
Lemma safe_set_opt k v ttl ex : safe _ (set_with_options k v ttl ex).
Proof. unfold set_with_options, resolve_keep, make_stored. safe_op. Qed.
Lemma safe_set k v : safe _ (set k v).
Proof. unfold set. safe_op. Qed.
Lemma safe_delete k : safe _ (delete_key k).
Proof. unfold delete_key. safe_op. Qed.
Lemma safe_incr_by k n : safe _ (incr_by k n).
Proof. unfold incr_by. safe_op. Qed.
Lemma safe_hset k f x : safe _ (hset k f x).
Proof. unfold hset, delete_sync. safe_op. Qed.
Lemma safe_hdel k f : safe _ (hdel k f).
Proof. unfold hdel, hdel_commit, delete_sync. safe_op. Qed.
Lemma safe_get k : safe _ (get k).
Proof. unfold get, delete_sync. safe_op. Qed.
Lemma safe_exists k : safe _ (exists_ k).
Proof. unfold exists_, delete_sync. safe_op. Qed.
Lemma safe_ttl k : safe _ (ttl k).
Proof. unfold ttl, delete_sync. safe_op. Qed.
Lemma safe_pttl k : safe _ (pttl k).
Proof. unfold pttl, delete_sync. safe_op. Qed.
Lemma safe_hget k f : safe _ (hget k f).
Proof. unfold hget, delete_sync. safe_op. Qed.
Lemma safe_hgetall k : safe _ (hgetall k).
Proof. unfold hgetall, delete_sync. safe_op. Qed.
Lemma safe_hexists k f : safe _ (hexists k f).
Proof. unfold hexists, delete_sync. safe_op. Qed.
Lemma safe_clear : safe _ clear.
Proof. done. Qed.

(** The argument count tests of the commands give the lengths. *)
Ltac arg_len :=
  right; simpl in *;
  repeat match goal with
  | H : (_ <? _)%nat = false |- _ => apply Nat.ltb_ge in H
  | H : negb (_ =? _)%nat = false |- _ => apply negb_false_iff, Nat.eqb_eq in H
  | H : _ || _ = false |- _ => apply orb_false_iff in H as [? ?]
  end; lia.

Ltac safe_leaf Hr :=
  first
  [ solve [arg_len]
  | apply safe_set | apply safe_set_opt | apply safe_get | apply safe_delete | apply safe_exists
  | apply (safe_expire _ _ _ Hr); assumption | apply safe_expire_at | apply safe_ttl | apply safe_pttl
  | apply safe_incr_by | apply safe_hget | apply safe_hset | apply safe_hdel | apply safe_hgetall
  | apply safe_hexists | apply safe_clear | prim
  | eapply (safe_resolve_ttl _ _ Hr); eassumption
  | apply (safe_unix_target _ Hr); unfold_ints; lia
  | apply pe_uptime; apply _ | apply pe_bgrewriteaof; apply _
  | apply eff_count_loop; [apply _|intros; safe_leaf Hr]
  | apply eff_mget_loop; [apply _|intros; safe_leaf Hr]
  | apply eff_hmget_loop; [apply _|intros; safe_leaf Hr] ].

Lemma safe_pexpire l : roomy -> safe _ (pexpire_execute l).
Proof.
  intros Hr. unfold pexpire_execute. eff_step; [eff_step|]. do 3 (eff_step; try solve [arg_len]).
  apply safe_now_add_k; [done|by apply millis_range|]. intros d. eff_walk; safe_leaf Hr.
Qed.

Lemma main_safe slot c l :
  roomy -> In c (main_commands slot ++ [CommandCommand 33]) -> safe _ (execute c l).
Proof.
  intros Hr Hin. each_command Hin.
  all: try (by apply safe_pexpire); open_command; eff_walk; try (safe_leaf Hr).
  - exfalso. match goal with H : l !! _ = None |- _ => apply lookup_ge_None in H end.
    match goal with H : (_ <? _)%nat = false |- _ => apply Nat.ltb_ge in H end. lia.
  - apply eff_hset_loop; [apply _| |intros; safe_leaf Hr]. right. rewrite length_drop.
    match goal with H : _ || _ = false |- _ => apply orb_false_iff in H as [_ H]; by apply negb_false_iff in H end.
  - done.
  - apply eff_mset_loop; [apply _| |intros; safe_leaf Hr]. right.
    match goal with H : _ || _ = false |- _ => apply orb_false_iff in H as [_ H]; by apply negb_false_iff in H end.
Qed.
End AllCommands.

(** C30: Every command keeps the store invariant. Whatever a client sends,
    whatever the clocks, tables and disk do, and even if the command
    panics, a well-formed store stays well-formed: the index mirrors the
    deadlines, counters are [i64], hashes are non-empty and hold text. *)
Theorem commands_keep_invariant {E : Env} (slot : option PersistenceManager) (cmd : ParsedCommand) (w : World) :
  store_wf (w_store w) ->
  store_wf (w_store (after (registry_execute (main_registry slot) cmd) w)).
Proof. revert w. apply (main_eff wf_effect). intros c l. apply main_wf. Qed.



(** The numbers of words, command name included, an arity accepts. *)
Definition accepts (a : CommandArity) (n : nat) : Prop :=
  match a with
  | Fixed k => n = k
  | Range lo hi => (lo <= n <= hi)%nat
  | AtLeast k => (k <= n)%nat
  end.

#[global] Instance accepts_dec a n : Decision (accepts a n).
Proof. destruct a; simpl; apply _. Defined.

(** Dispatch. A name that is not registered gets the unknown-command
    error, and a registered command called with a number of arguments its
    arity excludes gets the arity error; in both cases the world is
    untouched. Otherwise exactly that command runs on the arguments as
    sent, whatever the letter case of its name. *)
Theorem dispatch_guards {E : Env} (r : CommandRegistry) (cmd : ParsedCommand) (w : World) :
  match r !! upcase (name cmd) with
  | None =>
      registry_execute r cmd w = (Ret (CmdError (format_unknown_command (name cmd) (args cmd))), w)
  | Some c =>
      if decide (accepts (arity c) (S (length (args cmd))))
      then registry_execute r cmd w = execute c (args cmd) w
      else exists m, registry_execute r cmd w = (Ret (CmdError (b#"ERR wrong number of arguments for '" ++ m)), w)
  end.
Proof.
  unfold registry_execute. destruct (r !! upcase (name cmd)) as [c|]; [|done].
  unfold validate_arity, total_args, accepts. destruct (arity c) as [k|lo hi|k].
  - destruct (Nat.eqb_spec (S (length (args cmd))) k); simpl; case_decide; try done; try lia. (eexists; reflexivity).
  - destruct (Nat.ltb_spec (S (length (args cmd))) lo), (Nat.ltb_spec hi (S (length (args cmd)))); simpl;
      case_decide; try done; try lia; (eexists; reflexivity).
  - destruct (Nat.ltb_spec (S (length (args cmd))) k); case_decide; try done; try lia; (eexists; reflexivity).
Qed.

(** ** Values survive octet for octet *)
Section SetGet.
Context {E : Env}.

Lemma set_always_run k v w :
  exists prev w' sv, set_with_options k v TNone SAlways w = (Ret (Ok (mkSetOutcome true prev)), w') /\
    data (w_store w') !! k = Some sv /\ value sv = v /\ expires_at sv = None /\
    forall j, j <> k -> data (w_store w') !! j = data (w_store w) !! j.
Proof.
  destruct w as [s r p]. unfold set_with_options, resolve_keep, make_stored. run_simpl.
  destruct (data s !! k) as [old|]; [destruct (expires_at old)|]; simpl;
    (eexists _, _, _; split; [reflexivity|]); simpl; rewrite lookup_insert_eq;
    (repeat split); intros; by rewrite lookup_insert_ne.
Qed.

Lemma get_live_run k sv w :
  data (w_store w) !! k = Some sv -> expires_at sv = None -> get k w = (Ret (Ok (Some sv)), w).
Proof. intros Hk Hd. unfold get. run_simpl. rewrite Hk. simpl. by rewrite Hd. Qed.

Lemma registry_run r n l id c w :
  r !! upcase n = Some c -> accepts (arity c) (S (length l)) ->
  registry_execute r (mkParsedCommand n l id) w = execute c l w.
Proof.
  intros Hc Ha. unfold registry_execute. cbn [name args]. rewrite Hc.
  unfold validate_arity, total_args, accepts in *. cbn [name args].
  destruct (arity c) as [k|lo hi|k].
  - by rewrite Ha, Nat.eqb_refl.
  - destruct (Nat.ltb_spec (S (length l)) lo), (Nat.ltb_spec hi (S (length l))); try lia. done.
  - destruct (Nat.ltb_spec (S (length l)) k); [lia|done].
Qed.

(** SET without options and GET, after their argument checks. *)
Lemma set_plain_run k v w :
  utf8_valid k = true ->
  execute SetCommand [k; v] w =
    match set_with_options k (VString v) TNone SAlways w with
    | (Ret (Ok o), w') => (Ret (set_reply false o), w')
    | (Ret (Err e), w') => (Ret (CmdError (to_client_error e)), w')
    | (Panic, w') => (Panic, w')
    end.
Proof.
  intros Hk. cbn [execute SetCommand]. unfold set_execute, arg_str, arg_text, from_utf8. cbn [length Nat.ltb Nat.leb].
  change ([k; v] !! 0%nat) with (Some k). cbv iota. rewrite Hk.
  trans ((r ← set_with_options k (VString v) TNone SAlways;
    match r with Ok o => mret (set_reply false o) | Err e => mret (CmdError (to_client_error e)) end) w); [reflexivity|].
  rewrite bind_run. by destruct (set_with_options _ _ _ _ w) as [[[]|] w'].
Qed.

Lemma get_run k w :
  utf8_valid k = true ->
  execute GetCommand [k] w =
    match get k w with
    | (Ret (Ok (Some sv)), w') => (Ret (CmdOk (get_reply (value sv))), w')
    | (Ret (Ok None), w') => (Ret (CmdOk nil_bulk), w')
    | (Ret (Err e), w') => (Ret (CmdError (to_client_error e)), w')
    | (Panic, w') => (Panic, w')
    end.
Proof.
  intros Hk. cbn [execute GetCommand]. unfold get_execute, arg_str, arg_text, from_utf8.
  change ([k] !! 0%nat) with (Some k). cbn [length Nat.eqb negb]. cbv iota. rewrite Hk.
  trans ((r ← get k;
    match r with
    | Ok r => match r with Some sv => mret (CmdOk (get_reply (value sv))) | None => mret (CmdOk nil_bulk) end
    | Err e => mret (CmdError (to_client_error e)) end) w); [reflexivity|].
  rewrite bind_run. by destruct (get k w) as [[[[]|]|] w'].
Qed.

End SetGet.

(** Values are binary-safe. On any store, SET of a text key to any
    octets replies OK, a GET of that key right after replies with exactly
    those octets, and a SET leaves every other key's stored value as it
    was; the names may be written in any letter case. *)
Theorem set_get_roundtrip {E : Env} (slot : option PersistenceManager) (n1 n2 k v : bytes) (id : N) (w : World) :
  upcase n1 = b#"SET" -> upcase n2 = b#"GET" -> utf8_valid k = true ->
  exists w1,
    registry_execute (main_registry slot) (mkParsedCommand n1 [k; v] id) w = (Ret (ok_simple "OK"), w1) /\
    registry_execute (main_registry slot) (mkParsedCommand n2 [k] id) w1 = (Ret (CmdOk (bulk v)), w1) /\
    forall j, j <> k -> data (w_store w1) !! j = data (w_store w) !! j.
Proof.
  intros H1 H2 Hk.
  destruct (set_always_run k (VString v) w) as (prev & w1 & sv & Hrun & Hd & Hv & Hx & Hj).
  exists w1. split; [|split; [|done]].
  - rewrite (registry_run _ n1 [k; v] id SetCommand);
      [|by rewrite H1, main_registry_lookup|simpl; lia].
    by rewrite (set_plain_run k v w Hk), Hrun.
  - rewrite (registry_run _ n2 [k] id GetCommand);
      [|by rewrite H2, main_registry_lookup|done].
    by rewrite (get_run k w1 Hk), (get_live_run _ _ _ Hd Hx), Hv.
Qed.

(** ** Witnesses *)
#[local] Existing Instance env_ms.

Lemma set_get_roundtrip_witness :
  exists w1,
    registry_execute (main_registry None) (mkParsedCommand (b#"set") [b#"k"; [of_u8 255; CR; LF; of_u8 0]] 7)
      (mkWorld empty_store 0 no_process) = (Ret (ok_simple "OK"), w1) /\
    registry_execute (main_registry None) (mkParsedCommand (b#"Get") [b#"k"] 7) w1
    = (Ret (CmdOk (bulk [of_u8 255; CR; LF; of_u8 0])), w1).
Proof.
  destruct (set_get_roundtrip None (b#"set") (b#"Get") (b#"k") [of_u8 255; CR; LF; of_u8 0] 7
              (mkWorld empty_store 0 no_process)) as (w1 & H1 & H2 & _); [vm_compute; reflexivity..|].
  by exists w1.
Defined.

Lemma commands_keep_invariant_witness :
  store_wf (w_store (after (registry_execute (main_registry None)
    (mkParsedCommand (b#"HSET") [b#"h"; b#"f"; b#"1"] 0)) (mkWorld empty_store 0 no_process))).
Proof. apply (commands_keep_invariant None). apply empty_store_wf. Defined.


(** Instants without a horizon. *)
Definition env_roomy : Env := {|
  mono := fun n => 10 ^ 15; wall := fun n => 1700000000 * 10 ^ 9;
  hash_order := fun _ A m => map_to_list m; instant_min := 0; instant_max := 10 ^ 40;
  io := fun _ => None; os_name := b#"linux"; arch_name := b#"x86_64"; process_id := 1;
  upper_table := fun c => c |}.

