(* ===== verification/Replies.v ===== *)
(** * What the replies look like

    Every command has a type of reply ([reply_shape]); [replies_typed] says
    that what a client gets is of that type or an error that begins with
    an error code.  The text of an error is not always a line, though: it
    repeats octets of the client or of the store, and a line break in them
    ends the reply early ([error_reply_splits]). *)

From S2P Require Import Prelude Numbers Utf8 Paths Errors Values World MemoryStore StoreInv StoreSpec Protocol ProtocolLemmas ProtocolThms Command StringCommands TtlCommands HashCommands Glob Persistence ServerCommands Effects CommandThms.

(** ** Types of replies *)
Inductive Shape : Type :=
| Status (texts : list bytes)   (* a status line, one of these *)
| Int
| Text                          (* a bulk string *)
| MaybeText                     (* a bulk string or nil *)
| Texts                         (* an array of bulk strings *)
| MaybeTexts                    (* an array of bulk strings and nils *)
| Pairs                         (* an array of bulk strings of even length *)
| Either (a b : Shape).

Definition is_text (v : ResponseValue) : bool := match v with BulkString (Some _) => true | _ => false end.
Definition is_maybe_text (v : ResponseValue) : bool := match v with BulkString _ => true | _ => false end.

Fixpoint fits (s : Shape) (v : ResponseValue) : bool :=
  match s, v with
  | Status texts, SimpleString t => existsb (bytes_eqb t) texts
  | Int, Integer _ => true
  | Text, _ => is_text v
  | MaybeText, _ => is_maybe_text v
  | Texts, Array l => forallb is_text l
  | MaybeTexts, Array l => forallb is_maybe_text l
  | Pairs, Array l => forallb is_text l && Nat.even (length l)
  | Either a b, _ => fits a v || fits b v
  | _, _ => false
  end.

Definition OK_ : Shape := Status [b#"OK"].

(** The type of each command's replies. *)
Definition reply_shape : list (bytes * Shape) :=
  [(b#"SET", Either OK_ MaybeText); (b#"GET", MaybeText); (b#"DEL", Int); (b#"EXISTS", Int);
   (b#"EXPIRE", Int); (b#"TTL", Int); (b#"PTTL", Int); (b#"PEXPIRE", Int); (b#"EXPIREAT", Int); (b#"PEXPIREAT", Int);
   (b#"INCR", Int); (b#"DECR", Int);
   (b#"HSET", Int); (b#"HGET", MaybeText); (b#"HDEL", Int); (b#"HGETALL", Pairs); (b#"HEXISTS", Int); (b#"HMGET", MaybeTexts);
   (b#"HKEYS", Texts); (b#"HVALS", Texts); (b#"HLEN", Int);
   (b#"PING", Either (Status [b#"PONG"]) Text); (b#"ECHO", Text); (b#"DBSIZE", Int);
   (b#"TYPE", Status [b#"string"; b#"integer"; b#"hash"; b#"list"; b#"none"]);
   (b#"FLUSHDB", OK_); (b#"INFO", Text); (b#"KEYS", Texts); (b#"MGET", MaybeTexts); (b#"MSET", OK_); (b#"QUIT", OK_);
   (b#"BGREWRITEAOF", Status [b#"Background append only file rewriting started"]);
   (b#"COMMAND", Either Int Texts)].

(** An error message begins with an error code. *)
Definition coded (m : bytes) : bool := bytes_eqb (take 4 m) (b#"ERR ") || bytes_eqb (take 10 m) (b#"WRONGTYPE ").

Definition good (s : Shape) (r : CommandResult) : Prop :=
  match r with CmdOk v => fits s v = true | CmdError m => coded m = true end.

(** What is known of the result of code that returns. *)
Definition yields {A : Type} (Q : A -> Prop) (m : M A) : Prop := forall w a w', m w = (Ret a, w') -> Q a.

Definition err_coded {A : Type} (r : result bytes A) : Prop :=
  match r with Ok _ => True | Err e => coded e = true end.
Definition fail_coded {A : Type} (r : Result A) : Prop :=
  match r with Ok _ => True | Err e => coded (to_client_error e) = true end.

Lemma yields_ret {A : Type} (Q : A -> Prop) a : Q a -> yields Q (mret a).
Proof. intros Ha w a' w' H. unfold mret, M_ret in H. congruence. Qed.
Lemma yields_panic {A : Type} (Q : A -> Prop) : yields Q panic.
Proof. done. Qed.
Lemma yields_bind {A B : Type} (R : A -> Prop) (Q : B -> Prop) m k :
  yields R m -> (forall a, R a -> yields Q (k a)) -> yields Q (m ≫= k).
Proof.
  intros Hm Hk w b w'. rewrite bind_run. destruct (m w) as [[a|] w1] eqn:E; [|done]. eapply Hk, Hm, E.
Qed.
Lemma yields_any {A : Type} (m : M A) : yields (fun _ => True) m.
Proof. done. Qed.

Section Rules.
Context (s : Shape).

Lemma good_or_return {A : Type} (m : M (result bytes A)) k :
  yields err_coded m -> (forall a, yields (good s) (k a)) -> yields (good s) (or_return m k).
Proof. intros Hm Hk. eapply yields_bind; [exact Hm|]. intros [a|e] He; [apply Hk|by apply yields_ret]. Qed.

Lemma good_or_fail {A : Type} (m : M (Result A)) k :
  yields fail_coded m -> (forall a, yields (good s) (k a)) -> yields (good s) (or_fail m k).
Proof. intros Hm Hk. eapply yields_bind; [exact Hm|]. intros [a|e] He; [apply Hk|by apply yields_ret]. Qed.

Lemma good_bind {A : Type} (m : M A) k : (forall a, yields (good s) (k a)) -> yields (good s) (m ≫= k).
Proof. intros Hk. eapply yields_bind; [apply yields_any|]. intros a _. apply Hk. Qed.
End Rules.

(** ** Sources of errors *)
Section Errors.
Context {E : Env}.

Lemma text_coded a : err_coded (arg_text a).
Proof. unfold arg_text. by destruct (from_utf8 a). Qed.
Lemma arg_coded args i : yields err_coded (arg_str args i).
Proof. unfold arg_str. case_match; [apply yields_ret, text_coded|apply yields_panic]. Qed.
Lemma arg_u64_coded args i : yields err_coded (arg_u64 args i).
Proof. unfold arg_u64. case_match; [|apply yields_panic]. apply yields_ret. by case_match. Qed.

Lemma set_loop_coded l o a b : err_coded (parse_set_loop l o a b).
Proof.
  remember (length l) as n eqn:Hn. revert l o a b Hn. induction (lt_wf n) as [n _ IH]. intros [|t l] o a b ->; [done|].
  cbn [parse_set_loop]. repeat (case_match; try done).
  all: match goal with |- err_coded (parse_set_loop ?r _ _ _) => apply (IH (length r)); [simpl; lia|done] end.
Qed.
Lemma options_coded l : err_coded (parse_set_options l).
Proof. apply set_loop_coded. Qed.
Lemma flag_coded l : err_coded (parse_expire_flag l).
Proof. unfold parse_expire_flag. repeat (case_match; try done). Qed.

Lemma deadline_coded n : yields err_coded (unix_deadline n).
Proof.
  intros [s r p] a w'. unfold unix_deadline, unix_millis, instant_sub, instant_add. run_simpl.
  repeat (case_match; simplify_eq/=; try done); by intros [= <- <-].
Qed.
Lemma target_coded n : yields err_coded (resolve_unix_target n).
Proof. exact (deadline_coded n). Qed.
Lemma resolve_coded c : yields err_coded (resolve_ttl c).
Proof.
  destruct c; simpl; try (by apply yields_ret).
  1,2: intros [s r p] a w'; unfold instant_add; run_simpl; repeat (case_match; simplify_eq/=; try done); by intros [= <- <-].
  all: eapply yields_bind; [apply deadline_coded|]; intros [d|e] He; by apply yields_ret.
Qed.

(** The store: a value of the wrong kind, not a number, overflow. *)
Ltac store_coded :=
  intros [s r p] a w'; unfold delete_sync, resolve_keep, make_stored; run_simpl;
  repeat (case_match; simplify_eq/=; try done); try (by intros [= <- <-]).

Lemma to_integer_coded v e : to_integer v = Err e -> coded (to_client_error e) = true.
Proof. destruct v; simpl; repeat case_match; intros [=]; by subst. Qed.

Lemma get_coded k : yields fail_coded (get k).
Proof. unfold get. store_coded. Qed.
Lemma exists_coded k : yields fail_coded (exists_ k).
Proof. unfold exists_. store_coded. Qed.
Lemma delete_coded k : yields fail_coded (delete_key k).
Proof. unfold delete_key. store_coded. Qed.
Lemma set_coded k v : yields fail_coded (set k v).
Proof. unfold set. store_coded. Qed.
Lemma set_options_coded k v t x : yields fail_coded (set_with_options k v t x).
Proof. unfold set_with_options. store_coded. Qed.
Lemma expire_at_coded k d fl : yields fail_coded (expire_at_with_options k d fl).
Proof. unfold expire_at_with_options, delete_key. store_coded. Qed.
Lemma expire_coded k n fl : yields fail_coded (expire_with_options k n fl).
Proof. unfold expire_with_options, delete_key, instant_add. store_coded. Qed.
Lemma ttl_coded k : yields fail_coded (ttl k).
Proof. unfold ttl. store_coded. Qed.
Lemma pttl_coded k : yields fail_coded (pttl k).
Proof. unfold pttl. store_coded. Qed.
Lemma incr_coded k n : yields fail_coded (incr_by k n).
Proof. unfold incr_by. store_coded; intros [= <- <-]; by eapply to_integer_coded. Qed.
Lemma hset_coded k f x : yields fail_coded (hset k f x).
Proof. unfold hset. store_coded. Qed.
Lemma hget_coded k f : yields fail_coded (hget k f).
Proof. unfold hget. store_coded. Qed.
Lemma hdel_coded k f : yields fail_coded (hdel k f).
Proof. unfold hdel. store_coded. Qed.
Lemma hgetall_coded k : yields fail_coded (hgetall k).
Proof. unfold hgetall. store_coded. Qed.
Lemma hexists_coded k f : yields fail_coded (hexists k f).
Proof. unfold hexists. store_coded. Qed.
End Errors.

(** ** The commands *)
#[export] Hint Resolve text_coded arg_coded arg_u64_coded options_coded flag_coded target_coded resolve_coded
  get_coded exists_coded delete_coded set_coded set_options_coded expire_at_coded expire_coded ttl_coded pttl_coded
  incr_coded hset_coded hget_coded hdel_coded hgetall_coded hexists_coded yields_ret yields_panic : replies.

Section Commands.
Context {E : Env}.

(** Down the structure of a command; what is left is the reply. *)
Ltac reply_step :=
  lazymatch goal with
  | |- yields _ (mret _) => apply yields_ret; try done
  | |- yields _ panic => apply yields_panic
  | |- yields _ (or_return _ _) => apply good_or_return; [auto with replies|intros ?]
  | |- yields _ (or_fail _ _) => apply good_or_fail; [auto with replies|intros ?]
  | |- yields _ (mbind _ _) => apply good_bind; intros ?
  | |- yields _ (match ?x with _ => _ end) => destruct x eqn:?
  | |- yields _ (let x := _ in _) => cbv zeta
  end.
Ltac reply_walk := repeat reply_step.

Lemma count_good op l n : (forall k, yields fail_coded (op k)) -> yields (good Int) (count_loop op l n).
Proof. intros Hop. revert n. induction l as [|a l IH]; intros n; simpl; reply_walk. apply IH. Qed.

Lemma mget_good l out : forallb is_maybe_text out = true -> yields (good MaybeTexts) (mget_loop l out).
Proof.
  revert out. induction l as [|a l IH]; intros out Ho; simpl; reply_walk; try done. apply IH.
  rewrite forallb_app, Ho. unfold mget_slot. simpl. repeat case_match; done.
Qed.

Lemma hmget_good key l out : forallb is_maybe_text out = true -> yields (good MaybeTexts) (hmget_loop key l out).
Proof.
  revert out. induction l as [|a l IH]; intros out Ho; simpl; reply_walk; try done. apply IH.
  rewrite forallb_app, Ho. unfold opt_bulk. by case_match.
Qed.

Lemma mset_good l : yields (good OK_) (mset_loop l).
Proof.
  remember (length l) as n eqn:Hn. revert l Hn. induction (lt_wf n) as [n _ IH]. intros [|a [|v l]] ->; simpl; reply_walk.
  apply (IH (length l)); [simpl; lia|done].
Qed.

Lemma hset_good key l n : yields (good Int) (hset_loop key l n).
Proof.
  remember (length l) as m eqn:Hm. revert l n Hm. induction (lt_wf m) as [m _ IH]. intros [|a [|v l]] n ->; simpl; reply_walk.
  apply (IH (length l)); [simpl; lia|done].
Qed.

Lemma whole_good s name reply args :
  coded (b#"ERR wrong number of arguments for '" ++ bytes_of_string name ++ b#"' command") = true ->
  (forall fields, fits s (reply fields) = true) -> yields (good s) (whole_hash name reply args).
Proof. intros Hn Hr. unfold whole_hash. reply_walk; first [exact Hn|apply Hr]. Qed.

Lemma bulks_texts {A : Type} (f : A -> bytes) l : forallb is_text (map (fun x => bulk (f x)) l) = true.
Proof. by induction l. Qed.
Lemma flatten_pairs l : forallb is_text (flatten l) && Nat.even (length (flatten l)) = true.
Proof. by induction l as [|[]]. Qed.

Lemma set_good args : yields (good (Either OK_ MaybeText)) (set_execute args).
Proof.
  unfold set_execute. reply_walk. unfold set_reply.
  destruct (opt_get _); [|by destruct (applied _)]. destruct (previous _) as [sv|]; [|done]. by destruct (value sv).
Qed.

Lemma info_good args : yields (good Text) (info_execute args).
Proof.
  unfold info_execute. apply good_bind. intros up. apply good_or_return; [|intros sec; cbv zeta; reply_walk].
  repeat case_match; first [by apply yields_ret|apply arg_coded].
Qed.

Definition shape_of (n : bytes) : option Shape := snd <$> List.find (fun x => bytes_eqb x.1 n) reply_shape.

(** One command and the type of its replies. *)
Definition answers_well (c : Command) : Prop :=
  exists s, shape_of (cmd_name c) = Some s /\ forall args, yields (good s) (execute c args).

Lemma answers_by (c : Command) s :
  shape_of (cmd_name c) = Some s -> (forall args, yields (good s) (execute c args)) -> answers_well c.
Proof. intros. by exists s. Qed.

Ltac answer :=
  eapply answers_by; [vm_compute; reflexivity|]; intros args;
  unfold SetCommand, GetCommand, DelCommand, ExistsCommand, MgetCommand, MsetCommand, ExpireCommand, TtlCommand, PttlCommand,
    PexpireCommand, ExpireatCommand, PexpireatCommand, IncrCommand, DecrCommand, HsetCommand, HgetCommand, HdelCommand,
    HgetallCommand, HexistsCommand, HmgetCommand, HkeysCommand, HvalsCommand, HlenCommand, PingCommand, EchoCommand,
    DbsizeCommand, TypeCommand, FlushdbCommand, InfoCommand, KeysCommand, QuitCommand, CommandCommand; cbn [execute].

Lemma string_commands_answer : Forall answers_well [SetCommand; GetCommand; DelCommand; ExistsCommand; MgetCommand; MsetCommand].
Proof.
  repeat apply Forall_cons_2; [..|by apply Forall_nil_2]; answer.
  - apply set_good.
  - unfold get_execute. reply_walk. unfold good, get_reply. simpl. by destruct (as_bytes _).
  - unfold del_execute. reply_walk. by apply count_good; auto with replies.
  - unfold exists_execute. reply_walk. by apply count_good; auto with replies.
  - unfold mget_execute. reply_walk. by apply mget_good.
  - unfold mset_execute. reply_walk. apply mset_good.
Qed.

Lemma ttl_commands_answer :
  Forall answers_well [ExpireCommand; TtlCommand; PttlCommand; PexpireCommand; ExpireatCommand; PexpireatCommand; IncrCommand; DecrCommand].
Proof.
  repeat apply Forall_cons_2; [..|by apply Forall_nil_2]; answer;
    unfold expire_execute, ttl_execute, pttl_execute, pexpire_execute, expireat_execute, pexpireat_execute, incr_execute, decr_execute, incr, decr;
    reply_walk.
Qed.

Lemma hash_commands_answer :
  Forall answers_well [HsetCommand; HgetCommand; HdelCommand; HgetallCommand; HexistsCommand; HmgetCommand; HkeysCommand; HvalsCommand; HlenCommand].
Proof.
  repeat apply Forall_cons_2; [..|by apply Forall_nil_2]; answer.
  - unfold hset_execute. reply_walk. apply hset_good.
  - unfold hget_execute. reply_walk. unfold good, opt_bulk. simpl. by case_match.
  - unfold hdel_execute. reply_walk. by apply count_good; auto with replies.
  - apply whole_good; [done|]. intros fields. apply flatten_pairs.
  - unfold hexists_execute. reply_walk.
  - unfold hmget_execute. reply_walk. by apply hmget_good.
  - apply whole_good; [done|]. intros fields. simpl. by induction fields as [|[]].
  - apply whole_good; [done|]. intros fields. simpl. by induction fields as [|[]].
  - by apply whole_good.
Qed.

Lemma server_commands_answer n :
  Forall answers_well [PingCommand; EchoCommand; DbsizeCommand; TypeCommand; FlushdbCommand; InfoCommand; KeysCommand; QuitCommand; CommandCommand n].
Proof.
  repeat apply Forall_cons_2; [..|by apply Forall_nil_2]; answer.
  - unfold ping_execute. reply_walk.
  - unfold echo_execute. reply_walk.
  - unfold dbsize_execute. reply_walk.
  - unfold type_execute. reply_walk. unfold good, type_name. simpl. repeat case_match; done.
  - unfold flushdb_execute. reply_walk.
  - apply info_good.
  - unfold keys_execute. reply_walk. simpl. apply (bulks_texts (fun x => x)).
  - unfold quit_execute. reply_walk.
  - unfold command_execute. reply_walk.
Qed.
End Commands.

(** ** BGREWRITEAOF: errors of the log *)
Section Rewrite.
Context {E : Env}.

Definition op_coded {A : Type} (p : Result unit * A) : Prop := fail_coded p.1.
Definition reply_coded (r : Reply) : Prop :=
  match r with Done r => fail_coded r | _ => True end.

Lemma fail_try {A B : Type} (m : M (Result A)) (k : A -> M (Result B)) :
  yields fail_coded m -> (forall a, yields fail_coded (k a)) -> yields fail_coded (try_ m k).
Proof. intros Hm Hk. eapply yields_bind; [exact Hm|]. intros [a|e] He; [apply Hk|by apply yields_ret]. Qed.

Lemma yields_then {A B : Type} (Q : B -> Prop) (m : M A) k : (forall a, yields Q (k a)) -> yields Q (m ≫= k).
Proof. intros Hk. eapply yields_bind; [apply yields_any|]. intros a _. apply Hk. Qed.

(** A result that is examined before it is passed on. *)
Lemma yields_case {A B : Type} (Q : B -> Prop) (m : M (Result A)) k :
  yields fail_coded m -> (forall r, fail_coded r -> yields Q (k r)) -> yields Q (m ≫= k).
Proof. apply yields_bind. Qed.

Lemma io_do_coded f fail : (forall e, coded (to_client_error (fail e)) = true) -> yields fail_coded (io_do f fail).
Proof.
  intros Hf. apply yields_then. intros [[n e]|]; [apply yields_ret, Hf|]. apply yields_then. intros _. by apply yields_ret.
Qed.
Lemma io_need_coded path f fail : (forall e, coded (to_client_error (fail e)) = true) -> yields fail_coded (io_need path f fail).
Proof.
  intros Hf. apply yields_then. intros [|]; [by apply io_do_coded|]. apply yields_then. intros _. apply yields_ret, Hf.
Qed.
Lemma write_all_coded h d fail : (forall e, coded (to_client_error (fail e)) = true) -> yields fail_coded (write_all h d fail).
Proof.
  intros Hf. unfold write_all. destruct h; apply yields_then; [intros [[n e]|]|intros _; apply yields_ret, Hf];
    apply yields_then; intros _; apply yields_ret; [apply Hf|done].
Qed.

Ltac log_leaf := first [by apply io_do_coded | by apply io_need_coded | by apply write_all_coded | by apply yields_ret].

Lemma flush_coded aw sync : yields op_coded (flush_to_disk aw sync).
Proof.
  unfold flush_to_disk. apply yields_case; [case_match; log_leaf|]. intros [u|e] He; [|by apply yields_ret]. cbv zeta.
  apply yields_case; [log_leaf|]. intros [u1|e] He1; [|by apply yields_ret].
  apply yields_case; [destruct sync; log_leaf|]. intros [u2|e] He2; [|by apply yields_ret].
  apply yields_then. intros t. by apply yields_ret.
Qed.

Lemma swap_coded aw t : yields op_coded (swap_file aw t).
Proof.
  unfold swap_file. cbv zeta. apply yields_case; [log_leaf|]. intros [u|e] He; [|by apply yields_ret].
  apply yields_case; [log_leaf|]. intros [u1|e] He1; [|by apply yields_ret].
  apply yields_case; [log_leaf|]. intros [u2|e] He2; [|by apply yields_ret].
  apply yields_then. intros t'. by apply yields_ret.
Qed.

Lemma run_writer_coded m : yields op_coded m -> yields fail_coded (run_writer m).
Proof. intros Hm. eapply yields_bind; [exact Hm|]. intros [r aw] Hr. apply yields_then. intros _. by apply yields_ret. Qed.

Lemma message_coded aw msg : yields reply_coded (handle_message aw msg).
Proof.
  destruct msg; simpl; try (apply yields_then; intros ?; by apply yields_ret).
  all: apply yields_case; [apply run_writer_coded; first [apply flush_coded|apply swap_coded]|]; intros r Hr.
  - by apply yields_ret.
  - by apply yields_ret.
  - apply yields_then. intros _. by apply yields_ret.
Qed.

Lemma writer_step_coded : yields reply_coded writer_step.
Proof.
  apply yields_then. intros p. repeat case_match; try (by apply yields_ret). apply yields_then. intros _. apply message_coded.
Qed.

Lemma pump_coded n r : reply_coded r -> yields reply_coded (pump n r).
Proof.
  revert r. induction n as [|n IH]; intros r Hr; simpl; [by apply yields_ret|].
  eapply yields_bind; [apply writer_step_coded|]. intros r' Hr'. by apply IH.
Qed.

Lemma send_coded msg : yields fail_coded (send msg).
Proof.
  unfold send. apply yields_then. intros full. apply yields_then. intros _. apply yields_then. intros [aw|]; [|by apply yields_ret].
  apply yields_then. intros _. by apply yields_ret.
Qed.

Definition request_coded (r : Result Reply) : Prop :=
  match r with Ok r => reply_coded r | Err e => coded (to_client_error e) = true end.

Lemma request_is_coded msg : yields request_coded (request msg).
Proof.
  unfold request. eapply yields_bind; [apply send_coded|]. intros [u|e] He; [|by apply yields_ret].
  apply yields_then. intros n. eapply yields_bind; [by apply pump_coded|]. intros r Hr. destruct r; by apply yields_ret.
Qed.

Lemma write_frames_coded path fs : yields fail_coded (write_frames path fs).
Proof. induction fs as [|f fs IH]; cbn [write_frames]; [by apply yields_ret|]. apply fail_try; [log_leaf|done]. Qed.

Lemma rewrite_coded pm frames : yields fail_coded (rewrite_aof pm frames).
Proof.
  unfold rewrite_aof. case_match; [by apply yields_ret|]. cbv zeta.
  apply fail_try; [unfold create_dir_all; case_match; log_leaf|]. intros _.
  apply fail_try; [log_leaf|]. intros _. apply fail_try; [apply write_frames_coded|]. intros _.
  apply fail_try; [log_leaf|]. intros _. apply fail_try; [log_leaf|]. intros _.
  eapply yields_bind; [apply request_is_coded|]. intros [r|e] Hr; [|by apply yields_ret].
  destruct (unit_reply r) as [u|e] eqn:Hu; [by apply yields_ret|]. apply yields_then. intros _. apply yields_ret.
  destruct r; simpl in *; by simplify_eq.
Qed.

Lemma frames_coded snap frames : yields fail_coded (snapshot_loop snap frames).
Proof.
  revert frames. induction snap as [|[k sv] snap IH]; intros frames; simpl; [by apply yields_ret|].
  apply fail_try; [|done]. unfold encode_snapshot_entry. apply yields_then. intros fs. cbv zeta.
  case_match; [|by apply yields_ret]. apply yields_then. intros t. case_match; [|by apply yields_ret].
  apply yields_then. intros [n|]; by apply yields_ret.
Qed.

Lemma bgrewriteaof_answers slot : answers_well (BgrewriteaofCommand slot).
Proof.
  eapply answers_by; [vm_compute; reflexivity|]. intros args. unfold BgrewriteaofCommand. cbn [execute]. unfold bgrewriteaof_execute.
  repeat (case_match; try (by apply yields_ret)). apply good_bind. intros snap.
  apply good_or_fail; [apply frames_coded|]. intros fs. apply good_or_fail; [apply rewrite_coded|]. intros _. by apply yields_ret.
Qed.

Lemma main_commands_answer slot : Forall answers_well (main_commands slot ++ [CommandCommand 33]).
Proof.
  pose proof string_commands_answer as H1. pose proof ttl_commands_answer as H2. pose proof hash_commands_answer as H3.
  pose proof (server_commands_answer 33) as H4. pose proof (bgrewriteaof_answers slot) as H5.
  rewrite !Forall_cons in H1. rewrite !Forall_cons in H2. rewrite !Forall_cons in H3. rewrite !Forall_cons in H4. unfold main_commands. cbn [app]. rewrite !Forall_cons.
  destruct_and!. split_and!; first [assumption|apply Forall_nil_2].
Qed.
End Rewrite.

(** C36: Every reply has its type. Whatever command a client sends, with any
    arguments and on any store, if the server answers it at all, then either
    the command is one of the table [reply_shape] and the reply is of the
    type the table gives it (an integer, one of its status lines, a bulk
    string or nil, an array of such, ...), or the reply is an error whose
    text begins with the code ERR or WRONGTYPE. *)
Theorem replies_typed {E : Env} (slot : option PersistenceManager) (cmd : ParsedCommand) (w : World) (r : CommandResult) (w' : World) :
  registry_execute (main_registry slot) cmd w = (Ret r, w') ->
  match r with
  | CmdOk v => exists s, shape_of (upcase (name cmd)) = Some s /\ fits s v = true
  | CmdError m => coded m = true
  end.
Proof.
  unfold registry_execute. rewrite main_registry_lookup. destruct (main_find slot (upcase (name cmd))) as [c|] eqn:Hf.
  - apply main_find_In in Hf as [Hin Hn]. destruct (validate_arity cmd (arity c)) as [u|e]; [|by intros [= <- <-]].
    pose proof (main_commands_answer slot) as Hall. rewrite Forall_forall in Hall.
    destruct (Hall c) as (s & Hs & Hy); [by apply list_elem_of_In|]. intros Hr. apply Hy in Hr.
    destruct r as [v|m]; [|exact Hr]. exists s. by rewrite <- Hn.
  - intros [= <- <-]. unfold format_unknown_command. by destruct (args cmd).
Qed.

Lemma replies_typed_witness :
  exists w', registry_execute (E := env_ms) (main_registry (E := env_ms) None) (mkParsedCommand (b#"Incr") [b#"n"] 1) (mkWorld empty_store 0 no_process)
    = (Ret (CmdOk (Integer 1)), w') /\
  exists s, shape_of (upcase (E := env_ms) (b#"Incr")) = Some s /\ fits s (Integer 1) = true.
Proof.
  eexists. split; [vm_compute; reflexivity|].
  eapply (replies_typed (E := env_ms) None (mkParsedCommand (b#"Incr") [b#"n"] 1) (mkWorld empty_store 0 no_process) (CmdOk (Integer 1))).
  vm_compute. reflexivity.
Defined.

(** ** Errors that are not lines *)

(** One value off the front of the buffer. *)
Lemma decode_front c new v rest :
  overfull c new = false -> parse (limits c) (buffer c ++ new) = Ok (Some (v, rest)) ->
  (exists front, buffer c ++ new = front ++ rest) -> buffer c ++ new <> [] ->
  decode_resp_value c new = (Ok (Some v), mkRespCodec rest (limits c)).
Proof.
  intros Ho Hp [front Hf] Hne. unfold decode_resp_value. rewrite Ho. unfold extend. cbn [buffer limits].
  rewrite Hp. destruct (buffer c ++ new) as [|x l] eqn:Hb; [done|]. rewrite Hf, length_app, Nat.add_sub, drop_app_length. done.
Qed.

Lemma parse_error_line lim line rest :
  no_crlf line -> utf8_valid line = true -> parse lim (BMINUS :: line ++ CRLF ++ rest) = Ok (Some (RError line, rest)).
Proof.
  intros Hl Hu. rewrite (assoc_L (++)), parse_cons. simpl. unfold parse_error, with_line, read_line, from_utf8.
  by rewrite <- (assoc_L (++)), split_crlf_text, Hu.
Qed.

Definition NOT_A_NUMBER : bytes := b#"ERR value is not an integer or out of range: ".

Lemma incr_reports_value {E : Env} slot n k sv s id w :
  upcase n = b#"INCR" -> utf8_valid k = true -> data (w_store w) !! k = Some sv -> expires_at sv = None -> value sv = VString s ->
  utf8_valid s = true -> parse_i64 s = None ->
  exists w', registry_execute (main_registry slot) (mkParsedCommand n [k] id) w = (Ret (CmdError (NOT_A_NUMBER ++ s)), w').
Proof.
  intros Hn Huk Hk Hd Hv Hs Hp. exists w.
  rewrite (registry_run _ _ _ _ IncrCommand); [|by rewrite main_registry_lookup, Hn|done].
  cbn [execute IncrCommand]. unfold incr_execute, arg_str, arg_text, from_utf8. change ([k] !! 0%nat) with (Some k). cbv iota. rewrite Huk.
  trans ((r ← incr k; match r with Ok n => mret (ok_int n) | Err e => mret (CmdError (to_client_error e)) end) w); [reflexivity|].
  rewrite bind_run. unfold incr, incr_by. rewrite bind_run. unfold data_get, gets. cbv iota beta. rewrite Hk, bind_run.
  unfold is_expired. rewrite Hd. unfold mret at 1, M_ret at 1. cbv iota beta. rewrite Hv. unfold to_integer, from_utf8. by rewrite Hs, Hp.
Qed.

(** C37: An error reply can be more than one reply. Let a string in the store
    consist of a character that is no digit, a line break, a plus sign and
    any line [t] (any client can store it). Then INCR of that key, which
    has to report that the value is no number, sends octets that every
    client decodes as two replies: the error, and after it the status [t],
    which the client takes for the reply to its next command. *)
Theorem error_reply_splits {E : Env} (slot : option PersistenceManager) (n k t : bytes) (sv : StoredValue) (id : N) (w : World) (peer : RespCodec) :
  upcase n = b#"INCR" -> utf8_valid k = true -> data (w_store w) !! k = Some sv -> expires_at sv = None ->
  value sv = VString (b#"x" ++ CRLF ++ b#"+" ++ t) -> utf8_valid t = true -> no_crlf t ->
  buffer peer = [] -> overfull peer (encode_error (NOT_A_NUMBER ++ b#"x" ++ CRLF ++ b#"+" ++ t)) = false ->
  exists msg w' peer',
    registry_execute (main_registry slot) (mkParsedCommand n [k] id) w = (Ret (CmdError msg), w') /\
    decode_resp_value peer (encode_error msg) = (Ok (Some (RError (NOT_A_NUMBER ++ b#"x"))), peer') /\
    decode_resp_value peer' [] = (Ok (Some (RSimpleString t)), mkRespCodec [] (limits peer)).
Proof.
  intros Hn Huk Hk Hd Hv Ht Hcr Hb Ho.
  assert (utf8_valid (b#"x" ++ CRLF ++ b#"+" ++ t) = true) as Hs by (rewrite (assoc_L (++)), (assoc_L (++)); by apply utf8_valid_app).
  destruct (incr_reports_value slot n k sv _ id w Hn Huk Hk Hd Hv Hs) as [w' Hr]; [reflexivity|].
  set (rest := encode_value (SimpleString t)).
  assert (encode_error (NOT_A_NUMBER ++ b#"x" ++ CRLF ++ b#"+" ++ t) = BMINUS :: (NOT_A_NUMBER ++ b#"x") ++ CRLF ++ rest) as Hw.
  { unfold rest, encode_error. cbn [encode_value]. rewrite <- !(assoc_L (++)). reflexivity. }
  exists (NOT_A_NUMBER ++ b#"x" ++ CRLF ++ b#"+" ++ t), w', (mkRespCodec rest (limits peer)). split_and!; [exact Hr| |].
  - apply decode_front; [done| | |]; rewrite Hb, Hw, app_nil_l.
    + by apply parse_error_line.
    + exists (BMINUS :: (NOT_A_NUMBER ++ b#"x") ++ CRLF). by rewrite <- !(assoc_L (++)).
    + done.
  - apply (decode_front (mkRespCodec rest (limits peer))); cbn [buffer limits]; rewrite ?app_nil_r.
    + revert Ho. unfold overfull. rewrite Hw, Hb. cbn [buffer limits]. unfold zlen. generalize rest. clear. intros l.
      rewrite length_cons, !length_app. rewrite !Z.ltb_ge. simpl length. lia.
    + rewrite <- (app_nil_r rest). apply (parse_encode (limits peer) (SimpleString t)). simpl. by rewrite bool_decide_eq_true_2.
    + by exists rest; rewrite app_nil_r.
    + done.
Qed.

Definition poisoned : StoredValue := mkStoredValue (VString (b#"x" ++ CRLF ++ b#"+" ++ b#"OK")) 0 0 None (for_value (VInteger 0) 0).

Lemma error_reply_splits_witness :
  exists msg w' peer',
    registry_execute (E := env_ms) (main_registry (E := env_ms) None) (mkParsedCommand (b#"incr") [b#"k"] 1)
      (mkWorld (mkMemoryStore {[ b#"k" := poisoned ]} ∅) 0 no_process) = (Ret (CmdError msg), w') /\
    decode_resp_value new_codec (encode_error msg) = (Ok (Some (RError (NOT_A_NUMBER ++ b#"x"))), peer') /\
    decode_resp_value peer' [] = (Ok (Some (RSimpleString (b#"OK"))), mkRespCodec [] default_limits).
Proof.
  exact (error_reply_splits (E := env_ms) None (b#"incr") (b#"k") (b#"OK") poisoned 1
    (mkWorld (mkMemoryStore {[ b#"k" := poisoned ]} ∅) 0 no_process) new_codec
    eq_refl eq_refl eq_refl eq_refl eq_refl eq_refl eq_refl eq_refl eq_refl).
Defined.
