(* ===== verification/Calls.v ===== *)
(** * Commands as calls on the store

    Most commands only read their arguments, call the store a number of
    times, and make a reply of the answers.  [Calls] is the tree of these
    calls; a command whose calls it cannot express, because it reads the
    clock between them or shows a table in the order it is visited, is a
    program of steps of its own ([Plan]).  [plan_run]: left alone, the
    steps of a command come to what [registry_execute] does. *)

From S2P Require Import Prelude Numbers Utf8 Errors Values World MemoryStore StoreInv StoreSpec Steps StepThms Protocol Command StringCommands TtlCommands HashCommands Glob Persistence ServerCommands CommandThms.

Inductive Calls : Type :=
| Reply (r : CommandResult)
| Ask (op : StoreOp) (k : OpResult -> Calls).

(** A text argument, or the error reply. *)
Definition text (a : bytes) (k : bytes -> Calls) : Calls :=
  match arg_text a with Ok s => k s | Err e => Reply (CmdError e) end.

(** A call and its answer; errors are rendered for the client. *)
Definition ask {A} (op : StoreOp) (answer : OpResult -> option A) (k : A -> Calls) : Calls :=
  Ask op (fun r =>
    match r with
    | RErr e => Reply (CmdError (to_client_error e))
    | _ => match answer r with Some a => k a | None => Reply (CmdOk Nil) end
    end).

Definition the_unit (r : OpResult) : option unit := match r with RUnit => Some tt | _ => None end.
Definition the_bool (r : OpResult) : option bool := match r with RBool b => Some b | _ => None end.
Definition the_int (r : OpResult) : option Z := match r with RInt n => Some n | _ => None end.
Definition the_value (r : OpResult) : option (option ValueType) := match r with RValue v => Some (fst <$> v) | _ => None end.
Definition the_bytes (r : OpResult) : option (option bytes) := match r with RBytes b => Some b | _ => None end.
Definition the_outcome (r : OpResult) : option (bool * option Live) := match r with ROutcome a p => Some (a, p) | _ => None end.

(** ** The trees *)

(** Replies made from what the store answered. *)
Definition reply_get (v : option ValueType) : ResponseValue := match v with Some v => get_reply v | None => nil_bulk end.
Definition reply_type (v : option ValueType) : ResponseValue :=
  SimpleString (match v with Some v => type_name v | None => b#"none" end).
Definition reply_slot (v : option ValueType) : ResponseValue :=
  match v with
  | Some (VString b) => bulk b
  | Some (VInteger i) => bulk (as_string (VInteger i))
  | _ => nil_bulk
  end.
Definition reply_outcome (want_get : bool) (o : bool * option Live) : CommandResult :=
  if want_get then
    match o.2 with
    | Some (VString b, _) => CmdOk (bulk (as_string (VString b)))
    | Some (VInteger i, _) => CmdOk (bulk (as_string (VInteger i)))
    | Some _ => CmdError WRONGTYPE
    | None => CmdOk nil_bulk
    end
  else if o.1 then ok_simple "OK"
  else CmdOk nil_bulk.

(** One key, and a key and a field. *)
Definition on_key (name : string) (k : bytes -> Calls) (l : list bytes) : Calls :=
  match l with [a] => text a k | _ => Reply (wrong_args name) end.
Definition on_field (name : string) (k : bytes -> bytes -> Calls) (l : list bytes) : Calls :=
  match l with [a; b] => text a (fun key => text b (k key)) | _ => Reply (wrong_args name) end.

Definition get_calls : list bytes -> Calls :=
  on_key "GET" (fun key => ask (OGet key) the_value (fun v => Reply (CmdOk (reply_get v)))).
Definition type_calls : list bytes -> Calls :=
  on_key "TYPE" (fun key => ask (OGet key) the_value (fun v => Reply (CmdOk (reply_type v)))).
Definition ttl_calls : list bytes -> Calls :=
  on_key "TTL" (fun key => ask (OTtl key) the_int (fun n => Reply (ok_int n))).
Definition pttl_calls : list bytes -> Calls :=
  on_key "PTTL" (fun key => ask (OPttl key) the_int (fun n => Reply (ok_int n))).
Definition hget_calls : list bytes -> Calls :=
  on_field "HGET" (fun key field => ask (OHget key field) the_bytes (fun v => Reply (CmdOk (opt_bulk v)))).
Definition hexists_calls : list bytes -> Calls :=
  on_field "HEXISTS" (fun key field => ask (OHexists key field) the_bool (fun b => Reply (int_reply b))).

Definition count_by (name : string) (n : Z) (l : list bytes) : Calls :=
  match l with
  | [] => Reply (wrong_args name)
  | a :: _ => text a (fun key => ask (OIncrBy key n) the_int (fun n => Reply (ok_int n)))
  end.
Definition incr_calls : list bytes -> Calls := count_by "INCR" 1.
Definition decr_calls : list bytes -> Calls := count_by "DECR" (-1).

Fixpoint count_calls (op : bytes -> StoreOp) (l : list bytes) (count : Z) : Calls :=
  match l with
  | [] => Reply (ok_int count)
  | a :: l' =>
      text a (fun key =>
      ask (op key) the_bool (fun b => count_calls op l' (if (b : bool) then count + 1 else count)))
  end.

Definition del_calls (l : list bytes) : Calls :=
  match l with [] => Reply (wrong_args "DEL") | _ => count_calls ODelete l 0 end.
Definition exists_calls (l : list bytes) : Calls :=
  match l with [] => Reply (wrong_args "EXISTS") | _ => count_calls OExists l 0 end.
Definition hdel_calls (l : list bytes) : Calls :=
  match l with
  | a :: b :: l' => text a (fun key => count_calls (OHdel key) (b :: l') 0)
  | _ => Reply (wrong_args "HDEL")
  end.

Fixpoint mget_tree (l : list bytes) (out : list ResponseValue) : Calls :=
  match l with
  | [] => Reply (CmdOk (Array out))
  | a :: l' => text a (fun key => ask (OGet key) the_value (fun v => mget_tree l' (out ++ [reply_slot v])))
  end.
Definition mget_calls (l : list bytes) : Calls :=
  match l with [] => Reply (wrong_args "MGET") | _ => mget_tree l [] end.

Fixpoint mset_tree (l : list bytes) : Calls :=
  match l with
  | a :: v :: l' => text a (fun key => ask (OSet key (VString v)) the_unit (fun _ => mset_tree l'))
  | _ => Reply (ok_simple "OK")
  end.
Definition mset_calls (l : list bytes) : Calls :=
  if bool_decide (l = []) || negb (Nat.even (length l)) then Reply (wrong_args "MSET") else mset_tree l.

Fixpoint hset_tree (key : bytes) (l : list bytes) (new_fields : Z) : Calls :=
  match l with
  | a :: b :: l' =>
      text a (fun field => text b (fun val =>
      ask (OHset key field val) the_bool (fun is_new => hset_tree key l' (if (is_new : bool) then new_fields + 1 else new_fields))))
  | _ => Reply (ok_int new_fields)
  end.
Definition hset_calls (l : list bytes) : Calls :=
  if (length l <? 3)%nat || negb (Nat.even (length l - 1)) then Reply (wrong_args "HSET")
  else match l with a :: l' => text a (fun key => hset_tree key l' 0) | [] => Reply (wrong_args "HSET") end.

Fixpoint hmget_tree (key : bytes) (l : list bytes) (out : list ResponseValue) : Calls :=
  match l with
  | [] => Reply (CmdOk (Array out))
  | a :: l' => text a (fun field => ask (OHget key field) the_bytes (fun r => hmget_tree key l' (out ++ [opt_bulk r])))
  end.
Definition hmget_calls (l : list bytes) : Calls :=
  match l with
  | a :: b :: l' => text a (fun key => hmget_tree key (b :: l') [])
  | _ => Reply (wrong_args "HMGET")
  end.

Definition ping_calls (l : list bytes) : Calls :=
  match l with
  | [] => Reply (ok_simple "PONG")
  | [a] => Reply (CmdOk (bulk a))
  | _ => Reply (wrong_args "PING")
  end.
Definition echo_calls (l : list bytes) : Calls :=
  match l with [a] => Reply (CmdOk (bulk a)) | _ => Reply (wrong_args "ECHO") end.
Definition quit_calls (l : list bytes) : Calls :=
  match l with [] => Reply (ok_simple "OK") | _ => Reply (wrong_args "QUIT") end.

Definition flush_call : Calls := ask OClear the_unit (fun _ => Reply (ok_simple "OK")).
Definition flushdb_calls (l : list bytes) : Calls :=
  match l with
  | [] => flush_call
  | [a] =>
      if eq_ignore_ascii_case a (b#"SYNC") || eq_ignore_ascii_case a (b#"ASYNC") then flush_call
      else Reply (CmdError SYNTAX)
  | _ => Reply (CmdError SYNTAX)
  end.

(** ** Plans *)
Inductive Plan : Type :=
| Calling (c : Calls)
| Whole (p : Prog CommandResult).

Definition timeless_ttl (c : SetTtlChoice) : option SetTtlOption :=
  match c with Default => Some TNone | KeepTtlChoice => Some KeepTtl | _ => None end.

Section Plans.
Context {E : Env} {Sh : Shards}.

(** The steps of a tree. *)
Fixpoint calls_code (c : Calls) : Prog CommandResult :=
  match c with
  | Reply r => mret r
  | Ask op k => r ← prog op; calls_code (k r)
  end.

(** The two ways a command stops early, in steps. *)
Definition por_return {A} (p : Prog (result bytes A)) (k : A -> Prog CommandResult) : Prog CommandResult :=
  r ← p; match r with Ok a => k a | Err e => mret (CmdError e) end.
Definition por_fail {A} (p : Prog (Result A)) (k : A -> Prog CommandResult) : Prog CommandResult :=
  r ← p; match r with Ok a => k a | Err e => mret (CmdError (to_client_error e)) end.

(** SET; a relative or absolute deadline is resolved before the call. *)
Definition set_timed (key v : bytes) (o : SetOptions) : Prog CommandResult :=
  por_return (atomic (resolve_ttl (opt_ttl o))) (fun ttl =>
  por_fail (set_with_options_p key (VString v) ttl (opt_existence o)) (fun outcome =>
  mret (set_reply (opt_get o) outcome))).

Definition set_plan (l : list bytes) : Plan :=
  match l with
  | a :: v :: opts =>
      match arg_text a with
      | Err e => Calling (Reply (CmdError e))
      | Ok key =>
          match parse_set_options opts with
          | Err e => Calling (Reply (CmdError e))
          | Ok o =>
              match timeless_ttl (opt_ttl o) with
              | Some ttl =>
                  Calling (ask (OSetOpt key (VString v) ttl (opt_existence o)) the_outcome
                    (fun x => Reply (reply_outcome (opt_get o) x)))
              | None => Whole (set_timed key v o)
              end
          end
      end
  | _ => Calling (Reply (wrong_args "SET"))
  end.

(** EXPIRE and its variants. *)
Definition expire_steps (name : string) (call : bytes -> Z -> ExpireFlag -> Prog CommandResult) (l : list bytes) : Prog CommandResult :=
  if (length l <? 2)%nat then mret (wrong_args name)
  else
    por_return (atomic (arg_str l 0)) (fun key =>
    por_return (atomic (arg_u64 l 1)) (fun n =>
    por_return (mret (parse_expire_flag (drop 2 l))) (fun flag =>
    call key n flag))).

Definition expire_call (key : bytes) (n : Z) (flag : ExpireFlag) : Prog CommandResult :=
  por_fail (expire_with_options_p key n flag) (fun b => mret (int_reply b)).
Definition expire_at_call (key : bytes) (deadline : Instant) (flag : ExpireFlag) : Prog CommandResult :=
  por_fail (expire_at_with_options_p key deadline flag) (fun b => mret (int_reply b)).
Definition pexpire_call (key : bytes) (millis : Z) (flag : ExpireFlag) : Prog CommandResult :=
  deadline ← atomic (t ← now; instant_add t (from_millis millis)); expire_at_call key deadline flag.
Definition expire_unix_call (target_ms : Z -> Z) (key : bytes) (n : Z) (flag : ExpireFlag) : Prog CommandResult :=
  por_return (atomic (resolve_unix_target (target_ms n))) (fun deadline => expire_at_call key deadline flag).

(** The commands that show a whole hash. *)
Definition whole_hash_steps (name : string) (reply : list (bytes * bytes) -> ResponseValue) (l : list bytes) : Prog CommandResult :=
  match l with
  | [a] =>
      por_return (mret (arg_text a)) (fun key =>
      por_fail (hgetall_p key) (fun fields => mret (CmdOk (reply fields))))
  | _ => mret (wrong_args name)
  end.

Definition plans : list (bytes * (list bytes -> Plan)) :=
  [(b#"SET", set_plan);
   (b#"GET", fun l => Calling (get_calls l));
   (b#"DEL", fun l => Calling (del_calls l));
   (b#"EXISTS", fun l => Calling (exists_calls l));
   (b#"EXPIRE", fun l => Whole (expire_steps "EXPIRE" expire_call l));
   (b#"TTL", fun l => Calling (ttl_calls l));
   (b#"PTTL", fun l => Calling (pttl_calls l));
   (b#"PEXPIRE", fun l => Whole (expire_steps "PEXPIRE" pexpire_call l));
   (b#"EXPIREAT", fun l => Whole (expire_steps "EXPIREAT" (expire_unix_call (fun n => saturating_mul_u64 n 1000)) l));
   (b#"PEXPIREAT", fun l => Whole (expire_steps "PEXPIREAT" (expire_unix_call (fun n => n)) l));
   (b#"INCR", fun l => Calling (incr_calls l));
   (b#"DECR", fun l => Calling (decr_calls l));
   (b#"HSET", fun l => Calling (hset_calls l));
   (b#"HGET", fun l => Calling (hget_calls l));
   (b#"HDEL", fun l => Calling (hdel_calls l));
   (b#"HGETALL", fun l => Whole (whole_hash_steps "HGETALL" (fun fields => Array (flatten fields)) l));
   (b#"HEXISTS", fun l => Calling (hexists_calls l));
   (b#"HMGET", fun l => Calling (hmget_calls l));
   (b#"HKEYS", fun l => Whole (whole_hash_steps "HKEYS" (fun fields => Array (map (fun '(field, _) => bulk field) fields)) l));
   (b#"HVALS", fun l => Whole (whole_hash_steps "HVALS" (fun fields => Array (map (fun '(_, val) => bulk val) fields)) l));
   (b#"HLEN", fun l => Whole (whole_hash_steps "HLEN" (fun fields => Integer (wrap_i64 (zlen fields))) l));
   (b#"PING", fun l => Calling (ping_calls l));
   (b#"ECHO", fun l => Calling (echo_calls l));
   (b#"TYPE", fun l => Calling (type_calls l));
   (b#"FLUSHDB", fun l => Calling (flushdb_calls l));
   (b#"MGET", fun l => Calling (mget_calls l));
   (b#"MSET", fun l => Calling (mset_calls l));
   (b#"QUIT", fun l => Calling (quit_calls l))].

(** The commands that look at all keys or at the process are one step. *)
Definition plan_of (c : Command) (l : list bytes) : Plan :=
  match List.find (fun x => bytes_eqb x.1 (cmd_name c)) plans with
  | Some (_, f) => f l
  | None => Whole (atomic (execute c l))
  end.

(** [registry_execute], in steps. *)
Definition plan (slot : option PersistenceManager) (cmd : ParsedCommand) : Plan :=
  match main_registry slot !! upcase (name cmd) with
  | Some command =>
      match validate_arity cmd (arity command) with
      | Err e => Calling (Reply (CmdError (b#"ERR " ++ e)))
      | Ok _ => plan_of command (args cmd)
      end
  | None => Calling (Reply (CmdError (format_unknown_command (name cmd) (args cmd))))
  end.

Definition plan_code (p : Plan) : Prog CommandResult :=
  match p with Calling c => calls_code c | Whole p => p end.

(** The first step finds the command. *)
Definition command_code (slot : option PersistenceManager) (cmd : ParsedCommand) : Prog CommandResult :=
  _ ← atomic (mret tt); plan_code (plan slot cmd).

(** ** Left alone *)
Abbreviation alone c := (run (calls_code c)).

Lemma text_is a (k : bytes -> M CommandResult) (k' : bytes -> Calls) :
  (forall s, same (k s) (alone (k' s))) -> same (or_return (mret (arg_text a)) k) (alone (text a k')).
Proof.
  intros Hk w. unfold or_return, text. rewrite bind_run. unfold mret at 1, M_ret at 1. destruct (arg_text a) as [s|e]; [apply Hk|done].
Qed.

Lemma arg_is l i a (k : bytes -> M CommandResult) : l !! i = Some a -> same (or_return (arg_str l i) k) (or_return (mret (arg_text a)) k).
Proof. intros Hi w. unfold or_return, arg_str. by rewrite Hi. Qed.

(** One call: the command goes on with the answer. *)
Lemma ask_is {A B : Type} (m : M (Result A)) (k : A -> M CommandResult) (to : A -> OpResult) (v : A -> B) (answer : OpResult -> option B) (k' : B -> Calls) op :
  (forall w, exec op w = (r ← m; mret (as_result to r)) w) ->
  (forall a, answer (to a) = Some (v a)) -> (forall a e, to a <> RErr e) ->
  (forall a, same (k a) (alone (k' (v a)))) ->
  same (or_fail m k) (alone (ask op answer k')).
Proof.
  intros He Ha Hne Hk w. unfold or_fail, ask. cbn [calls_code]. rewrite run_bind, !bind_run, run_op, He, bind_run.
  destruct (m w) as [[[a|e]|] w1]; [|done|done]. unfold mret at 1, M_ret at 1. cbn [as_result].
  specialize (Hne a). specialize (Ha a). destruct (to a); try (rewrite Ha; apply Hk). by destruct (Hne e).
Qed.

Lemma get_is l : same (get_execute l) (alone (get_calls l)).
Proof.
  destruct l as [|a [|b l]]; try done. intros w. unfold get_execute. cbn [length Nat.eqb negb]. rewrite (arg_is [a] 0 a) by done.
  apply text_is. intros key. apply (ask_is (get key) _ (fun o => RValue (see <$> o)) (fun o => value <$> o)); [done|by intros [sv|]|done|].
  by intros [sv|].
Qed.

Lemma type_is l : same (type_execute l) (alone (type_calls l)).
Proof.
  destruct l as [|a [|b l]]; try done. intros w. unfold type_execute. cbn [length Nat.eqb negb]. rewrite (arg_is [a] 0 a) by done.
  apply text_is. intros key. apply (ask_is (get key) _ (fun o => RValue (see <$> o)) (fun o => value <$> o)); [done|by intros [sv|]|done|].
  by intros [sv|].
Qed.

Lemma ttl_is l : same (ttl_execute l) (alone (ttl_calls l)).
Proof.
  destruct l as [|a [|b l]]; try done. intros w. unfold ttl_execute. cbn [length Nat.eqb negb]. rewrite (arg_is [a] 0 a) by done.
  apply text_is. intros key. by apply (ask_is (ttl key) _ RInt (fun n => n)).
Qed.

Lemma pttl_is l : same (pttl_execute l) (alone (pttl_calls l)).
Proof.
  destruct l as [|a [|b l]]; try done. intros w. unfold pttl_execute. cbn [length Nat.eqb negb]. rewrite (arg_is [a] 0 a) by done.
  apply text_is. intros key. by apply (ask_is (pttl key) _ RInt (fun n => n)).
Qed.

Lemma hget_is l : same (hget_execute l) (alone (hget_calls l)).
Proof.
  destruct l as [|a [|b [|c l]]]; try done. intros w. unfold hget_execute. cbn [length Nat.eqb negb]. rewrite (arg_is [a; b] 0 a) by done.
  apply text_is. intros key w1. rewrite (arg_is [a; b] 1 b) by done. apply text_is. intros field.
  by apply (ask_is (hget key field) _ RBytes (fun x => x)).
Qed.

Lemma hexists_is l : same (hexists_execute l) (alone (hexists_calls l)).
Proof.
  destruct l as [|a [|b [|c l]]]; try done. intros w. unfold hexists_execute. cbn [length Nat.eqb negb]. rewrite (arg_is [a; b] 0 a) by done.
  apply text_is. intros key w1. rewrite (arg_is [a; b] 1 b) by done. apply text_is. intros field.
  by apply (ask_is (hexists key field) _ RBool (fun x => x)).
Qed.

Lemma incr_is l : same (incr_execute l) (alone (incr_calls l)).
Proof.
  destruct l as [|a l]; [done|]. intros w. unfold incr_execute. rewrite (arg_is (a :: l) 0 a) by done.
  apply text_is. intros key. by apply (ask_is (incr key) _ RInt (fun n => n)).
Qed.

Lemma decr_is l : same (decr_execute l) (alone (decr_calls l)).
Proof.
  destruct l as [|a l]; [done|]. intros w. unfold decr_execute. rewrite (arg_is (a :: l) 0 a) by done.
  apply text_is. intros key. by apply (ask_is (decr key) _ RInt (fun n => n)).
Qed.

Lemma count_is (m : bytes -> M (Result bool)) (op : bytes -> StoreOp) l n :
  (forall k w, exec (op k) w = (r ← m k; mret (as_result RBool r)) w) ->
  same (count_loop m l n) (alone (count_calls op l n)).
Proof.
  intros He. revert n. induction l as [|a l IH]; intros n; [done|]. cbn [count_loop count_calls]. apply text_is. intros key.
  apply (ask_is (m key) _ RBool (fun b => b)); [apply He|done|done|]. intros b. apply IH.
Qed.

Lemma del_is l : same (del_execute l) (alone (del_calls l)).
Proof. destruct l as [|a l]; [done|]. by apply (count_is delete_key). Qed.
Lemma exists_is l : same (exists_execute l) (alone (exists_calls l)).
Proof. destruct l as [|a l]; [done|]. by apply (count_is exists_). Qed.
Lemma hdel_is l : same (hdel_execute l) (alone (hdel_calls l)).
Proof.
  destruct l as [|a [|b l]]; try done. intros w. unfold hdel_execute. cbn [length Nat.ltb Nat.leb]. rewrite (arg_is (a :: b :: l) 0 a) by done.
  apply text_is. intros key. by apply (count_is (hdel key)).
Qed.

Lemma mget_is l : same (mget_execute l) (alone (mget_calls l)).
Proof.
  destruct l as [|a l]; [done|]. unfold mget_execute, mget_calls. generalize (@nil ResponseValue). generalize (a :: l). clear a l.
  intros l. induction l as [|a l IH]; intros out; [done|]. cbn [mget_loop mget_tree]. apply text_is. intros key.
  apply (ask_is (get key) _ (fun o => RValue (see <$> o)) (fun o => value <$> o)); [done|by intros [sv|]|done|].
  intros r. replace (mget_slot r) with (reply_slot (value <$> r)); [apply IH|]. destruct r as [sv|]; [|done]. simpl. by destruct (value sv).
Qed.

(** Lists of pairs. *)
Lemma even_pairs (P : list bytes -> Prop) :
  P [] -> (forall a b l, P l -> P (a :: b :: l)) -> forall l, Nat.even (length l) = true -> P l.
Proof.
  intros H0 H2. refine (fix go l := match l with [] => fun _ => H0 | [a] => fun H => _ | a :: b :: l' => fun H => H2 a b l' (go l' H) end).
  discriminate H.
Qed.

Lemma mset_is l : same (mset_execute l) (alone (mset_calls l)).
Proof.
  unfold mset_execute, mset_calls. case_bool_decide as Hl; [done|]. destruct (Nat.even (length l)) eqn:He; [|done]. cbn [orb negb]. clear Hl.
  revert l He. apply even_pairs; [done|]. intros a v l IH. cbn [mset_loop mset_tree]. apply text_is. intros key.
  by apply (ask_is (set key (VString v)) _ (fun _ => RUnit) (fun x => x)); [|intros []| |].
Qed.

Lemma hset_is l : same (hset_execute l) (alone (hset_calls l)).
Proof.
  unfold hset_execute, hset_calls. destruct l as [|a l]; [done|]. destruct (_ || _) eqn:Hg; [done|].
  apply orb_false_iff in Hg as [_ He]. apply negb_false_iff in He. cbn [length Nat.sub] in He. rewrite Nat.sub_0_r in He.
  intros w. rewrite (arg_is (a :: l) 0 a) by done. apply text_is. intros key. cbn [drop]. generalize 0.
  revert l He. apply (even_pairs (fun l => forall n, same (hset_loop key l n) (alone (hset_tree key l n)))); [done|].
  intros f x l IH n. cbn [hset_loop hset_tree]. apply text_is. intros field. apply text_is. intros val.
  apply (ask_is (hset key field val) _ RBool (fun b => b)); [done..|]. intros b. apply IH.
Qed.

Lemma hmget_is l : same (hmget_execute l) (alone (hmget_calls l)).
Proof.
  destruct l as [|a [|b l]]; try done. intros w. unfold hmget_execute. cbn [length Nat.ltb Nat.leb]. rewrite (arg_is (a :: b :: l) 0 a) by done.
  apply text_is. intros key. cbn [drop]. generalize (@nil ResponseValue). generalize (b :: l). clear.
  intros l. induction l as [|f l IH]; intros out; [done|]. cbn [hmget_loop hmget_tree]. apply text_is. intros field.
  apply (ask_is (hget key field) _ RBytes (fun x => x)); [done..|]. intros r. apply IH.
Qed.

Lemma quiet_are l :
  same (ping_execute l) (alone (ping_calls l)) /\ same (echo_execute l) (alone (echo_calls l)) /\ same (quit_execute l) (alone (quit_calls l)).
Proof. split_and!; by destruct l as [|a [|b l]]. Qed.

Lemma flushdb_is l : same (flushdb_execute l) (alone (flushdb_calls l)).
Proof.
  assert (same (_ ← clear; mret (ok_simple "OK")) (alone flush_call)) as Hf.
  { intros w. unfold flush_call, ask. cbn [calls_code]. rewrite run_bind, !bind_run, run_op. cbn [exec]. rewrite bind_run.
    by destruct (clear w) as [[[]|] w1]. }
  destruct l as [|a [|b l]]; [done| |done]. unfold flushdb_execute, flushdb_calls. by destruct (_ || _).
Qed.

(** Programs of their own. *)
Lemma por_return_is {A} (p : Prog (result bytes A)) (m : M (result bytes A)) k k' :
  same m (run p) -> (forall a, same (k a) (run (k' a))) -> same (or_return m k) (run (por_return p k')).
Proof.
  intros Hp Hk w. unfold or_return, por_return. rewrite run_bind, !bind_run, Hp. destruct (run p w) as [[[a|e]|] w1]; [apply Hk|done|done].
Qed.
Lemma por_fail_is {A} (p : Prog (Result A)) (m : M (Result A)) k k' :
  same m (run p) -> (forall a, same (k a) (run (k' a))) -> same (or_fail m k) (run (por_fail p k')).
Proof.
  intros Hp Hk w. unfold or_fail, por_fail. rewrite run_bind, !bind_run, Hp. destruct (run p w) as [[[a|e]|] w1]; [apply Hk|done|done].
Qed.
Lemma atomic_is {A} (m : M A) : same m (run (atomic m)).
Proof. intros w. by rewrite run_atomic. Qed.

Lemma set_is l : same (set_execute l) (run (plan_code (set_plan l))).
Proof.
  destruct l as [|a [|v opts]]; try done. intros w. unfold set_execute, set_plan. cbn [length Nat.ltb Nat.leb].
  rewrite (arg_is (a :: v :: opts) 0 a) by done. unfold or_return at 1. rewrite bind_run. unfold mret at 1, M_ret at 1.
  destruct (arg_text a) as [key|e]; [|done]. cbn [lookup list_lookup]. change (drop 2 (a :: v :: opts)) with opts.
  change ((a :: v :: opts) !! 1%nat) with (Some v). cbv iota. unfold or_return at 1. rewrite bind_run. unfold mret at 1, M_ret at 1.
  destruct (parse_set_options opts) as [o|e]; [|done].
  destruct (timeless_ttl (opt_ttl o)) as [ttl|] eqn:Ht.
  - assert (resolve_ttl (opt_ttl o) = mret (Ok ttl)) as -> by (by destruct (opt_ttl o); simplify_eq/=).
    unfold or_return. rewrite bind_run. unfold mret at 1, M_ret at 1. cbn [plan_code].
    apply (ask_is (set_with_options _ _ _ _) _ (fun o => ROutcome (applied o) (see <$> previous o)) (fun o => (applied o, see <$> previous o)));
      [done..|]. intros x w1. cbn. unfold set_reply, reply_outcome. destruct (opt_get o), (previous x) as [sv|]; simpl; try done. by destruct (value sv).
  - apply por_return_is; [apply atomic_is|]. intros ttl. apply por_fail_is; [|done]. intros w1. by rewrite run_set_with_options.
Qed.

Lemma expire_steps_is name l (k : bytes -> Z -> ExpireFlag -> M CommandResult) call :
  (forall key n flag, same (k key n flag) (run (call key n flag))) ->
  same (if (length l <? 2)%nat then mret (wrong_args name)
        else key ←! arg_str l 0; n ←! arg_u64 l 1; flag ←! mret (parse_expire_flag (drop 2 l)); k key n flag)
    (run (expire_steps name call l)).
Proof.
  intros Hk. unfold expire_steps. destruct (length l <? 2)%nat; [done|]. apply por_return_is; [apply atomic_is|]. intros key.
  apply por_return_is; [apply atomic_is|]. intros n. apply por_return_is; [done|]. intros flag. apply Hk.
Qed.

Lemma expire_at_call_is key d flag :
  same (b ←$ expire_at_with_options key d flag; mret (int_reply b)) (run (expire_at_call key d flag)).
Proof. apply por_fail_is; [|done]. intros w. by rewrite run_expire_at. Qed.

Lemma expire_is l : same (expire_execute l) (run (expire_steps "EXPIRE" expire_call l)).
Proof. apply expire_steps_is. intros key n flag. apply por_fail_is; [|done]. intros w. by rewrite run_expire. Qed.
Lemma pexpire_is l : same (pexpire_execute l) (run (expire_steps "PEXPIRE" pexpire_call l)).
Proof.
  apply (expire_steps_is "PEXPIRE"). intros key n flag w. unfold pexpire_call. rewrite run_bind, (bind_run (run _)), run_atomic, !bind_run.
  destruct (now w) as [[t|] w1]; [|done]. rewrite bind_run. destruct (instant_add t (from_millis n) w1) as [[d|] w2]; [|done].
  apply expire_at_call_is.
Qed.
Lemma expire_unix_is (target_ms : Z -> Z) key n flag :
  same (deadline ←! resolve_unix_target (target_ms n); b ←$ expire_at_with_options key deadline flag; mret (int_reply b))
    (run (expire_unix_call target_ms key n flag)).
Proof. apply por_return_is; [apply atomic_is|]. intros d. apply expire_at_call_is. Qed.

Lemma whole_hash_is name reply l : same (whole_hash name reply l) (run (whole_hash_steps name reply l)).
Proof.
  destruct l as [|a [|b l]]; try done. intros w. unfold whole_hash. cbn [length Nat.eqb negb]. rewrite (arg_is [a] 0 a) by done.
  apply por_return_is; [done|]. intros key. apply por_fail_is; [|done]. intros w1. by rewrite run_hgetall.
Qed.

Lemma plan_of_run slot c l :
  In c (main_commands slot ++ [CommandCommand 33]) -> same (execute c l) (run (plan_code (plan_of c l))).
Proof.
  intros Hin. cbn [main_commands app In] in Hin. repeat destruct Hin as [<-|Hin]; [..|by destruct Hin].
  - exact (set_is l).
  - exact (get_is l).
  - exact (del_is l).
  - exact (exists_is l).
  - exact (expire_is l).
  - exact (ttl_is l).
  - exact (pttl_is l).
  - exact (pexpire_is l).
  - exact (expire_steps_is "EXPIREAT" l _ _ (expire_unix_is (fun n => saturating_mul_u64 n 1000))).
  - exact (expire_steps_is "PEXPIREAT" l _ _ (expire_unix_is (fun n => n))).
  - exact (incr_is l).
  - exact (decr_is l).
  - exact (hset_is l).
  - exact (hget_is l).
  - exact (hdel_is l).
  - exact (whole_hash_is _ _ l).
  - exact (hexists_is l).
  - exact (hmget_is l).
  - exact (whole_hash_is _ _ l).
  - exact (whole_hash_is _ _ l).
  - exact (whole_hash_is _ _ l).
  - apply quiet_are.
  - apply quiet_are.
  - exact (atomic_is (dbsize_execute l)).
  - exact (type_is l).
  - exact (flushdb_is l).
  - exact (atomic_is (info_execute l)).
  - exact (atomic_is (keys_execute l)).
  - exact (mget_is l).
  - exact (mset_is l).
  - apply quiet_are.
  - exact (atomic_is (bgrewriteaof_execute slot l)).
  - exact (atomic_is (command_execute 33 l)).
Qed.

Lemma plan_run slot cmd : same (registry_execute (main_registry slot) cmd) (run (plan_code (plan slot cmd))).
Proof.
  unfold registry_execute, plan. rewrite main_registry_lookup. destruct (main_find slot (upcase (name cmd))) as [c|] eqn:Hf; [|done].
  destruct (validate_arity cmd (arity c)); [|done]. apply (plan_of_run slot). by apply main_find_In in Hf as [Hin _].
Qed.

Lemma command_code_run slot cmd : same (run (command_code slot cmd)) (registry_execute (main_registry slot) cmd).
Proof. intros w. unfold command_code. rewrite run_bind, bind_run, run_atomic. unfold mret at 1, M_ret at 1. by rewrite <- plan_run. Qed.

End Plans.
