(* ===== verification/CommandSteps.v ===== *)
(** * Commands of concurrent clients

    On keys without deadlines the calls of a command take effect one by
    one, each at one instant ([cstep]); so a command with one call takes
    effect as a whole, as if it were served alone
    ([commands_linearizable]).  A command with several calls does not:
    between two keys of MSET another client sees the first one set and the
    second one not ([mset_torn]). *)

From S2P Require Import Prelude Numbers Utf8 Errors Values World MemoryStore StoreInv StoreSpec Steps StepThms Threads Schedules ThreadThms Linear Protocol Command StringCommands TtlCommands HashCommands Glob Persistence ServerCommands CommandThms Calls.

(** ** Which commands *)

(** Every call is timeless, whatever the answers. *)
Fixpoint timeless_calls (c : Calls) : Prop :=
  match c with
  | Reply _ => True
  | Ask op k => timeless op /\ forall r, timeless_calls (k r)
  end.

Definition reply_of (c : Calls) : option CommandResult := match c with Reply r => Some r | Ask _ _ => None end.

(** At most one call. *)
Definition single (c : Calls) : Prop :=
  match c with Reply _ => True | Ask _ k => forall r, is_Some (reply_of (k r)) end.

(** What the calls do to the contents of the store, in turn. *)
Fixpoint calls_effect (c : Calls) (a : AStore) : CommandResult * AStore :=
  match c with
  | Reply r => (r, a)
  | Ask op k => calls_effect (k (effect op a).1) (effect op a).2
  end.

Lemma timeless_text a k : (forall s, timeless_calls (k s)) -> timeless_calls (text a k).
Proof. intros H. unfold text. by destruct (arg_text a). Qed.
Lemma timeless_ask {A} op (answer : OpResult -> option A) k :
  timeless op -> (forall a, timeless_calls (k a)) -> timeless_calls (ask op answer k).
Proof. intros Ht H. split; [done|]. intros r. by destruct r; simpl; try destruct (answer _); simpl. Qed.
Lemma single_text a k : (forall s, single (k s)) -> single (text a k).
Proof. intros H. unfold text. by destruct (arg_text a). Qed.
Lemma single_ask {A} op (answer : OpResult -> option A) k : (forall a, is_Some (reply_of (k a))) -> single (ask op answer k).
Proof. intros H r. by destruct r; simpl; try destruct (answer _); simpl. Qed.

#[local] Hint Resolve timeless_text timeless_ask single_text single_ask : calls.
#[local] Hint Extern 1 (is_Some _) => eexists; reflexivity : calls.
#[local] Hint Extern 1 (timeless_calls (Reply _)) => exact I : calls.
#[local] Hint Extern 1 (single (Reply _)) => exact I : calls.
#[local] Hint Extern 1 (is_true _) => reflexivity : calls.

(** The trees by name. *)
Definition trees : list (bytes * (list bytes -> Calls)) :=
  [(b#"GET", get_calls); (b#"TYPE", type_calls); (b#"TTL", ttl_calls); (b#"PTTL", pttl_calls);
   (b#"INCR", incr_calls); (b#"DECR", decr_calls); (b#"HGET", hget_calls); (b#"HEXISTS", hexists_calls);
   (b#"PING", ping_calls); (b#"ECHO", echo_calls); (b#"QUIT", quit_calls);
   (b#"DEL", del_calls); (b#"EXISTS", exists_calls); (b#"MGET", mget_calls); (b#"MSET", mset_calls);
   (b#"HSET", hset_calls); (b#"HMGET", hmget_calls)].

(** One key or field. *)
Definition one_key (n : bytes) (l : list bytes) : bool :=
  if is_one_of n [b#"DEL"; b#"EXISTS"; b#"MGET"] then (length l <=? 1)%nat
  else if is_one_of n [b#"MSET"; b#"HMGET"] then (length l <=? 2)%nat
  else if bytes_eqb n (b#"HSET") then (length l <=? 3)%nat
  else true.

Section Commands.
Context {E : Env} {Sh : Shards}.

(** SET without an expiry (an error in the options will do). *)
Definition untimed (opts : list bytes) : bool :=
  match parse_set_options opts with
  | Ok o => bool_decide (is_Some (timeless_ttl (opt_ttl o)))
  | Err _ => true
  end.

(** The commands whose calls are timeless, and those among them with one
    key or field. *)
Definition simple (cmd : ParsedCommand) : bool :=
  let n := upcase (name cmd) in
  is_one_of n (map fst trees) || (bytes_eqb n (b#"SET") && untimed (drop 2 (args cmd))).

Definition at_once (cmd : ParsedCommand) : bool := simple cmd && one_key (upcase (name cmd)) (args cmd).

Definition tree (slot : option PersistenceManager) (cmd : ParsedCommand) : Calls :=
  match plan slot cmd with Calling c => c | Whole _ => Reply (CmdOk Nil) end.

Lemma tree_of slot cmd n f :
  (n, f) ∈ trees -> upcase (name cmd) = n ->
  (exists e, plan slot cmd = Calling (Reply (CmdError e))) \/ plan slot cmd = Calling (f (args cmd)).
Proof.
  intros Hin Hn. unfold plan. rewrite main_registry_lookup, Hn.
  assert (exists c, main_find slot n = Some c /\ forall l, plan_of c l = Calling (f l)) as (c & -> & Hp).
  { unfold trees in Hin. repeat (apply elem_of_cons in Hin as [[= -> ->]|Hin]; [eexists; split; [reflexivity|reflexivity]|]).
    by apply elem_of_nil in Hin. }
  destruct (validate_arity cmd (arity c)) as [_|e]; [right; apply Hp|left; by eexists].
Qed.

Lemma set_tree slot cmd :
  upcase (name cmd) = b#"SET" -> untimed (drop 2 (args cmd)) ->
  exists c, plan slot cmd = Calling c /\ timeless_calls c /\ single c.
Proof.
  intros Hn Hu. unfold plan. rewrite main_registry_lookup, Hn.
  assert (exists c, main_find slot (b#"SET") = Some c /\ forall l, plan_of c l = set_plan l) as (c & -> & Hp) by (eexists; split; reflexivity).
  destruct (validate_arity cmd (arity c)) as [_|e]; [|by eexists]. rewrite Hp. destruct (args cmd) as [|a [|v opts]]; [by eexists..|].
  cbn [set_plan]. change (drop 2 (a :: v :: opts)) with opts in Hu. unfold untimed in Hu. destruct (arg_text a); [|by eexists].
  destruct (parse_set_options opts) as [o|e]; [|by eexists]. apply bool_decide_unpack in Hu as [ttl Ht]. rewrite Ht.
  eexists. split; [done|]. split; [|auto with calls]. apply timeless_ask; [|done]. by destruct (opt_ttl o); simplify_eq/=.
Qed.

Lemma timeless_count op l n : (forall k, timeless (op k)) -> timeless_calls (count_calls op l n).
Proof. intros Ho. revert n. induction l as [|a l IH]; intros n; cbn [count_calls]; auto with calls. Qed.

Lemma timeless_trees n f l : (n, f) ∈ trees -> timeless_calls (f l).
Proof.
  unfold trees. intros Hin. repeat (apply elem_of_cons in Hin as [[= -> ->]|Hin]); [..|by apply elem_of_nil in Hin].
  1-6: destruct l as [|a [|b l]]; cbn; auto with calls.
  1-2: destruct l as [|a [|b [|c l]]]; cbn; auto with calls.
  1-3: by destruct l as [|a [|b l]].
  1-2: destruct l as [|a l]; [done|]; by apply timeless_count.
  - destruct l as [|a l]; [done|]. unfold mget_calls. generalize (@nil ResponseValue). generalize (a :: l). clear.
    intros l. induction l as [|a l IH]; intros out; cbn [mget_tree]; auto with calls.
  - unfold mset_calls. case_bool_decide as Hl; [done|]. clear Hl. destruct (Nat.even (length l)) eqn:He; [|done]. cbn [orb negb].
    revert l He. apply even_pairs; [done|]. intros a v l IH. cbn [mset_tree]. auto with calls.
  - unfold hset_calls. destruct l as [|a l]; [done|]. destruct (_ || _) eqn:Hg; [done|]. apply orb_false_iff in Hg as [_ He].
    apply negb_false_iff in He. cbn [length Nat.sub] in He. rewrite Nat.sub_0_r in He. apply timeless_text. intros key. generalize 0.
    revert l He. apply (even_pairs (fun l => forall n, timeless_calls (hset_tree key l n))); [done|].
    intros f x l IH n. cbn [hset_tree]. auto with calls.
  - destruct l as [|a [|b l]]; try done. cbn [hmget_calls]. apply timeless_text. intros key. generalize (@nil ResponseValue). generalize (b :: l). clear.
    intros l. induction l as [|f l IH]; intros out; cbn [hmget_tree]; auto with calls.
Qed.

Lemma single_trees n f l : (n, f) ∈ trees -> one_key n l -> single (f l).
Proof.
  unfold trees. intros Hin H1. repeat (apply elem_of_cons in Hin as [[= -> ->]|Hin]); [..|by apply elem_of_nil in Hin].
  1-6: destruct l as [|a [|b l]]; cbn; auto with calls.
  1-2: destruct l as [|a [|b [|c l]]]; cbn; auto with calls.
  1-3: by destruct l as [|a [|b l]].
  1-4: destruct l as [|a [|b [|c l]]]; try done; cbn; auto with calls.
  - destruct l as [|a [|b [|c [|d l]]]]; try done; cbn; auto with calls.
  - destruct l as [|a [|b [|c l]]]; try done; cbn; auto with calls.
Qed.

Lemma simple_tree slot cmd :
  simple cmd -> exists c, plan slot cmd = Calling c /\ timeless_calls c /\ (at_once cmd -> single c).
Proof.
  intros [Hn|[Hn Hu]%andb_True]%orb_True.
  - unfold is_one_of in Hn. apply Is_true_true, existsb_exists in Hn as (n & Hin & Hn).
    destruct (bytes_eqb_spec (upcase (name cmd)) n) as [Heq|]; [|done]. apply in_map_iff in Hin as ([n' f] & Hn' & Hin). cbn in Hn'. subst n'.
    apply list_elem_of_In in Hin. destruct (tree_of slot cmd n f Hin Heq) as [(e & ->)| ->]; [by eexists|].
    eexists. split; [done|]. split; [by eapply timeless_trees|]. unfold at_once. rewrite Heq. intros [_ H1]%andb_True. by eapply single_trees.
  - destruct (bytes_eqb_spec (upcase (name cmd)) (b#"SET")) as [Heq|]; [|done].
    destruct (set_tree slot cmd Heq Hu) as (c & -> & Ht & Hs). by eexists.
Qed.
End Commands.

(** ** Call by call *)

(** The reference: a server that does each call of a command in full at
    one instant. *)
Record Server : Type := mkServer {
  sv_store : AStore;
  sv_pool : gmap nat Calls
}.

Section Reference.
Variable calls_of : ParsedCommand -> Calls.

Inductive cstep : Server -> Event ParsedCommand CommandResult -> Server -> Prop :=
| c_invoke i cmd a Q :
    Q !! i = None -> cstep (mkServer a Q) (EInvoke i cmd) (mkServer a (<[i := calls_of cmd]> Q))
| c_call i op k a Q :
    Q !! i = Some (Ask op k) ->
    cstep (mkServer a Q) ETau (mkServer (effect op a).2 (<[i := k (effect op a).1]> Q))
| c_return i r a Q :
    Q !! i = Some (Reply r) -> cstep (mkServer a Q) (EReturn i r) (mkServer a (delete i Q))
| c_idle a Q : cstep (mkServer a Q) ETau (mkServer a Q).

Inductive csteps : Server -> list (Event ParsedCommand CommandResult) -> Server -> Prop :=
| cs_nil S : csteps S [] S
| cs_cons S e S1 es S' : cstep S e S1 -> csteps S1 es S' -> csteps S (e :: es) S'.
End Reference.

(** The steps of [p] are idle or have the effect of the next call of [c]. *)
Fixpoint tracks (p : Prog CommandResult) (c : Calls) : Prop :=
  match p with
  | Steps.Done r => c = Reply r
  | Act m => forall w, plain (w_store w) ->
      match m w with
      | (Ret p', w') =>
          plain (w_store w') /\
          ((contents (w_store w') = contents (w_store w) /\ tracks p' c) \/
           exists op k, c = Ask op k /\ contents (w_store w') = (effect op (contents (w_store w))).2 /\
             tracks p' (k (effect op (contents (w_store w))).1))
      | (Panic, _) => False
      end
  end.

Lemma decided_tracks {A : Type} (r : A) p (k : A -> Prog CommandResult) c : decided r p -> tracks (k r) c -> tracks (p ≫= k) c.
Proof.
  unfold mbind, Prog_bind. induction p as [a|m IH] using Prog_steps_ind; cbn [decided pbind tracks]; [by intros ->|].
  intros H Hk w Hw. specialize (H w Hw). specialize (IH w). destruct (m w) as [[p'|] w']; [|done].
  destruct H as (Hw' & Hc & Hd). split; [done|]. left. split; [done|]. by apply IH.
Qed.

Lemma before_tracks op p (kp : OpResult -> Prog CommandResult) k :
  before (effect op) p -> (forall r, tracks (kp r) (k r)) -> tracks (p ≫= kp) (Ask op k).
Proof.
  intros Hb Hk. revert Hb. unfold mbind, Prog_bind. induction p as [a|m IH] using Prog_steps_ind; cbn [before pbind tracks]; [done|].
  intros H w Hw. specialize (H w Hw). specialize (IH w). destruct (m w) as [[p'|] w']; [|done].
  destruct H as (Hw' & [[Hc Hb]|[Hc Hd]]); (split; [done|]).
  - left. split; [done|]. by apply IH.
  - right. exists op, k. split_and!; [done..|]. by eapply (decided_tracks _ p').
Qed.

Section Follow.
Context {E : Env} {Sh : Shards} `{!EnvOk E}.

Lemma calls_track c : timeless_calls c -> tracks (calls_code c) c.
Proof.
  induction c as [r|op k IH]; [done|]. intros [Ht Hk]. cbn [calls_code]. apply before_tracks; [by apply before_prog|].
  intros r. apply IH, Hk.
Qed.

Lemma command_tracks slot cmd : simple cmd -> tracks (command_code slot cmd) (tree slot cmd).
Proof.
  intros Hs. unfold command_code, tree. destruct (simple_tree slot cmd Hs) as (c & -> & Ht & _). cbn [plan_code].
  apply (decided_tracks tt); [|by apply calls_track]. intros w Hw. done.
Qed.

Record keeps_up (T : Threads CommandResult) (S : Server) : Prop := {
  up_plain : plain (w_store (t_world T));
  up_store : contents (w_store (t_world T)) = sv_store S;
  up_pool : forall i, option_relation tracks (fun _ => False) (fun _ => False) (t_pool T !! i) (sv_pool S !! i)
}.

Lemma step_keeps_up slot T e T' S :
  keeps_up T S -> (forall i cmd, e = EInvoke i cmd -> simple cmd) -> tstep (command_code slot) T e T' ->
  exists S', cstep (tree slot) S e S' /\ keeps_up T' S'.
Proof.
  intros [Hw Hs HP] Hop Hstep. destruct S as [a Q]. simpl in *. subst a.
  destruct Hstep as [i cmd w P Hi|i m p w w' P Hi Hm|i m w w' P Hi Hm|i r w P Hi|w w' P [Hs _]]; simpl in *.
  - eexists. split; [apply c_invoke; by eapply pool_none|]. split; [done..|]. simpl.
    apply pool_insert; [done|]. apply command_tracks, (Hop i cmd eq_refl).
  - destruct (pool_at _ _ _ _ _ HP Hi) as (c & Hc & Hat). specialize (Hat w Hw). rewrite Hm in Hat.
    destruct Hat as (Hw' & [[Hsame Ht]|(op & k & -> & Heff & Ht)]).
    + eexists. split; [apply c_idle|]. split; [done..|]. simpl. rewrite <- (insert_id Q i _ Hc). by apply pool_insert.
    + eexists. split; [by eapply c_call|]. split; [done..|]. simpl. by apply pool_insert.
  - destruct (pool_at _ _ _ _ _ HP Hi) as (c & Hc & Hat). specialize (Hat w Hw). by rewrite Hm in Hat.
  - destruct (pool_at _ _ _ _ _ HP Hi) as (c & Hc & Hat). simpl in Hat. subst c.
    eexists. split; [by apply c_return|]. split; [done..|]. by apply pool_delete.
  - eexists. split; [apply c_idle|]. split; simpl; rewrite ?Hs; done.
Qed.

Lemma steps_keep_up slot T es T' S :
  tsteps (command_code slot) T es T' -> keeps_up T S -> (forall i cmd, EInvoke i cmd ∈ es -> simple cmd) ->
  exists S', csteps (tree slot) S es S' /\ keeps_up T' S'.
Proof.
  intros H. revert S. induction H as [|T e T1 es T' Hstep _ IH]; intros S HS Hop; [exists S; split; [constructor|done]|].
  destruct (step_keeps_up slot T e T1 S) as (S1 & HS1 & Hk1); [done| |done|].
  { intros i cmd ->. apply (Hop i). left. }
  destruct (IH S1 Hk1) as (S' & HS' & Hk'); [intros i cmd Hin; apply (Hop i); by right|].
  exists S'. split; [by econstructor|done].
Qed.

(** *** Alone *)
Lemma tracks_run p c w :
  tracks p c -> plain (w_store w) ->
  exists w', Steps.run p w = (Ret (calls_effect c (contents (w_store w))).1, w') /\ plain (w_store w') /\
    contents (w_store w') = (calls_effect c (contents (w_store w))).2.
Proof.
  revert w c. induction p as [a|m IH] using Prog_steps_ind; intros w c; cbn [tracks Steps.run]; [intros -> Hw; by exists w|].
  intros H Hw. specialize (H w Hw). specialize (IH w). destruct (m w) as [[p'|] w1]; [|done].
  destruct H as (Hw1 & [[Hc Ht]|(op & k & -> & Hc & Ht)]).
  - destruct (IH w1 c Ht Hw1) as (w' & Hr & Hw' & Hc'). rewrite Hc in Hr, Hc'. by exists w'.
  - destruct (IH w1 _ Ht Hw1) as (w' & Hr & Hw' & Hc'). rewrite Hc in Hr, Hc'. by exists w'.
Qed.

(** *** One call *)
Lemma single_before slot cmd : at_once cmd -> before (calls_effect (tree slot cmd)) (command_code slot cmd).
Proof.
  intros Ho. pose proof (proj1 (proj1 (andb_True _ _) Ho)) as Hs. unfold command_code, tree.
  destruct (simple_tree slot cmd Hs) as (c & -> & Ht & H1). specialize (H1 Ho). cbn [plan_code].
  destruct c as [r|op k]; [apply before_point; intros w Hw; by eexists _, _|].
  apply before_tau. intros w Hw. eexists _, _. split; [reflexivity|]. split; [done|]. destruct Ht as [Ht _]. cbn [calls_code].
  apply (before_ext (fun a => (default (CmdOk Nil) (reply_of (k (effect op a).1)), (effect op a).2))).
  { intros a. simpl. specialize (H1 (effect op a).1) as [r Hr]. destruct (k (effect op a).1); by simplify_eq/=. }
  apply (before_bind (effect op) (fun r => default (CmdOk Nil) (reply_of (k r)))); [by apply before_prog|].
  intros r. specialize (H1 r) as [x Hx]. destruct (k r); by simplify_eq/=.
Qed.
End Follow.


(** Two clients: the INCR takes effect between the two keys of the MSET. *)
Definition two_clients : list (Action ParsedCommand) :=
  [Call 1 (mkParsedCommand (b#"mset") [b#"n"; b#"5"; b#"m"; b#"6"] 1); Call 2 (mkParsedCommand (b#"INCR") [b#"n"] 2);
   Go 1; Go 1; Go 2; Go 1; Go 1; Go 2; Go 2; Go 1; Go 1; Go 1; Go 1].


(** ** Several calls *)
Section Torn.
Context {E : Env} {Sh : Shards}.

Lemma text_valid a k : utf8_valid a = true -> text a k = k a.
Proof. intros H. unfold text, arg_text, from_utf8. by rewrite H. Qed.

Lemma ask_run {A} op (answer : OpResult -> option A) k r x w w' :
  exec op w = (Ret r, w') -> answer r = Some x -> (forall e, r <> RErr e) ->
  Steps.run (calls_code (ask op answer k)) w = Steps.run (calls_code (k x)) w'.
Proof.
  intros H Ha Hne. unfold ask. cbn [calls_code]. rewrite run_bind, bind_run, run_op, H. destruct r; try (by rewrite Ha). by destruct (Hne e).
Qed.

Lemma plan_mset slot a x b y id :
  plan slot (mkParsedCommand (b#"MSET") [a; x; b; y] id) = Calling (mset_calls [a; x; b; y]).
Proof. unfold plan, upcase. rewrite to_uppercase_ascii by done. rewrite main_registry_lookup. reflexivity. Qed.

Lemma plan_mget slot a b id : plan slot (mkParsedCommand (b#"MGET") [a; b] id) = Calling (mget_calls [a; b]).
Proof. unfold plan, upcase. rewrite to_uppercase_ascii by done. rewrite main_registry_lookup. reflexivity. Qed.

(** Reading a key without a deadline. *)
Lemma get_alone k w sv :
  data (w_store w) !! k = Some sv -> expires_at sv = None -> exec (OGet k) w = (Ret (RValue (Some (see sv))), w).
Proof. intros Hk Hd. destruct w as [s r p]. unfold exec, get. run_simpl. rewrite Hk. simpl. unfold is_expired. by rewrite Hd. Qed.
Lemma get_none k w : data (w_store w) !! k = None -> exec (OGet k) w = (Ret (RValue None), w).
Proof. intros Hk. destruct w as [s r p]. unfold exec, get. run_simpl. by rewrite Hk. Qed.

Lemma mset_overtaken slot s r p a b x y :
  utf8_valid a = true -> utf8_valid b = true -> a <> b -> data s !! a = None -> data s !! b = None ->
  exists es w', tsteps (command_code slot) (mkThreads (mkWorld s r p) ∅) es (mkThreads w' ∅) /\
    visible es = [EInvoke 1 (mkParsedCommand (b#"MSET") [a; x; b; y] 1); EInvoke 2 (mkParsedCommand (b#"MGET") [a; b] 2);
      EReturn 2 (CmdOk (Array [bulk x; nil_bulk])); EReturn 1 (ok_simple "OK")].
Proof.
  intros Hva Hvb Hab Ha Hb.
  assert (exists w1 sv, exec (OSet a (VString x)) (mkWorld s r p) = (Ret RUnit, w1) /\ data (w_store w1) = <[a := sv]> (data s) /\
    value sv = VString x /\ expires_at sv = None) as (w1 & sv & H1 & Hd1 & Hv & He) by (eexists _, _; split; [reflexivity|done]).
  assert (exists w3, exec (OSet b (VString y)) w1 = (Ret RUnit, w3)) as [w3 H3] by by eexists.
  edestruct (overtake (command_code slot) (mkParsedCommand (b#"MSET") [a; x; b; y] 1) (mkParsedCommand (b#"MGET") [a; b] 2)
    (calls_code (mset_tree [b; y])) (ok_simple "OK") (CmdOk (Array [bulk x; nil_bulk])) (mkWorld s r p) w1 w1 w3) as (es & Hes & Hvis).
  - unfold command_code. rewrite plan_mset. eapply psteps_trans; [by apply psteps_atomic|]. cbn [plan_code].
    change (mset_calls [a; x; b; y]) with (mset_tree [a; x; b; y]). cbn [mset_tree]. rewrite text_valid by done. unfold ask at 1. cbn [calls_code].
    eapply psteps_bind with (q := Steps.Done RUnit), psteps_run. by rewrite run_op.
  - unfold command_code. rewrite plan_mget, run_bind, bind_run, run_atomic. unfold mret at 1, M_ret at 1. cbn [plan_code mget_calls mget_tree].
    rewrite text_valid by done. erewrite ask_run; [|eapply get_alone; [by rewrite Hd1, lookup_insert_eq|done]|done|done].
    rewrite text_valid by done. erewrite ask_run; [|apply get_none; by rewrite Hd1, lookup_insert_ne|done|done].
    simpl. by rewrite Hv.
  - cbn [mset_tree]. rewrite text_valid by done. by erewrite ask_run.
  - by exists es, w3.
Qed.
End Torn.

(** C5: MSET is not atomic. Whenever neither of two keys is set, a client
    that sets both with one MSET and another that reads both with one MGET
    can run together such that the MGET sees the first key set and the
    second not; although an MGET served before the MSET finds neither, and
    one served after it finds both. *)
Theorem mset_torn {E : Env} {Sh : Shards} (slot : option PersistenceManager) (s : MemoryStore) (r : nat) (p : Process) (a b x y : bytes) :
  utf8_valid a = true -> utf8_valid b = true -> a <> b -> data s !! a = None -> data s !! b = None ->
  let mset := mkParsedCommand (b#"MSET") [a; x; b; y] 1 in
  let mget := mkParsedCommand (b#"MGET") [a; b] 2 in
  (exists es w', tsteps (command_code slot) (mkThreads (mkWorld s r p) ∅) es (mkThreads w' ∅) /\
     visible es = [EInvoke 1 mset; EInvoke 2 mget; EReturn 2 (CmdOk (Array [bulk x; nil_bulk])); EReturn 1 (ok_simple "OK")]) /\
  (forall c, c !! a = None -> c !! b = None ->
     (calls_effect (tree slot mget) c).1 = CmdOk (Array [nil_bulk; nil_bulk]) /\
     (calls_effect (tree slot mget) (calls_effect (tree slot mset) c).2).1 = CmdOk (Array [bulk x; bulk y])).
Proof.
  intros Hva Hvb Hab Ha Hb mset mget. split; [by apply mset_overtaken|]. intros c Hca Hcb. unfold tree, mset, mget.
  rewrite plan_mset, plan_mget. change (mset_calls [a; x; b; y]) with (mset_tree [a; x; b; y]).
  cbn [mset_tree mget_calls mget_tree]. repeat (rewrite !text_valid by done; cbn).
  rewrite Hca, Hcb. rewrite lookup_insert_ne by done. by rewrite !lookup_insert_eq.
Qed.

Lemma mset_torn_witness :
  exists es w', tsteps (command_code (E := env_ms) (Sh := two_shards) None) (mkThreads (mkWorld empty_store 0 no_process) ∅) es (mkThreads w' ∅) /\
    visible es = [EInvoke 1 (mkParsedCommand (b#"MSET") [b#"a"; b#"1"; b#"b"; b#"2"] 1); EInvoke 2 (mkParsedCommand (b#"MGET") [b#"a"; b#"b"] 2);
      EReturn 2 (CmdOk (Array [bulk (b#"1"); nil_bulk])); EReturn 1 (ok_simple "OK")].
Proof.
  exact (proj1 (mset_torn (E := env_ms) (Sh := two_shards) None empty_store 0 no_process (b#"a") (b#"b") (b#"1") (b#"2")
    eq_refl eq_refl ltac:(discriminate) eq_refl eq_refl)).
Defined.
