(* ===== verification/RewriteThms.v ===== *)
(** * Rewriting the log and recovering from it gives the data back

    The commands a rewrite emits for a snapshot, decoded and run by
    recovery on an empty store, rebuild what was visible when the snapshot
    was taken.  The theorem is stated for clocks that stand still: what a
    moving clock adds is shown by [rewrite_revives_expired]. *)

From S2P Require Import Prelude Numbers Utf8 Paths Errors Values World MemoryStore StoreInv StoreSpec StoreThms Protocol ProtocolLemmas ProtocolThms Command StringCommands TtlCommands HashCommands Persistence PersistThms ServerCommands Effects CommandThms.

(** ** The file a rewrite leaves *)
Section Rewrite.
Context {E : Env} `{!IoOk E}.

(** The writer works off what was queued before. *)
Lemma pump_prefix path pre sfx m r base aw w :
  Forall plain_msg pre -> channel (w_proc w) = pre ++ sfx -> writer (w_proc w) = Some aw ->
  writes path base (w_proc w) aw ->
  exists r' base' aw' w', pump (length pre + m) r w = pump m r' w' /\ w_store w' = w_store w /\
    channel (w_proc w') = sfx /\ other_files path w w' /\ writer (w_proc w') = Some aw' /\
    writes path base' (w_proc w') aw' /\ fsync_policy aw' = fsync_policy aw /\
    base' = base ++ concat (map frame_of pre).
Proof.
  revert r base aw w. induction pre as [|msg pre IH]; intros r base aw w Hpl Hch Haw Hw.
  { exists r, base, aw, w. by rewrite app_nil_r. }
  apply Forall_cons in Hpl as [Hm Hpl]. cbn [length app Nat.add pump] in *.
  destruct (message_run path base aw msg (set_proc w (set_channel (w_proc w) (pre ++ sfx))) Hm Haw Hw)
    as (r1 & aw1 & w1 & Hr & Hs & Hc & Ho & Haw1 & Hw1 & Hp & _).
  rewrite bind_run, (writer_step_eq w aw msg (pre ++ sfx)), Hr by done. cbv iota beta.
  destruct (IH r1 _ aw1 w1 Hpl Hc Haw1 Hw1) as (r2 & base2 & aw2 & w2 & -> & ? & ? & ? & ? & ? & ? & Hb2).
  exists r2, base2, aw2, w2. split; [done|]. split; [by trans (w_store w1)|]. split; [done|].
  split; [by eapply other_files_trans|]. split; [done|]. split; [done|]. split; [congruence|].
  rewrite Hb2. cbn [map concat]. by rewrite app_assoc.
Qed.

Lemma write_frames_run temp frames f w :
  disk (w_proc w) !! temp = Some f ->
  exists w', write_frames temp frames w = (Ret (Ok tt), w') /\ only_disk temp w w' /\
    disk (w_proc w') !! temp = Some (mkFile (content f ++ concat frames) (synced f)).
Proof.
  revert f w. induction frames as [|frame frames IH]; intros f w Hf.
  { exists w. rewrite app_nil_r. by destruct f. }
  cbn [write_frames]. unfold try_. rewrite bind_run, write_all_run. cbv iota beta.
  destruct (IH (mkFile (content f ++ frame) (synced f)) (mkWorld (w_store w) (S (w_reads w))
    (set_disk (w_proc w) (append temp frame (disk (w_proc w)))))) as (w' & Hr & (H1 & H2 & H3 & H4) & Hd).
  { simpl. unfold append. by rewrite lookup_insert_eq, Hf. }
  exists w'. split; [done|]. split.
  - do 3 (split; [done|]). intros q Hq. rewrite H4 by done. simpl. unfold append. by rewrite lookup_insert_ne.
  - rewrite Hd. simpl. by rewrite app_assoc.
Qed.

Lemma swap_run path temp base aw f w :
  writes path base (w_proc w) aw -> disk (w_proc w) !! temp = Some f ->
  exists aw' w', swap_file aw temp w = (Ret (Ok tt, aw'), w') /\ w_store w' = w_store w /\
    channel (w_proc w') = channel (w_proc w) /\ disk (w_proc w') !! path = Some f /\
    aof_file aw' = Appending path /\ file_path aw' = path /\ aof_buffer aw' = [] /\
    fsync_policy aw' = fsync_policy aw.
Proof.
  intros (Hh & Hp & Hd & _) Hf. unfold swap_file, io_need. rewrite !bind_run. unfold getp at 1. cbv iota beta.
  rewrite bool_decide_eq_true_2 by by rewrite Hf.
  rewrite io_do_run. cbv iota beta. rewrite !bind_run. unfold getp at 1. cbv iota beta.
  cbn [w_proc set_disk disk]. rewrite bool_decide_eq_true_2 by by rewrite Hf.
  rewrite io_do_run. cbv iota beta. rewrite bind_run, io_do_run. cbv iota beta. rewrite bind_run. unfold now. cbv iota beta.
  eexists _, _. split; [reflexivity|]. split; [done|]. split; [done|]. split; [|by simpl; rewrite Hp].
  simpl. rewrite Hp. unfold rename_file. rewrite Hf. unfold create_file. rewrite lookup_insert_eq.
  by rewrite lookup_insert_eq.
Qed.

(** The swap request, after the messages queued before it. *)
Lemma swap_request_run path pol log temp f w :
  temp <> path -> log_is path pol log (w_proc w) -> disk (w_proc w) !! temp = Some f -> synced f = length (content f) ->
  exists w', request (SwapFile temp) w = (Ret (Ok (Done (Ok tt))), w') /\ w_store w' = w_store w /\
    log_is path pol (content f) (w_proc w') /\ clean path (w_proc w') /\ file_at (w_proc w') path = f.
Proof.
  intros Hne Hl Hd Hsy. unfold request, try_. rewrite bind_run.
  destruct (send_run path pol log w (SwapFile temp) Hl) as (w4 & -> & Hs4 & Hl4 & Ho4 & _). cbv iota beta.
  destruct Hl4 as (aw & base & Haw & Hw & Hpol & Hpl & Hlog).
  rewrite bind_run. unfold getp at 1. cbv iota beta. rewrite bind_run. set (w5 := set_proc w4 _).
  destruct (pump_prefix path (channel (w_proc w4)) [SwapFile temp] 1 NoReply base aw w5 Hpl eq_refl Haw Hw)
    as (r & base6 & aw6 & w6 & Hp6 & Hs6 & Hch6 & Ho6 & Haw6 & Hw6 & Hpol6 & _).
  replace (length (channel (w_proc w5))) with (length (channel (w_proc w4)) + 1)%nat
    by (simpl; rewrite length_app; simpl; lia).
  rewrite Hp6. cbn [pump]. rewrite bind_run, (writer_step_eq w6 aw6 (SwapFile temp) []) by done.
  cbn [handle_message]. unfold run_writer. rewrite !bind_run.
  destruct (swap_run path temp base6 aw6 f (set_proc w6 (set_channel (w_proc w6) [])))
    as (aw7 & w7 & Hr7 & Hs7 & Hch7 & Hd7 & Ha7 & Hp7 & Hb7 & Hpol7); [exact Hw6| |].
  { simpl. rewrite Ho6 by done. simpl. by rewrite Ho4. }
  rewrite Hr7. cbv iota beta. rewrite !bind_run. unfold modifyp, mret, M_ret. cbv iota beta.
  eexists. split; [reflexivity|]. cbn [set_proc w_store w_proc].
  split; [rewrite Hs7; simpl; rewrite Hs6; exact Hs4|].
  assert (file_at (set_writer (w_proc w7) (Some aw7)) path = f) as Hfile by (unfold file_at; simpl; by rewrite Hd7).
  split; [|split; [|done]].
  - exists aw7, (content f). split; [done|]. split.
    + do 2 (split; [done|]). split; [by simpl; rewrite Hd7|]. by rewrite Hfile, Hb7, app_nil_r.
    + simpl. rewrite Hch7. simpl. rewrite app_nil_r. split; [congruence|]. done.
  - exists aw7. split; [done|]. split; [done|]. unfold all_synced. by rewrite Hfile.
Qed.

Lemma rewrite_run pm pol log frames w :
  enabled pm = true -> temp_path pm <> pm_path pm -> log_is (pm_path pm) pol log (w_proc w) ->
  exists w', rewrite_aof pm frames w = (Ret (Ok tt), w') /\ w_store w' = w_store w /\
    log_is (pm_path pm) pol (concat frames) (w_proc w') /\ clean (pm_path pm) (w_proc w') /\
    content (file_at (w_proc w') (pm_path pm)) = concat frames.
Proof.
  intros He Hne (aw & base & Haw & (Hh & Hp & Hf & Hb) & Hpol & Hpl & Hlog).
  set (path := pm_path pm) in *. set (temp := temp_path pm) in *.
  unfold rewrite_aof. rewrite He. cbn [negb]. fold temp. unfold try_ at 1. rewrite bind_run.
  assert (exists r, create_dir_all (parent temp) (b#"Cannot ensure rewrite-temp dir ") w
    = (Ret (Ok tt), mkWorld (w_store w) r (w_proc w))) as (r0 & ->).
  { unfold create_dir_all. case_bool_decide; [by destruct w; eexists|]. rewrite io_do_run.
    eexists. by destruct w as [? ? []]. }
  unfold try_ at 1. rewrite bind_run, io_do_run. cbv iota beta. cbn [w_store w_reads w_proc].
  set (w1 := mkWorld _ _ _).
  destruct (write_frames_run temp frames (mkFile [] 0) w1) as (w2 & Hw2 & (Hs2 & Haw2 & Hch2 & Ho2) & Hd2).
  { simpl. by rewrite lookup_insert_eq. }
  unfold try_ at 1. rewrite bind_run, Hw2. cbv iota beta. unfold try_ at 1. rewrite bind_run, io_do_run. cbv iota beta.
  unfold try_ at 1. rewrite bind_run, io_do_run. cbv iota beta. cbn [w_store w_reads w_proc set_disk disk].
  set (w3 := mkWorld _ _ _).
  assert (disk (w_proc w3) !! temp = Some (mkFile (concat frames) (length (concat frames)))) as Hd3.
  { simpl. unfold sync_file. rewrite Hd2. simpl. by rewrite lookup_insert_eq. }
  assert (disk (w_proc w3) !! path = disk (w_proc w) !! path) as Hdp.
  { simpl. unfold sync_file. rewrite Hd2, lookup_insert_ne, Ho2 by done. simpl. by rewrite lookup_insert_ne. }
  destruct (swap_request_run path pol log temp (mkFile (concat frames) (length (concat frames))) w3 Hne)
    as (w' & Hr & Hs & Hl & Hc & Hfile); [|done|done|].
  { exists aw, base. split; [by simpl; rewrite Haw2|]. split.
    - do 2 (split; [done|]). unfold file_at. by rewrite Hdp.
    - simpl. rewrite Hch2. simpl. done. }
  unfold try_. rewrite bind_run, Hr. exists w'. split; [reflexivity|].
  split; [rewrite Hs; simpl; rewrite Hs2; done|]. split; [done|]. split; [done|]. by rewrite Hfile.
Qed.
End Rewrite.

(** ** The size of a command *)

(** An upper bound for the octets of a command. *)
Definition parts_size (l : list bytes) : Z := 68 + foldr (fun s n => zlen s + 70 + n) 0 l.

Lemma dec_length z : Z.abs z < 2 ^ 64 -> zlen (dec z) <= 65.
Proof.
  assert (forall f n, (length (dec_pos f n) <= f)%nat) as Hf.
  { induction f as [|f IH]; intros n; [done|]. cbn [dec_pos]. case_match; [simpl; lia|].
    rewrite length_app. specialize (IH (n / 10)). simpl. lia. }
  assert (forall n, n < 2 ^ 64 -> (dec_fuel n <= 64)%nat) as Hfuel.
  { intros n Hn. unfold dec_fuel. destruct (Z.le_gt_cases n 0); [rewrite Z.log2_nonpos by lia; lia|].
    assert (Z.log2 n < 64) by (apply Z.log2_lt_pow2; lia). lia. }
  intros Hz. unfold dec, zlen. case_match.
  - pose proof (Hf (dec_fuel (- z)) (- z)). pose proof (Hfuel (- z)). cbn [length]. lia.
  - pose proof (Hf (dec_fuel z) z). pose proof (Hfuel z). lia.
Qed.

Lemma bulk_size s : zlen s < 2 ^ 64 -> zlen s <= zlen (encode_value (bulk s)) <= zlen s + 70.
Proof.
  intros Hs. pose proof (dec_length (zlen s)) as Hd. cbn [encode_value bulk]. unfold zlen in *.
  cbn [length]. rewrite !length_app. simpl. lia.
Qed.

Lemma parts_concat (l : list bytes) :
  foldr (fun s n => zlen s + 70 + n) 0 l < 2 ^ 64 ->
  zlen (concat (map encode_value (map bulk l))) <= foldr (fun s n => zlen s + 70 + n) 0 l.
Proof.
  induction l as [|x l IH]; cbn [foldr map concat]; intros H; [done|].
  assert (0 <= foldr (fun s n => zlen s + 70 + n) 0 l) by (clear; induction l; simpl; unfold zlen in *; lia).
  unfold zlen at 1. rewrite length_app. pose proof (bulk_size x). unfold zlen in *. lia.
Qed.

Lemma frame_size (l : list bytes) : parts_size l < 2 ^ 64 -> zlen (command_frame l) <= parts_size l.
Proof.
  unfold parts_size. intros H. pose proof (parts_concat l) as Hp.
  assert (zlen l <= foldr (fun s n => zlen s + 70 + n) 0 l) as Hl.
  { clear. induction l as [|x l IH]; [done|]. unfold zlen in *. simpl. lia. }
  unfold command_frame. cbn [encode_value]. unfold zlen at 1. cbn [length]. rewrite !length_app.
  pose proof (dec_length (zlen (map bulk l))) as Hd. unfold zlen in *. rewrite length_map in *. simpl. lia.
Qed.

(** A command that fits is decoded as it was written. *)
Definition fits (frame : bytes) : Prop := zlen frame + Z.of_nat READ_CHUNK <= DEFAULT_MAX_BUFFER_SIZE.

Lemma frame_parts (l : list bytes) s : s ∈ l -> zlen s <= zlen (command_frame l).
Proof.
  intros Hs. unfold command_frame. cbn [encode_value].
  assert (zlen s <= zlen (concat (map encode_value (map bulk l)))) as H.
  { induction Hs as [l|x l Hs IH]; cbn [map concat]; unfold zlen in *; rewrite length_app; [|lia].
    cbn [encode_value bulk length]. rewrite !length_app. lia. }
  unfold zlen in *. cbn [length]. rewrite !length_app. lia.
Qed.

Lemma command_is_frame {E : Env} n l :
  is_ascii n = true -> to_ascii_uppercase n = n -> zlen (n :: l) <= DEFAULT_MAX_ARRAY_LENGTH ->
  fits (command_frame (n :: l)) -> is_frame (mkParsedCommand n l 0, command_frame (n :: l)).
Proof.
  intros Ha Hu Hn Hf. unfold is_frame, decode_with_frame. cbn [snd].
  assert (zlen (command_frame (n :: l)) <= DEFAULT_MAX_BUFFER_SIZE) as Hle by (unfold fits in Hf; lia).
  assert (overfull new_codec (command_frame (n :: l)) = false) as ->.
  { apply Z.ltb_ge. unfold new_codec, with_limits, default_limits. cbn [buffer limits max_buffer_size]. change (zlen []) with 0. lia. }
  unfold extend. cbn [buffer limits new_codec with_limits app].
  rewrite (try_parse_parse _ _ (map resp_of (map bulk (n :: l))) [] (mkParsedCommand n l 0)).
  - rewrite Nat.sub_0_r, firstn_all, skipn_all. done.
  - done.
  - rewrite <- (app_nil_r (command_frame (n :: l))). unfold command_frame. rewrite parse_encode; [done|].
    cbn [wire_ok]. rewrite !andb_true_iff, !Z.leb_le. unfold zlen in *. rewrite length_map.
    split; [split|]; [exact Hn|unfold DEFAULT_MAX_ARRAY_LENGTH, I32_MAX in *; lia|].
    apply forallb_forall. intros v Hv. apply in_map_iff in Hv as (x & <- & Hx).
    apply list_elem_of_In, frame_parts in Hx. cbn [wire_ok bulk]. rewrite andb_true_iff, !Z.leb_le.
    unfold DEFAULT_MAX_BUFFER_SIZE, I32_MAX, zlen in *. simpl. unfold DEFAULT_MAX_BULK_SIZE. lia.
  - unfold command_of. rewrite command_args_bulk. unfold from_utf8. cbn.
    by rewrite utf8_valid_ascii, to_uppercase_ascii, Hu.
Qed.

(** Both clocks stand still, at representable times. *)
Class Frozen (E : Env) (t W : Z) : Prop := {
  frozen_mono : forall i, mono i = t;
  frozen_wall : forall i, wall i = W;
  frozen_range : 0 <= W /\ as_millis W <= U64_MAX;
  frozen_room : instant_min <= t - MILLI
}.

Section Frozen.
Context {E : Env} `{!EnvOk E} (t W : Z) `{!Frozen E t W}.

(** [m] returns and takes the visible contents from [a] to [a']. *)
Definition does {A} (m : M A) (a a' : AStore) : Prop :=
  forall w, store_wf (w_store w) -> view t (w_store w) = a ->
    exists r w', m w = (Ret r, w') /\ store_wf (w_store w') /\ view t (w_store w') = a'.

Lemma exec_does op w :
  op_ok op -> overflows t op = false -> store_wf (w_store w) ->
  exists w', exec op w = (Ret (spec t op (view t (w_store w))).1, w') /\ store_wf (w_store w') /\
    view t (w_store w') = (spec t op (view t (w_store w))).2.
Proof.
  intros Hop Hov Hwf. destruct (exec op w) as [o w'] eqn:Hrun.
  assert (steady t w w') as Hst by (intros i _; apply frozen_mono).
  pose proof (exec_agrees op t w o w' (proj1 Hwf) Hrun Hst) as Hag. unfold agrees in Hag.
  rewrite Hov in Hag. destruct Hag as [-> Hv]. exists w'. split; [done|]. split; [|done].
  pose proof (exec_wf op Hop w Hwf) as H. unfold after in H. by rewrite Hrun in H.
Qed.

Lemma put_live k v a : put t k (v, None) a = <[k := (v, None)]> a.
Proof. done. Qed.

(** *** The three commands of a rewrite *)
Lemma replay_run n l c w :
  is_ascii n = true -> to_ascii_uppercase n = n ->
  List.find (named n) (rev replay_commands) = Some c -> accepts (arity c) (S (length l)) ->
  replay_fn (mkParsedCommand n l 0) w =
    match execute c l w with (Ret _, w') => (Ret (Ok tt), w') | (Panic, w') => (Panic, w') end.
Proof.
  intros Ha Hu Hf Hacc. unfold replay_fn. rewrite bind_run.
  rewrite (registry_run _ n l 0 c); [by destruct (execute c l w) as [[]?]| |done].
  unfold upcase. by rewrite to_uppercase_ascii, Hu, replay_registry_lookup.
Qed.

Lemma set_does k b a :
  utf8_valid k = true ->
  does (replay_fn (mkParsedCommand (b#"SET") [k; b] 0)) a (<[k := (VString b, None)]> a).
Proof.
  intros Hk w Hwf <-. rewrite (replay_run _ _ SetCommand) by (reflexivity || simpl; lia).
  destruct (exec_does (OSetOpt k (VString b) TNone SAlways) w) as (w' & Hr & Hwf' & Hv); [done..|].
  rewrite set_plain_run by done. unfold exec, mret, M_ret in Hr. rewrite bind_run in Hr.
  destruct (set_with_options k (VString b) TNone SAlways w) as [[[o|e]|] w1]; simplify_eq/=.
  eexists _, _. split; [reflexivity|]. split; [exact Hwf'|exact Hv].
Qed.

(** HSET, pair by pair, on a key that is absent or holds a hash. *)
Definition hash_at (k : bytes) (a : AStore) (h : gmap bytes bytes) : Prop :=
  (a !! k = None /\ h = ∅) \/ a !! k = Some (VHash h, None).

Lemma hset_does k f x a h w :
  utf8_valid f = true -> utf8_valid x = true -> hash_at k a h ->
  store_wf (w_store w) -> view t (w_store w) = a ->
  exists b w', hset k f x w = (Ret (Ok b), w') /\ store_wf (w_store w') /\
    view t (w_store w') = <[k := (VHash (<[f := x]> h), None)]> a.
Proof.
  intros Hf Hx Hh Hwf <-. destruct (exec_does (OHset k f x) w) as (w' & Hr & Hwf' & Hv); [by split|done|done|].
  unfold exec, mret, M_ret in Hr. rewrite bind_run in Hr. cbn [spec] in *.
  destruct Hh as [[Hn ->]|Hs].
  - rewrite Hn in *. destruct (hset k f x w) as [[[b|e]|] w1]; simplify_eq/=. by eexists _, _.
  - rewrite Hs in *. destruct (hset k f x w) as [[[b|e]|] w1]; simplify_eq/=. by eexists _, _.
Qed.

Lemma hset_loop_cons k f x l n w :
  utf8_valid f = true -> utf8_valid x = true ->
  hset_loop k (f :: x :: l) n w =
    match hset k f x w with
    | (Ret (Ok b), w1) => hset_loop k l (if (b : bool) then n + 1 else n) w1
    | (Ret (Err e), w1) => (Ret (CmdError (to_client_error e)), w1)
    | (Panic, w1) => (Panic, w1)
    end.
Proof.
  intros Hf Hx. cbn [hset_loop]. unfold arg_text, from_utf8. rewrite Hf, Hx.
  trans ((r ← hset k f x;
    match r with
    | Ok b => hset_loop k l (if (b : bool) then n + 1 else n)
    | Err e => mret (CmdError (to_client_error e))
    end) w); [reflexivity|]. rewrite bind_run. by destruct (hset k f x w) as [[[]|]?].
Qed.

Definition add_field (m : gmap bytes bytes) (fx : bytes * bytes) : gmap bytes bytes := <[fx.1 := fx.2]> m.

Lemma hset_loop_does k l n a h w :
  Forall (fun fx => utf8_valid fx.1 = true /\ utf8_valid fx.2 = true) l -> l <> [] -> hash_at k a h ->
  store_wf (w_store w) -> view t (w_store w) = a ->
  exists r w', hset_loop k (concat (map (fun '(f, x) => [f; x]) l)) n w = (Ret r, w') /\
    store_wf (w_store w') /\
    view t (w_store w') = <[k := (VHash (fold_left add_field l h), None)]> a.
Proof.
  revert n a h w. induction l as [|[f x] l IH]; intros n a h w Hl Hne Hh Hwf Hv; [done|].
  apply Forall_cons in Hl as [[Hf Hx] Hl]. cbn [fst snd] in Hf, Hx.
  destruct (hset_does k f x a h w Hf Hx Hh Hwf Hv) as (b & w1 & Hr & Hwf1 & Hv1).
  cbn [map concat app]. rewrite hset_loop_cons, Hr by done. cbn [fold_left].
  destruct l as [|fx l]; [by eexists _, _|].
  destruct (IH (if b then n + 1 else n) (<[k := (VHash (<[f := x]> h), None)]> a) (<[f := x]> h) w1 Hl ltac:(done)) as (r & w' & Hr' & Hwf' & Hv');
    [right; apply lookup_insert_eq|done|exact Hv1|].
  exists r, w'. split; [done|]. split; [done|]. rewrite Hv', insert_insert_eq. done.
Qed.

(** Adding all the fields of a table rebuilds it. *)
Lemma fold_add_fields (i : nat) (h : gmap bytes bytes) : fold_left add_field (hash_order i _ h) ∅ = h.
Proof.
  assert (forall (l : list (bytes * bytes)) (m : gmap bytes bytes), NoDup l.*1 -> (forall k, k ∈ l.*1 -> m !! k = None) ->
    fold_left add_field l m = list_to_map l ∪ m) as H.
  { induction l as [|[k x] l IH]; intros m Hnd Hm; [by rewrite list_to_map_nil, (left_id_L ∅ (∪))|].
    cbn [fold_left fmap list_fmap] in *. apply NoDup_cons in Hnd as [Hk Hnd].
    rewrite IH; [|done|].
    - unfold add_field. cbn [fst snd]. rewrite list_to_map_cons, <- insert_union_l.
      rewrite <- insert_union_r; [done|]. by apply not_elem_of_list_to_map_1.
    - intros j Hj. unfold add_field. cbn [fst snd]. rewrite lookup_insert_ne; [apply Hm; set_solver|].
      intros ->. done. }
  rewrite H; [by rewrite (right_id_L ∅ (∪)), hash_order_map| |done].
  rewrite hash_order_perm. apply NoDup_fst_map_to_list.
Qed.

(** *** PEXPIREAT *)

(** The deadline recovery computes for a target in milliseconds. *)
Definition restored_deadline (target_ms : Z) : Instant :=
  if target_ms <=? as_millis W then t - from_millis 1 else t + from_millis (target_ms - as_millis W).

Lemma resolve_frozen ms w :
  restored_deadline ms <= instant_max ->
  resolve_unix_target ms w =
  (Ret (Ok (restored_deadline ms)), mkWorld (w_store w) (S (S (w_reads w))) (w_proc w)).
Proof.
  intros Hmax. unfold resolve_unix_target, unix_millis, restored_deadline in *. run_simpl.
  rewrite frozen_wall. destruct frozen_range as [H0 H1].
  destruct (Z.ltb_spec W 0); [lia|]. unfold wrap_u64.
  rewrite Z.mod_small by (unfold as_millis in *; unfold_ints; pose proof (Z.div_pos W MILLI); unfold MILLI in *; lia).
  destruct (Z.leb_spec ms (as_millis W)); simpl; rewrite !frozen_mono.
  - destruct (Z.ltb_spec (t - from_millis 1) instant_min) as [Hlt|_]; [|done].
    pose proof frozen_room. unfold from_millis, MILLI in *. lia.
  - by destruct (Z.ltb_spec instant_max (t + from_millis (ms - as_millis W))); [lia|].
Qed.

Lemma pexpireat_run k ms w :
  utf8_valid k = true -> 0 <= ms <= U64_MAX -> restored_deadline ms <= instant_max ->
  execute PexpireatCommand [k; dec ms] w =
    match expire_at_with_options k (restored_deadline ms) FNone
            (mkWorld (w_store w) (S (S (w_reads w))) (w_proc w)) with
    | (Ret (Ok b), w') => (Ret (int_reply b), w')
    | (Ret (Err e), w') => (Ret (CmdError (to_client_error e)), w')
    | (Panic, w') => (Panic, w')
    end.
Proof.
  intros Hk Hms Hmax. cbn [execute PexpireatCommand]. unfold pexpireat_execute, arg_str, arg_u64, arg_text, from_utf8.
  change ([k; dec ms] !! 0%nat) with (Some k). change ([k; dec ms] !! 1%nat) with (Some (dec ms)).
  cbn [length Nat.ltb Nat.leb drop]. cbv iota. rewrite Hk, utf8_valid_ascii by apply dec_ascii.
  change (Some (dec ms) ≫= parse_u64) with (parse_u64 (dec ms)). rewrite parse_u64_dec by done.
  trans ((r ← resolve_unix_target ms;
    match r with
    | Ok d => r ← expire_at_with_options k d FNone;
        match r with Ok b => mret (int_reply b) | Err e => mret (CmdError (to_client_error e)) end
    | Err e => mret (CmdError e)
    end) w); [reflexivity|].
  rewrite bind_run, resolve_frozen by done. rewrite bind_run.
  by destruct (expire_at_with_options k (restored_deadline ms) FNone _) as [[[]|]?].
Qed.

Lemma pexpireat_does k ms v d0 a :
  utf8_valid k = true -> 0 <= ms <= U64_MAX -> restored_deadline ms <= instant_max ->
  a !! k = Some (v, d0) ->
  does (replay_fn (mkParsedCommand (b#"PEXPIREAT") [k; dec ms] 0)) a
    (put t k (v, Some (restored_deadline ms)) a).
Proof.
  intros Hk Hms Hmax Ha w Hwf Hv.
  rewrite (replay_run _ _ PexpireatCommand) by (reflexivity || simpl; lia).
  rewrite pexpireat_run by done.
  destruct (exec_does (OExpireAt k (restored_deadline ms) FNone)
    (mkWorld (w_store w) (S (S (w_reads w))) (w_proc w))) as (w' & Hr & Hwf' & Hv'); [done..|].
  unfold exec, mret, M_ret in Hr. rewrite bind_run in Hr. cbn [spec w_store] in *.
  unfold spec_expire_at in *. rewrite Hv, Ha in *. cbn [should_apply fst snd] in *.
  destruct (expire_at_with_options _ _ _ _) as [[[b|e]|] w1]; simplify_eq/=. by eexists _, _.
Qed.

(** *** One entry *)

(** A value as SET or HSET brings it back: integers return as text. *)
Definition render (v : ValueType) : ValueType :=
  match v with VInteger i => VString (dec i) | _ => v end.

(** A live entry as recovery brings it back: the deadline is rounded down
    to a millisecond, and an entry with less than that left is gone. *)
Definition restore_live (x : Live) : option Live :=
  match x.2 with
  | None => Some (render x.1, None)
  | Some d => if d - t <? MILLI then None else Some (render x.1, Some (t + from_millis (as_millis (d - t))))
  end.

Definition restore (a : AStore) (e : bytes * StoredValue) : AStore :=
  match restore_live (see e.2) with Some x => <[e.1 := x]> a | None => a end.

(** A value that one command can set. *)
Definition one_command (v : ValueType) : Prop :=
  match v with
  | VList _ => False
  | VHash h => 2 + 2 * Z.of_nat (size h) <= DEFAULT_MAX_ARRAY_LENGTH
  | _ => True
  end.

(** What the value adds to the size of its command. *)
Definition pairs_size (l : list (bytes * bytes)) : Z :=
  foldr (fun fx n => zlen fx.1 + zlen fx.2 + 140 + n) 0 l.
Definition value_size (v : ValueType) : Z :=
  match v with VString b => zlen b | VHash h => pairs_size (map_to_list h) | _ => 0 end.

Lemma pairs_size_perm l l' : l ≡ₚ l' -> pairs_size l = pairs_size l'.
Proof. unfold pairs_size. induction 1; simpl; lia. Qed.

Lemma value_size_pos v : 0 <= value_size v.
Proof.
  destruct v as [b| |h|]; cbn [value_size]; [unfold zlen; lia|lia| |lia].
  unfold pairs_size. induction (map_to_list h); simpl; unfold zlen in *; lia.
Qed.

Lemma pairs_size_parts l :
  foldr (fun s n => zlen s + 70 + n) 0 (concat (map (fun '(f, x) => [f; x]) l)) = pairs_size l.
Proof. unfold pairs_size. induction l as [|[f x] l IH]; [done|]. simpl. rewrite IH. lia. Qed.

(** What the rewrite can express: text keys, no lists, hashes that fit one
    command, deadlines in the future and in range. *)
Definition entry_ok (e : bytes * StoredValue) : Prop :=
  utf8_valid e.1 = true /\ value_ok (value e.2) /\
  one_command (value e.2) /\ value_size (value e.2) + zlen e.1 + 352 + Z.of_nat READ_CHUNK <= DEFAULT_MAX_BUFFER_SIZE /\
  forall d, expires_at e.2 = Some d -> t < d <= instant_max /\ as_millis W + as_millis (d - t) <= U64_MAX.

(** A command of the rewrite and its octets. *)
Definition emitted (x : ParsedCommand * bytes) : Prop :=
  exists n l, x = (mkParsedCommand n l 0, command_frame (n :: l)) /\ is_ascii n = true /\
    to_ascii_uppercase n = n /\ zlen (n :: l) <= DEFAULT_MAX_ARRAY_LENGTH /\ fits (command_frame (n :: l)).

Lemma emitted_intro n l :
  is_ascii n = true -> to_ascii_uppercase n = n -> zlen (n :: l) <= DEFAULT_MAX_ARRAY_LENGTH ->
  parts_size (n :: l) + Z.of_nat READ_CHUNK <= DEFAULT_MAX_BUFFER_SIZE ->
  emitted (mkParsedCommand n l 0, command_frame (n :: l)).
Proof.
  intros Ha Hu Hl Hs. exists n, l. do 4 (split; [done|]). unfold fits.
  pose proof (frame_size (n :: l)). unfold DEFAULT_MAX_BUFFER_SIZE in *. lia.
Qed.

(** Recovery of the commands takes the visible contents from [a] to [a']. *)
Definition runs (cs : list ParsedCommand) (a a' : AStore) : Prop :=
  forall w, store_wf (w_store w) -> view t (w_store w) = a ->
    can_run replay_fn cs w /\
    forall w', replays replay_fn w cs w' -> store_wf (w_store w') /\ view t (w_store w') = a'.

Lemma runs_nil a : runs [] a a.
Proof. intros w Hwf Hv. split; [done|]. intros w' Hr. inversion Hr as [? ? (Hs & _)|]; subst. by rewrite Hs. Qed.

Lemma runs_one c a a' : does (replay_fn c) a a' -> runs [c] a a'.
Proof.
  intros Hd w Hwf Hv.
  assert (forall w1, ticks w w1 -> exists r w2, replay_fn c w1 = (Ret r, w2) /\
    store_wf (w_store w2) /\ view t (w_store w2) = a') as Hstep.
  { intros w1 (Hs & _). apply Hd; by rewrite Hs. }
  split.
  - intros w1 Ht. destruct (Hstep w1 Ht) as (r & w2 & ? & _). by exists r, w2.
  - intros w' Hr. inversion Hr as [|? w1 ? r w2 ? ? Ht Hf Hr2]; subst.
    destruct (Hstep w1 Ht) as (r' & w3 & Hf' & ? & ?). rewrite Hf in Hf'. injection Hf' as <- <-.
    inversion Hr2 as [? ? (Hs2 & _)|]; subst. by rewrite Hs2.
Qed.

Lemma runs_app cs ds a a1 a' : runs cs a a1 -> runs ds a1 a' -> runs (cs ++ ds) a a'.
Proof.
  intros Hc Hd w Hwf Hv. destruct (Hc w Hwf Hv) as [Hcan Hres]. split.
  - apply can_run_app; [done|]. intros w1 Hr. destruct (Hres _ Hr). by apply Hd.
  - intros w' Hr.
    assert (exists w1, replays replay_fn w cs w1 /\ replays replay_fn w1 ds w') as (w1 & H1 & H2).
    { clear -Hr. revert w Hr. induction cs as [|c cs IH]; intros w Hr.
      - exists w. split; [constructor; apply ticks_refl|done].
      - inversion Hr as [|? w1 ? r w2 ? ? Ht Hf Hr2]; subst. destruct (IH _ Hr2) as (w3 & ? & ?).
        exists w3. split; [by econstructor|done]. }
    destruct (Hres _ H1). by eapply Hd.
Qed.

(** The commands that set the value. *)
Lemma value_run k v w :
  utf8_valid k = true -> value_ok v -> one_command v ->
  value_size v + zlen k + 352 + Z.of_nat READ_CHUNK <= DEFAULT_MAX_BUFFER_SIZE ->
  exists x w', value_frames k v w = (Ret [x.2], w') /\ ticks w w' /\ emitted x /\
    forall a, a !! k = None -> runs [x.1] a (<[k := (render v, None)]> a).
Proof.
  intros Hk Hv Hs Hz. destruct v as [b|i|h|l]; [| | |done]; unfold value_frames; cbn [value_size] in Hz.
  - exists (mkParsedCommand (b#"SET") [k; b] 0, command_frame [b#"SET"; k; b]), w.
    split; [done|]. split; [apply ticks_refl|].
    split; [apply emitted_intro; [done..|]; unfold parts_size; cbn [foldr]; change (zlen (b#"SET")) with 3; lia|].
    intros a _. apply runs_one. by apply set_does.
  - exists (mkParsedCommand (b#"SET") [k; dec i] 0, command_frame [b#"SET"; k; dec i]), w.
    split; [done|]. split; [apply ticks_refl|].
    assert (zlen (dec i) <= 65) by (apply dec_length; destruct Hv as [Hv _]; simpl in Hv; unfold_ints; lia).
    split; [apply emitted_intro; [done..|]; unfold parts_size; cbn [foldr]; change (zlen (b#"SET")) with 3; lia|].
    intros a _. apply runs_one. by apply set_does.
  - destruct Hv as [Hv Hne]. rewrite bool_decide_eq_false_2 by done. rewrite bind_run. unfold iterate. cbv iota beta.
    set (l := hash_order (w_reads w) bytes h).
    eexists (mkParsedCommand (b#"HSET") (k :: concat (map (fun '(f, x) => [f; x]) l)) 0, _), _.
    split; [reflexivity|]. split; [repeat split; simpl; lia|].
    assert (l ≡ₚ map_to_list h) as Hp by apply hash_order_perm.
    assert (length (concat (map (fun '(f, x) => [f; x]) l)) = 2 * length l)%nat as Hlen.
    { clear. induction l as [|[f x] l IH]; [done|]. simpl. rewrite IH. lia. }
    split.
    + apply emitted_intro; [done..| |].
      * unfold zlen. cbn [length]. rewrite Hlen, (Permutation_length Hp), length_map_to_list. simpl in Hs. lia.
      * unfold parts_size. cbn [foldr]. rewrite pairs_size_parts, (pairs_size_perm _ _ Hp).
        change (zlen (b#"HSET")) with 4. lia.
    + intros a Ha. cbn [fst]. apply runs_one. intros w1 Hwf Hw1.
      assert (l <> []) as Hl.
      { intros Hn. rewrite Hn in Hp. apply Permutation_nil in Hp.
        apply Hne. by apply map_to_list_empty_iff. }
      rewrite (replay_run _ _ HsetCommand); [|reflexivity..|cbn [arity HsetCommand accepts length]; rewrite Hlen; destruct l; [done|simpl; lia]].
      cbn [execute HsetCommand]. unfold hset_execute.
      change ((k :: concat (map (fun '(f, x) => [f; x]) l)) !! 0%nat) with (Some k).
      destruct (hset_loop_does k l 0 a ∅ w1) as (r & w' & Hr & Hwf' & Hv'); [|done|by left|done|done|].
      { apply Forall_forall. intros [f x] Hin. rewrite Hp in Hin. apply elem_of_map_to_list in Hin.
        apply (Hv f x Hin). }
      exists (Ok tt), w'. split; [|split; [done|]].
      * unfold arg_str. change ((k :: concat (map (fun '(f, x) => [f; x]) l)) !! 0%nat) with (Some k).
        cbv iota. unfold arg_text, from_utf8. rewrite Hk.
        replace ((length (k :: concat (map (fun '(f, x) => [f; x]) l)) <? 3)%nat
                 || negb (Nat.even (length (k :: concat (map (fun '(f, x) => [f; x]) l)) - 1))) with false.
        { trans (match hset_loop k (concat (map (fun '(f, x) => [f; x]) l)) 0 w1 with
                 | (Ret _, w') => (Ret (Ok tt), w') | (Panic, w') => (Panic, w') end : outcome (Result unit) * World);
            [reflexivity|]. by rewrite Hr. }
        cbn [length]. rewrite Hlen, Nat.sub_succ, Nat.sub_0_r, Nat.even_mul. simpl.
        destruct l; [done|]. simpl. by rewrite !Nat.add_succ_r.
      * rewrite Hv'. unfold l. by rewrite fold_add_fields.
Qed.

Lemma millis_floor d : t < d -> 0 <= as_millis (d - t) /\ from_millis (as_millis (d - t)) <= d - t.
Proof.
  intros H. unfold as_millis, from_millis, MILLI. pose proof (Z.div_pos (d - t) (10 ^ 6)).
  pose proof (Z.mul_div_le (d - t) (10 ^ 6)). lia.
Qed.

(** The deadline PEXPIREAT computes from the target the rewrite wrote. *)
Lemma restored_target v d :
  t < d -> forall k (a : AStore), a !! k = None ->
    put t k (v, Some (restored_deadline (as_millis W + as_millis (d - t)))) (<[k := (v, None)]> a) =
    if d - t <? MILLI then a else <[k := (v, Some (t + from_millis (as_millis (d - t))))]> a.
Proof.
  intros Hd k a Ha. destruct (millis_floor d Hd) as [H0 _].
  unfold restored_deadline, put, dead. cbn [snd].
  assert ((d - t <? MILLI) = (as_millis W + as_millis (d - t) <=? as_millis W)) as ->.
  { apply eq_true_iff_eq. rewrite Z.ltb_lt, Z.leb_le. unfold as_millis, MILLI in *.
    split; intros H; [rewrite (Z.div_small (d - t)) by lia; lia|].
    assert ((d - t) / 10 ^ 6 = 0) as Hz by lia. apply Z.div_small_iff in Hz; lia. }
  destruct (Z.leb_spec (as_millis W + as_millis (d - t)) (as_millis W)) as [Hle|Hgt].
  - destruct (Z.ltb_spec (t - from_millis 1) t); [|unfold from_millis, MILLI in *; lia].
    by rewrite delete_insert_id.
  - replace (as_millis W + as_millis (d - t) - as_millis W) with (as_millis (d - t)) by lia.
    destruct (Z.ltb_spec (t + from_millis (as_millis (d - t))) t) as [H|_].
    { unfold from_millis, MILLI in *. lia. }
    by rewrite insert_insert_eq.
Qed.

Lemma entry_run k sv fs w :
  entry_ok (k, sv) ->
  exists xs w', encode_snapshot_entry k sv fs w = (Ret (Ok (fs ++ map snd xs)), w') /\ ticks w w' /\
    Forall emitted xs /\ forall a, a !! k = None -> runs (map fst xs) a (restore a (k, sv)).
Proof.
  intros (Hk & Hv & Hs & Hz & Hd). cbn [fst snd] in *.
  destruct (value_run k (value sv) w Hk Hv Hs Hz) as (x & w1 & Hr & Ht & He & Hruns).
  unfold encode_snapshot_entry. rewrite bind_run, Hr. cbv iota beta zeta.
  destruct (expires_at sv) as [d|] eqn:Ed.
  - destruct (Hd d eq_refl) as [[Hlt Hmax] Hu64]. rewrite bind_run. unfold now. cbv iota beta.
    rewrite frozen_mono. destruct (Z.ltb_spec t d); [|lia]. rewrite bind_run.
    destruct frozen_range as [H0 H1]. destruct (millis_floor d Hlt) as [Hm Hmd].
    unfold unix_millis. rewrite bind_run. unfold system_now. cbv iota beta. rewrite frozen_wall.
    destruct (Z.ltb_spec W 0); [lia|]. unfold mret, M_ret. cbv iota beta.
    assert (0 <= as_millis W) by (unfold as_millis, MILLI; apply Z.div_pos; lia).
    unfold wrap_u64, saturating_add_u64. rewrite !Z.mod_small by (unfold U64_MAX in *; lia).
    rewrite Z.min_r by lia. set (target := as_millis W + as_millis (d - t)).
    assert (restored_deadline target <= instant_max) as Hrm.
    { unfold restored_deadline, target. destruct (Z.leb_spec (as_millis W + as_millis (d - t)) (as_millis W)).
      - unfold from_millis, MILLI. lia.
      - replace (as_millis W + as_millis (d - t) - as_millis W) with (as_millis (d - t)) by lia. lia. }
    eexists [x; (mkParsedCommand (b#"PEXPIREAT") [k; dec target] 0, command_frame [b#"PEXPIREAT"; k; dec target])], _.
    split; [simpl; rewrite <- app_assoc; reflexivity|].
    split; [eapply ticks_trans; [exact Ht|]; repeat split; simpl; lia|].
    split; [apply Forall_cons; split; [done|]; apply Forall_singleton;
      apply emitted_intro; [done..|]|].
    { assert (zlen (dec target) <= 65) by (apply dec_length; unfold_ints; lia).
      assert (0 <= value_size (value sv)) by apply value_size_pos.
      unfold parts_size. cbn [foldr]. change (zlen (b#"PEXPIREAT")) with 9. lia. }
    intros a Ha. cbn [map fst]. apply (runs_app [x.1] _ _ (<[k := (render (value sv), None)]> a)); [by apply Hruns|].
    replace (restore a (k, sv)) with
      (put t k (render (value sv), Some (restored_deadline target)) (<[k := (render (value sv), None)]> a)).
    { apply runs_one. apply (pexpireat_does _ _ _ None); [done|lia|done|]. by rewrite lookup_insert_eq. }
    unfold target. rewrite (restored_target (render (value sv)) d Hlt) by done.
    unfold restore, restore_live, see. cbn [fst snd]. rewrite Ed. by destruct (d - t <? MILLI).
  - exists [x], w1. split; [done|]. split; [done|]. split; [by apply Forall_singleton|].
    intros a Ha. unfold restore, restore_live, see. cbn [fst snd]. rewrite Ed. by apply Hruns.
Qed.

Lemma restore_ne a e j : e.1 <> j -> restore a e !! j = a !! j.
Proof. intros H. unfold restore. case_match; [by rewrite lookup_insert_ne|done]. Qed.

Lemma loop_run l fs w :
  Forall entry_ok l -> NoDup l.*1 ->
  exists xs w', snapshot_loop l fs w = (Ret (Ok (fs ++ map snd xs)), w') /\ ticks w w' /\
    Forall emitted xs /\
    forall a, (forall k, k ∈ l.*1 -> a !! k = None) -> runs (map fst xs) a (fold_left restore l a).
Proof.
  revert fs w. induction l as [|[k sv] l IH]; intros fs w Hok Hnd.
  { exists [], w. rewrite app_nil_r. do 3 (split; [done|]). intros a _. apply runs_nil. }
  apply Forall_cons in Hok as [He Hok]. cbn in Hnd. apply NoDup_cons in Hnd as [Hk Hnd].
  destruct (entry_run k sv fs w He) as (xs & w1 & Hr & Ht & Hem & Hruns).
  destruct (IH (fs ++ map snd xs) w1 Hok Hnd) as (ys & w2 & Hr2 & Ht2 & Hem2 & Hruns2).
  exists (xs ++ ys), w2. cbn [snapshot_loop]. unfold try_. rewrite bind_run, Hr. cbv iota beta. rewrite Hr2.
  rewrite !map_app, app_assoc. split; [done|]. split; [by eapply ticks_trans|].
  split; [by apply Forall_app|]. intros a Ha. cbn [fold_left].
  eapply runs_app; [apply Hruns; apply Ha; set_solver|]. apply Hruns2.
  intros j Hj. rewrite restore_ne; [apply Ha; set_solver|]. cbn [fst]. intros ->. done.
Qed.

(** The restored contents, key by key. *)
Lemma lookup_restored l a j :
  NoDup l.*1 -> (forall k, k ∈ l.*1 -> a !! k = None) ->
  fold_left restore l a !! j =
    match (list_to_map l : gmap bytes StoredValue) !! j with
    | Some sv => restore_live (see sv)
    | None => a !! j
    end.
Proof.
  revert a. induction l as [|[k sv] l IH]; intros a Hnd Ha; [done|].
  cbn in Hnd. apply NoDup_cons in Hnd as [Hk Hnd]. cbn [fold_left].
  rewrite IH; [|done|].
  - rewrite list_to_map_cons. destruct (decide (k = j)) as [->|Hne].
    + rewrite lookup_insert_eq, not_elem_of_list_to_map_1 by done. unfold restore. cbn [fst snd].
      destruct (restore_live (see sv)); [by rewrite lookup_insert_eq|]. apply Ha. set_solver.
    + rewrite lookup_insert_ne by done. case_match; [done|]. by apply restore_ne.
  - intros i Hi. rewrite restore_ne; [apply Ha; set_solver|]. cbn [fst]. intros ->. done.
Qed.

(** The live entries, in iteration order. *)
Lemma live_frozen l w :
  exists w', live_entries l w = (Ret (filter (fun e => expired_at t e.2 = false) l), w') /\ ticks w w'.
Proof.
  revert w. induction l as [|[k sv] l IH]; intros w; [by exists w|].
  cbn [live_entries]. rewrite bind_run.
  assert (exists w1, is_expired sv w = (Ret (expired_at t sv), w1) /\ ticks w w1) as (w1 & -> & Ht1).
  { unfold is_expired, expired_at. destruct (expires_at sv) as [d|].
    - rewrite bind_run. unfold now. cbv iota beta. rewrite frozen_mono. eexists. split; [reflexivity|].
      repeat split; simpl; lia.
    - by exists w. }
  rewrite bind_run. destruct (IH w1) as (w2 & -> & Ht2). exists w2. split; [|by eapply ticks_trans].
  rewrite filter_cons. cbn [snd]. by destruct (expired_at t sv).
Qed.

Lemma snapshot_frozen w :
  exists l w', snapshot w = (Ret l, w') /\ ticks w w' /\ NoDup l.*1 /\
    forall j, (list_to_map l : gmap bytes StoredValue) !! j =
      (data (w_store w) !! j ≫= fun sv => if expired_at t sv then None else Some sv).
Proof.
  unfold snapshot. rewrite bind_run. unfold gets. cbv iota beta. rewrite bind_run. unfold iterate. cbv iota beta.
  set (l0 := hash_order (w_reads w) StoredValue (data (w_store w))).
  destruct (live_frozen l0 (tick w)) as (w' & -> & Ht).
  assert (l0 ≡ₚ map_to_list (data (w_store w))) as Hp by apply hash_order_perm.
  assert (NoDup l0.*1) as Hnd0 by (rewrite Hp; apply NoDup_fst_map_to_list).
  assert (NoDup (filter (fun e : bytes * StoredValue => expired_at t e.2 = false) l0).*1) as Hnd.
  { eapply sublist_NoDup; [exact Hnd0|]. apply fmap_sublist, sublist_filter. }
  eexists _, w'. split; [reflexivity|]. split; [eapply ticks_trans; [|exact Ht]; repeat split; simpl; lia|].
  split; [done|]. intros j. apply option_eq. intros sv.
  rewrite <- elem_of_list_to_map by done. rewrite list_elem_of_filter. cbn [snd].
  rewrite Hp, elem_of_map_to_list, bind_Some. split.
  - intros [He Hd]. exists sv. by rewrite He.
  - intros (sv' & Hd & He). destruct (expired_at t sv') eqn:Hx; [done|]. by injection He as ->.
Qed.
End Frozen.


(** A store with a string that expires in five seconds and a hash, and a
    writer with a command still queued. *)
Definition demo_t : Z := 10 ^ 15.
Definition demo_log : Process :=
  mkProcess None {[b#"a.aof" := mkFile (b#"old") 3]}
    (Some (mkAofWriter (Appending (b#"a.aof")) [] Always demo_t (from_secs 1) (b#"a.aof"))) [Record_ (b#"older")].
Definition demo_sv (v : ValueType) (d : option Instant) : StoredValue := mkStoredValue v demo_t demo_t d (for_value v demo_t).
Definition demo_store : MemoryStore :=
  mkMemoryStore
    (<[b#"k" := demo_sv (VString (b#"v")) (Some (demo_t + from_secs 5))]>
       {[b#"h" := demo_sv (VHash {[b#"f" := b#"x"]}) None]})
    {[b#"k" := demo_t + from_secs 5]}.

Lemma demo_store_wf : store_wf demo_store.
Proof.
  split.
  - intros j. unfold demo_store. cbn [expiration_index data].
    destruct (decide (b#"k" = j)) as [<-|Hk]; [by rewrite lookup_singleton_eq, lookup_insert_eq|].
    rewrite lookup_singleton_ne, lookup_insert_ne by done.
    destruct (decide (b#"h" = j)) as [<-|Hh]; [by rewrite lookup_singleton_eq|by rewrite lookup_singleton_ne].
  - unfold values_ok, demo_store. cbn [data]. apply map_Forall_insert_2; [done|]. apply map_Forall_singleton.
    split; [|done]. simpl. by apply map_Forall_singleton.
Qed.

#[global] Instance env_frozen_io t : IoOk (env_frozen t).
Proof. done. Qed.
Lemma demo_env_ok : EnvOk (env_frozen demo_t).
Proof. apply env_frozen_ok. vm_compute. split; discriminate. Qed.
Lemma demo_frozen : Frozen (env_frozen demo_t) demo_t (1700000000 * 10 ^ 9 + demo_t).
Proof. split; [done|done|vm_compute; by split|vm_compute; discriminate]. Qed.


(** When the clock moves, a key that expires between the snapshot and its
    encoding is written without a deadline: after recovery it never
    expires. *)
Example rewrite_revives_expired :
  exists w1 w3,
    let pm := mkPersistenceManager true (b#"a.aof") in
    let s := mkMemoryStore {[b#"k" := demo_sv (VString (b#"v")) (Some (demo_t + MILLI))]} {[b#"k" := demo_t + MILLI]} in
    execute (BgrewriteaofCommand (E := env_ms) (Some pm)) [] (mkWorld s 0 demo_log)
    = (Ret (ok_simple "Background append only file rewriting started"), w1) /\
    replay_aof_file (E := env_ms) (b#"a.aof") (replay_fn (E := env_ms)) (mkWorld empty_store (w_reads w1) (w_proc w1))
    = (Ret (Ok 1), w3) /\
    see <$> data (w_store w3) !! (b#"k") = Some (VString (b#"v"), None).
Proof. eexists _, _. cbv zeta. split; [vm_compute; reflexivity|]. split; vm_compute; reflexivity. Qed.
