(* ===== verification/Metrics.v ===== *)
(** * Metrics (src/src/metrics/mod.rs, collector.rs)

    Histograms of latencies and the counters behind INFO-like reports.
    Counters are [u64] and wrap; the functions that compute with [f64]
    (percentiles, rates, the summary) are in [Rates]. *)

From S2P Require Import Prelude Errors Values World Persistence.

(** ** Histograms *)
Definition MICRO : Z := 1000.
Definition from_micros (n : Z) : Duration := n * MICRO.

(** [Duration::MAX] *)
Definition DURATION_MAX : Duration := U64_MAX * NANOS + (NANOS - 1).

(** [u64 += u64] *)
Definition add_u64 (x y : Z) : Z := wrap_u64 (x + y).

Record Histogram : Type := mkHistogram {
  buckets : list (Duration * Z);
  total_count : Z;
  total_sum : Duration
}.

Definition bucket_limits : list Duration :=
  [from_micros 10; from_micros 50; from_micros 100; from_micros 500;
   from_millis 1; from_millis 5; from_millis 10; from_millis 50; from_millis 100; from_millis 500;
   from_secs 1; from_secs 5].

Definition new_histogram : Histogram := mkHistogram (map (fun l => (l, 0)) bucket_limits) 0 0.

(** The loop over the buckets: the first one that is large enough, or the
    last one. *)
Fixpoint bump (bs : list (Duration * Z)) (value : Duration) : list (Duration * Z) :=
  match bs with
  | [] => []
  | [(limit, count)] => [(limit, add_u64 count 1)]
  | (limit, count) :: rest =>
      if value <=? limit then (limit, add_u64 count 1) :: rest else (limit, count) :: bump rest value
  end.

(** [Duration += Duration] panics on overflow. *)
Definition hist_record (h : Histogram) (value : Duration) : outcome Histogram :=
  if DURATION_MAX <? total_sum h + value then Panic
  else Ret (mkHistogram (bump (buckets h) value) (add_u64 (total_count h) 1) (total_sum h + value)).

(** [Duration / u32] panics when the divisor, the count cut to 32 bits, is
    zero. *)
Definition average (h : Histogram) : outcome (option Duration) :=
  if total_count h =? 0 then Ret None
  else if wrap_u32 (total_count h) =? 0 then Panic
  else Ret (Some (total_sum h / wrap_u32 (total_count h))).

Definition hist_reset (h : Histogram) : Histogram :=
  mkHistogram (map (fun b => (b.1, 0)) (buckets h)) 0 0.

(** ** Collectors *)
Record PerformanceMetrics : Type := mkPerformanceMetrics {
  latency_histogram : Histogram;
  total_operations : Z;
  current_memory_usage : Z;
  peak_memory_usage : Z;
  perf_start_time : Instant
}.

Definition record_operation_latency (p : PerformanceMetrics) (d : Duration) : outcome PerformanceMetrics :=
  match hist_record (latency_histogram p) d with
  | Panic => Panic
  | Ret h => Ret (mkPerformanceMetrics h (add_u64 (total_operations p) 1)
                    (current_memory_usage p) (peak_memory_usage p) (perf_start_time p))
  end.

Definition update_memory_usage (p : PerformanceMetrics) (n : Z) : PerformanceMetrics :=
  mkPerformanceMetrics (latency_histogram p) (total_operations p) n
    (if peak_memory_usage p <? n then n else peak_memory_usage p) (perf_start_time p).

Definition MAX_DISTINCT_COMMANDS : nat := 64.
Definition OTHER_BUCKET : bytes := b#"_other_".

Record CommandMetrics : Type := mkCommandMetrics {
  command_counts : gmap bytes Z;
  command_latencies : gmap bytes Histogram;
  command_errors : gmap bytes Z
}.

Definition new_command_metrics : CommandMetrics := mkCommandMetrics ∅ ∅ ∅.

Definition bucket_key (m : CommandMetrics) (command : bytes) : bytes :=
  if bool_decide (is_Some (command_counts m !! command)) || (size (command_counts m) <? MAX_DISTINCT_COMMANDS)%nat
  then command else OTHER_BUCKET.

Definition record_command (m : CommandMetrics) (command : bytes) (d : Duration) : outcome CommandMetrics :=
  let key := bucket_key m command in
  let counts := <[key := add_u64 (default 0 (command_counts m !! key)) 1]> (command_counts m) in
  match hist_record (default new_histogram (command_latencies m !! key)) d with
  | Panic => Panic
  | Ret h => Ret (mkCommandMetrics counts (<[key := h]> (command_latencies m)) (command_errors m))
  end.

Definition record_command_error (m : CommandMetrics) (command : bytes) : CommandMetrics :=
  let key := bucket_key m command in
  mkCommandMetrics (command_counts m) (command_latencies m)
    (<[key := add_u64 (default 0 (command_errors m !! key)) 1]> (command_errors m)).

(** [values().sum()]; the order does not matter to a wrapping sum. *)
Definition total_commands (m : CommandMetrics) : Z :=
  foldr add_u64 0 (map snd (map_to_list (command_counts m))).

(** [max_by_key]: the last of the largest, in iteration order. *)
Definition max_by_count (l : list (bytes * Z)) : option (bytes * Z) :=
  fold_left (fun best kv =>
    match best with
    | Some b => if b.2 <=? kv.2 then Some kv else best
    | None => Some kv
    end) l None.

Record NetworkMetrics : Type := mkNetworkMetrics {
  total_bytes_read : Z;
  total_bytes_written : Z;
  connections_accepted : Z;
  connections_rejected : Z;
  connections_closed : Z;
  active_count : Z
}.

Definition new_network_metrics : NetworkMetrics := mkNetworkMetrics 0 0 0 0 0 0.

Definition add_bytes_read (n : NetworkMetrics) (k : Z) : NetworkMetrics :=
  mkNetworkMetrics (add_u64 (total_bytes_read n) k) (total_bytes_written n)
    (connections_accepted n) (connections_rejected n) (connections_closed n) (active_count n).
Definition add_bytes_written (n : NetworkMetrics) (k : Z) : NetworkMetrics :=
  mkNetworkMetrics (total_bytes_read n) (add_u64 (total_bytes_written n) k)
    (connections_accepted n) (connections_rejected n) (connections_closed n) (active_count n).
Definition increment_connections_accepted (n : NetworkMetrics) : NetworkMetrics :=
  mkNetworkMetrics (total_bytes_read n) (total_bytes_written n)
    (add_u64 (connections_accepted n) 1) (connections_rejected n) (connections_closed n)
    (add_u64 (active_count n) 1).
Definition increment_connections_rejected (n : NetworkMetrics) : NetworkMetrics :=
  mkNetworkMetrics (total_bytes_read n) (total_bytes_written n)
    (connections_accepted n) (add_u64 (connections_rejected n) 1) (connections_closed n) (active_count n).
Definition increment_connections_closed (n : NetworkMetrics) : NetworkMetrics :=
  mkNetworkMetrics (total_bytes_read n) (total_bytes_written n)
    (connections_accepted n) (connections_rejected n) (add_u64 (connections_closed n) 1)
    (if 0 <? active_count n then active_count n - 1 else active_count n).
Definition network_reset (n : NetworkMetrics) : NetworkMetrics :=
  mkNetworkMetrics 0 0 0 0 0 (active_count n).

Inductive ConnectionEvent : Type := Connected | Disconnected | Rejected.

Inductive StorageOperation : Type :=
| AofWrite (n : Z)
| MemoryRead
| MemoryWrite
| CacheHit
| CacheMiss.

Record StorageMetrics : Type := mkStorageMetrics {
  aof_writes : Z;
  aof_write_latency : Histogram;
  aof_bytes_written : Z;
  memory_operations : Z;
  memory_operation_latency : Histogram;
  cache_hits : Z;
  cache_misses : Z
}.

Definition new_storage_metrics : StorageMetrics := mkStorageMetrics 0 new_histogram 0 0 new_histogram 0 0.

Definition record_operation (s : StorageMetrics) (op : StorageOperation) (d : Duration) : outcome StorageMetrics :=
  match op with
  | AofWrite n =>
      match hist_record (aof_write_latency s) d with
      | Panic => Panic
      | Ret h => Ret (mkStorageMetrics (add_u64 (aof_writes s) 1) h (add_u64 (aof_bytes_written s) n)
                        (memory_operations s) (memory_operation_latency s) (cache_hits s) (cache_misses s))
      end
  | MemoryRead | MemoryWrite =>
      match hist_record (memory_operation_latency s) d with
      | Panic => Panic
      | Ret h => Ret (mkStorageMetrics (aof_writes s) (aof_write_latency s) (aof_bytes_written s)
                        (add_u64 (memory_operations s) 1) h (cache_hits s) (cache_misses s))
      end
  | CacheHit =>
      Ret (mkStorageMetrics (aof_writes s) (aof_write_latency s) (aof_bytes_written s)
             (memory_operations s) (memory_operation_latency s) (add_u64 (cache_hits s) 1) (cache_misses s))
  | CacheMiss =>
      Ret (mkStorageMetrics (aof_writes s) (aof_write_latency s) (aof_bytes_written s)
             (memory_operations s) (memory_operation_latency s) (cache_hits s) (add_u64 (cache_misses s) 1))
  end.

Definition total_storage_operations (s : StorageMetrics) : Z :=
  add_u64 (add_u64 (add_u64 (aof_writes s) (memory_operations s)) (cache_hits s)) (cache_misses s).

Definition storage_reset (s : StorageMetrics) : StorageMetrics :=
  mkStorageMetrics 0 (hist_reset (aof_write_latency s)) 0 0 (hist_reset (memory_operation_latency s)) 0 0.

Record MetricsCollector : Type := mkMetricsCollector {
  performance : PerformanceMetrics;
  commands_m : CommandMetrics;
  network : NetworkMetrics;
  storage_m : StorageMetrics;
  start_time : Instant
}.

Definition with_network (m : MetricsCollector) (n : NetworkMetrics) : MetricsCollector :=
  mkMetricsCollector (performance m) (commands_m m) n (storage_m m) (start_time m).

(** [record_command_latency] updates the command table, then the
    histogram over all commands. *)
Definition record_command_latency (m : MetricsCollector) (command : bytes) (d : Duration) :
    outcome MetricsCollector :=
  match record_command (commands_m m) command d with
  | Panic => Panic
  | Ret c =>
      match record_operation_latency (performance m) d with
      | Panic => Panic
      | Ret p => Ret (mkMetricsCollector p c (network m) (storage_m m) (start_time m))
      end
  end.

Definition record_network_bytes (m : MetricsCollector) (bytes_read bytes_written : Z) : MetricsCollector :=
  with_network m (add_bytes_written (add_bytes_read (network m) bytes_read) bytes_written).

Definition record_connection_event (m : MetricsCollector) (event : ConnectionEvent) : MetricsCollector :=
  with_network m
    match event with
    | Connected => increment_connections_accepted (network m)
    | Disconnected => increment_connections_closed (network m)
    | Rejected => increment_connections_rejected (network m)
    end.

Definition record_storage_operation (m : MetricsCollector) (op : StorageOperation) (d : Duration) :
    outcome MetricsCollector :=
  match record_operation (storage_m m) op d with
  | Panic => Panic
  | Ret s => Ret (mkMetricsCollector (performance m) (commands_m m) (network m) s (start_time m))
  end.

Definition record_memory_usage (m : MetricsCollector) (n : Z) : MetricsCollector :=
  mkMetricsCollector (update_memory_usage (performance m) n) (commands_m m) (network m) (storage_m m) (start_time m).

Section Clocks.
Context {E : Env}.

Definition new_collector : M MetricsCollector :=
  t1 ← now; t2 ← now;
  mret (mkMetricsCollector (mkPerformanceMetrics new_histogram 0 0 0 t1) new_command_metrics
          new_network_metrics new_storage_metrics t2).

Definition most_frequent_command (m : CommandMetrics) : M (option (bytes * Z)) :=
  l ← iterate (command_counts m); mret (max_by_count l).

Definition uptime (m : MetricsCollector) : M Duration := elapsed (start_time m).

Definition performance_reset (p : PerformanceMetrics) : M PerformanceMetrics :=
  t ← now; mret (mkPerformanceMetrics (hist_reset (latency_histogram p)) 0 0 0 t).

Definition collector_reset (m : MetricsCollector) : M MetricsCollector :=
  p ← performance_reset (performance m);
  mret (mkMetricsCollector p new_command_metrics (network_reset (network m)) (storage_reset (storage_m m)) (start_time m)).

(** [Timer::start] and [Timer::stop] *)
Definition timer_start : M Instant := now.
Definition timer_stop (start : Instant) : M Duration := elapsed start.
End Clocks.
