(* ===== verification/MetricsThms.v ===== *)
(** * Theorems about metrics

    A histogram counts every sample once, in the smallest bucket that holds
    it; the table of commands stays bounded whatever names clients send,
    and its counts add up. *)

From S2P Require Import Prelude Errors Values World Metrics.

(** ** Histograms *)
Fixpoint record_all (h : Histogram) (vs : list Duration) : outcome Histogram :=
  match vs with
  | [] => Ret h
  | v :: vs => match hist_record h v with Ret h' => record_all h' vs | Panic => Panic end
  end.

(** [v] belongs to the bucket that ends at [limit] and starts after [lo];
    the last bucket has no end. *)
Definition in_bucket (lo limit : Duration) (last : bool) (v : Duration) : bool :=
  (lo <? v) && (last || (v <=? limit)).

(** The buckets a histogram over [limits] should have for [vs]. *)
Fixpoint bucketed (lo : Duration) (limits : list Duration) (vs : list Duration) : list (Duration * Z) :=
  match limits with
  | [] => []
  | l :: rest =>
      (l, wrap_u64 (zlen (filter (fun v => in_bucket lo l (bool_decide (rest = [])) v = true) vs)))
      :: bucketed l rest vs
  end.

Lemma add_u64_wrap x y : add_u64 (wrap_u64 x) y = wrap_u64 (x + y).
Proof. unfold add_u64, wrap_u64. by rewrite Zplus_mod_idemp_l. Qed.

Fixpoint rising (lo : Duration) (limits : list Duration) : Prop :=
  match limits with
  | [] => True
  | l :: rest => lo <= l /\ rising l rest
  end.

Lemma bucketed_high lo limits vs v :
  v <= lo -> rising lo limits -> bucketed lo limits (vs ++ [v]) = bucketed lo limits vs.
Proof.
  revert lo. induction limits as [|l rest IH]; intros lo Hv; [done|]. intros [Hl Hs].
  cbn [bucketed]. rewrite IH by (done || lia). do 3 f_equal.
  rewrite filter_app, filter_cons_False, filter_nil; [by rewrite app_nil_r|].
  unfold in_bucket. destruct (Z.ltb_spec lo v); [lia|done].
Qed.

(** One more sample goes to exactly one bucket. *)
Lemma bump_bucketed lo limits vs v :
  lo < v -> rising lo limits -> bump (bucketed lo limits vs) v = bucketed lo limits (vs ++ [v]).
Proof.
  revert lo. induction limits as [|l rest IH]; intros lo Hv; [done|]. intros [Hl Hs].
  set (last := bool_decide (rest = [])).
  assert (in_bucket lo l last v = last || (v <=? l)) as Hin.
  { unfold in_bucket. by destruct (Z.ltb_spec lo v); [|lia]. }
  assert (bump (bucketed lo (l :: rest) vs) v =
    if last || (v <=? l)
    then (l, add_u64 (wrap_u64 (zlen (filter (fun v => in_bucket lo l last v = true) vs))) 1) :: bucketed l rest vs
    else (l, wrap_u64 (zlen (filter (fun v => in_bucket lo l last v = true) vs))) :: bump (bucketed l rest vs) v) as ->.
  { unfold last. by destruct rest. }
  cbn [bucketed]. fold last. rewrite filter_app. unfold zlen at 3. rewrite length_app.
  destruct (last || (v <=? l)) eqn:Hb.
  - rewrite filter_cons_True, filter_nil, add_u64_wrap by done. unfold zlen. simpl. f_equal; [do 2 f_equal; lia|].
    destruct rest as [|l2 rest]; [done|]. symmetry. apply bucketed_high; [|done].
    unfold last in Hb. rewrite bool_decide_eq_false_2 in Hb by done. simpl in Hb. by apply Z.leb_le.
  - rewrite filter_cons_False, filter_nil by (by rewrite Hin). simpl. rewrite Nat.add_0_r. f_equal.
    apply orb_false_iff in Hb as [_ Hb%Z.leb_gt]. by apply IH.
Qed.

Lemma record_all_run vs us h :
  Forall (fun v => 0 <= v) vs -> foldr Z.add 0 (us ++ vs) <= DURATION_MAX -> Forall (fun v => 0 <= v) us ->
  h = mkHistogram (bucketed (-1) bucket_limits us) (wrap_u64 (zlen us)) (foldr Z.add 0 us) ->
  record_all h vs = Ret (mkHistogram (bucketed (-1) bucket_limits (us ++ vs)) (wrap_u64 (zlen (us ++ vs)))
                           (foldr Z.add 0 (us ++ vs))).
Proof.
  revert us h. induction vs as [|v vs IH]; intros us h Hvs Hmax Hus ->; cbn [record_all].
  { by rewrite app_nil_r. }
  apply Forall_cons in Hvs as [Hv Hvs].
  assert (foldr Z.add 0 (us ++ [v]) = foldr Z.add 0 us + v) as Hsum.
  { clear. induction us as [|u us IH]; simpl; lia. }
  assert (forall l, Forall (fun v => 0 <= v) l -> 0 <= foldr Z.add 0 l) as Hpos.
  { clear. induction 1; simpl; lia. }
  assert (foldr Z.add 0 us + v <= DURATION_MAX) as Hle.
  { replace (us ++ v :: vs) with ((us ++ [v]) ++ vs) in Hmax by by rewrite <- app_assoc.
    assert (forall a b, foldr Z.add 0 (a ++ b) = foldr Z.add 0 a + foldr Z.add 0 b) as Happ.
    { clear. induction a as [|x a IH]; intros b; simpl; [lia|]. rewrite IH. lia. }
    rewrite Happ in Hmax. pose proof (Hpos vs Hvs). lia. }
  unfold hist_record. cbn [total_sum buckets total_count].
  destruct (Z.ltb_spec DURATION_MAX (foldr Z.add 0 us + v)); [lia|].
  rewrite (IH (us ++ [v])).
  - by rewrite <- app_assoc.
  - done.
  - by rewrite <- app_assoc.
  - apply Forall_app. by rewrite Forall_singleton.
  - rewrite bump_bucketed, add_u64_wrap, Hsum; [|lia|].
    + f_equal. unfold zlen. rewrite length_app. simpl. f_equal. lia.
    + vm_compute. repeat split; discriminate.
Qed.

(** Every sample is counted once. After any samples are recorded in a
    new histogram (their sum within the range of a duration), the count is
    their number and the sum their sum, and the count of each bucket is the
    number of samples above the previous limit and up to its own, the last
    bucket taking everything above; counts are modulo 2^64. *)
Theorem histogram_counts (vs : list Duration) :
  Forall (fun v => 0 <= v) vs -> foldr Z.add 0 vs <= DURATION_MAX ->
  record_all new_histogram vs
  = Ret (mkHistogram (bucketed (-1) bucket_limits vs) (wrap_u64 (zlen vs)) (foldr Z.add 0 vs)).
Proof. intros Hv Hm. by apply (record_all_run vs []). Qed.

Lemma histogram_counts_witness :
  record_all new_histogram [from_micros 10; from_secs 9; from_micros 11]
  = Ret (mkHistogram (bucketed (-1) bucket_limits [from_micros 10; from_secs 9; from_micros 11]) 3 9000021000).
Proof.
  apply (histogram_counts [from_micros 10; from_secs 9; from_micros 11]).
  - repeat constructor; vm_compute; discriminate.
  - vm_compute. discriminate.
Defined.

(** The average and its limit. On a histogram of [n] samples below
    2^64, the average is the floor of sum over count as long as the count
    is below 2^32; it panics exactly when the count is a positive multiple
    of 2^32, since the divisor is cut to 32 bits. *)
Theorem average_spec (vs : list Duration) (h : Histogram) :
  Forall (fun v => 0 <= v) vs -> foldr Z.add 0 vs <= DURATION_MAX -> zlen vs < 2 ^ 64 ->
  record_all new_histogram vs = Ret h ->
  (zlen vs = 0 -> average h = Ret None) /\
  (0 < zlen vs < 2 ^ 32 -> average h = Ret (Some (foldr Z.add 0 vs / zlen vs))) /\
  (average h = Panic <-> 0 < zlen vs /\ (2 ^ 32 | zlen vs)).
Proof.
  intros Hv Hm Hn Hr. rewrite (record_all_run vs [] new_histogram) in Hr by done. injection Hr as <-.
  unfold average. cbn [total_count total_sum app]. unfold wrap_u64, wrap_u32.
  assert (0 <= zlen vs) by (unfold zlen; lia). rewrite (Z.mod_small _ (2 ^ 64)) by lia.
  split; [|split].
  - by intros ->.
  - intros Hr. rewrite (Z.mod_small _ (2 ^ 32)) by lia. destruct (Z.eqb_spec (zlen vs) 0); [lia|done].
  - destruct (Z.eqb_spec (zlen vs) 0) as [Hz|Hz]; [split; [done|lia]|].
    rewrite <- Z.mod_divide by lia.
    destruct (Z.eqb_spec (zlen vs mod 2 ^ 32) 0); split; intros; try done; lia.
Qed.

Lemma average_spec_witness :
  average (mkHistogram (bucketed (-1) bucket_limits [from_micros 10; from_micros 21]) 2 31000) = Ret (Some 15500).
Proof.
  apply (average_spec [from_micros 10; from_micros 21]
    (mkHistogram (bucketed (-1) bucket_limits [from_micros 10; from_micros 21]) 2 31000));
    [repeat constructor; vm_compute; discriminate|vm_compute; discriminate|reflexivity|reflexivity|vm_compute; by split].
Defined.

(** ** The table of commands *)
Inductive MetricCall : Type :=
| CRecord (name : bytes) (d : Duration)
| CError (name : bytes).

Definition metric_call (m : CommandMetrics) (c : MetricCall) : outcome CommandMetrics :=
  match c with
  | CRecord name d => record_command m name d
  | CError name => Ret (record_command_error m name)
  end.

Fixpoint metric_calls (m : CommandMetrics) (cs : list MetricCall) : outcome CommandMetrics :=
  match cs with
  | [] => Ret m
  | c :: cs => match metric_call m c with Ret m' => metric_calls m' cs | Panic => Panic end
  end.

Definition is_record (c : MetricCall) : bool := match c with CRecord _ _ => true | CError _ => false end.
Definition records (cs : list MetricCall) : Z := zlen (filter (fun c => is_record c = true) cs).

Lemma records_cons c cs : records (c :: cs) = (if is_record c then 1 else 0) + records cs.
Proof. unfold records, zlen. rewrite filter_cons. destruct (is_record c); simpl; lia. Qed.

Definition sum_counts (m : gmap bytes Z) : Z := foldr Z.add 0 (map snd (map_to_list m)).

Lemma sum_perm (l k : list Z) : l ≡ₚ k -> foldr Z.add 0 l = foldr Z.add 0 k.
Proof. induction 1; simpl; lia. Qed.

Lemma sum_counts_insert (m : gmap bytes Z) k v :
  sum_counts (<[k := v]> m) = sum_counts m - default 0 (m !! k) + v.
Proof.
  assert (forall (m : gmap bytes Z), m !! k = None -> forall x, sum_counts (<[k := x]> m) = x + sum_counts m) as Hnone.
  { intros m' Hm x. unfold sum_counts.
    rewrite (sum_perm _ (map snd ((k, x) :: map_to_list m'))); [done|].
    apply Permutation_map. by apply map_to_list_insert. }
  destruct (m !! k) as [x|] eqn:Hk; simpl; [|rewrite Hnone by done; lia].
  rewrite <- (insert_delete_id m k x Hk) at 2. rewrite <- insert_delete_eq.
  rewrite !Hnone by apply lookup_delete_eq. lia.
Qed.

Lemma total_commands_sum m : total_commands m = wrap_u64 (sum_counts (command_counts m)).
Proof.
  unfold total_commands, sum_counts. induction (map snd (map_to_list (command_counts m))) as [|x l IH]; [done|].
  simpl. rewrite IH. unfold add_u64, wrap_u64. by rewrite Zplus_mod_idemp_r.
Qed.

Definition table_ok (n : Z) (m : CommandMetrics) : Prop :=
  (size (command_counts m) <= S MAX_DISTINCT_COMMANDS)%nat /\
  (size (command_counts m) = S MAX_DISTINCT_COMMANDS -> is_Some (command_counts m !! OTHER_BUCKET)) /\
  dom (command_latencies m) = dom (command_counts m) /\ total_commands m = wrap_u64 n.

Lemma record_command_ok n m name d m' :
  table_ok n m -> record_command m name d = Ret m' -> table_ok (n + 1) m'.
Proof.
  intros (Hsz & Hfull & Hdom & Htot). unfold record_command.
  destruct (hist_record _ d) as [h|]; [|done]. intros [= <-].
  set (key := bucket_key m name). unfold table_ok. cbn [command_counts command_latencies].
  assert (is_Some (command_counts m !! key) \/ (size (command_counts m) <= MAX_DISTINCT_COMMANDS)%nat /\
    ((size (command_counts m) < MAX_DISTINCT_COMMANDS)%nat \/ key = OTHER_BUCKET)) as Hkey.
  { unfold key, bucket_key. case_bool_decide; [by left|]. simpl.
    destruct (Nat.ltb_spec (size (command_counts m)) MAX_DISTINCT_COMMANDS) as [Hlt|Hge].
    - right. lia.
    - destruct (decide (size (command_counts m) = S MAX_DISTINCT_COMMANDS)) as [He|Hne]; [left; by apply Hfull|].
      right. split; [lia|by right]. }
  split; [|split; [|split]].
  - destruct Hkey as [Hk|[Hs _]]; [by rewrite map_size_insert_Some|].
    rewrite map_size_insert. case_match; simpl; lia.
  - intros He. destruct Hkey as [Hk|[Hs Hor]].
    + rewrite map_size_insert_Some in He by done. specialize (Hfull He).
      destruct (decide (key = OTHER_BUCKET)) as [->|]; [rewrite lookup_insert_eq; by eexists|by rewrite lookup_insert_ne].
    + rewrite map_size_insert in He. destruct Hor as [Hlt| ->]; [case_match; simpl in He; lia|].
      rewrite lookup_insert_eq. by eexists.
  - by rewrite !dom_insert_L, Hdom.
  - rewrite total_commands_sum in *. cbn [command_counts]. rewrite sum_counts_insert. unfold add_u64, wrap_u64 in *.
    set (x := default 0 (command_counts m !! key)).
    rewrite Zplus_mod_idemp_r. replace (sum_counts (command_counts m) - x + (x + 1)) with (sum_counts (command_counts m) + 1) by lia.
    by rewrite Zplus_mod, Htot, <- Zplus_mod.
Qed.

(** The command table is bounded and its counts add up. Whatever
    command names clients send and in whatever order, the table of counts
    never has more than 65 entries (64 names and the bucket for all
    others), there is a latency histogram for exactly the names counted,
    and the counts sum to the number of commands recorded, modulo 2^64. *)
Theorem command_table_bounded (cs : list MetricCall) (m : CommandMetrics) :
  metric_calls new_command_metrics cs = Ret m ->
  (size (command_counts m) <= 65)%nat /\ dom (command_latencies m) = dom (command_counts m) /\
  total_commands m = wrap_u64 (records cs).
Proof.
  assert (forall n m0, table_ok n m0 -> metric_calls m0 cs = Ret m -> table_ok (n + records cs) m) as H.
  { induction cs as [|c cs IH]; intros n m0 Hok.
    - cbn. intros [= <-]. by rewrite Z.add_0_r.
    - cbn [metric_calls]. destruct c as [name d|name]; cbn [metric_call].
      + destruct (record_command m0 name d) as [m1|] eqn:Hr; [|done]. intros Hc.
        apply (IH (n + 1)) in Hc; [|by eapply record_command_ok].
        by rewrite records_cons, Z.add_assoc.
      + intros Hc. apply (IH n) in Hc; [by rewrite records_cons|by destruct Hok as (? & ? & ? & ?)]. }
  intros Hc. destruct (H 0 new_command_metrics) as (Hs & _ & Hd & Ht); [|done|done].
  split; [vm_compute; lia|]. split; [by intros He; vm_compute in He|]. done.
Qed.

Lemma command_table_bounded_witness :
  exists m, metric_calls new_command_metrics [CRecord (b#"GET") 5; CError (b#"GET"); CRecord (b#"SET") 7] = Ret m /\
    total_commands m = 2.
Proof.
  eexists. split; [vm_compute; reflexivity|].
  exact (proj2 (proj2 (command_table_bounded [CRecord (b#"GET") 5; CError (b#"GET"); CRecord (b#"SET") 7] _ eq_refl))).
Defined.
