(* ===== verification/Connection.v ===== *)
(** * Connections and the connection pool (src/src/network/connection.rs)

    The pool is two concurrent maps and a semaphore.  Its methods are
    written as sequences of the atomic operations on these, which the
    interleavings of [PoolThms] are made of. *)

From S2P Require Import Prelude Numbers Errors Values World Persistence Metrics.

(** A UUID is a 128-bit number, shown as hexadecimal digits in groups. *)
Abbreviation Uuid := N.

Definition hex_digit (n : N) : byte :=
  of_u8 (let z := Z.of_N n in if z <? 10 then 48 + z else 87 + z).

Fixpoint hex (digits : nat) (n : N) : bytes :=
  match digits with
  | O => []
  | S d => hex d (n / 16) ++ [hex_digit (n mod 16)]
  end.

Definition show_uuid (id : Uuid) : bytes :=
  let h := hex 32 id in
  take 8 h ++ b#"-" ++ take 4 (drop 8 h) ++ b#"-" ++ take 4 (drop 12 h) ++ b#"-"
    ++ take 4 (drop 16 h) ++ b#"-" ++ drop 20 h.

Example show_uuid_ex :
  show_uuid 0x67e5504410b1426f9247bb680e5fe0c8 = b#"67e55044-10b1-426f-9247-bb680e5fe0c8".
Proof. reflexivity. Qed.

(** ** The socket *)

(** What one write or flush of the socket comes to: the timer may go off
    first; a write that fails or is cut short has sent some octets. *)
Inductive WriteOutcome : Type :=
| WDone
| WFailed (sent : nat) (e : bytes)
| WTimeout (sent : nat).

Record TcpStream : Type := mkTcpStream {
  sent : bytes;                       (* octets delivered to the peer *)
  write_outcomes : list WriteOutcome; (* of the next calls; all later ones succeed *)
  is_shut : bool
}.

Record ClientConnection : Type := mkClientConnection {
  conn_client_id : Uuid;
  stream : TcpStream;
  remote_addr : bytes;
  connected_at : Instant;
  last_activity : Instant;
  commands_processed : Z
}.

Definition with_stream (c : ClientConnection) (s : TcpStream) : ClientConnection :=
  mkClientConnection (conn_client_id c) s (remote_addr c) (connected_at c) (last_activity c) (commands_processed c).

(** [stream.shutdown()] *)
Definition shut_stream (c : ClientConnection) : ClientConnection :=
  with_stream c (mkTcpStream (sent (stream c)) (write_outcomes (stream c)) true).

Definition increment_commands_processed (c : ClientConnection) : ClientConnection :=
  mkClientConnection (conn_client_id c) (stream c) (remote_addr c) (connected_at c) (last_activity c)
    (add_u64 (commands_processed c) 1).

Section Clock.
Context {E : Env}.

Definition new_connection (id : Uuid) (s : TcpStream) (addr : bytes) : M ClientConnection :=
  t ← now; mret (mkClientConnection id s addr t t 0).

Definition update_last_activity (c : ClientConnection) : M ClientConnection :=
  t ← now;
  mret (mkClientConnection (conn_client_id c) (stream c) (remote_addr c) (connected_at c) t (commands_processed c)).
End Clock.

(** ** The pool *)

(** [locked] are the connections whose mutex a handler holds. *)
Record ConnectionPool : Type := mkConnectionPool {
  connections : gmap Uuid ClientConnection;
  permits : gset Uuid;
  max_connections : nat;
  available_permits : nat;
  total_connections_accepted : Z;
  locked : gset Uuid
}.

Definition new_pool (max : nat) : ConnectionPool := mkConnectionPool ∅ ∅ max max 0 ∅.

(** *** Atomic operations *)
Definition sem_try_acquire (p : ConnectionPool) : option ConnectionPool :=
  match available_permits p with
  | O => None
  | S n => Some (mkConnectionPool (connections p) (permits p) (max_connections p) n
                   (total_connections_accepted p) (locked p))
  end.

(** Dropping [n] permits. *)
Definition sem_release (n : nat) (p : ConnectionPool) : ConnectionPool :=
  mkConnectionPool (connections p) (permits p) (max_connections p) (available_permits p + n)
    (total_connections_accepted p) (locked p).

Definition connections_insert (id : Uuid) (c : ClientConnection) (p : ConnectionPool) : ConnectionPool :=
  mkConnectionPool (<[id := c]> (connections p)) (permits p) (max_connections p) (available_permits p)
    (total_connections_accepted p) (locked p).

Definition connections_remove (id : Uuid) (p : ConnectionPool) : ConnectionPool :=
  mkConnectionPool (delete id (connections p)) (permits p) (max_connections p) (available_permits p)
    (total_connections_accepted p) (locked p).

Definition set_permits (p : ConnectionPool) (s : gset Uuid) : ConnectionPool :=
  mkConnectionPool (connections p) s (max_connections p) (available_permits p)
    (total_connections_accepted p) (locked p).

(** A permit that was there under the same id is dropped. *)
Definition permits_insert (id : Uuid) (p : ConnectionPool) : ConnectionPool :=
  sem_release (if decide (id ∈ permits p) then 1 else 0) (set_permits p (permits p ∪ {[id]})).

(** The permit, if there is one, goes to the caller. *)
Definition has_permit (id : Uuid) (p : ConnectionPool) : bool := bool_decide (id ∈ permits p).
Definition permits_remove (id : Uuid) (p : ConnectionPool) : ConnectionPool :=
  set_permits p (permits p ∖ {[id]}).

Definition count_accepted (p : ConnectionPool) : ConnectionPool :=
  mkConnectionPool (connections p) (permits p) (max_connections p) (available_permits p)
    (add_u64 (total_connections_accepted p) 1) (locked p).

(** *** Methods *)
Definition try_reserve_slot (p : ConnectionPool) : option ConnectionPool := sem_try_acquire p.

Definition can_accept_connection (p : ConnectionPool) : bool := (0 <? available_permits p)%nat.

(** [add_connection] with the permit reserved before. *)
Definition add_connection (c : ClientConnection) (p : ConnectionPool) : Result unit * ConnectionPool :=
  let p := connections_insert (conn_client_id c) c p in
  let p := permits_insert (conn_client_id c) p in
  (Ok tt, count_accepted p).

Definition not_in_pool (id : Uuid) : RustyPotatoError :=
  NetworkError (b#"Connection " ++ show_uuid id ++ b#" not found in pool") None (Some (show_uuid id)).

(** The permit is taken first and dropped last. *)
Definition remove_connection (id : Uuid) (p : ConnectionPool) : Result unit * ConnectionPool :=
  let permit := has_permit id p in
  let p := permits_remove id p in
  let present := bool_decide (is_Some (connections p !! id)) in
  let p := connections_remove id p in
  let p := sem_release (if permit then 1 else 0) p in
  if present then (Ok tt, p) else (Err (not_in_pool id), p).

Definition get_connection (id : Uuid) (p : ConnectionPool) : option ClientConnection := connections p !! id.
Definition active_connections (p : ConnectionPool) : nat := size (connections p).

Section Idle.
Context {E : Env}.

(** The order in which iterating the map visits the connections. *)
Variable visit : gmap Uuid ClientConnection -> list (Uuid * ClientConnection).

(** A connection whose mutex is held is not idle. *)
Definition find_idle_connections (idle_threshold : Duration) (p : ConnectionPool) : M (list Uuid) :=
  t ← now;
  mret (map (fun '(_, c) => conn_client_id c)
    (filter (fun '(id, c) => id ∉ locked p /\ idle_threshold < Z.max 0 (t - last_activity c))
       (visit (connections p)))).

(** One eviction: shut the socket if its mutex is free, then remove. *)
Definition evict_one (id : Uuid) (p : ConnectionPool) : Result unit * ConnectionPool :=
  let p := match connections p !! id with
           | Some c => if decide (id ∈ locked p) then p else connections_insert id (shut_stream c) p
           | None => p
           end in
  remove_connection id p.

Fixpoint evict_loop (ids : list Uuid) (evicted : nat) (p : ConnectionPool) : nat * ConnectionPool :=
  match ids with
  | [] => (evicted, p)
  | id :: rest =>
      let '(r, p) := evict_one id p in
      evict_loop rest (if is_ok r then S evicted else evicted) p
  end.

Definition evict_idle (idle_threshold : Duration) (p : ConnectionPool) : M (nat * ConnectionPool) :=
  ids ← find_idle_connections idle_threshold p;
  mret (evict_loop ids 0 p).
End Idle.

Definition close_all_connections (p : ConnectionPool) : nat * ConnectionPool :=
  let count := size (connections p) in
  (count, mkConnectionPool ∅ ∅ (max_connections p) (available_permits p + size (permits p))
            (total_connections_accepted p) (locked p)).
