(* ===== verification/PoolThms.v ===== *)
(** * The connection limit under concurrency

    Accepting tasks, connection handlers and the idle evictor share the
    pool.  A [System] is the pool and the methods that are under way; a
    [step] is one atomic operation of one of them, so the reachable systems
    are those of every interleaving. *)

From S2P Require Import Prelude Numbers Errors Values World Persistence Metrics Connection.

(** A method under way, with the permit it holds. *)
Inductive Task : Type :=
| Reserved                              (* a slot is reserved, nothing inserted yet *)
| Adding (id : Uuid)                    (* the connection is in the map, its permit is not *)
| Removing (id : Uuid) (permit : bool). (* the permit is out of the map, if it was there *)

Record System : Type := mkSystem {
  pool : ConnectionPool;
  tasks : list Task;
  used : gset Uuid                      (* ids drawn so far: [Uuid::new_v4] never repeats *)
}.

Inductive step : System -> System -> Prop :=
| step_reserve p p' ts u :
    try_reserve_slot p = Some p' -> step (mkSystem p ts u) (mkSystem p' (Reserved :: ts) u)
| step_insert p c l1 l2 u :
    conn_client_id c ∉ u ->
    step (mkSystem p (l1 ++ Reserved :: l2) u)
         (mkSystem (connections_insert (conn_client_id c) c p) (l1 ++ Adding (conn_client_id c) :: l2) (u ∪ {[conn_client_id c]}))
| step_permit p id l1 l2 u :
    step (mkSystem p (l1 ++ Adding id :: l2) u) (mkSystem (count_accepted (permits_insert id p)) (l1 ++ l2) u)
| step_take p id ts u :
    step (mkSystem p ts u) (mkSystem (permits_remove id p) (Removing id (has_permit id p) :: ts) u)
| step_remove p id (b : bool) l1 l2 u :
    step (mkSystem p (l1 ++ Removing id b :: l2) u)
         (mkSystem (sem_release (if b then 1 else 0) (connections_remove id p)) (l1 ++ l2) u)
| step_use p id c c' ts u :
    connections p !! id = Some c -> step (mkSystem p ts u) (mkSystem (connections_insert id c' p) ts u)
| step_lock p s ts u :
    step (mkSystem p ts u)
         (mkSystem (mkConnectionPool (connections p) (permits p) (max_connections p) (available_permits p)
                      (total_connections_accepted p) s) ts u).

Definition initial (max : nat) : System := mkSystem (new_pool max) [] ∅.
Definition reachable (max : nat) : System -> Prop := rtc step (initial max).

(** ** The methods are sequences of steps *)
Lemma add_steps c p ts u :
  conn_client_id c ∉ u ->
  rtc step (mkSystem p (Reserved :: ts) u) (mkSystem (add_connection c p).2 ts (u ∪ {[conn_client_id c]})).
Proof.
  intros Hu. eapply rtc_l; [apply (step_insert p c [] ts u Hu)|].
  apply rtc_once. apply (step_permit _ _ [] ts).
Qed.

Lemma remove_steps id p ts u : rtc step (mkSystem p ts u) (mkSystem (remove_connection id p).2 ts u).
Proof.
  eapply rtc_l; [apply (step_take p id ts u)|].
  eapply rtc_l; [apply (step_remove _ id (has_permit id p) [] ts)|].
  unfold remove_connection. by destruct (bool_decide (is_Some (connections (permits_remove id p) !! id))).
Qed.

Lemma evict_steps ids n p ts u : rtc step (mkSystem p ts u) (mkSystem (evict_loop ids n p).2 ts u).
Proof.
  revert n p. induction ids as [|id ids IH]; intros n p; [apply rtc_refl|]. cbn [evict_loop].
  destruct (evict_one id p) as [r p'] eqn:He. eapply rtc_trans; [|apply IH].
  change p' with (r, p').2. rewrite <- He. unfold evict_one.
  destruct (connections p !! id) as [c|] eqn:Hc; [|apply remove_steps].
  case_decide; [apply remove_steps|]. eapply rtc_l; [by eapply step_use|apply remove_steps].
Qed.

(** ** The invariant *)

(** The ids whose permits a task holds. *)
Definition held (t : Task) : list Uuid :=
  match t with Adding id | Removing id true => [id] | _ => [] end.
Definition is_reserved (t : Task) : bool := match t with Reserved => true | _ => false end.
Definition waiting (ts : list Task) : nat := length (filter (fun t => is_reserved t = true) ts).

(** Every permit that belongs to a connection: in the map, or with a task. *)
Definition tokens (s : System) : list Uuid :=
  elements (permits (pool s)) ++ concat (map held (tasks s)).

Definition pool_inv (max : nat) (s : System) : Prop :=
  NoDup (tokens s) /\
  (forall id, id ∈ tokens s -> id ∈ used s) /\
  (forall id, is_Some (connections (pool s) !! id) -> id ∈ tokens s) /\
  (available_permits (pool s) + length (tokens s) + waiting (tasks s) = max)%nat /\
  max_connections (pool s) = max.

Lemma held_mid l1 t l2 : concat (map held (l1 ++ t :: l2)) ≡ₚ held t ++ concat (map held (l1 ++ l2)).
Proof. by rewrite <- Permutation_middle. Qed.

Lemma waiting_mid l1 t l2 : waiting (l1 ++ t :: l2) = ((if is_reserved t then 1 else 0) + waiting (l1 ++ l2))%nat.
Proof. unfold waiting. rewrite <- Permutation_middle, filter_cons. by destruct (is_reserved t). Qed.

(** The invariant depends on the tokens up to their order. *)
Lemma pool_inv_intro max s toks :
  tokens s ≡ₚ toks -> NoDup toks -> (forall id, id ∈ toks -> id ∈ used s) ->
  (forall id, is_Some (connections (pool s) !! id) -> id ∈ toks) ->
  (available_permits (pool s) + length toks + waiting (tasks s) = max)%nat ->
  max_connections (pool s) = max -> pool_inv max s.
Proof.
  intros Hp Hnd Hu Hc Hn Hm. split; [by rewrite Hp|]. split; [intros id; rewrite Hp; apply Hu|].
  split; [intros id; rewrite Hp; apply Hc|]. by rewrite Hp.
Qed.

Lemma elements_remove (s : gset Uuid) id :
  elements s ≡ₚ (if decide (id ∈ s) then [id] else []) ++ elements (s ∖ {[id]}).
Proof.
  case_decide as H.
  - rewrite (union_difference_L {[id]} s) at 1 by set_solver. rewrite elements_disj_union by set_solver.
    by rewrite elements_singleton.
  - by rewrite difference_disjoint_L by set_solver.
Qed.

Ltac pool_unfold :=
  unfold tokens in *;
  cbn [pool tasks used connections permits max_connections available_permits connections_insert connections_remove
       set_permits sem_release count_accepted permits_remove] in *.

Lemma inv_reserve max p p' ts u :
  pool_inv max (mkSystem p ts u) -> try_reserve_slot p = Some p' -> pool_inv max (mkSystem p' (Reserved :: ts) u).
Proof.
  intros (Hnd & Hu & Hc & Hn & Hm) Hr. unfold try_reserve_slot, sem_try_acquire in Hr. pool_unfold.
  destruct (available_permits p) as [|n] eqn:Ha; [done|]. injection Hr as <-.
  eapply pool_inv_intro; pool_unfold; [reflexivity|done..| |done].
  unfold waiting in *. rewrite filter_cons_True by done. simpl. lia.
Qed.

Lemma inv_insert max p c l1 l2 u :
  let id := conn_client_id c in
  pool_inv max (mkSystem p (l1 ++ Reserved :: l2) u) -> id ∉ u ->
  pool_inv max (mkSystem (connections_insert id c p) (l1 ++ Adding id :: l2) (u ∪ {[id]})).
Proof.
  intros id (Hnd & Hu & Hc & Hn & Hm) Hf. pool_unfold.
  rewrite waiting_mid in Hn. rewrite held_mid in Hnd, Hn. simpl in Hn.
  setoid_rewrite held_mid in Hu. setoid_rewrite held_mid in Hc. cbn [held app] in *.
  eapply (pool_inv_intro _ _ (id :: elements (permits p) ++ concat (map held (l1 ++ l2)))); pool_unfold.
  - rewrite held_mid. cbn [held app]. by rewrite Permutation_middle.
  - apply NoDup_cons. split; [|done]. intros Hin. by apply Hf, Hu.
  - intros j Hj. apply elem_of_cons in Hj as [->|Hj]; [set_solver|]. apply Hu in Hj. set_solver.
  - intros j Hj. apply elem_of_cons. destruct (decide (id = j)) as [->|Hne]; [by left|right].
    rewrite lookup_insert_ne in Hj by done. by apply Hc.
  - rewrite waiting_mid. simpl. lia.
  - done.
Qed.

Lemma inv_permit max p id l1 l2 u :
  pool_inv max (mkSystem p (l1 ++ Adding id :: l2) u) ->
  pool_inv max (mkSystem (count_accepted (permits_insert id p)) (l1 ++ l2) u).
Proof.
  intros (Hnd & Hu & Hc & Hn & Hm). pool_unfold.
  rewrite waiting_mid in Hn. rewrite held_mid in Hnd, Hn. setoid_rewrite held_mid in Hu. setoid_rewrite held_mid in Hc.
  cbn [held app is_reserved] in *. rewrite <- Permutation_middle in Hnd, Hn.
  setoid_rewrite <- Permutation_middle in Hu. setoid_rewrite <- Permutation_middle in Hc.
  assert (id ∉ permits p) as Hnp.
  { apply NoDup_cons in Hnd as [Hni _]. intros Hin. apply Hni, elem_of_app. left. by apply elem_of_elements. }
  unfold permits_insert. rewrite decide_False by done.
  eapply (pool_inv_intro _ _ (id :: elements (permits p) ++ concat (map held (l1 ++ l2)))); pool_unfold; try done.
  - rewrite (union_comm_L (permits p)), elements_disj_union, elements_singleton by set_solver. done.
  - simpl in *. lia.
Qed.

Lemma inv_take max p id ts u :
  pool_inv max (mkSystem p ts u) -> pool_inv max (mkSystem (permits_remove id p) (Removing id (has_permit id p) :: ts) u).
Proof.
  intros (Hnd & Hu & Hc & Hn & Hm). pool_unfold.
  eapply (pool_inv_intro _ _ (elements (permits p) ++ concat (map held ts))); pool_unfold; try done.
  cbn [map concat]. rewrite (elements_remove (permits p) id). unfold has_permit. case_decide as H.
  - rewrite bool_decide_eq_true_2 by done. cbn [held app]. by rewrite Permutation_middle.
  - by rewrite bool_decide_eq_false_2 by done.
Qed.

Lemma inv_remove max p id (b : bool) l1 l2 u :
  pool_inv max (mkSystem p (l1 ++ Removing id b :: l2) u) ->
  pool_inv max (mkSystem (sem_release (if b then 1 else 0) (connections_remove id p)) (l1 ++ l2) u).
Proof.
  intros (Hnd & Hu & Hc & Hn & Hm). pool_unfold.
  rewrite waiting_mid in Hn. rewrite held_mid in Hnd, Hn. setoid_rewrite held_mid in Hu. setoid_rewrite held_mid in Hc.
  cbn [is_reserved] in Hn.
  eapply (pool_inv_intro _ _ (elements (permits p) ++ concat (map held (l1 ++ l2)))); pool_unfold; [done| | | | |done].
  - destruct b; cbn [held app] in Hnd; [|done]. rewrite <- Permutation_middle in Hnd. by apply NoDup_cons in Hnd as [_ ?].
  - intros j Hj. apply Hu. rewrite !elem_of_app in *. destruct b; simpl; set_solver.
  - intros j [x Hj]. apply lookup_delete_Some in Hj as [Hne Hj].
    assert (j ∈ elements (permits p) ++ held (Removing id b) ++ concat (map held (l1 ++ l2))) as Hin by (apply Hc; by eexists).
    rewrite !elem_of_app in *. destruct Hin as [?|[Hin|?]]; [by left| |by right].
    destruct b; simpl in Hin; set_solver.
  - rewrite !length_app in *. destruct b; simpl in *; lia.
Qed.

Lemma step_inv max s s' : pool_inv max s -> step s s' -> pool_inv max s'.
Proof.
  intros Hinv Hs.
  destruct Hs; eauto using inv_reserve, inv_insert, inv_permit, inv_take, inv_remove;
    destruct Hinv as (Hnd & Hu & Hc & Hn & Hm); pool_unfold.
  eapply pool_inv_intro; pool_unfold; [reflexivity|done|done| |done|done].
    intros j Hj. apply Hc. destruct (decide (id = j)) as [->|Hne]; [by eexists|by rewrite lookup_insert_ne in Hj].
Qed.

Lemma reachable_inv max s : reachable max s -> pool_inv max s.
Proof.
  intros Hr. unfold reachable in Hr. remember (initial max) as s0 eqn:H0.
  assert (pool_inv max s0) as Hinv.
  { subst. unfold initial, pool_inv. pool_unfold. cbn [new_pool permits connections available_permits max_connections].
    rewrite elements_empty. split; [constructor|]. split; [set_solver|]. split; [intros id [x Hx]; by rewrite lookup_empty in Hx|].
    split; [|done]. change (waiting []) with 0%nat. simpl. lia. }
  clear H0. induction Hr; eauto using step_inv.
Qed.

(** C25: The connection limit is hard. In every system reachable from an
    empty pool of [max] slots, by any interleaving of the atomic operations
    of accepting tasks, handlers and the idle evictor, at most [max]
    connections are in the pool, and the free slots, the permits in the
    map, the permits tasks hold for a connection and the reserved slots
    together are exactly [max]. *)
Theorem connection_limit_hard (max : nat) (s : System) :
  reachable max s ->
  (active_connections (pool s) <= max_connections (pool s))%nat /\ max_connections (pool s) = max /\
  (available_permits (pool s) + size (permits (pool s)) + length (concat (map held (tasks s)))
   + waiting (tasks s) = max)%nat.
Proof.
  intros (Hnd & Hu & Hc & Hn & Hm)%reachable_inv. rewrite Hm.
  assert (size (permits (pool s)) = length (elements (permits (pool s)))) as Hsz by done.
  split; [|split; [done|]].
  - assert ((map_to_list (connections (pool s))).*1 ⊆+ tokens s) as Hsub.
    { apply NoDup_submseteq; [apply NoDup_fst_map_to_list|]. intros id Hin. apply Hc.
      apply list_elem_of_fmap in Hin as ([j c] & -> & Hin). apply elem_of_map_to_list in Hin. by eexists. }
    apply submseteq_length in Hsub. rewrite length_fmap, length_map_to_list in Hsub. unfold active_connections. lia.
  - unfold tokens in Hn. rewrite length_app in Hn. lia.
Qed.

Definition demo_conn : ClientConnection := mkClientConnection 7 (mkTcpStream [] [] false) (b#"127.0.0.1:5000") 0 0 0.

Lemma connection_limit_hard_witness :
  exists p, try_reserve_slot (new_pool 1) = Some p /\ try_reserve_slot (add_connection demo_conn p).2 = None /\
    (active_connections (add_connection demo_conn p).2 <= 1)%nat.
Proof.
  eexists. split; [reflexivity|]. split; [reflexivity|].
  apply (connection_limit_hard 1 (mkSystem (add_connection demo_conn (mkConnectionPool ∅ ∅ 1 0 0 ∅)).2 [] {[7%N]})).
  eapply rtc_l; [by apply (step_reserve (new_pool 1) (mkConnectionPool ∅ ∅ 1 0 0 ∅) [] ∅)|].
  replace ({[7%N]} : gset Uuid) with (∅ ∪ {[conn_client_id demo_conn]} : gset Uuid) by set_solver.
  apply add_steps. set_solver.
Defined.

(** The pool's methods are what the interleavings are made of: adding
    with a reserved slot, removing, and evicting any list of connections
    are sequences of the steps above, so the limit holds for any mix of
    calls, whole or interleaved. *)
Theorem pool_methods_are_steps (p : ConnectionPool) (ts : list Task) (u : gset Uuid) :
  (forall c, conn_client_id c ∉ u ->
     rtc step (mkSystem p (Reserved :: ts) u) (mkSystem (add_connection c p).2 ts (u ∪ {[conn_client_id c]}))) /\
  (forall id, rtc step (mkSystem p ts u) (mkSystem (remove_connection id p).2 ts u)) /\
  (forall ids n, rtc step (mkSystem p ts u) (mkSystem (evict_loop ids n p).2 ts u)).
Proof.
  split; [intros c Hc; by apply add_steps|]. split; [intros id; apply remove_steps|intros ids n; apply evict_steps].
Qed.

Lemma pool_methods_are_steps_witness :
  rtc step (mkSystem (new_pool 1) [Reserved] ∅) (mkSystem (add_connection demo_conn (new_pool 1)).2 [] {[7%N]}).
Proof.
  replace ({[7%N]} : gset Uuid) with (∅ ∪ {[conn_client_id demo_conn]} : gset Uuid) by set_solver.
  apply (pool_methods_are_steps (new_pool 1) [] ∅). set_solver.
Defined.
