(* ===== verification/Server.v ===== *)
(** * Serving connections (src/src/network/server.rs)

    What a connection handler does with the octets it reads: decode, run,
    log, reply.  The socket is a list of read events and write outcomes;
    the handler's own state is the connection and the shared metrics.
    Mutating commands take the rewrite barrier's read side around their
    execution; with one handler running, that is no event.  Log lines and
    the clock readings inside them are not represented. *)

From S2P Require Import Prelude Numbers Errors Values World Protocol Command Persistence ServerCommands Metrics Connection.

(** What a handler works with: its connection, the shared metrics. *)
Record Session : Type := mkSession {
  conn : ClientConnection;
  metrics : MetricsCollector
}.

Definition with_conn (s : Session) (c : ClientConnection) : Session := mkSession c (metrics s).
Definition with_metrics (s : Session) (m : MetricsCollector) : Session := mkSession (conn s) m.

(** ** Writing *)

(** One call on the socket: its outcome and the stream it leaves, where
    [data] is what success sends. *)
Definition socket_call (data : bytes) (t : TcpStream) : WriteOutcome * TcpStream :=
  match write_outcomes t with
  | [] => (WDone, mkTcpStream (sent t ++ data) [] (is_shut t))
  | WDone :: rest => (WDone, mkTcpStream (sent t ++ data) rest (is_shut t))
  | WFailed k e :: rest => (WFailed k e, mkTcpStream (sent t ++ take k data) rest (is_shut t))
  | WTimeout k :: rest => (WTimeout k, mkTcpStream (sent t ++ take k data) rest (is_shut t))
  end.

Definition network_error (message : bytes) (source : ErrorSource) : RustyPotatoError :=
  NetworkError message source None.

Definition write_response (data : bytes) (s : Session) : Result unit * Session :=
  let '(o, t) := socket_call data (stream (conn s)) in
  let s := with_conn s (with_stream (conn s) t) in
  match o with
  | WDone =>
      let s := with_metrics s (record_network_bytes (metrics s) 0 (zlen data)) in
      let '(o, t) := socket_call [] (stream (conn s)) in
      let s := with_conn s (with_stream (conn s) t) in
      match o with
      | WDone => (Ok tt, s)
      | WFailed _ e => (Err (network_error (b#"Failed to flush stream: " ++ e) (Some e)), s)
      | WTimeout _ => (Err (network_error (b#"Write flush timeout") None), s)
      end
  | WFailed _ e => (Err (network_error (b#"Failed to write response: " ++ e) (Some e)), s)
  | WTimeout _ => (Err (network_error (b#"Write timeout") None), s)
  end.

Definition send_response (r : CommandResult) (s : Session) : Result unit * Session :=
  match r with
  | CmdOk value =>
      match (encode new_codec value).1 with
      | Ok data => write_response data s
      | Err e => (Err (network_error (b#"Failed to encode response: " ++ display e) (Some (display e))), s)
      end
  | CmdError msg => write_response (encode_error msg) s
  end.

(** A computation that may panic, as an effect. *)
Definition lift {A} (o : outcome A) : M A := match o with Ret a => mret a | Panic => panic end.

Section Handler.
Context {E : Env}.
Variable registry : CommandRegistry.
Variable persistence : option PersistenceManager.

(** ** One command: the body of the loop of [process_buffer] *)
Definition log_mutation (command : ParsedCommand) (frame : bytes) (result : CommandResult) : M unit :=
  if is_cmd_ok result && registry_is_mutation registry (name command) then
    match persistence with
    | Some p => _ ← log_command p frame; mret tt
    | None => mret tt
    end
  else mret tt.

(** The result is whether the command ends the connection. *)
Definition dispatch (command : ParsedCommand) (frame : bytes) (s : Session) : M (Result bool * Session) :=
  let command := mkParsedCommand (name command) (args command) (conn_client_id (conn s)) in
  c ← update_last_activity (conn s);
  let s := with_conn s (increment_commands_processed c) in
  start ← timer_start;
  result ← registry_execute registry command;
  command_duration ← timer_stop start;
  m ← lift (record_command_latency (metrics s) (name command) command_duration);
  let s := with_metrics s m in
  _ ← log_mutation command frame result;
  let is_terminal := registry_is_terminal registry (name command) in
  match send_response result s with
  | (Ok _, s) => mret (Ok is_terminal, s)
  | (Err e, s) => mret (Err e, s)
  end.

(** ** Everything a read brings *)

(** The result: commands processed, whether to close. *)
Fixpoint process_loop (fuel : nat) (codec : RespCodec) (data_to_feed : bytes) (commands_processed : Z)
    (s : Session) : M (Result (Z * bool) * RespCodec * Session) :=
  match fuel with
  | O => mret (Ok (commands_processed, false), codec, s)
  | S n =>
      match decode_with_frame codec data_to_feed with
      | (Ok (Some (command, frame)), codec) =>
          '(r, s) ← dispatch command frame s;
          match r with
          | Ok is_terminal =>
              let commands_processed := add_u64 commands_processed 1 in
              if (is_terminal : bool) then mret (Ok (commands_processed, true), codec, s)
              else process_loop n codec [] commands_processed s
          | Err e => mret (Err e, codec, s)
          end
      | (Ok None, codec) => mret (Ok (commands_processed, false), codec, s)
      | (Err e, codec) => mret (Err (ProtocolError (display e) None (Some (display e))), codec, s)
      end
  end.

(** Every command takes at least one octet. *)
Definition process_fuel (codec : RespCodec) (new_data : bytes) : nat :=
  S (length (buffer codec ++ new_data)).

Definition process_buffer (codec : RespCodec) (new_data : bytes) (s : Session) :
    M (Result (Z * bool) * RespCodec * Session) :=
  process_loop (process_fuel codec new_data) codec new_data 0 s.

(** ** The connection *)

(** What the [select!] of the loop yields. *)
Inductive ReadEvent : Type :=
| ReadData (data : bytes)
| ReadError (e : bytes)
| ReadTimeout
| ShutdownSignal.

(** The error branch: the session, and whether the loop goes on. *)
Definition report_error (e : RustyPotatoError) (s : Session) : bool * Session :=
  if is_client_error e then
    match write_response (encode_error (to_client_error e)) s with
    | (Err _, s) => (false, s)
    | (Ok _, s) => (match e with ProtocolError _ _ _ => false | _ => true end, s)
    end
  else (false, (write_response (encode_error (b#"ERR internal server error")) s).2).

(** The loop of [handle_connection]: [true] when it was left, [false] when
    the events are used up and the handler waits for the next. *)
Fixpoint connection_loop (events : list ReadEvent) (codec : RespCodec) (commands_processed : Z) (s : Session) :
    M (bool * RespCodec * Z * Session) :=
  match events with
  | [] => mret (false, codec, commands_processed, s)
  | ReadData [] :: _ => mret (true, codec, commands_processed, s)
  | ReadData data :: rest =>
      let s := with_metrics s (record_network_bytes (metrics s) (zlen data) 0) in
      '(r, codec, s) ← process_buffer codec data s;
      match r with
      | Ok (processed_count, should_close) =>
          let commands_processed := add_u64 commands_processed processed_count in
          if (should_close : bool) then mret (true, codec, commands_processed, s)
          else connection_loop rest codec commands_processed s
      | Err e =>
          let '(go_on, s) := report_error e s in
          if go_on then connection_loop rest codec commands_processed s
          else mret (true, codec, commands_processed, s)
      end
  | ReadError _ :: _ | ReadTimeout :: _ | ShutdownSignal :: _ => mret (true, codec, commands_processed, s)
  end.

Definition handle_connection (limits : CodecLimits) (events : list ReadEvent) (s : Session) :
    M (bool * RespCodec * Z * Session) :=
  '(closed, codec, n, s) ← connection_loop events (with_limits limits) 0 s;
  mret (closed, codec, n, if (closed : bool) then with_conn s (shut_stream (conn s)) else s).

(** ** Accepting *)
Definition limit_reply : bytes := b#"-ERR server connection limit reached" ++ CRLF.

(** Up to the start of the handler: the pool, the metrics, and the
    connection if it was accepted, or else the refused stream. *)
Definition accept_connection (id : Uuid) (t : TcpStream) (addr : bytes) (p : ConnectionPool) (m : MetricsCollector) :
    M (Result (option ClientConnection) * TcpStream * ConnectionPool * MetricsCollector) :=
  match try_reserve_slot p with
  | None =>
      let m := record_connection_event m Rejected in
      let t := (socket_call limit_reply t).2 in
      let t := (socket_call [] t).2 in
      mret (Ok None, mkTcpStream (sent t) (write_outcomes t) true, p, m)
  | Some p =>
      c ← new_connection id t addr;
      match add_connection c p with
      | (Err e, p) => mret (Err e, t, p, record_connection_event m Rejected)
      | (Ok _, p) => mret (Ok (Some c), t, p, record_connection_event m Connected)
      end
  end.

(** After the handler: [attempts] tries to remove the connection. *)
Fixpoint remove_with_retry (attempts : nat) (id : Uuid) (p : ConnectionPool) : ConnectionPool :=
  match attempts with
  | O => p
  | S n => match remove_connection id p with
           | (Ok _, p) => p
           | (Err _, p) => remove_with_retry n id p
           end
  end.

Definition finish_connection (id : Uuid) (p : ConnectionPool) (m : MetricsCollector) :
    ConnectionPool * MetricsCollector :=
  (remove_with_retry 3 id p, record_connection_event m Disconnected).

End Handler.
