(* ===== verification/ServerThms.v ===== *)
(** * Theorems about serving a connection

    However a client's octets are cut into packets, the handler runs the
    commands of the stream in order, one reply each, and stops where it
    should. *)

From S2P Require Import Prelude Numbers Errors Values World MemoryStore Protocol ProtocolLemmas ProtocolThms Command Persistence ServerCommands Metrics Connection Server.

Section Serve.
Context {E : Env}.
Variable registry : CommandRegistry.
Variable persistence : option PersistenceManager.

(** The reference: one command after the other, until one ends the
    connection or its reply cannot be sent. *)
Fixpoint serve_all (xs : list (ParsedCommand * bytes)) (s : Session) : M (Result bool * Session) :=
  match xs with
  | [] => mret (Ok false, s)
  | (command, frame) :: rest =>
      '(r, s) ← dispatch registry persistence command frame s;
      match r with
      | Ok true => mret (Ok true, s)
      | Ok false => serve_all rest s
      | Err e => mret (Err e, s)
      end
  end.

Definition protocol_failure (e : RustyPotatoError) : RustyPotatoError :=
  ProtocolError (display e) None (Some (display e)).

(** What the stream leads to: its commands, then the answer to what could
    not be decoded, if anything. *)
Definition serve_stream (xs : list (ParsedCommand * bytes)) (bad : option RustyPotatoError) (s : Session) :
    M (bool * Session) :=
  '(r, s) ← serve_all xs s;
  match r with
  | Ok true => mret (true, s)
  | Ok false =>
      match bad with
      | Some e => mret (true, (report_error (protocol_failure e) s).2)
      | None => mret (false, s)
      end
  | Err e => mret (true, (report_error e s).2)
  end.

Lemma serve_all_app xs ys s :
  forall w, serve_all (xs ++ ys) s w =
    ('(r, s) ← serve_all xs s; match r with Ok false => serve_all ys s | _ => mret (r, s) end) w.
Proof.
  revert s. induction xs as [|[cmd frame] xs IH]; intros s w.
  { simpl. rewrite bind_run. simpl. done. }
  cbn [app serve_all]. rewrite !bind_run.
  destruct (dispatch registry persistence cmd frame s w) as [[[[[]|e] s1]|] w1]; auto.
Qed.

(** The errors of a reply are not the client's. *)
Lemma write_response_err d s e s' : write_response d s = (Err e, s') -> exists m src, e = network_error m src.
Proof.
  unfold write_response. destruct (socket_call d _) as [[] t]; [|by intros [= <- _]; eexists _, _..].
  destruct (socket_call [] _) as [[] t']; [done|by intros [= <- _]; eexists _, _..].
Qed.

Lemma dispatch_err cmd frame s w e s' w' :
  dispatch registry persistence cmd frame s w = (Ret (Err e, s'), w') -> exists m src, e = network_error m src.
Proof.
  unfold dispatch. rewrite bind_run. destruct (update_last_activity (conn s) w) as [[c|] w1]; [|done].
  rewrite bind_run. destruct (timer_start w1) as [[t|] w2]; [|done]. rewrite bind_run.
  destruct (registry_execute _ _ w2) as [[r|] w3]; [|done]. rewrite bind_run.
  destruct (timer_stop t w3) as [[d|] w4]; [|done]. rewrite bind_run.
  destruct (lift _ w4) as [[m|] w5]; [|done]. rewrite bind_run.
  destruct (log_mutation _ _ _ _ _ w5) as [[u|] w6]; [|done].
  destruct (send_response r _) as [[[]|e'] s''] eqn:Hs; [done|]. intros [= <- _ _].
  unfold send_response in Hs. destruct r; simpl in Hs; by eapply write_response_err.
Qed.

Lemma serve_all_err xs s w e s' w' :
  serve_all xs s w = (Ret (Err e, s'), w') -> exists m src, e = network_error m src.
Proof.
  revert s w. induction xs as [|[cmd frame] xs IH]; intros s w; [done|]. cbn [serve_all]. rewrite bind_run.
  destruct (dispatch registry persistence cmd frame s w) as [[[[[]|e1] s1]|] w1] eqn:Hd; try done.
  - apply IH.
  - intros [= <- _ _]. by eapply dispatch_err.
Qed.

(** *** One read *)
Lemma process_loop_run lim n buf data k s w xs e c :
  zlen (buf ++ data) <= max_buffer_size lim -> (length (buf ++ data) < n)%nat ->
  frames n lim (buf ++ data) = (xs, e, c) ->
  exists codec count,
    process_loop registry persistence n (mkRespCodec buf lim) data k s w =
    match serve_all xs s w with
    | (Ret (Ok true, s'), w') => (Ret (Ok (count, true), codec, s'), w')
    | (Ret (Ok false, s'), w') =>
        (Ret (match e with Some e => Err (protocol_failure e) | None => Ok (count, false) end, c, s'), w')
    | (Ret (Err e, s'), w') => (Ret (Err e, codec, s'), w')
    | (Panic, w') => (Panic, w')
    end.
Proof.
  revert buf data k s w xs e c. induction n as [|n IH]; intros buf data k s w xs e c Hl Hn; [lia|].
  rewrite frames_S. cbn [process_loop]. unfold decode_with_frame. rewrite overfull_le by done.
  unfold extend. cbn [buffer limits].
  destruct (try_parse_step (buf ++ data) lim) as [cmd frame rest Hb Hne _| |e' _].
  - cbn [buffer]. destruct (frames n lim rest) as [[xs' e1] c1] eqn:Ef. intros [= <- <- <-].
    rewrite Hb in Hl, Hn. unfold zlen in Hl. rewrite length_app in Hl, Hn. assert (length frame <> 0)%nat by (by destruct frame).
    cbn [serve_all]. rewrite !bind_run.
    destruct (dispatch registry persistence cmd frame s w) as [[[[[]|err] s1]|] w1].
    + by exists (mkRespCodec rest lim), (add_u64 k 1).
    + destruct (IH rest [] (add_u64 k 1) s1 w1 xs' e1 c1) as (codec & count & Hp).
      * rewrite app_nil_r. unfold zlen. lia.
      * rewrite app_nil_r. lia.
      * by rewrite app_nil_r.
      * exists codec, count. exact Hp.
    + by exists (mkRespCodec rest lim), 0.
    + by exists c1, 0.
  - intros [= <- <- <-]. exists (mkRespCodec (buf ++ data) lim), k. done.
  - intros [= <- <- <-]. exists (mkRespCodec (buf ++ data) lim), k. done.
Qed.

(** *** Sessions up to the byte counters

    How many octets were counted when depends on the packets; nothing a
    client sees does. *)
Definition sim (s s' : Session) : Prop :=
  exists n, s' = mkSession (conn s) (with_network (metrics s) n).

Definition out_sim {A} (x y : outcome (A * Session) * World) : Prop :=
  x.2 = y.2 /\
  match x.1, y.1 with
  | Ret (a, s), Ret (b, s') => a = b /\ sim s s'
  | Panic, Panic => True
  | _, _ => False
  end.

Lemma with_network_twice m n n' : with_network (with_network m n) n' = with_network m n'.
Proof. done. Qed.

Lemma sim_refl s : sim s s.
Proof. exists (network (metrics s)). by destruct s as [? []]. Qed.

Lemma sim_bytes s s' r k : sim s s' -> sim (with_metrics s (record_network_bytes (metrics s) r k)) s'.
Proof. intros [n ->]. by exists n. Qed.

Lemma write_response_sim d s s' :
  sim s s' -> (write_response d s).1 = (write_response d s').1 /\ sim (write_response d s).2 (write_response d s').2.
Proof.
  intros [n ->]. unfold write_response. cbn [conn metrics with_conn with_metrics].
  destruct (socket_call d (stream (conn s))) as [o t]. destruct o; [|split; [done|by exists n]..].
  cbn [stream with_stream]. destruct (socket_call [] t) as [o t'].
  destruct o; (split; [done|]); eexists; reflexivity.
Qed.

Lemma report_error_sim e s s' :
  sim s s' -> (report_error e s).1 = (report_error e s').1 /\ sim (report_error e s).2 (report_error e s').2.
Proof.
  intros Hs. unfold report_error. destruct (is_client_error e).
  - destruct (write_response_sim (encode_error (to_client_error e)) s s' Hs) as [H1 H2].
    destruct (write_response _ s) as [r1 s1], (write_response _ s') as [r2 s2]. simpl in *. subst. by destruct r2.
  - split; [done|]. by apply write_response_sim.
Qed.

(** A failed reply or a malformed stream ends the connection. *)
Lemma report_network m src s : (report_error (network_error m src) s).1 = false.
Proof. done. Qed.
Lemma report_protocol e s : (report_error (protocol_failure e) s).1 = false.
Proof. done. Qed.

Lemma record_latency_network m n c d :
  record_command_latency (with_network m n) c d =
  match record_command_latency m c d with Ret m' => Ret (with_network m' n) | Panic => Panic end.
Proof.
  unfold record_command_latency. cbn [commands_m performance with_network].
  destruct (record_command (commands_m m) c d); [|done]. by destruct (record_operation_latency (performance m) d).
Qed.

Lemma dispatch_sim cmd frame s s' w :
  sim s s' -> out_sim (dispatch registry persistence cmd frame s w) (dispatch registry persistence cmd frame s' w).
Proof.
  intros [n ->]. unfold dispatch. cbn [conn metrics with_conn]. rewrite !bind_run.
  destruct (update_last_activity (conn s) w) as [[c|] w1]; [|done]. rewrite !bind_run.
  destruct (timer_start w1) as [[t|] w2]; [|done]. rewrite !bind_run.
  destruct (registry_execute _ _ w2) as [[r|] w3]; [|done]. rewrite !bind_run.
  destruct (timer_stop t w3) as [[d|] w4]; [|done]. rewrite !bind_run, record_latency_network.
  destruct (record_command_latency (metrics s) _ d) as [m|]; [|done]. 
  change (lift (Ret m) w4) with (Ret m, w4). change (lift (Ret (with_network m n)) w4) with (Ret (with_network m n), w4).
  cbv iota beta. rewrite !bind_run.
  destruct (log_mutation _ _ _ _ _ w4) as [[u|] w6]; [|done].
  assert (forall d s, sim s (mkSession (conn s) (with_network (metrics s) n)) ->
    (write_response d s).1 = (write_response d (mkSession (conn s) (with_network (metrics s) n))).1 /\
    sim (write_response d s).2 (write_response d (mkSession (conn s) (with_network (metrics s) n))).2) as Hw.
  { intros. by apply write_response_sim. }
  set (s1 := with_metrics (with_conn s (increment_commands_processed c)) m).
  change (with_metrics (with_conn (mkSession (conn s) (with_network (metrics s) n)) (increment_commands_processed c)) (with_network m n))
    with (mkSession (conn s1) (with_network (metrics s1) n)).
  assert (exists data, send_response r s1 = write_response data s1 /\
    send_response r (mkSession (conn s1) (with_network (metrics s1) n)) =
    write_response data (mkSession (conn s1) (with_network (metrics s1) n))) as (data & -> & ->).
  { destruct r; simpl; by eexists. }
  destruct (Hw data s1) as [H1 H2]; [by exists n|].
  destruct (write_response data s1) as [r1 s2], (write_response data _) as [r2 s3]. simpl in *. subst.
  by destruct r2.
Qed.

Lemma serve_all_sim xs s s' w : sim s s' -> out_sim (serve_all xs s w) (serve_all xs s' w).
Proof.
  revert s s' w. induction xs as [|[cmd frame] xs IH]; intros s s' w Hs; [done|].
  cbn [serve_all]. rewrite !bind_run. destruct (dispatch_sim cmd frame s s' w Hs) as [H1 H2].
  destruct (dispatch _ _ cmd frame s w) as [[[r1 s1]|] w1], (dispatch _ _ cmd frame s' w) as [[[r2 s2]|] w2];
    simpl in *; subst; try done. destruct H2 as [-> H2]. destruct r2 as [[]|e]; [done|by apply IH|done].
Qed.

(** *** The whole connection *)
Definition drop_count {A B C D} (o : outcome (A * B * C * D) * World) : outcome (A * D) * World :=
  (match o.1 with Ret (a, _, _, d) => Ret (a, d) | Panic => Panic end, o.2).

Lemma out_sim_seen {A} (x y : outcome (A * Session) * World) a s w :
  out_sim x y -> x = (Ret (a, s), w) -> exists s', y = (Ret (a, s'), w) /\ sim s s'.
Proof.
  intros [Hw Ho] ->. destruct y as [[[b s']|] w']; simpl in *; [|done]. destruct Ho as [-> Hs]. subst. by exists s'.
Qed.

Lemma serve_stream_err xs bad s w e s' w' :
  serve_all xs s w = (Ret (Err e, s'), w') ->
  serve_stream xs bad s w = (Ret (true, (report_error e s').2), w').
Proof. intros H. unfold serve_stream. by rewrite bind_run, H. Qed.

Lemma connection_loop_data d events codec k s :
  d <> [] ->
  connection_loop registry persistence (ReadData d :: events) codec k s =
    ('(r, codec, s) ← process_buffer registry persistence codec d
        (with_metrics s (record_network_bytes (metrics s) (zlen d) 0));
     match r with
     | Ok (n, close) => if (close : bool) then mret (true, codec, add_u64 k n, s)
         else connection_loop registry persistence events codec (add_u64 k n) s
     | Err e => let '(go_on, s) := report_error e s in
         if go_on then connection_loop registry persistence events codec k s else mret (true, codec, k, s)
     end).
Proof. by destruct d. Qed.

Lemma connection_loop_run lim chunks buf k s s' w xs bad c :
  Forall (fun d => d <> []) chunks -> zlen (buf ++ concat chunks) <= max_buffer_size lim ->
  try_parse_command_with_frame (mkRespCodec buf lim) = (Ok None, mkRespCodec buf lim) -> sim s s' ->
  frames (S (length (buf ++ concat chunks))) lim (buf ++ concat chunks) = (xs, bad, c) ->
  out_sim (drop_count (connection_loop registry persistence (map ReadData chunks) (mkRespCodec buf lim) k s w))
    (serve_stream xs bad s' w).
Proof.
  revert buf k s s' w xs bad c. induction chunks as [|d chunks IH]; intros buf k s s' w xs bad c Hne Hl Hp Hs Hf.
  { cbn [concat] in Hf. rewrite app_nil_r, frames_S, Hp in Hf. injection Hf as <- <- <-. done. }
  apply Forall_cons in Hne as [Hd Hne]. cbn [map concat] in *. rewrite app_assoc in *.
  assert (zlen (buf ++ d) <= max_buffer_size lim) as Hl1 by (unfold zlen in *; rewrite length_app in Hl; lia).
  set (s1 := with_metrics s (record_network_bytes (metrics s) (zlen d) 0)).
  rewrite connection_loop_data by done. fold s1.
  rewrite frames_app in Hf by lia.
  rewrite (frames_fuel lim _ (process_fuel (mkRespCodec buf lim) d)) in Hf
    by (unfold process_fuel; cbn [buffer]; rewrite ?length_app; lia).
  destruct (frames (process_fuel (mkRespCodec buf lim) d) lim (buf ++ d)) as [[xs1 e1] c1] eqn:Ef.
  destruct (process_loop_run lim (process_fuel (mkRespCodec buf lim) d) buf d 0 s1 w xs1 e1 c1 Hl1 ltac:(unfold process_fuel; simpl; lia) Ef)
    as (codec & count & Hrun).
  apply frames_rest in Ef as (Hlim & Hle & Hw'); [|unfold process_fuel; simpl; lia].
  rewrite bind_run. unfold process_buffer. rewrite Hrun. clear Hrun.
  assert (sim s1 s') as Hs1 by by apply sim_bytes.
  assert (exists ys, xs = xs1 ++ ys) as [ys Hxs].
  { destruct e1; [injection Hf as <- _ _; exists []; by rewrite app_nil_r|].
    destruct (frames _ lim (buffer c1 ++ concat chunks)) as [[ys ?] ?]. injection Hf as <- _ _. by exists ys. }
  pose proof (serve_all_sim xs1 s1 s' w Hs1) as Hsim.
  pose proof (serve_all_app xs1 ys s' w) as Happ. rewrite <- Hxs, bind_run in Happ.
  destruct (serve_all xs1 s1 w) as [[[r s2]|] w2] eqn:Hserve.
  2:{ destruct Hsim as [H1 H2]. destruct (serve_all xs1 s' w) as [[[]|] w3]; simpl in *; [done|].
      subst. unfold serve_stream. by rewrite bind_run, Happ. }
  destruct (out_sim_seen _ _ _ _ _ Hsim eq_refl) as (s2' & Hs2 & Hsim2). rewrite Hs2 in Happ.
  destruct r as [[]|e].
  - unfold serve_stream. rewrite bind_run, Happ. done.
  - destruct e1 as [e1|].
    + injection Hf as Hx Hbad _. assert (ys = []) as -> by (apply (app_inv_head xs1); rewrite app_nil_r; congruence).
      unfold serve_stream. rewrite bind_run, Happ. subst bad. cbn [serve_all].
      destruct (report_error_sim (protocol_failure e1) s2 s2' Hsim2) as [_ Hr].
      pose proof (report_protocol e1 s2) as Hgo. destruct (report_error (protocol_failure e1) s2) as [go s3].
      simpl in Hgo. by subst go.
    + rewrite (frames_fuel lim _ (S (length (buffer c1 ++ concat chunks)))) in Hf
        by (rewrite ?length_app in *; lia).
      destruct (frames (S (length (buffer c1 ++ concat chunks))) lim (buffer c1 ++ concat chunks)) as [[zs e2] c2] eqn:Ez.
      injection Hf as Hx <- <-. assert (ys = zs) as -> by (apply (app_inv_head xs1); congruence).
      destruct c1 as [b1 lim1]. cbn [buffer limits] in *. subst lim1.
      assert (serve_stream xs e2 s' w = serve_stream zs e2 s2' w2) as ->.
      { unfold serve_stream. by rewrite !bind_run, Happ. }
      eapply IH; [done| |by apply Hw'|done|exact Ez].
      unfold zlen in *. rewrite !length_app in *. lia.
  - rewrite (serve_stream_err xs bad s' w e s2' w2) by exact Happ.
    destruct (serve_all_err _ _ _ _ _ _ Hserve) as (m & src & ->).
    destruct (report_error_sim (network_error m src) s2 s2' Hsim2) as [_ Hr].
    pose proof (report_network m src s2) as Hgo. destruct (report_error (network_error m src) s2) as [go s3].
    simpl in Hgo. by subst go.
Qed.
End Serve.

(** What the peer and the rest of the system see of a run. *)
Definition seen (o : outcome (bool * Session) * World) : outcome (bool * ClientConnection) * World :=
  (match o.1 with Ret (closed, s) => Ret (closed, conn s) | Panic => Panic end, o.2).

Definition serve_then_close {E : Env} registry persistence xs bad (s : Session) : M (bool * Session) :=
  '(closed, s) ← serve_stream registry persistence xs bad s;
  mret (closed, if (closed : bool) then with_conn s (shut_stream (conn s)) else s).

(** C15: A connection serves its stream. However the octets of a stream
    that fits the receive buffer are cut into packets, the handler runs
    exactly the commands the stream decodes to, in order, one reply each,
    and stops after one that ends the connection or whose reply cannot be
    sent; if the stream is malformed the commands before the fault are
    served and then the connection is told of an error and closed. The
    store, the log, the replies sent and the state of the connection are
    those of the commands served one after the other. *)
Theorem stream_served_in_order {E : Env} (registry : CommandRegistry) (persistence : option PersistenceManager) (lim : CodecLimits) (chunks : list bytes) (xs : list (ParsedCommand * bytes)) (bad : option RustyPotatoError) (s : Session) (w : World) :
  Forall (fun d => d <> []) chunks -> zlen (concat chunks) <= max_buffer_size lim ->
  (read_step (with_limits lim) (concat chunks)).1 = (xs, bad) ->
  seen (drop_count (handle_connection registry persistence lim (map ReadData chunks) s w))
  = seen (serve_then_close registry persistence xs bad s w).
Proof.
  intros Hne Hl Hr. unfold read_step, with_limits in Hr. rewrite drain_frames in Hr by done. cbn [app buffer] in Hr.
  destruct (frames (S (length (concat chunks))) lim (concat chunks)) as [[xs' bad'] c] eqn:Hf. injection Hr as -> ->.
  pose proof (connection_loop_run registry persistence lim chunks [] 0 s s w xs bad c Hne Hl eq_refl (sim_refl s) Hf) as [Hw Ho].
  unfold handle_connection, serve_then_close, seen, drop_count, with_limits in *. rewrite !bind_run.
  destruct (connection_loop registry persistence (map ReadData chunks) (mkRespCodec [] lim) 0 s w) as [[[[[closed codec] n] s1]|] w1],
    (serve_stream registry persistence xs bad s w) as [[[closed' s2]|] w2]; simpl in *; subst; try done.
  destruct Ho as [-> [nm ->]]. by destruct closed'.
Qed.

(** A client that sends PING and QUIT in three packets, and a GET that is
    never run. *)
Definition demo_stream : list bytes :=
  [b#"*1" ++ CRLF ++ b#"$4" ++ CRLF ++ b#"PI"; b#"NG" ++ CRLF ++ b#"*1" ++ CRLF ++ b#"$4" ++ CRLF ++ b#"QUIT" ++ CRLF;
   b#"*2" ++ CRLF ++ b#"$3" ++ CRLF ++ b#"GET" ++ CRLF ++ b#"$1" ++ CRLF ++ b#"k" ++ CRLF].

Definition demo_session : Session :=
  mkSession (mkClientConnection 7 (mkTcpStream [] [] false) (b#"127.0.0.1:5000") 0 0 0)
    (mkMetricsCollector (mkPerformanceMetrics new_histogram 0 0 0 0) new_command_metrics new_network_metrics new_storage_metrics 0).

Lemma stream_served_in_order_witness :
  exists xs c,
    seen (drop_count (handle_connection (E := env_ms) (main_registry (E := env_ms) None) None default_limits
      (map ReadData demo_stream) demo_session (mkWorld empty_store 0 no_process)))
    = seen (serve_then_close (E := env_ms) (main_registry (E := env_ms) None) None xs None demo_session (mkWorld empty_store 0 no_process)) /\
    (seen (serve_then_close (E := env_ms) (main_registry (E := env_ms) None) None xs None demo_session (mkWorld empty_store 0 no_process))).1
    = Ret (true, c) /\ sent (stream c) = b#"+PONG" ++ CRLF ++ b#"+OK" ++ CRLF.
Proof.
  eexists (read_step (E := env_ms) (with_limits default_limits) (concat demo_stream)).1.1, _. split.
  - apply (stream_served_in_order (E := env_ms) (main_registry (E := env_ms) None) None default_limits demo_stream).
    + repeat (apply Forall_cons; split; [discriminate|]). apply Forall_nil. exact I.
    + vm_compute. discriminate.
    + vm_compute. reflexivity.
  - split; vm_compute; reflexivity.
Defined.
