(* ===== verification/ReplayThms.v ===== *)
(** * Recovery repeats history

    With clocks that stand still, what a mutating command does depends only
    on what is visible ([cong]), a mutating command that fails leaves that
    alone, and commands that are not logged do not change it.  So running
    the logged commands again on an empty store gives the visible contents
    the server had. *)

From S2P Require Import Prelude Numbers Utf8 Errors Values World MemoryStore StoreInv StoreSpec StoreThms Protocol ProtocolLemmas ProtocolThms Command StringCommands TtlCommands HashCommands Persistence PersistThms ServerCommands Effects StoreEffects CommandThms RewriteThms.

Section Frozen.
Context {E : Env} `{!EnvOk E} (t W : Z) `{!Frozen E t W}.

(** The same is visible in both worlds. *)
Definition alike (w1 w2 : World) : Prop :=
  store_wf (w_store w1) /\ store_wf (w_store w2) /\ view t (w_store w1) = view t (w_store w2).

(** The outcome depends on what is visible only. *)
Definition cong (A : Type) (m : M A) : Prop :=
  forall w1 w2, alike w1 w2 -> (m w1).1 = (m w2).1 /\ alike (after m w1) (after m w2).

#[global] Instance cong_Effect : Effect cong.
Proof.
  split; [done|]. intros A B m k Hm Hk w1 w2 Hw. unfold after. rewrite !bind_run.
  destruct (Hm w1 w2 Hw) as [Ho Hw']. unfold after in Hw'.
  destruct (m w1) as [[a|] v1], (m w2) as [[b|] v2]; simpl in *; simplify_eq; [|done].
  by apply Hk.
Qed.

Lemma cong_panic {A} : cong A panic.
Proof. done. Qed.
Lemma cong_now : cong _ now.
Proof. intros w1 w2 Hw. simpl. by rewrite !frozen_mono. Qed.
Lemma cong_system_now : cong _ system_now.
Proof. intros w1 w2 Hw. simpl. by rewrite !frozen_wall. Qed.
Lemma cong_instant_add d1 d2 : cong _ (instant_add d1 d2).
Proof. unfold instant_add. case_match; [apply cong_panic|apply eff_ret]. Qed.
Lemma cong_instant_sub d1 d2 : cong _ (instant_sub d1 d2).
Proof. unfold instant_sub. case_match; [apply cong_panic|apply eff_ret]. Qed.
Lemma cong_unix_millis : cong _ unix_millis.
Proof. unfold unix_millis. eff_walk. apply cong_system_now. Qed.

Lemma cong_unix_target n : cong _ (resolve_unix_target n).
Proof.
  unfold resolve_unix_target. eff_walk;
    first [apply cong_unix_millis | apply cong_now | apply cong_instant_sub | apply cong_instant_add].
Qed.
Lemma cong_resolve_ttl c : cong _ (resolve_ttl c).
Proof.
  unfold resolve_ttl. destruct c; eff_walk; rewrite ?unix_deadline_eq;
    first [apply cong_unix_target | apply cong_now | apply cong_instant_add].
Qed.

(** *** Store operations *)
Lemma exec_cong op : op_ok op -> cong _ (exec op).
Proof.
  intros Hop w1 w2 (Hwf1 & Hwf2 & Hv).
  pose proof (exec_wf op Hop w1 Hwf1) as Hk1. pose proof (exec_wf op Hop w2 Hwf2) as Hk2. unfold after in *.
  destruct (exec op w1) as [o1 v1] eqn:H1, (exec op w2) as [o2 v2] eqn:H2. simpl in *.
  pose proof (exec_agrees op t w1 o1 v1 (proj1 Hwf1) H1 (fun i _ => frozen_mono i)) as Ha1.
  pose proof (exec_agrees op t w2 o2 v2 (proj1 Hwf2) H2 (fun i _ => frozen_mono i)) as Ha2.
  unfold agrees in *. rewrite Hv in Ha1. destruct (overflows t op).
  - destruct Ha1 as [-> Hs1], Ha2 as [-> Hs2]. split; [done|]. unfold alike. by rewrite Hs1, Hs2.
  - destruct Ha1 as [-> Hv1], Ha2 as [-> Hv2]. split; [done|]. split; [done|]. split; [done|]. by rewrite Hv1, Hv2.
Qed.

(** From the operation as a value of [OpResult] back to its own type. *)
Lemma cong_op {A} (m : M (Result A)) (f : A -> OpResult) op :
  exec op = (r ← m; mret (as_result f r)) -> op_ok op ->
  (forall a b, f a = f b -> a = b) -> (forall a e, f a <> RErr e) -> cong _ m.
Proof.
  intros He Hop Hinj Hne w1 w2 Hw. pose proof (exec_cong op Hop w1 w2 Hw) as [Ho Hw'].
  rewrite He in Ho, Hw'. unfold after in *. rewrite !bind_run in Ho, Hw'.
  destruct (m w1) as [[[a|e]|] v1], (m w2) as [[[b|e']|] v2]; simpl in *; try done; injection Ho as Ho.
  - apply Hinj in Ho as ->. done.
  - by destruct (Hne a e').
  - by destruct (Hne b e).
  - by rewrite Ho.
Qed.

Lemma cong_set k v : value_ok v -> cong _ (set k v).
Proof. intros Hv. by apply (cong_op _ (fun _ => RUnit) (OSet k v)); [| |intros [] []|]. Qed.
Lemma cong_delete k : cong _ (delete_key k).
Proof. apply (cong_op _ RBool (ODelete k)); naive_solver. Qed.
Lemma cong_expire k n fl : cong _ (expire_with_options k n fl).
Proof. apply (cong_op _ RBool (OExpire k n fl)); naive_solver. Qed.
Lemma cong_expire_at k d fl : cong _ (expire_at_with_options k d fl).
Proof. apply (cong_op _ RBool (OExpireAt k d fl)); naive_solver. Qed.
Lemma cong_incr_by k n : I64_MIN <= n <= I64_MAX -> cong _ (incr_by k n).
Proof. intros Hn. apply (cong_op _ RInt (OIncrBy k n)); naive_solver. Qed.
Lemma cong_hset k f x : utf8_valid f = true -> utf8_valid x = true -> cong _ (hset k f x).
Proof. intros Hf Hx. apply (cong_op _ RBool (OHset k f x)); [done|by split|naive_solver..]. Qed.
Lemma cong_hdel k f : cong _ (hdel k f).
Proof. apply (cong_op _ RBool (OHdel k f)); naive_solver. Qed.

Lemma cong_clear : cong _ clear.
Proof.
  intros w1 w2 Hw. pose proof (exec_cong OClear I w1 w2 Hw) as [_ Hw'].
  unfold after, exec in *. rewrite !bind_run in Hw'. unfold clear in *. simpl in *. done.
Qed.

(** SET's reply shows no more of the old value than its contents. *)
Lemma set_reply_see g (o1 o2 : SetOutcome) :
  applied o1 = applied o2 -> see <$> previous o1 = see <$> previous o2 -> set_reply g o1 = set_reply g o2.
Proof.
  intros Ha Hp. unfold set_reply. rewrite Ha. destruct g; [|done].
  destruct (previous o1) as [s1|], (previous o2) as [s2|]; try discriminate Hp; [|done].
  unfold see in Hp. simpl in Hp. injection Hp as Hval _. by rewrite Hval.
Qed.

Lemma cong_set_reply g k b d ex :
  cong _ (or_fail (set_with_options k (VString b) d ex) (fun o => mret (set_reply g o))).
Proof.
  intros w1 w2 Hw. pose proof (exec_cong (OSetOpt k (VString b) d ex) ltac:(done) w1 w2 Hw) as [Ho Hw'].
  unfold after, exec, or_fail in *. rewrite !bind_run in *.
  destruct (set_with_options k (VString b) d ex w1) as [[[o1|e1]|] v1],
    (set_with_options k (VString b) d ex w2) as [[[o2|e2]|] v2]; simpl in *; try done; simplify_eq.
  - split; [|done]. unfold mret, M_ret. simpl. f_equal. by apply set_reply_see.
  - done.
Qed.

Lemma cong_set_command l : cong _ (set_execute l).
Proof.
  unfold set_execute. eff_step; [eff_step|]. eff_step; [left; apply cong_panic|].
  eff_step; [|apply cong_panic]. eff_step. eff_step; [apply cong_resolve_ttl|]. apply cong_set_reply.
Qed.

Lemma cong_mutation slot c l :
  In c (main_commands slot ++ [CommandCommand 33]) -> is_mutation c = true -> cong _ (execute c l).
Proof.
  intros Hin Hm. each_command Hin; try discriminate Hm; clear Hm; try apply cong_set_command.
  all: open_command; eff_walk; try (left; apply cong_panic);
    first [ apply cong_expire | apply cong_expire_at | apply cong_clear | apply cong_now | apply cong_instant_add
          | apply cong_unix_target | apply cong_incr_by; vm_compute; split; discriminate
          | apply eff_count_loop; [apply _|intros; first [apply cong_delete | apply cong_hdel]]
          | apply eff_mset_loop; [apply _|left; apply cong_panic|intros; by apply cong_set]
          | apply eff_hset_loop; [apply _|left; apply cong_panic|intros; by apply cong_hset] ].
Qed.

(** ** A command that fails *)

(** An error reply means that nothing visible changed. *)
Definition fails_clean (m : M CommandResult) : Prop :=
  forall w e w', store_wf (w_store w) -> m w = (Ret (CmdError e), w') -> view t (w_store w') = view t (w_store w).

Lemma fc_ret r : fails_clean (mret r).
Proof. by intros w e w' _ [= _ <-]. Qed.

Lemma fc_panic : fails_clean panic.
Proof. by intros w e w' _ [=]. Qed.

(** Code that does not touch the store, then the rest. *)
Lemma fc_bind {A} (m : M A) k :
  store_same A m -> (forall a, fails_clean (k a)) -> fails_clean (m ≫= k).
Proof.
  intros Hm Hk w e w' Hwf. rewrite bind_run. destruct (Hm w) as [Hs _]. unfold after in Hs.
  destruct (m w) as [[a|] w1]; [|done]. simpl in Hs. intros Hr.
  rewrite <- Hs. eapply Hk; [|exact Hr]. by rewrite Hs.
Qed.

Lemma fc_or_return {A} (m : M (result bytes A)) k :
  store_same _ m -> (forall a, fails_clean (k a)) -> fails_clean (or_return m k).
Proof. intros Hm Hk. apply fc_bind; [done|]. intros [a|e]; [apply Hk|apply fc_ret]. Qed.

Lemma store_same_arg_u64 l i : store_same _ (arg_u64 l i).
Proof. unfold arg_u64. case_match; [apply eff_ret|apply store_same_panic]. Qed.

(** A failing operation leaves the abstract store alone. *)
Lemma spec_err op a e : (spec t op a).1 = RErr e -> (spec t op a).2 = a.
Proof. destruct op; simpl; unfold spec_expire_at; by repeat case_match. Qed.

(** What a run of an operation without overflow comes to. *)
Lemma op_run {A} (m : M (Result A)) (f : A -> OpResult) op w :
  exec op = (r ← m; mret (as_result f r)) -> op_ok op -> store_wf (w_store w) ->
  (exists r w', m w = (Ret r, w') /\ store_wf (w_store w') /\
    as_result f r = (spec t op (view t (w_store w))).1 /\
    view t (w_store w') = (spec t op (view t (w_store w))).2) \/ (m w).1 = Panic.
Proof.
  intros He Hop Hwf. pose proof (exec_wf op Hop w Hwf) as Hk.
  destruct (exec op w) as [o v] eqn:Hr.
  pose proof (exec_agrees op t w o v (proj1 Hwf) Hr (fun i _ => frozen_mono i)) as Ha.
  unfold after in Hk. rewrite Hr in Hk. rewrite He, bind_run in Hr.
  destruct (m w) as [[r|] w']; [left|by right]. injection Hr as <- <-.
  exists r, w'. split; [done|]. split; [done|]. unfold agrees in Ha. destruct (overflows t op); [by destruct Ha|].
  by destruct Ha as [[= ->] ?].
Qed.

(** One operation whose success is a success of the command. *)
Lemma fc_op {A} (m : M (Result A)) (f : A -> OpResult) op k :
  exec op = (r ← m; mret (as_result f r)) -> op_ok op -> (forall a, exists v, k a = mret (CmdOk v)) ->
  fails_clean (or_fail m k).
Proof.
  intros He Hop Hk w e w' Hwf. unfold or_fail. rewrite bind_run.
  destruct (op_run m f op w He Hop Hwf) as [(r & w1 & -> & _ & Hr & Hv)|Hp].
  - destruct r as [a|e1]; [destruct (Hk a) as [v ->]; done|]. intros [= _ <-].
    rewrite Hv. by eapply spec_err.
  - destruct (m w) as [o w1]. simpl in Hp. by subst o.
Qed.

Lemma count_loop_cons op a l n w :
  utf8_valid a = true ->
  count_loop op (a :: l) n w =
    match op a w with
    | (Ret (Ok b), w1) => count_loop op l (if (b : bool) then n + 1 else n) w1
    | (Ret (Err e), w1) => (Ret (CmdError (to_client_error e)), w1)
    | (Panic, w1) => (Panic, w1)
    end.
Proof.
  intros Ha. cbn [count_loop]. unfold arg_text, from_utf8. rewrite Ha.
  trans ((r ← op a; match r with
    | Ok b => count_loop op l (if (b : bool) then n + 1 else n)
    | Err e => mret (CmdError (to_client_error e)) end) w); [reflexivity|].
  rewrite bind_run. by destruct (op a w) as [[[]|]?].
Qed.

(** A loop over texts whose operation succeeds as long as [I] holds. *)
Lemma count_loop_ok (I : World -> Prop) op l n w :
  (forall k w, I w -> exists b w', op k w = (Ret (Ok b), w') /\ I w') ->
  forallb utf8_valid l = true -> I w -> exists z w', count_loop op l n w = (Ret (ok_int z), w').
Proof.
  intros Hop. revert n w. induction l as [|a l IH]; intros n w Hl Hi; [by eexists _, _|].
  cbn [forallb] in Hl. apply andb_true_iff in Hl as [Ha Hl].
  destruct (Hop a w Hi) as (b & w1 & Hr & Hi1). rewrite count_loop_cons, Hr by done. by apply IH.
Qed.

Lemma fc_del l : forallb utf8_valid l = true -> fails_clean (count_loop delete_key l 0).
Proof.
  intros Hl w e w' Hwf Hr. exfalso.
  destruct (count_loop_ok (fun w => store_wf (w_store w)) delete_key l 0 w) as (z & w1 & Hr1); [|done..|by rewrite Hr in Hr1].
  intros k v Hv. destruct (op_run (delete_key k) RBool (ODelete k) v eq_refl I Hv) as [(r & v1 & H1 & H2 & H3 & _)|Hp].
  - destruct r as [b|]; [|done]. by exists b, v1.
  - exfalso. by eapply safe_delete.
Qed.

(** The key can hold a hash. *)
Definition hash_room (k : bytes) (w : World) : Prop :=
  store_wf (w_store w) /\
  match view t (w_store w) !! k with Some (VHash _, _) | None => True | _ => False end.

Lemma hdel_room k f w : hash_room k w -> exists b w', hdel k f w = (Ret (Ok b), w') /\ hash_room k w'.
Proof.
  intros [Hwf Hk]. destruct (op_run (hdel k f) RBool (OHdel k f) w eq_refl I Hwf) as [(r & w1 & H1 & H2 & H3 & H4)|Hp].
  - cbn [spec] in *. destruct (view t (w_store w) !! k) as [[[] d]|] eqn:Hv; try done.
    + destruct r as [b|]; [|by case_bool_decide].
      exists b, w1. split; [done|]. split; [done|]. rewrite H4. case_bool_decide; simpl; [|by rewrite Hv].
      case_bool_decide; [by rewrite lookup_delete_eq|by rewrite lookup_insert_eq].
    + destruct r as [b|]; [|done]. exists b, w1. split; [done|]. split; [done|]. rewrite H4. simpl. by rewrite Hv.
  - exfalso. by eapply safe_hdel.
Qed.

Lemma hset_room k f x w :
  utf8_valid f = true -> utf8_valid x = true -> hash_room k w ->
  exists b w', hset k f x w = (Ret (Ok b), w') /\ hash_room k w'.
Proof.
  intros Hf Hx [Hwf Hk].
  destruct (op_run (hset k f x) RBool (OHset k f x) w eq_refl (conj Hf Hx) Hwf) as [(r & w1 & H1 & H2 & H3 & H4)|Hp].
  - cbn [spec] in *.
    destruct (view t (w_store w) !! k) as [[[] d]|] eqn:Hv; try done; (destruct r as [b|]; [|done]);
      exists b, w1; (split; [done|]; split; [done|]; rewrite H4; simpl; by rewrite lookup_insert_eq).
  - exfalso. by eapply safe_hset.
Qed.

Lemma fc_hdel k l : forallb utf8_valid l = true -> fails_clean (count_loop (hdel k) l 0).
Proof.
  intros Hl w e w' Hwf Hr.
  assert (hash_room k w \/ ~ hash_room k w) as [Hroom|Hno].
  { unfold hash_room. destruct (view t (w_store w) !! k) as [[[] ?]|]; naive_solver. }
  { exfalso. destruct (count_loop_ok (hash_room k) (hdel k) l 0 w) as (z & w1 & Hr1); [|done..|by rewrite Hr in Hr1].
    intros f v. apply hdel_room. }
  destruct l as [|f l]; [done|]. cbn [forallb] in Hl. apply andb_true_iff in Hl as [Hf Hl].
  rewrite count_loop_cons in Hr by done.
  destruct (op_run (hdel k f) RBool (OHdel k f) w eq_refl I Hwf) as [(r & w1 & H1 & H2 & H3 & H4)|Hp].
  - rewrite H1 in Hr. cbn [spec] in *. unfold hash_room in Hno.
    destruct (view t (w_store w) !! k) as [[[] d]|] eqn:Hv; try naive_solver;
      (destruct r as [br|]; [done|]); injection Hr as _ <-; by rewrite H4.
  - destruct (hdel k f w) as [o w1]. simpl in Hp. by subst o.
Qed.

Lemma hset_loop_ok k l n w :
  Nat.even (length l) = true -> forallb utf8_valid l = true -> hash_room k w ->
  exists z w', hset_loop k l n w = (Ret (ok_int z), w').
Proof.
  remember (length l) as m eqn:Hm. revert l n w Hm.
  induction (lt_wf m) as [m _ IH]; intros [|f [|x l]] n w -> He Hl Hr; [by eexists _, _|done|].
  cbn [forallb] in Hl. apply andb_true_iff in Hl as [Hf [Hx Hl]%andb_true_iff].
  destruct (hset_room k f x w Hf Hx Hr) as (b & w1 & Hrun & Hr1).
  rewrite hset_loop_cons by done. rewrite Hrun. apply (IH (length l)); [simpl; lia|done..].
Qed.

Lemma fc_hset k l :
  Nat.even (length l) = true -> forallb utf8_valid l = true -> fails_clean (hset_loop k l 0).
Proof.
  intros He Hl w e w' Hwf Hr.
  assert (hash_room k w \/ ~ hash_room k w) as [Hroom|Hno].
  { unfold hash_room. destruct (view t (w_store w) !! k) as [[[] ?]|]; naive_solver. }
  { exfalso. destruct (hset_loop_ok k l 0 w He Hl Hroom) as (z & w1 & Hr1). by rewrite Hr in Hr1. }
  destruct l as [|f [|x l]]; [done|done|]. cbn [forallb] in Hl. apply andb_true_iff in Hl as [Hf [Hx Hl]%andb_true_iff].
  rewrite hset_loop_cons in Hr by done.
  destruct (op_run (hset k f x) RBool (OHset k f x) w eq_refl (conj Hf Hx) Hwf) as [(r & w1 & H1 & H2 & H3 & H4)|Hp].
  - rewrite H1 in Hr. cbn [spec] in *. unfold hash_room in Hno.
    destruct (view t (w_store w) !! k) as [[[] d]|] eqn:Hv; try naive_solver;
      (destruct r as [br|]; [done|]); injection Hr as _ <-; by rewrite H4.
  - destruct (hset k f x w) as [o w1]. simpl in Hp. by subst o.
Qed.

(** The keys among MSET's arguments. *)
Fixpoint mset_keys (l : list bytes) : list bytes :=
  match l with k :: _ :: l' => k :: mset_keys l' | _ => [] end.

Lemma mset_loop_ok l w :
  Nat.even (length l) = true -> forallb utf8_valid (mset_keys l) = true -> store_wf (w_store w) ->
  exists w', mset_loop l w = (Ret (ok_simple "OK"), w').
Proof.
  remember (length l) as m eqn:Hm. revert l w Hm.
  induction (lt_wf m) as [m _ IH]; intros [|k [|x l]] w -> He Hl Hwf; [by eexists|done|].
  cbn [mset_keys forallb] in Hl. apply andb_true_iff in Hl as [Hk Hl].
  destruct (op_run (set k (VString x)) (fun _ => RUnit) (OSet k (VString x)) w eq_refl ltac:(done) Hwf)
    as [(r & w1 & H1 & H2 & H3 & H4)|Hp]; [|exfalso; by eapply safe_set].
  destruct r as [[]|]; [|done]. cbn [mset_loop]. unfold arg_text, from_utf8. rewrite Hk.
  enough (exists w', mset_loop l w1 = (Ret (ok_simple "OK"), w')) as [w' Hw'].
  { exists w'. trans ((r ← set k (VString x); match r with Ok _ => mset_loop l | Err e => mret (CmdError (to_client_error e)) end) w);
      [reflexivity|]. by rewrite bind_run, H1. }
  by apply (IH (length l)); [simpl; lia|..].
Qed.

(** Arguments on which a command that fails has changed nothing: those of
    DEL, HDEL, HSET and the keys of MSET are texts, and SET does not ask
    for the old value. *)
Definition clean_args (n : bytes) (l : list bytes) : bool :=
  if bytes_eqb n (b#"SET") then
    match parse_set_options (drop 2 l) with Ok o => negb (opt_get o) | Err _ => true end
  else if is_one_of n [b#"DEL"; b#"HDEL"; b#"HSET"] then forallb utf8_valid l
  else if bytes_eqb n (b#"MSET") then forallb utf8_valid (mset_keys l)
  else true.

(** A guard that answers with an error before anything is done. *)
Ltac fc_guard H :=
  match goal with
  | |- fails_clean (if ?b then mret _ else _) => destruct b eqn:H; [apply fc_ret|]
  | |- fails_clean (match ?l with [] => mret _ | _ => _ end) => destruct l as [|? ?] eqn:H; [apply fc_ret|]
  end.

Lemma fc_set l : clean_args (b#"SET") l = true -> fails_clean (set_execute l).
Proof.
  change (clean_args (b#"SET") l) with
    (match parse_set_options (drop 2 l) with Ok o => negb (opt_get o) | Err _ => true end).
  intros Hc. unfold set_execute. fc_guard Hlen.
  apply fc_or_return; [apply store_same_arg_str|]. intros k. destruct (l !! 1%nat) as [b|]; [|apply fc_panic].
  destruct (parse_set_options (drop 2 l)) as [o|e]; [|apply fc_ret].
  change (fails_clean (ttl ←! resolve_ttl (opt_ttl o); outcome ←$ set_with_options k (VString b) ttl (opt_existence o);
    mret (set_reply (opt_get o) outcome))).
  apply fc_or_return; [apply store_same_resolve_ttl|]. intros d.
  apply (fc_op _ (fun o => ROutcome (applied o) (see <$> previous o)) (OSetOpt k (VString b) d (opt_existence o)));
    [done|done|].
  intros out. apply negb_true_iff in Hc. unfold set_reply. rewrite Hc. case_match; by eexists.
Qed.

Lemma forallb_drop l n : forallb utf8_valid l = true -> forallb utf8_valid (drop n l) = true.
Proof. rewrite <- (take_drop n l) at 1. rewrite forallb_app. by intros [_ ?]%andb_true_iff. Qed.

Ltac fc_args := repeat first
  [ apply fc_or_return; [first [apply store_same_arg_str | apply store_same_arg_u64 | apply store_same_unix_target | apply eff_ret]|intros ?]
  | apply fc_ret | apply fc_panic ].

Lemma fc_mutation slot c l :
  In c (main_commands slot ++ [CommandCommand 33]) -> is_mutation c = true -> clean_args (cmd_name c) l = true ->
  fails_clean (execute c l).
Proof.
  intros Hin Hm Hc. each_command Hin; try discriminate Hm; clear Hm.
  - by apply fc_set.
  - open_command. fc_guard Hlen. by apply fc_del.
  - open_command. fc_guard Hlen. fc_args. eapply (fc_op _ RBool (OExpire _ _ _)); [done|done|by eexists].
  - open_command. fc_guard Hlen. fc_args.
    apply fc_bind; [apply pe_now|]. intros d. apply fc_bind; [apply store_same_instant_add|]. intros dl.
    eapply (fc_op _ RBool (OExpireAt _ _ _)); [done|done|by eexists].
  - open_command. fc_guard Hlen. fc_args. eapply (fc_op _ RBool (OExpireAt _ _ _)); [done|done|by eexists].
  - open_command. fc_guard Hlen. fc_args. eapply (fc_op _ RBool (OExpireAt _ _ _)); [done|done|by eexists].
  - open_command. fc_guard Hlen. fc_args. eapply (fc_op _ RInt (OIncrBy _ _)); [done|done|by eexists].
  - open_command. fc_guard Hlen. fc_args. eapply (fc_op _ RInt (OIncrBy _ _)); [done|done|by eexists].
  - open_command. fc_guard Hlen. fc_args. apply orb_false_iff in Hlen as [_ Hev].
    apply fc_hset; [rewrite length_drop; by apply negb_false_iff|by apply forallb_drop].
  - open_command. fc_guard Hlen. fc_args. apply fc_hdel. by apply forallb_drop.
  - open_command. destruct l as [|a [|? ?]]; [done| |apply fc_ret]. destruct (_ || _); [done|apply fc_ret].
  - open_command. fc_guard Hlen. apply orb_false_iff in Hlen as [_ Hev%negb_false_iff].
    intros w e w' Hwf Hr. destruct (mset_loop_ok l w Hev Hc Hwf) as [w1 Hw1]. by rewrite Hr in Hw1.
Qed.
End Frozen.
