(* ===== verification/RecoveryThms.v ===== *)
(** * A crash loses nothing that was logged

    The server's commands, the log they leave and recovery from it, put
    together. *)

From S2P Require Import Prelude Numbers Utf8 Errors Values World MemoryStore StoreInv StoreSpec StoreThms Protocol ProtocolLemmas ProtocolThms Command StringCommands TtlCommands HashCommands Persistence PersistThms ServerCommands Effects StoreEffects CommandThms RewriteThms ReplayThms Metrics Connection Server ServerThms.

Section Recovery.
Context {E : Env} `{!EnvOk E, !IoOk E} (t W : Z) `{!Frozen E t W}.

Lemma alike_ticks w v v' : ticks v v' -> alike t w v -> alike t w v'.
Proof. intros (Hs & _) (H1 & H2 & H3). unfold alike. by rewrite Hs. Qed.

Lemma alike_ticks_l w w' v : ticks w w' -> alike t w v -> alike t w' v.
Proof. intros (Hs & _) (H1 & H2 & H3). unfold alike. by rewrite Hs. Qed.

(** *** One command *)
Lemma registry_find slot cmd w r w' :
  registry_execute (main_registry slot) cmd w = (Ret r, w') ->
  (exists e, r = CmdError e /\ w' = w) \/
  exists c, main_find slot (upcase (name cmd)) = Some c /\ execute c (args cmd) w = (Ret r, w') /\
    validate_arity cmd (arity c) = Ok tt.
Proof.
  unfold registry_execute. rewrite main_registry_lookup. destruct (main_find slot (upcase (name cmd))) as [c|].
  - destruct (validate_arity cmd (arity c)) as [[]|e] eqn:Ha; [|by intros [= <- <-]; left; eexists].
    intros Hr. right. by exists c.
  - intros [= <- <-]. left. by eexists.
Qed.

Lemma mutation_replayed slot n l i j w v c r w' :
  main_find slot (upcase n) = Some c -> is_mutation c = true -> validate_arity (mkParsedCommand n l i) (arity c) = Ok tt ->
  alike t w v -> execute c l w = (Ret r, w') ->
  exists v', replay_fn (mkParsedCommand n l j) v = (Ret (Ok tt), v') /\ alike t w' v'.
Proof.
  intros Hf Hm Ha Hw Hr. pose proof (replay_finds slot _ _ Hf Hm) as Hrep.
  apply main_find_In in Hf as [Hin _].
  destruct (cong_mutation t W slot c l Hin Hm w v Hw) as [Ho Hw']. unfold after in Hw'. rewrite Hr in Ho, Hw'.
  exists (execute c l v).2. split; [|exact Hw']. unfold replay_fn. rewrite bind_run.
  unfold registry_execute. cbn [name args]. rewrite Hrep.
  change (validate_arity (mkParsedCommand n l j) (arity c)) with (validate_arity (mkParsedCommand n l i) (arity c)).
  rewrite Ha. destruct (execute c l v) as [o v']. simpl in Ho. by subst o.
Qed.

(** The view after a command that is not logged. *)
Lemma unlogged_alike slot c l w v r w' :
  In c (main_commands slot ++ [CommandCommand 33]) ->
  is_mutation c = false \/ (is_cmd_ok r = false /\ clean_args (cmd_name c) l = true) ->
  alike t w v -> execute c l w = (Ret r, w') -> alike t w' v.
Proof.
  intros Hin Hor (Hw & Hv & Hview) Hr.
  pose proof (main_wf slot c l Hin w Hw) as Hwf. unfold after in Hwf. rewrite Hr in Hwf.
  split; [done|]. split; [done|]. rewrite <- Hview. destruct (is_mutation c) eqn:Hm.
  - destruct Hor as [Hf|[Hok Hc]]; [discriminate Hf|]. destruct r as [x|e]; [discriminate Hok|].
    by eapply (fc_mutation t W slot c l Hin Hm Hc).
  - destruct (main_quiet slot c l Hin Hm w) as [_ Hq]. unfold after in Hq. rewrite Hr in Hq.
    apply Hq. intros i _. by rewrite frozen_mono.
Qed.

(** *** The body of the server's loop *)
Lemma dispatch_run registry persistence cmd frame s w rb s' w' :
  dispatch registry persistence cmd frame s w = (Ret (rb, s'), w') ->
  let id := conn_client_id (conn s) in
  exists w2 r w3 w4, ticks w w2 /\
    registry_execute registry (mkParsedCommand (name cmd) (args cmd) id) w2 = (Ret r, w3) /\ ticks w3 w4 /\
    log_mutation registry persistence (mkParsedCommand (name cmd) (args cmd) id) frame r w4 = (Ret tt, w').
Proof.
  intros H0 id. revert H0. unfold dispatch. rewrite bind_run.
  destruct (update_last_activity (conn s) w) as [[c|] w1] eqn:H1; [|done].
  rewrite bind_run. destruct (timer_start w1) as [[t0|] w2] eqn:H2; [|done].
  rewrite bind_run. fold id.
  destruct (registry_execute registry (mkParsedCommand (name cmd) (args cmd) id) w2) as [[r|] w3] eqn:Hr; [|done].
  rewrite bind_run. destruct (timer_stop t0 w3) as [[d|] w4] eqn:H4; [|done]. rewrite bind_run.
  destruct (lift _ w4) as [[m|] w5] eqn:H5; [|done].
  assert (w5 = w4) as ->.
  { unfold lift in H5. destruct (record_command_latency _ _ _); by injection H5. }
  rewrite bind_run. destruct (log_mutation _ _ _ _ _ w4) as [[[]|] w6] eqn:H6; [|done].
  intros H. exists w2, r, w3, w4.
  split; [injection H1 as _ <-; injection H2 as _ <-; repeat split; simpl; lia|]. split; [done|].
  split; [injection H4 as _ <-; repeat split; simpl; lia|].
  revert H. destruct (send_response r _) as [[] ?]; by intros [= _ _ <-].
Qed.

Lemma ticks_log path pol log w w' : ticks w w' -> log_is path pol log (w_proc w) -> log_is path pol log (w_proc w').
Proof. by intros (_ & -> & _). Qed.

Lemma same_log_is path pol log p p' : same_log p p' -> log_is path pol log p -> log_is path pol log p'.
Proof.
  intros (Hd & Hw & Hc) (aw & base & Haw & (Ha & Hp & Hf & Hb) & Hpol & Hpl & Hlog).
  exists aw, base. unfold writes, file_at in *. rewrite Hd, Hw, Hc. done.
Qed.

(** What one command leaves in the log, and that replaying it keeps the
    two worlds alike. *)
Lemma dispatch_logged slot pm pol cmd frame s w rb s' w' log :
  enabled pm = true -> log_is (pm_path pm) pol log (w_proc w) ->
  clean_args (upcase (name cmd)) (args cmd) = true -> upcase (name cmd) <> b#"BGREWRITEAOF" ->
  dispatch (main_registry slot) (Some pm) cmd frame s w = (Ret (rb, s'), w') ->
  (log_is (pm_path pm) pol log (w_proc w') /\ forall v, alike t w v -> alike t w' v) \/
  (log_is (pm_path pm) pol (log ++ frame) (w_proc w') /\
   forall v, alike t w v -> exists v', replay_fn cmd v = (Ret (Ok tt), v') /\ alike t w' v').
Proof.
  intros He Hl Hc Hb Hd. destruct (dispatch_run _ _ _ _ _ _ _ _ _ Hd) as (w2 & r & w3 & w4 & Ht1 & Hr & Ht2 & Hlog).
  set (id := conn_client_id (conn s)) in *.
  apply (ticks_log _ _ _ _ _ Ht1) in Hl.
  assert (forall v, alike t w v -> alike t w2 v) as Hw by (intros v; by apply alike_ticks_l).
  unfold log_mutation, registry_is_mutation in Hlog. rewrite main_registry_lookup in Hlog. cbn [name] in Hlog.
  apply registry_find in Hr as [(e & -> & ->)|(c & Hf & Hrun & Ha)].
  { cbn [is_cmd_ok andb] in Hlog. injection Hlog as <-. left.
    split; [by eapply ticks_log|]. intros v Hv. eapply alike_ticks_l; [exact Ht2|]. by apply Hw. }
  cbn [name args] in *. rewrite Hf in Hlog. cbn [fmap option_fmap option_map default Datatypes.id] in Hlog.
  pose proof (main_find_In _ _ _ Hf) as [Hin Hname]. rewrite <- Hname in Hc, Hb.
  pose proof (log_same_command slot c (args cmd) Hin Hb w2) as Hsame. unfold after in Hsame. rewrite Hrun in Hsame.
  apply (same_log_is _ _ _ _ _ Hsame) in Hl. apply (ticks_log _ _ _ _ _ Ht2) in Hl.
  destruct (is_cmd_ok r && is_mutation c) eqn:Hlogged.
  - right. apply andb_true_iff in Hlogged as [Hok Hm].
    unfold log_command in Hlog. rewrite He in Hlog. cbn [negb] in Hlog.
    destruct (send_keeps (pm_path pm) pol log w4 (Record_ frame) I Hl) as (w5 & Hsend & (Hs & Hl5 & _) & _).
    cbv iota in Hlog. rewrite bind_run, Hsend in Hlog. injection Hlog as <-. split; [exact Hl5|].
    intros v Hv%Hw.
    destruct (mutation_replayed slot (name cmd) (args cmd) id (client_id cmd) w2 v c r w3) as (v' & Hv' & Hw'); [done..|].
    exists v'. split; [by destruct cmd|]. destruct Ht2 as (Hs2 & _). destruct Hw' as (? & ? & ?). unfold alike. by rewrite Hs, Hs2.
  - left. injection Hlog as <-. split; [done|]. intros v Hv%Hw. eapply alike_ticks_l; [exact Ht2|].
    eapply unlogged_alike; [exact Hin| |exact Hv|exact Hrun].
    apply andb_false_iff in Hlogged as [Hok|Hm]; [by right|by left].
Qed.

(** *** A whole session *)

(** The commands the recovery theorem covers. *)
Definition recoverable (x : ParsedCommand * bytes) : Prop :=
  is_frame x /\ fits x.2 /\ clean_args (upcase (name x.1)) (args x.1) = true /\
  upcase (name x.1) <> b#"BGREWRITEAOF".

(** Replaying [cs] from anything like [w] succeeds and ends in something
    like [w']. *)
Definition leads (cs : list ParsedCommand) (w w' : World) : Prop :=
  forall v, alike t w v -> can_run replay_fn cs v /\ forall v', replays replay_fn v cs v' -> alike t w' v'.

Lemma leads_nil w w' : (forall v, alike t w v -> alike t w' v) -> leads [] w w'.
Proof.
  intros H v Hv. split; [done|]. intros v' Hr. inversion Hr as [? ? Ht|]; subst.
  eapply alike_ticks; [exact Ht|]. by apply H.
Qed.

Lemma leads_skip cs w w1 w' : (forall v, alike t w v -> alike t w1 v) -> leads cs w1 w' -> leads cs w w'.
Proof. intros H1 H v Hv. by apply H, H1. Qed.

Lemma leads_cons c cs w w1 w' :
  (forall v, alike t w v -> exists v', replay_fn c v = (Ret (Ok tt), v') /\ alike t w1 v') ->
  leads cs w1 w' -> leads (c :: cs) w w'.
Proof.
  intros H1 H v Hv. split.
  - intros v1 Ht. destruct (H1 v1) as (v2 & Hr & Hv2); [by eapply alike_ticks|].
    eexists _, v2. split; [exact Hr|]. by apply H.
  - intros v' Hr. inversion Hr as [|? v1 ? r v2 ? ? Ht Hf Hr2]; subst.
    destruct (H1 v1) as (v3 & Hf3 & Hv3); [by eapply alike_ticks|].
    rewrite Hf in Hf3. injection Hf3 as -> <-. by eapply H.
Qed.

Lemma serve_all_logged slot pm pol xs s w rb s' w' log :
  enabled pm = true -> log_is (pm_path pm) pol log (w_proc w) -> Forall recoverable xs ->
  serve_all (main_registry slot) (Some pm) xs s w = (Ret (rb, s'), w') ->
  exists ys, ys `sublist_of` xs /\ log_is (pm_path pm) pol (log ++ concat (map snd ys)) (w_proc w') /\
    leads (map fst ys) w w'.
Proof.
  intros He. revert s w log. induction xs as [|[cmd frame] xs IH]; intros s w log Hl Hxs.
  { intros [= _ _ <-]. exists []. rewrite app_nil_r. split; [done|]. split; [done|]. by apply leads_nil. }
  apply Forall_cons in Hxs as [(_ & _ & Hc & Hb) Hxs]. cbn [fst] in *. cbn [serve_all]. rewrite bind_run.
  destruct (dispatch _ _ cmd frame s w) as [[[r s1]|] w1] eqn:Hd; [|done].
  intros Hrest.
  assert (forall log1, log_is (pm_path pm) pol log1 (w_proc w1) -> exists ys, ys `sublist_of` xs /\
    log_is (pm_path pm) pol (log1 ++ concat (map snd ys)) (w_proc w') /\ leads (map fst ys) w1 w') as Hgo.
  { intros log1 Hl1. destruct r as [[]|e]; [|by eapply IH|];
      (injection Hrest as _ _ <-; exists []; rewrite app_nil_r; split; [apply sublist_nil_l|]; split; [done|]; by apply leads_nil). }
  destruct (dispatch_logged slot pm pol cmd frame s w r s1 w1 log He Hl Hc Hb Hd) as [[Hl1 Hal]|[Hl1 Hal]];
    destruct (Hgo _ Hl1) as (ys & Hsub & Hlog & Hleads).
  - exists ys. split; [by constructor|]. split; [done|]. by eapply leads_skip.
  - exists ((cmd, frame) :: ys). split; [by constructor|]. cbn [map concat fst snd]. rewrite app_assoc.
    split; [done|]. by eapply leads_cons.
Qed.
End Recovery.


(** SET with a deadline, an INCR that fails, a HSET and a GET. *)
Definition demo_frame_of (l : list bytes) : ParsedCommand * bytes :=
  (mkParsedCommand (hd [] l) (tl l) 0, command_frame l).
Definition demo_commands : list (ParsedCommand * bytes) :=
  map demo_frame_of
    [[b#"SET"; b#"k"; b#"v"; b#"EX"; b#"5"]; [b#"INCR"; b#"k"]; [b#"HSET"; b#"h"; b#"f"; b#"x"]; [b#"GET"; b#"k"]].
Definition demo_fresh_log : Process :=
  mkProcess None {[b#"a.aof" := mkFile [] 0]}
    (Some (mkAofWriter (Appending (b#"a.aof")) [] Always demo_t (from_secs 1) (b#"a.aof"))) [].




(** The condition on the arguments is needed: MSET with a second key that
    is not text sets the first and replies with an error, and the server
    logs nothing. *)
Example mset_fails_halfway :
  exists s' w', dispatch (E := env_frozen demo_t) (main_registry (E := env_frozen demo_t) None) (Some (mkPersistenceManager true (b#"a.aof")))
      (mkParsedCommand (b#"MSET") [b#"a"; b#"1"; [of_u8 255]; b#"2"] 0) (b#"frame") demo_session (mkWorld empty_store 0 demo_fresh_log)
    = (Ret (Ok false, s'), w') /\ head (sent (stream (conn s'))) = Some BMINUS /\
    view demo_t (w_store w') !! (b#"a") = Some (VString (b#"1"), None) /\ channel (w_proc w') = [].
Proof. eexists _, _. split; [vm_compute; reflexivity|]. split; [|split]; vm_compute; reflexivity. Qed.
