(* ===== verification/Clients.v ===== *)
(** * Clients side by side

    Handlers of different connections interleave, also inside a command.
    What a handler does with one command: the command runs, step by step,
    a command that changes something under the read side of the rewrite
    barrier; after the barrier is released its frame goes to the log.
    [sys_step] are the steps of the whole: a command arrives, takes a step
    inside the store, has run; its frame is logged; a rewrite runs while no
    command that changes something is running; the writer task handles a
    message, its timer fires, time passes. *)

From S2P Require Import Prelude Numbers Utf8 Paths Errors Values World MemoryStore StoreInv StoreSpec StoreThms Protocol ProtocolLemmas ProtocolThms Command StringCommands TtlCommands HashCommands Persistence PersistThms ServerCommands Effects StoreEffects CommandThms RewriteThms ReplayThms Metrics Connection Server ServerThms RecoveryThms Steps StepThms Threads Schedules Calls.

(** What a handler is doing with the command of its client. *)
Inductive Handling : Type :=
| Running (cmd : ParsedCommand) (frame : bytes) (p : Prog CommandResult)
| ToLog (cmd : ParsedCommand) (frame : bytes).

Record System : Type := mkSystem {
  sys_world : World;
  handlers : gmap Uuid Handling
}.

Inductive Label : Type :=
| LArrive (id : Uuid) (cmd : ParsedCommand) (frame : bytes)
| LRun (id : Uuid) (cmd : ParsedCommand) (frame : bytes)     (* a command that will be logged has run *)
| LLog (id : Uuid) (cmd : ParsedCommand) (frame : bytes)
| LRewrite
| LOther.

#[global] Instance ParsedCommand_eq_dec : EqDecision ParsedCommand.
Proof. solve_decision. Defined.
#[global] Instance Label_eq_dec : EqDecision Label.
Proof. solve_decision. Defined.

Section Steps.
Context {E : Env} {Sh : Shards}.
Variable slot : option PersistenceManager.
Variable pm : PersistenceManager.

(** A command that succeeded and changes something is logged. *)
Definition to_log (cmd : ParsedCommand) (r : CommandResult) : bool :=
  is_cmd_ok r && registry_is_mutation (main_registry slot) (name cmd).

(** The write side of the barrier: no command that changes something runs. *)
Definition barrier_free (H : gmap Uuid Handling) : Prop :=
  map_Forall (fun _ h => match h with
    | Running cmd _ _ => registry_is_mutation (main_registry slot) (name cmd) = false
    | ToLog _ _ => True
    end) H.

Inductive sys_step : System -> Label -> System -> Prop :=
| step_arrive id cmd frame w H :
    H !! id = None -> upcase (name cmd) <> b#"BGREWRITEAOF" ->
    sys_step (mkSystem w H) (LArrive id cmd frame)
      (mkSystem w (<[id := Running cmd frame (command_code slot (mkParsedCommand (name cmd) (args cmd) id))]> H))
| step_act id cmd frame m p w w' H :
    H !! id = Some (Running cmd frame (Act m)) -> m w = (Ret p, w') ->
    sys_step (mkSystem w H) LOther (mkSystem w' (<[id := Running cmd frame p]> H))
| step_panic id cmd frame m w w' H :
    H !! id = Some (Running cmd frame (Act m)) -> m w = (Panic, w') ->
    sys_step (mkSystem w H) LOther (mkSystem w' (delete id H))
| step_run id cmd frame r w H :
    H !! id = Some (Running cmd frame (Steps.Done r)) -> to_log cmd r = true ->
    sys_step (mkSystem w H) (LRun id cmd frame) (mkSystem w (<[id := ToLog cmd frame]> H))
| step_quiet id cmd frame r w H :
    H !! id = Some (Running cmd frame (Steps.Done r)) -> to_log cmd r = false ->
    sys_step (mkSystem w H) LOther (mkSystem w (delete id H))
| step_log id cmd frame r w w' H :
    H !! id = Some (ToLog cmd frame) -> log_command pm frame w = (Ret r, w') ->
    sys_step (mkSystem w H) (LLog id cmd frame) (mkSystem w' (delete id H))
| step_rewrite id cmd r w w' H :
    H !! id = None -> barrier_free H -> upcase (name cmd) = b#"BGREWRITEAOF" ->
    registry_execute (main_registry slot) cmd w = (Ret r, w') ->
    sys_step (mkSystem w H) LRewrite (mkSystem w' H)
| step_writer r w w' H :
    writer_step w = (Ret r, w') -> sys_step (mkSystem w H) LOther (mkSystem w' H)
| step_timer w w' H :
    tick_step w = (Ret tt, w') -> sys_step (mkSystem w H) LOther (mkSystem w' H)
| step_clock w w' H : ticks w w' -> sys_step (mkSystem w H) LOther (mkSystem w' H).

Inductive sys_steps : System -> list Label -> System -> Prop :=
| steps_nil S : sys_steps S [] S
| steps_cons S l S1 ls S' : sys_step S l S1 -> sys_steps S1 ls S' -> sys_steps S (l :: ls) S'.

Lemma steps_one S l S' : sys_step S l S' -> sys_steps S [l] S'.
Proof. intros H. econstructor; [exact H|constructor]. Qed.

Lemma steps_app S ls S1 ls' S' : sys_steps S ls S1 -> sys_steps S1 ls' S' -> sys_steps S (ls ++ ls') S'.
Proof. induction 1; [done|]. intros. econstructor; eauto. Qed.

(** What has been logged; the commands of one client, run and logged; and
    the one it has yet to log. *)
Definition logged_cmds (ls : list Label) : list (Uuid * (ParsedCommand * bytes)) :=
  concat (map (fun l => match l with LLog id cmd frame => [(id, (cmd, frame))] | _ => [] end) ls).
Definition logged_frames (ls : list Label) : bytes := concat (map (fun x => x.2.2) (logged_cmds ls)).
Definition runs_of (id : Uuid) (ls : list Label) : list (ParsedCommand * bytes) :=
  concat (map (fun l => match l with LRun i cmd frame => if decide (i = id) then [(cmd, frame)] else [] | _ => [] end) ls).
Definition logs_of (id : Uuid) (ls : list Label) : list (ParsedCommand * bytes) :=
  concat (map (fun l => match l with LLog i cmd frame => if decide (i = id) then [(cmd, frame)] else [] | _ => [] end) ls).
Definition unlogged (S : System) (id : Uuid) : list (ParsedCommand * bytes) :=
  match handlers S !! id with Some (ToLog cmd frame) => [(cmd, frame)] | _ => [] end.

(** *** No step inside a command touches the log *)
Fixpoint quiet {A} (p : Prog A) : Prop :=
  match p with
  | Steps.Done _ => True
  | Act m => forall w, same_log (w_proc w) (w_proc (m w).2) /\ match (m w).1 with Ret p' => quiet p' | Panic => True end
  end.

Lemma quiet_bind {A B} (p : Prog A) (k : A -> Prog B) : quiet p -> (forall a, quiet (k a)) -> quiet (p ≫= k).
Proof.
  intros Hp Hk. revert Hp. unfold mbind, Prog_bind. induction p as [a|m IH] using Prog_steps_ind; [intros _; apply Hk|].
  cbn [quiet pbind]. intros Hp w. specialize (Hp w). specialize (IH w). destruct (m w) as [[p'|] w']; [|done].
  simpl in *. destruct Hp. split; [done|]. by apply IH.
Qed.

Lemma quiet_atomic {A} (m : M A) : log_same A m -> quiet (atomic m).
Proof. intros H w. cbn. rewrite bind_run. specialize (H w). unfold after in H. by destruct (m w) as [[]]. Qed.

(** A section under the lock of an entry. *)
Ltac quiet_section :=
  apply quiet_atomic; intros [s r p]; unfold after; run_simpl; repeat (case_match; simplify_eq/=; try done).
Ltac quiet_walk := repeat first [apply quiet_bind; [|intros ?] | done | quiet_section; done | case_match].

Lemma quiet_delete k : quiet (delete_p k).
Proof. unfold delete_p, found_expired. quiet_walk. Qed.

Lemma quiet_look {A} k (absent : A) live : (forall entry, log_same _ (live entry)) -> quiet (look_p k absent live).
Proof.
  intros Hl. unfold look_p. apply quiet_bind.
  - apply quiet_atomic. unfold look. apply eff_bind; [apply se_gets|]. intros [entry|]; [|apply eff_ret].
    apply eff_bind; [by intros [s r p]; unfold after; run_simpl; repeat (case_match; simplify_eq/=)|].
    intros []; [apply eff_ret|]. apply eff_bind; [apply Hl|]. intros a. apply eff_ret.
  - intros [a|]; [done|]. unfold ptry. apply quiet_bind; [apply quiet_delete|]. by intros [].
Qed.

Lemma quiet_read {A} (k : bytes) (absent : A) (op : string) (f : gmap bytes bytes -> M A) :
  (forall h, log_same _ (f h)) -> quiet (look_p k absent (read_hash op f)).
Proof.
  intros Hf. apply quiet_look. intros entry. unfold read_hash. destruct (as_hash (value entry)) as [h|e]; [|apply eff_ret].
  apply eff_bind; [apply Hf|]. intros a. apply eff_ret.
Qed.

Lemma quiet_each f l : (forall i, log_same _ (f i)) -> quiet (each f l).
Proof. intros H. induction l as [|i l IH]; [done|]. cbn [each]. apply quiet_bind; [by apply quiet_atomic|done]. Qed.

Lemma quiet_cleanup : quiet cleanup_expired_p.
Proof.
  unfold cleanup_expired_p. apply quiet_bind; [by apply quiet_atomic|]. intros t. apply quiet_bind; [by apply quiet_atomic|]. intros n.
  apply quiet_bind.
  - induction (seq 0 shards) as [|i l IH]; [done|]. cbn [collect_due]. apply quiet_bind; [by apply quiet_atomic|]. intros ks. by apply quiet_bind.
  - intros l. generalize 0. induction l as [|k l IH]; intros c; [done|]. cbn [delete_all_p]. do 2 (apply quiet_bind; [by apply quiet_atomic|intros ?]). apply IH.
Qed.

Lemma quiet_expire_at k d fl : quiet (expire_at_with_options_p k d fl).
Proof. unfold expire_at_with_options_p. apply quiet_look. intros entry w. unfold expire_entry. by case_match. Qed.
Lemma quiet_expire k n fl : quiet (expire_with_options_p k n fl).
Proof. unfold expire_with_options_p. apply quiet_bind; [quiet_section|]. intros d. apply quiet_expire_at. Qed.
Lemma quiet_set_with_options k v ttl ex : quiet (set_with_options_p k v ttl ex).
Proof. unfold set_with_options_p, resolve_keep, set_entry, make_stored. quiet_walk. Qed.
Lemma quiet_whole_read k : quiet (hgetall_p k).
Proof. unfold hgetall_p. apply quiet_read. intros h. apply se_iterate. Qed.

Lemma quiet_prog op : quiet (prog op).
Proof.
  destruct op; cbn [prog]; (apply quiet_bind; [|done]).
  - unfold set_p. quiet_walk.
  - apply quiet_set_with_options.
  - unfold set_with_ttl_p. quiet_walk.
  - unfold set_with_expiration_p. quiet_walk.
  - unfold get_p. apply quiet_look. intros entry. apply eff_ret.
  - apply quiet_delete.
  - unfold exists_p. apply quiet_look. intros entry. apply eff_ret.
  - apply quiet_expire.
  - apply quiet_expire_at.
  - unfold ttl_p. apply quiet_look. intros entry [s r p]. unfold after. run_simpl. by repeat (case_match; simplify_eq/=).
  - unfold pttl_p. apply quiet_look. intros entry [s r p]. unfold after. run_simpl. by repeat (case_match; simplify_eq/=).
  - unfold persist_p. apply quiet_look. intros entry w. done.
  - unfold incr_by_p, incr_entry. quiet_walk.
  - unfold hset_p, ptry, found_expired, hset_entry. apply quiet_bind; [quiet_section|]. intros expired. apply quiet_bind; [destruct expired; [apply quiet_delete|done]|].
    intros []; [quiet_section|done].
  - unfold hget_p. apply quiet_read. intros h. apply eff_ret.
  - unfold hdel_p, ptry, found_expired, hdel_flags, hdel_entry. apply quiet_bind; [quiet_section|]. intros []; [apply quiet_bind; [apply quiet_delete|by intros []]|].
    apply quiet_bind; [quiet_section|]. intros [[[[] []]|]|e]; try done; (apply quiet_bind; [|done]); try done. quiet_section.
  - apply quiet_whole_read.
  - unfold hexists_p. apply quiet_read. intros h. apply eff_ret.
  - unfold clear_p. by apply quiet_bind; [|intros ?]; apply quiet_each.
  - apply quiet_cleanup.
Qed.

Lemma quiet_calls c : quiet (calls_code c).
Proof. induction c as [r|op k IH]; [done|]. cbn [calls_code]. apply quiet_bind; [apply quiet_prog|done]. Qed.

Lemma quiet_por_return {A} (p : Prog (result bytes A)) k : quiet p -> (forall a, quiet (k a)) -> quiet (por_return p k).
Proof. intros Hp Hk. apply quiet_bind; [done|]. by intros []. Qed.
Lemma quiet_por_fail {A} (p : Prog (Result A)) k : quiet p -> (forall a, quiet (k a)) -> quiet (por_fail p k).
Proof. intros Hp Hk. apply quiet_bind; [done|]. by intros []. Qed.

Lemma quiet_expire_steps n call l : (forall k n fl, quiet (call k n fl)) -> quiet (expire_steps n call l).
Proof.
  intros H. unfold expire_steps. case_match; [done|]. apply quiet_por_return; [|intros key; apply quiet_por_return; [|intros x]].
  - apply quiet_atomic. unfold arg_str. by case_match.
  - apply quiet_atomic. unfold arg_u64. by case_match.
  - by apply quiet_por_return.
Qed.

Lemma quiet_whole_hash n reply l : quiet (whole_hash_steps n reply l).
Proof.
  destruct l as [|a [|b l]]; try done. apply quiet_por_return; [done|]. intros key. apply quiet_por_fail; [apply quiet_whole_read|done].
Qed.

Lemma quiet_set_plan l : quiet (plan_code (set_plan l)).
Proof.
  unfold set_plan. destruct l as [|a [|v opts]]; try done. repeat case_match; try done; cbn [plan_code].
  - apply quiet_calls.
  - apply quiet_por_return; [apply quiet_atomic, (se_resolve_ttl log_same)|]. intros ttl.
    apply quiet_por_fail; [apply quiet_set_with_options|done].
Qed.

Lemma quiet_plan_of c l :
  In c (main_commands slot ++ [CommandCommand 33]) -> cmd_name c <> b#"BGREWRITEAOF" -> quiet (plan_code (plan_of c l)).
Proof.
  intros Hin Hb. pose proof (log_same_command slot c l Hin Hb) as Hl.
  assert (forall k n fl, quiet (expire_at_call k n fl)) as Hat by (intros; apply quiet_por_fail; [apply quiet_expire_at|done]).
  unfold plan_of. destruct (List.find _ plans) as [[n f]|] eqn:Hf; [|by apply quiet_atomic].
  apply find_some in Hf as [Hf _]. clear Hl Hin Hb. unfold plans in Hf. cbn [In] in Hf.
  repeat destruct Hf as [Hf|Hf]; try (by destruct Hf); apply pair_equal_spec in Hf as [_ <-]; cbn [plan_code];
    first [apply quiet_calls | apply quiet_whole_hash | apply quiet_set_plan | idtac].
  - apply quiet_expire_steps. intros. apply quiet_por_fail; [apply quiet_expire|done].
  - apply quiet_expire_steps. intros. apply quiet_bind; [quiet_section|done].
  - apply quiet_expire_steps. intros. apply quiet_por_return; [apply quiet_atomic, (se_unix_target log_same)|done].
  - apply quiet_expire_steps. intros. apply quiet_por_return; [apply quiet_atomic, (se_unix_target log_same)|done].
Qed.

Lemma quiet_command cmd : upcase (name cmd) <> b#"BGREWRITEAOF" -> quiet (command_code slot cmd).
Proof.
  intros Hb. unfold command_code, plan. apply quiet_bind; [by apply quiet_atomic|]. intros _. rewrite main_registry_lookup.
  destruct (main_find slot (upcase (name cmd))) as [c|] eqn:Hf; [|done]. destruct (validate_arity cmd (arity c)); [|done].
  apply main_find_In in Hf as [Hin Hname]. apply quiet_plan_of; [done|]. by rewrite Hname.
Qed.

(** Every command that is running is quiet, in every reachable state. *)
Definition calm (S : System) : Prop :=
  map_Forall (fun _ h => match h with Running _ _ p => quiet p | ToLog _ _ => True end) (handlers S).

Lemma step_calm S l S' : sys_step S l S' -> calm S -> calm S'.
Proof.
  unfold calm. intros Hs HS.
  destruct Hs as [id cmd frame w H _ Hb|id cmd frame m p w w' H Hid Hm|id cmd frame m w w' H Hid Hm|id cmd frame r w H Hid _|id cmd frame r w H Hid _
    |id cmd frame r w w' H Hid _|id cmd r w w' H _ _ _ _|r w w' H _|w w' H _|w w' H _]; cbn [handlers] in *; try done;
    try (by apply map_Forall_delete); (apply map_Forall_insert_2; [|done]); [|destruct (HS _ _ Hid w) as [_ Hq]; by rewrite Hm in Hq|done].
  by apply quiet_command.
Qed.

(** One step and the log. *)
Lemma step_keeps_log `{!IoOk E} pol log S l S' :
  enabled pm = true -> calm S -> log_is (pm_path pm) pol log (w_proc (sys_world S)) -> sys_step S l S' -> l <> LRewrite ->
  log_is (pm_path pm) pol (log ++ logged_frames [l]) (w_proc (sys_world S')).
Proof.
  intros He HS Hl Hs Hne. unfold logged_frames, logged_cmds.
  destruct Hs as [id cmd frame w H _ Hb|id cmd frame m p w w' H Hid Hm|id cmd frame m w w' H Hid Hm|id cmd frame r w H Hid _|id cmd frame r w H Hid _
    |id cmd frame r w w' H Hid Hr|id cmd r w w' H _ _ _ _|r w w' H Hr|w w' H Hr|w w' H Ht]; cbn [sys_world map concat snd app] in *; rewrite ?app_nil_r; try done.
  - destruct (HS _ _ Hid w) as [Hq _]. rewrite Hm in Hq. by eapply same_log_is.
  - destruct (HS _ _ Hid w) as [Hq _]. rewrite Hm in Hq. by eapply same_log_is.
  - unfold log_command in Hr. rewrite He in Hr. cbn [negb] in Hr.
    destruct (send_keeps (pm_path pm) pol log w (Record_ frame) I Hl) as (w1 & Hsend & (_ & Hl1 & _) & _).
    rewrite Hsend in Hr. by injection Hr as _ <-.
  - destruct (writer_step_keeps (pm_path pm) pol log w Hl) as (r1 & w1 & Hr1 & (_ & Hl1 & _)).
    rewrite Hr1 in Hr. by injection Hr as _ <-.
  - destruct (tick_keeps (pm_path pm) pol log w Hl) as (w1 & Hr1 & (_ & Hl1 & _)).
    rewrite Hr1 in Hr. by injection Hr as <-.
  - by eapply ticks_log.
Qed.

(** One step and the commands of one client. *)
Lemma step_client S l S' id :
  sys_step S l S' -> unlogged S id ++ runs_of id [l] = logs_of id [l] ++ unlogged S' id.
Proof.
  unfold runs_of, logs_of, unlogged. cbn [map concat].
  destruct 1 as [i cmd frame w H Hi _|i cmd frame m p w w' H Hi Hm|i cmd frame m w w' H Hi Hm|i cmd frame r w H Hi _|i cmd frame r w H Hi _
    |i cmd frame r w w' H Hi Hr| | | |]; cbn [handlers]; rewrite ?app_nil_r; try done;
    (destruct (decide (i = id)) as [->|Hne];
      [rewrite ?Hi, ?lookup_insert_eq, ?lookup_delete_eq; done|rewrite ?lookup_insert_ne, ?lookup_delete_ne by done; by rewrite ?app_nil_r]).
Qed.

(** *** A handler on its own *)
Lemma acts_alone id cmd frame p q w w' H :
  psteps p w q w' ->
  exists n, sys_steps (mkSystem w (<[id := Running cmd frame p]> H)) (replicate n LOther) (mkSystem w' (<[id := Running cmd frame q]> H)).
Proof.
  induction 1 as [p w|m w p w1 q w2 Hm _ [n IH]]; [exists 0%nat; constructor|]. exists (S n). econstructor; [|exact IH].
  rewrite <- (insert_insert_eq H id (Running cmd frame p) (Running cmd frame (Act m))). eapply step_act; [apply lookup_insert_eq|exact Hm].
Qed.

Lemma run_alone id cmd frame w r w' H :
  H !! id = None -> upcase (name cmd) <> b#"BGREWRITEAOF" ->
  registry_execute (main_registry slot) (mkParsedCommand (name cmd) (args cmd) id) w = (Ret r, w') ->
  exists n, sys_steps (mkSystem w H) (LArrive id cmd frame :: replicate n LOther) (mkSystem w' (<[id := Running cmd frame (Steps.Done r)]> H)).
Proof.
  intros Hid Hb Hr. rewrite <- command_code_run in Hr. apply psteps_run in Hr. destruct (acts_alone id cmd frame _ _ _ _ H Hr) as [n Hn].
  exists n. econstructor; [by apply step_arrive|exact Hn].
Qed.

Lemma log_alone id cmd frame w r w' H :
  H !! id = Some (ToLog cmd frame) -> log_command pm frame w = (Ret r, w') ->
  sys_steps (mkSystem w H) [LLog id cmd frame] (mkSystem w' (delete id H)).
Proof. intros Hid Hr. apply steps_one. by eapply step_log. Qed.
End Steps.

(** The labels that matter. *)
Definition noted (ls : list Label) : list Label := filter (fun l => l <> LOther) ls.

Lemma noted_app ls ls' : noted (ls ++ ls') = noted ls ++ noted ls'.
Proof. apply filter_app. Qed.
Lemma noted_other n : noted (replicate n LOther) = [].
Proof. by induction n as [|n IH]. Qed.

Lemma concat_cons {A B} (f : A -> list B) x l : concat (map f (x :: l)) = concat (map f [x]) ++ concat (map f l).
Proof. cbn [map concat]. by rewrite app_nil_r. Qed.
Lemma logged_cmds_cons l ls : logged_cmds (l :: ls) = logged_cmds [l] ++ logged_cmds ls.
Proof. apply concat_cons. Qed.
Lemma logged_frames_cons l ls : logged_frames (l :: ls) = logged_frames [l] ++ logged_frames ls.
Proof. unfold logged_frames. by rewrite logged_cmds_cons, map_app, concat_app. Qed.

Lemma noted_forall (P : Label -> Prop) ls : P LOther -> Forall P (noted ls) -> Forall P ls.
Proof.
  intros Ho. induction ls as [|l ls IH]; [done|]. unfold noted in *. rewrite filter_cons. case_decide as Hl.
  - intros [H1 H2]%Forall_cons. constructor; [done|by apply IH].
  - intros H. constructor; [|by apply IH]. destruct (decide (l = LOther)) as [->|]; [done|by destruct Hl].
Qed.
Lemma noted_cmds ls : logged_cmds (noted ls) = logged_cmds ls.
Proof.
  induction ls as [|l ls IH]; [done|]. unfold noted in *. rewrite filter_cons. case_decide as Hl.
  - by rewrite (logged_cmds_cons l ls), logged_cmds_cons, IH.
  - destruct (decide (l = LOther)) as [->|]; [by rewrite IH|by destruct Hl].
Qed.
Lemma noted_logged ls : logged_frames (noted ls) = logged_frames ls.
Proof. unfold logged_frames. by rewrite noted_cmds. Qed.

(** Several steps. *)
Lemma clients_run {E : Env} {Sh : Shards} `{!IoOk E} slot pm pol log S ls S' :
  enabled pm = true -> calm S -> log_is (pm_path pm) pol log (w_proc (sys_world S)) ->
  sys_steps slot pm S ls S' -> Forall (fun l => l <> LRewrite) ls ->
  log_is (pm_path pm) pol (log ++ logged_frames ls) (w_proc (sys_world S')) /\
  forall id, unlogged S id ++ runs_of id ls = logs_of id ls ++ unlogged S' id.
Proof.
  intros He HS Hl Hs Hne. revert log HS Hl. induction Hs as [S|S l S1 ls S' Hstep Hs IH]; intros log HS Hl.
  - unfold logged_frames, runs_of, logs_of. simpl. split; [by rewrite app_nil_r|]. intros id. by rewrite app_nil_r.
  - apply Forall_cons in Hne as [Hl1 Hne].
    destruct (IH Hne _ (step_calm slot pm S l S1 Hstep HS) (step_keeps_log slot pm pol log S l S1 He HS Hl Hstep Hl1)) as [Hlog Hcl]. split.
    + by rewrite logged_frames_cons, app_assoc.
    + intros id. pose proof (step_client slot pm S l S1 id Hstep) as H1. specialize (Hcl id).
      unfold runs_of, logs_of in *. rewrite (concat_cons _ l ls), app_assoc, H1, <- app_assoc, Hcl, app_assoc.
      by rewrite <- concat_cons.
Qed.


(** C20: A handler is made of these steps. Serving one command other than
    BGREWRITEAOF, from the receipt of its frame to the reply, is a run of
    the steps of its client alone: the command arrives, and takes its
    steps; if it is logged, it has then run and its frame is logged. So
    the steps are where other clients can come in between. *)
Theorem dispatch_is_steps {E : Env} {Sh : Shards} (slot : option PersistenceManager) (pm : PersistenceManager) (cmd : ParsedCommand) (frame : bytes) (s : Session) (w : World) (H : gmap Uuid Handling) (rb : Result bool) (s' : Session) (w' : World) :
  H !! conn_client_id (conn s) = None -> upcase (name cmd) <> b#"BGREWRITEAOF" ->
  dispatch (main_registry slot) (Some pm) cmd frame s w = (Ret (rb, s'), w') ->
  let me := conn_client_id (conn s) in
  exists ls, sys_steps slot pm (mkSystem w H) ls (mkSystem w' H) /\
    (noted ls = [LArrive me cmd frame; LRun me cmd frame; LLog me cmd frame] \/ noted ls = [LArrive me cmd frame]).
Proof.
  intros HP Hb Hd me. destruct (dispatch_run _ _ _ _ _ _ _ _ _ Hd) as (w2 & r & w3 & w4 & Ht1 & Hr & Ht2 & Hlog).
  fold me in HP, Hr, Hlog. unfold log_mutation in Hlog. cbn [name] in Hlog.
  destruct (run_alone slot pm me cmd frame w2 r w3 H HP Hb Hr) as [n Hn].
  destruct (is_cmd_ok r && registry_is_mutation (main_registry slot) (name cmd)) eqn:Hm.
  - rewrite bind_run in Hlog. destruct (log_command pm frame w4) as [[r5|] w5] eqn:Hl; [|done]. injection Hlog as <-.
    exists (LOther :: (LArrive me cmd frame :: replicate n LOther) ++ [LRun me cmd frame; LOther; LLog me cmd frame]). split.
    + econstructor; [apply step_clock; exact Ht1|]. eapply steps_app; [exact Hn|].
      econstructor; [eapply step_run; [apply lookup_insert_eq|exact Hm]|]. rewrite insert_insert_eq.
      econstructor; [apply step_clock; exact Ht2|]. rewrite <- (delete_insert_id H me (ToLog cmd frame)) at 2 by exact HP.
      apply steps_one. eapply step_log; [apply lookup_insert_eq|exact Hl].
    + left. rewrite (app_comm_cons _ _ LOther), noted_app. change (LOther :: LArrive me cmd frame :: ?l) with ([LOther; LArrive me cmd frame] ++ l).
      by rewrite noted_app, noted_other.
  - injection Hlog as <-. exists (LOther :: (LArrive me cmd frame :: replicate n LOther) ++ [LOther; LOther]). split.
    + econstructor; [apply step_clock; exact Ht1|]. eapply steps_app; [exact Hn|].
      econstructor; [eapply step_quiet; [apply lookup_insert_eq|exact Hm]|]. rewrite delete_insert_id by done.
      apply steps_one, step_clock. exact Ht2.
    + right. rewrite (app_comm_cons _ _ LOther), noted_app. change (LOther :: LArrive me cmd frame :: ?l) with ([LOther; LArrive me cmd frame] ++ l).
      by rewrite noted_app, noted_other.
Qed.

(** ** Examples *)

(** A command that is logged, left alone until it has run. *)
Lemma runs_alone {E : Env} {Sh : Shards} slot pm id cmd frame w r w' H :
  H !! id = None -> upcase (name cmd) <> b#"BGREWRITEAOF" ->
  registry_execute (main_registry slot) (mkParsedCommand (name cmd) (args cmd) id) w = (Ret r, w') -> to_log slot cmd r = true ->
  exists ls, sys_steps slot pm (mkSystem w H) ls (mkSystem w' (<[id := ToLog cmd frame]> H)) /\
    noted ls = [LArrive id cmd frame; LRun id cmd frame].
Proof.
  intros Hid Hb Hr Hl. destruct (run_alone slot pm id cmd frame w r w' H Hid Hb Hr) as [n Hn].
  exists ((LArrive id cmd frame :: replicate n LOther) ++ [LRun id cmd frame]). split.
  - eapply steps_app; [exact Hn|]. apply steps_one. rewrite <- (insert_insert_eq H id (ToLog cmd frame) (Running cmd frame (Steps.Done r))).
    eapply step_run; [apply lookup_insert_eq|exact Hl].
  - rewrite noted_app. change (LArrive id cmd frame :: ?l) with ([LArrive id cmd frame] ++ l). by rewrite noted_app, noted_other.
Qed.

Definition demo_pm : PersistenceManager := mkPersistenceManager true (b#"a.aof").
Definition set_k (x : bytes) : ParsedCommand := mkParsedCommand (b#"SET") [b#"k"; x] 0.
Definition set_k_frame (x : bytes) : bytes := command_frame [b#"SET"; b#"k"; x].

#[local] Abbreviation demo_steps := (sys_steps (E := env_frozen demo_t) (Sh := two_shards)).

Lemma dispatch_is_steps_witness :
  exists rb s' w' ls,
    dispatch (E := env_frozen demo_t) (main_registry (E := env_frozen demo_t) None) (Some demo_pm) (set_k (b#"1")) (set_k_frame (b#"1"))
      demo_session (mkWorld empty_store 0 demo_fresh_log) = (Ret (rb, s'), w') /\
    demo_steps None demo_pm (mkSystem (mkWorld empty_store 0 demo_fresh_log) ∅) ls (mkSystem w' ∅).
Proof.
  destruct (dispatch (E := env_frozen demo_t) (main_registry (E := env_frozen demo_t) None) (Some demo_pm) (set_k (b#"1")) (set_k_frame (b#"1"))
      demo_session (mkWorld empty_store 0 demo_fresh_log)) as [[[rb s']|] w'] eqn:Hd; [|vm_compute in Hd; discriminate Hd].
  destruct (dispatch_is_steps (E := env_frozen demo_t) (Sh := two_shards) None demo_pm (set_k (b#"1")) (set_k_frame (b#"1")) demo_session
    (mkWorld empty_store 0 demo_fresh_log) ∅ rb s' w') as (ls & Hs & _).
  - reflexivity.
  - vm_compute. discriminate.
  - exact Hd.
  - exists rb, s', w', ls. split; [reflexivity|exact Hs].
Defined.

(** Clients 1 and 2 set the same key, and come to the log the other way
    round. *)
Definition crossing : list Label :=
  [LArrive 1 (set_k (b#"1")) (set_k_frame (b#"1")); LRun 1 (set_k (b#"1")) (set_k_frame (b#"1"));
   LArrive 2 (set_k (b#"2")) (set_k_frame (b#"2")); LRun 2 (set_k (b#"2")) (set_k_frame (b#"2"));
   LLog 2 (set_k (b#"2")) (set_k_frame (b#"2")); LLog 1 (set_k (b#"1")) (set_k_frame (b#"1"))].

Definition demo_run (slot : option PersistenceManager) (id : Uuid) (cmd : ParsedCommand) (w : World) : World :=
  (registry_execute (E := env_frozen demo_t) (main_registry (E := env_frozen demo_t) slot) (mkParsedCommand (name cmd) (args cmd) id) w).2.
Definition demo_start : World := mkWorld empty_store 0 demo_fresh_log.

Lemma crossing_run :
  exists ls S', demo_steps None demo_pm (mkSystem (mkWorld empty_store 0 demo_fresh_log) ∅) ls S' /\ noted ls = crossing /\
    handlers S' = ∅ /\ view demo_t (w_store (sys_world S')) !! (b#"k") = Some (VString (b#"2"), None) /\
    exists w2 w3, pm_flush (E := env_frozen demo_t) demo_pm (sys_world S') = (Ret (Ok tt), w2) /\
      replay_aof_file (E := env_frozen demo_t) (b#"a.aof") (replay_fn (E := env_frozen demo_t)) (mkWorld empty_store 0 (w_proc w2))
      = (Ret (Ok 2), w3) /\
      view demo_t (w_store w3) !! (b#"k") = Some (VString (b#"1"), None).
Proof.
  destruct (runs_alone (E := env_frozen demo_t) (Sh := two_shards) None demo_pm 1 (set_k (b#"1")) (set_k_frame (b#"1"))
    demo_start (ok_simple "OK") (demo_run None 1 (set_k (b#"1")) demo_start) ∅) as (ls1 & Hs1 & Hn1);
    [reflexivity|vm_compute; discriminate|vm_compute; reflexivity|reflexivity|].
  destruct (runs_alone (E := env_frozen demo_t) (Sh := two_shards) None demo_pm 2 (set_k (b#"2")) (set_k_frame (b#"2"))
    (demo_run None 1 (set_k (b#"1")) demo_start) (ok_simple "OK") (demo_run None 2 (set_k (b#"2")) (demo_run None 1 (set_k (b#"1")) demo_start))
    (<[1%N := ToLog (set_k (b#"1")) (set_k_frame (b#"1"))]> ∅)) as (ls2 & Hs2 & Hn2);
    [reflexivity|vm_compute; discriminate|vm_compute; reflexivity|reflexivity|].
  eexists (ls1 ++ ls2 ++ [LLog 2 (set_k (b#"2")) (set_k_frame (b#"2"))] ++ [LLog 1 (set_k (b#"1")) (set_k_frame (b#"1"))]), _. split.
  { eapply steps_app; [exact Hs1|]. eapply steps_app; [exact Hs2|].
    eapply steps_app; eapply log_alone; [reflexivity|vm_compute; reflexivity|reflexivity|vm_compute; reflexivity]. }
  split; [by rewrite !noted_app, Hn1, Hn2|].
  split; [vm_compute; reflexivity|]. split; [vm_compute; reflexivity|].
  eexists _, _. split; [vm_compute; reflexivity|]. split; [vm_compute; reflexivity|]. vm_compute. reflexivity.
Qed.


(** The log can end up in another order than the store. Two clients
    that set the same key can come to the log the other way round, because
    nothing is held from running a command to logging it: there is a run
    of two clients after which the store holds one value and a restart
    recovers the other. *)
Theorem log_order_can_cross :
  exists ls S' w2 w3 x y,
    demo_steps None demo_pm (mkSystem (mkWorld empty_store 0 demo_fresh_log) ∅) ls S' /\ noted ls = crossing /\
    handlers S' = ∅ /\ view demo_t (w_store (sys_world S')) !! (b#"k") = Some x /\
    pm_flush (E := env_frozen demo_t) demo_pm (sys_world S') = (Ret (Ok tt), w2) /\
    replay_aof_file (E := env_frozen demo_t) (b#"a.aof") (replay_fn (E := env_frozen demo_t)) (mkWorld empty_store 0 (w_proc w2))
    = (Ret (Ok 2), w3) /\
    view demo_t (w_store w3) !! (b#"k") = Some y /\ x <> y.
Proof.
  destruct crossing_run as (ls & S' & Hs & Hn & Hp & Hv & w2 & w3 & Hf & Hr & Hv3).
  exists ls, S', w2, w3, (VString (b#"2"), None), (VString (b#"1"), None). by repeat (split; [done|]).
Qed.

(** A rewrite between a command and its log entry: the effect is in the
    snapshot and the frame after it, and a restart applies it twice. *)
Definition incr_n : ParsedCommand := mkParsedCommand (b#"INCR") [b#"n"] 0.
Definition incr_n_frame : bytes := command_frame [b#"INCR"; b#"n"].
Definition bgrewrite : ParsedCommand := mkParsedCommand (b#"BGREWRITEAOF") [] 0.

