(* ===== verification/ClientRecovery.v ===== *)
(** * Recovery after concurrent clients

    Clients come to the log in another order than to the store, so a
    restart need not recover what was there ([Clients.log_order_can_cross]).
    When no two clients work on the same key it does
    ([concurrent_recovery]): what a client has done to its own keys depends
    on its own commands alone, in the order it sent them, and that is the
    order in which they are logged. *)

From S2P Require Import Prelude Numbers Utf8 Paths Errors Values World MemoryStore StoreInv StoreSpec StoreThms Protocol ProtocolLemmas ProtocolThms Command StringCommands TtlCommands HashCommands Persistence PersistThms ServerCommands Effects StoreEffects CommandThms RewriteThms ReplayThms Metrics Connection Server ServerThms RecoveryThms Steps StepThms Threads Schedules ThreadThms Linear Calls CommandSteps Clients.

(** ** An operation is about its key only *)

(** What a client sees of its own keys. *)
Definition own (owner : bytes -> Uuid) (i : Uuid) (a : AStore) : AStore := filter (fun kv => owner kv.1 = i) a.

Lemma own_lookup owner i a k : owner k = i -> own owner i a !! k = a !! k.
Proof.
  intros Hk. unfold own. destruct (a !! k) as [x|] eqn:Ha.
  - by apply map_lookup_filter_Some_2.
  - apply map_lookup_filter_None_2. by left.
Qed.

Lemma own_other owner i a k : owner k <> i -> own owner i a !! k = None.
Proof. intros Hk. apply map_lookup_filter_None_2. by right. Qed.

Lemma own_ext owner a b : (forall i, own owner i a = own owner i b) -> a = b.
Proof. intros H. apply map_eq. intros k. by rewrite <- (own_lookup owner (owner k) a k), <- (own_lookup owner (owner k) b k), H. Qed.

Lemma own_alter owner i a k f : owner k = i -> own owner i (partial_alter f k a) = partial_alter f k (own owner i a).
Proof.
  intros Hk. apply map_eq. intros j. destruct (decide (owner j = i)) as [Hj|Hj].
  - rewrite own_lookup by done. destruct (decide (k = j)) as [<-|Hne].
    + rewrite !lookup_partial_alter_eq. by rewrite own_lookup.
    + rewrite !lookup_partial_alter_ne by done. by rewrite own_lookup.
  - rewrite own_other by done. rewrite lookup_partial_alter_ne by (by intros ->). by rewrite own_other.
Qed.

Lemma own_alter_ne owner i a k f : owner k <> i -> own owner i (partial_alter f k a) = own owner i a.
Proof.
  intros Hk. apply map_eq. intros j. destruct (decide (owner j = i)) as [Hj|Hj].
  - rewrite !own_lookup by done. apply lookup_partial_alter_ne. by intros ->.
  - by rewrite !own_other.
Qed.

(** The effect in terms of the entry. *)
Lemma effect_at op k :
  timeless op -> op_key op = Some k ->
  exists g : option Live -> OpResult * option Live,
    forall a, effect op a = ((g (a !! k)).1, partial_alter (fun _ => (g (a !! k)).2) k a).
Proof.
  intros Ht Hk. exists (fun x => ((effect op (match x with Some x => {[k := x]} | None => ∅ end)).1,
    (effect op (match x with Some x => {[k := x]} | None => ∅ end)).2 !! k)).
  intros a. destruct op; try done; simplify_eq/=; unfold effect; cbn [spec]; unfold spec_ttl, spec_hash;
    destruct (a !! k) as [[v' d']|] eqn:Ha; rewrite ?lookup_singleton_eq, ?lookup_empty;
    repeat (case_match; simplify_eq/=); try done; f_equal;
    apply map_eq; intros j; (destruct (decide (k = j)) as [<-|Hne];
      [rewrite lookup_partial_alter_eq|rewrite lookup_partial_alter_ne by done]);
    unfold put; repeat case_match; rewrite ?lookup_insert_eq, ?lookup_insert_ne, ?lookup_delete_eq, ?lookup_delete_ne, ?lookup_singleton_eq, ?lookup_empty by done; try done.
  all: simpl; by rewrite lookup_insert_eq.
Qed.

Section Local.
Variable owner : bytes -> Uuid.

(** Every call is about a key of client [i]. *)
Fixpoint about (i : Uuid) (c : Calls) : Prop :=
  match c with
  | Reply _ => True
  | Ask op k => (exists key, op_key op = Some key /\ owner key = i) /\ forall r, about i (k r)
  end.

Lemma effect_local i op key a :
  timeless op -> op_key op = Some key -> owner key = i ->
  (effect op a).1 = (effect op (own owner i a)).1 /\ own owner i (effect op a).2 = (effect op (own owner i a)).2 /\
  forall j, j <> i -> own owner j (effect op a).2 = own owner j a.
Proof.
  intros Ht Hk Ho. destruct (effect_at op key Ht Hk) as [g Hg]. rewrite !Hg. cbn [fst snd]. rewrite own_lookup by done.
  split; [done|]. split; [by rewrite own_alter|]. intros j Hj. apply own_alter_ne. congruence.
Qed.

Lemma calls_local i c a :
  timeless_calls c -> about i c ->
  (calls_effect c a).1 = (calls_effect c (own owner i a)).1 /\ own owner i (calls_effect c a).2 = (calls_effect c (own owner i a)).2 /\
  forall j, j <> i -> own owner j (calls_effect c a).2 = own owner j a.
Proof.
  revert a. induction c as [r|op k IH]; intros a; [done|]. cbn [timeless_calls about calls_effect].
  intros [Ht Hts] [(key & Hk & Ho) Habs]. destruct (effect_local i op key a Ht Hk Ho) as (H1 & H2 & H3).
  destruct (IH (effect op a).1 (effect op a).2 (Hts _) (Habs _)) as (I1 & I2 & I3). rewrite <- H1, <- H2.
  split_and!; [done|done|]. intros j Hj. rewrite I3 by done. by apply H3.
Qed.
End Local.

(** ** Commands that are not logged change nothing *)

(** Without the right to change, a call reads; and only an error of the
    store makes the reply an error. *)
Definition fair (may_change : bool) (c : Calls) : Prop :=
  match c with
  | Reply _ => True
  | Ask op k => (may_change = false -> forall a, (effect op a).2 = a) /\
      forall r e, reply_of (k r) = Some (CmdError e) -> exists e', r = RErr e'
  end.

Lemma fair_text b a k : (forall s, fair b (k s)) -> fair b (text a k).
Proof. intros H. unfold text. by destruct (arg_text a). Qed.
Lemma fair_ask {A} b op (answer : OpResult -> option A) k :
  (b = false -> forall a, (effect op a).2 = a) -> (forall a e, reply_of (k a) <> Some (CmdError e)) -> fair b (ask op answer k).
Proof.
  intros Hr Hk. split; [done|]. intros r e. destruct r; simpl; try destruct (answer _) as [x|]; simpl; try done; eauto.
  all: intros H; by destruct (Hk _ _ H).
Qed.

Lemma fair_effect b c a :
  fair b c -> single c -> is_cmd_ok (calls_effect c a).1 && b = false -> (calls_effect c a).2 = a.
Proof.
  destruct c as [r|op k]; [done|]. intros [Hr Hk] Hs. cbn [calls_effect]. specialize (Hs (effect op a).1) as [x Hx].
  specialize (Hk (effect op a).1). destruct (k (effect op a).1) as [y|]; simplify_eq/=. intros Hb. destruct x as [v|e]; simpl in Hb.
  - by apply Hr.
  - destruct (Hk e eq_refl) as [e' He]. by apply (spec_err 0 op a e').
Qed.

Section Fair.
Context {E : Env} {Sh : Shards}.

Definition changing (n : bytes) : bool := is_one_of n [b#"SET"; b#"MSET"; b#"DEL"; b#"INCR"; b#"DECR"; b#"HSET"].

Lemma fair_trees n f l : (n, f) ∈ trees -> one_key n l -> fair (changing n) (f l).
Proof.
  unfold trees. intros Hin H1. repeat (apply elem_of_cons in Hin as [[= -> ->]|Hin]); [..|by apply elem_of_nil in Hin].
  all: destruct l as [|a [|b [|c [|d l]]]]; try done; cbn; repeat first [apply fair_text; intros ? | apply fair_ask; [done|done]].
Qed.

Lemma simple_cases cmd :
  simple cmd -> (exists f, (upcase (name cmd), f) ∈ trees) \/ (upcase (name cmd) = b#"SET" /\ untimed (drop 2 (args cmd))).
Proof.
  intros [Hn|[Hn Hu]%andb_True]%orb_True; [left|right].
  - unfold is_one_of in Hn. apply Is_true_true, existsb_exists in Hn as (n & Hin & Hn).
    destruct (bytes_eqb_spec (upcase (name cmd)) n) as [->|]; [|done]. apply in_map_iff in Hin as ([n' f] & Hn' & Hin). cbn in Hn'. subst n'.
    exists f. by apply list_elem_of_In.
  - by destruct (bytes_eqb_spec (upcase (name cmd)) (b#"SET")).
Qed.

Lemma changing_is slot cmd : simple cmd -> registry_is_mutation (main_registry slot) (name cmd) = changing (upcase (name cmd)).
Proof.
  intros Hs. unfold registry_is_mutation. rewrite main_registry_lookup. destruct (simple_cases cmd Hs) as [[f Hin]|[-> _]]; [|reflexivity].
  revert Hin. generalize (upcase (name cmd)). intros n Hin. unfold trees in Hin.
  repeat (apply elem_of_cons in Hin as [[= -> _]|Hin]; [reflexivity|]). by apply elem_of_nil in Hin.
Qed.

Lemma set_fair slot cmd :
  upcase (name cmd) = b#"SET" -> untimed (drop 2 (args cmd)) -> clean_args (b#"SET") (args cmd) = true -> fair true (tree slot cmd).
Proof.
  intros Hn Hu Hc. change (clean_args (b#"SET") (args cmd)) with
    (match parse_set_options (drop 2 (args cmd)) with Ok o => negb (opt_get o) | Err _ => true end) in Hc.
  unfold tree, plan. rewrite main_registry_lookup, Hn.
  assert (exists c, main_find slot (b#"SET") = Some c /\ forall l, plan_of c l = set_plan l) as (c & -> & Hp) by (eexists; split; reflexivity).
  destruct (validate_arity cmd (arity c)) as [_|e]; [|done]. rewrite Hp. destruct (args cmd) as [|a [|v opts]]; [done..|].
  cbn [set_plan]. change (drop 2 (a :: v :: opts)) with opts in *. unfold untimed in Hu. destruct (arg_text a); [|done].
  destruct (parse_set_options opts) as [o|e]; [|done]. apply bool_decide_unpack in Hu as [ttl Ht]. rewrite Ht.
  apply fair_ask; [done|]. intros x e. unfold reply_outcome. destruct (opt_get o); [done|]. simpl. by destruct x as [[] ?].
Qed.

(** The commands recovery is proved for here. *)
Definition steady_cmd (cmd : ParsedCommand) : Prop := at_once cmd /\ clean_args (upcase (name cmd)) (args cmd) = true.

Lemma steady_fair slot cmd : steady_cmd cmd -> fair (changing (upcase (name cmd))) (tree slot cmd) /\ single (tree slot cmd).
Proof.
  intros [Ho Hc]. pose proof (proj1 (andb_True _ _) Ho) as [Hs H1]. split.
  - destruct (simple_cases cmd Hs) as [[f Hin]|[Hn Hu]]; [|rewrite Hn in Hc |- *; by apply set_fair].
    unfold tree. destruct (tree_of slot cmd _ f Hin eq_refl) as [(e & ->)|Heq]; [done|]. rewrite Heq. by apply fair_trees.
  - unfold tree. destruct (simple_tree slot cmd Hs) as (c & -> & _ & Hsg). by apply Hsg.
Qed.

Lemma unlogged_effect slot cmd a :
  steady_cmd cmd -> to_log slot cmd (calls_effect (tree slot cmd) a).1 = false -> (calls_effect (tree slot cmd) a).2 = a.
Proof.
  intros Hst. pose proof (proj1 (proj1 (andb_True _ _) (proj1 Hst))) as Hs. unfold to_log. rewrite changing_is by done.
  destruct (steady_fair slot cmd Hst) as [Hf H1]. by apply fair_effect.
Qed.
End Fair.

(** ** What each client has done *)
Definition apply_cmds {E : Env} (slot : option PersistenceManager) (cs : list ParsedCommand) (a : AStore) : AStore :=
  foldl (fun a cmd => (calls_effect (tree slot cmd) a).2) a cs.

Section Invariant.
Context {E : Env} {Sh : Shards} `{!EnvOk E, !IoOk E}.
Variable slot : option PersistenceManager.
Variable pm : PersistenceManager.
Variable owner : bytes -> Uuid.

(** A command of client [i] that works on the keys of [i]. *)
Definition good (i : Uuid) (cmd : ParsedCommand) (frame : bytes) : Prop :=
  steady_cmd cmd /\ recoverable (cmd, frame) /\ about owner i (tree slot cmd).

Lemma good_timeless i cmd frame : good i cmd frame -> timeless_calls (tree slot cmd).
Proof.
  intros ([Ho _] & _). pose proof (proj1 (proj1 (andb_True _ _) Ho)) as Hs. unfold tree.
  by destruct (simple_tree slot cmd Hs) as (c & -> & Ht & _).
Qed.

Definition at_client (i : Uuid) (a : AStore) (done_ : list ParsedCommand) (h : option Handling) : Prop :=
  match h with
  | Some (Running cmd frame p) =>
      good i cmd frame /\ exists c, tracks p c /\ timeless_calls c /\ about owner i c /\
        calls_effect c (own owner i a) = calls_effect (tree slot cmd) (apply_cmds slot done_ ∅)
  | Some (ToLog cmd frame) => good i cmd frame /\ to_log slot cmd (CmdOk Nil) = true /\ own owner i a = apply_cmds slot done_ ∅
  | None => own owner i a = apply_cmds slot done_ ∅
  end.

Record inv (S : System) (rs : Uuid -> list ParsedCommand) : Prop := {
  inv_plain : plain (w_store (sys_world S));
  inv_calm : calm S;
  inv_client : forall i, at_client i (contents (w_store (sys_world S))) (rs i) (handlers S !! i)
}.

(** A step of one client that leaves the keys of the others alone. *)
Lemma at_client_own i a a' done_ h : own owner i a' = own owner i a -> at_client i a done_ h -> at_client i a' done_ h.
Proof. intros He. unfold at_client. rewrite He. done. Qed.

Lemma client_update (H : gmap Uuid Handling) a a' (rs rs' : Uuid -> list ParsedCommand) id h :
  (forall j, j <> id -> own owner j a' = own owner j a) -> (forall j, j <> id -> rs' j = rs j) ->
  at_client id a' (rs' id) h -> (forall i, at_client i a (rs i) (H !! i)) ->
  forall i, at_client i a' (rs' i) (partial_alter (fun _ => h) id H !! i).
Proof.
  intros Ho Hrs Hid HH i. destruct (decide (id = i)) as [<-|Hne]; [by rewrite lookup_partial_alter_eq|].
  rewrite lookup_partial_alter_ne by done. rewrite Hrs by done. eapply at_client_own; [by apply Ho|apply HH].
Qed.

Lemma tree_client cmd id : tree slot (mkParsedCommand (name cmd) (args cmd) id) = tree slot cmd.
Proof. by destruct cmd. Qed.

(** The world changes, the store does not. *)
Lemma inv_world w w' H rs : w_store w' = w_store w -> inv (mkSystem w H) rs -> inv (mkSystem w' H) rs.
Proof. intros Hs [Hp Hc Hi]. split; cbn [sys_world handlers] in *; rewrite ?Hs; done. Qed.

(** One client goes on, in a way that leaves the keys of the others alone. *)
Lemma inv_update w w' H rs rs' id h :
  inv (mkSystem w H) rs -> calm (mkSystem w' (partial_alter (fun _ => h) id H)) -> plain (w_store w') ->
  (forall j, j <> id -> own owner j (contents (w_store w')) = own owner j (contents (w_store w))) -> (forall j, j <> id -> rs' j = rs j) ->
  at_client id (contents (w_store w')) (rs' id) h ->
  inv (mkSystem w' (partial_alter (fun _ => h) id H)) rs'.
Proof. intros [_ _ Hi] Hc Hp Ho Hrs Hid. split; [done|done|]. by eapply client_update. Qed.

Lemma inv_arrive w H rs id cmd frame :
  inv (mkSystem w H) rs -> H !! id = None -> good id cmd frame ->
  calm (mkSystem w (<[id := Running cmd frame (command_code slot (mkParsedCommand (name cmd) (args cmd) id))]> H)) ->
  inv (mkSystem w (<[id := Running cmd frame (command_code slot (mkParsedCommand (name cmd) (args cmd) id))]> H)) rs.
Proof.
  intros HI Hid Hg Hc. eapply inv_update; [exact HI|exact Hc|apply HI|done..|].
  split; [done|]. exists (tree slot cmd). pose proof (inv_client _ _ HI id) as Hcl. cbn [handlers sys_world] in Hcl. rewrite Hid in Hcl.
  cbn [at_client] in Hcl. rewrite Hcl. pose proof Hg as ([Ho _] & _ & Hab). split_and!; [|by eapply good_timeless|done|done].
  rewrite <- (tree_client cmd id). apply command_tracks. by destruct (proj1 (andb_True _ _) Ho).
Qed.

Lemma inv_act w w' H rs id cmd frame m p :
  inv (mkSystem w H) rs -> H !! id = Some (Running cmd frame (Act m)) -> m w = (Ret p, w') ->
  calm (mkSystem w' (<[id := Running cmd frame p]> H)) -> inv (mkSystem w' (<[id := Running cmd frame p]> H)) rs.
Proof.
  intros HI Hid Hm Hc. pose proof (inv_client _ _ HI id) as Hcl. cbn [handlers sys_world] in Hcl. rewrite Hid in Hcl.
  destruct Hcl as (Hg & c & Ht & Htl & Hab & Heq). specialize (Ht w (inv_plain _ _ HI)). rewrite Hm in Ht.
  destruct Ht as (Hp' & [[Hsame Ht]|(op & k & -> & Heff & Ht)]).
  - eapply inv_update; [exact HI|exact Hc|exact Hp'|by rewrite Hsame|done|]. split; [done|]. exists c. rewrite Hsame. split_and!; [exact Ht|exact Htl|exact Hab|exact Heq].
  - destruct Htl as [Htop Htl], Hab as [(key & Hk & Ho) Hab].
    destruct (effect_local owner id op key (contents (w_store w)) Htop Hk Ho) as (H1 & H2 & H3).
    eapply inv_update; [exact HI|exact Hc|exact Hp'|rewrite Heff; exact H3|done|]. split; [done|]. eexists. split; [exact Ht|].
    split_and!; [apply Htl|apply Hab|]. rewrite Heff, H2, H1. exact Heq.
Qed.

Lemma inv_finish w H rs id cmd frame r :
  inv (mkSystem w H) rs -> H !! id = Some (Running cmd frame (Steps.Done r)) ->
  good id cmd frame /\ calls_effect (tree slot cmd) (apply_cmds slot (rs id) ∅) = (r, own owner id (contents (w_store w))).
Proof.
  intros HI Hid. pose proof (inv_client _ _ HI id) as Hcl. cbn [handlers sys_world] in Hcl. rewrite Hid in Hcl.
  destruct Hcl as (Hg & c & -> & _ & _ & Heq). by rewrite <- Heq.
Qed.

Lemma inv_step pol log S l S' rs rs' :
  enabled pm = true -> log_is (pm_path pm) pol log (w_proc (sys_world S)) -> inv S rs -> sys_step slot pm S l S' -> l <> LRewrite ->
  (forall id cmd frame, l = LArrive id cmd frame -> good id cmd frame) ->
  (forall i, rs' i = rs i ++ map fst (runs_of i [l])) ->
  inv S' rs' /\ (forall id cmd frame, l = LLog id cmd frame -> good id cmd frame /\ to_log slot cmd (CmdOk Nil) = true).
Proof.
  intros He Hl HI Hs Hne Ha Hrs. pose proof (step_calm slot pm _ _ _ Hs (inv_calm _ _ HI)) as Hc.
  assert ((forall id cmd frame, l <> LRun id cmd frame) -> forall i, rs' i = rs i) as Hsame.
  { intros Hn i. rewrite Hrs. destruct l; cbn; rewrite ?app_nil_r; try done. by destruct (Hn id cmd frame). }
  assert ((forall id cmd frame, l <> LRun id cmd frame) -> forall S, inv S rs -> inv S rs') as Hinv.
  { intros Hn S0 [? ? H0]. split; [done|done|]. intros i. rewrite Hsame by done. apply H0. }
  destruct Hs as [id cmd frame w H Hid Hb|id cmd frame m p w w' H Hid Hm|id cmd frame m w w' H Hid Hm|id cmd frame r w H Hid Hto|id cmd frame r w H Hid Hto
    |id cmd frame r w w' H Hid Hr|id cmd r w w' H _ _ _ _|r w w' H Hr|w w' H Hr|w w' H Ht]; cbn [sys_world] in *.
  - split; [|done]. apply Hinv; [done|]. by apply inv_arrive; [| |apply Ha|].
  - split; [|done]. apply Hinv; [done|]. by eapply inv_act.
  - exfalso. pose proof (inv_client _ _ HI id) as Hcl. cbn [handlers sys_world] in Hcl. rewrite Hid in Hcl.
    destruct Hcl as (_ & c & Htr & _). specialize (Htr w (inv_plain _ _ HI)). by rewrite Hm in Htr.
  - split; [|done]. destruct (inv_finish _ _ _ _ _ _ _ HI Hid) as [Hg Heq].
    eapply inv_update; [exact HI|exact Hc|apply HI|done| |].
    + intros j Hj. rewrite Hrs. cbn. rewrite decide_False by done. by rewrite app_nil_r.
    + split; [done|]. split; [unfold to_log in *; apply andb_true_iff in Hto as [_ Hto]; by rewrite Hto|].
      rewrite Hrs. cbn. rewrite decide_True by done. unfold apply_cmds. rewrite app_nil_r, foldl_app. cbn [map foldl fst].
      fold (apply_cmds slot (rs id) ∅). by rewrite Heq.
  - split; [|done]. apply Hinv; [done|]. destruct (inv_finish _ _ _ _ _ _ _ HI Hid) as [Hg Heq].
    eapply inv_update; [exact HI|exact Hc|apply HI|done|done|]. cbn [at_client].
    pose proof (unlogged_effect slot cmd (apply_cmds slot (rs id) ∅) (proj1 Hg)) as Hu. rewrite Heq in Hu. by apply Hu.
  - pose proof (inv_client _ _ HI id) as Hcl. cbn [handlers sys_world] in Hcl. rewrite Hid in Hcl. destruct Hcl as (Hg & Hto & Heq).
    split; [|by intros ? ? ? [= <- <- <-]]. apply Hinv; [done|].
    unfold log_command in Hr. rewrite He in Hr. cbn [negb] in Hr.
    destruct (send_keeps (pm_path pm) pol log w (Record_ frame) I Hl) as (w1 & Hsend & (Hst & _) & _).
    rewrite Hsend in Hr. injection Hr as _ <-. apply (inv_world w w1); [done|].
    eapply inv_update; [exact HI|exact Hc|apply HI|done|done|exact Heq].
  - done.
  - split; [|done]. apply Hinv; [done|]. destruct (writer_step_keeps (pm_path pm) pol log w Hl) as (r1 & w1 & Hr1 & (Hst & _)).
    rewrite Hr1 in Hr. injection Hr as _ <-. by apply (inv_world w w1).
  - split; [|done]. apply Hinv; [done|]. destruct (tick_keeps (pm_path pm) pol log w Hl) as (w1 & Hr1 & (Hst & _)).
    rewrite Hr1 in Hr. injection Hr as <-. by apply (inv_world w w1).
  - split; [|done]. apply Hinv; [done|]. destruct Ht as (Hst & _). by apply (inv_world w w').
Qed.

(** The commands that can be in the log. *)
Definition good_entry (x : Uuid * (ParsedCommand * bytes)) : Prop :=
  good x.1 x.2.1 x.2.2 /\ to_log slot x.2.1 (CmdOk Nil) = true.

Lemma inv_steps pol log S ls S' rs :
  enabled pm = true -> log_is (pm_path pm) pol log (w_proc (sys_world S)) -> inv S rs -> sys_steps slot pm S ls S' ->
  Forall (fun l => l <> LRewrite) ls -> (forall id cmd frame, LArrive id cmd frame ∈ ls -> good id cmd frame) ->
  inv S' (fun i => rs i ++ map fst (runs_of i ls)) /\ Forall good_entry (logged_cmds ls).
Proof.
  intros He Hl HI Hs. revert log rs Hl HI. induction Hs as [S|S l S1 ls S' Hstep Hs IH]; intros log rs Hl HI Hne Ha.
  - split; [|apply Forall_nil_2]. destruct HI as [? ? Hi]. split; [done|done|]. intros i. cbn. rewrite app_nil_r. apply Hi.
  - apply Forall_cons in Hne as [Hn1 Hne].
    destruct (inv_step pol log S l S1 rs (fun i => rs i ++ map fst (runs_of i [l]))) as [HI1 Hg1]; [done..| |done|].
    { intros id cmd frame ->. apply Ha. left. }
    destruct (IH (log ++ logged_frames [l]) (fun i => rs i ++ map fst (runs_of i [l]))) as [HI' Hg'].
    + by eapply step_keeps_log; [| |apply HI|..].
    + done.
    + done.
    + intros id cmd frame Hin. apply Ha. by right.
    + split.
      * destruct HI' as [? ? Hi]. split; [done|done|]. intros i. specialize (Hi i). unfold runs_of in *.
        rewrite (concat_cons _ l ls), map_app, app_assoc. exact Hi.
      * rewrite logged_cmds_cons. apply Forall_app. split; [|done]. destruct l; try apply Forall_nil_2.
        apply Forall_singleton. by apply Hg1.
Qed.

(** ** Replaying *)
Lemma replay_effect cmd w :
  simple cmd -> to_log slot cmd (CmdOk Nil) = true -> plain (w_store w) ->
  exists w', replay_fn cmd w = (Ret (Ok tt), w') /\ plain (w_store w') /\
    contents (w_store w') = (calls_effect (tree slot cmd) (contents (w_store w))).2.
Proof.
  intros Hs Hto Hp. destruct (tracks_run _ _ w (command_tracks slot cmd Hs) Hp) as (w1 & Hr & Hp1 & Hc1). exists w1. split; [|split; [exact Hp1|exact Hc1]].
  rewrite command_code_run in Hr. unfold replay_fn. rewrite bind_run.
  unfold to_log, registry_is_mutation in Hto. cbn [is_cmd_ok andb] in Hto. rewrite main_registry_lookup in Hto.
  destruct (main_find slot (upcase (name cmd))) as [c|] eqn:Hf; [|discriminate Hto]. unfold registry_execute in *. rewrite main_registry_lookup, Hf in Hr.
  rewrite (replay_finds slot _ _ Hf Hto), Hr. reflexivity.
Qed.

Lemma replay_effects cs w :
  Forall (fun cmd => simple cmd /\ to_log slot cmd (CmdOk Nil) = true) cs -> plain (w_store w) ->
  can_run replay_fn cs w /\
  forall w', replays replay_fn w cs w' -> contents (w_store w') = apply_cmds slot cs (contents (w_store w)).
Proof.
  intros Hcs. revert w. induction Hcs as [|cmd cs [Hs Hto] _ IH]; intros w Hp.
  - split; [done|]. intros w' Hr. inversion Hr as [? ? (Hst & _)|]; subst. by rewrite Hst.
  - assert (forall w1, ticks w w1 -> exists w2, replay_fn cmd w1 = (Ret (Ok tt), w2) /\ plain (w_store w2) /\
      contents (w_store w2) = (calls_effect (tree slot cmd) (contents (w_store w))).2) as H1.
    { intros w1 (Hst & _). rewrite <- Hst. apply replay_effect; [done..|]. by rewrite Hst. }
    split.
    + intros w1 Ht. destruct (H1 w1 Ht) as (w2 & Hr & Hp2 & _). eexists _, w2. split; [done|]. by apply IH.
    + intros w' Hr. inversion Hr as [|? w1 ? r w2 ? ? Ht Hf Hr2]; subst. destruct (H1 w1 Ht) as (w3 & Hf3 & Hp3 & Hc3).
      rewrite Hf in Hf3. injection Hf3 as -> <-. destruct (IH w2 Hp3) as [_ Hall]. rewrite (Hall w' Hr2), Hc3. done.
Qed.

(** The commands of the others do not touch the keys of a client. *)
Lemma apply_local i xs a :
  Forall good_entry xs ->
  own owner i (apply_cmds slot (map (fun x => x.2.1) xs) a)
  = apply_cmds slot (map (fun x => x.2.1) (filter (fun x => x.1 = i) xs)) (own owner i a).
Proof.
  intros Hxs. revert a. induction Hxs as [|[j [cmd frame]] xs [Hg _] _ IH]; intros a; [done|].
  change (apply_cmds slot (map (fun x => x.2.1) ((j, (cmd, frame)) :: xs)) a)
    with (apply_cmds slot (map (fun x => x.2.1) xs) (calls_effect (tree slot cmd) a).2). rewrite IH. cbn [fst snd] in Hg.
  destruct (calls_local owner j (tree slot cmd) a) as (_ & H2 & H3); [by eapply good_timeless|apply Hg|].
  rewrite filter_cons. cbn [fst snd]. case_decide as Hj.
  - subst j. by rewrite H2.
  - by rewrite H3.
Qed.

Lemma logs_of_filter i ls : logs_of i ls = map snd (filter (fun x => x.1 = i) (logged_cmds ls)).
Proof.
  induction ls as [|l ls IH]; [done|]. unfold logs_of in *. rewrite concat_cons, logged_cmds_cons, filter_app, map_app, IH. f_equal.
  destruct l as [| |id cmd frame| |]; try done. unfold logged_cmds. cbn [map concat app]. rewrite filter_cons, app_nil_r. cbn [fst]. by case_decide.
Qed.
End Invariant.


(** Clients 1 and 2 with a key each; the log has their commands the other
    way round. *)
Definition set_of (k x : bytes) : ParsedCommand := mkParsedCommand (b#"SET") [k; x] 0.
Definition set_of_frame (k x : bytes) : bytes := command_frame [b#"SET"; k; x].
Definition demo_owner (k : bytes) : Uuid := if bool_decide (k = b#"a") then 1%N else 2%N.

Lemma demo_good_a : good (E := env_frozen demo_t) None demo_owner 1 (set_of (b#"a") (b#"1")) (set_of_frame (b#"a") (b#"1")).
Proof.
  split; [split; [vm_compute; exact I|vm_compute; reflexivity]|]. split.
  - split; [vm_compute; reflexivity|]. split; [vm_compute; discriminate|]. split; [vm_compute; reflexivity|vm_compute; discriminate].
  - assert (tree (E := env_frozen demo_t) None (set_of (b#"a") (b#"1"))
      = ask (OSetOpt (b#"a") (VString (b#"1")) TNone SAlways) the_outcome (fun x => Reply (reply_outcome false x))) as -> by (vm_compute; reflexivity).
    split; [by eexists|]. intros []; simpl; exact I.
Qed.

Lemma demo_good_b : good (E := env_frozen demo_t) None demo_owner 2 (set_of (b#"b") (b#"2")) (set_of_frame (b#"b") (b#"2")).
Proof.
  split; [split; [vm_compute; exact I|vm_compute; reflexivity]|]. split.
  - split; [vm_compute; reflexivity|]. split; [vm_compute; discriminate|]. split; [vm_compute; reflexivity|vm_compute; discriminate].
  - assert (tree (E := env_frozen demo_t) None (set_of (b#"b") (b#"2"))
      = ask (OSetOpt (b#"b") (VString (b#"2")) TNone SAlways) the_outcome (fun x => Reply (reply_outcome false x))) as -> by (vm_compute; reflexivity).
    split; [by eexists|]. intros []; simpl; exact I.
Qed.

