(* ===== verification/Config.v ===== *)
(** * Configuration (src/src/config.rs)

    The settings, their defaults, how they are loaded and when they are
    refused.  The [config] crate that merges the sources, the TOML
    serializer and the file system are parameters. *)

From S2P Require Import Prelude Numbers Utf8 Paths Errors Values World Protocol Persistence.

Inductive LogFormat : Type := Json | Pretty | Compact.

Record ServerConfig : Type := mkServerConfig {
  port : Z;
  bind_address : bytes;
  cfg_max_connections : Z;
  worker_threads : option Z
}.

Record StorageConfig : Type := mkStorageConfig {
  aof_enabled : bool;
  aof_path : bytes;
  aof_fsync_policy : FsyncPolicy
}.

Record NetworkConfig : Type := mkNetworkConfig {
  tcp_nodelay : bool;
  tcp_keepalive : bool;
  read_timeout : Z;
  write_timeout : Z;
  cfg_max_bulk_size : Z;
  cfg_max_array_length : Z;
  cfg_max_buffer_size : Z;
  idle_timeout : Z
}.

Record LoggingConfig : Type := mkLoggingConfig {
  level : bytes;
  format : LogFormat;
  log_path : option bytes
}.

Record Config : Type := mkConfig {
  server : ServerConfig;
  storage : StorageConfig;
  network_c : NetworkConfig;
  logging : LoggingConfig
}.

(** ** Defaults *)
Definition default_max_bulk_size : Z := 512 * 1024 * 1024.
Definition default_max_array_length : Z := 1048576.
Definition default_max_buffer_size : Z := 64 * 1024 * 1024.
Definition default_idle_timeout : Z := 300.

Definition default_server : ServerConfig := mkServerConfig 6379 (b#"127.0.0.1") 10000 None.
Definition default_storage : StorageConfig := mkStorageConfig true (b#"rustypotato.aof") EverySecond.
Definition default_network : NetworkConfig :=
  mkNetworkConfig true true 30 30 default_max_bulk_size default_max_array_length default_max_buffer_size
    default_idle_timeout.
Definition default_logging : LoggingConfig := mkLoggingConfig (b#"info") Pretty None.
Definition default_config : Config := mkConfig default_server default_storage default_network default_logging.

Definition config_error (message : bytes) (key : bytes) : RustyPotatoError := ConfigError message (Some key) None.

(** ** Validation *)
Definition validate_server (c : ServerConfig) : Result unit :=
  if bool_decide (bind_address c = []) then
    Err (config_error (b#"Bind address cannot be empty") (b#"server.bind_address"))
  else if cfg_max_connections c =? 0 then
    Err (config_error (b#"Max connections must be greater than 0") (b#"server.max_connections"))
  else
    match worker_threads c with
    | Some threads =>
        if threads =? 0 then
          Err (config_error (b#"Worker threads must be greater than 0") (b#"server.worker_threads"))
        else Ok tt
    | None => Ok tt
    end.

Definition validate_network (c : NetworkConfig) : Result unit :=
  if read_timeout c =? 0 then
    Err (config_error (b#"Read timeout must be greater than 0") (b#"network.read_timeout"))
  else if write_timeout c =? 0 then
    Err (config_error (b#"Write timeout must be greater than 0") (b#"network.write_timeout"))
  else Ok tt.

Definition log_levels : list bytes := [b#"trace"; b#"debug"; b#"info"; b#"warn"; b#"error"].

Section Files.
(** [Path::exists] and [str::to_lowercase]. *)
Variable path_exists : bytes -> bool.
Variable to_lowercase : bytes -> bytes.

Definition validate_storage (c : StorageConfig) : Result unit :=
  if aof_enabled c then
    match path_parent (aof_path c) with
    | Some parent =>
        if negb (bool_decide (parent = [])) && negb (path_exists parent) then
          Err (config_error (b#"AOF directory does not exist: " ++ path_display parent) (b#"persistence.aof_path"))
        else Ok tt
    | None => Ok tt
    end
  else Ok tt.

Definition validate_logging (c : LoggingConfig) : Result unit :=
  if negb (bool_decide (to_lowercase (level c) ∈ log_levels)) then
    Err (config_error (b#"Invalid log level: " ++ level c ++ b#". Must be one of: trace, debug, info, warn, error")
           (b#"logging.level"))
  else
    match log_path c with
    | Some path =>
        match path_parent path with
        | Some parent =>
            if negb (path_exists parent) then
              Err (config_error (b#"Log directory does not exist: " ++ path_display parent) (b#"logging.file_path"))
            else Ok tt
        | None => Ok tt
        end
    | None => Ok tt
    end.

(** [?] in code without effects. *)
Definition and_then {A B} (r : Result A) (k : A -> Result B) : Result B :=
  match r with Ok a => k a | Err e => Err e end.

Definition validate (c : Config) : Result unit :=
  and_then (validate_server (server c)) (fun _ =>
  and_then (validate_storage (storage c)) (fun _ =>
  and_then (validate_network (network_c c)) (fun _ =>
  and_then (validate_logging (logging c)) (fun _ => Ok tt)))).

(** ** Loading *)

(** [dirs::config_dir]. *)
Variable config_dir : option bytes.

Definition candidates : list bytes :=
  [b#"rustypotato.toml"; b#"config/rustypotato.toml"; b#"/etc/rustypotato/rustypotato.toml"].

Definition find_config_file : option bytes :=
  match config_dir with
  | Some dir => List.find path_exists (candidates ++ [join (join dir (b#"rustypotato")) (b#"rustypotato.toml")])
  | None => List.find path_exists candidates
  end.

(** What the [config] crate is asked to merge, later sources first in
    precedence. *)
Variable Value : Type.
Inductive Source : Type :=
| DefaultsSource (v : Value)
| FileSource (path : bytes)
| EnvironmentSource (prefix prefix_separator separator : bytes) (try_parsing : bool).

(** The crate: [Config::try_from], [ConfigBuilder::build] and
    [Config::try_deserialize], with the text of their errors. *)
Variable try_from : Config -> result bytes Value.
Variable build : list Source -> result bytes Value.
Variable try_deserialize : Value -> result bytes Config.

Definition from_config_error (e : bytes) : RustyPotatoError := ConfigError e None (Some e).

Definition config_file_path (config_path : option bytes) : bytes :=
  match config_path with
  | Some p => p
  | None => match find_config_file with Some p => p | None => b#"rustypotato.toml" end
  end.

Definition environment : Source := EnvironmentSource (b#"RUSTYPOTATO") (b#"_") (b#".") true.

Definition load_from_file (config_path : option bytes) : Result Config :=
  match try_from default_config with
  | Err e => Err (from_config_error e)
  | Ok defaults =>
      let builder := [DefaultsSource defaults] in
      let path := config_file_path config_path in
      let builder := if path_exists path then builder ++ [FileSource path] else builder in
      let builder := builder ++ [environment] in
      match build builder with
      | Err e => Err (ConfigError (b#"Failed to build configuration: " ++ e) None (Some e))
      | Ok config =>
          match try_deserialize config with
          | Err e => Err (ConfigError (b#"Failed to parse configuration: " ++ e) None (Some e))
          | Ok parsed_config => and_then (validate parsed_config) (fun _ => Ok parsed_config)
          end
      end
  end.

Definition load : Result Config := load_from_file None.

End Files.

(** ** A sample file *)
Section Sample.
Context {E : Env}.

(** [toml::to_string_pretty]. *)
Variable to_string_pretty : Config -> result bytes bytes.

(** [std::fs::write]: create or truncate, then write all. *)
Definition fs_write (path data : bytes) (fail : bytes -> RustyPotatoError) : M (Result unit) :=
  _ ←? io_do (fun d => <[path := mkFile [] 0]> d) fail;
  write_all (Appending path) data fail.

Definition create_sample_config (path : bytes) : M (Result unit) :=
  match to_string_pretty default_config with
  | Err e => mret (Err (ConfigError (b#"Failed to serialize sample config: " ++ e) None (Some e)))
  | Ok toml_content =>
      _ ←? fs_write path toml_content
             (fun e => ConfigError (b#"Failed to write sample config: " ++ e) None (Some e));
      mret (Ok tt)
  end.
End Sample.

(** The limits a connection's decoder is given (network/server.rs). *)
Definition codec_limits (c : Config) : CodecLimits :=
  mkCodecLimits (cfg_max_bulk_size (network_c c)) (cfg_max_array_length (network_c c)) (cfg_max_buffer_size (network_c c)).
