(* ===== verification/ConfigThms.v ===== *)
(** * Theorems about the configuration

    What a loaded configuration is known to satisfy, that the defaults are
    always acceptable, and that a log file named without a directory is
    not. *)

From S2P Require Import Prelude Numbers Utf8 Paths Errors Values World Protocol Persistence Config.

Lemma and_then_ok {A B} (r : Result A) (k : A -> Result B) b :
  and_then r k = Ok b <-> exists a, r = Ok a /\ k a = Ok b.
Proof. destruct r; simpl; split; [by eexists|by intros (? & [= ->] & ?)|done|by intros (? & ? & ?)]. Qed.

Section Spec.
Variable path_exists : bytes -> bool.
Variable to_lowercase : bytes -> bytes.

(** What is asked of each group of settings. *)
Definition server_ok (c : ServerConfig) : Prop :=
  bind_address c <> [] /\ cfg_max_connections c <> 0 /\ worker_threads c <> Some 0.

(** A directory that is named must be there. *)
Definition aof_dir_ok (c : StorageConfig) : Prop :=
  aof_enabled c = true -> forall d, path_parent (aof_path c) = Some d -> d <> [] -> path_exists d = true.

Definition timeouts_ok (c : NetworkConfig) : Prop := read_timeout c <> 0 /\ write_timeout c <> 0.

Definition logging_ok (c : LoggingConfig) : Prop :=
  to_lowercase (level c) ∈ log_levels /\
  forall p d, log_path c = Some p -> path_parent p = Some d -> path_exists d = true.

Definition config_ok (c : Config) : Prop :=
  server_ok (server c) /\ aof_dir_ok (storage c) /\ timeouts_ok (network_c c) /\ logging_ok (logging c).

Lemma validate_server_ok c : validate_server c = Ok tt <-> server_ok c.
Proof.
  unfold validate_server, server_ok. case_bool_decide; [naive_solver|].
  destruct (Z.eqb_spec (cfg_max_connections c) 0); [naive_solver|].
  destruct (worker_threads c) as [th|]; [|naive_solver]. destruct (Z.eqb_spec th 0); naive_solver.
Qed.

Lemma validate_storage_ok c : validate_storage path_exists c = Ok tt <-> aof_dir_ok c.
Proof.
  unfold validate_storage, aof_dir_ok. destruct (aof_enabled c); [|naive_solver].
  destruct (path_parent (aof_path c)) as [d|]; [|naive_solver].
  case_bool_decide as Hne; simpl; [naive_solver|]. destruct (path_exists d) eqn:Hd; simpl.
  - split; [|done]. by intros _ _ d' [= <-].
  - split; [done|]. intros H. specialize (H eq_refl d eq_refl Hne). congruence.
Qed.

Lemma validate_network_ok c : validate_network c = Ok tt <-> timeouts_ok c.
Proof.
  unfold validate_network, timeouts_ok. destruct (Z.eqb_spec (read_timeout c) 0); [naive_solver|].
  destruct (Z.eqb_spec (write_timeout c) 0); naive_solver.
Qed.

Lemma validate_logging_ok c : validate_logging path_exists to_lowercase c = Ok tt <-> logging_ok c.
Proof.
  unfold validate_logging, logging_ok. case_bool_decide; simpl; [|naive_solver].
  destruct (log_path c) as [p|]; [|naive_solver]. destruct (path_parent p) as [d|] eqn:Hp; [|naive_solver].
  destruct (path_exists d) eqn:Hd; simpl; split; try done.
  - intros _. split; [done|]. intros p' d' [= <-]. rewrite Hp. by intros [= <-].
  - intros [_ H']. specialize (H' p d eq_refl Hp). congruence.
Qed.

Lemma validate_ok c : validate path_exists to_lowercase c = Ok tt <-> config_ok c.
Proof.
  unfold validate, config_ok. rewrite <- validate_server_ok, <- validate_storage_ok, <- validate_network_ok, <- validate_logging_ok.
  destruct (validate_server _) as [[]|]; simpl; [|naive_solver].
  destruct (validate_storage _ _) as [[]|]; simpl; [|naive_solver].
  destruct (validate_network _) as [[]|]; simpl; [|naive_solver].
  destruct (validate_logging _ _ _) as [[]|]; simpl; naive_solver.
Qed.

(** Every refusal is a configuration error. *)
Lemma validate_category c e : validate path_exists to_lowercase c = Err e -> exists m k, e = config_error m k.
Proof.
  unfold validate, and_then, validate_server, validate_storage, validate_network, validate_logging.
  repeat case_match; intros; simplify_eq; by eexists _, _.
Qed.
End Spec.

(** C38: What a loaded configuration guarantees. Loading succeeds exactly
    when the sources (the defaults, then the chosen file if it is there,
    then the environment) merge and parse to a configuration with a bind
    address, at least one connection, no zero worker count, an existing
    directory for the log of commands if that is on and names one, nonzero
    timeouts, a known log level and an existing directory for the log
    file; otherwise it fails, and always with a configuration error. *)
Theorem load_accepts_iff (path_exists : bytes -> bool) (to_lowercase : bytes -> bytes) (config_dir : option bytes) (Value : Type) (try_from : Config -> result bytes Value) (build : list (Source Value) -> result bytes Value) (try_deserialize : Value -> result bytes Config) (config_path : option bytes) :
  let chosen := config_file_path path_exists config_dir config_path in
  let loaded := load_from_file path_exists to_lowercase config_dir Value try_from build try_deserialize config_path in
  (forall c, loaded = Ok c <->
    exists d v, try_from default_config = Ok d /\
      build (DefaultsSource Value d :: (if path_exists chosen then [FileSource Value chosen] else []) ++ [environment Value]) = Ok v /\
      try_deserialize v = Ok c /\ config_ok path_exists to_lowercase c) /\
  (forall e, loaded = Err e -> category e = Configuration).
Proof.
  intros chosen loaded. unfold loaded, load_from_file. fold chosen.
  destruct (try_from default_config) as [d|e0].
  2:{ split; [intros c; split; [done|by intros (? & ? & [=] & _)]|by intros e [= <-]]. }
  replace ((if path_exists chosen then [DefaultsSource Value d] ++ [FileSource Value chosen] else [DefaultsSource Value d]) ++ [environment Value])
    with (DefaultsSource Value d :: (if path_exists chosen then [FileSource Value chosen] else []) ++ [environment Value])
    by by destruct (path_exists chosen).
  destruct (build _) as [v|e0] eqn:Hb.
  2:{ split; [intros c; split; [done|intros (? & ? & [= <-] & Hb' & _); congruence]|by intros e [= <-]]. }
  destruct (try_deserialize v) as [c0|e0] eqn:Ht.
  2:{ split; [intros c; split; [done|intros (? & v' & [= <-] & Hb' & Ht' & _); congruence]|by intros e [= <-]]. }
  split.
  - intros c. rewrite and_then_ok. split.
    + intros ([] & Hv & [= ->]). exists d, v. by rewrite <- validate_ok.
    + intros (d' & v' & [= <-] & Hb' & Ht' & Hc). rewrite <- validate_ok in Hc. exists tt.
      assert (c0 = c) as -> by congruence. done.
  - intros e. destruct (validate _ _ c0) as [|e1] eqn:Hv; simpl; [done|]. intros [= <-].
    by destruct (validate_category _ _ _ _ Hv) as (m & k & ->).
Qed.

(** A crate that merges by taking the last source that has a value, and a
    system where only the current directory's file exists. *)
Lemma load_accepts_iff_witness :
  load_from_file (fun p => bytes_eqb p (b#"rustypotato.toml")) to_ascii_lowercase None Config (fun c => Ok c)
    (fun l => match l with DefaultsSource _ d :: FileSource _ p :: _ => Ok d | _ => Err (b#"no file") end) (fun c => Ok c) None
  = Ok default_config.
Proof.
  apply (load_accepts_iff (fun p => bytes_eqb p (b#"rustypotato.toml")) to_ascii_lowercase None Config (fun c => Ok c)
    (fun l => match l with DefaultsSource _ d :: FileSource _ p :: _ => Ok d | _ => Err (b#"no file") end) (fun c => Ok c) None).
  exists default_config, default_config. split; [reflexivity|]. split; [reflexivity|]. split; [reflexivity|].
  apply validate_ok. reflexivity.
Defined.

(** The defaults are acceptable wherever the server runs: with no file
    and nothing in the environment, whatever directories exist, the
    default configuration validates, and the decoder limits it gives the
    connections are those of the codec's own defaults. *)
Theorem default_config_accepted (path_exists : bytes -> bool) (to_lowercase : bytes -> bytes) :
  (forall s, is_ascii s = true -> to_lowercase s = to_ascii_lowercase s) ->
  validate path_exists to_lowercase default_config = Ok tt /\ codec_limits default_config = default_limits.
Proof.
  intros Hl. split; [|done]. apply validate_ok. split; [done|]. split; [|split; [done|]].
  - intros _ d. rewrite parent_of_bare by done. by intros [= <-].
  - split; [|done]. rewrite Hl by done. vm_compute. set_solver.
Qed.

Lemma default_config_accepted_witness :
  validate (fun _ => false) to_ascii_lowercase default_config = Ok tt /\ codec_limits default_config = default_limits.
Proof. apply (default_config_accepted (fun _ => false) to_ascii_lowercase). intros s _. reflexivity. Defined.

(** A log file named without a directory is refused. Where the empty
    path does not exist, no configuration whose log file is a bare name,
    such as rustypotato.log, validates: its directory is the empty path,
    which unlike for the log of commands is looked up. *)
Theorem bare_log_name_rejected (path_exists : bytes -> bool) (to_lowercase : bytes -> bytes) (c : Config) (n : bytes) :
  path_exists [] = false -> log_path (logging c) = Some n -> bare_name n ->
  exists m k, validate path_exists to_lowercase c = Err (config_error m k).
Proof.
  intros He Hp Hb. destruct (validate path_exists to_lowercase c) as [[]|e] eqn:Hv.
  - apply validate_ok in Hv as (_ & _ & _ & _ & Hd). specialize (Hd n [] Hp (parent_of_bare n Hb)). congruence.
  - destruct (validate_category _ _ _ _ Hv) as (m & k & ->). by eexists _, _.
Qed.

Lemma bare_log_name_rejected_witness :
  exists m k, validate (fun _ => false) to_ascii_lowercase
    (mkConfig default_server default_storage default_network (mkLoggingConfig (b#"info") Pretty (Some (b#"rustypotato.log"))))
  = Err (config_error m k).
Proof.
  apply (bare_log_name_rejected (fun _ => false) to_ascii_lowercase _ (b#"rustypotato.log")).
  - reflexivity.
  - reflexivity.
  - split; [discriminate|reflexivity].
Defined.
