(* ===== verification/Lifecycle.v ===== *)
(** * The server from start to shutdown (src/src/network/server.rs, src/src/lib.rs)

    [TcpServer] around the accept loop and [RustyPotatoServer] around it.
    What other tasks do to the pool while a loop waits is an input: the
    size of the pool at each poll.  [sleep] is no event of its own; what
    it guarantees about the clock is a hypothesis of the theorems. *)

From S2P Require Import Prelude Numbers Errors Values World MemoryStore Protocol Command Persistence ServerCommands Metrics Connection Server Config.

Record TcpServer : Type := mkTcpServer {
  ts_config : Config;
  ts_pool : ConnectionPool;
  ts_metrics : MetricsCollector;
  ts_persistence : option PersistenceManager;
  listening_addr : option bytes
}.

Definition tcp_with_metrics (c : Config) (m : MetricsCollector) : TcpServer :=
  mkTcpServer c (new_pool (Z.to_nat (cfg_max_connections (server c)))) m None None.

Definition tcp_with_persistence (s : TcpServer) (p : PersistenceManager) : TcpServer :=
  mkTcpServer (ts_config s) (ts_pool s) (ts_metrics s) (Some p) (listening_addr s).

Definition with_listening (s : TcpServer) (a : bytes) : TcpServer :=
  mkTcpServer (ts_config s) (ts_pool s) (ts_metrics s) (ts_persistence s) (Some a).

Definition with_pool (s : TcpServer) (p : ConnectionPool) (m : MetricsCollector) : TcpServer :=
  mkTcpServer (ts_config s) p m (ts_persistence s) (listening_addr s).

Definition is_running (s : TcpServer) : bool := bool_decide (is_Some (listening_addr s)).

(** ["{}:{}"] of the address and the port. *)
Definition bind_address_text (c : Config) : bytes :=
  bind_address (server c) ++ b#":" ++ dec (port (server c)).

Record TcpServerStats : Type := mkTcpServerStats {
  st_active_connections : nat;
  st_max_connections : Z;
  st_total_connections_accepted : Z;
  st_bind_address : bytes
}.

Definition tcp_stats (s : TcpServer) : TcpServerStats :=
  mkTcpServerStats (active_connections (ts_pool s)) (cfg_max_connections (server (ts_config s)))
    (total_connections_accepted (ts_pool s)) (bind_address_text (ts_config s)).

(** The period of the idle evictor, in seconds. *)
Definition scan_interval (idle_timeout_secs : Z) : Duration := from_secs (Z.max (idle_timeout_secs / 4) 1).

(** What [TcpListener::bind] and [local_addr] come to. *)
Inductive BindOutcome : Type :=
| Bound (local_addr : bytes)
| BindFailed (e : bytes)
| AddrFailed (e : bytes).

Definition tcp_bind (s : TcpServer) (o : BindOutcome) : Result TcpServer :=
  let bind_addr := bind_address_text (ts_config s) in
  match o with
  | BindFailed e => Err (network_error (b#"Failed to bind to " ++ bind_addr ++ b#": " ++ e) (Some e))
  | AddrFailed e => Err (network_error (b#"Failed to get local address: " ++ e) (Some e))
  | Bound a => Ok (with_listening s a)
  end.

(** ** The accept loop *)

(** What the [select!] of the loop yields, and what the tasks it spawned
    do to the shared pool in between: a handler that ends, the evictor. *)
Inductive ServerEvent : Type :=
| Accepted (id : Uuid) (t : TcpStream) (addr : bytes)
| AcceptFailed (e : bytes)
| HandlerEnded (id : Uuid)
| EvictorTick
| ShutdownReceived.

Section Loop.
Context {E : Env}.
Variable visit : gmap Uuid ClientConnection -> list (Uuid * ClientConnection).

(** The server after the event, and whether the accept loop goes on. *)
Definition server_step (ev : ServerEvent) (s : TcpServer) : M (bool * TcpServer) :=
  match ev with
  | Accepted id t addr =>
      '(r, _, p, m) ← accept_connection id t addr (ts_pool s) (ts_metrics s);
      mret (true, with_pool s p m)
  | AcceptFailed _ => mret (true, s)
  | HandlerEnded id =>
      let '(p, m) := finish_connection id (ts_pool s) (ts_metrics s) in
      mret (true, with_pool s p m)
  | EvictorTick =>
      '(_, p) ← evict_idle visit (from_secs (idle_timeout (network_c (ts_config s)))) (ts_pool s);
      mret (true, with_pool s p (ts_metrics s))
  | ShutdownReceived => mret (false, s)
  end.

(** [true]: the events are used up and the loop waits for the next. *)
Fixpoint accept_loop (evs : list ServerEvent) (s : TcpServer) : M (bool * TcpServer) :=
  match evs with
  | [] => mret (true, s)
  | ev :: rest =>
      '(go_on, s) ← server_step ev s;
      if (go_on : bool) then accept_loop rest s else mret (false, s)
  end.

(** ** Waiting for the connections to end *)
Inductive DrainResult : Type :=
| Drained
| DrainTimeout
| OutOfFuel.

Definition DRAIN_TIMEOUT : Duration := from_secs 30.

(** [drain_connections]: [active k] connections at the [k]-th poll. *)
Fixpoint drain_loop (fuel : nat) (active : nat -> nat) (k : nat) (start : Instant) : M DrainResult :=
  match fuel with
  | O => mret OutOfFuel
  | S n =>
      if (0 <? active k)%nat then
        e ← elapsed start;
        if DRAIN_TIMEOUT <? e then mret DrainTimeout
        else drain_loop n active (S k) start
      else mret Drained
  end.

Definition drain_connections (fuel : nat) (active : nat -> nat) : M DrainResult :=
  start ← now; drain_loop fuel active 0 start.

(** The loop and, once it was told to stop, the drain. *)
Definition run_server_loop (evs : list ServerEvent) (fuel : nat) (active : nat -> nat) (s : TcpServer) :
    M (option DrainResult * TcpServer) :=
  '(waiting, s) ← accept_loop evs s;
  if (waiting : bool) then mret (None, s)
  else d ← drain_connections fuel active; mret (Some d, s).

(** The loop of [RustyPotatoServer::shutdown]. *)
Fixpoint shutdown_loop (fuel : nat) (active : nat -> nat) (k : nat) (drain_start : Instant) : M DrainResult :=
  match fuel with
  | O => mret OutOfFuel
  | S n =>
      if (active k =? 0)%nat then mret Drained
      else
        e ← elapsed drain_start;
        if DRAIN_TIMEOUT <=? e then mret DrainTimeout
        else shutdown_loop n active (S k) drain_start
  end.

(** ** The whole server *)
Record RustyPotatoServer : Type := mkRustyPotatoServer {
  rp_config : Config;
  rp_registry : CommandRegistry;
  rp_persistence : option PersistenceManager;
  bgrewrite_slot : option PersistenceManager;   (* a [OnceLock] *)
  tcp_server : option TcpServer
}.

(** [with_components_internal], on empty slots. *)
Definition new_server (c : Config) (m : MetricsCollector) : RustyPotatoServer :=
  mkRustyPotatoServer c (main_registry None) None None (Some (tcp_with_metrics c m)).

(** The registry's BGREWRITEAOF reads the slot; setting the slot a second
    time does nothing. *)
Definition with_persistence (s : RustyPotatoServer) (p : PersistenceManager) : RustyPotatoServer :=
  let slot := match bgrewrite_slot s with Some q => Some q | None => Some p end in
  mkRustyPotatoServer (rp_config s) (main_registry slot) (Some p) slot
    ((fun t => tcp_with_persistence t p) <$> tcp_server s).

(** [open] with the configuration's settings. *)
Definition open_server (c : Config) (m : MetricsCollector) : M (Result RustyPotatoServer) :=
  let s := new_server c m in
  r ←? open (aof_enabled (storage c)) (aof_path (storage c)) (aof_fsync_policy (storage c));
  mret (Ok (match r with Some p => with_persistence s p | None => s end)).

Definition already_started : RustyPotatoError :=
  InternalError (b#"Server already started or not properly initialized") (Some (b#"server")) None.

(** [start] up to the accept loop: the inner server is taken. *)
Definition start (s : RustyPotatoServer) (o : BindOutcome) : Result TcpServer * RustyPotatoServer :=
  match tcp_server s with
  | Some t => (tcp_bind t o, mkRustyPotatoServer (rp_config s) (rp_registry s) (rp_persistence s) (bgrewrite_slot s) None)
  | None => (Err already_started, s)
  end.

(** [shutdown]: the drain, then the log; its error is only reported. *)
Definition shutdown (fuel : nat) (active : nat -> nat) (s : RustyPotatoServer) : M (DrainResult * Result unit) :=
  drain_start ← now;
  d ← shutdown_loop fuel active 0 drain_start;
  match rp_persistence s with
  | Some p => _ ← pm_shutdown p; mret (d, Ok tt)
  | None => mret (d, Ok tt)
  end.

Record ServerStats : Type := mkServerStats {
  registered_commands : nat;
  stat_names : list bytes;
  config_summary : bytes
}.

Definition server_stats (s : RustyPotatoServer) : M ServerStats :=
  names ← command_names (rp_registry s);
  mret (mkServerStats (command_count (rp_registry s)) names (bind_address_text (rp_config s))).
End Loop.
