(* ===== verification/LifecycleThms.v ===== *)
(** * Theorems about starting and stopping

    The two drain loops end, the shutdown leaves the log complete on the
    device, and a server starts once. *)

From S2P Require Import Prelude Numbers Errors Values World MemoryStore Protocol Command Persistence PersistThms RewriteThms ServerCommands Metrics Connection Server Config Lifecycle.

Section Drain.
Context {E : Env} `{!EnvOk E}.

(** Both loops, with the test on the time passed as a parameter. *)
Fixpoint poll_loop (late : Duration -> bool) (fuel : nat) (active : nat -> nat) (k : nat) (start : Instant) : M DrainResult :=
  match fuel with
  | O => mret OutOfFuel
  | S n =>
      if (active k =? 0)%nat then mret Drained
      else e ← elapsed start; if late e then mret DrainTimeout else poll_loop late n active (S k) start
  end.

Lemma drain_poll fuel active k start w :
  drain_loop fuel active k start w = poll_loop (fun e => DRAIN_TIMEOUT <? e) fuel active k start w.
Proof.
  revert k w. induction fuel as [|n IH]; intros k w; [done|]. cbn [drain_loop poll_loop].
  destruct (active k); [done|]. cbn [Nat.ltb Nat.leb Nat.eqb]. rewrite !bind_run.
  destruct (elapsed start w) as [[e|] w1]; [|done]. by destruct (DRAIN_TIMEOUT <? e).
Qed.

Lemma shutdown_poll fuel active k start w :
  shutdown_loop fuel active k start w = poll_loop (fun e => DRAIN_TIMEOUT <=? e) fuel active k start w.
Proof.
  revert k w. induction fuel as [|n IH]; intros k w; [done|]. cbn [shutdown_loop poll_loop].
  destruct (active k =? 0)%nat; [done|]. rewrite !bind_run.
  destruct (elapsed start w) as [[e|] w1]; [|done]. by destruct (DRAIN_TIMEOUT <=? e).
Qed.

(** The polls: readings of the clock a sleep of 100 ms apart. *)
Definition POLLS : nat := 302.
Definition sleeps (first : nat) : Prop :=
  forall i, (first < i < first + POLLS)%nat -> mono i + from_millis 100 <= mono (S i).

Lemma polls_apart first k :
  sleeps first -> (k < POLLS)%nat -> mono first + Z.of_nat k * from_millis 100 <= mono (S (first + k)).
Proof.
  intros Hs. induction k as [|k IH]; intros Hk.
  - rewrite Nat.add_0_r. pose proof (mono_le first (S first)). lia.
  - specialize (IH ltac:(lia)). specialize (Hs (S (first + k)) ltac:(lia)).
    rewrite Nat.add_succ_r. lia.
Qed.

(** What the loop comes to. *)
Definition drain_outcome (late : Duration -> bool) (active : nat -> nat) (first : nat) (r : DrainResult) : Prop :=
  exists k, (k < POLLS)%nat /\ (forall j, (j < k)%nat -> active j <> 0%nat) /\
    match r with
    | Drained => active k = 0%nat
    | DrainTimeout => active k <> 0%nat /\ late (mono (S (first + k)) - mono first) = true
    | OutOfFuel => False
    end.

Lemma poll_loop_ends late active first fuel k w :
  sleeps first -> (forall d, from_millis 100 * 301 <= d -> late d = true) ->
  (POLLS <= fuel + k)%nat -> (k < POLLS)%nat -> w_reads w = S (first + k) ->
  (forall j, (j < k)%nat -> active j <> 0%nat) ->
  exists r w', poll_loop late fuel active k (mono first) w = (Ret r, w') /\ ticks w w' /\ drain_outcome late active first r.
Proof.
  intros Hs Hlate. revert k w. induction fuel as [|n IH]; intros k w Hf Hk Hr Ha; [lia|].
  cbn [poll_loop]. destruct (Nat.eqb_spec (active k) 0) as [H0|Hne].
  { exists Drained, w. split; [done|]. split; [apply ticks_refl|]. by exists k. }
  rewrite bind_run. unfold elapsed. rewrite bind_run. unfold now. cbv iota beta. rewrite Hr.
  pose proof (polls_apart first k Hs Hk) as Hp.
  assert (0 <= mono (S (first + k)) - mono first) as Hpos by (unfold from_millis, MILLI in Hp; lia).
  unfold mret, M_ret. cbv iota beta. rewrite Z.max_r by done.
  destruct (late (mono (S (first + k)) - mono first)) eqn:Hl.
  - eexists _, _. split; [reflexivity|]. split; [repeat split; simpl; lia|]. by exists k.
  - assert (S k < POLLS)%nat as Hk'.
    { destruct (decide (S k < POLLS)%nat) as [|Hge]; [done|]. rewrite Hlate in Hl; [done|].
      assert (k = 301)%nat as -> by (unfold POLLS in *; lia). unfold from_millis, MILLI in *. lia. }
    edestruct (IH (S k)) as (r & w' & Hrun & Ht & Ho); [lia|done| | |exists r, w'; split; [exact Hrun|]].
    + simpl. rewrite Hr. lia.
    + intros j Hj. destruct (decide (j = k)) as [->|]; [done|]. apply Ha. lia.
    + split; [|done]. eapply ticks_trans; [|exact Ht]. repeat split; simpl; lia.
Qed.
End Drain.

(** C24: Waiting for connections to end is bounded. With a clock on which
    each sleep of the loop lasts at least its 100 ms, the accept loop's
    drain ends after at most 302 polls, whatever the connections do:
    either at the first poll that finds none, or at a poll that still
    finds some more than 30 seconds after it began. The store and the log
    are not touched. *)
Theorem drain_terminates {E : Env} (HE : EnvOk E) (active : nat -> nat) (fuel : nat) (w : World) :
  sleeps (w_reads w) -> (POLLS <= fuel)%nat ->
  exists r w', drain_connections fuel active w = (Ret r, w') /\ ticks w w' /\
    drain_outcome (fun e => DRAIN_TIMEOUT <? e) active (w_reads w) r.
Proof.
  intros Hs Hf. unfold drain_connections. rewrite bind_run. unfold now. cbv iota beta. rewrite drain_poll.
  destruct (poll_loop_ends (fun e => DRAIN_TIMEOUT <? e) active (w_reads w) fuel 0 (tick w)) as (r & w' & Hr & Ht & Ho);
    [done| |lia|unfold POLLS; lia|by rewrite Nat.add_0_r|lia|].
  - intros d Hd. apply Z.ltb_lt. revert Hd. unfold DRAIN_TIMEOUT, from_secs, from_millis, MILLI, NANOS. lia.
  - exists r, w'. split; [exact Hr|]. split; [|done]. eapply ticks_trans; [|exact Ht]. repeat split; simpl; lia.
Qed.

(** Clocks that advance by 100 ms per reading. *)
Definition env_sleepy : Env := {|
  mono := fun n => 10 ^ 15 + 10 ^ 8 * Z.min (Z.of_nat n) (10 ^ 9);
  wall := fun n => 1700000000 * 10 ^ 9 + 10 ^ 8 * Z.min (Z.of_nat n) (10 ^ 9);
  hash_order := fun _ A m => map_to_list m;
  instant_min := - 2 ^ 63 * 10 ^ 9;
  instant_max := 2 ^ 63 * 10 ^ 9 - 1;
  io := fun _ => None;
  os_name := b#"linux";
  arch_name := b#"x86_64";
  process_id := 1;
  upper_table := fun c => c
|}.

Lemma env_sleepy_ok : EnvOk env_sleepy.
Proof. split; simpl; [intros; lia|intros; lia|]. intros i A m. reflexivity. Qed.
Lemma env_sleepy_io : IoOk env_sleepy.
Proof. done. Qed.
Lemma env_sleepy_sleeps : sleeps (E := env_sleepy) 0.
Proof. intros i Hi. unfold POLLS in Hi. simpl. unfold from_millis, MILLI. lia. Qed.

(** One connection that never ends, and one that ends at the third poll. *)
Lemma drain_terminates_witness :
  exists r w', drain_connections (E := env_sleepy) 302 (fun k => if (k <? 3)%nat then 1%nat else 0%nat) (mkWorld empty_store 0 no_process)
    = (Ret r, w') /\ drain_outcome (E := env_sleepy) (fun e => DRAIN_TIMEOUT <? e) (fun k => if (k <? 3)%nat then 1%nat else 0%nat) 0 r.
Proof.
  destruct (drain_terminates (E := env_sleepy) env_sleepy_ok (fun k => if (k <? 3)%nat then 1%nat else 0%nat) 302
    (mkWorld empty_store 0 no_process)) as (r & w' & Hr & _ & Ho).
  - exact env_sleepy_sleeps.
  - unfold POLLS. lia.
  - exists r, w'. split; [exact Hr|exact Ho].
Defined.

Example drain_gives_up :
  exists w', drain_connections (E := env_sleepy) 302 (fun _ => 1%nat) (mkWorld empty_store 0 no_process) = (Ret DrainTimeout, w').
Proof. eexists. vm_compute. reflexivity. Qed.

(** ** Shutting down *)
Lemma pm_shutdown_run {E : Env} `{!IoOk E} pm pol log w :
  enabled pm = true -> log_is (pm_path pm) pol log (w_proc w) ->
  exists w', pm_shutdown pm w = (Ret (Ok tt), w') /\ w_store w' = w_store w /\
    writer (w_proc w') = None /\ channel (w_proc w') = [] /\
    content (file_at (w_proc w') (pm_path pm)) = log /\ all_synced (w_proc w') (pm_path pm).
Proof.
  intros He Hl. set (path := pm_path pm) in *. unfold pm_shutdown. rewrite He. cbn [negb].
  unfold try_ at 1, request. rewrite bind_run. unfold try_. rewrite bind_run.
  destruct (send_run path pol log w Shutdown Hl) as (w1 & -> & Hs1 & Hl1 & Ho1 & _). cbv iota beta.
  destruct Hl1 as (aw & base & Haw & Hw & Hpol & Hpl & Hlog).
  rewrite bind_run. unfold getp at 1. cbv iota beta. rewrite bind_run. set (w2 := set_proc w1 _).
  destruct (pump_prefix path (channel (w_proc w1)) [Shutdown] 1 NoReply base aw w2 Hpl eq_refl Haw Hw)
    as (r & base3 & aw3 & w3 & Hp3 & Hs3 & Hch3 & Ho3 & Haw3 & Hw3 & Hpol3 & Hb3).
  replace (length (channel (w_proc w2))) with (length (channel (w_proc w1)) + 1)%nat
    by (simpl; rewrite length_app; simpl; lia).
  rewrite Hp3. cbn [pump]. rewrite bind_run, (writer_step_eq w3 aw3 Shutdown []) by done.
  cbn [handle_message]. unfold run_writer. rewrite !bind_run.
  destruct (flush_run path base3 aw3 true (set_proc w3 (set_channel (w_proc w3) []))) as
    (aw4 & w4 & Hr4 & (Hs4 & _ & _ & _) & (_ & _ & Hf4 & Hc4) & Hb4 & _ & Hsy); [exact Hw3|].
  rewrite Hr4. cbv iota beta. rewrite !bind_run. unfold modifyp, mret, M_ret. cbv iota beta.
  eexists. split; [reflexivity|]. cbn [set_proc w_store w_proc].
  split; [rewrite Hs4; simpl; rewrite Hs3; exact Hs1|]. split; [done|]. split; [done|].
  rewrite Hb4, app_nil_r in Hc4. split; [|exact (Hsy eq_refl)].
  change (content (file_at (w_proc w4) path) = log). congruence.
Qed.

(** C22: A shutdown completes and loses nothing. With a working disk and a
    clock on which sleeps last, shutting the server down always returns,
    after at most 302 polls of the connections; then the file holds
    exactly what was logged, in order and synced to the device, nothing is
    queued and the writer task has ended, whether or not the connections
    had ended in time. *)
Theorem shutdown_durable {E : Env} (HE : EnvOk E) (Hio : IoOk E) (s : RustyPotatoServer) (pm : PersistenceManager) (pol : FsyncPolicy) (log : bytes) (active : nat -> nat) (fuel : nat) (w : World) :
  rp_persistence s = Some pm -> enabled pm = true -> log_is (pm_path pm) pol log (w_proc w) ->
  sleeps (w_reads w) -> (POLLS <= fuel)%nat ->
  exists d w', shutdown fuel active s w = (Ret (d, Ok tt), w') /\
    drain_outcome (fun e => DRAIN_TIMEOUT <=? e) active (w_reads w) d /\ w_store w' = w_store w /\
    writer (w_proc w') = None /\ channel (w_proc w') = [] /\
    content (file_at (w_proc w') (pm_path pm)) = log /\ all_synced (w_proc w') (pm_path pm).
Proof.
  intros Hp He Hl Hs Hf. unfold shutdown. rewrite bind_run. unfold now. cbv iota beta. rewrite bind_run, shutdown_poll, Hp.
  destruct (poll_loop_ends (fun e => DRAIN_TIMEOUT <=? e) active (w_reads w) fuel 0 (tick w)) as (d & w1 & Hr & (Hs1 & Hp1 & _) & Ho);
    [done| |lia|unfold POLLS; lia|by rewrite Nat.add_0_r|lia|].
  - intros e Hd. apply Z.leb_le. revert Hd. unfold DRAIN_TIMEOUT, from_secs, from_millis, MILLI, NANOS. lia.
  - simpl in Hp1. rewrite <- Hp1 in Hl. destruct (pm_shutdown_run pm pol log w1 He Hl) as (w' & Hrun & Hs' & Hrest).
    rewrite Hr. cbv iota beta. rewrite bind_run, Hrun. eexists d, w'. split; [reflexivity|]. split; [done|].
    split; [by rewrite Hs', Hs1|done].
Qed.

Definition demo_server : RustyPotatoServer :=
  mkRustyPotatoServer default_config ∅ (Some (mkPersistenceManager true (b#"a.aof"))) None None.
Definition demo_process : Process :=
  mkProcess None {[b#"a.aof" := mkFile (b#"old") 3]}
    (Some (mkAofWriter (Appending (b#"a.aof")) (b#"er") EverySecond 0 (from_secs 1) (b#"a.aof"))) [Record_ (b#"new")].

Lemma shutdown_durable_witness :
  exists d w', shutdown (E := env_sleepy) 302 (fun _ => 1%nat) demo_server (mkWorld empty_store 0 demo_process) = (Ret (d, Ok tt), w') /\
    writer (w_proc w') = None /\ content (file_at (w_proc w') (b#"a.aof")) = b#"oldernew" /\ all_synced (w_proc w') (b#"a.aof").
Proof.
  destruct (shutdown_durable (E := env_sleepy) env_sleepy_ok env_sleepy_io demo_server (mkPersistenceManager true (b#"a.aof")) EverySecond
    (b#"oldernew") (fun _ => 1%nat) 302 (mkWorld empty_store 0 demo_process)) as (d & w' & Hr & _ & _ & Hw & _ & Hc & Hs).
  - reflexivity.
  - reflexivity.
  - eexists _, (b#"older"). split; [reflexivity|]. split; [split; [reflexivity|]; split; [reflexivity|]; split; [by eexists|reflexivity]|].
    split; [reflexivity|]. split; [by apply Forall_singleton|reflexivity].
  - exact env_sleepy_sleeps.
  - unfold POLLS. lia.
  - exists d, w'. split; [exact Hr|]. split; [exact Hw|]. split; [exact Hc|exact Hs].
Defined.

(** A server starts once. Whatever the outcome of binding the address,
    after a start every other start is refused with an internal error and
    changes nothing; attaching the log later reaches neither the running
    accept loop nor, when BGREWRITEAOF is already wired, that command. *)
Theorem start_once {E : Env} (s : RustyPotatoServer) (o o' : BindOutcome) (p q : PersistenceManager) :
  let s1 := (start s o).2 in
  start s1 o' = (Err already_started, s1) /\
  tcp_server (with_persistence s1 p) = None /\
  bgrewrite_slot (with_persistence (with_persistence s p) q) = bgrewrite_slot (with_persistence s p) /\
  rp_persistence (with_persistence (with_persistence s p) q) = Some q.
Proof.
  unfold start, with_persistence. destruct s as [c reg per slot [t|]]; simpl; repeat split; by destruct slot.
Qed.
