(* ===== verification/LogRotation.v ===== *)
(** * Log rotation (src/src/monitoring/log_rotation.rs)

    The files are a map from paths, as the code spells them, to contents
    and modification times, passed along with the status.  Each call on
    the file system is an I/O call of the world and may fail.  The
    calendar of the [chrono] crate and the gzip encoder are parameters. *)

From S2P Require Import Prelude Numbers Utf8 Paths Errors Values World Protocol Persistence Metrics.

Record LogFile : Type := mkLogFile {
  lf_content : bytes;
  lf_modified : Z
}.
Abbreviation LogFs := (gmap bytes LogFile).

Inductive RotationPolicy : Type :=
| BySize (max_size : Z)
| Daily (hour : Z)
| Hourly
| SizeOrDaily (size_bytes hour : Z)
| Manual.

Record LogRotationConfig : Type := mkLogRotationConfig {
  log_file_path : bytes;
  rotation_policy : RotationPolicy;
  max_files : nat;
  compress : bool;
  rotation_dir : option bytes
}.

Record LogRotationStatus : Type := mkLogRotationStatus {
  last_rotation : option bytes;
  next_rotation : option bytes;
  current_file_size : Z;
  rotated_files_count : nat;
  total_rotated_size : Z;
  rotation_errors : list bytes
}.

Definition new_status : LogRotationStatus := mkLogRotationStatus None None 0 0 0 [].

Definition default_rotation : LogRotationConfig :=
  mkLogRotationConfig (b#"rustypotato.log") (SizeOrDaily (100 * 1024 * 1024) 0) 7 true None.

(** The [chrono] crate: times are nanoseconds since the epoch, dates are
    numbers; [and_hms date hour] is that hour of the date if there is one. *)
Class Chrono : Type := mkChrono {
  to_rfc3339 : Z -> bytes;
  parse_from_rfc3339 : bytes -> option Z;
  date_naive : Z -> Z;
  utc_hour : Z -> Z;
  next_day : Z -> Z;
  and_hms : Z -> Z -> option Z
}.

Definition rotation_error (what e : bytes) : RustyPotatoError :=
  InternalError (what ++ e) (Some (b#"log_rotation")) (Some e).

(** ** Names *)
Definition log_name (log_path : bytes) : bytes :=
  match file_name log_path with
  | Some n => if utf8_valid n then n else b#"rustypotato.log"
  | None => b#"rustypotato.log"
  end.

Definition starts_with (s p : bytes) : bool := bytes_eqb (take (length p) s) p.
Definition ends_with (s p : bytes) : bool := (length p <=? length s)%nat && bytes_eqb (drop (length s - length p) s) p.
Definition is_digit_char (c : bytes) : bool := match c with [d] => in_range d 48 57 | _ => false end.

(** [skip] counts characters, the length counts octets. *)
Definition is_rotated_file (filename log_path : bytes) : bool :=
  let n := log_name log_path in
  starts_with filename (n ++ [DOT]) &&
  (ends_with filename (b#".gz") ||
   match chars filename with
   | Some cs => forallb is_digit_char (drop (length n + 1) cs)
   | None => false
   end).

Definition get_rotation_dir (c : LogRotationConfig) : bytes :=
  match rotation_dir c with
  | Some d => d
  | None => match path_parent (log_file_path c) with Some d => d | None => b#"." end
  end.

(** [sort_by_key] is stable. *)
Fixpoint insert_by_key {A} (key : A -> Z) (x : A) (l : list A) : list A :=
  match l with
  | [] => [x]
  | y :: l' => if key x <=? key y then x :: l else y :: insert_by_key key x l'
  end.
Definition sort_by_key {A} (key : A -> Z) (l : list A) : list A := foldr (insert_by_key key) [] l.

Section Rotation.
Context {E : Env} {C : Chrono}.

(** ** File system calls *)

(** The effect and the value of a call that succeeds. *)
Definition fs_call {A} (fail : bytes -> RustyPotatoError) (a : A) (fs fs' : LogFs) : M (Result A * LogFs) :=
  r ← io_call;
  match r with
  | None => mret (Ok a, fs')
  | Some (_, e) => mret (Err (fail e), fs)
  end.

Definition log_exists (path : bytes) (fs : LogFs) : bool := bool_decide (is_Some (fs !! path)).

(** [fs::metadata(path)]: the size. *)
Definition file_len (path : bytes) (fs : LogFs) : M (option Z) :=
  r ← io_call;
  mret (match r with
        | None => (fun f => zlen (lf_content f)) <$> fs !! path
        | Some _ => None
        end).

(** The entries of a directory, in the order the system lists them; there
    is no directory with an empty name. *)
Definition in_dir (dir path : bytes) : option bytes :=
  match file_name path with
  | Some n => if bytes_eqb path (join dir n) then Some n else None
  | None => None
  end.

Definition read_dir (dir : bytes) (fs : LogFs) : M (Result (list (bytes * LogFile))) :=
  r ← io_call;
  match r with
  | Some (_, e) => mret (Err (rotation_error (b#"Failed to read rotation directory: ") e))
  | None =>
      if bool_decide (dir = []) then mret (Err (rotation_error (b#"Failed to read rotation directory: ") ENOENT))
      else
        l ← iterate fs;
        mret (Ok (omap (fun '(p, f) => (fun n => (n, f)) <$> in_dir dir p) l))
  end.

(** The loop over the entries: a failing [next_entry] ends it, a failing
    [metadata] skips the entry. *)
Fixpoint collect_rotated (log_path dir : bytes) (entries : list (bytes * LogFile)) : M (list (bytes * Z)) :=
  r ← io_call;
  match r, entries with
  | Some _, _ => mret []
  | None, [] => mret []
  | None, (n, f) :: rest =>
      if utf8_valid n && is_rotated_file n log_path then
        m ← io_call;
        rest ← collect_rotated log_path dir rest;
        mret (match m with None => (join dir n, lf_modified f) :: rest | Some _ => rest end)
      else collect_rotated log_path dir rest
  end.

Fixpoint remove_files (paths : list bytes) (fs : LogFs) : M LogFs :=
  match paths with
  | [] => mret fs
  | p :: rest =>
      r ← io_call;
      remove_files rest (match r with None => delete p fs | Some _ => fs end)
  end.

Definition cleanup_old_files (c : LogRotationConfig) (dir : bytes) (fs : LogFs) : M (Result unit * LogFs) :=
  entries ← read_dir dir fs;
  match entries with
  | Err e => mret (Err e, fs)
  | Ok entries =>
      rotated_files ← collect_rotated (log_file_path c) dir entries;
      let rotated_files := sort_by_key snd rotated_files in
      if (max_files c <? length rotated_files)%nat then
        fs ← remove_files (map fst (take (length rotated_files - max_files c) rotated_files)) fs;
        mret (Ok tt, fs)
      else mret (Ok tt, fs)
  end.

(** ** Compression *)

(** The gzip encoder: [write_all] then [finish]. *)
Variable gzip : bytes -> result bytes bytes.

Definition compressed_path (file_path : bytes) : bytes := with_extension file_path (b#"log.gz").

Definition compress_file (file_path : bytes) (fs : LogFs) : M (Result unit * LogFs) :=
  r ← io_call;
  match r, fs !! file_path with
  | Some (_, e), _ => mret (Err (rotation_error (b#"Failed to read file for compression: ") e), fs)
  | None, None => mret (Err (rotation_error (b#"Failed to read file for compression: ") ENOENT), fs)
  | None, Some f =>
      match gzip (lf_content f) with
      | Err e => mret (Err (rotation_error (b#"Failed to compress data: ") e), fs)
      | Ok data =>
          t ← system_now;
          '(r, fs) ← fs_call (rotation_error (b#"Failed to write compressed file: ")) tt fs
                       (<[compressed_path file_path := mkLogFile data t]> fs);
          match r with
          | Err e => mret (Err e, fs)
          | Ok _ => fs_call (rotation_error (b#"Failed to remove original file after compression: ")) tt fs
                      (delete file_path fs)
          end
      end
  end.

(** ** Rotation *)
Definition rotated_path (c : LogRotationConfig) (timestamp : Z) : bytes :=
  join (get_rotation_dir c) (log_name (log_file_path c) ++ [DOT] ++ dec timestamp).

Definition rename_log (from to : bytes) (fs : LogFs) : LogFs :=
  match fs !! from with Some f => <[to := f]> (delete from fs) | None => fs end.

Definition rotation_done (st : LogRotationStatus) (t : Z) : LogRotationStatus :=
  mkLogRotationStatus (Some (to_rfc3339 t)) (next_rotation st) 0 (rotated_files_count st) (total_rotated_size st)
    (rotation_errors st).

Definition perform_rotation (c : LogRotationConfig) (st : LogRotationStatus) (fs : LogFs) :
    M (Result unit * LogRotationStatus * LogFs) :=
  let log_path := log_file_path c in
  if negb (log_exists log_path fs) then mret (Ok tt, st, fs)
  else
    now ← system_now;
    if now <? 0 then panic
    else
      let timestamp := as_secs now in
      let dir := get_rotation_dir c in
      '(r, fs) ← (if bool_decide (dir = []) then mret (Ok tt, fs)
                  else fs_call (rotation_error (b#"Failed to create rotation directory: ")) tt fs fs);
      match r with
      | Err e => mret (Err e, st, fs)
      | Ok _ =>
          let rotated := rotated_path c timestamp in
          '(r, fs) ← fs_call (rotation_error (b#"Failed to rotate log file: ")) tt fs (rename_log log_path rotated fs);
          match r with
          | Err e => mret (Err e, st, fs)
          | Ok _ =>
              fs ← (if compress c then '(_, fs) ← compress_file rotated fs; mret fs else mret fs);
              '(r, fs) ← cleanup_old_files c dir fs;
              match r with
              | Err e => mret (Err e, st, fs)
              | Ok _ => t ← system_now; mret (Ok tt, rotation_done st t, fs)
              end
          end
      end.

(** ** When to rotate *)
Definition should_rotate_daily (hour : Z) (st : LogRotationStatus) : M bool :=
  now ← system_now;
  mret (if negb (utc_hour now =? hour) then false
        else match last_rotation st ≫= parse_from_rfc3339 with
             | Some t => negb (date_naive t =? date_naive now)
             | None => true
             end).

Definition should_rotate_hourly (st : LogRotationStatus) : M bool :=
  now ← system_now;
  mret (match last_rotation st ≫= parse_from_rfc3339 with
        | Some t => negb ((date_naive t =? date_naive now) && (utc_hour t =? utc_hour now))
        | None => true
        end).

Definition size_exceeded (c : LogRotationConfig) (limit : Z) (fs : LogFs) : M bool :=
  n ← file_len (log_file_path c) fs;
  mret (match n with Some n => limit <? n | None => false end).

Definition should_rotate (c : LogRotationConfig) (st : LogRotationStatus) (fs : LogFs) : M bool :=
  match rotation_policy c with
  | BySize max_size => size_exceeded c max_size fs
  | Daily hour => should_rotate_daily hour st
  | Hourly => should_rotate_hourly st
  | SizeOrDaily size_bytes hour =>
      s ← size_exceeded c size_bytes fs;
      t ← should_rotate_daily hour st;
      mret (s || t)
  | Manual => mret false
  end.

Definition check_and_rotate (c : LogRotationConfig) (st : LogRotationStatus) (fs : LogFs) :
    M (Result unit * LogRotationStatus * LogFs) :=
  b ← should_rotate c st fs;
  if (b : bool) then perform_rotation c st fs else mret (Ok tt, st, fs).

(** One round of the background task: errors are kept, the last ten. *)
Definition push_error (st : LogRotationStatus) (e : bytes) : LogRotationStatus :=
  let errors := rotation_errors st ++ [e] in
  mkLogRotationStatus (last_rotation st) (next_rotation st) (current_file_size st) (rotated_files_count st)
    (total_rotated_size st) (if (10 <? length errors)%nat then drop 1 errors else errors).

Definition background_round (c : LogRotationConfig) (st : LogRotationStatus) (fs : LogFs) : M (LogRotationStatus * LogFs) :=
  '(r, st, fs) ← check_and_rotate c st fs;
  match r with
  | Ok _ => mret (st, fs)
  | Err e => t ← system_now; mret (push_error st (to_rfc3339 t ++ b#": " ++ display e), fs)
  end.

(** ** Status *)
Definition calculate_next_rotation (c : LogRotationConfig) : M (option Z) :=
  let daily hour :=
    now ← system_now;
    mret (target ← and_hms (date_naive now) hour;
          if now <? target then Some target else and_hms (next_day (date_naive now)) hour) in
  match rotation_policy c with
  | Daily hour => daily hour
  | Hourly =>
      now ← system_now;
      let next_hour := now + 3600 * NANOS in
      mret (and_hms (date_naive next_hour) (utc_hour next_hour))
  | SizeOrDaily _ hour => daily hour
  | BySize _ | Manual => mret None
  end.

Fixpoint count_rotated (log_path : bytes) (entries : list (bytes * LogFile)) (count : nat) (total : Z) : M (nat * Z) :=
  r ← io_call;
  match r, entries with
  | Some _, _ => mret (count, total)
  | None, [] => mret (count, total)
  | None, (n, f) :: rest =>
      if utf8_valid n && is_rotated_file n log_path then
        m ← io_call;
        count_rotated log_path rest (S count)
          (match m with None => add_u64 total (zlen (lf_content f)) | Some _ => total end)
      else count_rotated log_path rest count total
  end.

Definition update_status (c : LogRotationConfig) (st : LogRotationStatus) (fs : LogFs) : M LogRotationStatus :=
  n ← file_len (log_file_path c) fs;
  let size := default (current_file_size st) n in
  entries ← read_dir (get_rotation_dir c) fs;
  '(count, total) ← match entries with
                    | Ok l => count_rotated (log_file_path c) l 0 0
                    | Err _ => mret (rotated_files_count st, total_rotated_size st)
                    end;
  next ← calculate_next_rotation c;
  mret (mkLogRotationStatus (last_rotation st) (to_rfc3339 <$> next) size count total (rotation_errors st)).
End Rotation.
