(* ===== verification/LogRotationThms.v ===== *)
(** * Theorems about log rotation

    The cleanup keeps the newest files; every compressed file gets the
    same name; a log named without a directory is never rotated to the
    end. *)

From Stdlib Require Import Sorted.
From S2P Require Import Prelude Numbers Utf8 Paths Errors Values World MemoryStore Protocol Persistence PersistThms LogRotation.

(** ** Sorting *)
Section Sort.
Context {A : Type} (key : A -> Z).

Lemma insert_by_key_perm x l : insert_by_key key x l ≡ₚ x :: l.
Proof.
  induction l as [|y l IH]; [done|]. cbn [insert_by_key]. case_match; [done|]. rewrite IH. constructor.
Qed.

Lemma sort_perm l : sort_by_key key l ≡ₚ l.
Proof. induction l as [|x l IH]; [done|]. simpl. by rewrite insert_by_key_perm, IH. Qed.

Definition ordered (l : list A) : Prop := StronglySorted (fun x y => key x <= key y) l.

Lemma insert_ordered x l : ordered l -> ordered (insert_by_key key x l).
Proof.
  unfold ordered. induction 1 as [|y l Hl IH Hy]; [repeat constructor|]. cbn [insert_by_key].
  destruct (Z.leb_spec (key x) (key y)) as [Hle|Hlt].
  - constructor; [by constructor|]. constructor; [done|]. eapply Forall_impl; [exact Hy|]. simpl. intros z Hz. lia.
  - constructor; [done|]. rewrite insert_by_key_perm. constructor; [lia|done].
Qed.

Lemma sort_ordered l : ordered (sort_by_key key l).
Proof. induction l as [|x l IH]; [constructor|]. by apply insert_ordered. Qed.

Lemma ordered_split n l x y : ordered l -> x ∈ take n l -> y ∈ drop n l -> key x <= key y.
Proof.
  intros Hl. revert n. induction Hl as [|z l Hl IH Hz]; intros [|n] Hx Hy; cbn [take drop] in *; try by apply elem_of_nil in Hx.
  apply elem_of_cons in Hx as [->|Hx]; [|by eapply IH].
  rewrite Forall_forall in Hz. apply Hz. rewrite <- (take_drop n l). apply elem_of_app. by right.
Qed.
End Sort.

(** ** Cleaning up *)
Section Cleanup.
Context {E : Env} `{!EnvOk E, !IoOk E}.

Lemma io_runs w : io_call w = (Ret None, tick w).
Proof. unfold io_call. by rewrite io_ok. Qed.

(** A rotated file of the directory. *)
Definition rotated_in (log_path dir path : bytes) : bool :=
  match in_dir dir path with Some n => utf8_valid n && is_rotated_file n log_path | None => false end.

Lemma in_dir_path dir path n : in_dir dir path = Some n -> join dir n = path.
Proof.
  unfold in_dir. destruct (file_name path) as [m|]; [|done]. destruct (bytes_eqb _ _) eqn:He; [|done].
  intros [= <-]. symmetry. by apply bool_decide_eq_true in He.
Qed.

Lemma omap_step {A B} (f : A -> option B) x l :
  omap f (x :: l) = match f x with Some y => y :: omap f l | None => omap f l end.
Proof. done. Qed.

Lemma collect_run log_path dir (l : list (bytes * LogFile)) w :
  exists w', collect_rotated log_path dir (omap (fun '(p, f) => (fun n => (n, f)) <$> in_dir dir p) l) w
    = (Ret (map (fun e => (e.1, lf_modified e.2)) (filter (fun e => rotated_in log_path dir e.1 = true) l)), w') /\ ticks w w'.
Proof.
  revert w. induction l as [|[p f] l IH]; intros w.
  { change (omap _ []) with (@nil (bytes * LogFile)). cbn [collect_rotated]. rewrite bind_run, io_runs. eexists. split; [reflexivity|]. repeat split; simpl; lia. }
  rewrite omap_step. rewrite filter_cons. cbn [fst].
  assert (rotated_in log_path dir p = match in_dir dir p with
    | Some n => utf8_valid n && is_rotated_file n log_path | None => false end) as Hrot by done.
  destruct (in_dir dir p) as [n|] eqn:Hin; cbn [fmap option_fmap option_map].
  2:{ rewrite decide_False by congruence. apply IH. }
  cbn [collect_rotated]. rewrite bind_run, io_runs. cbv iota beta.
  destruct (utf8_valid n && is_rotated_file n log_path) eqn:Hr.
  - rewrite decide_True by congruence. rewrite bind_run, io_runs. cbv iota beta. rewrite bind_run.
    destruct (IH (tick (tick w))) as (w' & -> & Ht). cbv iota beta. eexists. split.
    + unfold mret, M_ret. cbn [map fst snd]. by rewrite (in_dir_path _ _ _ Hin).
    + eapply ticks_trans; [|exact Ht]. repeat split; simpl; lia.
  - rewrite decide_False by congruence. destruct (IH (tick w)) as (w' & -> & Ht). eexists. split; [reflexivity|].
    eapply ticks_trans; [|exact Ht]. repeat split; simpl; lia.
Qed.

Lemma remove_run paths fs w :
  exists w', remove_files paths fs w = (Ret (foldl (fun m p => delete p m) fs paths), w') /\ ticks w w'.
Proof.
  revert fs w. induction paths as [|p paths IH]; intros fs w; [by exists w|]. cbn [remove_files foldl].
  rewrite bind_run, io_runs. cbv iota beta. destruct (IH (delete p fs) (tick w)) as (w' & -> & Ht).
  eexists. split; [reflexivity|]. eapply ticks_trans; [|exact Ht]. repeat split; simpl; lia.
Qed.

Lemma removed_lookup (paths : list bytes) (fs : LogFs) (q : bytes) :
  foldl (fun m p => delete p m) fs paths !! q = if decide (q ∈ paths) then None else fs !! q.
Proof.
  revert fs. induction paths as [|p paths IH]; intros fs; cbn [foldl].
  { by rewrite decide_False by apply not_elem_of_nil. }
  rewrite IH. destruct (decide (q ∈ paths)) as [Hq|Hq].
  - by rewrite decide_True by (apply elem_of_cons; by right).
  - destruct (decide (p = q)) as [->|Hne].
    + rewrite lookup_delete_eq, decide_True by (apply elem_of_cons; by left). done.
    + rewrite lookup_delete_ne, decide_False by (try done; apply not_elem_of_cons; done). done.
Qed.

Lemma filter_to_list (P : bytes * LogFile -> Prop) `{!forall x, Decision (P x)} (fs : LogFs) :
  map_to_list (filter P fs) ≡ₚ filter P (map_to_list fs).
Proof.
  rewrite map_filter_alt. apply map_to_list_to_map. eapply sublist_NoDup; [apply (NoDup_fst_map_to_list fs)|].
  apply fmap_sublist, sublist_filter.
Qed.

(** The rotated files of the directory, oldest first. *)
Lemma cleanup_run c dir fs w :
  dir <> [] ->
  exists l w', cleanup_old_files c dir fs w =
    (Ret (Ok tt, foldl (fun m p => delete p m) fs (map fst (take (length l - max_files c) l))), w') /\ ticks w w' /\
    ordered snd l /\ l ≡ₚ map (fun e => (e.1, lf_modified e.2)) (map_to_list (filter (fun e => rotated_in (log_file_path c) dir e.1 = true) fs)).
Proof.
  intros Hd. unfold cleanup_old_files, read_dir. rewrite !bind_run, io_runs. cbv iota beta.
  rewrite bool_decide_eq_false_2 by done. rewrite bind_run. unfold iterate. cbv iota beta.
  set (l0 := hash_order _ LogFile fs). unfold mret, M_ret. cbv iota beta. rewrite bind_run.
  destruct (collect_run (log_file_path c) dir l0 (tick (tick w))) as (w1 & -> & Ht1). cbv iota beta.
  set (l := sort_by_key snd _).
  assert (l ≡ₚ map (fun e => (e.1, lf_modified e.2)) (map_to_list (filter (fun e => rotated_in (log_file_path c) dir e.1 = true) fs))) as Hp.
  { unfold l. rewrite sort_perm. apply Permutation_map. rewrite filter_to_list. apply filter_Permutation, hash_order_perm. }
  assert (ticks w w1) as Ht by (eapply ticks_trans; [|exact Ht1]; repeat split; simpl; lia).
  exists l. destruct (Nat.ltb_spec (max_files c) (length l)) as [Hlt|Hle].
  - rewrite bind_run. destruct (remove_run (map fst (take (length l - max_files c) l)) fs w1) as (w2 & -> & Ht2).
    exists w2. split; [reflexivity|]. split; [by eapply ticks_trans|]. split; [apply sort_ordered|done].
  - exists w1. replace (length l - max_files c)%nat with 0%nat by lia. split; [reflexivity|]. split; [done|].
    split; [apply sort_ordered|done].
Qed.
End Cleanup.

(** The files of [l], the rotated ones of [fs] with their times. *)
Definition lists_rotated (c : LogRotationConfig) (dir : bytes) (fs : LogFs) (l : list (bytes * Z)) : Prop :=
  l ≡ₚ map (fun e => (e.1, lf_modified e.2)) (map_to_list (filter (fun e => rotated_in (log_file_path c) dir e.1 = true) fs)).

Section Listing.
Variables (c : LogRotationConfig) (dir : bytes) (fs : LogFs) (l : list (bytes * Z)).
Hypothesis Hl : lists_rotated c dir fs l.

Lemma listed p t : (p, t) ∈ l <-> exists f, fs !! p = Some f /\ rotated_in (log_file_path c) dir p = true /\ lf_modified f = t.
Proof.
  rewrite Hl, list_elem_of_fmap. split.
  - intros ([p' f] & Heq & Hin). injection Heq as -> ->. apply elem_of_map_to_list, map_lookup_filter_Some in Hin as [? ?]. by exists f.
  - intros (f & Hf & Hr & Ht). exists (p, f). split; [by rewrite <- Ht|]. apply elem_of_map_to_list, map_lookup_filter_Some. done.
Qed.

Lemma listed_name p : p ∈ map fst l <-> is_Some (fs !! p) /\ rotated_in (log_file_path c) dir p = true.
Proof.
  rewrite list_elem_of_fmap. split.
  - intros ([q t] & -> & Hin). apply listed in Hin as (f & ? & ? & _). split; [by eexists|done].
  - intros [[f Hf] Hr]. exists (p, lf_modified f). split; [done|]. apply listed. by exists f.
Qed.

Lemma listed_length : length l = size (filter (fun e => rotated_in (log_file_path c) dir e.1 = true) fs).
Proof. rewrite Hl, length_map. apply length_map_to_list. Qed.

Lemma listed_nodup : NoDup (map fst l).
Proof.
  rewrite Hl, map_map. change (NoDup (map_to_list (filter (fun e : bytes * LogFile => rotated_in (log_file_path c) dir e.1 = true) fs)).*1).
  apply NoDup_fst_map_to_list.
Qed.

Lemma take_or_drop n p : p ∈ map fst l -> p ∉ map fst (take n l) <-> p ∈ map fst (drop n l).
Proof.
  assert (map fst l = map fst (take n l) ++ map fst (drop n l)) as Hsplit by by rewrite <- map_app, take_drop.
  pose proof listed_nodup as Hnd. rewrite Hsplit in Hnd |- *. apply NoDup_app in Hnd as (_ & Hnd & _).
  intros [Hp|Hp]%elem_of_app; split; intros H; try done.
  - by destruct (Hnd p Hp).
  - intros H'. by destruct (Hnd p H').
Qed.

Lemma kept_size n :
  size (filter (fun e => rotated_in (log_file_path c) dir e.1 = true) (foldl (fun m p => delete p m) fs (map fst (take n l))))
  = (length l - n)%nat.
Proof.
  rewrite <- (size_dom (D := gset bytes)).
  replace (dom (filter (fun e : bytes * LogFile => rotated_in (log_file_path c) dir e.1 = true)
    (foldl (fun m p => delete p m) fs (map fst (take n l))))) with (list_to_set (map fst (drop n l)) : gset bytes).
  - rewrite size_list_to_set; [by rewrite length_map, length_drop|].
    pose proof listed_nodup as Hnd. rewrite <- (take_drop n l), map_app in Hnd. by apply NoDup_app in Hnd as (_ & _ & ?).
  - apply set_eq. intros p. rewrite elem_of_list_to_set, elem_of_dom. split.
    + intros Hp. assert (p ∈ map fst l) as Hpl by (rewrite <- (take_drop n l), map_app; apply elem_of_app; by right).
      pose proof Hpl as [[f Hf] Hr]%listed_name. exists f. apply map_lookup_filter_Some. split; [|done].
      rewrite removed_lookup, decide_False; [done|]. by apply take_or_drop.
    + intros [f [Hf Hr]%map_lookup_filter_Some]. cbn [fst] in Hr. rewrite removed_lookup in Hf.
      destruct (decide (p ∈ map fst (take n l))) as [|Hnt]; [done|]. apply take_or_drop; [|done].
      apply listed_name. split; [by eexists|done].
Qed.
End Listing.


(** A directory with three rotated files of [app.log], at most two to keep. *)
Definition demo_rotation : LogRotationConfig := mkLogRotationConfig (b#"logs/app.log") (Daily 0) 2 true None.
Definition demo_fs : LogFs :=
  <[b#"logs/app.log" := mkLogFile (b#"now") 40]> (<[b#"logs/app.log.30" := mkLogFile (b#"c") 30]>
    (<[b#"logs/app.log.10" := mkLogFile (b#"a") 10]> {[b#"logs/app.log.20" := mkLogFile (b#"b") 20]})).


(** ** Names *)
Definition no_slash (n : bytes) : Prop := forallb (fun c => negb (byte_eqb c SLASH)) n = true.

Lemma span_no_slash r : no_slash (span_component r).1.
Proof.
  unfold no_slash. induction r as [|c r IH]; [done|]. cbn [span_component]. destruct (byte_eqb c SLASH) eqn:Hc; [done|].
  destruct (span_component r) as [a b]. cbn [fst forallb] in *. by rewrite Hc.
Qed.

Lemma log_name_bare p : log_name p <> [] /\ no_slash (log_name p).
Proof.
  unfold log_name, file_name. pose proof (span_no_slash (trim_rev (rev p))) as Hs.
  destruct (rev (span_component (trim_rev (rev p))).1) as [|c n] eqn:Hr; [by split|].
  destruct (bytes_eqb (c :: n) [DOT] || bytes_eqb (c :: n) [DOT; DOT]); [by split|].
  destruct (utf8_valid (c :: n)); [|by split]. split; [done|]. unfold no_slash in *. by rewrite <- Hr, forallb_rev.
Qed.

Lemma dec_clean z : dec z <> [] /\ no_slash (dec z) /\ DOT ∉ dec z.
Proof.
  split; [|split].
  - unfold dec, dec_fuel. case_match; [done|]. cbn [dec_pos]. case_match; [done|]. by destruct (dec_pos _ _).
  - apply forallb_forall. intros c Hc%list_elem_of_In. apply negb_true_iff.
    destruct (byte_eqb_spec c SLASH) as [->|]; [|done]. by apply dec_chars in Hc as [|].
  - intros Hc. by apply dec_chars in Hc as [|].
Qed.

Lemma join_prefix dir : exists pre, (forall n, join dir n = pre ++ n) /\ (pre = [] \/ exists r, rev pre = SLASH :: r).
Proof.
  unfold join. destruct (rev dir) as [|c r] eqn:Hr; [by exists []; auto|].
  destruct (byte_eqb_spec c SLASH) as [->|].
  - exists dir. split; [done|]. right. by exists r.
  - exists (dir ++ [SLASH]). split; [intros m; by rewrite <- app_assoc|]. right. eexists. by rewrite rev_app_distr.
Qed.

Lemma trim_component r rest :
  no_slash r -> r <> [] -> r <> [DOT] -> trim_rev (r ++ SLASH :: rest) = r ++ SLASH :: rest.
Proof.
  unfold no_slash. intros Hr Hne Hd. destruct r as [|c r]; [done|]. cbn [forallb] in Hr.
  apply andb_true_iff in Hr as [Hc%negb_true_iff Hr]. destruct r as [|d r]; cbn [app trim_rev]; rewrite Hc.
  - destruct (byte_eqb_spec c DOT) as [->|]; done.
  - cbn [forallb] in Hr. apply andb_true_iff in Hr as [Hd'%negb_true_iff _]. by rewrite Hd', andb_false_r.
Qed.

(** The last component of a path made of a prefix and a name. *)
Lemma span_joined pre n :
  pre = [] \/ (exists r, rev pre = SLASH :: r) -> no_slash n -> n <> [] -> n <> [DOT] ->
  span_component (trim_rev (rev (pre ++ n))) = (rev n, rev pre).
Proof.
  intros Hp Hn Hne Hd. unfold no_slash in *. rewrite rev_app_distr. rewrite <- forallb_rev in Hn.
  destruct Hp as [->|[r ->]]; [rewrite app_nil_r, trim_bare, span_all; done|].
  rewrite trim_component; [by apply span_bare|done| |].
  - intros H. apply (f_equal (@rev _)) in H. by rewrite rev_involutive in H.
  - intros H. apply (f_equal (@rev _)) in H. by rewrite rev_involutive in H.
Qed.

Lemma split_last_app c a d : c ∉ d -> split_last c (a ++ c :: d) = Some (a, d).
Proof.
  intros Hd. assert (split_last c d = None) as Hn.
  { induction d as [|x d IH]; [done|]. apply not_elem_of_cons in Hd as [Hx Hd]. cbn [split_last]. rewrite IH by done.
    by destruct (byte_eqb_spec x c) as [->|]. }
  induction a as [|x a IH]; cbn [app split_last]; [by rewrite Hn, byte_eqb_refl|by rewrite IH].
Qed.

(** Every rotated file is compressed under the same name. *)
Lemma compressed_path_fixed c ts :
  compressed_path (rotated_path c ts) = join (get_rotation_dir c) (log_name (log_file_path c) ++ b#".log.gz").
Proof.
  unfold compressed_path, rotated_path. destruct (join_prefix (get_rotation_dir c)) as (pre & Hj & Hp). rewrite !Hj.
  destruct (log_name_bare (log_file_path c)) as [Hne Hns]. set (n := log_name (log_file_path c)) in *.
  destruct (dec_clean ts) as (Hdn & Hds & Hdd). set (full := n ++ [DOT] ++ dec ts).
  assert (2 < length full)%nat as Hlen.
  { unfold full. rewrite !length_app. destruct n, (dec ts); simpl in *; try done; lia. }
  assert (no_slash full) as Hfs by (unfold no_slash, full in *; rewrite !forallb_app, Hns, Hds; done).
  assert (span_component (trim_rev (rev (pre ++ full))) = (rev full, rev pre)) as Hsp.
  { apply span_joined; [done..| |]; intros H; rewrite H in Hlen; simpl in Hlen; lia. }
  unfold with_extension, file_name. rewrite Hsp. cbn [fst snd]. rewrite !rev_involutive.
  destruct full as [|x full'] eqn:Hf; [simpl in Hlen; lia|].
  assert (bytes_eqb (x :: full') [DOT] || bytes_eqb (x :: full') [DOT; DOT] = false) as ->.
  { apply orb_false_iff. split.
    - destruct (bytes_eqb_spec (x :: full') [DOT]) as [He|]; [|done]. rewrite He in Hlen. simpl in Hlen. lia.
    - destruct (bytes_eqb_spec (x :: full') [DOT; DOT]) as [He|]; [|done]. rewrite He in Hlen. simpl in Hlen. lia. }
  rewrite <- Hf. unfold full. cbn [app]. rewrite split_last_app by done. by destruct n.
Qed.

(** Compressed rotations overwrite each other. Whatever the time of a
    rotation, its file is compressed under one and the same name: with a
    working disk the compressed data replace whatever an earlier rotation
    had left there, and the rotated file is removed, so at most the last
    compressed rotation exists, whatever number of files is to be kept. *)
Theorem compression_overwrites {E : Env} (Hio : IoOk E) (gzip : bytes -> result bytes bytes) (c : LogRotationConfig) (ts : Z) (fs : LogFs) (f : LogFile) (z : bytes) (w : World) :
  fs !! rotated_path c ts = Some f -> gzip (lf_content f) = Ok z ->
  exists t w', compress_file gzip (rotated_path c ts) fs w =
    (Ret (Ok tt, delete (rotated_path c ts)
       (<[join (get_rotation_dir c) (log_name (log_file_path c) ++ b#".log.gz") := mkLogFile z t]> fs)), w').
Proof.
  intros Hf Hz. unfold compress_file. rewrite bind_run, io_runs. cbv iota beta. rewrite Hf, Hz, compressed_path_fixed.
  rewrite bind_run. unfold system_now. cbv iota beta. rewrite bind_run. unfold fs_call. rewrite bind_run, io_runs.
  unfold mret, M_ret. cbv iota beta. rewrite bind_run, io_runs. by eexists _, _.
Qed.

Lemma compression_overwrites_witness :
  exists t w', compress_file (E := env_ms) (fun b => Ok b) (b#"logs/app.log.30") demo_fs (mkWorld empty_store 0 no_process) =
    (Ret (Ok tt, delete (b#"logs/app.log.30") (<[b#"logs/app.log.log.gz" := mkLogFile (b#"c") t]> demo_fs)), w').
Proof.
  apply (compression_overwrites env_ms_io (fun b => Ok b) demo_rotation 30 demo_fs (mkLogFile (b#"c") 30)).
  - reflexivity.
  - reflexivity.
Defined.

(** A log named without a directory never finishes a rotation. With
    a working disk, no rotation directory configured and a bare log name,
    as in the defaults, the log is renamed and then the cleanup fails
    because the name of its directory is empty: the rotation is an error,
    its time is not recorded, and old files are never removed. *)
Theorem bare_log_rotation_fails {E : Env} {C : Chrono} (Hio : IoOk E) (gzip : bytes -> result bytes bytes) (c : LogRotationConfig) (st : LogRotationStatus) (fs : LogFs) (w : World) :
  bare_name (log_file_path c) -> rotation_dir c = None -> is_Some (fs !! log_file_path c) -> 0 <= wall (w_reads w) ->
  exists fs' w', perform_rotation gzip c st fs w =
    (Ret (Err (rotation_error (b#"Failed to read rotation directory: ") ENOENT), st, fs'), w').
Proof.
  intros Hb Hd Hf Hw.
  assert (get_rotation_dir c = []) as Hdir by (unfold get_rotation_dir; by rewrite Hd, parent_of_bare).
  unfold perform_rotation, log_exists. rewrite bool_decide_eq_true_2 by done. cbn [negb].
  rewrite bind_run. unfold system_now at 1. cbv iota beta. destruct (Z.ltb_spec (wall (w_reads w)) 0); [lia|].
  rewrite bind_run, Hdir. rewrite bool_decide_eq_true_2 by done. unfold mret at 1, M_ret at 1. cbv iota beta.
  rewrite bind_run. unfold fs_call. rewrite bind_run, io_runs. unfold mret at 1, M_ret at 1. cbv iota beta.
  rewrite bind_run. set (fs1 := rename_log _ _ _). set (w1 := tick _).
  assert (exists fs2 w2, (if compress c then '(_, fs) ← compress_file gzip (rotated_path c (as_secs (wall (w_reads w)))) fs1; mret fs
    else mret fs1) w1 = (Ret fs2, w2)) as (fs2 & w2 & ->).
  { destruct (compress c); [|by eexists _, _]. rewrite bind_run.
    assert (exists r fs2 w2, compress_file gzip (rotated_path c (as_secs (wall (w_reads w)))) fs1 w1 = (Ret (r, fs2), w2)) as (r & fs2 & w2 & ->).
    { unfold compress_file. rewrite bind_run, io_runs. cbv iota beta. destruct (fs1 !! _) as [f|]; [|by eexists _, _, _].
      destruct (gzip _) as [z|]; [|by eexists _, _, _]. rewrite bind_run. unfold system_now. cbv iota beta.
      rewrite bind_run. unfold fs_call. rewrite bind_run, io_runs. unfold mret, M_ret. cbv iota beta.
      rewrite bind_run, io_runs. by eexists _, _, _. }
    by eexists _, _. }
  cbv iota beta. rewrite bind_run. unfold cleanup_old_files. rewrite bind_run. unfold read_dir.
  rewrite bind_run, io_runs. cbv iota beta. rewrite bool_decide_eq_true_2 by done. by eexists _, _.
Qed.

(** A calendar in UTC whose texts are decimal nanoseconds. *)
Definition demo_chrono : Chrono :=
  mkChrono dec parse_i64 (fun t => t / (86400 * NANOS)) (fun t => t mod (86400 * NANOS) / (3600 * NANOS)) Z.succ
    (fun d h => if h <? 24 then Some (d * (86400 * NANOS) + h * (3600 * NANOS)) else None).

Lemma bare_log_rotation_fails_witness :
  exists fs' w', perform_rotation (E := env_ms) (C := demo_chrono) (fun b => Ok b) default_rotation new_status
    {[b#"rustypotato.log" := mkLogFile (b#"x") 5]} (mkWorld empty_store 0 no_process) =
    (Ret (Err (rotation_error (b#"Failed to read rotation directory: ") ENOENT), new_status, fs'), w').
Proof.
  apply (bare_log_rotation_fails (C := demo_chrono) env_ms_io (fun b => Ok b) default_rotation new_status).
  - split; [discriminate|reflexivity].
  - reflexivity.
  - vm_compute. by eexists.
  - vm_compute. discriminate.
Defined.
