(* ===== verification/Floats.v ===== *)
(** * Floating-point numbers

    What the source uses of Rust's [f64]: arithmetic, comparison, [clamp],
    conversions from [u64] and to and from [Duration], and formatting with
    [{}] and [{:.n}].  [f64] is the executable specification of IEEE 754
    binary64 that comes with the prover: 53 bits of precision, exponents
    up to 1024, rounding to nearest even. *)

From Stdlib Require Import SpecFloat.
From S2P Require Import Prelude Numbers Errors Values World Persistence Metrics.

(** ** [f64] *)
Abbreviation f64 := spec_float.

(** [u64 as f64] *)
Definition of_u64 (n : Z) : f64 := binary_normalize 53 1024 n 0 false.
Definition f_add : f64 -> f64 -> f64 := SFadd 53 1024.
Definition f_sub : f64 -> f64 -> f64 := SFsub 53 1024.
Definition f_mul : f64 -> f64 -> f64 := SFmul 53 1024.
Definition f_div : f64 -> f64 -> f64 := SFdiv 53 1024.
Definition f_lt : f64 -> f64 -> bool := SFltb.
Definition f_le : f64 -> f64 -> bool := SFleb.
Definition f_zero : f64 := S754_zero false.

(** [f64::clamp] *)
Definition clamp (x lo hi : f64) : f64 := if f_lt x lo then lo else if f_lt hi x then hi else x.

Definition as_secs_f64 (d : Duration) : f64 :=
  f_add (of_u64 (as_secs d)) (f_div (of_u64 (d mod NANOS)) (of_u64 NANOS)).

(** The integer nearest to [num / den], the even one of two. *)
Definition div_half_even (num den : Z) : Z :=
  let q := num / den in
  let r := num mod den in
  if 2 * r <? den then q else if den <? 2 * r then q + 1 else if Z.even q then q else q + 1.

(** [Duration::from_secs_f64]: the nearest nanosecond; negative values,
    NaN and values beyond the range panic. *)
Definition from_secs_f64 (x : f64) : outcome Duration :=
  match x with
  | S754_zero _ => Ret 0
  | S754_finite false m e =>
      let d := if 0 <=? e then Zpos m * 2 ^ e * NANOS else div_half_even (Zpos m * NANOS) (2 ^ (- e)) in
      if DURATION_MAX <? d then Panic else Ret d
  | _ => Panic
  end.

Example from_secs_ex : from_secs_f64 (as_secs_f64 1500000001) = Ret 1500000001.
Proof. vm_compute. reflexivity. Qed.
Example third : from_secs_f64 (f_div (of_u64 1) (of_u64 3)) = Ret 333333333.
Proof. vm_compute. reflexivity. Qed.

(** ** Formatting *)
Definition ZERO : byte := of_u8 48.

(** The decimal digits of [n], at least [width] of them. *)
Definition zero_pad (width : nat) (n : Z) : bytes :=
  let ds := dec n in replicate (width - length ds) ZERO ++ ds.

Definition sign_text (negative : bool) : bytes := if negative then b#"-" else [].

(** [n * 10^-places], with exactly that many places. *)
Definition with_places (n : Z) (places : nat) : bytes :=
  match places with
  | O => dec n
  | _ => dec (n / 10 ^ Z.of_nat places) ++ b#"." ++ zero_pad places (n mod 10 ^ Z.of_nat places)
  end.

(** [{:.places}]: the exact value, rounded to nearest even. *)
Definition show_fixed (places : nat) (x : f64) : bytes :=
  match x with
  | S754_nan => b#"NaN"
  | S754_infinity s => sign_text s ++ b#"inf"
  | S754_zero s => sign_text s ++ with_places 0 places
  | S754_finite s m e =>
      let scaled := Zpos m * 10 ^ Z.of_nat places in
      sign_text s ++ with_places (if 0 <=? e then scaled * 2 ^ e else div_half_even scaled (2 ^ (- e))) places
  end.

(** The numbers that round to [m * 2^e], in units of [2^(e-2)]: from
    [4m - 2] ([4m - 1] below a power of two) to [4m + 2], with the ends
    when [m] is even. *)
Definition rounds_to (m : positive) (e : Z) (num den : Z) : bool :=
  let lo := 4 * Zpos m - (if (Zpos m =? 2 ^ 52) && (-1074 <? e) then 1 else 2) in
  let hi := 4 * Zpos m + 2 in
  if Z.even (Zpos m) then (lo * den <=? num) && (num <=? hi * den) else (lo * den <? num) && (num <? hi * den).

(** [{}]: the multiple of the largest power of ten that rounds to the
    number, the nearer of two. *)
Fixpoint shortest (fuel : nat) (m : positive) (e p : Z) : Z * Z :=
  match fuel with
  | O => (0, 0)
  | S n =>
      let up := 10 ^ Z.max 0 p in
      let down := 10 ^ Z.max 0 (- p) in
      (* the value over 10^p is a / b *)
      let a := Zpos m * 2 ^ Z.max 0 e * down in
      let b := 2 ^ Z.max 0 (- e) * up in
      let d := a / b in
      let fits k := rounds_to m e (k * up * 4 * 2 ^ Z.max 0 (- e)) (down * 2 ^ Z.max 0 e) in
      if fits (d + 1) && (negb (fits d) || (b <=? 2 * (a - d * b))) then (d + 1, p)
      else if fits d then (d, p)
      else shortest n m e (p - 1)
  end.

(** The first power of ten is above the number, and seventeen digits are
    always enough. *)
Definition show_f64 (x : f64) : bytes :=
  match x with
  | S754_nan => b#"NaN"
  | S754_infinity s => sign_text s ++ b#"inf"
  | S754_zero s => sign_text s ++ b#"0"
  | S754_finite s m e =>
      let p := ((Z.log2 (Zpos m) + 1 + e) * 30103) / 100000 + 2 in
      let '(d, p) := shortest 24 m e p in
      sign_text s ++ (if 0 <=? p then dec (d * 10 ^ p) else with_places d (Z.to_nat (- p)))
  end.

Definition f_ratio (a b : Z) : f64 := f_div (of_u64 a) (of_u64 b).

Example show_tenth : show_f64 (f_ratio 1 10) = b#"0.1".
Proof. vm_compute. reflexivity. Qed.
Example show_third : show_f64 (f_ratio 1 3) = b#"0.3333333333333333".
Proof. vm_compute. reflexivity. Qed.
Example show_two_thirds : show_f64 (f_ratio 2 3) = b#"0.6666666666666666".
Proof. vm_compute. reflexivity. Qed.
Example show_whole : show_f64 (of_u64 1000000) = b#"1000000".
Proof. vm_compute. reflexivity. Qed.
Example show_big : show_f64 (of_u64 U64_MAX) = b#"18446744073709552000".
Proof. vm_compute. reflexivity. Qed.
Example show_999 : show_f64 (f_ratio 999 10) = b#"99.9".
Proof. vm_compute. reflexivity. Qed.
Example show_sum : show_f64 (f_add (f_ratio 1 10) (f_ratio 2 10)) = b#"0.30000000000000004".
Proof. vm_compute. reflexivity. Qed.
Example fixed_eighth : show_fixed 2 (f_ratio 1 8) = b#"0.12".
Proof. vm_compute. reflexivity. Qed.
Example fixed_third : show_fixed 2 (f_ratio 200 3) = b#"66.67".
Proof. vm_compute. reflexivity. Qed.
Example fixed_quantile : show_fixed 3 (f_div (f_ratio 999 10) (of_u64 100)) = b#"0.999".
Proof. vm_compute. reflexivity. Qed.
