(* ===== verification/Rates.v ===== *)
(** * Floating-point metrics (src/src/metrics/mod.rs, collector.rs)

    The percentiles, the rates and the summary, computed with [f64]. *)

From S2P Require Import Prelude Errors Values World Persistence Metrics Floats.

(** ** Percentiles *)
Fixpoint percentile_loop (target_count : f64) (bs : list (Duration * Z)) (cumulative_before : Z) (prev_upper : Duration) :
    outcome (option Duration) :=
  match bs with
  | [] => Ret None
  | (bucket_limit, count) :: rest =>
      let cumulative_after := add_u64 cumulative_before count in
      if f_le target_count (of_u64 cumulative_after) then
        if count =? 0 then Ret (Some prev_upper)
        else
          let fraction := f_div (f_sub target_count (of_u64 cumulative_before)) (of_u64 count) in
          let span := bucket_limit - prev_upper in
          match from_secs_f64 (f_mul (as_secs_f64 span) (clamp fraction f_zero (of_u64 1))) with
          | Panic => Panic
          | Ret inside => Ret (Some (prev_upper + inside))
          end
      else percentile_loop target_count rest cumulative_after bucket_limit
  end.

(** Past the loop: the last limit. *)
Definition percentile (h : Histogram) (p : f64) : outcome (option Duration) :=
  if total_count h =? 0 then Ret None
  else
    let target_count := f_div (f_mul (of_u64 (total_count h)) (clamp p f_zero (of_u64 100))) (of_u64 100) in
    match percentile_loop target_count (buckets h) 0 0 with
    | Panic => Panic
    | Ret (Some d) => Ret (Some d)
    | Ret None => Ret (fst <$> last (buckets h))
    end.

(** ** Rates *)
Definition command_error_rate (m : CommandMetrics) (command : bytes) : f64 :=
  let errors := default 0 (command_errors m !! command) in
  let total := default 0 (command_counts m !! command) in
  if 0 <? total then f_div (of_u64 errors) (of_u64 total) else f_zero.

Definition throughput_mbps (n : NetworkMetrics) (d : Duration) : f64 :=
  let total_bytes := add_u64 (total_bytes_read n) (total_bytes_written n) in
  let seconds := as_secs_f64 d in
  if f_lt f_zero seconds then f_div (f_mul (of_u64 total_bytes) (of_u64 8)) (f_mul seconds (of_u64 1000000))
  else f_zero.

Definition cache_hit_rate (s : StorageMetrics) : f64 :=
  let total_cache_ops := add_u64 (cache_hits s) (cache_misses s) in
  if 0 <? total_cache_ops then f_div (of_u64 (cache_hits s)) (of_u64 total_cache_ops) else f_zero.

(** ** The summary *)
Record MetricsSummary : Type := mkMetricsSummary {
  sum_uptime : Duration;
  sum_total_operations : Z;
  sum_operations_per_second : f64;
  average_latency : option Duration;
  p95_latency : option Duration;
  p99_latency : option Duration;
  sum_total_commands : Z;
  sum_most_frequent : option (bytes * Z);
  sum_bytes_read : Z;
  sum_bytes_written : Z;
  sum_active_connections : Z;
  memory_usage_bytes : Z;
  storage_operations : Z
}.

Section Summary.
Context {E : Env}.

Definition operations_per_second (p : PerformanceMetrics) : M f64 :=
  e ← elapsed (perf_start_time p);
  let elapsed := as_secs_f64 e in
  mret (if f_lt f_zero elapsed then f_div (of_u64 (total_operations p)) elapsed else f_zero).

(** A computation that may panic, as an effect. *)
Definition may_panic {A} (o : outcome A) : M A := match o with Ret a => mret a | Panic => panic end.

Definition get_summary (m : MetricsCollector) : M MetricsSummary :=
  up ← uptime m;
  ops ← operations_per_second (performance m);
  avg ← may_panic (average (latency_histogram (performance m)));
  p95 ← may_panic (percentile (latency_histogram (performance m)) (of_u64 95));
  p99 ← may_panic (percentile (latency_histogram (performance m)) (of_u64 99));
  most ← most_frequent_command (commands_m m);
  mret (mkMetricsSummary up (total_operations (performance m)) ops avg p95 p99
          (total_commands (commands_m m)) most (total_bytes_read (network m)) (total_bytes_written (network m))
          (active_count (network m)) (current_memory_usage (performance m)) (total_storage_operations (storage_m m))).
End Summary.

(** A hundred samples of 1 to 100 microseconds: half of them are below 50,
    and the percentile interpolates. *)
Definition hundred : outcome Histogram :=
  fold_left (fun o i => match o with Ret h => hist_record h (from_micros (Z.of_nat i)) | Panic => Panic end)
    (seq 1 100) (Ret new_histogram).

Example percentile_50 : match hundred with Ret h => percentile h (of_u64 50) | Panic => Panic end = Ret (Some (from_micros 50)).
Proof. vm_compute. reflexivity. Qed.
Example percentile_75 : match hundred with Ret h => percentile h (of_u64 75) | Panic => Panic end = Ret (Some (from_micros 75)).
Proof. vm_compute. reflexivity. Qed.
