(* ===== verification/Health.v ===== *)
(** * Health checks (src/src/monitoring/health.rs)

    What the checker looks at, how it classifies what it finds, and what
    it does to the store on the way.  The system's memory size and the text
    of a timestamp are parameters. *)

From S2P Require Import Prelude Numbers Errors Values World MemoryStore Persistence Metrics LogRotation Floats Rates.

Record ComponentHealth : Type := mkComponentHealth {
  ch_status : bytes;
  ch_last_check : bytes;
  response_time_ms : Z;
  details : gmap bytes bytes;
  ch_error : option bytes
}.

Record HealthSummary : Type := mkHealthSummary {
  healthy_components : nat;
  unhealthy_components : nat;
  total_components : nat;
  hs_overall_status : bytes
}.

Record HealthStatus : Type := mkHealthStatus {
  h_status : bytes;
  h_timestamp : bytes;
  uptime_seconds : Z;
  h_components : gmap bytes ComponentHealth;
  h_summary : HealthSummary
}.

Record HealthCheckResult : Type := mkHealthCheckResult {
  is_healthy : bool;
  health_status : HealthStatus
}.

(** The checker's own state: the cache. *)
Record HealthChecker : Type := mkHealthChecker {
  cached : gmap bytes ComponentHealth;
  last_check : Instant
}.

Definition CHECK_INTERVAL : Duration := from_secs 30.

(** ** Classification *)
Definition overall_status (healthy unhealthy : nat) : bytes :=
  if (unhealthy =? 0)%nat then b#"healthy"
  else if (unhealthy <? healthy)%nat then b#"degraded"
  else b#"unhealthy".

Definition healthy_count (components : gmap bytes ComponentHealth) : nat :=
  size (filter (fun kc : bytes * ComponentHealth => ch_status kc.2 = b#"healthy") components).

Definition summarize (components : gmap bytes ComponentHealth) : HealthSummary :=
  let healthy := healthy_count components in
  let total := size components in
  mkHealthSummary healthy (total - healthy) total (overall_status healthy (total - healthy)).

(** The share in percent, and the limits it is held against. *)
Definition percent (part total : Z) : f64 := f_mul (f_div (of_u64 part) (of_u64 total)) (of_u64 100).

Definition above (x : f64) (bad worse : Z) : bytes :=
  if f_lt (of_u64 worse) x then b#"unhealthy" else if f_lt (of_u64 bad) x then b#"degraded" else b#"healthy".

Definition error_if (status message : bytes) : option bytes :=
  if bytes_eqb status (b#"unhealthy") then Some message else None.

Section Checks.
Context {E : Env} {C : Chrono}.
(** [sys_info::mem_info], in kilobytes. *)
Variable mem_total_kb : option Z.

Definition as_ms (d : Duration) : Z := wrap_u64 (as_millis d).

(** The time stamp, then the time the check took. *)
Definition component (start_time : Instant) (status : bytes) (details : gmap bytes bytes) (error : option bytes) :
    M ComponentHealth :=
  t ← system_now;
  e ← elapsed start_time;
  mret (mkComponentHealth status (to_rfc3339 t) (as_ms e) details error).

(** *** Storage *)
Definition test_key : bytes := b#"__health_check_test__".
Definition test_value : bytes := b#"health_check_value".

Definition op_detail (s : bytes) : gmap bytes bytes := {[b#"test_operation" := s]}.

Definition check_storage_health : M ComponentHealth :=
  start_time ← now;
  r ← set test_key (VString test_value);
  match r with
  | Err e => component start_time (b#"unhealthy") (op_detail (b#"set_failed")) (Some (b#"Storage set failed: " ++ display e))
  | Ok _ =>
      r ← get test_key;
      match r with
      | Err e => component start_time (b#"unhealthy") (op_detail (b#"get_failed")) (Some (b#"Storage get failed: " ++ display e))
      | Ok None =>
          component start_time (b#"unhealthy") (op_detail (b#"key_not_found"))
            (Some (b#"Storage test key not found after set"))
      | Ok (Some sv) =>
          if bytes_eqb (as_string (value sv)) test_value then
            _ ← delete_key test_key;
            component start_time (b#"healthy")
              (<[b#"storage_type" := b#"memory"]> (op_detail (b#"success"))) None
          else
            component start_time (b#"unhealthy") (op_detail (b#"value_mismatch")) (Some (b#"Storage test value mismatch"))
      end
  end.

(** *** Metrics *)
Definition check_metrics_health (m : MetricsCollector) : M ComponentHealth :=
  start_time ← now;
  s ← get_summary m;
  component start_time (b#"healthy")
    (<[b#"active_connections" := dec (sum_active_connections s)]>
       (<[b#"uptime_seconds" := dec (as_secs (sum_uptime s))]>
          {[b#"total_operations" := dec (sum_total_operations s)]})) None.

(** *** Memory *)
Definition check_memory_health (m : MetricsCollector) : M ComponentHealth :=
  start_time ← now;
  let current_memory := current_memory_usage (performance m) in
  let base := <[b#"peak_memory_bytes" := dec (peak_memory_usage (performance m))]>
                {[b#"current_memory_bytes" := dec current_memory]} in
  let '(status, details) :=
    match mem_total_kb with
    | Some kb =>
        let total_memory := wrap_u64 (kb * 1024) in
        let usage := percent current_memory total_memory in
        (above usage 80 90,
         <[b#"memory_usage_percent" := show_fixed 2 usage]> (<[b#"total_system_memory_bytes" := dec total_memory]> base))
    | None =>
        (if 1024 * 1024 * 1024 <? current_memory then b#"degraded" else b#"healthy",
         <[b#"system_info" := b#"unavailable"]> base)
    end in
  component start_time status details (error_if status (b#"High memory usage detected")).

(** *** Disk *)
Definition test_file : bytes := b#".health_check_disk_test".

(** [tokio::fs::write] in the current directory. *)
Definition write_test_file : M (result bytes unit) :=
  r ← io_call;
  match r with
  | Some (_, e) => mret (Err e)
  | None =>
      _ ← modifyp (fun p => set_disk p (<[test_file := mkFile [] 0]> (disk p)));
      r ← io_call;
      match r with
      | Some (k, e) => _ ← modifyp (fun p => set_disk p (append test_file (take k (b#"test")) (disk p))); mret (Err e)
      | None => _ ← modifyp (fun p => set_disk p (append test_file (b#"test") (disk p))); mret (Ok tt)
      end
  end.

Definition remove_test_file : M unit :=
  r ← io_call;
  match r with
  | Some _ => mret tt
  | None => modifyp (fun p => set_disk p (delete test_file (disk p)))
  end.

Definition check_disk_health : M ComponentHealth :=
  start_time ← now;
  r ← write_test_file;
  '(status, details) ← match r with
    | Ok _ => _ ← remove_test_file; mret (b#"healthy", {[b#"disk_write_test" := b#"success"]})
    | Err e => mret (b#"unhealthy", <[b#"error" := e]> {[b#"disk_write_test" := b#"failed"]})
    end;
  component start_time status details (error_if status (b#"Disk write test failed")).

(** *** Network *)
Definition rejection_rate (n : NetworkMetrics) : f64 :=
  let total := add_u64 (connections_accepted n) (connections_rejected n) in
  if 0 <? total then percent (connections_rejected n) total else f_zero.

Definition check_network_health (m : MetricsCollector) : M ComponentHealth :=
  start_time ← now;
  let n := network m in
  let rate := rejection_rate n in
  let status := above rate 20 50 in
  component start_time status
    (<[b#"connection_rejection_rate_percent" := show_fixed 2 rate]>
      (<[b#"connections_rejected" := dec (connections_rejected n)]>
        (<[b#"connections_accepted" := dec (connections_accepted n)]>
          (<[b#"total_bytes_written" := dec (total_bytes_written n)]>
            (<[b#"total_bytes_read" := dec (total_bytes_read n)]>
              {[b#"active_connections" := dec (active_count n)]})))))
    (error_if status (b#"High connection rejection rate")).

(** ** The checker *)
Definition status_of (m : MetricsCollector) (components : gmap bytes ComponentHealth) : M HealthStatus :=
  let s := summarize components in
  up ← uptime m;
  t ← system_now;
  mret (mkHealthStatus (hs_overall_status s) (to_rfc3339 t) (as_secs up) components s).

Definition check_all_components (m : MetricsCollector) (h : HealthChecker) : M (HealthCheckResult * HealthChecker) :=
  _ ← now;
  storage_health ← check_storage_health;
  metrics_health ← check_metrics_health m;
  memory_health ← check_memory_health m;
  disk_health ← check_disk_health;
  network_health ← check_network_health m;
  let components :=
    <[b#"network" := network_health]> (<[b#"disk" := disk_health]> (<[b#"memory" := memory_health]>
      (<[b#"metrics" := metrics_health]> {[b#"storage" := storage_health]}))) in
  t ← now;
  status ← status_of m components;
  mret (mkHealthCheckResult (bytes_eqb (h_status status) (b#"healthy")) status, mkHealthChecker components t).

Definition is_ready (m : MetricsCollector) : M bool :=
  storage_health ← check_storage_health;
  metrics_health ← check_metrics_health m;
  mret (bytes_eqb (ch_status storage_health) (b#"healthy") && bytes_eqb (ch_status metrics_health) (b#"healthy")).

Definition is_alive : M bool := mret true.

Definition get_cached_status (m : MetricsCollector) (h : HealthChecker) : M (option HealthStatus) :=
  e ← elapsed (last_check h);
  if (e <? CHECK_INTERVAL) && negb (bool_decide (cached h = ∅)) then
    s ← status_of m (cached h); mret (Some s)
  else mret None.
End Checks.
