(* ===== verification/HealthThms.v ===== *)
(** * Theorems about the health checks

    What the checks do to the store, and what the report means. *)

From S2P Require Import Prelude Numbers Errors Values World MemoryStore StoreInv Persistence Effects Metrics LogRotation LogRotationThms Floats Rates Health.

(** The store without a key. *)
Definition without (k : bytes) (s : MemoryStore) : MemoryStore :=
  mkMemoryStore (delete k (data s)) (delete k (expiration_index s)).

Section Checks.
Context {E : Env} {C : Chrono}.
Variable mem_total_kb : option Z.

(** ** All checks but the first leave the store alone *)
Lemma same_may_panic {A} (o : outcome A) : store_same _ (may_panic o).
Proof. destruct o; [apply eff_ret|done]. Qed.

Ltac look := eff_walk; try first [prim | apply same_may_panic].

Lemma same_elapsed t : store_same _ (elapsed t).
Proof. unfold elapsed. look. Qed.
Lemma same_component t s d e : store_same _ (component t s d e).
Proof. unfold component. look. apply same_elapsed. Qed.
Lemma same_summary m : store_same _ (get_summary m).
Proof. unfold get_summary, uptime, operations_per_second, most_frequent_command. look; apply same_elapsed. Qed.
Lemma same_metrics m : store_same _ (check_metrics_health m).
Proof. unfold check_metrics_health. look; [apply same_summary|apply same_component]. Qed.
Lemma same_memory m : store_same _ (check_memory_health mem_total_kb m).
Proof. unfold check_memory_health. look. cbv zeta. destruct mem_total_kb; apply same_component. Qed.
Lemma same_disk : store_same _ check_disk_health.
Proof. unfold check_disk_health, write_test_file, remove_test_file. look. apply same_component. Qed.
Lemma same_network m : store_same _ (check_network_health m).
Proof. unfold check_network_health. look. apply same_component. Qed.
Lemma same_status m c : store_same _ (status_of m c).
Proof. unfold status_of, uptime. look. apply same_elapsed. Qed.

(** The storage check succeeds on any store and leaves it without the
    test key. *)
Lemma storage_check_run w :
  exists c w', check_storage_health w = (Ret c, w') /\ ch_status c = b#"healthy" /\
    w_store w' = without test_key (w_store w).
Proof.
  destruct w as [[d x] r p]. eexists _, _. split; [|split].
  - unfold check_storage_health, set, get, delete_key, component, elapsed. run_unfold. simpl.
    repeat (rewrite lookup_insert_eq; simpl). reflexivity.
  - reflexivity.
  - simpl. unfold without. simpl. by rewrite delete_insert_eq, delete_delete_eq.
Qed.

(** A full check, part by part. *)
Lemma check_all_run m h w res h' w' :
  check_all_components mem_total_kb m h w = (Ret (res, h'), w') ->
  exists cs cm cy cd cn, ch_status cs = b#"healthy" /\ ch_status cm = b#"healthy" /\
    w_store w' = without test_key (w_store w) /\
    h_components (health_status res) =
      <[b#"network" := cn]> (<[b#"disk" := cd]> (<[b#"memory" := cy]> (<[b#"metrics" := cm]> {[b#"storage" := cs]}))) /\
    h_summary (health_status res) = summarize (h_components (health_status res)) /\
    h_status (health_status res) = hs_overall_status (h_summary (health_status res)) /\
    is_healthy res = bytes_eqb (h_status (health_status res)) (b#"healthy") /\ cached h' = h_components (health_status res).
Proof.
  unfold check_all_components. rewrite bind_run. unfold now at 1. cbv iota beta. rewrite bind_run.
  destruct (storage_check_run (tick w)) as (cs & w1 & -> & Hcs & Hs1). cbv iota beta. rewrite bind_run.
  pose proof (same_metrics m w1) as [H2 _]. unfold after in H2.
  destruct (check_metrics_health m w1) as [[cm|] w2] eqn:Hm; [|done]. simpl in H2.
  assert (ch_status cm = b#"healthy") as Hcm.
  { revert Hm. unfold check_metrics_health. rewrite bind_run. unfold now. cbv iota beta. rewrite bind_run.
    destruct (get_summary m (tick w1)) as [[s|] w3]; [|done]. by intros [= <- _]. }
  rewrite bind_run. pose proof (same_memory m w2) as [H3 _]. unfold after in H3.
  destruct (check_memory_health mem_total_kb m w2) as [[cy|] w3]; [|done]. simpl in H3.
  rewrite bind_run. pose proof (same_disk w3) as [H4 _]. unfold after in H4.
  destruct (check_disk_health w3) as [[cd|] w4]; [|done]. simpl in H4.
  rewrite bind_run. pose proof (same_network m w4) as [H5 _]. unfold after in H5.
  destruct (check_network_health m w4) as [[cn|] w5]; [|done]. simpl in H5.
  rewrite bind_run. unfold now at 1. cbv iota beta. unfold status_of. rewrite !bind_run.
  destruct (uptime m (tick w5)) as [[up|] w6] eqn:Hu; [|done].
  pose proof (same_elapsed (start_time m) (tick w5)) as [H6 _]. unfold after in H6. fold (uptime m) in H6. rewrite Hu in H6. simpl in H6.
  rewrite bind_run. unfold system_now. cbv iota beta. unfold mret, M_ret. cbv iota beta. intros [= <- <- <-].
  exists cs, cm, cy, cd, cn. repeat (split; [done|]). split; [|done].
  simpl. rewrite H6, H5, H4, H3, H2, Hs1. done.
Qed.
End Checks.

(** ** The report *)
Lemma healthy_count_all (cs : gmap bytes ComponentHealth) :
  (healthy_count cs <= size cs)%nat /\
  (healthy_count cs = size cs <-> map_Forall (fun _ c => ch_status c = b#"healthy") cs).
Proof.
  unfold healthy_count. set (P := fun kc : bytes * ComponentHealth => ch_status kc.2 = b#"healthy").
  pose proof (map_filter_subseteq P cs) as Hsub. split; [by apply map_subseteq_size|]. split.
  - intros Heq k c Hk. rewrite <- (map_subseteq_size_eq _ _ Hsub) in Hk by lia.
    by apply map_lookup_filter_Some in Hk as [_ Hk].
  - intros Hall. by rewrite (map_filter_id P cs) by exact Hall.
Qed.

(** How many of the components of a full check are healthy. *)
Definition count_healthy (l : list ComponentHealth) : nat :=
  length (filter (fun c => ch_status c = b#"healthy") l).

Lemma count_one c : ch_status c = b#"healthy" -> count_healthy [c] = 1%nat.
Proof. intros Hc. unfold count_healthy. by rewrite filter_cons, decide_True. Qed.

Lemma healthy_count_insert (k : bytes) (c : ComponentHealth) (cs : gmap bytes ComponentHealth) :
  cs !! k = None -> healthy_count (<[k := c]> cs) = (count_healthy [c] + healthy_count cs)%nat.
Proof.
  intros Hk. unfold healthy_count, count_healthy. rewrite map_filter_insert, filter_cons. cbn [snd].
  destruct (decide (ch_status c = b#"healthy")) as [Hc|Hc].
  - rewrite map_size_insert_None; [done|]. by apply map_lookup_filter_None_2; left.
  - rewrite map_filter_delete, delete_id; [done|]. by apply map_lookup_filter_None_2; left.
Qed.

(** C40: What a health report says is true. A full health check that
    returns has put and removed its test key and changed nothing else in
    the store (a key of that name is gone afterwards); its report covers
    the five components and its counts add up; it is healthy exactly when
    all five are, and unhealthy only when memory, disk and network all are
    not, since the checks of the store and of the metrics cannot fail. The
    cache then holds the same components. *)
Theorem health_report_sound {E : Env} {C : Chrono} (mem_total_kb : option Z) (m : MetricsCollector) (h : HealthChecker) (w : World) (res : HealthCheckResult) (h' : HealthChecker) (w' : World) :
  check_all_components mem_total_kb m h w = (Ret (res, h'), w') ->
  w_store w' = without test_key (w_store w) /\
  let cs := h_components (health_status res) in
  let s := h_summary (health_status res) in
  cached h' = cs /\ dom cs = {[b#"storage"; b#"metrics"; b#"memory"; b#"disk"; b#"network"]} /\
  (healthy_components s + unhealthy_components s = 5)%nat /\
  (is_healthy res = true <-> map_Forall (fun _ c => ch_status c = b#"healthy") cs) /\
  (h_status (health_status res) = b#"unhealthy" ->
     forall k c, cs !! k = Some c -> k <> b#"storage" -> k <> b#"metrics" -> ch_status c <> b#"healthy").
Proof.
  intros H. apply check_all_run in H as (c1 & c2 & c3 & c4 & c5 & H1 & H2 & Hst & Hcs & Hsum & Hstat & Hh & Hca).
  split; [done|]. cbv zeta. split; [done|]. rewrite Hh, Hstat, Hsum. set (cs := h_components (health_status res)) in *.
  assert (size cs = 5)%nat as Hsize by (rewrite Hcs; reflexivity).
  destruct (healthy_count_all cs) as [Hle Hall].
  assert (healthy_count cs = 2 + count_healthy [c3] + count_healthy [c4] + count_healthy [c5])%nat as Hcount.
  { rewrite Hcs, !healthy_count_insert by reflexivity.
    change ({[b#"storage" := c1]} : gmap bytes ComponentHealth) with (<[b#"storage" := c1]> (∅ : gmap bytes ComponentHealth)).
    rewrite healthy_count_insert by reflexivity. rewrite (count_one c1 H1), (count_one c2 H2).
    unfold healthy_count. rewrite map_filter_empty, map_size_empty. lia. }
  split; [rewrite Hcs, !dom_insert_L, dom_singleton_L; apply set_eq; intros k; rewrite !elem_of_union; tauto|]. unfold summarize. cbn [healthy_components unhealthy_components hs_overall_status].
  rewrite Hsize. split; [lia|]. unfold overall_status. split.
  - rewrite <- Hall, Hsize. destruct (Nat.eqb_spec (5 - healthy_count cs) 0); [split; [intros _; lia|done]|].
    destruct (Nat.ltb_spec (5 - healthy_count cs) (healthy_count cs)); split; intros; try done; lia.
  - destruct (Nat.eqb_spec (5 - healthy_count cs) 0); [done|].
    destruct (Nat.ltb_spec (5 - healthy_count cs) (healthy_count cs)); [done|]. intros _ k c Hk Hn1 Hn2 Hc.
    pose proof (count_one c Hc) as Hone.
    rewrite Hcs in Hk. repeat (apply lookup_insert_Some in Hk as [[<- <-]|[? Hk]]; [lia || done|]).
    by apply lookup_singleton_Some in Hk as [<- _].
Qed.

Definition demo_collector : MetricsCollector :=
  mkMetricsCollector (mkPerformanceMetrics new_histogram 0 0 0 0) new_command_metrics (mkNetworkMetrics 0 0 1 3 0 1) new_storage_metrics 0.

(** Three connections of four were refused. *)
Definition demo_check : outcome (HealthCheckResult * HealthChecker) * World :=
  check_all_components (E := env_ms) (C := demo_chrono) None demo_collector (mkHealthChecker ∅ 0)
    (mkWorld empty_store 0 no_process).

Lemma demo_check_degraded :
  match demo_check.1 with Ret (res, _) => bytes_eqb (h_status (health_status res)) (b#"degraded") | Panic => false end = true.
Proof. vm_compute. reflexivity. Qed.

Lemma health_report_sound_witness :
  exists res h' w', demo_check = (Ret (res, h'), w') /\ h_status (health_status res) = b#"degraded" /\
    w_store w' = without test_key empty_store.
Proof.
  pose proof demo_check_degraded as Hd. destruct demo_check as [[[res h']|] w'] eqn:Hr; [|discriminate Hd].
  exists res, h', w'. split; [reflexivity|]. split; [exact (proj2 (Bool.reflect_iff _ _ (bytes_eqb_spec _ _)) Hd)|].
  apply (health_report_sound (E := env_ms) (C := demo_chrono) None demo_collector (mkHealthChecker ∅ 0)
    (mkWorld empty_store 0 no_process) res h' w' Hr).
Defined.
