(* ===== verification/Monitoring.v ===== *)
(** * The monitoring server (src/src/monitoring.rs)

    What an HTTP request is answered with, and the Prometheus text.  A
    request is what one read of the socket brings; the write and the flush
    are I/O calls of the world.  JSON texts ([serde_json]) are parameters,
    as are gzip, the calendar and the memory size of the components below. *)

From S2P Require Import Prelude Numbers Utf8 Errors Values World Persistence ServerCommands Metrics LogRotation Floats Rates Health.

Record LogRotationManager : Type := mkLogRotationManager {
  rot_config : LogRotationConfig;
  rot_status : LogRotationStatus
}.

Record MonitoringServer : Type := mkMonitoringServer {
  health_checker : HealthChecker;
  metrics_collector : MetricsCollector;
  log_rotation : LogRotationManager;
  mon_bind_address : bytes;
  mon_port : Z
}.

Definition with_health (s : MonitoringServer) (h : HealthChecker) : MonitoringServer :=
  mkMonitoringServer h (metrics_collector s) (log_rotation s) (mon_bind_address s) (mon_port s).
Definition with_rotation (s : MonitoringServer) (st : LogRotationStatus) : MonitoringServer :=
  mkMonitoringServer (health_checker s) (metrics_collector s)
    (mkLogRotationManager (rot_config (log_rotation s)) st) (mon_bind_address s) (mon_port s).

(** ** Texts *)
Definition QUOTE : byte := of_u8 34.
Definition quoted (s : bytes) : bytes := [QUOTE] ++ s ++ [QUOTE].

(** [{"k1": "v1", "k2": "v2"}] *)
Definition json_pairs (kvs : list (bytes * bytes)) : bytes :=
  b#"{" ++ Command.join (b#", ") (map (fun '(k, v) => quoted k ++ b#": " ++ quoted v) kvs) ++ b#"}".

Definition http_response (code : Z) (reason content_type body : bytes) : bytes :=
  b#"HTTP/1.1 " ++ dec code ++ b#" " ++ reason ++ CRLF ++
  b#"Content-Type: " ++ content_type ++ CRLF ++
  b#"Content-Length: " ++ dec (zlen body) ++ CRLF ++ CRLF ++ body.

(** 200 or 503. *)
Definition probe_response (ok : bool) (content_type body : bytes) : bytes :=
  let status_code := if ok then 200 else 503 in
  http_response status_code (if status_code =? 200 then b#"OK" else b#"Service Unavailable") content_type body.

Definition json_type : bytes := b#"application/json".
Definition text_type : bytes := b#"text/plain".

(** ** The Prometheus text *)
Definition pline (s : bytes) : bytes := s ++ [LF].

Definition describe (metric kind help : bytes) : bytes :=
  pline (b#"# HELP " ++ metric ++ b#" " ++ help) ++ pline (b#"# TYPE " ++ metric ++ b#" " ++ kind).

Definition sample (metric v : bytes) : bytes := pline (metric ++ b#" " ++ v).
Definition labelled (metric label l v : bytes) : bytes :=
  pline (metric ++ b#"{" ++ label ++ b#"=" ++ quoted l ++ b#"} " ++ v).

(** The percentages of the quantiles, 50 to 99.9. *)
Definition percentiles : list f64 :=
  [of_u64 50; of_u64 75; of_u64 90; of_u64 95; of_u64 99; f_ratio 999 10].

Fixpoint quantile_lines (h : Histogram) (ps : list f64) : outcome bytes :=
  match ps with
  | [] => Ret []
  | p :: rest =>
      match percentile h p with
      | Panic => Panic
      | Ret o =>
          let line :=
            match o with
            | Some latency =>
                labelled (b#"rustypotato_latency_seconds") (b#"quantile") (show_fixed 3 (f_div p (of_u64 100)))
                  (show_f64 (as_secs_f64 latency))
            | None => []
            end in
          match quantile_lines h rest with
          | Panic => Panic
          | Ret lines => Ret (line ++ lines)
          end
      end
  end.

Definition latency_lines (average : option Duration) (h : Histogram) : outcome bytes :=
  match average with
  | None => Ret []
  | Some _ =>
      match quantile_lines h percentiles with
      | Panic => Panic
      | Ret lines =>
          Ret (describe (b#"rustypotato_latency_seconds") (b#"histogram") (b#"Average operation latency") ++
               sample (b#"rustypotato_latency_seconds_sum") (show_f64 (as_secs_f64 (total_sum h))) ++
               sample (b#"rustypotato_latency_seconds_count") (dec (total_count h)) ++
               lines)
      end
  end.

Definition command_lines (metric : bytes) (l : list (bytes * Z)) : bytes :=
  concat (map (fun '(command, count) => labelled metric (b#"command") command (dec count)) l).

Definition network_lines (n : NetworkMetrics) : bytes :=
  describe (b#"rustypotato_network_bytes_total") (b#"counter") (b#"Total network bytes transferred") ++
  labelled (b#"rustypotato_network_bytes_total") (b#"direction") (b#"read") (dec (total_bytes_read n)) ++
  labelled (b#"rustypotato_network_bytes_total") (b#"direction") (b#"written") (dec (total_bytes_written n)) ++
  describe (b#"rustypotato_connections_total") (b#"counter") (b#"Total connections by status") ++
  labelled (b#"rustypotato_connections_total") (b#"status") (b#"accepted") (dec (connections_accepted n)) ++
  labelled (b#"rustypotato_connections_total") (b#"status") (b#"rejected") (dec (connections_rejected n)) ++
  labelled (b#"rustypotato_connections_total") (b#"status") (b#"closed") (dec (connections_closed n)) ++
  describe (b#"rustypotato_active_connections") (b#"gauge") (b#"Current number of active connections") ++
  sample (b#"rustypotato_active_connections") (dec (active_count n)).

Definition memory_lines (p : PerformanceMetrics) : bytes :=
  describe (b#"rustypotato_memory_usage_bytes") (b#"gauge") (b#"Current memory usage") ++
  sample (b#"rustypotato_memory_usage_bytes") (dec (current_memory_usage p)) ++
  describe (b#"rustypotato_memory_peak_bytes") (b#"gauge") (b#"Peak memory usage") ++
  sample (b#"rustypotato_memory_peak_bytes") (dec (peak_memory_usage p)).

Definition storage_lines (s : StorageMetrics) : bytes :=
  describe (b#"rustypotato_storage_operations_total") (b#"counter") (b#"Total storage operations") ++
  labelled (b#"rustypotato_storage_operations_total") (b#"type") (b#"aof_write") (dec (aof_writes s)) ++
  labelled (b#"rustypotato_storage_operations_total") (b#"type") (b#"memory") (dec (memory_operations s)) ++
  describe (b#"rustypotato_aof_bytes_written_total") (b#"counter") (b#"Total bytes written to AOF") ++
  sample (b#"rustypotato_aof_bytes_written_total") (dec (aof_bytes_written s)) ++
  describe (b#"rustypotato_cache_operations_total") (b#"counter") (b#"Cache operations") ++
  labelled (b#"rustypotato_cache_operations_total") (b#"result") (b#"hit") (dec (cache_hits s)) ++
  labelled (b#"rustypotato_cache_operations_total") (b#"result") (b#"miss") (dec (cache_misses s)) ++
  (if 0 <? add_u64 (cache_hits s) (cache_misses s) then
     describe (b#"rustypotato_cache_hit_rate") (b#"gauge") (b#"Cache hit rate") ++
     sample (b#"rustypotato_cache_hit_rate") (show_f64 (cache_hit_rate s))
   else []).

Section Monitoring.
Context {E : Env} {C : Chrono}.
Variable mem_total_kb : option Z.
Variable gzip : bytes -> result bytes bytes.
(** [serde_json::to_string_pretty] and the [BUILD_ID] of the build. *)
Variable json_health : HealthStatus -> option bytes.
Variable json_summary : MetricsSummary -> option bytes.
Variable json_log_status : LogRotationStatus -> option bytes.
Variable build_id : option bytes.

(** Both loops over [command_counts] are over one table, so in one order. *)
Definition format_prometheus_metrics (m : MetricsCollector) : M bytes :=
  summary ← get_summary m;
  let p := performance m in
  let c := commands_m m in
  latency ← may_panic (latency_lines (average_latency summary) (latency_histogram p));
  counts ← iterate (command_counts c);
  errors ← iterate (command_errors c);
  mret (
    describe (b#"rustypotato_info") (b#"gauge") (b#"Server information") ++
    pline (b#"rustypotato_info{version=" ++ quoted VERSION ++ b#",build=" ++ quoted (default (b#"unknown") build_id) ++ b#"} 1") ++
    describe (b#"rustypotato_uptime_seconds") (b#"counter") (b#"Server uptime in seconds") ++
    sample (b#"rustypotato_uptime_seconds") (dec (as_secs (sum_uptime summary))) ++
    describe (b#"rustypotato_operations_total") (b#"counter") (b#"Total number of operations") ++
    sample (b#"rustypotato_operations_total") (dec (sum_total_operations summary)) ++
    describe (b#"rustypotato_operations_per_second") (b#"gauge") (b#"Operations per second") ++
    sample (b#"rustypotato_operations_per_second") (show_f64 (sum_operations_per_second summary)) ++
    latency ++
    describe (b#"rustypotato_commands_total") (b#"counter") (b#"Total number of commands by type") ++
    command_lines (b#"rustypotato_commands_total") counts ++
    describe (b#"rustypotato_command_errors_total") (b#"counter") (b#"Total number of command errors by type") ++
    command_lines (b#"rustypotato_command_errors_total") errors ++
    describe (b#"rustypotato_command_error_rate") (b#"gauge") (b#"Command error rate by type") ++
    concat (map (fun '(command, _) =>
      labelled (b#"rustypotato_command_error_rate") (b#"command") command (show_f64 (command_error_rate c command))) counts) ++
    network_lines (network m) ++ memory_lines p ++ storage_lines (storage_m m)).

(** ** Handlers *)
Definition handle_health_check (s : MonitoringServer) : M (bytes * MonitoringServer) :=
  '(r, h) ← check_all_components mem_total_kb (metrics_collector s) (health_checker s);
  let json := default (json_pairs [(b#"status", b#"error"); (b#"message", b#"Failed to serialize health check")])
                (json_health (health_status r)) in
  mret (probe_response (is_healthy r) json_type json, with_health s h).

Definition handle_readiness_check (s : MonitoringServer) : M bytes :=
  is_ready ← is_ready (metrics_collector s);
  mret (probe_response is_ready text_type (if (is_ready : bool) then b#"READY" else b#"NOT READY")).

Definition handle_liveness_check : M bytes :=
  is_alive ← is_alive;
  mret (probe_response is_alive text_type (if (is_alive : bool) then b#"ALIVE" else b#"NOT ALIVE")).

Definition handle_metrics_request (s : MonitoringServer) : M bytes :=
  metrics ← format_prometheus_metrics (metrics_collector s);
  mret (http_response 200 (b#"OK") (b#"text/plain; version=0.0.4; charset=utf-8") metrics).

Definition handle_metrics_summary (s : MonitoringServer) : M bytes :=
  summary ← get_summary (metrics_collector s);
  mret (http_response 200 (b#"OK") json_type
    (default (json_pairs [(b#"error", b#"Failed to serialize metrics summary")]) (json_summary summary))).

(** [rotate_now] *)
Definition rotate_now (r : LogRotationManager) (fs : LogFs) : M (Result unit * LogRotationStatus * LogFs) :=
  perform_rotation gzip (rot_config r) (rot_status r) fs.

Definition handle_log_rotation (s : MonitoringServer) (fs : LogFs) : M (bytes * MonitoringServer * LogFs) :=
  '(r, st, fs) ← rotate_now (log_rotation s) fs;
  let response :=
    match r with
    | Ok _ => http_response 200 (b#"OK") json_type
                (json_pairs [(b#"status", b#"success"); (b#"message", b#"Log rotation completed")])
    | Err e => http_response 500 (b#"Internal Server Error") json_type
                 (json_pairs [(b#"status", b#"error"); (b#"message", b#"Log rotation failed: " ++ display e)])
    end in
  mret (response, with_rotation s st, fs).

(** [get_status] *)
Definition get_status (r : LogRotationManager) (fs : LogFs) : M LogRotationStatus :=
  update_status (rot_config r) (rot_status r) fs.

Definition handle_log_status (s : MonitoringServer) (fs : LogFs) : M (bytes * MonitoringServer) :=
  st ← get_status (log_rotation s) fs;
  mret (http_response 200 (b#"OK") json_type
          (default (json_pairs [(b#"error", b#"Failed to serialize log status")]) (json_log_status st)),
        with_rotation s st).

Definition handle_not_found : bytes := http_response 404 (b#"Not Found") text_type (b#"Not Found").

(** ** Requests *)

(** [str::lines().next()], or the empty string. *)
Fixpoint until_lf (s : bytes) : bytes * bool :=
  match s with
  | [] => ([], false)
  | c :: s' => if byte_eqb c LF then ([], true) else let '(l, b) := until_lf s' in (c :: l, b)
  end.

Definition first_line (s : bytes) : bytes :=
  let '(l, ended) := until_lf s in
  if ended && ends_with l [CR] then take (length l - 1) l else l.

Definition respond (request_line : bytes) (s : MonitoringServer) (fs : LogFs) : M (bytes * MonitoringServer * LogFs) :=
  if starts_with request_line (b#"GET /health") then
    '(r, s) ← handle_health_check s; mret (r, s, fs)
  else if starts_with request_line (b#"GET /health/ready") then
    r ← handle_readiness_check s; mret (r, s, fs)
  else if starts_with request_line (b#"GET /health/live") then
    r ← handle_liveness_check; mret (r, s, fs)
  else if starts_with request_line (b#"GET /metrics") then
    r ← handle_metrics_request s; mret (r, s, fs)
  else if starts_with request_line (b#"GET /metrics/summary") then
    r ← handle_metrics_summary s; mret (r, s, fs)
  else if starts_with request_line (b#"POST /logs/rotate") then handle_log_rotation s fs
  else if starts_with request_line (b#"GET /logs/status") then
    '(r, s) ← handle_log_status s fs; mret (r, s, fs)
  else mret (handle_not_found, s, fs).

Definition BUFFER_SIZE : nat := 2048.

Definition mon_error (what e : bytes) : RustyPotatoError := NetworkError (what ++ e) (Some e) None.

(** One request: what is sent, and the outcome. *)
Definition handle_request (read : result bytes bytes) (s : MonitoringServer) (fs : LogFs) :
    M (Result unit * bytes * MonitoringServer * LogFs) :=
  match read with
  | Err e => mret (Err (mon_error (b#"Failed to read monitoring request: ") e), [], s, fs)
  | Ok available =>
      let buffer := take BUFFER_SIZE available in
      if bool_decide (buffer = []) then mret (Ok tt, [], s, fs)
      else
        '(response, s, fs) ← respond (first_line (from_utf8_lossy buffer)) s fs;
        w ← io_call;
        match w with
        | Some (k, e) =>
            mret (Err (mon_error (b#"Failed to write monitoring response: ") e), take k response, s, fs)
        | None =>
            f ← io_call;
            match f with
            | Some (_, e) => mret (Err (mon_error (b#"Failed to flush monitoring response: ") e), response, s, fs)
            | None => mret (Ok tt, response, s, fs)
            end
        end
  end.
End Monitoring.

Example first_line_crlf : first_line (b#"GET /health HTTP/1.1" ++ CRLF ++ b#"Host: x" ++ CRLF ++ CRLF) = b#"GET /health HTTP/1.1".
Proof. vm_compute. reflexivity. Qed.
Example not_found_text : length handle_not_found = 80%nat.
Proof. vm_compute. reflexivity. Qed.
