(* ===== verification/MonitoringThms.v ===== *)
(** * Theorems about the monitoring server

    Which handler answers, that every answer can be read back, and what
    the Prometheus text says. *)

From S2P Require Import Prelude Numbers Utf8 Errors Values World MemoryStore StoreInv Persistence ServerCommands Metrics LogRotation LogRotationThms Floats Rates Health HealthThms Monitoring.

(** ** Reading a response *)

(** Up to the first CRLF. *)
Fixpoint head_line (s : bytes) : option (bytes * bytes) :=
  match s with
  | [] => None
  | c :: s' =>
      if bytes_eqb (take 2 s) CRLF then Some ([], drop 2 s)
      else '(l, rest) ← head_line s'; Some (c :: l, rest)
  end.

(** Up to the empty line: the lines, then what follows. *)
Fixpoint read_head (fuel : nat) (s : bytes) : option (list bytes * bytes) :=
  match fuel with
  | O => None
  | S n =>
      '(l, rest) ← head_line s;
      if bool_decide (l = []) then Some ([], rest)
      else '(ls, rest) ← read_head n rest; Some (l :: ls, rest)
  end.

Definition length_header : bytes := b#"Content-Length: ".

Fixpoint content_length (headers : list bytes) : option Z :=
  match headers with
  | [] => None
  | h :: rest =>
      if starts_with h length_header then parse_u64 (drop (length length_header) h) else content_length rest
  end.

(** The status line, the body, and what comes after it. *)
Definition read_http (s : bytes) : option (bytes * bytes * bytes) :=
  '(ls, rest) ← read_head (S (length s)) s;
  match ls with
  | [] => None
  | status :: headers =>
      n ← content_length headers;
      if zlen rest <? n then None else Some (status, take (Z.to_nat n) rest, drop (Z.to_nat n) rest)
  end.

Lemma head_line_app l rest : CR ∉ l -> head_line (l ++ CRLF ++ rest) = Some (l, rest).
Proof.
  induction l as [|c l IH]; intros Hl; [reflexivity|]. apply not_elem_of_cons in Hl as [Hc Hl].
  cbn [app head_line]. rewrite (IH Hl).
  destruct (bytes_eqb_spec (take 2 (c :: l ++ CRLF ++ rest)) CRLF) as [H|_]; [|reflexivity].
  exfalso. apply Hc. by apply (f_equal (hd CR)) in H.
Qed.

Lemma read_head_cons n l rest ls r :
  CR ∉ l -> l <> [] -> read_head n rest = Some (ls, r) -> read_head (S n) (l ++ CRLF ++ rest) = Some (l :: ls, r).
Proof.
  intros Hl Hne Hr. cbn [read_head]. rewrite head_line_app by done. simpl.
  rewrite bool_decide_eq_false_2 by done. by rewrite Hr.
Qed.

Lemma read_head_end n rest : read_head (S n) (CRLF ++ rest) = Some ([], rest).
Proof. reflexivity. Qed.

Lemma dec_no_cr z : CR ∉ dec z.
Proof. intros [H|H]%dec_chars; discriminate. Qed.

Lemma app_no_cr (x y : bytes) : CR ∉ x -> CR ∉ y -> CR ∉ x ++ y.
Proof. rewrite elem_of_app. tauto. Qed.

(** The lines of a response. *)
Lemma http_response_lines code reason content_type body :
  http_response code reason content_type body =
    (b#"HTTP/1.1 " ++ dec code ++ b#" " ++ reason) ++ CRLF ++ (b#"Content-Type: " ++ content_type) ++ CRLF ++
    (length_header ++ dec (zlen body)) ++ CRLF ++ CRLF ++ body.
Proof. unfold http_response, length_header. by rewrite <- !(assoc_L (++)). Qed.

Lemma no_cr (l : bytes) : bool_decide (CR ∉ l) = true -> CR ∉ l.
Proof. apply bool_decide_eq_true_1. Qed.

(** What the code writes can be read back. *)
Lemma read_http_response code reason content_type body :
  CR ∉ reason -> CR ∉ content_type -> zlen body <= U64_MAX ->
  read_http (http_response code reason content_type body) = Some (b#"HTTP/1.1 " ++ dec code ++ b#" " ++ reason, body, []).
Proof.
  intros Hr Hc Hb. unfold read_http.
  assert (exists n, length (http_response code reason content_type body) = 3 + n)%nat as [n ->].
  { exists (length (drop 3 (http_response code reason content_type body))). reflexivity. }
  rewrite http_response_lines. cbn [Nat.add].
  erewrite read_head_cons; [| |done|].
  2: { repeat apply app_no_cr; try apply dec_no_cr; try done; by apply no_cr. }
  2: { apply read_head_cons; [apply app_no_cr; [by apply no_cr|done]|done|].
       apply read_head_cons; [apply app_no_cr; [by apply no_cr|apply dec_no_cr]|done|]. apply read_head_end. }
  cbn [mbind option_bind content_length].
  replace (starts_with (b#"Content-Type: " ++ content_type) length_header) with false by reflexivity.
  replace (starts_with (length_header ++ dec (zlen body)) length_header) with true
    by (unfold starts_with; by rewrite take_app_length, bytes_eqb_refl).
  rewrite drop_app_length, parse_u64_dec by (unfold zlen in *; lia). cbn [mbind option_bind].
  rewrite Z.ltb_irrefl. unfold zlen. by rewrite Nat2Z.id, take_ge, drop_ge.
Qed.

(** ** Which handler answers *)
Lemma starts_with_iff s p : starts_with s p = true <-> exists t, s = p ++ t.
Proof.
  unfold starts_with. destruct (bytes_eqb_spec (take (length p) s) p) as [H|H]; split; try done.
  - intros _. exists (drop (length p) s). rewrite <- H at 1. by rewrite take_drop.
  - intros [t ->]. by rewrite take_app_length in H.
Qed.

Lemma starts_with_shorter s p q : starts_with s (p ++ q) = true -> starts_with s p = true.
Proof. rewrite !starts_with_iff. intros [t ->]. exists (q ++ t). by rewrite app_assoc. Qed.

Section Routing.
Context {E : Env} {C : Chrono}.
Variable mem_total_kb : option Z.
Variable gzip : bytes -> result bytes bytes.
Variable json_health : HealthStatus -> option bytes.
Variable json_summary : MetricsSummary -> option bytes.
Variable json_log_status : LogRotationStatus -> option bytes.
Variable build_id : option bytes.

Abbreviation respond := (respond mem_total_kb gzip json_health json_summary json_log_status build_id).

(** Two of the tests are never reached with success, since they are made
    after the test of a shorter prefix. *)
Lemma respond_live line s fs :
  respond line s fs =
    if starts_with line (b#"GET /health") then '(r, s) ← handle_health_check mem_total_kb json_health s; mret (r, s, fs)
    else if starts_with line (b#"GET /metrics") then r ← handle_metrics_request build_id s; mret (r, s, fs)
    else if starts_with line (b#"POST /logs/rotate") then handle_log_rotation gzip s fs
    else if starts_with line (b#"GET /logs/status") then '(r, s) ← handle_log_status json_log_status s fs; mret (r, s, fs)
    else mret (handle_not_found, s, fs).
Proof.
  unfold Monitoring.respond.
  destruct (starts_with line (b#"GET /health")) eqn:Hh; [done|].
  destruct (starts_with line (b#"GET /health/ready")) eqn:Hr.
  { apply (starts_with_shorter _ (b#"GET /health") (b#"/ready")) in Hr. congruence. }
  destruct (starts_with line (b#"GET /health/live")) eqn:Hl.
  { apply (starts_with_shorter _ (b#"GET /health") (b#"/live")) in Hl. congruence. }
  destruct (starts_with line (b#"GET /metrics")) eqn:Hm; [done|].
  destruct (starts_with line (b#"GET /metrics/summary")) eqn:Hs; [|done].
  apply (starts_with_shorter _ (b#"GET /metrics") (b#"/summary")) in Hs. congruence.
Qed.

(** ** Every answer is well formed *)
Definition statuses : list (Z * bytes) :=
  [(200, b#"OK"); (503, b#"Service Unavailable"); (500, b#"Internal Server Error"); (404, b#"Not Found")].

Definition well_formed (r : bytes) : Prop :=
  exists code reason content_type body,
    (code, reason) ∈ statuses /\ CR ∉ content_type /\ r = http_response code reason content_type body.

Lemma well_formed_intro code reason content_type body :
  bool_decide ((code, reason) ∈ statuses) && bool_decide (CR ∉ content_type) = true ->
  well_formed (http_response code reason content_type body).
Proof. rewrite andb_true_iff, !bool_decide_eq_true. intros [H1 H2]. by exists code, reason, content_type, body. Qed.

Lemma well_formed_probe ok body : well_formed (probe_response ok json_type body).
Proof. destruct ok; by apply well_formed_intro. Qed.

Lemma respond_well_formed line s fs w r s' fs' w' :
  respond line s fs w = (Ret (r, s', fs'), w') -> well_formed r.
Proof.
  rewrite respond_live.
  destruct (starts_with line (b#"GET /health")); [|destruct (starts_with line (b#"GET /metrics"));
    [|destruct (starts_with line (b#"POST /logs/rotate")); [|destruct (starts_with line (b#"GET /logs/status"))]]].
  - unfold handle_health_check. rewrite !bind_run.
    destruct (check_all_components _ _ _ w) as [[[res h]|] w1]; [|done]. intros [= <- _ _ _]. apply well_formed_probe.
  - unfold handle_metrics_request. rewrite !bind_run.
    destruct (format_prometheus_metrics _ _ w) as [[t|] w1]; [|done]. intros [= <- _ _ _]. by apply well_formed_intro.
  - unfold handle_log_rotation. rewrite bind_run.
    destruct (rotate_now gzip _ fs w) as [[[[[] st] fs1]|] w1]; [| |done]; intros [= <- _ _ _]; by apply well_formed_intro.
  - unfold handle_log_status. rewrite !bind_run.
    destruct (get_status _ fs w) as [[st|] w1]; [|done]. intros [= <- _ _ _]. by apply well_formed_intro.
  - intros [= <- _ _ _]. by apply well_formed_intro.
Qed.
Lemma reasons_no_cr code reason : (code, reason) ∈ statuses -> CR ∉ reason.
Proof.
  assert (Forall (fun cr : Z * bytes => CR ∉ cr.2) statuses) as H by (repeat constructor; by apply no_cr).
  rewrite Forall_forall in H. apply H.
Qed.

(** Every answer of the monitoring server can be read: the status line
    is one of four, and the length the header announces is the length of
    the body, with nothing after it. *)
Theorem responses_framed (line : bytes) (s : MonitoringServer) (fs : LogFs) (w : World) (r : bytes) s' fs' w' :
  respond line s fs w = (Ret (r, s', fs'), w') ->
  zlen r <= U64_MAX ->
  exists code reason body, (code, reason) ∈ statuses /\
    read_http r = Some (b#"HTTP/1.1 " ++ dec code ++ b#" " ++ reason, body, []).
Proof.
  intros (code & reason & ct & body & Hs & Hct & ->)%respond_well_formed Hlen.
  exists code, reason, body. split; [done|]. apply read_http_response; [by eapply reasons_no_cr|done|].
  revert Hlen. unfold http_response, zlen. rewrite !length_app. lia.
Qed.

(** A readiness or liveness probe is answered with the full health
    check: it gets 200 exactly when all five components are healthy, and
    503 otherwise, although the checks meant for these paths say ready and
    alive. A request for the summary of the metrics gets the Prometheus
    text. *)
Theorem probes_get_full_check (line : bytes) (s : MonitoringServer) (fs : LogFs) (w : World) (r : bytes) s' fs' w' :
  respond line s fs w = (Ret (r, s', fs'), w') ->
  ((starts_with line (b#"GET /health/ready") || starts_with line (b#"GET /health/live")) = true ->
   exists res body, check_all_components mem_total_kb (metrics_collector s) (health_checker s) w = (Ret (res, health_checker s'), w') /\
     r = http_response (if is_healthy res then 200 else 503) (if is_healthy res then b#"OK" else b#"Service Unavailable")
           json_type body) /\
  (starts_with line (b#"GET /metrics/summary") = true ->
   exists text, format_prometheus_metrics build_id (metrics_collector s) w = (Ret text, w') /\
     r = http_response 200 (b#"OK") (b#"text/plain; version=0.0.4; charset=utf-8") text).
Proof.
  rewrite respond_live. intros H. split; intros Hl.
  - assert (starts_with line (b#"GET /health") = true) as Hh.
    { apply orb_true_iff in Hl as [Hl|Hl];
        [apply (starts_with_shorter _ (b#"GET /health") (b#"/ready")) in Hl|apply (starts_with_shorter _ (b#"GET /health") (b#"/live")) in Hl]; exact Hl. }
    rewrite Hh in H. revert H. unfold handle_health_check. rewrite !bind_run.
    destruct (check_all_components _ _ _ w) as [[[res h]|] w1]; [|done]. intros [= <- <- _ <-].
    exists res. eexists. split; [done|]. unfold probe_response. by destruct (is_healthy res).
  - apply (starts_with_shorter _ (b#"GET /metrics") (b#"/summary")) in Hl as Hm.
    assert (starts_with line (b#"GET /health") = false) as Hh.
    { apply starts_with_iff in Hl as [t ->]. reflexivity. }
    rewrite Hh, Hm in H. revert H. unfold handle_metrics_request. rewrite !bind_run.
    destruct (format_prometheus_metrics _ _ w) as [[t|] w1]; [|done]. intros [= <- _ _ <-]. by exists t.
Qed.
End Routing.

(** ** Examples *)
Definition demo_monitoring (m : MetricsCollector) : MonitoringServer :=
  mkMonitoringServer (mkHealthChecker ∅ 0) m (mkLogRotationManager default_rotation new_status) (b#"127.0.0.1") 7379.

Definition demo_world : World := mkWorld empty_store 0 no_process.

Definition demo_respond (line : bytes) : outcome (bytes * MonitoringServer * LogFs) * World :=
  respond (E := env_ms) (C := demo_chrono) None (fun d => Ok d) (fun _ => Some (b#"{}")) (fun _ => None) (fun _ => None) None
    line (demo_monitoring demo_collector) ∅ demo_world.

Definition live_probe : bytes := b#"GET /health/live HTTP/1.1".

Lemma live_probe_answered :
  match demo_respond live_probe with
  | (Ret (r, _, _), _) => bytes_eqb (take 32 r) (b#"HTTP/1.1 503 Service Unavailable") && (zlen r <=? 200)
  | _ => false
  end = true.
Proof. vm_compute. reflexivity. Qed.

Lemma responses_framed_witness :
  exists r st fs' w', demo_respond live_probe = (Ret (r, st, fs'), w') /\
    exists code reason body, (code, reason) ∈ statuses /\
      read_http r = Some (b#"HTTP/1.1 " ++ dec code ++ b#" " ++ reason, body, []).
Proof.
  pose proof live_probe_answered as Hd. destruct (demo_respond live_probe) as [[[[r st] fs']|] w'] eqn:Hr; [|discriminate Hd].
  exists r, st, fs', w'. split; [reflexivity|]. apply andb_true_iff in Hd as [_ Hlen].
  refine (responses_framed (E := env_ms) (C := demo_chrono) None (fun d => Ok d) (fun _ => Some (b#"{}")) (fun _ => None)
    (fun _ => None) None live_probe (demo_monitoring demo_collector) ∅ demo_world r st fs' w' Hr _).
  apply Z.leb_le in Hlen. unfold_ints. lia.
Defined.

(** Three connections of four were refused: the server is alive, and the
    probe says 503. *)
Lemma probes_get_full_check_witness :
  handle_liveness_check demo_world = (Ret (http_response 200 (b#"OK") text_type (b#"ALIVE")), demo_world) /\
  exists r st fs' w', demo_respond live_probe = (Ret (r, st, fs'), w') /\
    take 32 r = b#"HTTP/1.1 503 Service Unavailable" /\
    exists res, check_all_components (E := env_ms) (C := demo_chrono) None demo_collector (mkHealthChecker ∅ 0) demo_world =
      (Ret (res, health_checker st), w').
Proof.
  split; [reflexivity|]. pose proof live_probe_answered as Hd.
  destruct (demo_respond live_probe) as [[[[r st] fs']|] w'] eqn:Hr; [|discriminate Hd].
  exists r, st, fs', w'. split; [reflexivity|]. apply andb_true_iff in Hd as [Hd _].
  split; [exact (proj2 (Bool.reflect_iff _ _ (bytes_eqb_spec _ _)) Hd)|].
  destruct (probes_get_full_check (E := env_ms) (C := demo_chrono) None (fun d => Ok d) (fun _ => Some (b#"{}")) (fun _ => None)
    (fun _ => None) None live_probe (demo_monitoring demo_collector) ∅ demo_world r st fs' w' Hr) as [Hp _].
  destruct (Hp eq_refl) as (res & body & Hc & _). exists res. exact Hc.
Defined.

(** ** The Prometheus text *)
Definition contains (text part : bytes) : Prop := exists pre post, text = pre ++ part ++ post.

Lemma contains_refl s : contains s s.
Proof. exists [], []. by rewrite app_nil_r. Qed.
Lemma contains_left s t p : contains s p -> contains (s ++ t) p.
Proof. intros (a & b & ->). exists a, (b ++ t). by rewrite <- !(assoc_L (++)). Qed.
Lemma contains_right s t p : contains t p -> contains (s ++ t) p.
Proof. intros (a & b & ->). exists (s ++ a), b. by rewrite <- !(assoc_L (++)). Qed.
Lemma contains_concat l p q : p ∈ l -> contains p q -> contains (concat l) q.
Proof.
  intros Hp Hq. induction Hp as [x l|x y l _ IH]; simpl; [by apply contains_left|]. apply contains_right, IH, Hq.
Qed.

Lemma ret_inj {A} (a b : A) (w w' : World) : (Ret a, w) = (Ret b, w') -> a = b.
Proof. congruence. Qed.

Definition commands_total : bytes := b#"rustypotato_commands_total".

Definition commands_section (l : list (bytes * Z)) : bytes :=
  describe commands_total (b#"counter") (b#"Total number of commands by type") ++ command_lines commands_total l.

(** The exported text has one section of command counts, with one
    sample for each command of the table, whatever its name: the name goes
    into the label as it is. *)
Theorem prometheus_exports_counts {E : Env} {Eok : EnvOk E} (build_id : option bytes) (m : MetricsCollector) (w : World) (text : bytes) (w' : World) :
  format_prometheus_metrics build_id m w = (Ret text, w') ->
  exists l, l ≡ₚ map_to_list (command_counts (commands_m m)) /\ contains text (commands_section l) /\
    forall command n, command_counts (commands_m m) !! command = Some n ->
      contains text (labelled commands_total (b#"command") command (dec n)).
Proof.
  unfold format_prometheus_metrics. rewrite bind_run. destruct (get_summary m w) as [[sm|] w1]; [|done].
  rewrite bind_run. destruct (latency_lines _ _) as [lat|]; [|done]. cbn [may_panic]. unfold mret at 1, M_ret at 1. cbv iota beta.
  rewrite bind_run. unfold iterate at 1. cbv iota beta. rewrite bind_run. unfold iterate at 1. cbv iota beta.
  set (l := hash_order _ _ (command_counts _)). unfold mret at 1, M_ret at 1. intros Ht%ret_inj.
  assert (l ≡ₚ map_to_list (command_counts (commands_m m))) as Hl by apply hash_order_perm.
  assert (contains text (commands_section l)) as Hsec.
  { rewrite <- Ht. do 9 apply contains_right. rewrite (assoc_L (++)). apply contains_left, contains_refl. }
  exists l. split; [done|]. split; [done|]. intros command n Hn.
  destruct Hsec as (a & b & ->). apply contains_right, contains_left, contains_right.
  apply contains_concat with (p := labelled commands_total (b#"command") command (dec n)); [|apply contains_refl].
  apply list_elem_of_fmap. exists (command, n). split; [done|]. rewrite Hl. by apply elem_of_map_to_list.
Qed.

(** A command named so by a client, and the line it puts into the text. *)
Definition forged_line : bytes := pline (b#"FORGED 1").
Definition forging_name : bytes := b#"X" ++ [QUOTE] ++ b#"} 1" ++ [LF] ++ forged_line ++ b#"# ".

Definition forged_collector : MetricsCollector :=
  match record_command_latency demo_collector forging_name 1000 with Ret m => m | Panic => demo_collector end.

Lemma prometheus_exports_counts_witness :
  exists text w', format_prometheus_metrics (E := env_ms) None forged_collector demo_world = (Ret text, w') /\
    contains text ([LF] ++ forged_line).
Proof.
  destruct (format_prometheus_metrics (E := env_ms) None forged_collector demo_world) as [[text|] w'] eqn:Hr;
    [|apply (f_equal (fun o => match o.1 with Ret _ => true | Panic => false end)) in Hr; vm_compute in Hr; discriminate Hr].
  exists text, w'. split; [reflexivity|].
  destruct (prometheus_exports_counts (E := env_ms) (Eok := env_ms_ok) None forged_collector demo_world text w' Hr)
    as (_ & _ & _ & Hc).
  destruct (Hc forging_name 1 eq_refl) as (a & b & ->).
  apply contains_right, contains_left.
  exists (commands_total ++ b#"{command=" ++ [QUOTE] ++ b#"X" ++ [QUOTE] ++ b#"} 1"), (b#"# " ++ [QUOTE] ++ b#"} 1" ++ [LF]).
  reflexivity.
Defined.
