(* ===== verification/Cli.v ===== *)
(** * The command line client (src/src/cli/, src/src/bin/cli.rs)

    The client's socket is what it has sent and what its reads will bring.
    [None] for a reply means that the client waits for more.  The line
    editor is a list of what its calls return; its history file and the
    parsing of the process arguments ([rustyline], [clap]) are not
    represented.  Unicode lower case is a parameter, like upper case. *)

From S2P Require Import Prelude Numbers Utf8 Errors Values World Protocol Command.

(** ** The client *)
Record CliStream : Type := mkCliStream {
  cli_sent : bytes;
  cli_reads : list (result bytes bytes)
}.

Record CliClient : Type := mkCliClient {
  cli_stream : option CliStream;
  cli_codec : RespCodec;
  cli_address : bytes
}.

Definition default_address : bytes := b#"127.0.0.1:6379".
Definition cli_with_address (address : bytes) : CliClient := mkCliClient None new_codec address.
Definition cli_new : CliClient := cli_with_address default_address.

Definition is_connected (c : CliClient) : bool := bool_decide (is_Some (cli_stream c)).

(** The loop of [read_response]: first what is buffered, then one more
    read. *)
Fixpoint read_loop (reads : list (result bytes bytes)) (codec : RespCodec) :
    option (Result ResponseValue) * RespCodec * list (result bytes bytes) :=
  match decode_resp_value codec [] with
  | (Err e, codec) => (Some (Err e), codec, reads)
  | (Ok (Some value), codec) => (Some (Ok (convert_resp_to_response value)), codec, reads)
  | (Ok None, codec) =>
      match reads with
      | [] => (None, codec, [])
      | Ok [] :: rest => (Some (Err (ConnectionError (b#"Connection closed by server") None None)), codec, rest)
      | Err e :: rest => (Some (Err (NetworkError (b#"Failed to read response: " ++ e) (Some e) None)), codec, rest)
      | Ok chunk :: rest =>
          match decode_resp_value codec chunk with
          | (Err e, codec) => (Some (Err e), codec, rest)
          | (Ok (Some value), codec) => (Some (Ok (convert_resp_to_response value)), codec, rest)
          | (Ok None, codec) => read_loop rest codec
          end
      end
  end.

Definition read_response (c : CliClient) (s : CliStream) : option (Result ResponseValue) * CliClient :=
  let '(r, codec, reads) := read_loop (cli_reads s) (cli_codec c) in
  (r, mkCliClient (Some (mkCliStream (cli_sent s) reads)) codec (cli_address c)).

(** ** Display *)
Fixpoint format_response (response : ResponseValue) : bytes :=
  match response with
  | SimpleString s => s
  | BulkString (Some s) => from_utf8_lossy s
  | BulkString None | Nil => b#"(nil)"
  | Integer i => b#"(integer) " ++ dec i
  | Array [] => b#"(empty array)"
  | Array arr =>
      join [LF] ((fix items (i : Z) (l : list ResponseValue) : list bytes :=
        match l with
        | [] => []
        | item :: rest => (dec (i + 1) ++ b#") " ++ format_response item) :: items (i + 1) rest
        end) 0 arr)
  end.

Section Client.
Context {E : Env}.

(** [reads] is what the server will send on the new connection. *)
Definition connect (c : CliClient) (reads : list (result bytes bytes)) : M (Result unit * CliClient) :=
  r ← io_call;
  match r with
  | None => mret (Ok tt, mkCliClient (Some (mkCliStream [] reads)) (cli_codec c) (cli_address c))
  | Some (_, e) =>
      mret (Err (ConnectionError (b#"Failed to connect to " ++ cli_address c ++ b#": " ++ e) None (Some e)), c)
  end.

(** A failing shutdown of the socket is only logged. *)
Definition disconnect (c : CliClient) : M (Result unit * CliClient) :=
  match cli_stream c with
  | Some _ => _ ← io_call; mret (Ok tt, mkCliClient None (cli_codec c) (cli_address c))
  | None => mret (Ok tt, c)
  end.

Definition execute_command (c : CliClient) (command : bytes) (args : list bytes) :
    M (option (Result ResponseValue) * CliClient) :=
  match cli_stream c with
  | None => mret (Some (Err (ConnectionError (b#"Not connected to server") None None)), c)
  | Some s =>
      let parts := command :: args in
      match encode_command_array (cli_codec c) parts with
      | (Err e, codec) =>
          mret (Some (Err (ProtocolError (b#"Failed to encode command: " ++ display e) (Some (join (b#" ") parts)) (Some (display e)))),
                mkCliClient (Some s) codec (cli_address c))
      | (Ok encoded, codec) =>
          r ← io_call;
          match r with
          | Some (k, e) =>
              mret (Some (Err (NetworkError (b#"Failed to send command: " ++ e) (Some e) None)),
                    mkCliClient (Some (mkCliStream (cli_sent s ++ take k encoded) (cli_reads s))) codec (cli_address c))
          | None =>
              let s := mkCliStream (cli_sent s ++ encoded) (cli_reads s) in
              mret (read_response (mkCliClient (Some s) codec (cli_address c)) s)
          end
      end
  end.
End Client.

(** ** White space *)

(** The characters with the Unicode property [White_Space]. *)
Definition char_code (c : bytes) : Z :=
  match map u8 c with
  | [a] => a
  | [a; b] => (a - 192) * 64 + (b - 128)
  | [a; b; d] => ((a - 224) * 64 + (b - 128)) * 64 + (d - 128)
  | [a; b; d; e] => (((a - 240) * 64 + (b - 128)) * 64 + (d - 128)) * 64 + (e - 128)
  | _ => 0
  end.

Definition is_whitespace (c : bytes) : bool :=
  let n := char_code c in
  ((9 <=? n) && (n <=? 13)) || (n =? 32) || (n =? 133) || (n =? 160) || (n =? 5760) ||
  ((8192 <=? n) && (n <=? 8202)) || (n =? 8232) || (n =? 8233) || (n =? 8239) || (n =? 8287) || (n =? 12288).

Definition chars_of (s : bytes) : list bytes := default [] (chars s).

(** [str::trim] *)
Fixpoint trim_start (cs : list bytes) : list bytes :=
  match cs with
  | c :: rest => if is_whitespace c then trim_start rest else cs
  | [] => []
  end.
Definition trim (s : bytes) : bytes := concat (reverse (trim_start (reverse (trim_start (chars_of s))))).

(** [str::split_whitespace]: [word] is the word being read. *)
Fixpoint words (cs : list bytes) (word : bytes) : list bytes :=
  match cs with
  | [] => if bool_decide (word = []) then [] else [word]
  | c :: rest =>
      if is_whitespace c then (if bool_decide (word = []) then words rest [] else word :: words rest [])
      else words rest (word ++ c)
  end.
Definition split_whitespace (s : bytes) : list bytes := words (chars_of s) [].

Example split_ex : split_whitespace (b#"  set  key value ") = [b#"set"; b#"key"; b#"value"].
Proof. vm_compute. reflexivity. Qed.
Example trim_ex : trim (b#"  get k ") = b#"get k".
Proof. vm_compute. reflexivity. Qed.

(** ** Completion *)
Definition KNOWN_COMMANDS : list bytes :=
  [b#"BGREWRITEAOF"; b#"COMMAND"; b#"DBSIZE"; b#"DECR"; b#"DEL"; b#"ECHO"; b#"EXISTS"; b#"EXPIRE"; b#"EXPIREAT";
   b#"FLUSHDB"; b#"GET"; b#"HDEL"; b#"HEXISTS"; b#"HGET"; b#"HGETALL"; b#"HKEYS"; b#"HLEN"; b#"HMGET"; b#"HSET";
   b#"HVALS"; b#"INCR"; b#"INFO"; b#"KEYS"; b#"MGET"; b#"MSET"; b#"PEXPIRE"; b#"PEXPIREAT"; b#"PING"; b#"PTTL";
   b#"QUIT"; b#"SET"; b#"TTL"; b#"TYPE"].

(** Slicing inside a character panics. *)
Definition complete (line : bytes) (pos : nat) : outcome (nat * list bytes) :=
  if (length line <? pos)%nat then Panic
  else
    match chars (take pos line), chars (drop pos line) with
    | Some cs, Some _ =>
        if existsb is_whitespace cs then Ret (pos, [])
        else
          let upper := to_ascii_uppercase (take pos line) in
          Ret (0%nat, List.filter (fun cmd => bytes_eqb (take (length upper) cmd) upper) KNOWN_COMMANDS)
    | _, _ => Panic
    end.

(** ** The interactive mode *)
Inductive Readline : Type :=
| Line (l : bytes)
| Interrupted
| Eof
| ReadlineFailed (e : bytes).

(** What appears: on standard output and on standard error. *)
Inductive Shown : Type :=
| Stdout (s : bytes)
| Stderr (s : bytes)
| HelpText
| ClearScreen.

Section Interactive.
Context {E : Env}.
(** Unicode lower case of a non-ASCII character. *)
Variable lower_table : bytes -> bytes.

Definition lower_char (c : bytes) : bytes :=
  match c with
  | [b0] => [ascii_lower b0]
  | _ => lower_table c
  end.

Definition to_lowercase (s : bytes) : bytes := concat (map lower_char (chars_of s)).

Definition parse_and_execute (c : CliClient) (input : bytes) : M (option (Result ResponseValue) * CliClient) :=
  match split_whitespace input with
  | [] => mret (Some (Err (InvalidCommand [] None)), c)
  | command :: args => execute_command c (to_uppercase upper_table command) args
  end.

(** The loop of [start]: [true] when it was left, [false] when it waits
    for a line or for the server. *)
Fixpoint repl_loop (input : list Readline) (c : CliClient) (shown : list Shown) : M (bool * CliClient * list Shown) :=
  match input with
  | [] => mret (false, c, shown)
  | Interrupted :: rest => repl_loop rest c shown
  | Eof :: _ => mret (true, c, shown ++ [Stdout []])
  | ReadlineFailed e :: _ => mret (true, c, shown ++ [Stderr (b#"Failed to read input: " ++ e)])
  | Line line :: rest =>
      let input := trim line in
      if bool_decide (input = []) then repl_loop rest c shown
      else
        let meta := to_lowercase input in
        if bytes_eqb meta (b#"quit") || bytes_eqb meta (b#"exit") then mret (true, c, shown ++ [Stdout (b#"Goodbye!")])
        else if bytes_eqb meta (b#"help") then repl_loop rest c (shown ++ [HelpText])
        else if bytes_eqb meta (b#"clear") then repl_loop rest c (shown ++ [ClearScreen])
        else
          '(r, c) ← parse_and_execute c input;
          match r with
          | None => mret (false, c, shown)
          | Some (Ok response) => repl_loop rest c (shown ++ [Stdout (format_response response)])
          | Some (Err e) => repl_loop rest c (shown ++ [Stderr (b#"Error: " ++ display e)])
          end
  end.

Definition greeting : list Shown :=
  [Stdout (b#"RustyPotato CLI - Interactive Mode");
   Stdout (b#"Type 'help' for available commands, 'quit' or 'exit' to leave"); Stdout []].

Definition interactive_start (c : CliClient) (reads : list (result bytes bytes)) (input : list Readline) :
    M (option (Result unit) * CliClient * list Shown) :=
  '(r, c) ← connect c reads;
  match r with
  | Err e => mret (Some (Err e), c, greeting ++ [Stderr (b#"Failed to connect to server: " ++ display e)])
  | Ok _ =>
      '(ended, c, shown) ← repl_loop input c (greeting ++ [Stdout (b#"Connected to RustyPotato server"); Stdout []]);
      if (ended : bool) then
        '(_, c) ← disconnect c;
        mret (Some (Ok tt), c, shown)
      else mret (None, c, shown)
  end.
End Interactive.

(** ** The binary *)
Inductive Commands : Type :=
| Ping
| Set_ (key value : bytes)
| Get (key : bytes)
| Del (key : bytes)
| Exists (key : bytes)
| Expire (key : bytes) (seconds : Z)
| Ttl (key : bytes)
| Interactive.

(** The command a subcommand sends. *)
Definition cli_request (c : Commands) : option (bytes * list bytes) :=
  match c with
  | Ping => Some (b#"PING", [])
  | Set_ key value => Some (b#"SET", [key; value])
  | Get key => Some (b#"GET", [key])
  | Del key => Some (b#"DEL", [key])
  | Exists key => Some (b#"EXISTS", [key])
  | Expire key seconds => Some (b#"EXPIRE", [key; dec seconds])
  | Ttl key => Some (b#"TTL", [key])
  | Interactive => None
  end.

Section Binary.
Context {E : Env}.

(** The exit code, if it comes to that, and what was shown. *)
Definition execute_single_command (address command : bytes) (args : list bytes) (reads : list (result bytes bytes)) :
    M (option Z * list Shown) :=
  let client := cli_with_address address in
  '(r, client) ← connect client reads;
  match r with
  | Err e => mret (Some 1, [Stderr (b#"Failed to connect to server at " ++ address ++ b#": " ++ display e)])
  | Ok _ =>
      '(r, client) ← execute_command client command args;
      match r with
      | None => mret (None, [])
      | Some (Ok response) =>
          _ ← disconnect client;
          mret (Some 0, [Stdout (format_response response)])
      | Some (Err e) => mret (Some 1, [Stderr (b#"Error: " ++ display e)])
      end
  end.
End Binary.
