(* ===== verification/CliThms.v ===== *)
(** * Theorems about the command line client

    The client shows what the server replied, however the network cuts the
    reply; and the whole way from a command typed to the reply shown. *)

From S2P Require Import Prelude Numbers Utf8 Errors Values World MemoryStore Protocol ProtocolLemmas ProtocolThms Command Persistence ServerCommands CommandThms Metrics Connection Server ServerThms Cli.

(** ** Display *)
Definition show_items : Z -> list ResponseValue -> list bytes :=
  fix items (i : Z) (l : list ResponseValue) : list bytes :=
    match l with
    | [] => []
    | item :: rest => (dec (i + 1) ++ b#") " ++ format_response item) :: items (i + 1) rest
    end.

(** What the wire does to a value does not show. *)
Lemma display_same v : format_response (convert_resp_to_response (resp_of v)) = format_response v.
Proof.
  induction v as [s|[s|]|i|l IH|] using ResponseValue_nested_ind; try done.
  destruct l as [|v l]; [done|]. cbn [resp_of convert_resp_to_response format_response map].
  change (join [LF] (show_items 0 (map convert_resp_to_response (map resp_of (v :: l)))) = join [LF] (show_items 0 (v :: l))).
  f_equal. generalize 0. induction IH as [|x xs Hx _ IHx]; intros i; [done|].
  cbn [map show_items]. by rewrite Hx, <- IHx.
Qed.

(** ** Reading a reply *)

(** What the server sends for the result of a command. *)
Definition reply_wire (r : CommandResult) : bytes :=
  match r with CmdOk v => encode_value v | CmdError msg => encode_error msg end.

(** Replies the client can take: values within its limits, error lines
    that are lines of text. *)
Definition reply_ok (lim : CodecLimits) (r : CommandResult) : bool :=
  match r with
  | CmdOk v => wire_ok lim v
  | CmdError msg => bool_decide (no_crlf msg) && utf8_valid msg
  end.

Definition reply_value (r : CommandResult) : RespValue :=
  match r with CmdOk v => resp_of v | CmdError msg => RError msg end.

(** What the user sees of it. *)
Definition shown_reply (r : CommandResult) : bytes :=
  match r with CmdOk v => format_response v | CmdError msg => b#"ERR " ++ msg end.

Lemma parse_reply lim r rest :
  reply_ok lim r = true -> parse lim (reply_wire r ++ rest) = Ok (Some (reply_value r, rest)).
Proof.
  destruct r as [v|msg]; [apply parse_encode|]. intros [Hs%bool_decide_eq_true Hu]%andb_true_iff.
  unfold reply_wire, encode_error. cbn [app]. rewrite parse_cons. simpl.
  unfold parse_error, with_line, read_line, from_utf8. by rewrite <- app_assoc, split_crlf_text, Hu.
Qed.

Lemma parse_reply_prefix lim r p q :
  reply_ok lim r = true -> reply_wire r = p ++ q -> q <> [] -> parse lim p = Ok None.
Proof.
  intros Hr Hw Hq. pose proof (parse_reply lim r [] Hr) as Hp. rewrite app_nil_r, Hw in Hp.
  destruct (parse lim p) as [[[v' r']|]|e] eqn:F; [exfalso|done|exfalso].
  - rewrite (parse_app_Some _ _ _ _ q F) in Hp. injection Hp as _ H. by apply app_eq_nil in H as [_ ->].
  - by rewrite (parse_app_Err _ _ _ q F) in Hp.
Qed.

Lemma reply_shown r : format_response (convert_resp_to_response (reply_value r)) = shown_reply r.
Proof. destruct r; [apply display_same|done]. Qed.

Lemma decode_part c new r q :
  reply_ok (limits c) r = true -> zlen (buffer c ++ new) <= max_buffer_size (limits c) ->
  reply_wire r = (buffer c ++ new) ++ q -> q <> [] ->
  decode_resp_value c new = (Ok None, mkRespCodec (buffer c ++ new) (limits c)).
Proof.
  intros Hr Hl Hw Hq. unfold decode_resp_value. rewrite overfull_le by done. unfold extend. cbn [buffer limits].
  rewrite (parse_reply_prefix _ _ _ _ Hr Hw Hq). by destruct (buffer c ++ new).
Qed.

Lemma decode_whole c new r rest :
  reply_ok (limits c) r = true -> zlen (buffer c ++ new) <= max_buffer_size (limits c) ->
  buffer c ++ new = reply_wire r ++ rest ->
  decode_resp_value c new = (Ok (Some (reply_value r)), mkRespCodec rest (limits c)).
Proof.
  intros Hr Hl Hw. unfold decode_resp_value. rewrite overfull_le by done. unfold extend. cbn [buffer limits].
  rewrite Hw, parse_reply by done.
  destruct (reply_wire r ++ rest) eqn:He; [by apply app_eq_nil in He as [He _]; destruct r as [[|[|]| | |]|]|].
  rewrite <- He, length_app, Nat.add_sub, drop_app_exact. done.
Qed.

(** A reply is read from any packets, and what comes after it is kept. *)
Lemma read_loop_reply chunks : forall c more r q rest,
  reply_ok (limits c) r = true -> Forall (fun d => d <> []) chunks ->
  zlen (buffer c ++ concat chunks) <= max_buffer_size (limits c) ->
  reply_wire r = buffer c ++ q -> q <> [] -> buffer c ++ concat chunks = reply_wire r ++ rest ->
  exists after left, read_loop (map Ok chunks ++ more) c =
    (Some (Ok (convert_resp_to_response (reply_value r))), mkRespCodec after (limits c), map Ok left ++ more) /\
    after ++ concat left = rest /\ left `suffix_of` chunks.
Proof.
  induction chunks as [|d ds IH]; intros c more r q rest Hr Hne Hl Hw Hq He.
  { exfalso. cbn [concat] in He. rewrite app_nil_r, Hw in He. apply (f_equal length) in He.
    rewrite !length_app in He. destruct q; [done|]. simpl in He. lia. }
  apply Forall_cons in Hne as [Hd Hne]. cbn [concat map app] in *.
  assert (zlen (buffer c ++ []) <= max_buffer_size (limits c) /\ zlen (buffer c ++ d) <= max_buffer_size (limits c)) as [Hl1 Hl2].
  { unfold zlen in *. rewrite !length_app in *. simpl. lia. }
  destruct d as [|b d']; [done|]. set (d := b :: d') in *. unfold d at 1. cbn [read_loop]. fold d.
  rewrite (decode_part c [] r q Hr Hl1); [|by rewrite app_nil_r|done]. rewrite app_nil_r.
  replace (mkRespCodec (buffer c) (limits c)) with c by by destruct c.
  rewrite (assoc_L (++)) in He. destruct (app_eq_inv _ _ _ _ He) as [(k & Hk & Hrest)|(k & Hk & Hrest)].
  - rewrite (decode_whole c d r k Hr Hl2 Hk). exists k, ds. split; [done|]. split; [done|by exists [d]].
  - destruct (decide (k = [])) as [->|Hkn].
    + rewrite (decode_whole c d r [] Hr Hl2); [|by rewrite Hk, !app_nil_r]. exists [], ds. split; [done|]. split; [done|by exists [d]].
    + rewrite (decode_part c d r k Hr Hl2 Hk Hkn).
      destruct (IH (mkRespCodec (buffer c ++ d) (limits c)) more r k rest) as (a & l & Hrun & Ha & Hsuf);
        try done; cbn [buffer limits]; [by rewrite <- (assoc_L (++))|].
      exists a, l. split; [done|]. split; [done|]. by apply suffix_cons_r.
Qed.

(** ** From the command typed to the reply shown *)
Section EndToEnd.
Context {E : Env}.
Variable registry : CommandRegistry.
Variable persistence : option PersistenceManager.

Definition request_wire (command : bytes) (args : list bytes) : bytes := encode_value (Array (map bulk (command :: args))).

(** A socket on which all writes succeed takes what is written. *)
Lemma write_response_done d s s' r :
  write_outcomes (stream (conn s)) = [] -> write_response d s = (r, s') ->
  sent (stream (conn s')) = sent (stream (conn s)) ++ d.
Proof.
  intros Hw. unfold write_response, socket_call. rewrite Hw. cbn. intros [= _ <-]. cbn. by rewrite app_nil_r.
Qed.

(** A command that was served has been run once and its reply sent. *)
Lemma dispatch_reply cmd frame s w b s' w' :
  write_outcomes (stream (conn s)) = [] ->
  dispatch registry persistence cmd frame s w = (Ret (Ok b, s'), w') ->
  exists result w1 w2,
    registry_execute registry (mkParsedCommand (name cmd) (args cmd) (conn_client_id (conn s))) w1 = (Ret result, w2) /\
    sent (stream (conn s')) = sent (stream (conn s)) ++ reply_wire result.
Proof.
  intros Hw. unfold dispatch. rewrite bind_run. destruct (update_last_activity (conn s) w) as [[c|] w1] eqn:Hu; [|done].
  assert (stream c = stream (conn s)) as Hc by (by injection Hu as <- _). cbn [stream] in Hc.
  rewrite bind_run. destruct (timer_start w1) as [[t|] w2]; [|done]. rewrite bind_run.
  destruct (registry_execute _ _ w2) as [[r|] w3] eqn:Hr; [|done]. rewrite bind_run.
  destruct (timer_stop t w3) as [[d|] w4]; [|done]. rewrite bind_run.
  destruct (lift _ w4) as [[m|] w5]; [|done]. rewrite bind_run.
  destruct (log_mutation _ _ _ _ _ w5) as [[u|] w6]; [|done].
  destruct (send_response r _) as [[[]|e'] s''] eqn:Hs; [|done]. intros [= _ <- _].
  exists r, w2, w3. split; [done|]. unfold send_response in Hs.
  replace (stream (conn s)) with (stream (conn (with_metrics (with_conn s (increment_commands_processed c)) m))) by exact Hc.
  destruct r; simpl in Hs; (eapply write_response_done; [|exact Hs]); simpl; by rewrite Hc.
Qed.

(** The server on the octets of one command. *)
Lemma serve_request lim command args s w n close codec s' w' :
  utf8_valid command = true -> wire_ok lim (Array (map bulk (command :: args))) = true ->
  zlen (request_wire command args) <= max_buffer_size lim -> write_outcomes (stream (conn s)) = [] ->
  process_buffer registry persistence (with_limits lim) (request_wire command args) s w = (Ret (Ok (n, close), codec, s'), w') ->
  exists result w1 w2,
    registry_execute registry (mkParsedCommand (upcase command) args (conn_client_id (conn s))) w1 = (Ret result, w2) /\
    sent (stream (conn s')) = sent (stream (conn s)) ++ reply_wire result.
Proof.
  intros Hc Hwire Hl Hw. unfold process_buffer, process_fuel, with_limits. cbn [buffer app].
  set (wire := request_wire command args) in *.
  assert (frames (S (length wire)) lim ([] ++ wire) = ([(mkParsedCommand (to_uppercase upper_table command) args 0, wire)], None, mkRespCodec [] lim)) as Hf.
  { pose proof (command_decodes lim command args [] Hc Hwire) as Hd. rewrite app_nil_r in Hd.
    change (encode_value (Array (map bulk (command :: args)))) with wire in Hd.
    rewrite frames_S. cbn [app]. rewrite Hd. cbn [buffer]. by destruct (length wire). }
  destruct (process_loop_run registry persistence lim (S (length wire)) [] wire 0 s w _ _ _ Hl ltac:(cbn [app]; lia) Hf) as (cc & count & ->).
  cbn [serve_all]. rewrite bind_run.
  destruct (dispatch registry persistence _ wire s w) as [[[[b|e] s1]|] w1] eqn:Hd; [| |done].
  - intros H. assert (s1 = s') as -> by (by destruct b; injection H). by apply dispatch_reply in Hd.
  - done.
Qed.
End EndToEnd.

(** The client, when its command is sent and the reply arrives. *)
Lemma execute_shows {E : Env} c command args sent0 chunks wc r :
  cli_stream c = Some (mkCliStream sent0 (map Ok chunks)) -> io (w_reads wc) = None ->
  Forall (fun d => d <> []) chunks -> concat chunks = reply_wire r ->
  reply_ok (limits (cli_codec c)) r = true -> zlen (reply_wire r) <= max_buffer_size (limits (cli_codec c)) ->
  exists v, execute_command c command args wc =
      (Ret (Some (Ok v), mkCliClient (Some (mkCliStream (sent0 ++ request_wire command args) [])) (mkRespCodec [] (limits (cli_codec c))) (cli_address c)),
       tick wc) /\ format_response v = shown_reply r.
Proof.
  intros Hs Hio Hne Hch Hr Hl. exists (convert_resp_to_response (reply_value r)). split; [|apply reply_shown].
  unfold execute_command. rewrite Hs. unfold encode_command_array, encode. cbn [buffer app limits].
  rewrite bind_run. unfold io_call. rewrite Hio. cbv iota beta. unfold mret, M_ret, read_response. cbn [cli_reads cli_codec cli_sent cli_address].
  destruct (read_loop_reply chunks (mkRespCodec [] (limits (cli_codec c))) [] r (reply_wire r) []) as (a & l & Hrun & Hal & [used Hu]);
    cbn [buffer limits app]; rewrite ?app_nil_r, ?Hch; try done.
  { by destruct r as [[|[|]| | |]|]. }
  rewrite app_nil_r in Hrun. rewrite Hrun. apply app_eq_nil in Hal as [-> Hl0].
  assert (l = []) as ->; [|done]. destruct l as [|d l]; [done|]. rewrite Hu in Hne.
  apply Forall_app in Hne as [_ [Hd _]%Forall_cons]. by apply app_eq_nil in Hl0 as [-> _].
Qed.


Definition demo_client (chunks : list bytes) : CliClient :=
  mkCliClient (Some (mkCliStream [] (map Ok chunks))) new_codec default_address.

Lemma pong_reply r : b#"+PONG" ++ CRLF = reply_wire r -> r = CmdOk (SimpleString (b#"PONG")).
Proof.
  destruct r as [[s|[]| | |]|msg]; try discriminate. intros H. injection H as H.
  change (b#"PONG" ++ CRLF = s ++ CRLF) in H. by apply app_inv_tail in H as <-.
Qed.


(** ** Completion *)

(** The commands the client completes are the commands of the server. *)
Lemma known_commands_registered {E : Env} slot (k : bytes) :
  k ∈ KNOWN_COMMANDS <-> is_Some (main_registry slot !! k).
Proof.
  rewrite main_registry_lookup. unfold main_find.
  assert (KNOWN_COMMANDS ≡ₚ map cmd_name (rev (main_commands slot ++ [CommandCommand 33]))) as Hp.
  { refine (bool_decide_unpack _ _). vm_compute. exact I. }
  rewrite Hp. generalize (rev (main_commands slot ++ [CommandCommand 33])). intros cs.
  induction cs as [|c cs IH]; [split; [by intros ?%elem_of_nil|by intros []]|]. cbn [map List.find].
  rewrite elem_of_cons, IH. destruct (named k c) eqn:Hn; unfold named in Hn; destruct (bytes_eqb_spec (cmd_name c) k) as [He|Hne]; try done.
  - subst k. split; [done|by left].
  - split; [intros [->|]; done|by right].
Qed.

Lemma ret_pair_inj {A B} (a a' : A) (b b' : B) : Ret (a, b) = Ret (a', b') -> a = a' /\ b = b'.
Proof. intros H. by injection H. Qed.

(** Completion offers the right commands. With the cursor in the first
    word, the candidates are exactly the commands the server has whose
    names begin with what was typed, in any case, and they replace the
    word; past the first word there are none. *)
Theorem completion_matches_server {E : Env} slot (line : bytes) (pos : nat) (start : nat) (candidates : list bytes) :
  complete line pos = Ret (start, candidates) ->
  if existsb is_whitespace (chars_of (take pos line)) then start = pos /\ candidates = []
  else start = 0%nat /\ NoDup candidates /\
    forall k, k ∈ candidates <->
      is_Some (main_registry slot !! k) /\ to_ascii_uppercase (take pos line) `prefix_of` k.
Proof.
  unfold complete, chars_of. destruct (length line <? pos)%nat; [done|].
  destruct (chars (take pos line)) as [cs|]; [|done]. destruct (chars (drop pos line)); [|done]. change (default [] (Some cs)) with cs.
  destruct (existsb is_whitespace cs); intros [<- <-]%ret_pair_inj; [done|]. split; [done|]. split.
  { apply NoDup_ListNoDup, List.NoDup_filter, NoDup_ListNoDup. refine (bool_decide_unpack _ _). vm_compute. exact I. }
  intros k. rewrite list_elem_of_In, filter_In, <- list_elem_of_In, (known_commands_registered slot).
  set (u := to_ascii_uppercase (take pos line)). cbv beta. destruct (bytes_eqb_spec (take (length u) k) u) as [H|H].
  - split; [|by intros [? _]]. intros [Hk _]. split; [done|]. exists (drop (length u) k). rewrite <- H at 1. by rewrite take_drop.
  - split; [by intros []|]. intros [_ [t ->]]. by rewrite take_app_length in H.
Qed.

Lemma completion_matches_server_witness :
  complete (b#"hge") 3 = Ret (0%nat, [b#"HGET"; b#"HGETALL"]) /\
  is_Some (main_registry (E := env_ms) None !! (b#"HGETALL")).
Proof.
  split; [vm_compute; reflexivity|].
  apply (completion_matches_server (E := env_ms) None (b#"hge") 3 0 [b#"HGET"; b#"HGETALL"]); [vm_compute; reflexivity|].
  right. left.
Defined.
