(* ===== verification/Startup.v ===== *)
(** * The server binary (src/src/bin/server.rs)

    From the process arguments to the parts of a running server, and how
    the binary stops it.  Errors of the start are texts.  The parsing of
    the arguments, the logging subscriber and signals are not
    represented. *)

From S2P Require Import Prelude Numbers Paths Errors Values World Persistence Metrics Config Lifecycle LogRotation Health Monitoring.

Record ServerArgs : Type := mkServerArgs {
  arg_config_file : option bytes;
  arg_port : option Z;
  arg_bind_address : option bytes;
  arg_log_level : option bytes;
  arg_version : bool
}.

Definition apply_cli_overrides (c : Config) (a : ServerArgs) : Config :=
  let s := server c in
  mkConfig
    (mkServerConfig (default (port s) (arg_port a)) (default (bind_address s) (arg_bind_address a))
       (cfg_max_connections s) (worker_threads s))
    (storage c) (network_c c)
    (mkLoggingConfig (default (level (logging c)) (arg_log_level a)) (format (logging c)) (log_path (logging c))).

(** [u16 + u16] *)
Definition wrap_u16 (z : Z) : Z := z mod 2 ^ 16.

Definition monitoring_port (c : Config) : Z := wrap_u16 (port (server c) + 1000).

(** The threads of the runtime, if they are not left to it. *)
Definition build_runtime (c : Config) : option Z :=
  match worker_threads (server c) with
  | Some n => if 0 <? n then Some n else None
  | None => None
  end.

Definition log_rotation_config (c : Config) : LogRotationConfig :=
  mkLogRotationConfig (default (b#"rustypotato.log") (log_path (logging c)))
    (SizeOrDaily (100 * 1024 * 1024) 0) 7 true None.

Section Start.
Context {E : Env}.
(** [Path::exists] *)
Variable path_exists : bytes -> bool.

(** An I/O call, with its effect on the files when it succeeds. *)
Definition try_io (f : gmap bytes File -> gmap bytes File) (fail : bytes -> bytes) : M (result bytes unit) :=
  r ← io_call;
  match r with
  | Some (_, e) => mret (Err (fail e))
  | None => _ ← modifyp (fun p => set_disk p (f (disk p))); mret (Ok tt)
  end.

Definition or_stop {A B} (m : M (result bytes A)) (k : A -> M (result bytes B)) : M (result bytes B) :=
  r ← m; match r with Ok a => k a | Err e => mret (Err e) end.

Definition log_append (p : bytes) (d : gmap bytes File) : gmap bytes File :=
  match d !! p with Some _ => d | None => <[p := mkFile [] 0]> d end.

(** [init_logging]: opening the file, if there is one. *)
Definition init_logging (c : Config) : M (result bytes unit) :=
  match log_path (logging c) with
  | Some p => try_io (log_append p) (fun e => b#"Failed to open log file " ++ path_display p ++ b#": " ++ e)
  | None => mret (Ok tt)
  end.

Definition PROBE : bytes := b#".rustypotato-aof-write-probe".

(** The directory of the log, when it is to be created. *)
Definition missing_dir (c : Config) : option bytes :=
  match path_parent (aof_path (storage c)) with
  | Some parent => if negb (bool_decide (parent = [])) && negb (path_exists parent) then Some parent else None
  | None => None
  end.

(** Open the probe and remove it. *)
Definition write_probe (parent : bytes) : M (result bytes unit) :=
  let probe := if bool_decide (parent = []) then PROBE else join parent PROBE in
  let fail e := b#"AOF directory " ++ path_display (if bool_decide (parent = []) then b#"." else parent) ++ b#" is not writable: " ++ e in
  or_stop (try_io (fun d => <[probe := mkFile [] 0]> d) fail) (fun _ =>
  try_io (fun d => delete probe d) fail).

Definition validate_environment (c : Config) : M (result bytes unit) :=
  let bind_addr := bind_address (server c) ++ b#":" ++ dec (port (server c)) in
  or_stop (if port (server c) =? 0 then mret (Ok tt)
           else try_io (fun d => d) (fun e => b#"Cannot bind to address " ++ bind_addr ++ b#": " ++ e)) (fun _ =>
  if aof_enabled (storage c) then
    match path_parent (aof_path (storage c)) with
    | Some parent =>
        or_stop (match missing_dir c with
                 | Some dir => try_io (fun d => d) (fun e => b#"Failed to create AOF directory " ++ path_display dir ++ b#": " ++ e)
                 | None => mret (Ok tt)
                 end) (fun _ => write_probe parent)
    | None => mret (Ok tt)
    end
  else mret (Ok tt)).

(** [async_main] up to the running of the server; building the runtime is
    not an event. *)
Definition new_health_checker : M HealthChecker := t ← now; mret (mkHealthChecker ∅ t).

Definition build (c : Config) : M (result bytes (RustyPotatoServer * MonitoringServer)) :=
  or_stop (init_logging c) (fun _ =>
  or_stop (validate_environment c) (fun _ =>
  m ← new_collector;
  r ← open_server c m;
  match r with
  | Err e => mret (Err (display e))
  | Ok s =>
      h ← new_health_checker;
      mret (Ok (s, mkMonitoringServer h m (mkLogRotationManager (log_rotation_config c) new_status)
                     (bind_address (server c)) (monitoring_port c)))
  end)).

Definition main (loaded : option bytes -> Result Config) (a : ServerArgs) : M (result bytes (option (RustyPotatoServer * MonitoringServer))) :=
  if arg_version a then mret (Ok None)
  else
    match loaded (arg_config_file a) with
    | Err e => mret (Err (display e))
    | Ok c => r ← build (apply_cli_overrides c a); mret (Some <$> r)
    end.
End Start.

(** ** Stopping *)
Definition SHUTDOWN_TIMEOUT : Duration := from_secs 30.

Inductive Timed : Type :=
| InTime (d : DrainResult)
| TooLate
| NoFuel.

Inductive Exit : Type :=
| Finished (d : DrainResult)
| ForcedExit
| Unfinished.

Section Stop.
Context {E : Env}.

(** The drain of [shutdown] under the timeout: at each sleep the task gives
    way and the deadline is looked at. *)
Fixpoint timed_drain (fuel : nat) (active : nat -> nat) (k : nat) (drain_start deadline : Instant) : M Timed :=
  match fuel with
  | O => mret NoFuel
  | S n =>
      if (active k =? 0)%nat then mret (InTime Drained)
      else
        e ← elapsed drain_start;
        if DRAIN_TIMEOUT <=? e then mret (InTime DrainTimeout)
        else
          t ← now;
          if deadline <=? t then mret TooLate
          else timed_drain n active (S k) drain_start deadline
  end.

(** The branch of [run] for a signal: [timeout(30 s, shutdown())], and
    [process::exit(1)] when it is over.  The log's shutdown sends its
    request and waits; there the deadline is looked at again. *)
Definition shutdown_with_timeout (fuel : nat) (active : nat -> nat) (s : RustyPotatoServer) : M Exit :=
  created ← now;
  let deadline := created + SHUTDOWN_TIMEOUT in
  drain_start ← now;
  r ← timed_drain fuel active 0 drain_start deadline;
  match r with
  | NoFuel => mret Unfinished
  | TooLate => mret ForcedExit
  | InTime d =>
      match rp_persistence s with
      | Some p =>
          if enabled p then
            t ← now;
            if deadline <=? t then _ ← send Shutdown; mret ForcedExit
            else _ ← pm_shutdown p; mret (Finished d)
          else mret (Finished d)
      | None => mret (Finished d)
      end
  end.
End Stop.
