(* ===== verification/StartupThms.v ===== *)
(** * Theorems about the server binary

    What the timeout around the shutdown does, and what the start takes
    for granted. *)

From S2P Require Import Prelude Numbers Paths Errors Values World MemoryStore Persistence PersistThms RewriteThms Metrics Config Lifecycle LifecycleThms LogRotation Health Monitoring Startup.

Section Stuck.
Context {E : Env} `{!EnvOk E}.
Variable active : nat -> nat.
Hypothesis stuck : forall k, active k <> 0%nat.

(** The drain under the timeout: it never ends well, each poll reads the
    clock twice, and nothing but the clock moves. *)
Lemma timed_drain_stuck fuel : forall k first deadline (w : World),
  (first < w_reads w)%nat -> deadline <= mono first + DRAIN_TIMEOUT ->
  deadline <= mono (w_reads w + 2 * fuel - 1) -> (0 < fuel)%nat ->
  exists r w', timed_drain fuel active k (mono first) deadline w = (Ret r, w') /\ ticks w w' /\
    (r = TooLate \/ r = InTime DrainTimeout /\ deadline <= mono (w_reads w')).
Proof.
  induction fuel as [|n IH]; intros k first deadline w Hr Hd Hm Hf; [lia|]. cbn [timed_drain].
  destruct (Nat.eqb_spec (active k) 0) as [H0|_]; [by apply stuck in H0|].
  rewrite bind_run. unfold elapsed. rewrite bind_run. unfold now at 1. cbv iota beta. unfold mret at 1, M_ret at 1. cbv iota beta.
  pose proof (mono_le first (w_reads w) ltac:(lia)) as Hm1. rewrite Z.max_r by lia.
  destruct (Z.leb_spec DRAIN_TIMEOUT (mono (w_reads w) - mono first)) as [Hl|_].
  { eexists _, _. split; [reflexivity|]. split; [repeat split; simpl; lia|]. right. split; [done|]. simpl.
    pose proof (mono_le (w_reads w) (S (w_reads w)) ltac:(lia)). lia. }
  rewrite bind_run. unfold now at 1. cbv iota beta. cbn [tick w_reads].
  destruct (Z.leb_spec deadline (mono (S (w_reads w)))) as [Hl|Hl].
  { eexists _, _. split; [reflexivity|]. split; [repeat split; simpl; lia|by left]. }
  destruct (decide (n = 0)%nat) as [->|Hn].
  { exfalso. replace (w_reads w + 2 * 1 - 1)%nat with (S (w_reads w)) in Hm by lia. lia. }
  destruct (IH (S k) first deadline (tick (tick w))) as (r & w' & Hrun & Ht & Ho);
    [simpl; lia|done| |lia|exists r, w'; split; [exact Hrun|]].
  - cbn [tick w_reads]. etrans; [exact Hm|]. apply Z.eq_le_incl. f_equal. lia.
  - split; [|done]. eapply ticks_trans; [|exact Ht]. repeat split; simpl; lia.
Qed.
End Stuck.



(** ** The start *)

(** A directory the configuration was accepted with is never missing: the
    branch that creates it is not reached. *)
Lemma accepted_dir_exists path_exists to_lowercase c a :
  validate path_exists to_lowercase c = Ok tt -> aof_enabled (storage c) = true ->
  missing_dir path_exists (apply_cli_overrides c a) = None.
Proof.
  intros Hv Ha. unfold validate in Hv. destruct (validate_server (server c)) as [[]|]; [|done]. cbn in Hv.
  destruct (validate_storage path_exists (storage c)) as [[]|] eqn:Hs; [|done]. unfold validate_storage in Hs. rewrite Ha in Hs.
  unfold missing_dir. cbn [apply_cli_overrides storage]. destruct (path_parent _) as [p|]; [|done].
  by destruct (negb (bool_decide (p = [])) && negb (path_exists p)).
Qed.

(** Settings given on the command line are not validated. *)
Example overrides_not_validated :
  validate (fun _ => true) (fun s => s) default_config = Ok tt /\
  validate (fun _ => true) (fun s => s) (apply_cli_overrides default_config (mkServerArgs None None (Some []) None false)) =
    Err (config_error (b#"Bind address cannot be empty") (b#"server.bind_address")).
Proof. split; vm_compute; reflexivity. Qed.

(** The port of the monitoring server wraps around. *)
Lemma monitoring_port_spec c :
  0 <= port (server c) < 2 ^ 16 ->
  monitoring_port c = if port (server c) <? 64536 then port (server c) + 1000 else port (server c) - 64536.
Proof.
  intros Hp. unfold monitoring_port, wrap_u16. change (2 ^ 16) with 65536 in *.
  destruct (Z.ltb_spec (port (server c)) 64536); [apply Z.mod_small; lia|].
  replace (port (server c) + 1000) with (port (server c) - 64536 + 1 * 65536) by lia.
  rewrite Z.mod_add by lia. apply Z.mod_small. lia.
Qed.
