(* ===== verification/Tasks.v ===== *)
(** * The tasks of the server process (src/src/network/server.rs,
    src/src/bin/server.rs, src/src/monitoring.rs,
    src/src/monitoring/log_rotation.rs, src/src/commands/registry.rs)

    The tasks the server spawns, from their start to their end: one client
    from accept to cleanup, the idle evictor, the monitoring server, the
    log rotation, and the coordinator of the binary that runs them and
    decides the exit code.  What other tasks do to the shared pool while a
    client is served is an input ([meanwhile]). *)

From S2P Require Import Prelude Numbers Utf8 Paths Errors Values World MemoryStore Protocol Command Persistence ServerCommands Metrics Connection Server Config Lifecycle LogRotation Floats Rates Health Monitoring Cli Startup.

(** ** Command lines *)

(** [ParsedCommand::parse] *)
Definition parse_input (input : bytes) (client_id : Uuid) : result bytes ParsedCommand :=
  match split_whitespace input with
  | [] => Err (b#"Empty command")
  | name :: args => Ok (mkParsedCommand name args client_id)
  end.

(** ** The socket of a client *)
Record SocketOptions : Type := mkSocketOptions {
  so_nodelay : bool;
  so_keepalive : option (Duration * Duration * Z)   (* idle time, interval, retries *)
}.

(** What the two system calls come to: [None] for success. *)
Definition configure_socket (c : Config) (set_nodelay set_keepalive : option bytes) (o : SocketOptions) :
    Result unit * SocketOptions :=
  match set_nodelay with
  | Some e => (Err (network_error (b#"Failed to set TCP_NODELAY: " ++ e) (Some e)), o)
  | None =>
      let o := mkSocketOptions (tcp_nodelay (network_c c)) (so_keepalive o) in
      if tcp_keepalive (network_c c) then
        match set_keepalive with
        | Some e => (Err (network_error (b#"Failed to set SO_KEEPALIVE: " ++ e) (Some e)), o)
        | None => (Ok tt, mkSocketOptions (so_nodelay o) (Some (from_secs 60, from_secs 10, 6)))
        end
      else (Ok tt, o)
  end.

(** ** Handles shared between the parts *)

(** Which barrier the dispatch path takes and which BGREWRITEAOF takes (the
    [Arc]s are numbered), and how often the shutdown has been signalled. *)
Record Wiring : Type := mkWiring {
  tcp_barrier : nat;
  command_barrier : nat;
  shutdown_signals : nat
}.

Definition with_rewrite_barrier (x : Wiring) (barrier : nat) : Wiring :=
  mkWiring barrier (command_barrier x) (shutdown_signals x).

(** [TcpServer::shutdown] *)
Definition tcp_shutdown (x : Wiring) : Wiring :=
  mkWiring (tcp_barrier x) (command_barrier x) (S (shutdown_signals x)).

(** [with_components_internal]: the TCP server comes with a barrier of its
    [own], which is replaced. *)
Definition wire_components (own shared : nat) : Wiring := with_rewrite_barrier (mkWiring own shared 0) shared.

(** [start_with_addr] of the TCP server and of the whole server: the
    address, and the server whose accept loop runs in the background. *)
Definition tcp_start_with_addr (s : TcpServer) (o : BindOutcome) : Result (bytes * TcpServer) :=
  match tcp_bind s o with
  | Ok t => Ok (default [] (listening_addr t), t)
  | Err e => Err e
  end.

Definition start_with_addr (s : RustyPotatoServer) (o : BindOutcome) : Result (bytes * TcpServer) * RustyPotatoServer :=
  match tcp_server s with
  | Some t => (tcp_start_with_addr t o, mkRustyPotatoServer (rp_config s) (rp_registry s) (rp_persistence s) (bgrewrite_slot s) None)
  | None => (Err already_started, s)
  end.

Section Clients.
Context {E : Env}.

(** [TcpServer::new]: its own metrics. *)
Definition tcp_new (c : Config) : M TcpServer := m ← new_collector; mret (tcp_with_metrics c m).

Variable registry : CommandRegistry.
Variable persistence : option PersistenceManager.
Variable limits : CodecLimits.
Variable meanwhile : ConnectionPool -> ConnectionPool.

(** The task [handle_new_connection] spawns: [true] when it has ended,
    [false] when it waits for the client; the connection as it leaves it,
    the pool and the metrics. *)
Definition connection_task (client_id : Uuid) (events : list ReadEvent) (p : ConnectionPool) (m : MetricsCollector) :
    M (bool * option ClientConnection * ConnectionPool * MetricsCollector) :=
  match get_connection client_id p with
  | Some c =>
      '(closed, _, _, s) ← handle_connection registry persistence limits events (mkSession c m);
      let p := meanwhile p in
      if (closed : bool) then
        let '(p, m) := finish_connection client_id p (metrics s) in mret (true, Some (conn s), p, m)
      else mret (false, Some (conn s), p, metrics s)
  | None =>
      let '(p, m) := finish_connection client_id p m in mret (true, None, p, m)
  end.

(** One client: accepted or turned away, served, cleaned up after.  The
    options of its socket change nothing here; when they cannot be set,
    that is only logged. *)
Definition serve_client (id : Uuid) (t : TcpStream) (addr : bytes) (events : list ReadEvent) (p : ConnectionPool) (m : MetricsCollector) :
    M (bool * option ClientConnection * ConnectionPool * MetricsCollector) :=
  '(r, _, p, m) ← accept_connection id t addr p m;
  match r with
  | Ok (Some _) => connection_task id events p m
  | _ => mret (true, None, p, m)
  end.
End Clients.

(** ** The idle evictor *)
Inductive EvictorEvent : Type := ScanTick | EvictorShutdown.

Section Evictor.
Context {E : Env}.
Variable visit : gmap Uuid ClientConnection -> list (Uuid * ClientConnection).

(** [true]: it waits for the next event. *)
Fixpoint evictor_loop (events : list EvictorEvent) (idle_timeout_secs : Z) (p : ConnectionPool) : M (bool * ConnectionPool) :=
  match events with
  | [] => mret (true, p)
  | ScanTick :: rest =>
      '(_, p) ← evict_idle visit (from_secs idle_timeout_secs) p;
      evictor_loop rest idle_timeout_secs p
  | EvictorShutdown :: _ => mret (false, p)
  end.
End Evictor.

(** ** The monitoring server and the log rotation *)
Section Monitoring.
Context {E : Env} {C : Chrono}.
Variable mem_total_kb : option Z.
Variable gzip : bytes -> result bytes bytes.
Variable json_health : HealthStatus -> option bytes.
Variable json_summary : MetricsSummary -> option bytes.
Variable json_log_status : LogRotationStatus -> option bytes.
Variable build_id : option bytes.

(** What [accept] yields: a failure, or a stream and what is read from it.
    Requests run in the order they are answered in. *)
Fixpoint monitoring_loop (accepted : list (result bytes (result bytes bytes))) (s : MonitoringServer) (fs : LogFs) (answers : list bytes) :
    M (list bytes * MonitoringServer * LogFs) :=
  match accepted with
  | [] => mret (answers, s, fs)
  | Err _ :: rest => monitoring_loop rest s fs answers
  | Ok read :: rest =>
      '(_, sent, s, fs) ← handle_request mem_total_kb gzip json_health json_summary json_log_status build_id read s fs;
      monitoring_loop rest s fs (answers ++ [sent])
  end.

(** [MonitoringServer::start]; [bound] is what [TcpListener::bind] comes to. *)
Definition monitoring_start (bound : option bytes) (accepted : list (result bytes (result bytes bytes))) (s : MonitoringServer) (fs : LogFs) :
    M (Result (list bytes) * MonitoringServer * LogFs) :=
  let addr := mon_bind_address s ++ b#":" ++ dec (mon_port s) in
  match bound with
  | Some e => mret (Err (mon_error (b#"Failed to bind monitoring server to " ++ addr ++ b#": ") e), s, fs)
  | None =>
      '(answers, s, fs) ← monitoring_loop accepted s fs [];
      mret (Ok answers, s, fs)
  end.

(** [LogRotationManager::start]: the status, then one round a minute. *)
Fixpoint rotation_rounds (n : nat) (c : LogRotationConfig) (st : LogRotationStatus) (fs : LogFs) : M (LogRotationStatus * LogFs) :=
  match n with
  | O => mret (st, fs)
  | S n => '(st, fs) ← background_round gzip c st fs; rotation_rounds n c st fs
  end.

Definition rotation_start (rounds : nat) (c : LogRotationConfig) (st : LogRotationStatus) (fs : LogFs) : M (LogRotationStatus * LogFs) :=
  st ← update_status c st fs;
  rotation_rounds rounds c st fs.
End Monitoring.

(** ** The coordinator *)
Record ShutdownCoordinator : Type := mkShutdownCoordinator {
  co_server : option RustyPotatoServer;
  co_monitoring : option MonitoringServer;
  co_log_rotation : option LogRotationManager
}.

Definition new_coordinator (s : RustyPotatoServer) (m : MonitoringServer) (l : LogRotationManager) : ShutdownCoordinator :=
  mkShutdownCoordinator (Some s) (Some m) (Some l).

(** What the [select!] of [run] sees first: the server came to an end, or
    one of the signals arrived. *)
Inductive RunEvent : Type :=
| ServerEnded (r : Result unit)
| Signalled.

Inductive RunResult : Type :=
| RunOk
| RunErr (e : bytes)
| Killed        (* [process::exit(1)] *)
| StillRunning. (* the fuel of the drain is used up *)

Section Run.
Context {E : Env}.

(** [ShutdownCoordinator::run] once its tasks are started; the monitoring task is aborted on
    every way out.  A failure to start the log rotation and the log's own
    errors are only reported. *)
Definition coordinator_run (fuel : nat) (active : nat -> nat) (event : RunEvent) (co : ShutdownCoordinator) : M RunResult :=
  match co_server co with
  | None => panic
  | Some server =>
      match event with
      | ServerEnded (Ok _) => mret RunOk
      | ServerEnded (Err e) => mret (RunErr (display e))
      | Signalled =>
          x ← shutdown_with_timeout fuel active server;
          mret (match x with
                | Finished _ => RunOk
                | ForcedExit => Killed
                | Unfinished => StillRunning
                end)
      end
  end.

(** The end of [async_main]: the exit code. *)
Definition exit_code (r : RunResult) : option Z :=
  match r with
  | RunOk => Some 0
  | RunErr _ => Some 1
  | Killed => Some 1
  | StillRunning => None
  end.

(** [display_version]; the profile is a choice of the build. *)
Definition REPOSITORY : bytes := b#"https://github.com/theprantadutta/rustypotato".

Definition display_version (release : bool) : list bytes :=
  [b#"RustyPotato Server v" ++ VERSION;
   b#"A high-performance Redis-compatible key-value store";
   [];
   b#"Build Information:";
   b#"  Version: " ++ VERSION;
   b#"  Target: " ++ arch_name;
   b#"  Profile: " ++ (if release then b#"release" else b#"debug");
   [];
   b#"For more information, visit: " ++ REPOSITORY].
End Run.

(** ** What is printed *)

(** [InteractiveMode::show_help] *)
Definition show_help : list bytes :=
  [b#"Available Commands:";
   [];
   b#"String Operations:";
   b#"  SET key value [EX|PX|EXAT|PXAT n] [NX|XX] [KEEPTTL] [GET]";
   b#"  GET key                - Get the value of a key";
   b#"  DEL key [key ...]      - Delete keys";
   b#"  EXISTS key [key ...]   - Count existing keys";
   b#"  MGET key [key ...]     - Get multiple values";
   b#"  MSET key val [key val ...] - Set multiple key/value pairs";
   [];
   b#"TTL Operations:";
   b#"  EXPIRE key seconds [NX|XX|GT|LT]";
   b#"  PEXPIRE key milliseconds [NX|XX|GT|LT]";
   b#"  EXPIREAT key unix-seconds [NX|XX|GT|LT]";
   b#"  PEXPIREAT key unix-milliseconds [NX|XX|GT|LT]";
   b#"  TTL key                - Get TTL in seconds";
   b#"  PTTL key               - Get TTL in milliseconds";
   [];
   b#"Atomic Operations:";
   b#"  INCR key               - Increment integer value";
   b#"  DECR key               - Decrement integer value";
   [];
   b#"Hash Operations:";
   b#"  HSET key field value [field value ...]";
   b#"  HGET key field";
   b#"  HMGET key field [field ...]";
   b#"  HDEL key field [field ...]";
   b#"  HGETALL key | HKEYS key | HVALS key | HLEN key";
   b#"  HEXISTS key field";
   [];
   b#"Server / Admin:";
   b#"  PING [message] | ECHO message";
   b#"  DBSIZE | TYPE key | FLUSHDB | KEYS pattern";
   b#"  INFO [section] | COMMAND [COUNT|DOCS|LIST]";
   b#"  BGREWRITEAOF           - Compact the AOF";
   [];
   b#"Interactive Commands:";
   b#"  help                   - Show this help message";
   b#"  clear                  - Clear the screen";
   b#"  quit, exit             - Exit the interactive mode";
   [];
   b#"Tab-completion is available for command names.";
   b#"Up/down arrows recall previous commands.";
   []].

Definition show_bool (b : bool) : bytes := if b then b#"true" else b#"false".
Definition debug_policy (p : FsyncPolicy) : bytes :=
  match p with Always => b#"Always" | EverySecond => b#"EverySecond" | Never => b#"Never" end.

(** [display_startup_info] *)
Definition display_startup_info (c : Config) : list bytes :=
  [b#"╔══════════════════════════════════════════════════════════════╗";
   b#"║                        RustyPotato                           ║";
   b#"║              High-Performance Key-Value Store               ║";
   b#"╚══════════════════════════════════════════════════════════════╝";
   [];
   b#"Server Configuration:";
   b#"  • Bind Address: " ++ bind_address_text c;
   b#"  • Max Connections: " ++ dec (cfg_max_connections (server c));
   b#"  • Worker Threads: " ++ (match worker_threads (server c) with Some n => dec n | None => b#"auto" end);
   [];
   b#"Storage Configuration:";
   b#"  • AOF Enabled: " ++ show_bool (aof_enabled (storage c))]
  ++ (if aof_enabled (storage c) then
        [b#"  • AOF Path: " ++ path_display (aof_path (storage c));
         b#"  • AOF Fsync Policy: " ++ debug_policy (aof_fsync_policy (storage c))]
      else [])
  ++ [[];
      b#"Network Configuration:";
      b#"  • TCP NoDelay: " ++ show_bool (tcp_nodelay (network_c c));
      b#"  • TCP KeepAlive: " ++ show_bool (tcp_keepalive (network_c c));
      b#"  • Read/Write Timeout: " ++ dec (read_timeout (network_c c)) ++ b#"s/" ++ dec (write_timeout (network_c c)) ++ b#"s";
      b#"  • Idle Timeout: " ++ dec (idle_timeout (network_c c)) ++ b#"s";
      []].
