(* ===== verification/TaskThms.v ===== *)
(** * Theorems about the tasks of the server

    A client's slot in the pool is given back exactly once, whatever else
    happens to the pool; a command line is the words it was made of; the
    exit code tells how the server ended. *)

From S2P Require Import Prelude Numbers Utf8 Paths Errors Values World MemoryStore Protocol Command Persistence ServerCommands Metrics Connection Server Config Lifecycle LogRotation Health Monitoring Cli Startup Tasks.

(** ** The slot of a client *)

(** The pool when the client has its slot. *)
Definition admitted (id : Uuid) (c : ClientConnection) (p : ConnectionPool) : ConnectionPool :=
  count_accepted (permits_insert id (connections_insert id c p)).

(** Cleaning up: at most one permit goes back, and it is the client's. *)
Lemma remove_again id p n :
  connections p !! id = None -> id ∉ permits p -> remove_with_retry n id p = p.
Proof.
  intros Hc Hp. induction n as [|n IH]; [done|]. cbn [remove_with_retry]. unfold remove_connection, has_permit.
  cbn [permits_remove set_permits connections]. rewrite (bool_decide_eq_false_2 (id ∈ permits p)), Hc by done. cbn.
  replace (sem_release 0 (connections_remove id (permits_remove id p))) with p; [done|].
  destruct p as [cs ps mx av tot lk]. unfold sem_release, connections_remove, permits_remove, set_permits. simpl in *.
  f_equal; [by rewrite delete_id|set_solver|lia].
Qed.

Lemma removed id p n :
  let q := remove_with_retry (S n) id p in
  connections q = delete id (connections p) /\ permits q = permits p ∖ {[id]} /\
  available_permits q = (available_permits p + if bool_decide (id ∈ permits p) then 1 else 0)%nat /\
  total_connections_accepted q = total_connections_accepted p /\ max_connections q = max_connections p /\ locked q = locked p.
Proof.
  cbn [remove_with_retry]. unfold remove_connection.
  set (p' := sem_release _ _). destruct (bool_decide (is_Some _)); [by unfold has_permit|].
  rewrite remove_again; [done| |].
  - unfold p'. simpl. apply lookup_delete_eq.
  - unfold p'. simpl. set_solver.
Qed.

Section Slot.
Context {E : Env}.
Variable registry : CommandRegistry.
Variable persistence : option PersistenceManager.
Variable lim : CodecLimits.

(** The accepted client is in the pool. *)
Lemma accept_admits id t addr p m w r t' p' m' w' :
  accept_connection id t addr p m w = (Ret (r, t', p', m'), w') ->
  (r = Ok None /\ available_permits p = 0%nat /\ p' = p) \/
  exists c q, r = Ok (Some c) /\ sem_try_acquire p = Some q /\ p' = admitted id c q /\ conn_client_id c = id.
Proof.
  unfold accept_connection, try_reserve_slot. destruct (sem_try_acquire p) as [q|] eqn:Hq.
  - rewrite bind_run. unfold new_connection. rewrite bind_run. unfold now, mret, M_ret. cbn.
    intros [= <- <- <- <- <-]. right. eexists _, q. by split_and!.
  - unfold mret, M_ret. intros [= <- <- <- <- <-]. left. split_and!; [done| |done].
    unfold sem_try_acquire in Hq. by destruct (available_permits p).
Qed.

Lemma task_ends (meanwhile : ConnectionPool -> ConnectionPool) id events c p m w oc p' m' w' :
  connections p !! id = Some c ->
  connection_task registry persistence lim meanwhile id events p m w = (Ret (true, oc, p', m'), w') ->
  p' = remove_with_retry 3 id (meanwhile p).
Proof.
  intros Hc. unfold connection_task, get_connection. rewrite Hc, bind_run.
  destruct (handle_connection _ _ _ _ _ w) as [[[[[closed codec] n] s]|] w1]; [|done].
  destruct closed; unfold finish_connection, mret, M_ret; [|done]. intros H. congruence.
Qed.
End Slot.

(** A client that comes and goes while nobody else does. *)
Lemma admitted_removed id c p q :
  connections p !! id = None -> id ∉ permits p -> sem_try_acquire p = Some q ->
  remove_with_retry 3 id (admitted id c q) = count_accepted p.
Proof.
  intros Hc Hp Hq. destruct (removed id (admitted id c q) 2) as (H1 & H2 & H3 & H4 & H5 & H6).
  destruct (remove_with_retry 3 id (admitted id c q)) as [cs ps mx av tot lk]. simpl in H1, H2, H3, H4, H5, H6. subst.
  destruct p as [cs ps mx av tot lk]. unfold sem_try_acquire in Hq. simpl in Hc, Hp, Hq. destruct av as [|n]; [done|].
  injection Hq as <-. unfold count_accepted, permits_insert. simpl.
  rewrite bool_decide_eq_true_2 by set_solver. destruct (decide (id ∈ ps)); [done|].
  f_equal; [by rewrite delete_insert_id|set_solver|lia].
Qed.



(** ** Command lines *)

(** A word: not empty, UTF-8, without white space. *)
Definition is_word (s : bytes) : Prop := s <> [] /\ exists cs, chars s = Some cs /\ existsb is_whitespace cs = false.

Lemma words_run cs rest word :
  existsb is_whitespace cs = false -> words (cs ++ rest) word = words rest (word ++ concat cs).
Proof.
  revert word. induction cs as [|c cs IH]; intros word; simpl; [by rewrite app_nil_r|].
  intros [Hc Hcs]%orb_false_iff. by rewrite Hc, IH, (assoc_L (++)).
Qed.

Lemma chars_space : chars (b#" ") = Some [b#" "].
Proof. reflexivity. Qed.

(** The characters of words joined by spaces, read as words. *)
Lemma split_join ws : Forall is_word ws -> split_whitespace (join (b#" ") ws) = ws /\ is_Some (chars (join (b#" ") ws)).
Proof.
  unfold split_whitespace, chars_of. induction ws as [|s ws IH]; [done|].
  intros [(Hne & cs & Hcs & Hw) Hws]%Forall_cons. destruct (IH Hws) as [IH1 [ds Hds]]. clear IH.
  destruct ws as [|s' ws].
  - change (join (b#" ") [s]) with s. rewrite Hcs. simpl. split; [|done]. rewrite <- (app_nil_r cs), words_run by done. rewrite (chars_concat _ _ Hcs). simpl.
    by rewrite bool_decide_eq_false_2.
  - change (join (b#" ") (s :: s' :: ws)) with (s ++ b#" " ++ join (b#" ") (s' :: ws)).
    pose proof (chars_app _ _ _ _ chars_space Hds) as Hr. pose proof (chars_app _ _ _ _ Hcs Hr) as Hall. rewrite Hall.
    split; [|done]. change (default [] (Some ?x)) with x. rewrite words_run by done. rewrite (chars_concat _ _ Hcs). cbn [app words].
    replace (is_whitespace (b#" ")) with true by reflexivity. rewrite bool_decide_eq_false_2 by done.
    f_equal. rewrite Hds in IH1. exact IH1.
Qed.

(** A command line is its words. A name and arguments that are words
    (not empty, UTF-8, without white space), joined by spaces, are parsed
    to that name and those arguments, whatever characters they use. *)
Theorem parse_input_words (n : bytes) (l : list bytes) (id : Uuid) :
  Forall is_word (n :: l) -> parse_input (join (b#" ") (n :: l)) id = Ok (mkParsedCommand n l id).
Proof. intros H. unfold parse_input. destruct (split_join _ H) as [-> _]. done. Qed.

Lemma parse_input_words_witness :
  parse_input (b#"SET k v") 1 = Ok (mkParsedCommand (b#"SET") [b#"k"; b#"v"] 1).
Proof.
  apply (parse_input_words (b#"SET") [b#"k"; b#"v"] 1).
  repeat (apply Forall_cons_2; [split; [discriminate|eexists; split; [reflexivity|reflexivity]]|]). apply Forall_nil_2.
Defined.

(** ** Starting *)

(** A command that changes the store and a rewrite exclude each other: they
    take the same barrier. *)
Lemma barrier_shared own shared : tcp_barrier (wire_components own shared) = command_barrier (wire_components own shared).
Proof. done. Qed.

(** Both ways of starting bind the same server, and only once. *)
Lemma start_with_addr_start s o :
  (start_with_addr s o).2 = (start s o).2 /\
  match (start s o).1 with
  | Ok t => exists a, (start_with_addr s o).1 = Ok (a, t) /\ listening_addr t = Some a
  | Err e => (start_with_addr s o).1 = Err e
  end.
Proof.
  unfold start, start_with_addr, tcp_start_with_addr. destruct (tcp_server s) as [t|]; [|done]. simpl. split; [done|].
  destruct o as [a|e|e]; simpl; [by exists a|done..].
Qed.

(** ** The end of the process *)

(** The process ends with code 0 exactly when the server came to its end
    without an error or a signal led to a shutdown in time. *)
Lemma exit_code_zero {E : Env} fuel active ev co r w w' :
  coordinator_run fuel active ev co w = (Ret r, w') ->
  (exit_code r = Some 0 <->
   ev = ServerEnded (Ok tt) \/
   exists s d, ev = Signalled /\ co_server co = Some s /\ shutdown_with_timeout fuel active s w = (Ret (Finished d), w')).
Proof.
  unfold coordinator_run. destruct (co_server co) as [s|]; [|done]. destruct ev as [[[]|e]|].
  - unfold mret, M_ret. intros H. assert (r = RunOk) as -> by congruence. split; [by left|done].
  - unfold mret, M_ret. intros H. assert (r = RunErr (display e)) as -> by congruence. split; [done|].
    intros [H1|(? & ? & H1 & _)]; congruence.
  - rewrite bind_run. destruct (shutdown_with_timeout fuel active s w) as [[x|] w1] eqn:Hx; [|done]. unfold mret, M_ret. intros H.
    assert (w' = w1) as -> by congruence. destruct x as [d| |].
    + assert (r = RunOk) as -> by congruence. split; [|done]. intros _. right. by exists s, d.
    + assert (r = Killed) as -> by congruence. split; [done|]. intros [H1|(? & ? & _ & H1 & H2)]; congruence.
    + assert (r = StillRunning) as -> by congruence. split; [done|]. intros [H1|(? & ? & _ & H1 & H2)]; congruence.
Qed.

(** ** The help text *)

(** Every command of the server is in the help, QUIT as the client's own. *)
Lemma help_covers_commands {E : Env} slot c :
  c ∈ main_commands slot ++ [CommandCommand 33] -> cmd_name c <> b#"QUIT" ->
  existsb (fun line => existsb (bytes_eqb (cmd_name c)) (split_whitespace line)) show_help = true.
Proof.
  intros Hin Hq. apply list_elem_of_In in Hin. cbn [main_commands app In] in Hin.
  repeat (destruct Hin as [<-|Hin]; [try (vm_compute; reflexivity); by destruct Hq|]). destruct Hin.
Qed.
